(* ===== verification/_CoqProject ===== *)
-Q . S2P
Prelude.v
RustInt.v
RustStr.v
RustFloat.v
Externs.v
RustIo.v
RustNet.v
ClientError.v
Enums.v
Types.v
Frame.v
Scanner.v
ParserBook.v
ParserQuote.v
ParserTrade.v
ParserMisc.v
Parser.v
OrderBook.v
BookEngine.v
Quote.v
TradeBuf.v
Wal.v
DiskLog.v
StagedTrade.v
TradeWriter.v
TradeRow.v
DurableWriter.v
Recovery.v
WriterRefinement.v
ConcurrentWriter.v
Fanout.v
Sinks.v
Coalescing.v
Commands.v
Handshake.v
Connection.v
Reader.v
ReaderThreads.v
RawArchive.v
AssetCache.v
Pipeline.v
TradeBlob.v
Typing.v
Shutdown.v
Bootstrap.v
RuntimeConfig.v
Observability.v
Daemon.v
Api.v
Server.v
Serving.v
Feed.v
Live.v
Publishing.v
EndToEnd.v
Settling.v
