(* ===== verification/Prelude.v ===== *)
(** * market_data_v2: a verified model of a market-data pipeline

    The program ingests a market-data feed over one TCP connection, keeps
    quotes, order books and recent trades in memory, stores trades in a
    database behind a write-ahead log, publishes changes to NATS and Redis, and
    serves snapshots over HTTP. This library models its logic as executable
    definitions and proves what each part promises, what the parts promise each
    other, and where the code departs from its own documentation.

    ** The program and its model

    The path of a frame, with the files of the model and of the source
    (crates under [src/crates/], binaries under [src/bin/]):

    - [ClientError.v], [Handshake.v], [Connection.v]: [cedro-client] [error.rs],
      [config.rs], [handshake.rs], [connection.rs]. [Handshake.perform] is the
      dialogue as a function of what the socket delivers and of how its writes
      go; [ConnectionConfig.validate] the check before it; [Connection.open]
      both, over an operating system that answers each call, with a trace of the
      calls and of the handshake among them ([plan]).
    - [Frame.v]: [cedro-protocol] [frame.rs]. [FrameSplitter] is the buffer
      that turns bytes into frames; [split_frames] its specification.
    - [Reader.v], [ReaderThreads.v]: [cedro-client] [reader.rs]. The reader
      thread's loop over its reads, delivering frames to the channel, and the
      watchdog's loop over its samples of the receive buffer, each as a
      function; then [Reader::spawn], both threads, the workers that receive and
      [ReaderHandle::shutdown] as interleaved steps over the bounded channel.
    - [Scanner.v], [ParserBook.v], [ParserQuote.v], [ParserTrade.v],
      [ParserMisc.v], [Parser.v]: [cedro-protocol] [parser/]. The field
      scanner is a state and error monad ([Scanner.scan]); each parser is a
      Module named after its message, with [debug_parse] for a build with debug
      assertions; [parse_frame] dispatches. The grammars it is proved against
      are Inductive relations, in [ParserQuote.v] over the table of api.md
      ([Doc.table]). [Enums.v] and [Types.v] are [enums.rs] and [types.rs].
    - [OrderBook.v], [BookEngine.v]: [market-engine] [book/] and [shard.rs].
      The book's two vectors and its order-id index; the sharded engine over
      it, with [BookSpec] as its specification.
    - [Quote.v], [TradeBuf.v]: [market-engine] [quote.rs], [trade.rs].
    - [Wal.v], [StagedTrade.v], [TradeWriter.v], [AssetCache.v]:
      [persistence]. The log with its buffering, its unsynced changes, which a
      crash keeps a prefix of ([Unsynced]), and its syncs; the record format; the
      writer over log and database.
    - [DiskLog.v], [TradeRow.v], [DurableWriter.v], [Recovery.v],
      [WriterRefinement.v], [ConcurrentWriter.v]: log and writer again, in more detail: over a disk on
      which every call can fail half-way ([Disk], [BufWriter], [DiskWal]) and a
      table of rows with its columns, its unique index and its limit
      ([TradesTable]). [DurableWriter] has every way a call can end; [Recovery]
      is about restarts; [WriterRefinement] shows that the rows implement the
      interface [TradeTable] of the simple writer and that, without faults, the
      detailed one behaves like it; [ConcurrentWriter] has any number of its
      calls at a time, between their locks and awaits.
    - [Fanout.v], [Sinks.v], [Coalescing.v]: [fanout] and [api-server]
      [snapshot_store.rs]. Keys, the coalescer over the log of its calls, the
      publisher's writes, either of which can fail, and the reads of the other
      service from a Redis whose entries expire ([Redis]); the trait
      [FanoutSink], its two implementations, and the coalescer over any of them;
      then the coalescer at its await points.
    - [RawArchive.v]: [raw-archive] [writer.rs]. Queue, hourly files, records.
    - [Commands.v]: [cedro-client] [commands.rs], [subscription.rs].
    - [Pipeline.v], [Bootstrap.v], [RuntimeConfig.v], [Daemon.v], [Shutdown.v]:
      [ingest-daemon] [pipeline.rs], [bootstrap.rs], [runtime_config.rs], [main.rs].
      [Pipeline.dispatch] routes a message to the engines, the catalog and the
      spawned tasks; [Worker.step] is the pool of workers over one channel,
      interleaved with tasks and timers. [Daemon.start] is [main] up to the
      running workers, [Shutdown] what it does after the signal, against the
      flush timer and the reader's threads. [Observability.v] is the crate of
      that name.
    - [Typing.v]: the widths and variants of every message and of everything
      the engines keep.
    - [TradeBlob.v]: the object [pipeline.rs] logs for a trade, and what the
      writer's recovery makes of it.
    - [Feed.v], [Live.v], [Publishing.v]: the reader in front of the pool: the
      engines as functions of the bytes of the feed, first with the reader run to
      its end, then with its threads, the workers, the tasks and the timers
      interleaved, then with the coalescer at its await points as well.
      [Settling.v] is about what such a daemon can always still do.
    - [Serving.v], [EndToEnd.v]: coalescer, publisher, Redis and the quote
      handler in a row, and behind the running daemon: from the socket to the
      answer of a request.
    - [Api.v], [Server.v]: [api-server] [config.rs], [auth.rs], [error.rs],
      [http/], [ws/protocol.rs]; its [router.rs], the route table, the binary, and
      a request from its extractors to its answer ([respond]).

    [Prelude.v] (this file) has results, bytes, positional lists and the
    shared automation; [RustInt.v], [RustStr.v] and [RustFloat.v] are the
    integers, strings and floats of the source language, [RustIo.v] a state and
    error monad with the writer whose calls can fail in it, [RustNet.v] the
    address parser of the standard library; [Externs.v] the interfaces of
    third-party code.

    ** Conventions

    A Module stands for a type of the source: [t] is the struct or enum, [mk]
    its constructor, and the other definitions its methods, under the source's
    names. A method that changes its receiver returns the new state; [Result]
    is [result], with the error type first, and [x ← e; k] is the [?] operator.
    A panic is [None] where one is possible. Bytes are [list byte], a string is
    its UTF-8 bytes, an integer a [Z] with its width's checks and wrap-around
    written out, an [f64] its bit pattern with arithmetic and parsing by
    [SpecFloat]. Hash maps are [gmap], hash sets [gset]; where the source
    iterates over one, the theorem holds for any order or for a set.

    Locks are taken for the duration of one operation, so an operation under a
    lock is one step. Where the source leaves a lock between two actions, or
    several threads share a state, the model has a step relation or schedules:
    [WriterCalls] for overlapping calls of the writer, [Worker] for the pool,
    [ReaderThreads] for the reader, the watchdog and their owner, [Live] for
    these and the pool, [CoalescerStep] for submissions against flushes,
    [Publishing] for [Live] with it, [Shutdown] for [main] against the flush timer, [AssetCache.refresh_trace]
    for a refresh against its readers.

    ** Third-party code

    Each is a parameter, a class in [Externs.v] or in the file that uses it,
    with its documented behaviour as the laws of a second class and a reference
    instance that satisfies them: byte search ([Memchr]), the shard hash
    ([AHash], no law), time stamps ([Chrono]), the trades table ([TradeTable]:
    a successful insert stores its batch, nothing is lost and nothing else
    appears), its rows ([TradesTable]: a statement is atomic, a unique index
    takes NULLs for distinct, at most 65535 parameters), decimals
    ([DecimalOps]: a float that is not finite is none), the text of a JSON object
    ([SerdeJson]: it begins with the first key), compression ([Zstd]), header
    text ([HeaderText]), the entity-tag
    hash ([PayloadHash], no law), JSON and MessagePack ([Serialisers],
    [StagedTradeExt], no laws), bounded channels ([Crossbeam]), the logging and
    metrics crates ([Telemetry], no law), the paths and header values axum takes
    ([Axum]), what axum answers to a request it cannot decode (a type). The
    operating system's answers are arguments: whether memory for what the
    configuration sizes can be had ([Allocation]), a result for every
    call on the socket ([Connection]), an outcome for every write ([Writer]) and
    for every call on the log's file ([Disk], with what a crash can leave).
    [tokio]'s [Notify] is written into the steps of [Shutdown].

    ** What the theorems show

    - Framing and reading: the frames depend on the bytes and not on the
      chunks; the reader delivers exactly the frames of what it read, until its
      receiver goes; under any interleaving the workers get them in order and
      the channel stays within its capacity.
    - Typing: parsed messages fit the widths of their fields, and every step of
      the daemon keeps the engines so.
    - Starting and stopping: what opening a connection does call by call and
      where each failure leaves it, that no credential precedes its prompt, when exactly the daemon starts; that a
      stopped reader stops within a bound, and that a shutdown can finish.
    - Parsing: for each message, a frame is accepted exactly when its fields
      have one of the layouts of a grammar, and the message has their values;
      for books, trades and quotes also how that grammar relates to the documented
      formats. Dispatch is by the first field, so that no frame fails a debug
      assertion. Number parsers are exact at their widths.
    - Engines: the order book refines positional insertion, move and deletion,
      and its index is exact while ids are fresh; sharding is unobservable;
      quotes are last-write-wins per field; the trade buffer is the bounded
      window of its history.
    - Durability: the log replays what was appended, after a crash what it held
      at some moment since the last sync and nothing corrupted, so without a
      truncation since then a prefix with everything synced; on a failing disk
      what was acknowledged before the first failure; records round-trip; how a
      flush can end, and that a failed one keeps its batch in the log; while
      calls made one at a time return [Ok] no trade is lost, and a restart
      recovers what was synced.
    - Pipeline: the pool dispatches every parsed frame exactly once under any
      schedule, can always finish, and leaves each engine the fold of its own
      operations; from the reads to the engines, every quote counts once and
      one worker makes the engines a function of the byte stream, at every
      moment of a running daemon, which can always bring what is on its way to
      its end; bootstrap subscribes exactly the catalog;
      archives read back, hour by hour, whatever fails in other hours.
    - Publishing and serving: coalescing keeps the last payload per key, and
      interleaved it publishes what the atomic coalescer does; a quote request
      is answered with the last payload submitted whose write to Redis succeeded,
      until it expires, which for a running daemon whose writes succeed is a
      function of the bytes it has read; it publishes once per trade, and for
      a quote or a book at least once and at most once per message; keys are
      injective and agreed on by the two services; commands can be read back; authentication
      and batches are exact, and no data is served without a token.
    - Where the code departs from its documents: frames of one ticker can be
      applied out of order by two workers; the daemon stores no trade
      and publishes placeholders; it starts with every book refused; a failed
      flush, a flush during a stage, a failed append and a torn log each lose
      trades, and a truncation that is not synced can bring them back; recovery repeats trades without an id, fails on a long log and
      reads nothing of what the daemon logs; a price that is not finite is
      stored as zero; five indices of a quote are read otherwise than documented
      and part of a frame is ignored behind an empty field; overlapping flushes publish a stale payload last; shared
      order ids are forgotten; the handshake drops bytes; the documented host
      name is refused; a signal during a flush is lost and a shutdown waits for a
      quiet feed; the api-server's routes are refused by its own framework.

    ** Bounds and fuel

    Loops that are not structural take fuel. [FrameSplitter.drain] and the
    reader's inner loop take the bytes in the buffer (each frame removes its
    terminator), the scanner's field loops one more than the length of the
    frame, the replay of the log one more than the file (each record takes at
    least eight bytes), UTF-8 decoding and trimming the length of the string,
    printing a decimal its binary logarithm, printing a hash its sixteen
    digits. In each case the theorems on the calling operation have no fuel in
    them: they hold for the fuel the operation passes. Capacities
    ([with_capacity], read sizes, the encoder's flush threshold) affect no
    result; durations are in milliseconds, thresholds computed in binary64 as
    the code does.

    ** Not modelled

    Metrics and logging; lock poisoning; in [Wal.v] disk errors other than a
    crash ([DiskLog.v] has them); an allocation that fails after the start; the
    clock of Redis running apart from the caller's; the effect
    of pinning a thread to a core; the sleeps between commands; reconnection,
    which the source announces but does not have; routing of a request to its
    handler, which is axum's; decimal arithmetic and JSON text beyond their
    laws; the serde encodings of the WebSocket messages, which have no handler;
    text forms of errors; the flush that [BufWriter] tries when it is dropped;
    calls cancelled at an [await]; in the running daemon the writer's await
    points, which its calls do not reach ([writer_idle] of [Publishing.v]). *)

From stdpp Require Export base tactics option list list_numbers numbers gmap sets strings.
From Stdlib Require Export ZArith Lia.
From Stdlib Require Export Strings.Byte.

#[export] Set Default Goal Selector "!".
#[global] Open Scope Z_scope.

(** ** Results

    [Result<A, E>] of the source, with the error type first so that
    [result E] is a monad; [x ← e; k] is the [?] operator. *)

Inductive result (E A : Type) : Type :=
  | Ok (a : A)
  | Err (e : E).
Arguments Ok {E A} a.
Arguments Err {E A} e.

#[export] Instance result_ret {E} : MRet (result E) := λ A a, Ok a.
#[export] Instance result_bind {E} : MBind (result E) := λ A B f r,
  match r with Ok a => f a | Err e => Err e end.
#[export] Instance result_fmap {E} : FMap (result E) := λ A B f r,
  match r with Ok a => Ok (f a) | Err e => Err e end.

#[export] Instance result_eq_dec {E A} `{EqDecision E, EqDecision A} :
  EqDecision (result E A).
Proof. solve_decision. Defined.

(** [Option::ok_or] and [Result::ok]. *)
Definition ok_or {E A} (o : option A) (e : E) : result E A :=
  match o with Some a => Ok a | None => Err e end.
Definition result_ok {E A} (r : result E A) : option A :=
  match r with Ok a => Some a | Err _ => None end.
(** [Result::map_err]. *)
Definition map_err {E F A} (f : E → F) (r : result E A) : result F A :=
  match r with Ok a => Ok a | Err e => Err (f e) end.

Section result_lemmas.
Context {E A B : Type}.
Implicit Types (r : result E A) (a : A) (e : E).

Lemma result_bind_Ok r (f : A → result E B) b :
  r ≫= f = Ok b ↔ ∃ a, r = Ok a ∧ f a = Ok b.
Proof.
  destruct r as [a|e]; simpl; split.
  - intros H. by exists a.
  - by intros (a' & [= <-] & H).
  - done.
  - by intros (a' & ? & _).
Qed.

Lemma ok_or_Ok (o : option A) e a : ok_or o e = Ok a ↔ o = Some a.
Proof. destruct o; simpl; naive_solver. Qed.

Lemma map_err_Ok {F} (f : E → F) r a : map_err f r = Ok a ↔ r = Ok a.
Proof. destruct r; simpl; naive_solver. Qed.
End result_lemmas.

(** ** Bytes

    A [u8] is a [byte] of the standard library, a [&[u8]], [Bytes] or
    [Vec<u8>] a list of them: the [bytes] crate's zero-copy views are modelled
    by their contents. A [str] is the list of its UTF-8 bytes, as in Rust. *)

Abbreviation bytes := (list byte).

(** The unsigned value of a byte, and the byte of an integer modulo 256. *)
Definition u8 (b : byte) : Z := Z.of_N (Byte.to_N b).
Definition byte_of_Z (z : Z) : byte :=
  default x00 (Byte.of_N (Z.to_N (z mod 256))).

(** Byte-string literals: [b"..."] of the source is [bs "..."]. *)
Definition bs (s : string) : bytes := String.list_byte_of_string s.
Arguments bs s%_string_scope.

#[export] Instance byte_eq_dec : EqDecision byte := Byte.byte_eq_dec.
#[export] Instance byte_countable : Countable byte.
Proof.
  refine (inj_countable Byte.to_N (λ n, Byte.of_N n) _).
  intros b. apply Byte.of_to_N.
Defined.

Lemma u8_range b : 0 ≤ u8 b < 256.
Proof.
  unfold u8. pose proof (Byte.to_N_bounded b). split; lia.
Qed.

Lemma u8_inj b1 b2 : u8 b1 = u8 b2 → b1 = b2.
Proof.
  unfold u8. intros H. apply N2Z.inj in H.
  pose proof (Byte.of_to_N b1). pose proof (Byte.of_to_N b2). congruence.
Qed.

Lemma u8_byte_of_Z z : u8 (byte_of_Z z) = z mod 256.
Proof.
  unfold u8, byte_of_Z.
  assert (0 ≤ z mod 256 < 256) as Hz by (apply Z.mod_pos_bound; lia).
  destruct (Byte.of_N (Z.to_N (z mod 256))) as [b|] eqn:Hb; simpl.
  - apply Byte.to_of_N in Hb. rewrite Hb. lia.
  - apply Byte.of_N_None_iff in Hb. lia.
Qed.

Lemma byte_of_Z_u8 b : byte_of_Z (u8 b) = b.
Proof.
  apply u8_inj. rewrite u8_byte_of_Z. apply Z.mod_small, u8_range.
Qed.

(** [slice::starts_with]. *)
Fixpoint starts_with (p l : bytes) : bool :=
  match p, l with
  | [], _ => true
  | _ :: _, [] => false
  | x :: p', y :: l' => bool_decide (x = y) && starts_with p' l'
  end.

Lemma starts_with_spec p l : starts_with p l = true ↔ p `prefix_of` l.
Proof.
  revert l. induction p as [|x p IH]; intros [|y l]; simpl.
  - split; [intros _; apply prefix_nil|done].
  - split; [intros _; apply prefix_nil|done].
  - split; [done|]. intros H. by apply prefix_nil_not in H.
  - rewrite andb_true_iff, bool_decide_eq_true, IH. split.
    + intros [-> ?]. by apply prefix_cons.
    + intros H. split; [by eapply prefix_cons_inv_1|by eapply prefix_cons_inv_2].
Qed.

(** ** Joining and splitting lists at a separator

    The wire formats of the source are flat sequences of fields; [join] and
    [split_on] are their abstract reading. *)

Section split_join.
Context {A : Type} `{EqDecision A}.
Implicit Types (c : A) (l : list A) (ts : list (list A)).

Fixpoint split_on c l : list (list A) :=
  match l with
  | [] => [[]]
  | x :: l' =>
      if decide (x = c) then [] :: split_on c l'
      else match split_on c l' with
           | [] => [[x]]
           | t :: ts => (x :: t) :: ts
           end
  end.

Fixpoint join c ts : list A :=
  match ts with
  | [] => []
  | [t] => t
  | t :: ts' => t ++ c :: join c ts'
  end.

Lemma split_on_not_nil c l : split_on c l ≠ [].
Proof.
  destruct l as [|x l]; simpl; [done|].
  case_decide; [done|]. by destruct (split_on c l).
Qed.

Lemma split_on_no_sep c t : c ∉ t → split_on c t = [t].
Proof.
  induction t as [|x t IH]; simpl; intros Hc; [done|].
  apply not_elem_of_cons in Hc as [Hx Ht].
  rewrite decide_False by congruence. by rewrite IH.
Qed.

Lemma split_on_app_sep c t l :
  c ∉ t → split_on c (t ++ c :: l) = t :: split_on c l.
Proof.
  induction t as [|x t IH]; simpl; intros Hc.
  - by rewrite decide_True.
  - apply not_elem_of_cons in Hc as [Hx Ht].
    rewrite decide_False by congruence. by rewrite IH.
Qed.

Lemma join_split_on c l : join c (split_on c l) = l.
Proof.
  induction l as [|x l IH]; simpl; [done|].
  pose proof (split_on_not_nil c l) as Hne.
  case_decide as Hx.
  - subst. simpl. destruct (split_on c l) as [|t ts] eqn:E; [done|].
    by rewrite IH.
  - destruct (split_on c l) as [|t [|t' ts]]; simpl in *; [done|by subst|].
    by rewrite IH.
Qed.

Lemma split_on_join c ts :
  ts ≠ [] → Forall (λ t, c ∉ t) ts → split_on c (join c ts) = ts.
Proof.
  induction ts as [|t ts IH]; intros Hne Hall; [done|].
  apply Forall_cons in Hall as [Ht Hts].
  destruct ts as [|t' ts].
  - by apply split_on_no_sep.
  - change (join c (t :: t' :: ts)) with (t ++ c :: join c (t' :: ts)).
    rewrite split_on_app_sep by done. by rewrite IH.
Qed.

Lemma split_on_no_sep_Forall c l : Forall (λ t, c ∉ t) (split_on c l).
Proof.
  induction l as [|x l IH]; simpl.
  - constructor; [|constructor]. apply not_elem_of_nil.
  - case_decide as Hx.
    + constructor; [apply not_elem_of_nil|done].
    + destruct (split_on c l) as [|t ts] eqn:E.
      { by apply split_on_not_nil in E. }
      apply Forall_cons in IH as [Ht Hts].
      constructor; [|done]. apply not_elem_of_cons. split; congruence.
Qed.
End split_join.

(** ** Positional list operations

    [Vec::insert], [Vec::remove] and the prefix drain of the source, on
    in-range positions. *)

Definition insert_at {A} (i : nat) (x : A) (l : list A) : list A :=
  take i l ++ x :: drop i l.
Definition remove_at {A} (i : nat) (l : list A) : list A :=
  take i l ++ drop (S i) l.

Section positional.
Context {A : Type}.
Implicit Types (l : list A) (x : A) (i j : nat).

Lemma length_insert_at i x l : length (insert_at i x l) = S (length l).
Proof.
  unfold insert_at. rewrite length_app, length_take. simpl.
  rewrite length_drop. lia.
Qed.

Lemma length_remove_at i l :
  (i < length l)%nat → length (remove_at i l) = (length l - 1)%nat.
Proof.
  intros Hi. unfold remove_at. rewrite length_app, length_take, length_drop. lia.
Qed.

Lemma lookup_insert_at i x l j :
  (i ≤ length l)%nat →
  insert_at i x l !! j =
    if decide (j < i)%nat then l !! j
    else if decide (j = i) then Some x else l !! (j - 1)%nat.
Proof.
  intros Hi. unfold insert_at.
  assert (length (take i l) = i) as Hlen by (rewrite length_take; lia).
  case_decide as Hj; [|case_decide as Hji].
  - rewrite lookup_app_l by lia. by apply lookup_take_lt.
  - subst. rewrite lookup_app_r by lia. by rewrite Hlen, Nat.sub_diag.
  - rewrite lookup_app_r, Hlen by lia.
    destruct (j - i)%nat as [|k] eqn:Hk; [lia|]. simpl.
    rewrite lookup_drop. f_equal. lia.
Qed.

Lemma lookup_remove_at i l j :
  (i < length l)%nat →
  remove_at i l !! j = if decide (j < i)%nat then l !! j else l !! S j.
Proof.
  intros Hi. unfold remove_at.
  assert (length (take i l) = i) as Hlen by (rewrite length_take; lia).
  case_decide as Hj.
  - rewrite lookup_app_l by lia. by apply lookup_take_lt.
  - rewrite lookup_app_r, Hlen, lookup_drop by lia. f_equal. lia.
Qed.

Lemma remove_at_app l1 x l2 : remove_at (length l1) (l1 ++ x :: l2) = l1 ++ l2.
Proof.
  unfold remove_at. rewrite take_app_length.
  replace (S (length l1)) with (length (l1 ++ [x])) by (rewrite length_app; simpl; lia).
  rewrite (cons_middle x l1 l2), (assoc_L (++)), drop_app_length. done.
Qed.
End positional.

(** ** Automation *)

Create HintDb md.
Create Rewrite HintDb md.
#[export] Hint Resolve u8_range : md.
#[export] Hint Rewrite @length_insert_at : md.
#[export] Hint Rewrite u8_byte_of_Z byte_of_Z_u8 : md.

(** Destructs the scrutinee of a [match] in a hypothesis or the goal and
    cleans the resulting equations. *)
Ltac split_match :=
  match goal with
  | |- context [match ?x with _ => _ end] => destruct x eqn:?
  | H : context [match ?x with _ => _ end] |- _ => destruct x eqn:?
  end; simplify_eq/=.

(** Inverts a successful monadic computation in [result]. *)
Ltac inv_ok H :=
  repeat match type of H with
  | _ ≫= _ = Ok _ =>
      let a := fresh "a" in let Ha := fresh "Ha" in
      apply result_bind_Ok in H as (a & Ha & H)
  end.
