(* ===== verification/RustInt.v ===== *)
(** * Machine integers of the source language

    Rust's fixed-width integers are [Z] with their ranges written out; this
    file holds the checked operations, conversions, decimal parsing/printing
    and little-endian encodings of the standard library that the source uses. *)

From S2P Require Import Prelude.

(** ** Ranges and conversions *)

Definition u16_max : Z := 2 ^ 16 - 1.
Definition u32_max : Z := 2 ^ 32 - 1.
Definition u64_max : Z := 2 ^ 64 - 1.
Definition i16_min : Z := - 2 ^ 15.
Definition i16_max : Z := 2 ^ 15 - 1.
Definition i32_min : Z := - 2 ^ 31.
Definition i32_max : Z := 2 ^ 31 - 1.
Definition i64_min : Z := - 2 ^ 63.
Definition i64_max : Z := 2 ^ 63 - 1.
(** Targets are 64-bit. *)
Definition usize_max : Z := u64_max.

Definition in_range (lo hi z : Z) : bool := (lo <=? z) && (z <=? hi).

(** [T::try_from], [checked_add] and [checked_mul]: the exact result when it
    is representable. *)
Definition checked (lo hi z : Z) : option Z :=
  if in_range lo hi z then Some z else None.

(** [wrapping_add] and [as] casts to an unsigned width. *)
Definition wrap (w z : Z) : Z := z mod 2 ^ w.
(** The two's-complement reading of a [w]-bit pattern. *)
Definition swrap (w z : Z) : Z := (z + 2 ^ (w - 1)) mod 2 ^ w - 2 ^ (w - 1).

Lemma in_range_spec lo hi z : in_range lo hi z = true ↔ lo ≤ z ≤ hi.
Proof. unfold in_range. rewrite andb_true_iff, !Z.leb_le. lia. Qed.

Lemma checked_Some lo hi z n : checked lo hi z = Some n ↔ n = z ∧ lo ≤ z ≤ hi.
Proof.
  unfold checked. destruct (in_range lo hi z) eqn:E.
  - apply in_range_spec in E. naive_solver.
  - assert (¬ lo ≤ z ≤ hi) by (rewrite <-in_range_spec; congruence).
    naive_solver.
Qed.

Lemma checked_None lo hi z : checked lo hi z = None ↔ ¬ lo ≤ z ≤ hi.
Proof.
  rewrite <-in_range_spec. unfold checked. destruct (in_range lo hi z); naive_solver.
Qed.

Lemma wrap_small w z : 0 ≤ z < 2 ^ w → wrap w z = z.
Proof. intros. by apply Z.mod_small. Qed.

Lemma swrap_small w z : 0 < w → - 2 ^ (w - 1) ≤ z < 2 ^ (w - 1) → swrap w z = z.
Proof.
  intros Hw Hz. unfold swrap.
  assert (2 ^ w = 2 * 2 ^ (w - 1)) as Hp.
  { rewrite <-Z.pow_succ_r by lia. f_equal. lia. }
  rewrite Z.mod_small by lia. lia.
Qed.

Lemma swrap_wrap w z : swrap w (wrap w z) = swrap w z.
Proof. unfold swrap, wrap. by rewrite Zplus_mod_idemp_l. Qed.

(** ** Decimal digits *)

(** [u8::is_ascii_digit]. *)
Definition is_ascii_digit (c : byte) : bool := (48 <=? u8 c) && (u8 c <=? 57).
(** [c - b'0']. *)
Definition digit_val (c : byte) : Z := u8 c - 48.

(** The value of a digit string, most significant digit first: the reference
    reading the parsers are compared with. *)
Definition dec_value_from (n : Z) (l : bytes) : Z :=
  foldl (λ acc c, acc * 10 + digit_val c) n l.
Definition dec_value (l : bytes) : Z := dec_value_from 0 l.

Definition all_digits (l : bytes) : bool := forallb is_ascii_digit l.

Lemma is_ascii_digit_range c : is_ascii_digit c = true → 0 ≤ digit_val c ≤ 9.
Proof.
  unfold is_ascii_digit, digit_val. rewrite andb_true_iff, !Z.leb_le. lia.
Qed.

Lemma dec_value_from_ge l : ∀ n,
  0 ≤ n → all_digits l = true → n ≤ dec_value_from n l.
Proof.
  unfold dec_value_from. induction l as [|c l IH]; simpl; intros n Hn Hd; [lia|].
  apply andb_true_iff in Hd as [Hc Hl].
  apply is_ascii_digit_range in Hc.
  specialize (IH (n * 10 + digit_val c) ltac:(lia) Hl). lia.
Qed.

Lemma dec_value_from_app l1 l2 n :
  dec_value_from n (l1 ++ l2) = dec_value_from (dec_value_from n l1) l2.
Proof. unfold dec_value_from. by rewrite foldl_app. Qed.

Lemma all_digits_app l1 l2 : all_digits (l1 ++ l2) = all_digits l1 && all_digits l2.
Proof. apply forallb_app. Qed.

(** [format!("{n}")] on a non-negative integer. *)
Definition digit_byte (d : Z) : byte := byte_of_Z (48 + d).
Fixpoint dec_print_fuel (fuel : nat) (n : Z) : bytes :=
  match fuel with
  | O => []
  | S fuel' =>
      (if n <? 10 then [] else dec_print_fuel fuel' (n / 10))
        ++ [digit_byte (n mod 10)]
  end.
(** Each step divides by ten, so one more step than the bit length is enough. *)
Definition dec_print (n : Z) : bytes := dec_print_fuel (S (Z.to_nat (Z.log2 n))) n.

Lemma digit_byte_val d : 0 ≤ d ≤ 9 →
  is_ascii_digit (digit_byte d) = true ∧ digit_val (digit_byte d) = d.
Proof.
  intros Hd. unfold is_ascii_digit, digit_val, digit_byte.
  rewrite u8_byte_of_Z, Z.mod_small by lia.
  rewrite andb_true_iff, !Z.leb_le. lia.
Qed.

Lemma dec_print_fuel_spec fuel : ∀ n,
  0 ≤ n < 2 ^ Z.of_nat fuel → fuel ≠ O →
  all_digits (dec_print_fuel fuel n) = true ∧
  dec_value (dec_print_fuel fuel n) = n ∧ dec_print_fuel fuel n ≠ [].
Proof.
  induction fuel as [|fuel IH]; intros n Hn Hf; [done|]. simpl dec_print_fuel.
  assert (0 ≤ n mod 10 < 10) as Hm by (apply Z.mod_pos_bound; lia).
  destruct (digit_byte_val (n mod 10)) as [Hd Hv]; [lia|].
  destruct (Z.ltb_spec n 10).
  - unfold dec_value, dec_value_from. simpl.
    rewrite Hd, Hv, Z.mod_small by lia. split_and!; [done|lia|done].
  - assert (2 ^ Z.of_nat (S fuel) = 2 * 2 ^ Z.of_nat fuel) as Hp.
    { rewrite Nat2Z.inj_succ, Z.pow_succ_r by lia. done. }
    assert (fuel ≠ O).
    { intros ->. simpl in Hn. change (2 ^ Z.of_nat 1) with 2 in Hn. lia. }
    assert (n / 10 < 2 ^ Z.of_nat fuel) by (apply Z.div_lt_upper_bound; lia).
    assert (0 ≤ n / 10) by (apply Z.div_pos; lia).
    destruct (IH (n / 10)) as (Hda & Hva & Hna); [lia|done|].
    rewrite all_digits_app, Hda. unfold dec_value in *.
    rewrite dec_value_from_app, Hva.
    unfold dec_value_from. simpl. rewrite Hd, Hv. split_and!; [done| |].
    + pose proof (Z.div_mod n 10). lia.
    + by destruct (dec_print_fuel fuel (n / 10)).
Qed.

Lemma dec_print_spec n : 0 ≤ n →
  all_digits (dec_print n) = true ∧ dec_value (dec_print n) = n ∧ dec_print n ≠ [].
Proof.
  intros Hn. apply dec_print_fuel_spec; [|done].
  split; [done|]. rewrite Nat2Z.inj_succ, Z2Nat.id by apply Z.log2_nonneg.
  destruct (decide (n = 0)) as [->|]; [done|].
  apply Z.log2_spec. lia.
Qed.

Lemma dec_print_no_sep n d : 0 ≤ n → is_ascii_digit d = false → d ∉ dec_print n.
Proof.
  intros Hn Hd Hin. destruct (dec_print_spec n Hn) as (Hall & _ & _).
  unfold all_digits in Hall. rewrite forallb_forall in Hall.
  apply list_elem_of_In, Hall in Hin. congruence.
Qed.

Lemma dec_print_inj n m : 0 ≤ n → 0 ≤ m → dec_print n = dec_print m → n = m.
Proof.
  intros Hn Hm He. destruct (dec_print_spec n Hn) as (_ & <- & _).
  destruct (dec_print_spec m Hm) as (_ & <- & _). by rewrite He.
Qed.

(** ** [str::parse] for integers

    An optional sign ([-] only for the signed types), at least one digit, and
    an overflow check against the bounds of the type. *)
Definition int_from_str (lo hi : Z) (s : bytes) : option Z :=
  match s with
  | [] => None
  | c :: rest =>
      if bool_decide (c = "+"%byte) then
        if bool_decide (rest = []) then None
        else if all_digits rest then checked lo hi (dec_value rest) else None
      else if bool_decide (c = "-"%byte) && (lo <? 0) then
        if bool_decide (rest = []) then None
        else if all_digits rest then checked lo hi (- dec_value rest) else None
      else if all_digits s then checked lo hi (dec_value s) else None
  end.

Lemma int_from_str_range lo hi s n : int_from_str lo hi s = Some n → lo ≤ n ≤ hi.
Proof.
  unfold int_from_str. intros H.
  repeat split_match; apply checked_Some in H; lia.
Qed.

(** ** Little-endian encodings ([to_le_bytes], [from_le_bytes]) *)

Fixpoint to_le_bytes (n : nat) (z : Z) : bytes :=
  match n with
  | O => []
  | S n' => byte_of_Z z :: to_le_bytes n' (z / 256)
  end.
Fixpoint from_le_bytes (l : bytes) : Z :=
  match l with
  | [] => 0
  | b :: l' => u8 b + 256 * from_le_bytes l'
  end.
(** Signed types: the two's-complement reading of the same bytes. *)
Definition from_le_bytes_signed (l : bytes) : Z :=
  swrap (8 * Z.of_nat (length l)) (from_le_bytes l).

Lemma length_to_le_bytes n z : length (to_le_bytes n z) = n.
Proof. revert z. induction n as [|n IH]; intros z; simpl; [done|by rewrite IH]. Qed.

Lemma from_le_bytes_range l : 0 ≤ from_le_bytes l < 256 ^ Z.of_nat (length l).
Proof.
  induction l as [|b l IH]; simpl length; [done|]. cbn [from_le_bytes].
  rewrite Nat2Z.inj_succ, Z.pow_succ_r by lia.
  pose proof (u8_range b). lia.
Qed.

Lemma from_to_le_bytes n z : from_le_bytes (to_le_bytes n z) = z mod 256 ^ Z.of_nat n.
Proof.
  revert z. induction n as [|n IH]; intros z.
  - simpl. by rewrite Z.mod_1_r.
  - cbn [to_le_bytes from_le_bytes]. rewrite IH, u8_byte_of_Z.
    rewrite Nat2Z.inj_succ, Z.pow_succ_r by lia.
    rewrite Z.rem_mul_r by lia. done.
Qed.

Lemma to_from_le_bytes l : to_le_bytes (length l) (from_le_bytes l) = l.
Proof.
  induction l as [|b l IH]; [done|]. cbn [from_le_bytes length to_le_bytes].
  pose proof (u8_range b).
  assert ((u8 b + 256 * from_le_bytes l) / 256 = from_le_bytes l) as ->.
  { rewrite Z.mul_comm, Z.div_add by lia. rewrite Z.div_small by lia. lia. }
  rewrite IH. f_equal. apply u8_inj. rewrite u8_byte_of_Z.
  rewrite Z.mul_comm, Z.mod_add by lia. by apply Z.mod_small.
Qed.

(** An unsigned value that fits is recovered exactly. *)
Lemma from_to_le_bytes_small n z :
  0 ≤ z < 256 ^ Z.of_nat n → from_le_bytes (to_le_bytes n z) = z.
Proof. intros. rewrite from_to_le_bytes. by apply Z.mod_small. Qed.

(** A signed value that fits is recovered exactly. *)
Lemma from_to_le_bytes_signed n z :
  (0 < n)%nat →
  - 2 ^ (8 * Z.of_nat n - 1) ≤ z < 2 ^ (8 * Z.of_nat n - 1) →
  from_le_bytes_signed (to_le_bytes n z) = z.
Proof.
  intros Hn Hz. unfold from_le_bytes_signed.
  rewrite length_to_le_bytes, from_to_le_bytes.
  assert (256 ^ Z.of_nat n = 2 ^ (8 * Z.of_nat n)) as ->.
  { rewrite Z.pow_mul_r by lia. done. }
  fold (wrap (8 * Z.of_nat n) z). rewrite swrap_wrap.
  apply swrap_small; [lia|done].
Qed.

#[export] Hint Rewrite length_to_le_bytes : md.
