(* ===== verification/RustStr.v ===== *)
(** * Strings of the source language

    UTF-8 validation ([str::from_utf8], [String::from_utf8_lossy]) and the
    [str] methods the source uses, on the UTF-8 bytes of the string. *)

From S2P Require Import Prelude RustInt.

(** ** UTF-8 *)

Definition byte_in (lo hi : Z) (b : byte) : bool := in_range lo hi (u8 b).

(** The allowed range of the second byte after a lead byte, and the number
    of bytes of the sequence; [None] for a byte that cannot lead one. *)
Definition utf8_lead (b : byte) : option (nat * (Z * Z)) :=
  let z := u8 b in
  if in_range 0xC2 0xDF z then Some (2%nat, (0x80, 0xBF))
  else if z =? 0xE0 then Some (3%nat, (0xA0, 0xBF))
  else if z =? 0xED then Some (3%nat, (0x80, 0x9F))
  else if in_range 0xE1 0xEF z then Some (3%nat, (0x80, 0xBF))
  else if z =? 0xF0 then Some (4%nat, (0x90, 0xBF))
  else if in_range 0xF1 0xF3 z then Some (4%nat, (0x80, 0xBF))
  else if z =? 0xF4 then Some (4%nat, (0x80, 0x8F))
  else None.

(** How many of the following bytes continue the sequence. *)
Definition utf8_tail (n : nat) (lo hi : Z) (l : bytes) : nat :=
  match l with
  | b1 :: l1 =>
      if byte_in lo hi b1 then
        match n, l1 with
        | S (S (S _)), b2 :: l2 =>
            if byte_in 0x80 0xBF b2 then
              match n, l2 with
              | S (S (S (S _))), b3 :: _ => if byte_in 0x80 0xBF b3 then 3%nat else 2%nat
              | _, _ => 2%nat
              end
            else 1%nat
        | _, _ => 1%nat
        end
      else 0%nat
  | [] => 0%nat
  end.

(** One step of the decoder at a non-empty input: whether the bytes at the
    front form a character, and how many bytes the character (or the
    maximal ill-formed prefix) takes. *)
Definition utf8_step (b : byte) (l : bytes) : bool * nat :=
  if u8 b <? 0x80 then (true, 1%nat)
  else match utf8_lead b with
       | None => (false, 1%nat)
       | Some (n, (lo, hi)) =>
           let k := S (utf8_tail n lo hi l) in
           (bool_decide (k = n), k)
       end.

(** The input cut into characters and maximal ill-formed prefixes. Every
    step takes at least one byte, so the length of the input is enough fuel. *)
Fixpoint utf8_chunks_fuel (fuel : nat) (l : bytes) : list (bool * bytes) :=
  match fuel, l with
  | S fuel', b :: l' =>
      let '(ok, k) := utf8_step b l' in
      (ok, take k l) :: utf8_chunks_fuel fuel' (drop k l)
  | _, _ => []
  end.
Definition utf8_chunks (l : bytes) : list (bool * bytes) :=
  utf8_chunks_fuel (length l) l.

Definition utf8_valid (l : bytes) : bool := forallb fst (utf8_chunks l).

(** [core::str::from_utf8] and [String::from_utf8]. *)
Definition from_utf8 (l : bytes) : option bytes := if utf8_valid l then Some l else None.

(** [String::from_utf8_lossy]: every ill-formed prefix becomes U+FFFD. *)
Definition replacement_char : bytes := [xef; xbf; xbd]%byte.
Definition from_utf8_lossy (l : bytes) : bytes :=
  concat (map (λ c : bool * bytes, if c.1 then c.2 else replacement_char) (utf8_chunks l)).

(** ** [str] methods *)

(** The number of bytes of the [White_Space] character at the front (0 when
    there is none), and the same reading the reversed string. *)
Definition ws_front (l : bytes) : nat :=
  match l with
  | [] => 0%nat
  | a :: l1 =>
      if byte_in 0x09 0x0D a || (u8 a =? 0x20) then 1%nat
      else match l1 with
           | [] => 0%nat
           | b :: l2 =>
               if (u8 a =? 0xC2) && ((u8 b =? 0x85) || (u8 b =? 0xA0)) then 2%nat
               else match l2 with
                    | [] => 0%nat
                    | c :: _ =>
                        if ((u8 a =? 0xE1) && (u8 b =? 0x9A) && (u8 c =? 0x80))
                           || ((u8 a =? 0xE2) && (u8 b =? 0x80)
                               && (byte_in 0x80 0x8A c || (u8 c =? 0xA8)
                                   || (u8 c =? 0xA9) || (u8 c =? 0xAF)))
                           || ((u8 a =? 0xE2) && (u8 b =? 0x81) && (u8 c =? 0x9F))
                           || ((u8 a =? 0xE3) && (u8 b =? 0x80) && (u8 c =? 0x80))
                        then 3%nat else 0%nat
                    end
           end
  end.
Definition ws_back (r : bytes) : nat :=
  match r with
  | [] => 0%nat
  | _ => if (0 <? ws_front (take 1 r))%nat then 1%nat
         else if (ws_front (rev (take 2 r)) =? 2)%nat then 2%nat
         else if (ws_front (rev (take 3 r)) =? 3)%nat then 3%nat else 0%nat
  end.

Fixpoint strip_fuel (ws : bytes → nat) (fuel : nat) (l : bytes) : bytes :=
  match fuel, ws l with
  | S fuel', S k => strip_fuel ws fuel' (drop (S k) l)
  | _, _ => l
  end.
Definition trim_start (s : bytes) : bytes := strip_fuel ws_front (length s) s.
Definition trim_end (s : bytes) : bytes := rev (strip_fuel ws_back (length s) (rev s)).
(** [str::trim]. *)
Definition trim (s : bytes) : bytes := trim_end (trim_start s).

(** [str::strip_prefix]. *)
Definition strip_prefix (p s : bytes) : option bytes :=
  if starts_with p s then Some (drop (length p) s) else None.

(** [str::contains] on a string pattern. *)
Fixpoint str_contains (needle s : bytes) : bool :=
  starts_with needle s ||
  match s with [] => false | _ :: s' => str_contains needle s' end.

(** [str::eq_ignore_ascii_case]. *)
Definition to_ascii_lowercase (b : byte) : byte :=
  if byte_in 65 90 b then byte_of_Z (u8 b + 32) else b.
Definition eq_ignore_ascii_case (s t : bytes) : bool :=
  bool_decide (map to_ascii_lowercase s = map to_ascii_lowercase t).

(** ** Lemmas *)

Definition is_ascii (l : bytes) : bool := forallb (λ b, u8 b <? 0x80) l.

Lemma utf8_chunks_fuel_ascii fuel l :
  (length l ≤ fuel)%nat → is_ascii l = true →
  utf8_chunks_fuel fuel l = map (λ b, (true, [b])) l.
Proof.
  revert l. induction fuel as [|fuel IH]; intros [|b l] Hlen Ha;
    simpl in *; [done|lia|done|].
  apply andb_true_iff in Ha as [Hb Hl].
  unfold utf8_step. rewrite Hb. simpl. f_equal.
  rewrite drop_0. apply IH; [lia|done].
Qed.

(** ASCII is UTF-8: the documented alphabet of the feed always decodes. *)
Lemma utf8_valid_ascii l : is_ascii l = true → utf8_valid l = true.
Proof.
  intros Ha. unfold utf8_valid, utf8_chunks.
  rewrite utf8_chunks_fuel_ascii by done.
  clear Ha. by induction l.
Qed.

Lemma concat_utf8_chunks_fuel fuel l :
  (length l ≤ fuel)%nat → concat (map snd (utf8_chunks_fuel fuel l)) = l.
Proof.
  revert l. induction fuel as [|fuel IH]; intros [|b l] Hlen; [done|simpl in *; lia|done|].
  cbn [utf8_chunks_fuel].
  destruct (utf8_step b l) as [ok k] eqn:Hk.
  assert (∃ k', k = S k') as [k' ->].
  { unfold utf8_step in Hk. repeat split_match; eauto. }
  simpl map. simpl concat. rewrite IH.
  - simpl. by rewrite take_drop.
  - simpl in *. rewrite length_drop. lia.
Qed.

(** A well-formed string is unchanged by the lossy decoder. *)
Lemma from_utf8_lossy_valid l : utf8_valid l = true → from_utf8_lossy l = l.
Proof.
  intros Hv. transitivity (concat (map snd (utf8_chunks l))).
  2: { by apply concat_utf8_chunks_fuel. }
  unfold from_utf8_lossy, utf8_valid in *. f_equal.
  induction (utf8_chunks l) as [|[ok c] cs IH]; [done|].
  simpl in *. apply andb_true_iff in Hv as [Hok Hcs]. rewrite Hok, IH by done. done.
Qed.

Lemma from_utf8_Some l s : from_utf8 l = Some s ↔ s = l ∧ utf8_valid l = true.
Proof. unfold from_utf8. destruct (utf8_valid l); naive_solver. Qed.

Lemma strip_prefix_Some p s r : strip_prefix p s = Some r ↔ s = p ++ r.
Proof.
  unfold strip_prefix. destruct (starts_with p s) eqn:E.
  - apply starts_with_spec in E as [k ->]. rewrite drop_app_length. split; [naive_solver|].
    intros H%app_inv_head. by subst.
  - split; [done|]. intros ->. exfalso.
    assert (starts_with p (p ++ r) = true); [|congruence].
    apply starts_with_spec. by exists r.
Qed.

(** No whitespace at either end: [trim] is the identity. *)
Lemma trim_no_ws s : ws_front s = O → ws_back (rev s) = O → trim s = s.
Proof.
  intros Hf Hb. unfold trim, trim_start, trim_end.
  assert (∀ ws n l, ws l = O → strip_fuel ws n l = l) as Hstrip.
  { intros ws [|n] l Hl; simpl; by rewrite ?Hl. }
  rewrite (Hstrip _ _ _ Hf), (Hstrip _ _ _ Hb). apply rev_involutive.
Qed.

Example utf8_chunks_ex :
  utf8_chunks (bs "a") = [(true, bs "a")] ∧
  utf8_valid [xc3; xa7]%byte = true ∧ utf8_valid [xed; xa0; x80]%byte = false ∧
  from_utf8_lossy [x41; xff; x42]%byte = [x41; xef; xbf; xbd; x42]%byte ∧
  trim (bs "  a b ") = bs "a b".
Proof. by vm_compute. Qed.
