(* ===== verification/RustFloat.v ===== *)
(** * [f64] of the source language

    An [f64] is its IEEE-754 binary64 bit pattern, a [Z] below [2 ^ 64]; the
    arithmetic goes through the [spec_float] of the standard library, whose
    division and normalisation round to nearest even. *)

From S2P Require Import Prelude RustInt RustStr.
From Stdlib Require Import Floats.SpecFloat.

Abbreviation f64 := Z (only parsing).

(** ** Bit patterns and [spec_float] *)

Definition f64_sign (s : bool) : Z := if s then 2 ^ 63 else 0.

Definition f64_of_sf (x : spec_float) : f64 :=
  match x with
  | S754_zero s => f64_sign s
  | S754_infinity s => f64_sign s + Z.shiftl 0x7ff 52
  | S754_nan => Z.shiftl 0x7ff8 48
  | S754_finite s m e =>
      if Z.pos m <? 2 ^ 52 then f64_sign s + Z.pos m
      else f64_sign s + Z.shiftl (e + 1075) 52 + (Z.pos m - 2 ^ 52)
  end.

Definition sf_of_f64 (b : f64) : spec_float :=
  let s := Z.testbit b 63 in
  let e := Z.land (Z.shiftr b 52) 0x7ff in
  let m := Z.land b (2 ^ 52 - 1) in
  if e =? 0 then
    match m with Z.pos p => S754_finite s p (-1074) | _ => S754_zero s end
  else if e =? 0x7ff then
    if m =? 0 then S754_infinity s else S754_nan
  else match m + 2 ^ 52 with
       | Z.pos p => S754_finite s p (e - 1075)
       | _ => S754_zero s
       end.

(** Comparisons ([<=], [<]) and the arithmetic of the watchdog thresholds. *)
Definition f64_leb (x y : f64) : bool := SFleb (sf_of_f64 x) (sf_of_f64 y).
Definition f64_mul (x y : f64) : f64 :=
  f64_of_sf (SFmul 53 1024 (sf_of_f64 x) (sf_of_f64 y)).
(** [n as f64] on an unsigned integer. *)
Definition f64_of_int (n : Z) : f64 := f64_of_sf (binary_normalize 53 1024 n 0 false).
(** [x as usize]: truncation, saturating at the ends of the range, NaN to 0. *)
Definition usize_of_f64 (x : f64) : Z :=
  match sf_of_f64 x with
  | S754_finite false m e => Z.min usize_max (Z.shiftl (Z.pos m) e)
  | S754_infinity false => usize_max
  | _ => 0
  end.

(** ** [str::parse::<f64>]

    The grammar of the standard library: an optional sign, then
    [inf], [infinity] or [nan] in any case, or decimal digits with at most one
    point and at least one digit, and an optional exponent. *)

(** The digits at the front and the rest. *)
Fixpoint span_digits (l : bytes) : bytes * bytes :=
  match l with
  | c :: l' => if is_ascii_digit c then
                 let '(d, r) := span_digits l' in (c :: d, r)
               else ([], l)
  | [] => ([], [])
  end.

Definition parse_sign (s : bytes) : bool * bytes :=
  match s with
  | c :: r => if bool_decide (c = "-"%byte) then (true, r)
              else if bool_decide (c = "+"%byte) then (false, r) else (false, s)
  | [] => (false, s)
  end.

Definition parse_exponent (s : bytes) : option Z :=
  match s with
  | [] => Some 0
  | c :: r =>
      if bool_decide (c = "e"%byte) || bool_decide (c = "E"%byte) then
        let '(neg, r1) := parse_sign r in
        let '(d, r2) := span_digits r1 in
        if bool_decide (d = []) || negb (bool_decide (r2 = [])) then None
        else Some (if neg then - dec_value d else dec_value d)
      else None
  end.

(** The significand digits (as an integer) and the decimal exponent. *)
Definition parse_decimal (s : bytes) : option (Z * Z) :=
  let '(int_digits, r) := span_digits s in
  let '(frac_digits, r') :=
    match r with
    | c :: r1 => if bool_decide (c = "."%byte) then span_digits r1 else ([], r)
    | [] => ([], [])
    end in
  if bool_decide (int_digits ++ frac_digits = []) then None
  else e ← parse_exponent r';
       Some (dec_value (int_digits ++ frac_digits), e - Z.of_nat (length frac_digits)).

(** The binary64 nearest to [m * 10 ^ e]. Magnitudes from [10 ^ 310] up and
    below [10 ^ -400] are out of range on either side, so that no power of ten
    larger than those is computed. *)
Definition round_decimal (neg : bool) (m e : Z) : spec_float :=
  match m with
  | Z.pos p =>
      let digits := Z.of_nat (length (dec_print m)) in
      if 310 <? digits + e then S754_infinity neg
      else if digits + e <? -400 then S754_zero neg
      else if 0 <=? e then
        binary_normalize 53 1024 (if neg then - (m * 10 ^ e) else m * 10 ^ e) 0 neg
      else match 10 ^ (- e) with
           | Z.pos q => SFdiv 53 1024 (S754_finite neg p 0) (S754_finite false q 0)
           | _ => S754_zero neg
           end
  | _ => S754_zero neg
  end.

Definition f64_from_str (s : bytes) : option f64 :=
  let '(neg, r) := parse_sign s in
  let l := map to_ascii_lowercase r in
  if bool_decide (l = bs "inf") || bool_decide (l = bs "infinity") then
    Some (f64_of_sf (S754_infinity neg))
  else if bool_decide (l = bs "nan") then
    Some (f64_sign neg + f64_of_sf S754_nan)
  else '(m, e) ← parse_decimal r; Some (f64_of_sf (round_decimal neg m e)).

(** A floating-point literal of the source. *)
Definition f64_lit (s : string) : f64 := default 0 (f64_from_str (bs s)).

Example f64_lit_ex :
  f64_lit "59.95" = 0x404DF9999999999A ∧ f64_lit "-1.5" = 0xBFF8000000000000 ∧
  f64_lit "1e23" = 0x44B52D02C7E14AF6 ∧ f64_lit "0.1" = 0x3FB999999999999A ∧
  f64_lit "4.9e-324" = 1 ∧ f64_lit "1e400" = 0x7FF0000000000000 ∧
  f64_lit "1.7976931348623157e308" = 0x7FEFFFFFFFFFFFFF ∧
  f64_from_str (bs "abc") = None ∧ f64_from_str (bs "1.") = Some 0x3FF0000000000000 ∧
  f64_from_str (bs ".") = None ∧ f64_from_str (bs "1e") = None ∧
  usize_of_f64 (f64_mul (f64_of_int 134217728) (f64_lit "0.20")) = 26843545.
Proof. by vm_compute. Qed.

(** ** Everything [f64_from_str] accepts is ASCII *)

Lemma is_ascii_app l1 l2 : is_ascii (l1 ++ l2) = is_ascii l1 && is_ascii l2.
Proof. apply forallb_app. Qed.

Lemma all_digits_ascii l : all_digits l = true → is_ascii l = true.
Proof.
  unfold all_digits, is_ascii. rewrite !forallb_forall. intros H x Hx.
  apply H in Hx. apply is_ascii_digit_range in Hx. unfold digit_val in Hx.
  apply Z.ltb_lt. lia.
Qed.

Lemma span_digits_spec l d r : span_digits l = (d, r) → l = d ++ r ∧ all_digits d = true.
Proof.
  revert d r. induction l as [|c l IH]; intros d r; simpl; [naive_solver|].
  destruct (is_ascii_digit c) eqn:Hc.
  - destruct (span_digits l) as [d' r'] eqn:E. intros [= <- <-].
    destruct (IH d' r' eq_refl) as [-> Hd]. simpl. by rewrite Hc.
  - by intros [= <- <-].
Qed.

Lemma parse_sign_ascii s neg r :
  parse_sign s = (neg, r) → is_ascii r = true → is_ascii s = true.
Proof.
  destruct s as [|c s]; simpl; [naive_solver|].
  case_bool_decide; [by intros [= <- <-]; subst|].
  case_bool_decide; [by intros [= <- <-]; subst|]. by intros [= <- <-].
Qed.

Lemma parse_exponent_ascii s e : parse_exponent s = Some e → is_ascii s = true.
Proof.
  destruct s as [|c s]; [done|]. unfold parse_exponent.
  destruct (bool_decide (c = "e"%byte) || bool_decide (c = "E"%byte)) eqn:Hc; [|done].
  destruct (parse_sign s) as [neg r1] eqn:Hs.
  destruct (span_digits r1) as [d r2] eqn:Hd.
  destruct (bool_decide (d = []) || negb (bool_decide (r2 = []))) eqn:Hb; [done|].
  intros _. apply orb_false_iff in Hb as [_ Hb].
  apply negb_false_iff, bool_decide_eq_true in Hb. subst r2.
  apply span_digits_spec in Hd as [-> Hd]. rewrite app_nil_r in Hs.
  simpl. apply andb_true_iff. split.
  - apply orb_true_iff in Hc. rewrite !bool_decide_eq_true in Hc. by destruct Hc; subst.
  - eapply parse_sign_ascii; [done|]. by apply all_digits_ascii.
Qed.

Lemma parse_decimal_ascii s me : parse_decimal s = Some me → is_ascii s = true.
Proof.
  unfold parse_decimal. destruct (span_digits s) as [d r] eqn:Hd.
  apply span_digits_spec in Hd as [-> Hd]. apply all_digits_ascii in Hd.
  rewrite is_ascii_app, Hd. simpl. destruct r as [|c r]; [done|].
  case_bool_decide as Hc.
  - destruct (span_digits r) as [d' r'] eqn:Hd'.
    apply span_digits_spec in Hd' as [-> Hd']. apply all_digits_ascii in Hd'.
    case_bool_decide; [done|]. subst c. simpl. rewrite is_ascii_app, Hd'.
    destruct (parse_exponent r') eqn:He; [|done].
    intros _. by apply parse_exponent_ascii in He.
  - case_bool_decide; [done|].
    destruct (parse_exponent (c :: r)) eqn:He; [|done].
    intros _. by apply parse_exponent_ascii in He.
Qed.

Lemma to_ascii_lowercase_ascii c : (u8 (to_ascii_lowercase c) <? 128) = (u8 c <? 128).
Proof.
  unfold to_ascii_lowercase, byte_in. destruct (in_range 65 90 (u8 c)) eqn:E; [|done].
  apply in_range_spec in E. rewrite u8_byte_of_Z, Z.mod_small by lia.
  transitivity true; [|symmetry]; apply Z.ltb_lt; lia.
Qed.

Lemma map_lowercase_ascii l : is_ascii (map to_ascii_lowercase l) = is_ascii l.
Proof.
  unfold is_ascii. induction l as [|c l IH]; [done|]. simpl.
  by rewrite to_ascii_lowercase_ascii, IH.
Qed.

Lemma f64_from_str_ascii s x : f64_from_str s = Some x → is_ascii s = true.
Proof.
  unfold f64_from_str. destruct (parse_sign s) as [neg r] eqn:Hs. intros H.
  apply (parse_sign_ascii _ _ _ Hs). rewrite <-map_lowercase_ascii.
  destruct (bool_decide (map to_ascii_lowercase r = bs "inf")
            || bool_decide (map to_ascii_lowercase r = bs "infinity")) eqn:E.
  - apply orb_true_iff in E. rewrite !bool_decide_eq_true in E. by destruct E as [-> | ->].
  - case_bool_decide as Hn; [by rewrite Hn|].
    rewrite map_lowercase_ascii. destruct (parse_decimal r) eqn:Hp; [|done].
    by eapply parse_decimal_ascii.
Qed.

Lemma f64_from_str_nil : f64_from_str [] = None.
Proof. done. Qed.
