(* ===== verification/Externs.v ===== *)
(** * Interfaces of third-party code

    The byte searches of the [memchr] crate are parameters of the model: an
    operational class that the definitions use and a class of laws with the
    documented behaviour, which the theorems assume. [memchr_reference] is a
    concrete implementation that satisfies the laws. *)

From S2P Require Import Prelude.

(** [memchr::memchr], [memchr::memchr2] and [memchr::memmem::find]. *)
Class Memchr : Type := {
  memchr : byte → bytes → option nat;
  memchr2 : byte → byte → bytes → option nat;
  memmem_find : bytes → bytes → option nat;
}.

(** The first position of [l] at which [P] holds of the suffix. *)
Definition first_at {A} (P : list A → Prop) (l : list A) (i : nat) : Prop :=
  P (drop i l) ∧ (i ≤ length l)%nat ∧ ∀ j, (j < i)%nat → ¬ P (drop j l).

Definition head_is {A} (P : A → Prop) (l : list A) : Prop :=
  match l with [] => False | x :: _ => P x end.

(** Each search returns the index of the first occurrence, [None] when there
    is none. *)
Class MemchrSpec `{Memchr} : Prop := {
  memchr_Some c l i : memchr c l = Some i → first_at (head_is (c =.)) l i;
  memchr_None c l : memchr c l = None → c ∉ l;
  memchr2_Some c d l i :
    memchr2 c d l = Some i → first_at (head_is (λ x, x = c ∨ x = d)) l i;
  memchr2_None c d l : memchr2 c d l = None → c ∉ l ∧ d ∉ l;
  memmem_find_Some l n i : memmem_find l n = Some i → first_at (prefix n) l i;
  memmem_find_None l n : memmem_find l n = None → ∀ j, ¬ n `prefix_of` drop j l;
}.

(** ** A concrete implementation *)

Fixpoint find_first (p : bytes → bool) (l : bytes) : option nat :=
  if p l then Some O
  else match l with [] => None | _ :: l' => S <$> find_first p l' end.

Definition head_is_b (p : byte → bool) (l : bytes) : bool :=
  match l with [] => false | x :: _ => p x end.

Definition memchr_reference : Memchr := {|
  memchr c := find_first (head_is_b (λ x, bool_decide (c = x)));
  memchr2 c d := find_first (head_is_b (λ x, bool_decide (x = c ∨ x = d)));
  memmem_find l n := find_first (starts_with n) l;
|}.

Lemma find_first_Some (P : bytes → Prop) p l i :
  (∀ l, p l = true ↔ P l) → find_first p l = Some i → first_at P l i.
Proof.
  intros HP. revert i. induction l as [|x l IH]; intros i; simpl.
  - destruct (p []) eqn:E; intros [= <-]. split_and!; [by apply HP|done|lia].
  - destruct (p (x :: l)) eqn:E.
    + intros [= <-]. split_and!; [by apply HP|simpl; lia|lia].
    + destruct (find_first p l) as [k|] eqn:Ek; intros [= <-].
      destruct (IH k eq_refl) as (H1 & H2 & H3).
      split_and!; [done|simpl; lia|]. intros [|j] Hj.
      * rewrite drop_0, <-HP. congruence.
      * apply H3. lia.
Qed.

Lemma find_first_None (P : bytes → Prop) p l :
  (∀ l, p l = true ↔ P l) → find_first p l = None → ∀ j, ¬ P (drop j l).
Proof.
  intros HP. induction l as [|x l IH]; simpl.
  - destruct (p []) eqn:E; [done|]. intros _ j. rewrite drop_nil, <-HP. congruence.
  - destruct (p (x :: l)) eqn:E; [done|].
    destruct (find_first p l) eqn:Ek; [done|]. intros _ [|j].
    + rewrite drop_0, <-HP. congruence.
    + by apply IH.
Qed.

Lemma head_is_b_spec (P : byte → Prop) p l :
  (∀ x, p x = true ↔ P x) → head_is_b p l = true ↔ head_is P l.
Proof. intros HP. destruct l; simpl; [done|apply HP]. Qed.

Lemma head_is_drop_not_elem (P : byte → Prop) l :
  (∀ j, ¬ head_is P (drop j l)) → ∀ x, x ∈ l → ¬ P x.
Proof.
  intros H x Hx. apply list_elem_of_split in Hx as (l1 & l2 & ->).
  specialize (H (length l1)). by rewrite drop_app_length in H.
Qed.

Lemma memchr_reference_spec : @MemchrSpec memchr_reference.
Proof.
  assert (∀ c l, head_is_b (λ x, bool_decide (c = x)) l = true ↔ head_is (c =.) l) as Hc.
  { intros c l. apply head_is_b_spec. intros x. apply bool_decide_eq_true. }
  assert (∀ c d l, head_is_b (λ x, bool_decide (x = c ∨ x = d)) l = true
                   ↔ head_is (λ x, x = c ∨ x = d) l) as Hcd.
  { intros c d l. apply head_is_b_spec. intros x. apply bool_decide_eq_true. }
  split; simpl.
  - intros c l i. by apply find_first_Some.
  - intros c l H Hin. pose proof (find_first_None _ _ _ (Hc c) H) as Hn.
    by apply (head_is_drop_not_elem _ _ Hn c Hin).
  - intros c d l i. by apply find_first_Some.
  - intros c d l H. pose proof (find_first_None _ _ _ (Hcd c d) H) as Hn.
    pose proof (head_is_drop_not_elem _ _ Hn) as Hl.
    split; intros Hin; apply Hl in Hin; naive_solver.
  - intros l n i. apply find_first_Some. apply starts_with_spec.
  - intros l n. apply find_first_None. apply starts_with_spec.
Qed.

(** ** Consequences of the laws *)

Section memchr_lemmas.
Context `{MemchrSpec}.

(** A hit cuts the input at the first separator. *)
Lemma memchr_Some_split c l i :
  memchr c l = Some i →
  ∃ t r, l = t ++ c :: r ∧ c ∉ t ∧ length t = i.
Proof.
  intros (Hh & Hi & Hlt)%memchr_Some.
  destruct (drop i l) as [|x r] eqn:Hd; [done|]. simpl in Hh. subst x.
  exists (take i l), r. split_and!.
  - rewrite <-Hd. by rewrite take_drop.
  - intros (j & Hj)%list_elem_of_lookup.
    pose proof (lookup_lt_Some _ _ _ Hj) as Hjl. rewrite length_take in Hjl.
    rewrite lookup_take_lt in Hj by lia.
    apply (Hlt j); [lia|]. by rewrite (drop_S _ _ _ Hj).
  - rewrite length_take. lia.
Qed.

Lemma memchr2_Some_split c d l i :
  memchr2 c d l = Some i →
  ∃ t x r, l = t ++ x :: r ∧ (x = c ∨ x = d) ∧ c ∉ t ∧ d ∉ t ∧ length t = i.
Proof.
  intros (Hh & Hi & Hlt)%memchr2_Some.
  destruct (drop i l) as [|x r] eqn:Hd; [done|]. simpl in Hh.
  assert (∀ y, y = c ∨ y = d → y ∉ take i l) as Hnot.
  { intros y Hy (j & Hj)%list_elem_of_lookup.
    pose proof (lookup_lt_Some _ _ _ Hj) as Hjl. rewrite length_take in Hjl.
    rewrite lookup_take_lt in Hj by lia.
    apply (Hlt j); [lia|]. by rewrite (drop_S _ _ _ Hj). }
  exists (take i l), x, r. split_and!; [|done| | |].
  - rewrite <-Hd. by rewrite take_drop.
  - apply Hnot. by left.
  - apply Hnot. by right.
  - rewrite length_take. lia.
Qed.
End memchr_lemmas.

(** ** Hashing

    [ahash::AHasher::default()], fed a byte string and finished: some fixed
    function to [u64]; nothing else is assumed of it. *)
Class AHash : Type := ahash : bytes → Z.

(** A concrete hash for the witnesses. *)
Definition ahash_reference : AHash := λ b, foldl (λ h c, (h * 31 + u8 c) mod 2 ^ 64) 7 b.

(** ** Time stamps

    [chrono::DateTime<Utc>] with [timestamp_micros] (rounding towards the past)
    and [from_timestamp_micros]: reading back the microseconds of a time stamp
    gives some time stamp with those microseconds. *)
Class Chrono : Type := {
  DateTime : Type;
  DateTime_eq_dec : EqDecision DateTime;
  timestamp_micros : DateTime → Z;
  from_timestamp_micros : Z → option DateTime;
}.
#[export] Existing Instance DateTime_eq_dec.

(** The microseconds of the last time stamp there is, at the end of the year
    262142, and of the first. *)
Definition chrono_max : Z := 8210266876799999999.
Definition chrono_min : Z := - 8334601228800000000.

Class ChronoSpec `{Chrono} : Prop := {
  timestamp_micros_range t : - 2 ^ 63 ≤ timestamp_micros t < 2 ^ 63;
  from_timestamp_micros_Some m t : from_timestamp_micros m = Some t → timestamp_micros t = m;
  from_timestamp_micros_total t : is_Some (from_timestamp_micros (timestamp_micros t));
  from_timestamp_micros_max m : chrono_max < m → from_timestamp_micros m = None;
}.

(** Microseconds, brought into range, and the nanoseconds below them. *)
Definition micros_ok (m : Z) : bool := (chrono_min <=? m) && (m <=? chrono_max).
Definition chrono_reference : Chrono := {|
  DateTime := Z * Z;
  DateTime_eq_dec := _;
  timestamp_micros t := if micros_ok t.1 then t.1 else 0;
  from_timestamp_micros m := if micros_ok m then Some (m, 0) else None;
|}.

Lemma chrono_reference_spec : @ChronoSpec chrono_reference.
Proof.
  split; simpl.
  - intros [m n]. simpl. destruct (micros_ok m) eqn:Hm; [|lia].
    unfold micros_ok, chrono_min, chrono_max in Hm. lia.
  - intros m t. destruct (micros_ok m) eqn:Hm; [|done]. intros [= <-]. simpl. by rewrite Hm.
  - intros [m n]. simpl. destruct (micros_ok m) eqn:Hm; [|by eexists]. rewrite Hm. by eexists.
  - intros m Hm. destruct (micros_ok m) eqn:Hok; [|done]. unfold micros_ok in Hok. lia.
Qed.

(** ** Bounded channels

    [crossbeam_channel::bounded] with a capacity of at least one, as its
    documentation describes it: a queue in order of sending, refused when it is
    full and when every receiver is gone. [chan_queue], [chan_capacity] and
    [chan_connected] observe it. *)
Inductive try_sent : Type :=
  | Sent
  | Full
  | Disconnected.

Class Crossbeam (A : Type) : Type := {
  chan : Type;
  chan_bounded : nat → chan;
  chan_try_send : A → chan → try_sent * chan;
  chan_try_recv : chan → option A * chan;
  chan_disconnect : chan → chan;
  chan_queue : chan → list A;
  chan_capacity : chan → nat;
  chan_connected : chan → bool;
}.

Class CrossbeamSpec A `{Crossbeam A} : Prop := {
  chan_bounded_spec n : (0 < n)%nat →
    chan_queue (chan_bounded n) = [] ∧ chan_capacity (chan_bounded n) = n ∧
    chan_connected (chan_bounded n) = true;
  chan_try_send_spec a c :
    match chan_try_send a c with
    | (Sent, c') => chan_connected c = true ∧ (length (chan_queue c) < chan_capacity c)%nat ∧
        chan_queue c' = chan_queue c ++ [a] ∧ chan_capacity c' = chan_capacity c ∧
        chan_connected c' = true
    | (Full, c') => c' = c ∧ chan_connected c = true ∧
        (chan_capacity c ≤ length (chan_queue c))%nat
    | (Disconnected, c') => c' = c ∧ chan_connected c = false
    end;
  chan_try_recv_spec c :
    match chan_try_recv c with
    | (Some a, c') => chan_queue c = a :: chan_queue c' ∧ chan_capacity c' = chan_capacity c ∧
        chan_connected c' = chan_connected c
    | (None, c') => c' = c ∧ chan_queue c = []
    end;
  chan_disconnect_spec c :
    chan_queue (chan_disconnect c) = chan_queue c ∧
    chan_capacity (chan_disconnect c) = chan_capacity c ∧
    chan_connected (chan_disconnect c) = false;
}.

Definition crossbeam_reference (A : Type) : Crossbeam A := {|
  chan := list A * nat * bool;
  chan_bounded n := ([], n, true);
  chan_try_send a c :=
    if c.2 then
      if (length c.1.1 <? c.1.2)%nat then (Sent, (c.1.1 ++ [a], c.1.2, true)) else (Full, c)
    else (Disconnected, c);
  chan_try_recv c :=
    match c.1.1 with a :: q => (Some a, (q, c.1.2, c.2)) | [] => (None, c) end;
  chan_disconnect c := (c.1, false);
  chan_queue c := c.1.1;
  chan_capacity c := c.1.2;
  chan_connected c := c.2;
|}.

Lemma crossbeam_reference_spec A : @CrossbeamSpec A (crossbeam_reference A).
Proof.
  split; cbn -[Nat.ltb].
  - done.
  - intros a [[q n] []]; cbn -[Nat.ltb]; [|done].
    destruct (Nat.ltb_spec (length q) n); cbn; split_and!; done.
  - intros [[[|a q] n] b]; by cbn.
  - by intros [[q n] b].
Qed.
