(* ===== verification/RustIo.v ===== *)
(** * Effects: input and output that can fail

    [st S E] is a state and error monad: a step either gives a value or fails,
    and keeps the state either way, since a failed write has already done a
    part of its work. [Writer] is the standard library's [Write] over such a
    stream, with [write_all] and [flush]. *)

From S2P Require Import Prelude.

Definition st (S E A : Type) : Type := S → result E A * S.

#[export] Instance st_ret {S E} : MRet (st S E) := λ A a s, (Ok a, s).
#[export] Instance st_bind {S E} : MBind (st S E) := λ A B f m s,
  match m s with
  | (Ok a, s') => f a s'
  | (Err e, s') => (Err e, s')
  end.

(** [Err(e)?], reading and replacing the state, and a pure [Result]. *)
Definition throw {S E A} (e : E) : st S E A := λ s, (Err e, s).
Definition modify {S E} (f : S → S) : st S E () := λ s, (Ok (), f s).
Definition gets {S E A} (f : S → A) : st S E A := λ s, (Ok (f s), s).
Definition lift {S E A} (r : result E A) : st S E A := λ s, (r, s).

(** [map_err] on the error of a step. *)
Definition catch {S E F A} (f : E → F) (m : st S E A) : st S F A := λ s,
  let '(r, s') := m s in (map_err f r, s').

(** A step on the first component of a pair of states. *)
Definition on_fst {S T E A} (m : st S E A) : st (S * T) E A := λ s,
  let '(r, s') := m s.1 in (r, (s', s.2)).

(** A [for] loop whose body may leave with [?]. *)
Fixpoint for_each {S E A} (f : A → st S E ()) (l : list A) : st S E () :=
  match l with
  | [] => mret ()
  | a :: l' => f a ;; for_each f l'
  end.

Section st_lemmas.
Context {S E : Type}.

Lemma st_bind_Ok {A B} (m : st S E A) (f : A → st S E B) s b s' :
  (m ≫= f) s = (Ok b, s') ↔ ∃ a s1, m s = (Ok a, s1) ∧ f a s1 = (Ok b, s').
Proof. unfold mbind, st_bind. destruct (m s) as [[]]; naive_solver. Qed.

Lemma st_bind_Err {A B} (m : st S E A) (f : A → st S E B) s e s' :
  (m ≫= f) s = (Err e, s') ↔
    m s = (Err e, s') ∨ ∃ a s1, m s = (Ok a, s1) ∧ f a s1 = (Err e, s').
Proof. unfold mbind, st_bind. destruct (m s) as [[]]; naive_solver. Qed.

Lemma catch_Ok {F A} (f : E → F) (m : st S E A) s a s' :
  catch f m s = (Ok a, s') ↔ m s = (Ok a, s').
Proof. unfold catch. destruct (m s) as [[]]; naive_solver. Qed.

End st_lemmas.

(** A relation on states kept by every step is kept by a sequence of steps. *)
Definition keeps {S E A} (R : S → S → Prop) (m : st S E A) : Prop := ∀ s, R s (m s).2.

Section keeps_lemmas.
Context {S : Type} (R : S → S → Prop) `{!PreOrder R}.

Lemma keeps_bind {E A B} (m : st S E A) (f : A → st S E B) :
  keeps R m → (∀ a, keeps R (f a)) → keeps R (m ≫= f).
Proof.
  intros Hm Hf s. specialize (Hm s). unfold mbind, st_bind.
  destruct (m s) as [[a|e] s1]; [|done]. cbn in *. etransitivity; [done|apply Hf].
Qed.

Lemma keeps_catch {E F A} (f : E → F) (m : st S E A) : keeps R m → keeps R (catch f m).
Proof. intros Hm s. specialize (Hm s). unfold catch. by destruct (m s). Qed.

Lemma keeps_for_each {E A} (f : A → st S E ()) l :
  (∀ a, keeps R (f a)) → keeps R (for_each f l).
Proof.
  intros Hf. induction l as [|a l IH]; cbn [for_each].
  - intros s. cbn. reflexivity.
  - apply keeps_bind; [apply Hf|done].
Qed.
End keeps_lemmas.

(** The kinds of I/O error the source distinguishes. *)
Module IoError.
Inductive t : Type :=
  | TimedOut
  | WouldBlock
  | ConnectionReset
  | ConnectionAborted
  | UnexpectedEof
  | Other.
End IoError.

Module Writer.

(** What one call does on the stream below: go through, or fail after some of
    its bytes were accepted. *)
Inductive outcome : Type :=
  | Accept
  | Fail (accepted : nat) (e : IoError.t).

(** The bytes accepted so far, and the outcomes of the calls to come; behind
    the script every call goes through. *)
Record t : Type := mk {
  written : bytes;
  script : list outcome;
}.

Definition new : t := mk [] [].

Definition call (data : bytes) : st t IoError.t () := λ w,
  match script w with
  | [] => (Ok (), mk (written w ++ data) [])
  | Accept :: s => (Ok (), mk (written w ++ data) s)
  | Fail k e :: s => (Err e, mk (written w ++ take k data) s)
  end.

(** [write_all] of nothing makes no call. *)
Definition write_all (data : bytes) : st t IoError.t () := λ w,
  match data with
  | [] => (Ok (), w)
  | _ => call data w
  end.
Definition flush : st t IoError.t () := call [].

(** The stream only grows. *)
Definition extends (w w' : t) : Prop := written w `prefix_of` written w'.
#[global] Instance extends_preorder : PreOrder extends.
Proof. split; intros ?*; unfold extends; [done|apply transitivity]. Qed.

Lemma write_all_extends data : keeps extends (write_all data).
Proof.
  intros w. unfold extends, write_all, call. destruct data; [done|].
  destruct (script w) as [|[|]]; cbn; by eexists.
Qed.
Lemma flush_extends : keeps extends flush.
Proof. intros w. unfold extends, flush, call. destruct (script w) as [|[|]]; cbn; by eexists. Qed.

Lemma write_all_Ok data w u w' :
  write_all data w = (Ok u, w') → written w' = written w ++ data.
Proof.
  unfold write_all, call. destruct data as [|b data].
  - intros [= _ <-]. by rewrite app_nil_r.
  - by destruct (script w) as [|[|]]; intros [= _ <-].
Qed.

Lemma flush_Ok w u w' : flush w = (Ok u, w') → written w' = written w.
Proof.
  unfold flush, call. destruct (script w) as [|[|]]; intros [= _ <-]; cbn; by rewrite app_nil_r.
Qed.

Lemma write_all_Err data w e w' :
  write_all data w = (Err e, w') →
  ∃ k, written w' = written w ++ take k data ∧ (length (script w') < length (script w))%nat.
Proof.
  unfold write_all, call. destruct data as [|b data]; [done|].
  destruct (script w) as [|[|k e'] s]; [done..|]. intros [= _ <-]. exists k. cbn. split; [done|lia].
Qed.

(** A stream without faults. *)
Lemma write_all_clean data b : write_all data (mk b []) = (Ok (), mk (b ++ data) []).
Proof. destruct data; cbn; [by rewrite app_nil_r|done]. Qed.
Lemma flush_clean b : flush (mk b []) = (Ok (), mk b []).
Proof. unfold flush, call. cbn. by rewrite app_nil_r. Qed.
End Writer.
