(* ===== verification/RustNet.v ===== *)
(** * Socket addresses of the standard library

    [str::parse::<SocketAddr>()] as the standard library's parser does it: a
    parser takes bytes from the front, and one that fails leaves them alone.
    [quad_host] is the exact form of the hosts it accepts without brackets. *)

From S2P Require Import Prelude RustInt RustStr.

Module SocketAddr.
Inductive t : Type :=
  | V4 (ip : Z * Z * Z * Z) (port : Z)
  | V6 (groups : list Z) (scope_id port : Z).
#[global] Instance t_eq_dec : EqDecision t.
Proof. solve_decision. Defined.
End SocketAddr.

Module AddrParser.

Definition parser (A : Type) : Type := bytes → option (A * bytes).

(** [char::to_digit]. *)
Definition to_digit (radix : Z) (c : byte) : option Z :=
  let n := u8 c in
  let d := if in_range 48 57 n then n - 48
           else if in_range 97 122 n then n - 97 + 10
           else if in_range 65 90 n then n - 65 + 10
           else radix in
  if d <? radix then Some d else None.

Definition read_given_char (target : byte) : parser () := λ l,
  match l with
  | c :: l' => if bool_decide (c = target) then Some ((), l') else None
  | [] => None
  end.

Definition read_separator {A} (sep : byte) (index : nat) (inner : parser A) : parser A := λ l,
  if (index =? 0)%nat then inner l
  else '(_, l) ← read_given_char sep l; inner l.

(** The digit loop of [read_number] with a limit on the digits, and the one
    with checked arithmetic in a type of maximum [max]. *)
Fixpoint digits_limited (radix : Z) (limit : nat) (result : Z) (count : nat) (l : bytes)
    : option (Z * nat * bytes) :=
  match l with
  | c :: l' =>
      match to_digit radix c with
      | Some d =>
          if (limit <? S count)%nat then None
          else digits_limited radix limit (result * radix + d) (S count) l'
      | None => Some (result, count, l)
      end
  | [] => Some (result, count, l)
  end.
Fixpoint digits_checked (radix max : Z) (result : Z) (count : nat) (l : bytes)
    : option (Z * nat * bytes) :=
  match l with
  | c :: l' =>
      match to_digit radix c with
      | Some d =>
          r ← checked 0 max (result * radix);
          r ← checked 0 max (r + d);
          digits_checked radix max r (S count) l'
      | None => Some (result, count, l)
      end
  | [] => Some (result, count, l)
  end.

Definition read_number (radix max : Z) (max_digits : option nat) (allow_zero_prefix : bool)
    : parser Z := λ l,
  let has_leading_zero := match l with c :: _ => bool_decide (c = "0"%byte) | [] => false end in
  '(result, digit_count, r) ←
    match max_digits with
    | Some limit => digits_limited radix limit 0 0 l
    | None => digits_checked radix max 0 0 l
    end;
  if (digit_count =? 0)%nat then None
  else if negb allow_zero_prefix && has_leading_zero && (1 <? digit_count)%nat then None
  else n ← checked 0 max result; Some (n, r).

Definition u8_max : Z := 255.

Definition read_ipv4_addr : parser (Z * Z * Z * Z) := λ l,
  let group i := read_separator "."%byte i (read_number 10 u8_max (Some 3%nat) false) in
  '(a, l) ← group 0%nat l;
  '(b, l) ← group 1%nat l;
  '(c, l) ← group 2%nat l;
  '(d, l) ← group 3%nat l;
  Some ((a, b, c, d), l).

(** [read_groups] on [n] slots: the groups read, whether they end in an
    embedded IPv4 address, and the rest. *)
Fixpoint read_groups (n i : nat) (l : bytes) : list Z * bool * bytes :=
  match n with
  | O => ([], false, l)
  | S n' =>
      match (if (n' =? 0)%nat then None else read_separator ":"%byte i read_ipv4_addr l) with
      | Some ((a, b, c, d), r) => ([a * 256 + b; c * 256 + d], true, r)
      | None =>
          match read_separator ":"%byte i (read_number 16 u16_max (Some 4%nat) true) l with
          | Some (g, r) =>
              let '(gs, ipv4, r) := read_groups n' (S i) r in (g :: gs, ipv4, r)
          | None => ([], false, l)
          end
      end
  end.

Definition read_ipv6_addr : parser (list Z) := λ l,
  let '(head, head_ipv4, l) := read_groups 8 0 l in
  if (length head =? 8)%nat then Some (head, l)
  else if head_ipv4 : bool then None
  else
    '(_, l) ← read_given_char ":"%byte l;
    '(_, l) ← read_given_char ":"%byte l;
    let '(tail, _, l) := read_groups (8 - (length head + 1)) 0 l in
    Some (head ++ replicate (8 - length head - length tail) 0 ++ tail, l).

Definition read_port : parser Z := λ l,
  '(_, l) ← read_given_char ":"%byte l; read_number 10 u16_max None true l.
Definition read_scope_id : parser Z := λ l,
  '(_, l) ← read_given_char "%"%byte l; read_number 10 u32_max None true l.

Definition read_socket_addr_v4 : parser SocketAddr.t := λ l,
  '(ip, l) ← read_ipv4_addr l;
  '(port, l) ← read_port l;
  Some (SocketAddr.V4 ip port, l).

Definition read_socket_addr_v6 : parser SocketAddr.t := λ l,
  '(_, l) ← read_given_char "["%byte l;
  '(ip, l) ← read_ipv6_addr l;
  let '(scope_id, l) := match read_scope_id l with Some (s, l) => (s, l) | None => (0, l) end in
  '(_, l) ← read_given_char "]"%byte l;
  '(port, l) ← read_port l;
  Some (SocketAddr.V6 ip scope_id port, l).

(** [SocketAddr::from_str]: everything must be read. *)
Definition parse (l : bytes) : option SocketAddr.t :=
  match (match read_socket_addr_v4 l with
         | Some r => Some r
         | None => read_socket_addr_v6 l
         end) with
  | Some (a, []) => Some a
  | _ => None
  end.
End AddrParser.

Example parse_default : AddrParser.parse (bs "127.0.0.1:81") = Some (SocketAddr.V4 (127, 0, 0, 1) 81).
Proof. reflexivity. Qed.
Example parse_v6 : AddrParser.parse (bs "[::1%7]:8080") =
  Some (SocketAddr.V6 [0; 0; 0; 0; 0; 0; 0; 1] 7 8080).
Proof. reflexivity. Qed.
Example parse_octal : AddrParser.parse (bs "127.0.00.1:81") = None.
Proof. reflexivity. Qed.

(** ** What the parser accepts *)

Section accepts.
Import AddrParser.

Definition no_digit_head (l : bytes) : Prop :=
  match l with c :: _ => is_ascii_digit c = false | [] => True end.

Lemma to_digit_10 c :
  to_digit 10 c = if is_ascii_digit c then Some (digit_val c) else None.
Proof. by destruct c. Qed.

(** [t] is the longest digit prefix of [l], with the rest [r], and [P t]. *)
Definition digit_prefix (P : bytes → Prop) (l r : bytes) : Prop :=
  ∃ t, l = t ++ r ∧ all_digits t = true ∧ no_digit_head r ∧ P t.

Lemma digit_prefix_nil P r : digit_prefix P [] r ↔ r = [] ∧ P [].
Proof.
  split.
  - intros ([|] & Hl & _ & _ & Hp); [|done]. cbn in Hl. by subst r.
  - intros [-> Hp]. by exists [].
Qed.
Lemma digit_prefix_digit P c l r :
  is_ascii_digit c = true → digit_prefix P (c :: l) r ↔ digit_prefix (λ t, P (c :: t)) l r.
Proof.
  intros Hc. split.
  - intros ([|c' t] & Hl & Ht & Hr & Hp).
    + cbn in Hl. subst r. cbn in Hr. congruence.
    + injection Hl as <- ->. cbn in Ht. rewrite Hc in Ht. by exists t.
  - intros (t & -> & Ht & Hr & Hp). exists (c :: t). cbn. by rewrite Hc.
Qed.
Lemma digit_prefix_stop P c l r :
  is_ascii_digit c = false → digit_prefix P (c :: l) r ↔ r = c :: l ∧ P [].
Proof.
  intros Hc. split.
  - intros ([|c' t] & Hl & Ht & Hr & Hp); [cbn in Hl; by subst r|].
    injection Hl as <- ->. cbn in Ht. by rewrite Hc in Ht.
  - intros [-> Hp]. by exists [].
Qed.
Lemma digit_prefix_ext P Q l r :
  (∀ t, all_digits t = true → P t ↔ Q t) → digit_prefix P l r ↔ digit_prefix Q l r.
Proof. intros He. unfold digit_prefix. split; intros (t & ? & ? & ? & ?); exists t; naive_solver. Qed.

Lemma digits_limited_iff limit l : ∀ result count v n r,
  (count ≤ limit)%nat →
  digits_limited 10 limit result count l = Some (v, n, r) ↔
  digit_prefix (λ t, v = dec_value_from result t ∧ n = (count + length t)%nat ∧ (n ≤ limit)%nat) l r.
Proof.
  induction l as [|c l IH]; intros result count v n r Hc; cbn [digits_limited].
  - rewrite digit_prefix_nil. cbn. rewrite Nat.add_0_r. naive_solver.
  - rewrite to_digit_10. destruct (is_ascii_digit c) eqn:Hd.
    + rewrite digit_prefix_digit by done. destruct (Nat.ltb_spec limit (S count)).
      * split; [done|]. intros (t & _ & _ & _ & _ & Hn & Hl). cbn in Hn. lia.
      * rewrite IH by lia. apply digit_prefix_ext. intros t _. cbn [length].
        rewrite Nat.add_succ_r. done.
    + rewrite digit_prefix_stop by done. cbn. rewrite Nat.add_0_r. naive_solver.
Qed.

Lemma digits_checked_iff max l : ∀ result count v n r,
  0 ≤ result ≤ max →
  digits_checked 10 max result count l = Some (v, n, r) ↔
  digit_prefix (λ t, v = dec_value_from result t ∧ n = (count + length t)%nat ∧ v ≤ max) l r.
Proof.
  induction l as [|c l IH]; intros result count v n r Hc; cbn [digits_checked].
  - rewrite digit_prefix_nil. cbn. rewrite Nat.add_0_r. split; [intros [= <- <- <-]|naive_solver].
    split_and!; [done..|lia].
  - rewrite to_digit_10. destruct (is_ascii_digit c) eqn:Hd.
    + rewrite digit_prefix_digit by done. pose proof (is_ascii_digit_range c Hd) as Hcd.
      assert (max < result * 10 + digit_val c → ¬ digit_prefix (λ t,
        v = dec_value_from result (c :: t) ∧ n = (count + length (c :: t))%nat ∧ v ≤ max) l r) as Hover.
      { intros Hm (t & _ & Ht & _ & Hv & _ & Hle). change (dec_value_from result (c :: t))
          with (dec_value_from (result * 10 + digit_val c) t) in Hv.
        pose proof (dec_value_from_ge t (result * 10 + digit_val c) ltac:(lia) Ht). lia. }
      destruct (checked 0 max (result * 10)) as [r1|] eqn:H1; cbn.
      * apply checked_Some in H1 as [-> H1].
        destruct (checked 0 max (result * 10 + digit_val c)) as [r2|] eqn:H2; cbn.
        -- apply checked_Some in H2 as [-> H2]. rewrite IH by lia. apply digit_prefix_ext.
           intros t _. cbn [length]. by rewrite Nat.add_succ_r.
        -- apply checked_None in H2. split; [done|]. intros Hp. exfalso. revert Hp. apply Hover. lia.
      * apply checked_None in H1. split; [done|]. intros Hp. exfalso. revert Hp. apply Hover. lia.
    + rewrite digit_prefix_stop by done. cbn. rewrite Nat.add_0_r.
      split; [intros [= <- <- <-]|naive_solver]. split_and!; [done..|lia].
Qed.

(** A decimal octet: one to three digits without a leading zero. *)
Definition octet (t : bytes) (v : Z) : Prop :=
  all_digits t = true ∧ (1 ≤ length t ≤ 3)%nat ∧ (head t = Some "0"%byte → length t = 1%nat) ∧
  v = dec_value t ∧ v ≤ 255.

(** A port: digits of a 16-bit number. *)
Definition port_text (t : bytes) (v : Z) : Prop :=
  all_digits t = true ∧ t ≠ [] ∧ v = dec_value t ∧ v ≤ u16_max.

Lemma read_octet l v r :
  read_number 10 u8_max (Some 3%nat) false l = Some (v, r) ↔
  ∃ t, l = t ++ r ∧ octet t v ∧ no_digit_head r.
Proof.
  unfold read_number. split.
  - intros H. destruct (digits_limited 10 3 0 0 l) as [[[v1 n] r1]|] eqn:E; [|done]. cbn in H.
    apply digits_limited_iff in E as (t & -> & Ht & Hr & -> & -> & Hn); [|lia]. cbn in Hn, H.
    destruct (Nat.eqb_spec (length t) 0) as [|Hl]; [done|].
    assert (head t = Some "0"%byte → length t = 1%nat) as Hz.
    { destruct t as [|c [|c' t]]; [done|done|]. intros [= ->]. exfalso. by cbn in H. }
    assert ((dec_value t ≤ 255) ∧ v = dec_value t ∧ r = r1) as (Hv & -> & ->).
    { destruct t as [|c [|c' t]]; [done| |]; cbn in H; rewrite ?andb_false_r in H; cbn in H;
        [|case_bool_decide; [done|]; cbn in H];
        (destruct (checked 0 u8_max _) as [n|] eqn:Hch; [|done]; cbn in H;
         apply checked_Some in Hch as [-> [_ Hch]]; injection H as <- <-; done). }
    exists t. split; [done|]. split; [|done]. unfold octet. split_and!; [done|lia|lia|done|done|done].
  - intros (t & -> & (Ht & Hl & Hz & -> & Hv) & Hr).
    assert (digits_limited 10 3 0 0 (t ++ r) = Some (dec_value t, length t, r)) as ->.
    { apply digits_limited_iff; [lia|]. exists t. split_and!; [done..|lia]. }
    cbn. destruct (Nat.eqb_spec (length t) 0); [lia|].
    assert (0 ≤ dec_value t) as Hpos by (apply (dec_value_from_ge t 0); [lia|done]).
    assert (checked 0 u8_max (dec_value t) = Some (dec_value t)) as ->
      by (apply checked_Some; unfold u8_max; lia).
    destruct t as [|c t]; [done|]. cbn [app]. case_bool_decide; [|done]. subst c.
    specialize (Hz eq_refl). cbn in Hz. injection Hz as Hz%nil_length_inv. by subst t.
Qed.

Lemma read_port_iff l v r :
  read_port l = Some (v, r) ↔ ∃ t, l = ":"%byte :: t ++ r ∧ port_text t v ∧ no_digit_head r.
Proof.
  split.
  - unfold read_port, read_number. intros H. destruct l as [|c l]; [done|]. cbn in H. case_bool_decide; [|done]. cbn in H. subst c.
    destruct (digits_checked 10 u16_max 0 0 l) as [[[v1 n] r1]|] eqn:E; [|done]. cbn in H.
    apply digits_checked_iff in E as (t & -> & Ht & Hr & -> & -> & Hn); [|by vm_compute].
    cbn in H. destruct (Nat.eqb_spec (length t) 0) as [|Hl]; [done|].
    destruct (checked 0 u16_max _) as [n|] eqn:Hch; [|done]. cbn in H.
    apply checked_Some in Hch as [-> Hch]. injection H as <- <-.
    exists t. split; [done|]. split; [|done]. split_and!; [done| |done|apply Hch].
    by intros ->.
  - intros (t & -> & (Ht & Hne & -> & Hv) & Hr).
    change (read_port (":"%byte :: t ++ r)) with (read_number 10 u16_max None true (t ++ r)).
    unfold read_number.
    assert (digits_checked 10 u16_max 0 0 (t ++ r) = Some (dec_value t, length t, r)) as ->.
    { apply digits_checked_iff; [by vm_compute|]. exists t. split_and!; done. }
    cbn [mbind option_bind]. destruct (Nat.eqb_spec (length t) 0) as [Hl|]; [by apply nil_length_inv in Hl|].
    assert (0 ≤ dec_value t) as Hpos by (apply (dec_value_from_ge t 0); [lia|done]).
    assert (checked 0 u16_max (dec_value t) = Some (dec_value t)) as -> by (apply checked_Some; lia).
    done.
Qed.

Lemma read_separator_S {A} sep i (p : parser A) l x r :
  read_separator sep (S i) p l = Some (x, r) ↔ ∃ l', l = sep :: l' ∧ p l' = Some (x, r).
Proof.
  unfold read_separator. cbn [Nat.eqb]. destruct l as [|c l]; cbn; [naive_solver|].
  case_bool_decide; cbn; naive_solver.
Qed.

Lemma bind_Some_pair {A B} (m : option (A * bytes)) (f : A * bytes → option B) b :
  (m ≫= f) = Some b ↔ ∃ a r, m = Some (a, r) ∧ f (a, r) = Some b.
Proof. destruct m as [[a r]|]; cbn; naive_solver. Qed.

(** A dotted quad. *)
Definition quad (host : bytes) (ip : Z * Z * Z * Z) : Prop :=
  ∃ t1 t2 t3 t4, host = t1 ++ "."%byte :: t2 ++ "."%byte :: t3 ++ "."%byte :: t4 ∧
    octet t1 ip.1.1.1 ∧ octet t2 ip.1.1.2 ∧ octet t3 ip.1.2 ∧ octet t4 ip.2.

(** Appends and conses to the right. *)
Local Ltac app_norm := repeat (rewrite <-(assoc_L (++)) || (progress cbn [app])).

Lemma read_ipv4_iff l ip r :
  read_ipv4_addr l = Some (ip, r) ↔ ∃ t, l = t ++ r ∧ quad t ip ∧ no_digit_head r.
Proof.
  unfold read_ipv4_addr. destruct ip as [[[a b] c] d]. split.
  - rewrite bind_Some_pair. intros (a0 & l1 & H1 & H). cbn [read_separator Nat.eqb] in H1.
    apply read_octet in H1 as (t1 & -> & Ho1 & _).
    apply bind_Some_pair in H as (b' & l2 & (l1' & -> & H2)%read_separator_S & H).
    apply read_octet in H2 as (t2 & -> & Ho2 & _).
    apply bind_Some_pair in H as (c' & l3 & (l2' & -> & H3)%read_separator_S & H).
    apply read_octet in H3 as (t3 & -> & Ho3 & _).
    apply bind_Some_pair in H as (d' & l4 & (l3' & -> & H4)%read_separator_S & H).
    apply read_octet in H4 as (t4 & -> & Ho4 & Hr). injection H as <- <- <- <- <-.
    exists (t1 ++ "."%byte :: t2 ++ "."%byte :: t3 ++ "."%byte :: t4).
    split; [by app_norm|].
    split; [|done]. by exists t1, t2, t3, t4.
  - intros (t & -> & (t1 & t2 & t3 & t4 & -> & Ho1 & Ho2 & Ho3 & Ho4) & Hr). cbn [fst snd] in *.
    apply bind_Some_pair. exists a, ("."%byte :: t2 ++ "."%byte :: t3 ++ "."%byte :: t4 ++ r). split.
    { cbn [read_separator Nat.eqb]. apply read_octet. exists t1. split; [by app_norm|by split]. }
    apply bind_Some_pair. exists b, ("."%byte :: t3 ++ "."%byte :: t4 ++ r). split.
    { apply read_separator_S. eexists. split; [done|]. apply read_octet. by exists t2. }
    apply bind_Some_pair. exists c, ("."%byte :: t4 ++ r). split.
    { apply read_separator_S. eexists. split; [done|]. apply read_octet. by exists t3. }
    apply bind_Some_pair. exists d, r. split; [|done].
    apply read_separator_S. eexists. split; [done|]. apply read_octet. by exists t4.
Qed.

(** [parse] gives an IPv4 address exactly for a dotted quad with a port. *)
Lemma parse_V4_iff l ip port :
  parse l = Some (SocketAddr.V4 ip port) ↔
  ∃ host tp, l = host ++ ":"%byte :: tp ∧ quad host ip ∧ port_text tp port.
Proof.
  unfold parse. split.
  - intros H. destruct (read_socket_addr_v4 l) as [[a r]|] eqn:E.
    + destruct r; [|done]. injection H as ->. unfold read_socket_addr_v4 in E.
      apply bind_Some_pair in E as (ip' & l1 & (t & -> & Hq & _)%read_ipv4_iff & E).
      apply bind_Some_pair in E as (port' & l2 & (tp & -> & Hp & _)%read_port_iff & E).
      injection E as <- <- ->. exists t, tp. by rewrite app_nil_r.
    + exfalso. destruct (read_socket_addr_v6 l) as [[a r]|] eqn:E6; [|done].
      destruct r; [|done]. injection H as ->. unfold read_socket_addr_v6 in E6.
      apply bind_Some_pair in E6 as (? & ? & _ & E6).
      apply bind_Some_pair in E6 as (? & l2 & _ & E6).
      destruct (match read_scope_id l2 with Some (s, l) => (s, l) | None => (0, l2) end).
      apply bind_Some_pair in E6 as (? & ? & _ & E6).
      by apply bind_Some_pair in E6 as (? & ? & _ & [=]).
  - intros (host & tp & -> & Hq & Hp).
    assert (read_socket_addr_v4 (host ++ ":"%byte :: tp) = Some (SocketAddr.V4 ip port, [])) as ->; [|done].
    unfold read_socket_addr_v4. apply bind_Some_pair. exists ip, (":"%byte :: tp). split.
    { apply read_ipv4_iff. by exists host. }
    apply bind_Some_pair. exists port, []. split; [|done].
    apply read_port_iff. exists tp. by rewrite app_nil_r.
Qed.

(** *** The alphabet of socket addresses *)

Definition addr_byte (c : byte) : Prop :=
  is_Some (to_digit 16 c) ∨ c ∈ bs ".:[]%".

(** What is read is made of those bytes. *)
Definition reads {A} (p : parser A) : Prop :=
  ∀ l a r, p l = Some (a, r) → ∃ t, l = t ++ r ∧ Forall addr_byte t.

Lemma reads_char c : addr_byte c → reads (read_given_char c).
Proof.
  intros Hc [|c' l] a r; [done|]. cbn. case_bool_decide; [|done]. intros [= _ <-]. subst c'.
  exists [c]. split; [done|]. by constructor.
Qed.

Lemma reads_bind {A B} (p : parser A) (f : A → parser B) :
  reads p → (∀ a, reads (f a)) → reads (λ l, '(a, l') ← p l; f a l').
Proof.
  intros Hp Hf l b r (a & l1 & H1 & H2)%bind_Some_pair.
  destruct (Hp _ _ _ H1) as (t1 & -> & Ht1). destruct (Hf _ _ _ _ H2) as (t2 & -> & Ht2).
  exists (t1 ++ t2). split; [by rewrite (assoc_L (++))|]. by apply Forall_app.
Qed.
Lemma reads_ret {A} (a : A) : reads (λ l, Some (a, l)).
Proof. intros l b r [= -> ->]. by exists []. Qed.

Lemma reads_separator {A} sep i (p : parser A) :
  addr_byte sep → reads p → reads (read_separator sep i p).
Proof.
  intros Hs Hp. unfold read_separator. destruct (i =? 0)%nat; [done|].
  apply (reads_bind (read_given_char sep) (λ _, p)); [by apply reads_char|done].
Qed.

Lemma to_digit_hex radix c : radix ≤ 16 → is_Some (to_digit radix c) → addr_byte c.
Proof.
  intros Hr Hd. left. unfold to_digit in *.
  destruct (in_range 48 57 (u8 c)) eqn:E1;
    [apply in_range_spec in E1; destruct (Z.ltb_spec (u8 c - 48) 16); [by eexists|lia]|].
  destruct (in_range 97 122 (u8 c)) eqn:E2.
  { destruct (Z.ltb_spec (u8 c - 97 + 10) radix); [|by destruct Hd].
    destruct (Z.ltb_spec (u8 c - 97 + 10) 16); [by eexists|lia]. }
  destruct (in_range 65 90 (u8 c)) eqn:E3.
  { destruct (Z.ltb_spec (u8 c - 65 + 10) radix); [|by destruct Hd].
    destruct (Z.ltb_spec (u8 c - 65 + 10) 16); [by eexists|lia]. }
  rewrite Z.ltb_irrefl in Hd. by destruct Hd.
Qed.

Lemma digits_limited_reads radix limit l : radix ≤ 16 → ∀ res n v k r,
  digits_limited radix limit res n l = Some (v, k, r) → ∃ t, l = t ++ r ∧ Forall addr_byte t.
Proof.
  intros Hr. induction l as [|c l IH]; intros res n v k r; cbn [digits_limited].
  - intros [= _ _ <-]. by exists [].
  - destruct (to_digit radix c) as [d|] eqn:Hd.
    + destruct (_ <? _)%nat; [done|]. intros (t & -> & Ht)%IH. exists (c :: t).
      split; [done|]. constructor; [|done]. eapply to_digit_hex; [done|by eexists].
    + intros [= _ _ <-]. by exists [].
Qed.
Lemma digits_checked_reads radix max l : radix ≤ 16 → ∀ res n v k r,
  digits_checked radix max res n l = Some (v, k, r) → ∃ t, l = t ++ r ∧ Forall addr_byte t.
Proof.
  intros Hr. induction l as [|c l IH]; intros res n v k r; cbn [digits_checked].
  - intros [= _ _ <-]. by exists [].
  - destruct (to_digit radix c) as [d|] eqn:Hd.
    + destruct (checked 0 max (res * radix)) as [r1|]; [|done]. cbn.
      destruct (checked 0 max (r1 + d)) as [r2|]; [|done]. cbn.
      intros (t & -> & Ht)%IH. exists (c :: t).
      split; [done|]. constructor; [|done]. eapply to_digit_hex; [done|by eexists].
    + intros [= _ _ <-]. by exists [].
Qed.

Lemma reads_number radix max limit z : radix ≤ 16 → reads (read_number radix max limit z).
Proof.
  intros Hr l v r. unfold read_number.
  destruct (match limit with Some _ => _ | None => _ end) as [[[v1 n] r1]|] eqn:E; [|done].
  assert (∃ t, l = t ++ r1 ∧ Forall addr_byte t) as Ht.
  { destruct limit; [by eapply digits_limited_reads|by eapply digits_checked_reads]. }
  cbn. destruct (n =? 0)%nat; [done|]. destruct (_ && _); [done|].
  destruct (checked 0 max v1); [|done]. by intros [= _ <-].
Qed.

Local Ltac addr := apply (bool_decide_eq_true_1 (_ ∈ _)); vm_compute; reflexivity.

Lemma reads_ipv4 : reads read_ipv4_addr.
Proof.
  assert (∀ i, reads (read_separator "."%byte i (read_number 10 u8_max (Some 3%nat) false))) as Hg.
  { intros i. apply reads_separator; [right; addr|by apply reads_number]. }
  unfold read_ipv4_addr.
  do 4 (apply (reads_bind (read_separator "."%byte _ _) (λ _ l, _)); [apply Hg|intros ?]).
  apply reads_ret.
Qed.

Lemma reads_groups n : ∀ i l gs v4 r,
  read_groups n i l = (gs, v4, r) → ∃ t, l = t ++ r ∧ Forall addr_byte t.
Proof.
  assert (addr_byte ":"%byte) as Hc by (right; addr).
  induction n as [|n IH]; intros i l gs v4 r; cbn [read_groups]; [intros [= _ _ <-]; by exists []|].
  destruct (if (n =? 0)%nat then None else read_separator ":"%byte i read_ipv4_addr l)
    as [[[[[a b] c] d] r1]|] eqn:E4.
  - intros [= _ _ <-]. destruct (n =? 0)%nat; [done|].
    by apply (reads_separator ":"%byte i _ Hc reads_ipv4) in E4.
  - destruct (read_separator ":"%byte i (read_number 16 u16_max (Some 4%nat) true) l) as [[g r1]|] eqn:Eg; [|intros [= _ _ <-]; by exists []].
    apply (reads_separator ":"%byte i _ Hc (reads_number 16 u16_max (Some 4%nat) true ltac:(lia))) in Eg
      as (t1 & -> & Ht1).
    destruct (read_groups n (S i) r1) as [[gs1 v41] r2] eqn:Er. intros [= _ _ <-].
    destruct (IH _ _ _ _ _ Er) as (t2 & -> & Ht2). exists (t1 ++ t2).
    split; [by rewrite (assoc_L (++))|by apply Forall_app].
Qed.

Lemma reads_ipv6 : reads read_ipv6_addr.
Proof.
  assert (addr_byte ":"%byte) as Hc by (right; addr).
  intros l a r. unfold read_ipv6_addr. destruct (read_groups 8 0 l) as [[hd v4] l1] eqn:E1.
  apply reads_groups in E1 as (t1 & -> & Ht1).
  destruct (_ =? 8)%nat; [intros [= _ <-]; by exists t1|]. destruct v4; [done|].
  assert (reads (λ l, '(_, l) ← read_given_char ":"%byte l; '(_, l) ← read_given_char ":"%byte l;
    let '(tl, _, l) := read_groups (8 - (length hd + 1)) 0 l in
    Some (hd ++ replicate (8 - length hd - length tl) 0 ++ tl, l))) as Hrest.
  { do 2 (apply (reads_bind (read_given_char ":"%byte) (λ _ l, _)); [by apply reads_char|intros _]).
    intros l2 a2 r2. destruct (read_groups _ 0 l2) as [[tl v4] l3] eqn:E2.
    intros [= _ <-]. by apply reads_groups in E2. }
  intros (t2 & -> & Ht2)%Hrest. exists (t1 ++ t2).
  split; [by rewrite (assoc_L (++))|by apply Forall_app].
Qed.

Lemma reads_port : reads read_port.
Proof.
  apply (reads_bind (read_given_char ":"%byte) (λ _, _)); [apply reads_char; right; addr|intros _].
  by apply reads_number.
Qed.
Lemma reads_scope_id : reads read_scope_id.
Proof.
  apply (reads_bind (read_given_char "%"%byte) (λ _, _)); [apply reads_char; right; addr|intros _].
  by apply reads_number.
Qed.

Lemma reads_v4 : reads read_socket_addr_v4.
Proof.
  apply (reads_bind read_ipv4_addr (λ _ l, _)); [apply reads_ipv4|intros ip].
  apply (reads_bind read_port (λ _ l, _)); [apply reads_port|intros port]. apply reads_ret.
Qed.

Lemma reads_v6 : reads read_socket_addr_v6.
Proof.
  apply (reads_bind (read_given_char "["%byte) (λ _ l, _)); [apply reads_char; right; addr|intros _].
  apply (reads_bind read_ipv6_addr (λ _ l, _)); [apply reads_ipv6|intros ip].
  intros l a r.
  assert (∀ scope, reads (λ l, '(_, l) ← read_given_char "]"%byte l; '(port, l) ← read_port l;
    Some (SocketAddr.V6 ip scope port, l))) as Hrest.
  { intros scope.
    apply (reads_bind (read_given_char "]"%byte) (λ _ l, _)); [apply reads_char; right; addr|intros _].
    apply (reads_bind read_port (λ _ l, _)); [apply reads_port|intros port]. apply reads_ret. }
  destruct (read_scope_id l) as [[scope l1]|] eqn:Es; [|apply Hrest].
  apply reads_scope_id in Es as (t1 & -> & Ht1). intros (t2 & -> & Ht2)%Hrest.
  exists (t1 ++ t2). split; [by rewrite (assoc_L (++))|by apply Forall_app].
Qed.

(** Anything with another byte in it is refused. *)
Lemma parse_alphabet l a : parse l = Some a → Forall addr_byte l.
Proof.
  unfold parse. intros H.
  assert (∃ t r, r = [] ∧ l = t ++ r ∧ Forall addr_byte t) as (t & r & -> & -> & Ht).
  { destruct (read_socket_addr_v4 l) as [[a' [|]]|] eqn:E; [|done|].
    - destruct (reads_v4 _ _ _ E) as (t & -> & Ht). by eexists _, _.
    - destruct (read_socket_addr_v6 l) as [[a' [|]]|] eqn:E6; [|done..].
      destruct (reads_v6 _ _ _ E6) as (t & -> & Ht). by eexists _, _. }
  by rewrite app_nil_r.
Qed.
End accepts.
