(* ===== verification/ClientError.v ===== *)
(** * Errors of the client ([cedro-client/src/error.rs]) *)

From S2P Require Import Prelude RustIo.

Module HandshakeStep.
Inductive t : Type :=
  | AwaitWelcome
  | SendSoftwareKey
  | AwaitUsernamePrompt
  | SendUsername
  | AwaitPasswordPrompt
  | SendPassword
  | AwaitConnected.

(** The [Display] of a step. *)
Definition display (s : t) : string :=
  match s with
  | AwaitWelcome => "awaiting welcome"
  | SendSoftwareKey => "sending software key"
  | AwaitUsernamePrompt => "awaiting username prompt"
  | SendUsername => "sending username"
  | AwaitPasswordPrompt => "awaiting password prompt"
  | SendPassword => "sending password"
  | AwaitConnected => "awaiting 'You are connected'"
  end.
End HandshakeStep.

Module ClientError.
Inductive t : Type :=
  | Io (e : IoError.t)
  | Handshake (step : HandshakeStep.t) (reason : string)
  | HandshakeTimeout (step : HandshakeStep.t) (waited : Z)
  | UnexpectedEof
  | ReaderAlreadyStarted
  | BufferPressurePanic (pending_bytes pct : Z)
  | InvalidConfig (reason : string)
  | CommandWrite (e : IoError.t).
End ClientError.
