(* ===== verification/Enums.v ===== *)
(** * Protocol enumerations ([cedro-protocol/src/enums.rs])

    One Module per enumeration of the source: the type with the source's
    variants and its decoding function. [to_code] / [to_byte] are not code of
    the source: they are the wire codes of the protocol document, against
    which decoding is shown to be lossless. *)

From S2P Require Import Prelude RustInt.

(** Market identifier, quote index 44. *)
Module MarketCode.

Inductive t : Type :=
  | Bovespa
  | DowJones
  | Bmf
  | Indices
  | Money
  | Forex
  | Indicators
  | Nyse
  | Nasdaq
  | Cfd
  | Bitcoin
  | Datagro
  | Inews
  | Amex
  | TesouroDireto
  | NyseFmv
  | NasdaqFmv
  | AmexFmv
  | Unknown (code : Z).

#[global] Instance t_eq_dec : EqDecision t.
Proof. solve_decision. Defined.

Definition from_code (code : Z) : t :=
  match code with
  | 1 => Bovespa
  | 2 => DowJones
  | 3 => Bmf
  | 4 => Indices
  | 5 => Money
  | 7 => Forex
  | 8 => Indicators
  | 10 => Nyse
  | 12 => Nasdaq
  | 13 => Cfd
  | 30 => Bitcoin
  | 44 => Datagro
  | 45 => Inews
  | 52 => Amex
  | 64 => TesouroDireto
  | 76 => NyseFmv
  | 77 => NasdaqFmv
  | 78 => AmexFmv
  | other => Unknown other
  end.

Definition to_code (x : t) : Z :=
  match x with
  | Bovespa => 1
  | DowJones => 2
  | Bmf => 3
  | Indices => 4
  | Money => 5
  | Forex => 7
  | Indicators => 8
  | Nyse => 10
  | Nasdaq => 12
  | Cfd => 13
  | Bitcoin => 30
  | Datagro => 44
  | Inews => 45
  | Amex => 52
  | TesouroDireto => 64
  | NyseFmv => 76
  | NasdaqFmv => 77
  | AmexFmv => 78
  | Unknown c => c
  end.

Lemma market_code_to_from_code c : to_code (from_code c) = c.
Proof. unfold from_code. by repeat split_match. Qed.

End MarketCode.

(** Asset type, quote index 45. *)
Module AssetType.

Inductive t : Type :=
  | Spot
  | Option
  | Index
  | Commodity
  | Currency
  | Term
  | Future
  | Auction
  | Bond
  | Fractional
  | OptionExercise
  | Indicator
  | Etf
  | Volume
  | OptionOnSpot
  | OptionOnFuture
  | Test
  | Strategy
  | Corp
  | Secloan
  | TesouroDireto
  | Unknown (code : Z).

#[global] Instance t_eq_dec : EqDecision t.
Proof. solve_decision. Defined.

Definition from_code (code : Z) : t :=
  match code with
  | 1 => Spot
  | 2 => Option
  | 3 => Index
  | 4 => Commodity
  | 5 => Currency
  | 6 => Term
  | 7 => Future
  | 8 => Auction
  | 9 => Bond
  | 10 => Fractional
  | 11 => OptionExercise
  | 12 => Indicator
  | 13 => Etf
  | 15 => Volume
  | 16 => OptionOnSpot
  | 17 => OptionOnFuture
  | 18 => Test
  | 19 => Strategy
  | 20 => Corp
  | 21 => Secloan
  | 22 => TesouroDireto
  | other => Unknown other
  end.

Definition to_code (x : t) : Z :=
  match x with
  | Spot => 1
  | Option => 2
  | Index => 3
  | Commodity => 4
  | Currency => 5
  | Term => 6
  | Future => 7
  | Auction => 8
  | Bond => 9
  | Fractional => 10
  | OptionExercise => 11
  | Indicator => 12
  | Etf => 13
  | Volume => 15
  | OptionOnSpot => 16
  | OptionOnFuture => 17
  | Test => 18
  | Strategy => 19
  | Corp => 20
  | Secloan => 21
  | TesouroDireto => 22
  | Unknown c => c
  end.

Lemma asset_type_to_from_code c : to_code (from_code c) = c.
Proof. unfold from_code. by repeat split_match. Qed.

End AssetType.

(** Instrument trading status, quote index 67. *)
Module InstrumentStatus.

Inductive t : Type :=
  | Normal
  | Auction
  | Suspended
  | Frozen
  | Empty
  | Unknown (code : Z).

#[global] Instance t_eq_dec : EqDecision t.
Proof. solve_decision. Defined.

Definition from_code (code : Z) : t :=
  match code with
  | 101 => Normal
  | 102 => Auction
  | 105 => Suspended
  | 118 => Frozen
  | -1 => Empty
  | other => Unknown other
  end.

Definition to_code (x : t) : Z :=
  match x with
  | Normal => 101
  | Auction => 102
  | Suspended => 105
  | Frozen => 118
  | Empty => -1
  | Unknown c => c
  end.

Lemma instrument_status_to_from_code c : to_code (from_code c) = c.
Proof. unfold from_code. by repeat split_match. Qed.

End InstrumentStatus.

(** Asset status, quote index 84. *)
Module AssetStatus.

Inductive t : Type :=
  | Normal
  | Frozen
  | Suspended
  | Auction
  | Inhibited
  | Unknown (code : Z).

#[global] Instance t_eq_dec : EqDecision t.
Proof. solve_decision. Defined.

Definition from_code (code : Z) : t :=
  match code with
  | 0 => Normal
  | 1 => Frozen
  | 2 => Suspended
  | 3 => Auction
  | 4 => Inhibited
  | other => Unknown other
  end.

Definition to_code (x : t) : Z :=
  match x with
  | Normal => 0
  | Frozen => 1
  | Suspended => 2
  | Auction => 3
  | Inhibited => 4
  | Unknown c => c
  end.

Lemma asset_status_to_from_code c : to_code (from_code c) = c.
Proof. unfold from_code. by repeat split_match. Qed.

End AssetStatus.

(** Trading-session phase of an asset group, quote index 88. *)
Module AssetGroupPhase.

Inductive t : Type :=
  | PreOpen
  | Open
  | PreClose
  | Close
  | PreAfterOpen
  | AfterOpen
  | AfterClose
  | Final
  | Closed
  | Paused
  | Unknown (buf : byte * byte).

#[global] Instance t_eq_dec : EqDecision t.
Proof. solve_decision. Defined.

(** [[u8; 2]] filled with the first two bytes of the code, zero elsewhere. *)
Definition buf2 (code : bytes) : byte * byte :=
  (default x00 (code !! 0%nat), default x00 (code !! 1%nat)).

Definition from_code (code : bytes) : t :=
  if bool_decide (code = bs "P") then PreOpen else
  if bool_decide (code = bs "A") then Open else
  if bool_decide (code = bs "PN") then PreClose else
  if bool_decide (code = bs "N") then Close else
  if bool_decide (code = bs "E") then PreAfterOpen else
  if bool_decide (code = bs "R") then AfterOpen else
  if bool_decide (code = bs "NE") then AfterClose else
  if bool_decide (code = bs "F") then Final else
  if bool_decide (code = bs "NO") then Closed else
  if bool_decide (code = bs "T") then Paused else
  Unknown (buf2 code).

(** The code as the two-byte buffer of the wire. *)
Definition to_buf (x : t) : byte * byte :=
  match x with
  | PreOpen => buf2 (bs "P") | Open => buf2 (bs "A") | PreClose => buf2 (bs "PN")
  | Close => buf2 (bs "N") | PreAfterOpen => buf2 (bs "E") | AfterOpen => buf2 (bs "R")
  | AfterClose => buf2 (bs "NE") | Final => buf2 (bs "F") | Closed => buf2 (bs "NO")
  | Paused => buf2 (bs "T") | Unknown buf => buf
  end.

Lemma asset_group_phase_to_from_code code : to_buf (from_code code) = buf2 code.
Proof. unfold from_code. by repeat case_bool_decide; subst. Qed.

End AssetGroupPhase.

(** Option style, quote index 72. The source's variant [None] is [NoStyle]. *)
Module OptionStyle.

Inductive t : Type :=
  | American
  | European
  | NoStyle
  | Unknown (code : byte).

#[global] Instance t_eq_dec : EqDecision t.
Proof. solve_decision. Defined.

Definition from_byte (b : byte) : t :=
  if bool_decide (b = "A"%byte) then American else
  if bool_decide (b = "E"%byte) then European else
  if bool_decide (b = "0"%byte) then NoStyle else
  Unknown b.

Definition to_byte (x : t) : byte :=
  match x with
  | American => "A"%byte
  | European => "E"%byte
  | NoStyle => "0"%byte
  | Unknown b => b
  end.

Lemma option_style_to_from_byte b : to_byte (from_byte b) = b.
Proof. unfold from_byte. by repeat case_bool_decide. Qed.

End OptionStyle.

(** Option direction, quote index 74. *)
Module OptionDirection.

Inductive t : Type :=
  | Put
  | Call
  | Unknown (code : byte).

#[global] Instance t_eq_dec : EqDecision t.
Proof. solve_decision. Defined.

Definition from_byte (b : byte) : t :=
  if bool_decide (b = "P"%byte) then Put else
  if bool_decide (b = "C"%byte) then Call else
  Unknown b.

Definition to_byte (x : t) : byte :=
  match x with
  | Put => "P"%byte
  | Call => "C"%byte
  | Unknown b => b
  end.

Lemma option_direction_to_from_byte b : to_byte (from_byte b) = b.
Proof. unfold from_byte. by repeat case_bool_decide. Qed.

End OptionDirection.

(** Aggressor side of a trade. *)
Module TradeAggressor.

Inductive t : Type :=
  | Undefined
  | Buyer
  | Seller
  | Unknown (code : byte).

#[global] Instance t_eq_dec : EqDecision t.
Proof. solve_decision. Defined.

Definition from_byte (b : byte) : t :=
  if bool_decide (b = "I"%byte) then Undefined else
  if bool_decide (b = "A"%byte) then Buyer else
  if bool_decide (b = "V"%byte) then Seller else
  Unknown b.

Definition to_byte (x : t) : byte :=
  match x with
  | Undefined => "I"%byte
  | Buyer => "A"%byte
  | Seller => "V"%byte
  | Unknown b => b
  end.

Lemma trade_aggressor_to_from_byte b : to_byte (from_byte b) = b.
Proof. unfold from_byte. by repeat case_bool_decide. Qed.

End TradeAggressor.

(** Trade condition. *)
Module TradeCondition.

Inductive t : Type :=
  | NotDirect
  | Direct
  | Rlp
  | Rfq
  | MidpointTrade
  | OpeningPrice
  | PointInTimeAuction
  | Unknown (code : Z).

#[global] Instance t_eq_dec : EqDecision t.
Proof. solve_decision. Defined.

Definition from_code (code : Z) : t :=
  match code with
  | 0 => NotDirect
  | 1 => Direct
  | 2 => Rlp
  | 3 => Rfq
  | 4 => MidpointTrade
  | 5 => OpeningPrice
  | 6 => PointInTimeAuction
  | other => Unknown other
  end.

Definition to_code (x : t) : Z :=
  match x with
  | NotDirect => 0
  | Direct => 1
  | Rlp => 2
  | Rfq => 3
  | MidpointTrade => 4
  | OpeningPrice => 5
  | PointInTimeAuction => 6
  | Unknown c => c
  end.

Lemma trade_condition_to_from_code c : to_code (from_code c) = c.
Proof. unfold from_code. by repeat split_match. Qed.

End TradeCondition.

(** Side of an order-book entry. *)
Module Side.

Inductive t : Type :=
  | Buy
  | Sell.

#[global] Instance t_eq_dec : EqDecision t.
Proof. solve_decision. Defined.

Definition from_byte (b : byte) : option t :=
  if bool_decide (b = "A"%byte) then Some Buy else
  if bool_decide (b = "V"%byte) then Some Sell else
  None.

Definition as_byte (s : t) : byte :=
  match s with
  | Buy => "A"%byte
  | Sell => "V"%byte
  end.

(** [fmt::Display]. *)
Definition display (s : t) : bytes :=
  match s with
  | Buy => bs "buy"
  | Sell => bs "sell"
  end.

Lemma from_byte_Some b s : from_byte b = Some s ↔ b = as_byte s.
Proof.
  unfold from_byte. split.
  - repeat case_bool_decide; naive_solver.
  - intros ->. by destruct s.
Qed.

End Side.

(** Decoding an enumeration loses nothing: every code, listed or not,
    is recovered from the decoded value, so two distinct codes never decode to
    the same value; the group phase keeps its two-byte buffer, and the two side
    bytes are exactly those of the two sides. *)
Theorem enums_lossless :
  (∀ c, MarketCode.to_code (MarketCode.from_code c) = c) ∧
  (∀ c, AssetType.to_code (AssetType.from_code c) = c) ∧
  (∀ c, InstrumentStatus.to_code (InstrumentStatus.from_code c) = c) ∧
  (∀ c, AssetStatus.to_code (AssetStatus.from_code c) = c) ∧
  (∀ l, AssetGroupPhase.to_buf (AssetGroupPhase.from_code l) = AssetGroupPhase.buf2 l) ∧
  (∀ b, OptionStyle.to_byte (OptionStyle.from_byte b) = b) ∧
  (∀ b, OptionDirection.to_byte (OptionDirection.from_byte b) = b) ∧
  (∀ b, TradeAggressor.to_byte (TradeAggressor.from_byte b) = b) ∧
  (∀ c, TradeCondition.to_code (TradeCondition.from_code c) = c) ∧
  (∀ b s, Side.from_byte b = Some s ↔ b = Side.as_byte s).
Proof.
  split_and!.
  - apply MarketCode.market_code_to_from_code.
  - apply AssetType.asset_type_to_from_code.
  - apply InstrumentStatus.instrument_status_to_from_code.
  - apply AssetStatus.asset_status_to_from_code.
  - apply AssetGroupPhase.asset_group_phase_to_from_code.
  - apply OptionStyle.option_style_to_from_byte.
  - apply OptionDirection.option_direction_to_from_byte.
  - apply TradeAggressor.trade_aggressor_to_from_byte.
  - apply TradeCondition.trade_condition_to_from_code.
  - apply Side.from_byte_Some.
Qed.
