(* ===== verification/Types.v ===== *)
(** * Protocol messages ([cedro-protocol/src/types.rs])

    The typed messages the parsers produce: one Module per struct or enum of
    the source, with the source's fields and variants. *)

From S2P Require Import Prelude RustInt RustStr RustFloat Enums.

(** A quote field value. *)
Module QuoteFieldValue.
Inductive t : Type :=
  | Float (x : f64)
  | Int (n : Z)
  | Time (n : Z)
  | Date (n : Z)
  | DateTime (n : Z)
  | Char (b : byte)
  | Phase (buf : byte * byte)
  | Str (s : bytes).

#[global] Instance t_eq_dec : EqDecision t.
Proof. solve_decision. Defined.
End QuoteFieldValue.

(** The newtype around a quote index ([u16]). *)
Abbreviation QuoteFieldId := Z (only parsing).

(** Sparse list of (field id, value) pairs. *)
Abbreviation QuoteDiff := (list (QuoteFieldId * QuoteFieldValue.t)).

(** ** Detailed book (BQT) *)

Module BookEntry.
Record t : Type := mk {
  position : Z;
  side : Side.t;
  price : f64;
  quantity : Z;
  broker_id : Z;
  timestamp_ddmmhhmm : Z;
  order_id : option bytes;
  offer_type : option byte;
}.

#[global] Instance t_eq_dec : EqDecision t.
Proof. solve_decision. Defined.
End BookEntry.

Module BookDelete.
Inductive t : Type :=
  | Single (side : Side.t) (position : Z)
  | PrefixInclusive (side : Side.t) (position : Z)
  | ClearAll.

#[global] Instance t_eq_dec : EqDecision t.
Proof. solve_decision. Defined.
End BookDelete.

Module BookOp.
Inductive t : Type :=
  | Add (entry : BookEntry.t)
  | Update (old_pos : Z) (entry : BookEntry.t)
  | Delete (d : BookDelete.t)
  | EndOfInitial.

#[global] Instance t_eq_dec : EqDecision t.
Proof. solve_decision. Defined.
End BookOp.

(** ** Aggregated book (SAB) *)

Module AggBookLevel.
Record t : Type := mk {
  position : Z;
  side : Side.t;
  price : f64;
  quantity : Z;
  offer_count : Z;
  timestamp_ddmmhhmm : Z;
}.

#[global] Instance t_eq_dec : EqDecision t.
Proof. solve_decision. Defined.
End AggBookLevel.

Module AggBookOp.
Inductive t : Type :=
  | Add (level : AggBookLevel.t)
  | Update (level : AggBookLevel.t)
  | Delete (d : BookDelete.t)
  | EndOfInitial.

#[global] Instance t_eq_dec : EqDecision t.
Proof. solve_decision. Defined.
End AggBookOp.

(** ** Trades (GQT) *)

Module Trade.
Record t : Type := mk {
  operation_code : byte;
  time_hhmmss : Z;
  price : f64;
  broker_buy_id : Z;
  broker_sell_id : Z;
  quantity : Z;
  trade_id : bytes;
  request_id : option bytes;
  condition : TradeCondition.t;
  aggressor : TradeAggressor.t;
  original_conditions : bytes;
}.

#[global] Instance t_eq_dec : EqDecision t.
Proof. solve_decision. Defined.
End Trade.

Module TradeOperation.
Inductive t : Type :=
  | Add (trade : Trade.t)
  | Delete (trade_id : bytes)
  | RemoveAll
  | EndOfSubscribe
  | EndOfSnapshot (request_id : bytes).

#[global] Instance t_eq_dec : EqDecision t.
Proof. solve_decision. Defined.
End TradeOperation.

(** ** News (NEM) *)

Module NewsHeadline.
Record t : Type := mk {
  agency : bytes;
  code : bytes;
  date : Z;
  time : Z;
  category : Z;
  title : bytes;
}.

#[global] Instance t_eq_dec : EqDecision t.
Proof. solve_decision. Defined.
End NewsHeadline.

Module NewsMessage.
Inductive t : Type :=
  | Headline (h : NewsHeadline.t)
  | HistoryItem (request_id : bytes) (headline : NewsHeadline.t)
  | HistoryEnd (request_id : bytes)
  | Body (request_id agency code body_raw : bytes).

#[global] Instance t_eq_dec : EqDecision t.
Proof. solve_decision. Defined.
End NewsMessage.

(** ** Volume at price (VAP) *)

Module VapEntry.
Record t : Type := mk {
  ticker : bytes;
  price : f64;
  buyer_trades : f64;
  buyer_volume : f64;
  seller_trades : f64;
  seller_volume : f64;
  direct_trades : f64;
  direct_volume : f64;
  undefined_trades : f64;
  undefined_volume : f64;
  period_minutes : option Z;
  rlp_trades : f64;
  rlp_volume : f64;
  auction_trades : f64;
  auction_volume : f64;
}.

#[global] Instance t_eq_dec : EqDecision t.
Proof. solve_decision. Defined.
End VapEntry.

(** ** Server time (GTC) *)

Module ServerTime.
Record t : Type := mk {
  date : Z;
  time : Z;
}.

#[global] Instance t_eq_dec : EqDecision t.
Proof. solve_decision. Defined.
End ServerTime.

(** ** Catalog discovery (MQC) *)

Module MqcItem.
Inductive t : Type :=
  | Symbol (market ticker : bytes)
  | End_ (market : bytes).

#[global] Instance t_eq_dec : EqDecision t.
Proof. solve_decision. Defined.
End MqcItem.

(** ** Broker dictionary (GPN) *)

Module GpnItem.
Record t : Type := mk {
  exchange : bytes;
  code : bytes;
  name : bytes;
  cedro_id : bytes;
  active : bool;
}.

#[global] Instance t_eq_dec : EqDecision t.
Proof. solve_decision. Defined.
End GpnItem.

(** ** Wire-level errors *)

Module CedroError.
Record t : Type := mk {
  code : Z;
  context : list bytes;
}.

#[global] Instance t_eq_dec : EqDecision t.
Proof. solve_decision. Defined.

(** [matches!(self.code, 1 | 4 | 5 | 10 | 13 | 14)]. *)
Definition is_client_bug (e : t) : bool :=
  bool_decide (code e ∈ [1; 4; 5; 10; 13; 14]).
Definition is_transient_server (e : t) : bool :=
  bool_decide (code e ∈ [11; 15]).
Definition is_migration (e : t) : bool := code e =? 12.
Definition is_forced_disconnect (e : t) : bool := in_range 6 9 (code e).
End CedroError.

(** ** All top-level messages *)

Module ProtocolMessage.
Inductive t : Type :=
  | Quote (ticker : bytes) (time_hhmmss : Z) (diff : QuoteDiff)
  | Book (ticker : bytes) (op : BookOp.t)
  | AggBook (ticker : bytes) (op : AggBookOp.t)
  | Trade (ticker : bytes) (op : TradeOperation.t)
  | News (m : NewsMessage.t)
  | Vap (e : VapEntry.t)
  | ServerTime (s : ServerTime.t)
  | MqcItem (i : MqcItem.t)
  | GpnItem (i : GpnItem.t)
  | Error (e : CedroError.t).

#[global] Instance t_eq_dec : EqDecision t.
Proof. solve_decision. Defined.
End ProtocolMessage.
