(* ===== verification/Frame.v ===== *)
(** * Framing layer ([cedro-protocol/src/frame.rs])

    [FrameSplitter] turns the byte stream of the socket into frames. The
    specification is [split_frames], the reading of a byte sequence as
    terminated frames and an unterminated rest, and [encode_frames], its
    inverse. *)

From S2P Require Import Prelude Externs.

Module FrameKind.
Inductive t : Type :=
  | Bang
  | Newline.

#[global] Instance t_eq_dec : EqDecision t.
Proof. solve_decision. Defined.
End FrameKind.

Definition newline : byte := x0a.
Definition bang : byte := "!"%byte.

Module FrameSplitter.

(** The [BytesMut] by its contents; its capacity has no observable effect. *)
Record t : Type := mk { buf : bytes }.

Definition with_capacity (cap : Z) : t := mk [].
Definition default : t := with_capacity (8 * 1024 * 1024).
Definition reserve (additional : Z) (s : t) : t := s.
Definition extend_from_slice (s : t) (src : bytes) : t := mk (buf s ++ src).
Definition pending (s : t) : nat := length (buf s).
(** [Buf::advance] panics ([None]) past the end. *)
Definition advance (s : t) (n : nat) : option t :=
  if (n <=? length (buf s))%nat then Some (mk (drop n (buf s))) else None.

Section ops.
Context `{Memchr}.

Definition next_frame (s : t) : option (FrameKind.t * bytes) * t :=
  if bool_decide (buf s = []) then (None, s)
  else match memchr2 newline bang (buf s) with
       | None => (None, s)
       | Some idx =>
           let kind := if bool_decide (buf s !! idx = Some bang)
                       then FrameKind.Bang else FrameKind.Newline in
           let frame := take (idx + 1) (buf s) in
           let rest := drop (idx + 1) (buf s) in
           (Some (kind, take idx frame), mk rest)
       end.

(** The [while let] loop of [drain]; every frame removes at least its
    terminator, so the length of the buffer is enough fuel. *)
Fixpoint drain_fuel (fuel : nat) (s : t) : list (FrameKind.t * bytes) * t :=
  match fuel with
  | O => ([], s)
  | S fuel' =>
      match next_frame s with
      | (None, s') => ([], s')
      | (Some f, s') => let '(fs, s'') := drain_fuel fuel' s' in (f :: fs, s'')
      end
  end.
Definition drain (s : t) : list (FrameKind.t * bytes) * t :=
  drain_fuel (S (pending s)) s.

(** The reader's use: append a chunk of the stream, drain, repeat. *)
Fixpoint feed (s : t) (chunks : list bytes) : list (FrameKind.t * bytes) * t :=
  match chunks with
  | [] => ([], s)
  | c :: cs =>
      let '(fs, s') := drain (extend_from_slice s c) in
      let '(fs', s'') := feed s' cs in (fs ++ fs', s'')
  end.
End ops.

End FrameSplitter.

(** ** Specification *)

Definition is_terminator (c : byte) : bool := bool_decide (c = newline ∨ c = bang).
Definition kind_of (c : byte) : FrameKind.t :=
  if bool_decide (c = bang) then FrameKind.Bang else FrameKind.Newline.
Definition terminator (k : FrameKind.t) : byte :=
  match k with FrameKind.Bang => bang | FrameKind.Newline => newline end.

Fixpoint split_frames (l : bytes) : list (FrameKind.t * bytes) * bytes :=
  match l with
  | [] => ([], [])
  | c :: l' =>
      let '(fs, rest) := split_frames l' in
      if is_terminator c then ((kind_of c, []) :: fs, rest)
      else match fs with
           | [] => ([], c :: rest)
           | (k, f) :: fs' => ((k, c :: f) :: fs', rest)
           end
  end.

Definition encode_frames (fs : list (FrameKind.t * bytes)) : bytes :=
  concat (map (λ f : FrameKind.t * bytes, f.2 ++ [terminator f.1]) fs).

(** A payload without terminator bytes. *)
Definition clean (l : bytes) : Prop := Forall (λ c, is_terminator c = false) l.

Lemma is_terminator_false c : is_terminator c = false ↔ c ≠ newline ∧ c ≠ bang.
Proof. unfold is_terminator. rewrite bool_decide_eq_false. naive_solver. Qed.

Lemma is_terminator_terminator k : is_terminator (terminator k) = true.
Proof. by destruct k. Qed.

Lemma kind_of_terminator k : kind_of (terminator k) = k.
Proof. by destruct k. Qed.

Lemma terminator_kind_of c : is_terminator c = true → terminator (kind_of c) = c.
Proof.
  unfold is_terminator, kind_of. rewrite bool_decide_eq_true.
  intros [->| ->]; by case_bool_decide.
Qed.

Lemma clean_not_elem l : clean l ↔ newline ∉ l ∧ bang ∉ l.
Proof.
  unfold clean. induction l as [|c l IH].
  - split; [|by constructor]. intros _. split; apply not_elem_of_nil.
  - rewrite Forall_cons, !not_elem_of_cons, is_terminator_false, IH. naive_solver.
Qed.

Lemma split_frames_clean l : clean l → split_frames l = ([], l).
Proof.
  induction 1 as [|c l Hc Hl IH]; [done|]. simpl. by rewrite IH, Hc.
Qed.

Lemma split_frames_app_frame t c l :
  clean t → is_terminator c = true →
  split_frames (t ++ c :: l) = ((kind_of c, t) :: (split_frames l).1, (split_frames l).2).
Proof.
  intros Ht Hc. induction Ht as [|x t Hx Ht IH]; simpl.
  - rewrite Hc. by destruct (split_frames l).
  - by rewrite IH, Hx.
Qed.

Lemma split_frames_encode fs rest :
  Forall (λ f, clean f.2) fs → clean rest →
  split_frames (encode_frames fs ++ rest) = (fs, rest).
Proof.
  intros Hfs Hrest. induction Hfs as [|[k f] fs Hf Hfs IH]; simpl in *.
  - by apply split_frames_clean.
  - unfold encode_frames in *. simpl. rewrite <-!(assoc_L (++)). simpl.
    rewrite split_frames_app_frame by (done || apply is_terminator_terminator).
    by rewrite IH, kind_of_terminator.
Qed.

(** [split_frames] inverts [encode_frames] on every input. *)
Lemma split_frames_sound l :
  l = encode_frames (split_frames l).1 ++ (split_frames l).2 ∧
  Forall (λ f, clean f.2) (split_frames l).1 ∧ clean (split_frames l).2.
Proof.
  induction l as [|c l IH]; [by repeat constructor|].
  destruct (split_frames l) as [fs rest] eqn:E. simpl in *. rewrite E.
  destruct IH as (IHl & IHf & IHr).
  destruct (is_terminator c) eqn:Hc; simpl.
  - split_and!; [|repeat constructor; done|done].
    unfold encode_frames in *. simpl. by rewrite terminator_kind_of, <-IHl.
  - destruct fs as [|[k f] fs]; simpl in *.
    + split_and!; [by rewrite IHl|done|]. by constructor.
    + apply Forall_cons in IHf as [Hf Hfs]. split_and!; [|repeat constructor; done|done].
      unfold encode_frames in *. simpl. by rewrite IHl.
Qed.

(** More input after a drain: frames found so far are final. *)
Lemma split_frames_app l1 l2 :
  split_frames (l1 ++ l2) =
    ((split_frames l1).1 ++ (split_frames ((split_frames l1).2 ++ l2)).1,
     (split_frames ((split_frames l1).2 ++ l2)).2).
Proof.
  destruct (split_frames_sound l1) as (Hl1 & Hf1 & Hr1).
  destruct (split_frames l1) as [fs rest]. simpl in *. subst l1.
  destruct (split_frames_sound (rest ++ l2)) as (Hl2 & Hf2 & Hr2).
  destruct (split_frames (rest ++ l2)) as [fs2 rest2]. simpl in *.
  rewrite <-(assoc_L (++)), Hl2, (assoc_L (++)).
  replace (encode_frames fs ++ encode_frames fs2) with (encode_frames (fs ++ fs2)).
  - apply split_frames_encode; [by apply Forall_app|done].
  - unfold encode_frames. by rewrite map_app, concat_app.
Qed.

(** ** Correctness of the splitter *)

Section correctness.
Context `{MemchrSpec}.
Import FrameSplitter.

Lemma next_frame_spec s :
  match next_frame s with
  | (None, s') => s' = s ∧ clean (buf s)
  | (Some (k, f), s') => buf s = f ++ terminator k :: buf s' ∧ clean f
  end.
Proof.
  destruct s as [b]. unfold next_frame. simpl.
  case_bool_decide as Hb; [subst; split; [done|constructor]|].
  destruct (memchr2 newline bang b) as [i|] eqn:Hm.
  - apply memchr2_Some_split in Hm as (t & x & r & -> & Hx & Hn & Hbg & Hlen).
    subst i. simpl.
    rewrite take_take, Nat.min_l, take_app_length by lia.
    replace (length t + 1)%nat with (S (length t)) by lia.
    replace (drop (S (length t)) (t ++ x :: r)) with r.
    2: { rewrite drop_app, drop_ge by lia.
         by replace (S (length t) - length t)%nat with 1%nat by lia. }
    rewrite list_lookup_middle by done. split; [|by apply clean_not_elem].
    destruct Hx as [->| ->]; by case_bool_decide.
  - apply memchr2_None in Hm as [??]. split; [done|]. by apply clean_not_elem.
Qed.

Lemma drain_fuel_spec fuel s :
  (pending s < fuel)%nat →
  drain_fuel fuel s = ((split_frames (buf s)).1, mk (split_frames (buf s)).2).
Proof.
  revert s. induction fuel as [|fuel IH]; intros s Hf; [lia|]. simpl.
  pose proof (next_frame_spec s) as Hs.
  destruct (next_frame s) as [[[k f]|] s'].
  - destruct Hs as [Hbuf Hclean]. unfold pending in *.
    rewrite IH by (rewrite Hbuf, length_app in Hf; simpl in Hf; lia).
    rewrite Hbuf, split_frames_app_frame, kind_of_terminator
      by (done || apply is_terminator_terminator). done.
  - destruct Hs as [-> Hclean]. rewrite split_frames_clean by done. by destruct s.
Qed.

Lemma drain_spec s : drain s = ((split_frames (buf s)).1, mk (split_frames (buf s)).2).
Proof. apply drain_fuel_spec. lia. Qed.

Lemma feed_spec s chunks :
  clean (buf s) →
  feed s chunks =
    ((split_frames (buf s ++ concat chunks)).1,
     mk (split_frames (buf s ++ concat chunks)).2).
Proof.
  revert s. induction chunks as [|c cs IH]; intros s Hs; simpl.
  - rewrite app_nil_r, split_frames_clean by done. by destruct s.
  - rewrite drain_spec. unfold extend_from_slice. simpl.
    rewrite IH by apply split_frames_sound. simpl.
    by rewrite (assoc_L (++)), (split_frames_app (buf s ++ c)).
Qed.

(** (C5) The frames the reader sees do not depend on how the stream was cut
    into reads: feeding a fresh splitter any sequence of chunks yields the
    frames of the concatenated stream, in order, and leaves exactly its
    unterminated rest buffered. *)
Theorem splitter_chunking_independent (chunks : list bytes) :
  feed FrameSplitter.default chunks =
    ((split_frames (concat chunks)).1, mk (split_frames (concat chunks)).2).
Proof. apply feed_spec. constructor. Qed.

(** Draining is exact: the frames returned and the rest left pending are
    the one decomposition of the buffer into terminator-free payloads, each
    followed by the terminator of its kind, and a terminator-free rest. No
    byte is lost, invented or moved between frames. *)
Theorem splitter_drain_exact (s : FrameSplitter.t) fs rest :
  drain s = (fs, mk rest) ↔
    buf s = encode_frames fs ++ rest ∧ Forall (λ f, clean f.2) fs ∧ clean rest.
Proof.
  rewrite drain_spec. split.
  - intros [= <- <-]. apply split_frames_sound.
  - intros (-> & Hf & Hr). by rewrite split_frames_encode.
Qed.
End correctness.

Lemma splitter_chunking_independent_witness :
  @FrameSplitter.feed memchr_reference FrameSplitter.default
    [bs "T:PETR4:1017"; bs "58:2:59.95!GTC:2017"; bs "0308145946" ++ [newline]] =
    ([(FrameKind.Bang, bs "T:PETR4:101758:2:59.95");
      (FrameKind.Newline, bs "GTC:20170308145946")], FrameSplitter.mk []).
Proof.
  rewrite (@splitter_chunking_independent memchr_reference memchr_reference_spec).
  vm_compute. reflexivity.
Defined.

Lemma splitter_drain_exact_witness :
  @FrameSplitter.drain memchr_reference
    (FrameSplitter.mk (newline :: bs "A!B" ++ [newline] ++ bs "C")) =
    ([(FrameKind.Newline, []); (FrameKind.Bang, bs "A"); (FrameKind.Newline, bs "B")],
     FrameSplitter.mk (bs "C")).
Proof.
  apply (@splitter_drain_exact memchr_reference memchr_reference_spec).
  split; [vm_compute; reflexivity|].
  split; repeat (constructor; [vm_compute; repeat constructor|]); constructor.
Defined.
