(* ===== verification/Scanner.v ===== *)
(** * Tokenizer and scalar parsers ([cedro-protocol/src/parser/scanner.rs])

    [Scanner] yields the [:]-separated fields of a frame. Its abstract state
    is [remaining], the list of the fields still to come; every operation is
    specified by what it does to that list. The scalar parsers are compared
    with the decimal value of the digit string. *)

From S2P Require Import Prelude RustInt RustStr RustFloat Externs.

(** ** Parse errors ([ParseError] of parser/mod.rs) *)

Module ParseError.
Inductive t : Type :=
  | Empty
  | UnknownHeader (frame : bytes)
  | MissingField (position : nat) (expected : string)
  | InvalidField (field reason : string)
  | BadEncoding (field : string)
  | BadInteger (field : string)
  | BadFloat (field : string)
  | NotImplemented (header : string).

#[global] Instance t_eq_dec : EqDecision t.
Proof. solve_decision. Defined.
End ParseError.
Arguments ParseError.MissingField position%_nat_scope expected%_string_scope.
Arguments ParseError.InvalidField (field reason)%_string_scope.

Definition colon : byte := ":"%byte.

(** ** Scalar parsers *)

Fixpoint parse_u64_loop (n : Z) (b : bytes) (field : string) : result ParseError.t Z :=
  match b with
  | [] => Ok n
  | c :: b' =>
      if negb (is_ascii_digit c) then Err (ParseError.BadInteger field)
      else
        n' ← ok_or (v ← checked 0 u64_max (n * 10);
                    checked 0 u64_max (v + digit_val c)) (ParseError.BadInteger field);
        parse_u64_loop n' b' field
  end.
Definition parse_u64 (b : bytes) (field : string) : result ParseError.t Z :=
  if bool_decide (b = []) then Err (ParseError.BadInteger field)
  else parse_u64_loop 0 b field.

Definition parse_u32 (b : bytes) (field : string) : result ParseError.t Z :=
  n ← parse_u64 b field;
  ok_or (checked 0 u32_max n) (ParseError.BadInteger field).

Definition parse_u16 (b : bytes) (field : string) : result ParseError.t Z :=
  n ← parse_u64 b field;
  ok_or (checked 0 u16_max n) (ParseError.BadInteger field).

Fixpoint parse_i64_loop (n : Z) (b : bytes) (field : string) : result ParseError.t Z :=
  match b with
  | [] => Ok n
  | c :: b' =>
      if negb (is_ascii_digit c) then Err (ParseError.BadInteger field)
      else
        n' ← ok_or (v ← checked i64_min i64_max (n * 10);
                    checked i64_min i64_max (v + digit_val c)) (ParseError.BadInteger field);
        parse_i64_loop n' b' field
  end.
Definition parse_i64 (b : bytes) (field : string) : result ParseError.t Z :=
  match b with
  | [] => Err (ParseError.BadInteger field)
  | c :: tl =>
      let '(sign, rest) := if bool_decide (c = "-"%byte) then (-1, tl) else (1, b) in
      if bool_decide (rest = []) then Err (ParseError.BadInteger field)
      else n ← parse_i64_loop 0 rest field; Ok (sign * n)
  end.

Definition parse_f64 (b : bytes) (field : string) : result ParseError.t f64 :=
  if bool_decide (b = []) then Err (ParseError.BadFloat field)
  else
    s ← ok_or (from_utf8 b) (ParseError.BadEncoding field);
    ok_or (f64_from_str s) (ParseError.BadFloat field).

Arguments parse_u64 b field%_string_scope.
Arguments parse_u32 b field%_string_scope.
Arguments parse_u16 b field%_string_scope.
Arguments parse_i64 b field%_string_scope.
Arguments parse_f64 b field%_string_scope.

(** ** The scanner *)

Module Scanner.

Record t : Type := mk {
  buf : bytes;
  pos : nat;
  field_index : nat;
}.

Definition new (buf : bytes) : t := mk buf 0 0.

Section ops.
Context `{Memchr}.

Definition next (s : t) : option bytes * t :=
  let len := length (buf s) in
  if (len <? pos s)%nat then (None, s)
  else if (pos s =? len)%nat then
    (Some [], mk (buf s) (len + 1) (field_index s + 1))
  else
    let rest := drop (pos s) (buf s) in
    match memchr colon rest with
    | Some rel =>
        (Some (take rel rest), mk (buf s) (pos s + rel + 1) (field_index s + 1))
    | None => (Some rest, mk (buf s) (len + 1) (field_index s + 1))
    end.

Definition fields_consumed (s : t) : nat := field_index s.

(** Parsers thread the scanner and stop at the first error. *)
Definition scan (A : Type) : Type := t → result ParseError.t (A * t).

#[global] Instance scan_ret : MRet scan := λ A a s, Ok (a, s).
#[global] Instance scan_bind : MBind scan := λ A B f m s,
  match m s with Ok (a, s') => f a s' | Err e => Err e end.

Definition lift {A} (r : result ParseError.t A) : scan A := λ s,
  match r with Ok a => Ok (a, s) | Err e => Err e end.
Definition fail {A} (e : ParseError.t) : scan A := lift (Err e).

(** [Scanner::next] as an action. *)
Definition next_opt : scan (option bytes) := λ s, Ok (next s).

Definition required (expected : string) : scan bytes := λ s,
  match next s with
  | (Some tok, s') => Ok (tok, s')
  | (None, s') => Err (ParseError.MissingField (field_index s' + 1) expected)
  end.

Definition required_u64 (field : string) : scan Z :=
  b ← required field; lift (parse_u64 b field).
Definition required_u32 (field : string) : scan Z :=
  b ← required field; lift (parse_u32 b field).
Definition required_f64 (field : string) : scan f64 :=
  b ← required field; lift (parse_f64 b field).

Definition rest (s : t) : bytes :=
  if (length (buf s) <? pos s)%nat then [] else drop (pos s) (buf s).

Definition take_rest : scan bytes := λ s,
  Ok (rest s, mk (buf s) (length (buf s) + 1) (field_index s)).

(** The [while let Some(token) = scanner.next()] loop; [fuel] bounds the
    number of fields. *)
Fixpoint collect_fuel (fuel : nat) (s : t) : list bytes * t :=
  match fuel with
  | O => ([], s)
  | S fuel' =>
      match next s with
      | (None, s') => ([], s')
      | (Some tok, s') =>
          let '(toks, s'') := collect_fuel fuel' s' in (tok :: toks, s'')
      end
  end.
(** A frame has at most one more field than it has bytes. *)
Definition fuel (s : t) : nat := S (S (length (buf s))).
Definition collect : scan (list bytes) := λ s, Ok (collect_fuel (fuel s) s).
End ops.

(** ** Abstract state *)

Definition remaining (s : t) : list bytes :=
  if (length (buf s) <? pos s)%nat then [] else split_on colon (drop (pos s) (buf s)).

End Scanner.
Arguments Scanner.required {_} expected%_string_scope.
Arguments Scanner.required_u64 {_} field%_string_scope.
Arguments Scanner.required_u32 {_} field%_string_scope.
Arguments Scanner.required_f64 {_} field%_string_scope.

(** ** Scalar parsers: correctness *)

(** A decimal field: what the integer parsers accept, and the value. *)
Definition is_dec (hi : Z) (tok : bytes) (n : Z) : Prop :=
  tok ≠ [] ∧ all_digits tok = true ∧ dec_value tok = n ∧ n ≤ hi.

Lemma is_dec_nonneg hi tok n : is_dec hi tok n → 0 ≤ n ≤ hi.
Proof.
  intros (_ & Hd & <- & Hhi). split; [|done].
  by apply dec_value_from_ge.
Qed.

Lemma is_dec_print hi n : 0 ≤ n ≤ hi → is_dec hi (dec_print n) n.
Proof. intros Hn. destruct (dec_print_spec n) as (? & ? & ?); [lia|].
  split_and!; done || lia. Qed.

Lemma parse_u64_loop_Ok b : ∀ n field r,
  0 ≤ n ≤ u64_max →
  parse_u64_loop n b field = Ok r ↔
  all_digits b = true ∧ dec_value_from n b = r ∧ r ≤ u64_max.
Proof.
  induction b as [|c b IH]; intros n field r Hn.
  - simpl. unfold dec_value_from. simpl. naive_solver lia.
  - cbn [parse_u64_loop all_digits forallb].
    destruct (is_ascii_digit c) eqn:Hc; simpl; [|naive_solver].
    pose proof (is_ascii_digit_range c Hc) as Hdv.
    fold (all_digits b). unfold dec_value_from. simpl.
    fold (dec_value_from (n * 10 + digit_val c) b).
    destruct (checked 0 u64_max (n * 10)) as [v|] eqn:Hv; simpl.
    + apply checked_Some in Hv as [-> Hv].
      destruct (checked 0 u64_max (n * 10 + digit_val c)) as [v|] eqn:Hw; simpl.
      * apply checked_Some in Hw as [-> Hw]. by apply IH.
      * apply checked_None in Hw. split; [done|]. intros (Hd & Hdec & Hr).
        pose proof (dec_value_from_ge b (n * 10 + digit_val c) ltac:(lia) Hd). lia.
    + apply checked_None in Hv. split; [done|]. intros (Hd & Hdec & Hr).
      pose proof (dec_value_from_ge b (n * 10 + digit_val c) ltac:(lia) Hd). lia.
Qed.

Lemma parse_u64_Ok b field n : parse_u64 b field = Ok n ↔ is_dec u64_max b n.
Proof.
  unfold parse_u64, is_dec. case_bool_decide as Hb; [naive_solver|].
  rewrite parse_u64_loop_Ok by done. unfold dec_value. naive_solver.
Qed.

(** The narrower types reject exactly the values that do not fit. *)
Lemma parse_narrow_Ok hi b field n :
  hi ≤ u64_max →
  (m ← parse_u64 b field; ok_or (checked 0 hi m) (ParseError.BadInteger field)) = Ok n ↔
  is_dec hi b n.
Proof.
  intros Hhi. rewrite result_bind_Ok. split.
  - intros (m & (H1 & H2 & H3 & _)%parse_u64_Ok & (-> & Hm)%ok_or_Ok%checked_Some).
    unfold is_dec. split_and!; done || lia.
  - intros H. pose proof (is_dec_nonneg _ _ _ H) as Hn. destruct H as (H1 & H2 & H3 & H4).
    exists n. split.
    + apply parse_u64_Ok. unfold is_dec. split_and!; done || lia.
    + by apply ok_or_Ok, checked_Some.
Qed.

Lemma parse_u32_Ok b field n : parse_u32 b field = Ok n ↔ is_dec u32_max b n.
Proof. by apply parse_narrow_Ok. Qed.

Lemma parse_u16_Ok b field n : parse_u16 b field = Ok n ↔ is_dec u16_max b n.
Proof. by apply parse_narrow_Ok. Qed.

(** The integer parsers have one error, naming the field. *)
Lemma parse_u64_loop_Err b : ∀ n field e,
  parse_u64_loop n b field = Err e → e = ParseError.BadInteger field.
Proof.
  induction b as [|c b IH]; intros n field e; [done|]. cbn [parse_u64_loop].
  destruct (is_ascii_digit c); simpl; [|congruence].
  destruct (checked _ _ (n * 10)) as [v|]; simpl; [|congruence].
  destruct (checked _ _ (v + _)) as [w|]; simpl; [apply IH|congruence].
Qed.

Lemma parse_u64_Err b field e : parse_u64 b field = Err e → e = ParseError.BadInteger field.
Proof.
  unfold parse_u64. case_bool_decide; [congruence|]. apply parse_u64_loop_Err.
Qed.

(** The signed loop never leaves the range from zero up. *)
Lemma parse_i64_loop_Ok b : ∀ n field r,
  0 ≤ n ≤ i64_max →
  parse_i64_loop n b field = Ok r ↔
  all_digits b = true ∧ dec_value_from n b = r ∧ r ≤ i64_max.
Proof.
  induction b as [|c b IH]; intros n field r Hn.
  - simpl. unfold dec_value_from. simpl. naive_solver lia.
  - cbn [parse_i64_loop all_digits forallb].
    destruct (is_ascii_digit c) eqn:Hc; simpl; [|naive_solver].
    pose proof (is_ascii_digit_range c Hc) as Hdv.
    fold (all_digits b). unfold dec_value_from. simpl.
    fold (dec_value_from (n * 10 + digit_val c) b).
    assert (i64_min < 0) by done.
    destruct (checked i64_min i64_max (n * 10)) as [v|] eqn:Hv; simpl.
    + apply checked_Some in Hv as [-> Hv].
      destruct (checked i64_min i64_max (n * 10 + digit_val c)) as [v|] eqn:Hw; simpl.
      * apply checked_Some in Hw as [-> Hw]. apply IH. lia.
      * apply checked_None in Hw. split; [done|]. intros (Hd & Hdec & Hr).
        pose proof (dec_value_from_ge b (n * 10 + digit_val c) ltac:(lia) Hd). lia.
    + apply checked_None in Hv. split; [done|]. intros (Hd & Hdec & Hr).
      pose proof (dec_value_from_ge b (n * 10 + digit_val c) ltac:(lia) Hd). lia.
Qed.

(** A signed decimal field. *)
Definition is_sdec (tok : bytes) (n : Z) : Prop :=
  is_dec i64_max tok n ∨ ∃ tok', tok = "-"%byte :: tok' ∧ is_dec i64_max tok' (- n).

Lemma parse_i64_Ok b field n : parse_i64 b field = Ok n ↔ is_sdec b n.
Proof.
  unfold is_sdec. destruct b as [|c b]; [unfold is_dec; naive_solver|].
  unfold parse_i64. case_bool_decide as Hc.
  - subst c. split.
    + case_bool_decide as Hb; [done|]. rewrite result_bind_Ok.
      intros (m & Hm & [= <-]). apply parse_i64_loop_Ok in Hm as (? & ? & ?); [|done].
      right. exists b. split; [done|]. split_and!; try done; [|lia].
      unfold dec_value. lia.
    + intros [(_ & Hd & _)|(tok' & [= <-] & Hne & Hd & Hv & Hle)].
      { done. }
      rewrite bool_decide_eq_false_2 by done. apply result_bind_Ok. exists (- n).
      split; [by apply parse_i64_loop_Ok|]. f_equal. lia.
  - split.
    + case_bool_decide; [done|]. rewrite result_bind_Ok. intros (m & Hm & [= <-]).
      apply parse_i64_loop_Ok in Hm as (? & ? & ?); [|done]. left.
      split_and!; try done; [|lia]. unfold dec_value. lia.
    + intros [(Hne & Hd & Hv & Hle)|(? & ? & _)]; [|congruence].
      rewrite bool_decide_eq_false_2 by done. apply result_bind_Ok. exists n.
      split; [by apply parse_i64_loop_Ok|]. f_equal. lia.
Qed.

Lemma parse_f64_Ok b field x : parse_f64 b field = Ok x ↔ f64_from_str b = Some x.
Proof.
  unfold parse_f64. case_bool_decide as Hb.
  - subst. by rewrite f64_from_str_nil.
  - rewrite result_bind_Ok. split.
    + intros (s & (-> & _)%ok_or_Ok%from_utf8_Some & ?%ok_or_Ok). done.
    + intros H. exists b. split; [|by apply ok_or_Ok].
      apply ok_or_Ok, from_utf8_Some. split; [done|].
      by apply utf8_valid_ascii, (f64_from_str_ascii b x).
Qed.

(** ** The scanner refines the list of remaining fields *)

Section scanner_correct.
Context `{MemchrSpec}.
Import Scanner.
Implicit Types (s : Scanner.t).

Lemma remaining_new b : remaining (new b) = split_on colon b.
Proof. unfold remaining, new. simpl. by destruct b. Qed.

(** Past the end nothing remains. *)
Lemma remaining_end b f : remaining (mk b (length b + 1) f) = [].
Proof.
  unfold remaining. simpl. destruct (Nat.ltb_spec (length b) (length b + 1)); [done|lia].
Qed.

Lemma next_spec s :
  match remaining s with
  | [] => next s = (None, s)
  | t :: ts => ∃ s', next s = (Some t, s') ∧ remaining s' = ts ∧
                     buf s' = buf s ∧ field_index s' = S (field_index s)
  end.
Proof.
  destruct s as [b p f]. unfold remaining, next. cbn [buf pos field_index].
  destruct (Nat.ltb_spec (length b) p) as [Hp|Hp]; [done|].
  destruct (Nat.eqb_spec p (length b)) as [->|Hne].
  - rewrite drop_all. simpl. eexists. split; [done|].
    split_and!; [apply remaining_end|done|simpl; lia].
  - destruct (memchr colon (drop p b)) as [rel|] eqn:Hm.
    + apply memchr_Some_split in Hm as (t & r & Hd & Ht & <-).
      rewrite Hd, split_on_app_sep by done. eexists. split.
      { by rewrite take_app_length. }
      split_and!; [|done|simpl; lia]. unfold remaining. simpl.
      assert (length (drop p b) = length (t ++ colon :: r)) as Hlen by by rewrite Hd.
      rewrite length_drop, length_app in Hlen. simpl in Hlen.
      destruct (Nat.ltb_spec (length b) (p + length t + 1)); [lia|].
      f_equal. replace (p + length t + 1)%nat with (p + S (length t))%nat by lia.
      rewrite <-drop_drop, Hd, drop_app, drop_ge by lia.
      by replace (S (length t) - length t)%nat with 1%nat by lia.
    + apply memchr_None in Hm. rewrite split_on_no_sep by done.
      eexists. split; [done|]. split_and!; [apply remaining_end|done|simpl; lia].
Qed.

Lemma next_None s : remaining s = [] → next s = (None, s).
Proof. intros Hr. pose proof (next_spec s) as Hs. by rewrite Hr in Hs. Qed.

Lemma next_Some s t ts :
  remaining s = t :: ts → ∃ s', next s = (Some t, s') ∧ remaining s' = ts.
Proof.
  intros Hr. pose proof (next_spec s) as Hs. rewrite Hr in Hs. naive_solver.
Qed.

(** *** Inverting successful actions *)

Lemma scan_bind_Ok {A B} (m : scan A) (k : A → scan B) s r :
  (m ≫= k) s = Ok r ↔ ∃ a s', m s = Ok (a, s') ∧ k a s' = Ok r.
Proof.
  unfold mbind, scan_bind. destruct (m s) as [[a s']|e]; naive_solver.
Qed.

Lemma lift_Ok {A} (r : result ParseError.t A) s a s' :
  lift r s = Ok (a, s') ↔ r = Ok a ∧ s' = s.
Proof. unfold lift. destruct r; naive_solver. Qed.

Lemma ret_Ok {A} (a a' : A) s s' : (mret a : scan A) s = Ok (a', s') ↔ a' = a ∧ s' = s.
Proof. unfold mret, scan_ret. naive_solver. Qed.

Lemma required_inv e s t s' :
  required e s = Ok (t, s') → remaining s = t :: remaining s'.
Proof.
  unfold required. pose proof (next_spec s) as Hs.
  destruct (remaining s) as [|u us]; [by rewrite Hs|].
  destruct Hs as (s1 & -> & Hr & _). intros [= -> ->]. by rewrite Hr.
Qed.

Lemma required_fwd e s t ts :
  remaining s = t :: ts → ∃ s', required e s = Ok (t, s') ∧ remaining s' = ts.
Proof.
  intros (s' & Hn & Hr)%next_Some. exists s'. unfold required. by rewrite Hn.
Qed.

Lemma required_missing e s :
  remaining s = [] → required e s = Err (ParseError.MissingField (field_index s + 1) e).
Proof. intros Hr. unfold required. by rewrite next_None. Qed.

Lemma next_opt_inv s o s' :
  next_opt s = Ok (o, s') →
  match o with
  | Some t => remaining s = t :: remaining s'
  | None => remaining s = [] ∧ s' = s
  end.
Proof.
  unfold next_opt. pose proof (next_spec s) as Hs. intros [= Ho].
  destruct (remaining s) as [|u us].
  - rewrite Hs in Ho. by simplify_eq.
  - destruct Hs as (s1 & Hn & Hr & _). rewrite Hn in Ho. simplify_eq. done.
Qed.

Lemma next_opt_fwd s :
  match remaining s with
  | [] => next_opt s = Ok (None, s)
  | t :: ts => ∃ s', next_opt s = Ok (Some t, s') ∧ remaining s' = ts
  end.
Proof.
  unfold next_opt. pose proof (next_spec s) as Hs.
  destruct (remaining s) as [|u us]; [by rewrite Hs|].
  destruct Hs as (s' & -> & Hr & _). eauto.
Qed.

Lemma take_rest_Ok s r s' :
  take_rest s = Ok (r, s') ↔
  r = join colon (remaining s) ∧ s' = mk (buf s) (length (buf s) + 1) (field_index s).
Proof.
  unfold take_rest, rest, remaining.
  destruct (length (buf s) <? pos s)%nat; [naive_solver|].
  rewrite join_split_on. naive_solver.
Qed.

Lemma length_split_on (l : bytes) : (length (split_on colon l) ≤ S (length l))%nat.
Proof.
  induction l as [|c l IH]; simpl; [lia|].
  case_decide; simpl; [lia|]. destruct (split_on colon l); simpl in *; lia.
Qed.

Lemma length_remaining s : (length (remaining s) ≤ S (length (buf s)))%nat.
Proof.
  unfold remaining. destruct (_ <? _)%nat; simpl; [lia|].
  pose proof (length_split_on (drop (pos s) (buf s))) as Hl.
  rewrite length_drop in Hl. lia.
Qed.

Lemma collect_fuel_spec n s :
  (length (remaining s) < n)%nat →
  ∃ s', collect_fuel n s = (remaining s, s') ∧ next s' = (None, s') ∧
        field_index s' = (field_index s + length (remaining s))%nat.
Proof.
  revert s. induction n as [|n IH]; intros s Hn; [lia|]. simpl.
  pose proof (next_spec s) as Hs. destruct (remaining s) as [|t ts] eqn:Hr.
  - rewrite Hs. exists s. simpl. split_and!; [done..|lia].
  - destruct Hs as (s1 & -> & Hr1 & _ & Hf). simpl in Hn.
    destruct (IH s1) as (s' & Hc & Hd & Hfi); [rewrite Hr1; lia|].
    rewrite Hc, Hr1. exists s'. simpl. rewrite Hfi, Hf, Hr1. split_and!; [done..|lia].
Qed.

Lemma collect_spec s :
  ∃ s', collect s = Ok (remaining s, s') ∧ next s' = (None, s') ∧
        field_index s' = (field_index s + length (remaining s))%nat.
Proof.
  unfold collect, fuel.
  destruct (collect_fuel_spec (S (S (length (buf s)))) s) as (s' & -> & ?).
  - pose proof (length_remaining s). lia.
  - by exists s'.
Qed.

(** The scanner yields exactly the [:]-separated fields of its frame:
    the loop that takes every field terminates with the fields in order, the
    count of consumed fields right, nothing left, and the fields joined by
    [:] are the frame again; an empty trailing field is not dropped. *)
Theorem scanner_fields_exact (b : bytes) :
  ∃ s', collect (new b) = Ok (split_on colon b, s') ∧ next s' = (None, s') ∧
        fields_consumed s' = length (split_on colon b) ∧
        join colon (split_on colon b) = b ∧
        Forall (λ t, colon ∉ t) (split_on colon b) ∧ split_on colon b ≠ [].
Proof.
  destruct (collect_spec (new b)) as (s' & Hc & Hn & Hf).
  rewrite remaining_new in Hc, Hf. exists s'. split_and!; [done..| | |].
  - apply join_split_on.
  - apply split_on_no_sep_Forall.
  - apply split_on_not_nil.
Qed.
End scanner_correct.

Lemma scanner_fields_exact_witness :
  ∃ s', @Scanner.collect memchr_reference (Scanner.new (bs "B:PETR4:E:"))
        = Ok ([bs "B"; bs "PETR4"; bs "E"; []], s').
Proof.
  destruct (@scanner_fields_exact memchr_reference memchr_reference_spec (bs "B:PETR4:E:"))
    as (s' & Hc & _).
  exists s'. exact Hc.
Defined.

(** The unsigned parsers accept exactly the non-empty digit strings whose
    decimal value fits the width, and return that value: no wrap-around, no
    silent truncation. Their only error names the field, and they invert the
    decimal printing of every value of the width. *)
Theorem unsigned_parsers_exact (b : bytes) (field : string) (n : Z) :
  (parse_u64 b field = Ok n ↔ is_dec u64_max b n) ∧
  (parse_u32 b field = Ok n ↔ is_dec u32_max b n) ∧
  (parse_u16 b field = Ok n ↔ is_dec u16_max b n) ∧
  (∀ e, parse_u64 b field = Err e → e = ParseError.BadInteger field) ∧
  (0 ≤ n ≤ u64_max → parse_u64 (dec_print n) field = Ok n).
Proof.
  split_and!.
  - apply parse_u64_Ok.
  - apply parse_u32_Ok.
  - apply parse_u16_Ok.
  - apply parse_u64_Err.
  - intros Hn. by apply parse_u64_Ok, is_dec_print.
Qed.

Lemma unsigned_parsers_exact_witness :
  parse_u64 (dec_print 18446744073709551615) "quantity" = Ok 18446744073709551615 ∧
  parse_u64 (bs "18446744073709551616") "quantity" = Err (ParseError.BadInteger "quantity").
Proof.
  split; [|vm_compute; reflexivity].
  apply (unsigned_parsers_exact (bs "0") "quantity" 18446744073709551615).
  split; vm_compute; discriminate.
Defined.

(** The signed parser accepts exactly an optional minus sign followed by
    digits of a value up to [i64::MAX]; results lie between [-i64::MAX] and
    [i64::MAX], and the one [i64] outside, [i64::MIN], is rejected although it
    is representable. *)
Theorem parse_i64_exact (b : bytes) (field : string) (n : Z) :
  (parse_i64 b field = Ok n ↔ is_sdec b n) ∧
  (parse_i64 b field = Ok n → - i64_max ≤ n ≤ i64_max) ∧
  parse_i64 ("-"%byte :: dec_print (- i64_min)) field = Err (ParseError.BadInteger field).
Proof.
  split_and!; [apply parse_i64_Ok| |by vm_compute].
  intros [Hd|(tok' & _ & Hd)]%parse_i64_Ok; apply is_dec_nonneg in Hd; lia.
Qed.

Lemma parse_i64_exact_witness :
  parse_i64 (bs "-42") "quote int" = Ok (-42) ∧ - i64_max ≤ -42 ≤ i64_max.
Proof.
  split; [vm_compute; reflexivity|].
  apply (parse_i64_exact (bs "-42") "quote int" (-42)). vm_compute. reflexivity.
Defined.

(** ** Running a parser, and automation for parser proofs *)

(** A parser consumes a fresh scanner and drops it. *)
Definition run {A} (m : Scanner.scan A) (frame : bytes) : result ParseError.t A :=
  match m (Scanner.new frame) with Ok (a, _) => Ok a | Err e => Err e end.

Lemma run_Ok {A} (m : Scanner.scan A) frame a :
  run m frame = Ok a ↔ ∃ s', m (Scanner.new frame) = Ok (a, s').
Proof. unfold run. destruct (m _) as [[a' s']|e]; naive_solver. Qed.

Lemma required_u32_Ok `{MemchrSpec} field s n s' :
  Scanner.required_u32 field s = Ok (n, s') ↔
  ∃ tok, Scanner.required field s = Ok (tok, s') ∧ is_dec u32_max tok n.
Proof.
  unfold Scanner.required_u32. rewrite scan_bind_Ok. split.
  - intros (tok & s1 & Hr & [Hp ->]%lift_Ok). exists tok. by apply parse_u32_Ok in Hp.
  - intros (tok & Hr & Hd). exists tok, s'. split; [done|].
    apply lift_Ok. by rewrite parse_u32_Ok.
Qed.

Lemma required_u64_Ok `{MemchrSpec} field s n s' :
  Scanner.required_u64 field s = Ok (n, s') ↔
  ∃ tok, Scanner.required field s = Ok (tok, s') ∧ is_dec u64_max tok n.
Proof.
  unfold Scanner.required_u64. rewrite scan_bind_Ok. split.
  - intros (tok & s1 & Hr & [Hp ->]%lift_Ok). exists tok. by apply parse_u64_Ok in Hp.
  - intros (tok & Hr & Hd). exists tok, s'. split; [done|].
    apply lift_Ok. by rewrite parse_u64_Ok.
Qed.

Lemma required_f64_Ok `{MemchrSpec} field s x s' :
  Scanner.required_f64 field s = Ok (x, s') ↔
  ∃ tok, Scanner.required field s = Ok (tok, s') ∧ f64_from_str tok = Some x.
Proof.
  unfold Scanner.required_f64. rewrite scan_bind_Ok. split.
  - intros (tok & s1 & Hr & [Hp ->]%lift_Ok). exists tok. by apply parse_f64_Ok in Hp.
  - intros (tok & Hr & Hd). exists tok, s'. split; [done|].
    apply lift_Ok. by rewrite parse_f64_Ok.
Qed.

(** Turns a successful parser run in the context into facts about the fields
    it consumed. *)
Ltac scan_inv1 :=
  match goal with
  | H : run _ _ = Ok _ |- _ => apply run_Ok in H as [? H]
  | H : (_ ≫= _) _ = Ok _ |- _ => apply scan_bind_Ok in H as (? & ? & ? & H)
  | H : Scanner.required_u32 _ _ = Ok _ |- _ => apply required_u32_Ok in H as (? & H & ?)
  | H : Scanner.required_u64 _ _ = Ok _ |- _ => apply required_u64_Ok in H as (? & H & ?)
  | H : Scanner.required_f64 _ _ = Ok _ |- _ => apply required_f64_Ok in H as (? & H & ?)
  | H : Scanner.required _ _ = Ok _ |- _ => apply required_inv in H
  | H : Scanner.lift _ _ = Ok _ |- _ => apply lift_Ok in H as [? ?]
  | H : Scanner.fail _ _ = Ok _ |- _ => discriminate H
  | H : mret _ _ = Ok _ |- _ => apply ret_Ok in H as [? ?]
  | H : Scanner.take_rest _ = Ok _ |- _ => apply take_rest_Ok in H as [? ?]
  | H : parse_u32 _ _ = Ok _ |- _ => apply parse_u32_Ok in H
  | H : parse_u16 _ _ = Ok _ |- _ => apply parse_u16_Ok in H
  | H : parse_u64 _ _ = Ok _ |- _ => apply parse_u64_Ok in H
  | H : parse_i64 _ _ = Ok _ |- _ => apply parse_i64_Ok in H
  | H : parse_f64 _ _ = Ok _ |- _ => apply parse_f64_Ok in H
  | H : (if bool_decide ?P then _ else _) _ = Ok _ |- _ => case_bool_decide
  | H : (if bool_decide ?P then _ else _) = Ok _ |- _ => case_bool_decide
  | H : Scanner.next_opt _ = Ok (?o, _) |- _ =>
      apply next_opt_inv in H; destruct o as [?|]; [|destruct H]
  | H : Scanner.remaining (Scanner.new _) = _ |- _ => rewrite remaining_new in H
  | H : match ?x with _ => _ end _ = Ok _ |- _ => destruct x eqn:?
  | H : match ?x with _ => _ end = Ok _ |- _ => destruct x eqn:?
  end; simplify_eq.
Ltac scan_inv := repeat scan_inv1.

(** Replaces the fields that remain by what is known of them. *)
Ltac scan_rem :=
  repeat match goal with
  | H : Scanner.remaining ?s = _ |- context [Scanner.remaining ?s] => rewrite H
  | H : Scanner.remaining ?s = _, H' : context [Scanner.remaining ?s] |- _ =>
      lazymatch H' with H => fail | _ => rewrite H in H' end
  end.

(** *** Running forward

    [accepts m ts a ts']: on any scanner whose remaining fields are [ts] the
    action succeeds with [a] and leaves [ts']. *)
Definition accepts {A} (m : Scanner.scan A) (ts : list bytes) (a : A) (ts' : list bytes) : Prop :=
  ∀ s, Scanner.remaining s = ts → ∃ s', m s = Ok (a, s') ∧ Scanner.remaining s' = ts'.

Section accepts.
Context `{MemchrSpec}.

Lemma accepts_bind {A B} (m : Scanner.scan A) (k : A → Scanner.scan B) ts a ts1 b ts2 :
  accepts m ts a ts1 → accepts (k a) ts1 b ts2 → accepts (m ≫= k) ts b ts2.
Proof.
  intros Hm Hk s Hs. destruct (Hm s Hs) as (s1 & Hm1 & Hs1).
  destruct (Hk s1 Hs1) as (s2 & Hk2 & Hs2). exists s2. split; [|done].
  apply scan_bind_Ok. eauto.
Qed.
Lemma accepts_ret {A} (a : A) ts : accepts (mret a) ts a ts.
Proof. intros s Hs. by exists s. Qed.
Lemma accepts_lift {A} (r : result ParseError.t A) a ts :
  r = Ok a → accepts (Scanner.lift r) ts a ts.
Proof. intros -> s Hs. by exists s. Qed.
Lemma accepts_required e t ts : accepts (Scanner.required e) (t :: ts) t ts.
Proof. intros s Hs. by apply required_fwd. Qed.
Lemma accepts_u32 f t ts n : is_dec u32_max t n → accepts (Scanner.required_u32 f) (t :: ts) n ts.
Proof.
  intros Ht s Hs. destruct (required_fwd f s t ts Hs) as (s' & Hr & Hs').
  exists s'. split; [|done]. apply required_u32_Ok. eauto.
Qed.
Lemma accepts_u64 f t ts n : is_dec u64_max t n → accepts (Scanner.required_u64 f) (t :: ts) n ts.
Proof.
  intros Ht s Hs. destruct (required_fwd f s t ts Hs) as (s' & Hr & Hs').
  exists s'. split; [|done]. apply required_u64_Ok. eauto.
Qed.
Lemma accepts_f64 f t ts x :
  f64_from_str t = Some x → accepts (Scanner.required_f64 f) (t :: ts) x ts.
Proof.
  intros Ht s Hs. destruct (required_fwd f s t ts Hs) as (s' & Hr & Hs').
  exists s'. split; [|done]. apply required_f64_Ok. eauto.
Qed.
Lemma accepts_next_None : accepts Scanner.next_opt [] None [].
Proof.
  intros s Hs. pose proof (next_opt_fwd s) as Hn. rewrite Hs in Hn. by exists s.
Qed.
Lemma accepts_next_Some t ts : accepts Scanner.next_opt (t :: ts) (Some t) ts.
Proof. intros s Hs. pose proof (next_opt_fwd s) as Hn. by rewrite Hs in Hn. Qed.
Lemma accepts_collect ts : accepts Scanner.collect ts ts [].
Proof.
  intros s Hs. destruct (collect_spec s) as (s' & Hc & Hn & _).
  rewrite Hs in Hc. exists s'. split; [done|].
  pose proof (next_spec s') as Hs'. destruct (Scanner.remaining s'); [done|].
  destruct Hs' as (? & ? & _). congruence.
Qed.
Lemma accepts_take_rest ts : accepts Scanner.take_rest ts (join colon ts) [].
Proof.
  intros s Hs. eexists. split; [by apply take_rest_Ok; rewrite Hs|].
  apply remaining_end.
Qed.

Lemma run_accepts {A} (m : Scanner.scan A) frame a ts' :
  accepts m (split_on colon frame) a ts' → run m frame = Ok a.
Proof.
  intros Hm. destruct (Hm (Scanner.new frame)) as (s' & Hs & _).
  - apply remaining_new.
  - apply run_Ok. eauto.
Qed.
End accepts.

(** *** Debug builds

    [debug_assert_eq!] on the header a parser has read: a build with debug
    assertions panics ([None]) where the header is not the parser's own. *)
Definition debug_build `{Memchr} {A} (header : bytes) (field : string)
    (parse : bytes → result ParseError.t A) (frame : bytes) : option (result ParseError.t A) :=
  match Scanner.required field (Scanner.new frame) with
  | Ok (h, _) => if bool_decide (h = header) then Some (parse frame) else None
  | Err _ => Some (parse frame)
  end.

Lemma debug_build_eq `{MemchrSpec} {A} header field (parse : bytes → result ParseError.t A) frame :
  debug_build header field parse frame =
  match split_on colon frame with
  | h :: _ => if bool_decide (h = header) then Some (parse frame) else None
  | [] => Some (parse frame)
  end.
Proof.
  unfold debug_build. destruct (split_on colon frame) as [|h fields] eqn:Hs.
  - by apply split_on_not_nil in Hs.
  - destruct (Scanner.required_fwd field (Scanner.new frame) h fields) as (s' & -> & _); [|done].
    by rewrite Scanner.remaining_new.
Qed.

(** A debug build accepts what the parser accepts with the right header. *)
Lemma debug_build_Ok `{MemchrSpec} {A} header field (parse : bytes → result ParseError.t A) frame m :
  debug_build header field parse frame = Some (Ok m) ↔
  (∃ fields, split_on colon frame = header :: fields) ∧ parse frame = Ok m.
Proof.
  rewrite debug_build_eq. destruct (split_on colon frame) as [|h fields] eqn:Hs.
  { by apply split_on_not_nil in Hs. }
  case_bool_decide as Hh; split.
  - subst h. intros [= ->]. eauto.
  - by intros [_ ->].
  - done.
  - intros [[fields' [= -> _]] _]. done.
Qed.

Create HintDb scan.
#[export] Hint Resolve accepts_ret accepts_required accepts_u32 accepts_u64 accepts_f64
  accepts_next_None accepts_next_Some accepts_take_rest accepts_collect : scan.
#[export] Hint Extern 1 (accepts (Scanner.lift _) _ _ _) => eapply accepts_lift : scan.
#[export] Hint Extern 2 (parse_u32 _ _ = Ok _) => apply parse_u32_Ok : scan.
#[export] Hint Extern 2 (parse_u16 _ _ = Ok _) => apply parse_u16_Ok : scan.
#[export] Hint Extern 2 (parse_u64 _ _ = Ok _) => apply parse_u64_Ok : scan.
#[export] Hint Extern 2 (parse_i64 _ _ = Ok _) => apply parse_i64_Ok : scan.
#[export] Hint Extern 2 (parse_f64 _ _ = Ok _) => apply parse_f64_Ok : scan.

(** Runs a parser forward, one action at a time; comparisons of literal fields
    are decided on the way. *)
Ltac scan_fwd :=
  cbn beta iota;
  lazymatch goal with
  | |- accepts (_ ≫= _) _ _ _ => eapply accepts_bind; [solve [scan_fwd]|scan_fwd]
  | |- accepts (if bool_decide ?P then _ else _) _ _ _ =>
      first [rewrite (bool_decide_eq_true_2 P) by (done || auto)
            |rewrite (bool_decide_eq_false_2 P) by done]; scan_fwd
  | |- _ => try solve [eauto 6 with scan]
  end.
