(* ===== verification/ParserBook.v ===== *)
(** * Book parsers ([parser/bqt.rs] and [parser/sab.rs])

    The parsers of the detailed ([B:]) and the aggregated ([Z:]) book, and the
    wire grammars of their field layouts, against which they are exact. *)

From S2P Require Import Prelude RustInt RustStr RustFloat Externs Enums Types Scanner.

Import Scanner.

(** ** Detailed book *)

Module Bqt.
Section ops.
Context `{Memchr}.

Definition parse_side (b : bytes) : result ParseError.t Side.t :=
  if negb (length b =? 1)%nat then
    Err (ParseError.InvalidField "book side" "expected one byte (A or V)")
  else ok_or (c ← b !! 0%nat; Side.from_byte c)
         (ParseError.InvalidField "book side" "expected A (buy) or V (sell)").

(** [<side>:<price>:<qty>:<broker>:<DDMMHHMM>[:<order_id>:<offer_type>]]. *)
Definition read_entry_tail (position : Z) : scan BookEntry.t :=
  side_bytes ← required "side";
  side ← lift (parse_side side_bytes);
  price ← required_f64 "price";
  quantity ← required_u64 "quantity";
  broker_id ← required_u32 "broker id";
  ts_bytes ← required "DDMMHHMM";
  timestamp ← lift (parse_u32 ts_bytes "DDMMHHMM");
  next ← next_opt;
  '(order_id, offer_type) ←
    match next with
    | None => mret (None, None)
    | Some id_bytes =>
        type_bytes ← required "offer type";
        match type_bytes with
        | [c] => mret (Some id_bytes, Some c)
        | _ => fail (ParseError.InvalidField "offer type" "expected one byte (L or O)")
        end
    end;
  mret (BookEntry.mk position side price quantity broker_id timestamp order_id offer_type).

Definition parse_add : scan BookOp.t :=
  position ← required_u32 "position";
  entry ← read_entry_tail position;
  mret (BookOp.Add entry).

Definition parse_update : scan BookOp.t :=
  new_pos ← required_u32 "new position";
  old_pos ← required_u32 "old position";
  entry ← read_entry_tail new_pos;
  mret (BookOp.Update old_pos entry).

Definition parse_delete : scan BookOp.t :=
  kind_bytes ← required "delete kind";
  if bool_decide (kind_bytes = bs "1") then
    side_bytes ← required "side";
    side ← lift (parse_side side_bytes);
    position ← required_u32 "position";
    mret (BookOp.Delete (BookDelete.Single side position))
  else if bool_decide (kind_bytes = bs "2") then
    side_bytes ← required "side";
    side ← lift (parse_side side_bytes);
    position ← required_u32 "position";
    mret (BookOp.Delete (BookDelete.PrefixInclusive side position))
  else if bool_decide (kind_bytes = bs "3") then
    mret (BookOp.Delete BookDelete.ClearAll)
  else fail (ParseError.InvalidField "delete kind" "expected 1, 2 or 3").

(** The operation after its code. *)
Definition parse_op (op_code : bytes) : scan BookOp.t :=
  if bool_decide (op_code = bs "A") then parse_add
  else if bool_decide (op_code = bs "U") then parse_update
  else if bool_decide (op_code = bs "D") then parse_delete
  else if bool_decide (op_code = bs "E") then mret BookOp.EndOfInitial
  else fail (ParseError.InvalidField "book op" "expected A, U, D, or E").

Definition parse (frame : bytes) : result ParseError.t ProtocolMessage.t :=
  run (header ← required "B header";
       ticker ← required "ticker";
       op_code ← required "book op";
       op ← parse_op op_code;
       mret (ProtocolMessage.Book ticker op)) frame.
Definition debug_parse : bytes → option (result ParseError.t ProtocolMessage.t) :=
  debug_build (bs "B") "B header" parse.
End ops.

(** *** Wire grammar *)

(** The fields from the side on, in the legacy and in the full layout; fields
    after the full layout are ignored. *)
Inductive entry_tail (position : Z) : list bytes → BookEntry.t → Prop :=
  | tail_legacy side price p qty q broker br ts t :
      f64_from_str price = Some p → is_dec u64_max qty q →
      is_dec u32_max broker br → is_dec u32_max ts t →
      entry_tail position [[Side.as_byte side]; price; qty; broker; ts]
        (BookEntry.mk position side p q br t None None)
  | tail_full side price p qty q broker br ts t id ty rest :
      f64_from_str price = Some p → is_dec u64_max qty q →
      is_dec u32_max broker br → is_dec u32_max ts t →
      entry_tail position ([Side.as_byte side] :: price :: qty :: broker :: ts :: id :: [ty] :: rest)
        (BookEntry.mk position side p q br t (Some id) (Some ty)).

(** The fields from the operation code on. *)
Inductive layout : list bytes → BookOp.t → Prop :=
  | layout_add pos p tail e :
      is_dec u32_max pos p → entry_tail p tail e →
      layout (bs "A" :: pos :: tail) (BookOp.Add e)
  | layout_update new_pos np old_pos op tail e :
      is_dec u32_max new_pos np → is_dec u32_max old_pos op → entry_tail np tail e →
      layout (bs "U" :: new_pos :: old_pos :: tail) (BookOp.Update op e)
  | layout_end rest : layout (bs "E" :: rest) BookOp.EndOfInitial
  | layout_delete_one side pos p rest :
      is_dec u32_max pos p →
      layout (bs "D" :: bs "1" :: [Side.as_byte side] :: pos :: rest)
        (BookOp.Delete (BookDelete.Single side p))
  | layout_delete_prefix side pos p rest :
      is_dec u32_max pos p →
      layout (bs "D" :: bs "2" :: [Side.as_byte side] :: pos :: rest)
        (BookOp.Delete (BookDelete.PrefixInclusive side p))
  | layout_delete_all rest :
      layout (bs "D" :: bs "3" :: rest) (BookOp.Delete BookDelete.ClearAll).

(** The formats of the documentation: [A] and [U] with the legacy or the full
    layout of an entry, an offer type of [L] or [O], and nothing behind. *)
Inductive documented_entry : Z → list bytes → BookEntry.t → Prop :=
  | documented_legacy position side price p qty q broker br ts t :
      f64_from_str price = Some p → is_dec u64_max qty q →
      is_dec u32_max broker br → is_dec u32_max ts t →
      documented_entry position [[Side.as_byte side]; price; qty; broker; ts]
        (BookEntry.mk position side p q br t None None)
  | documented_full position side price p qty q broker br ts t id ty :
      f64_from_str price = Some p → is_dec u64_max qty q →
      is_dec u32_max broker br → is_dec u32_max ts t → ty ∈ ["L"; "O"]%byte →
      documented_entry position [[Side.as_byte side]; price; qty; broker; ts; id; [ty]]
        (BookEntry.mk position side p q br t (Some id) (Some ty)).
Inductive documented : list bytes → BookOp.t → Prop :=
  | documented_add pos p tail e :
      is_dec u32_max pos p → documented_entry p tail e →
      documented (bs "A" :: pos :: tail) (BookOp.Add e)
  | documented_update new_pos np old_pos op tail e :
      is_dec u32_max new_pos np → is_dec u32_max old_pos op → documented_entry np tail e →
      documented (bs "U" :: new_pos :: old_pos :: tail) (BookOp.Update op e)
  | documented_end : documented [bs "E"] BookOp.EndOfInitial
  | documented_delete_one side pos p :
      is_dec u32_max pos p →
      documented [bs "D"; bs "1"; [Side.as_byte side]; pos] (BookOp.Delete (BookDelete.Single side p))
  | documented_delete_prefix side pos p :
      is_dec u32_max pos p →
      documented [bs "D"; bs "2"; [Side.as_byte side]; pos]
        (BookOp.Delete (BookDelete.PrefixInclusive side p))
  | documented_delete_all : documented [bs "D"; bs "3"] (BookOp.Delete BookDelete.ClearAll).

(** What is accepted beyond them. *)
Definition trailing (args : list bytes) (op : BookOp.t) : Prop :=
  ∃ format extra, args = format ++ extra ∧ extra ≠ [] ∧ layout format op.
Definition odd_offer (op : BookOp.t) : Prop :=
  match op with
  | BookOp.Add e | BookOp.Update _ e => ∃ ty, BookEntry.offer_type e = Some ty ∧ ty ∉ ["L"; "O"]%byte
  | _ => False
  end.

Lemma documented_entry_tail position tail e : documented_entry position tail e → entry_tail position tail e.
Proof. destruct 1; by constructor. Qed.

Lemma bqt_documented_layout args op : documented args op → layout args op.
Proof. destruct 1; econstructor; eauto using documented_entry_tail. Qed.

(** An entry is documented, or the frame goes on behind it, or its offer type
    is another one. *)
Lemma entry_tail_documented position tail e :
  entry_tail position tail e →
  documented_entry position tail e ∨
  (∃ format extra, tail = format ++ extra ∧ extra ≠ [] ∧ entry_tail position format e) ∨
  (∃ ty, BookEntry.offer_type e = Some ty ∧ ty ∉ ["L"; "O"]%byte).
Proof.
  destruct 1 as [side price p qty q broker br ts t Hp Hq Hb Ht
    |side price p qty q broker br ts t id ty rest Hp Hq Hb Ht]; [left; by constructor|].
  destruct (decide (ty ∈ ["L"; "O"]%byte)); [|right; right; by exists ty].
  destruct rest as [|extra rest]; [left; by constructor|right; left].
  exists [[Side.as_byte side]; price; qty; broker; ts; id; [ty]], (extra :: rest).
  split; [done|]. split; [done|]. by constructor.
Qed.

Lemma bqt_layout_documented args op : layout args op → documented args op ∨ trailing args op ∨ odd_offer op.
Proof.
  unfold trailing.
  destruct 1 as [pos p tail e Hp He|new_pos np old_pos op tail e Hn Ho He|rest|side pos p rest Hp
    |side pos p rest Hp|rest].
  1,2: apply entry_tail_documented in He as [He|[(format & extra & -> & Hx & He)|Ho']];
    [left; by econstructor|right; left|by right; right].
  - exists (bs "A" :: pos :: format), extra. split; [done|]. split; [done|]. by econstructor.
  - exists (bs "U" :: new_pos :: old_pos :: format), extra. split; [done|]. split; [done|]. by econstructor.
  - destruct rest as [|x rest]; [left; constructor|right; left]. exists [bs "E"], (x :: rest).
    split; [done|]. split; [done|]. constructor.
  - destruct rest as [|x rest]; [left; by constructor|right; left].
    exists [bs "D"; bs "1"; [Side.as_byte side]; pos], (x :: rest). split; [done|]. split; [done|]. by econstructor.
  - destruct rest as [|x rest]; [left; by constructor|right; left].
    exists [bs "D"; bs "2"; [Side.as_byte side]; pos], (x :: rest). split; [done|]. split; [done|]. by econstructor.
  - destruct rest as [|x rest]; [left; by constructor|right; left].
    exists [bs "D"; bs "3"], (x :: rest). split; [done|]. split; [done|]. by econstructor.
Qed.

Lemma bqt_parse_side_Ok b side : parse_side b = Ok side ↔ b = [Side.as_byte side].
Proof.
  unfold parse_side. destruct b as [|c [|c' b]]; simpl; [naive_solver| |naive_solver].
  rewrite ok_or_Ok, Side.from_byte_Some. naive_solver.
Qed.

#[export] Hint Extern 2 (parse_side _ = Ok _) => apply bqt_parse_side_Ok : scan.

Section correctness.
Context `{MemchrSpec}.

Lemma read_entry_tail_sound position s e s' :
  read_entry_tail position s = Ok (e, s') → entry_tail position (remaining s) e.
Proof.
  unfold read_entry_tail. intros Hp. scan_inv.
  all: repeat match goal with H : parse_side _ = Ok _ |- _ => apply bqt_parse_side_Ok in H; subst end.
  all: scan_rem; by constructor.
Qed.

Lemma read_entry_tail_complete position ts e :
  entry_tail position ts e → ∃ ts', accepts (read_entry_tail position) ts e ts'.
Proof.
  unfold read_entry_tail. destruct 1; eexists; scan_fwd.
Qed.
Lemma bqt_parse_op_sound code s op s' :
  parse_op code s = Ok (op, s') → layout (code :: remaining s) op.
Proof.
  unfold parse_op, parse_add, parse_update, parse_delete. intros Hp. scan_inv.
  all: repeat match goal with
    | H : parse_side _ = Ok _ |- _ => apply bqt_parse_side_Ok in H; subst
    | H : read_entry_tail _ _ = Ok _ |- _ => apply read_entry_tail_sound in H
    end.
  all: scan_rem; econstructor; eauto.
Qed.

Lemma bqt_parse_op_complete code ts op :
  layout (code :: ts) op → ∃ ts', accepts (parse_op code) ts op ts'.
Proof.
  unfold parse_op, parse_add, parse_update, parse_delete.
  inversion 1 as [? ? ? ? ? He|? ? ? ? ? ? ? ? He| | | |]; subst.
  1,2: apply read_entry_tail_complete in He as [ts' He].
  all: eexists; scan_fwd.
Qed.

(** Up to [debug_parse]: the header plays no part. *)
Lemma bqt_parse_layout (frame : bytes) (m : ProtocolMessage.t) :
  parse frame = Ok m ↔
  ∃ header ticker args op,
    split_on colon frame = header :: ticker :: args ∧ layout args op ∧
    m = ProtocolMessage.Book ticker op.
Proof.
  unfold parse. split.
  - intros Hp. scan_inv.
    match goal with H : parse_op _ _ = Ok _ |- _ => apply bqt_parse_op_sound in H end.
    scan_rem. eauto 10.
  - intros (h & ticker & args & op & Hf & Hl & ->).
    destruct args as [|code ts]; [by inversion Hl|].
    apply bqt_parse_op_complete in Hl as [ts' Hl].
    eapply run_accepts. rewrite Hf. scan_fwd.
Qed.

(** (C20) What the detailed-book parser accepts. In a build with debug assertions
    it accepts exactly the frames with header [B], a ticker and the fields of
    [layout], and returns the operation they spell; a build without them does
    the same on every frame with that header. [layout] has every frame of
    [documented], the formats of api.md 5.1 and of the head of bqt.rs with every
    number in range and the legacy layout of an entry, so that half of the
    optional tail is rejected; what it has beyond them is frames with more fields
    behind a complete format, and offer types other than [L] and [O]. A time stamp
    is any 32-bit number. *)
Theorem bqt_parse_exact (frame : bytes) (m : ProtocolMessage.t) :
  (debug_parse frame = Some (Ok m) ↔
     ∃ ticker args op, split_on colon frame = bs "B" :: ticker :: args ∧ layout args op ∧
       m = ProtocolMessage.Book ticker op) ∧
  (∀ fields, split_on colon frame = bs "B" :: fields → debug_parse frame = Some (parse frame)) ∧
  (∀ args op, documented args op → layout args op) ∧
  (∀ args op, layout args op → documented args op ∨ trailing args op ∨ odd_offer op).
Proof.
  unfold debug_parse. split_and!; [|intros fields Hs; by rewrite debug_build_eq, Hs
    |apply bqt_documented_layout|apply bqt_layout_documented].
  rewrite debug_build_Ok, bqt_parse_layout. split.
  - intros [[fields Hs] (h & ticker & args & op & Hs' & Hl & ->)]. rewrite Hs in Hs'. injection Hs' as <- ->. eauto 10.
  - intros (ticker & args & op & Hs & Hl & ->). split; [by eexists|]. eauto 10.
Qed.
End correctness.

Lemma bqt_parse_exact_witness :
  ∃ args op, split_on colon (bs "B:PETR4:U:1:0:A:99.98:500:37:11041130:ID:X") = bs "B" :: bs "PETR4" :: args ∧
    layout args op ∧ (documented args op ∨ trailing args op ∨ odd_offer op).
Proof.
  destruct (@bqt_parse_exact memchr_reference memchr_reference_spec
    (bs "B:PETR4:U:1:0:A:99.98:500:37:11041130:ID:X")
    (ProtocolMessage.Book (bs "PETR4") (BookOp.Update 0
      (BookEntry.mk 1 Side.Buy (f64_lit "99.98") 500 37 11041130 (Some (bs "ID")) (Some "X"%byte)))))
    as (Hex & _ & _ & Hdoc).
  destruct (proj1 Hex ltac:(vm_compute; reflexivity)) as (tk & args & op & Hs & Hl & _).
  exists args, op. split; [|split; [exact Hl|exact (Hdoc args op Hl)]].
  vm_compute in Hs. injection Hs as <- <-. reflexivity.
Defined.
End Bqt.

(** ** Aggregated book *)

Module Sab.
Section ops.
Context `{Memchr}.

Definition parse_side (b : bytes) : result ParseError.t Side.t :=
  if negb (length b =? 1)%nat then
    Err (ParseError.InvalidField "agg book side" "expected one byte (A or V)")
  else ok_or (c ← b !! 0%nat; Side.from_byte c)
         (ParseError.InvalidField "agg book side" "expected A (buy) or V (sell)").

Definition read_level : scan AggBookLevel.t :=
  position ← required_u32 "position";
  side_bytes ← required "side";
  side ← lift (parse_side side_bytes);
  price ← required_f64 "price";
  quantity ← required_u64 "quantity";
  offer_count ← required_u32 "offer count";
  ts_bytes ← required "DDMMHHMM";
  timestamp ← lift (parse_u32 ts_bytes "DDMMHHMM");
  mret (AggBookLevel.mk position side price quantity offer_count timestamp).

Definition parse_delete : scan BookDelete.t :=
  kind_bytes ← required "delete kind";
  if bool_decide (kind_bytes = bs "1") then
    side_bytes ← required "side";
    side ← lift (parse_side side_bytes);
    position ← required_u32 "position";
    mret (BookDelete.Single side position)
  else if bool_decide (kind_bytes = bs "3") then mret BookDelete.ClearAll
  else if bool_decide (kind_bytes = bs "2") then
    fail (ParseError.InvalidField "delete kind" "SAB does not accept delete kind 2 (BQT-only)")
  else fail (ParseError.InvalidField "delete kind" "expected 1 or 3").

(** The operation after its code. *)
Definition parse_op (op_code : bytes) : scan AggBookOp.t :=
  if bool_decide (op_code = bs "A") then level ← read_level; mret (AggBookOp.Add level)
  else if bool_decide (op_code = bs "U") then level ← read_level; mret (AggBookOp.Update level)
  else if bool_decide (op_code = bs "D") then d ← parse_delete; mret (AggBookOp.Delete d)
  else if bool_decide (op_code = bs "E") then mret AggBookOp.EndOfInitial
  else fail (ParseError.InvalidField "agg book op" "expected A, U, D, or E").

Definition parse (frame : bytes) : result ParseError.t ProtocolMessage.t :=
  run (header ← required "Z header";
       ticker ← required "ticker";
       op_code ← required "agg book op";
       op ← parse_op op_code;
       mret (ProtocolMessage.AggBook ticker op)) frame.
Definition debug_parse : bytes → option (result ParseError.t ProtocolMessage.t) :=
  debug_build (bs "Z") "Z header" parse.
End ops.

(** *** Wire grammar *)

Inductive level_fields : list bytes → AggBookLevel.t → Prop :=
  | level_intro pos n side price p qty q count k ts t rest :
      is_dec u32_max pos n → f64_from_str price = Some p → is_dec u64_max qty q →
      is_dec u32_max count k → is_dec u32_max ts t →
      level_fields (pos :: [Side.as_byte side] :: price :: qty :: count :: ts :: rest)
        (AggBookLevel.mk n side p q k t).

Inductive layout : list bytes → AggBookOp.t → Prop :=
  | layout_add fields level :
      level_fields fields level → layout (bs "A" :: fields) (AggBookOp.Add level)
  | layout_update fields level :
      level_fields fields level → layout (bs "U" :: fields) (AggBookOp.Update level)
  | layout_end rest : layout (bs "E" :: rest) AggBookOp.EndOfInitial
  | layout_delete_one side pos p rest :
      is_dec u32_max pos p →
      layout (bs "D" :: bs "1" :: [Side.as_byte side] :: pos :: rest)
        (AggBookOp.Delete (BookDelete.Single side p))
  | layout_delete_all rest :
      layout (bs "D" :: bs "3" :: rest) (AggBookOp.Delete BookDelete.ClearAll).

Lemma sab_parse_side_Ok b side : parse_side b = Ok side ↔ b = [Side.as_byte side].
Proof.
  unfold parse_side. destruct b as [|c [|c' b]]; simpl; [naive_solver| |naive_solver].
  rewrite ok_or_Ok, Side.from_byte_Some. naive_solver.
Qed.

#[export] Hint Extern 2 (parse_side _ = Ok _) => apply sab_parse_side_Ok : scan.

Section correctness.
Context `{MemchrSpec}.

Lemma read_level_sound s level s' :
  read_level s = Ok (level, s') → level_fields (remaining s) level.
Proof.
  unfold read_level. intros Hp. scan_inv.
  repeat match goal with H : parse_side _ = Ok _ |- _ => apply sab_parse_side_Ok in H; subst end.
  scan_rem. by constructor.
Qed.

Lemma read_level_complete ts level :
  level_fields ts level → ∃ ts', accepts read_level ts level ts'.
Proof. unfold read_level. destruct 1; eexists; scan_fwd. Qed.

Lemma sab_parse_op_sound code s op s' :
  parse_op code s = Ok (op, s') → layout (code :: remaining s) op.
Proof.
  unfold parse_op, parse_delete. intros Hp. scan_inv.
  all: repeat match goal with
    | H : parse_side _ = Ok _ |- _ => apply sab_parse_side_Ok in H; subst
    | H : read_level _ = Ok _ |- _ => apply read_level_sound in H
    end.
  all: scan_rem; econstructor; eauto.
Qed.

Lemma sab_parse_op_complete code ts op :
  layout (code :: ts) op → ∃ ts', accepts (parse_op code) ts op ts'.
Proof.
  unfold parse_op, parse_delete.
  inversion 1 as [? ? Hl|? ? Hl| | |]; subst.
  1,2: apply read_level_complete in Hl as [ts' Hl].
  all: eexists; scan_fwd.
Qed.

(** The aggregated-book parser accepts exactly the documented frames;
    the prefix delete (kind 2) of the detailed book is not among them. *)
Theorem sab_parse_exact (frame : bytes) (m : ProtocolMessage.t) :
  parse frame = Ok m ↔
  ∃ header ticker args op,
    split_on colon frame = header :: ticker :: args ∧ layout args op ∧
    m = ProtocolMessage.AggBook ticker op.
Proof.
  unfold parse. split.
  - intros Hp. scan_inv.
    match goal with H : parse_op _ _ = Ok _ |- _ => apply sab_parse_op_sound in H end.
    scan_rem. eauto 10.
  - intros (h & ticker & args & op & Hf & Hl & ->).
    destruct args as [|code ts]; [by inversion Hl|].
    apply sab_parse_op_complete in Hl as [ts' Hl].
    eapply run_accepts. rewrite Hf. scan_fwd.
Qed.
End correctness.

Lemma sab_parse_exact_witness :
  ∃ args op, split_on colon (bs "Z:PETR4:D:1:V:3") = bs "Z" :: bs "PETR4" :: args ∧ layout args op.
Proof.
  destruct (proj1 (@sab_parse_exact memchr_reference memchr_reference_spec
    (bs "Z:PETR4:D:1:V:3")
    (ProtocolMessage.AggBook (bs "PETR4") (AggBookOp.Delete (BookDelete.Single Side.Sell 3))))
    ltac:(vm_compute; reflexivity)) as (h & tk & args & op & Hs & Hl & _).
  exists args, op. split; [|exact Hl].
  vm_compute in Hs. injection Hs as <- <- <-. reflexivity.
Defined.
End Sab.
