(* ===== verification/ParserQuote.v ===== *)
(** * Quote parser ([parser/sqt.rs])

    [Sqt] parses the sparse (index, value) pairs of a quote frame; the index
    determines the type of the value. The loop is proved exact against the wire
    grammar [pairs], which reads the indices by [Doc.table], the table of api.md,
    and its five [departures]. *)

From S2P Require Import Prelude RustInt RustStr RustFloat Externs Types Scanner.

Import Scanner.

Module Sqt.

Module FieldType.
Inductive t : Type :=
  | Float | Int | Time | TimeMs | Date | DateTime | Char | Phase | Str.

#[global] Instance t_eq_dec : EqDecision t.
Proof. solve_decision. Defined.
End FieldType.

(** The wire type of a quote index; [Float] when the index is not listed. *)
Definition field_type (idx : Z) : FieldType.t :=
  if bool_decide (idx ∈ [0; 5; 15; 16; 58; 59]) then FieldType.Time
  else if in_range 142 145 idx then FieldType.TimeMs
  else if bool_decide (idx ∈ [1; 54; 64; 87; 129; 141; 154; 208]) then FieldType.Date
  else if bool_decide (idx ∈ [50; 51; 125]) then FieldType.DateTime
  else if bool_decide (idx ∈
    [6; 7; 8; 9; 19; 20; 44; 45; 46; 49; 57; 60; 61; 62; 63; 65; 67; 84;
     100; 101; 102; 110; 111; 113; 114; 115; 118; 119; 130; 136; 137; 138;
     203; 205; 209; 213]) then FieldType.Int
  else if idx =? 88 then FieldType.Phase
  else if bool_decide (idx ∈ [56; 72; 74; 106]) then FieldType.Char
  else if bool_decide (idx ∈
    [47; 48; 52; 53; 66; 81; 96; 105; 109; 116; 117; 122; 126; 139; 204; 206;
     207; 214; 215]) then FieldType.Str
  else FieldType.Float.

(** A [[u8; 2]] filled with the first bytes of the value. *)
Definition phase_buf (raw : bytes) : byte * byte :=
  (nth 0 raw x00, nth 1 raw x00).

Definition decode_value (idx : Z) (raw : bytes) : result ParseError.t QuoteFieldValue.t :=
  match field_type idx with
  | FieldType.Float => n ← parse_f64 raw "quote float"; Ok (QuoteFieldValue.Float n)
  | FieldType.Int => n ← parse_i64 raw "quote int"; Ok (QuoteFieldValue.Int n)
  | FieldType.Time => n ← parse_u32 raw "quote time"; Ok (QuoteFieldValue.Time n)
  | FieldType.TimeMs =>
      n ← parse_u64 raw "quote time-ms";
      m ← ok_or (checked 0 u32_max n) (ParseError.BadInteger "quote time-ms");
      Ok (QuoteFieldValue.Time m)
  | FieldType.Date => n ← parse_u32 raw "quote date"; Ok (QuoteFieldValue.Date n)
  | FieldType.DateTime => n ← parse_u64 raw "quote datetime"; Ok (QuoteFieldValue.DateTime n)
  | FieldType.Char =>
      match raw with
      | [c] => Ok (QuoteFieldValue.Char c)
      | _ => Err (ParseError.InvalidField "quote char" "expected exactly one byte")
      end
  | FieldType.Phase => Ok (QuoteFieldValue.Phase (phase_buf raw))
  | FieldType.Str => Ok (QuoteFieldValue.Str raw)
  end.

Section ops.
Context `{Memchr}.

(** The [loop] over (index, value) pairs; [fuel] bounds its iterations. *)
Fixpoint read_diff (fuel : nat) (diff : QuoteDiff) : scan QuoteDiff :=
  match fuel with
  | O => mret diff
  | S fuel' =>
      idx_field ← next_opt;
      match idx_field with
      | None => mret diff
      | Some idx_field =>
          if bool_decide (idx_field = []) then mret diff
          else
            idx_num ← lift (parse_u16 idx_field "quote index");
            value_bytes ← required "quote value";
            value ← lift (decode_value idx_num value_bytes);
            read_diff fuel' (diff ++ [(idx_num, value)])
      end
  end.

(** Every iteration consumes a field, and a frame has at most one more field
    than it has bytes. *)
Definition parse (frame : bytes) : result ParseError.t ProtocolMessage.t :=
  run (header ← required "T header";
       ticker ← required "ticker";
       time_bytes ← required "HHMMSS";
       time_hhmmss ← lift (parse_u32 time_bytes "HHMMSS");
       diff ← read_diff (S (length frame)) [];
       mret (ProtocolMessage.Quote ticker time_hhmmss diff)) frame.
Definition debug_parse : bytes → option (result ParseError.t ProtocolMessage.t) :=
  debug_build (bs "T") "T header" parse.
End ops.

(** *** The documented table

    The index table of api.md 4.1.1, row by row, the Tesouro Direto rows at the
    end; [Double] and [Float] are both decimal numbers. *)

Module Doc.
Inductive type : Type :=
  | HHMMSS | HHMMSSmmm | YYYYMMDD | YYYYMMDDHHMMSS | YYYYMM
  | Float | Double | Inteiro | Char | String.

#[global] Instance type_eq_dec : EqDecision type.
Proof. solve_decision. Defined.

Definition table : list (Z * type) :=
  [(0, HHMMSS); (1, YYYYMMDD); (2, Float); (3, Float); (4, Float); (5, HHMMSS); (6, Inteiro);
   (7, Inteiro); (8, Inteiro); (9, Inteiro); (10, Float); (11, Float); (12, Float); (13, Float);
   (14, Float); (15, HHMMSS); (16, HHMMSS); (17, Float); (18, Float); (19, Inteiro); (20, Inteiro);
   (21, Float); (36, Float); (37, Float); (38, Float); (39, Float); (40, Float); (41, Float);
   (42, Float); (43, Float); (44, Inteiro); (45, Inteiro); (46, Inteiro); (47, String); (48, String);
   (49, Inteiro); (50, YYYYMMDDHHMMSS); (51, YYYYMMDDHHMMSS); (52, String); (53, String);
   (54, YYYYMMDD); (56, Char); (57, Inteiro); (58, HHMMSS); (59, HHMMSS); (60, Inteiro);
   (61, Inteiro); (62, Inteiro); (63, Inteiro); (64, YYYYMMDD); (65, Inteiro); (66, String);
   (67, Inteiro); (72, Char); (74, Char); (81, String); (82, Float); (83, Inteiro); (84, Inteiro);
   (85, Float); (86, Float); (87, YYYYMMDD); (88, String); (89, Float); (90, Float); (94, Float);
   (95, Float); (96, String); (97, Float); (98, Float); (99, Float); (100, Inteiro); (101, Inteiro);
   (102, Inteiro); (103, Float); (104, Float); (105, String); (106, String); (107, Float);
   (108, Float); (109, String); (110, Inteiro); (111, Inteiro); (112, Float); (113, Inteiro);
   (114, Inteiro); (115, Inteiro); (116, String); (117, String); (118, Inteiro); (119, Inteiro);
   (120, YYYYMM); (121, Float); (122, String); (123, Float); (124, Inteiro); (125, YYYYMMDDHHMMSS);
   (126, String); (127, Float); (128, Float); (129, YYYYMMDD); (130, Inteiro); (134, Float);
   (135, Float); (136, Inteiro); (137, Inteiro); (138, Inteiro); (139, String); (140, Double);
   (141, String); (142, HHMMSSmmm); (143, HHMMSSmmm); (144, HHMMSSmmm); (145, HHMMSSmmm);
   (146, Float); (147, Float); (148, Double); (149, Double); (150, Double); (151, Double);
   (152, Double); (153, Double); (154, YYYYMMDD); (155, Double); (156, Double); (157, Double);
   (158, Double); (159, Double); (160, Double);
   (200, Float); (201, Float); (202, Float); (203, Inteiro); (204, String); (205, Inteiro);
   (206, String); (207, String); (208, YYYYMMDD); (209, Inteiro); (210, Float); (211, Float);
   (212, Float); (213, Inteiro); (214, String); (215, String)].

(** The type of an index, if it has a row. *)
Fixpoint find (i : Z) (l : list (Z * type)) : option type :=
  match l with [] => None | (j, ty) :: l' => if i =? j then Some ty else find i l' end.
Definition of_index (i : Z) : option type := find i table.

(** The values of the documented types; the phase of index 88 is a string of
    one or two characters (4.1.6). *)
Definition wire (i : Z) (ty : type) : FieldType.t :=
  match ty with
  | HHMMSS => FieldType.Time
  | HHMMSSmmm => FieldType.TimeMs
  | YYYYMMDD => FieldType.Date
  | YYYYMMDDHHMMSS => FieldType.DateTime
  | YYYYMM => FieldType.Date
  | Float | Double => FieldType.Float
  | Inteiro => FieldType.Int
  | Char => FieldType.Char
  | String => if i =? 88 then FieldType.Phase else FieldType.Str
  end.
End Doc.

(** Where the code departs from the table, and how it reads these instead. *)
Definition departures : list (Z * FieldType.t) :=
  [(83, FieldType.Float); (106, FieldType.Char); (120, FieldType.Float); (124, FieldType.Float);
   (141, FieldType.Date)].

(** How an index is read: a number if it has no row, as its row says if it is
    not one of the departures. *)
Definition read_as (i : Z) (ty : FieldType.t) : Prop :=
  match Doc.of_index i with
  | None => ty = FieldType.Float
  | Some doc => if decide (i ∈ departures.*1) then (i, ty) ∈ departures else ty = Doc.wire i doc
  end.
#[export] Instance read_as_dec i ty : Decision (read_as i ty).
Proof. unfold read_as. destruct (Doc.of_index i); [destruct (decide _)|]; apply _. Defined.

(** *** Wire grammar *)

Inductive typed_value : FieldType.t → bytes → QuoteFieldValue.t → Prop :=
  | typed_float raw x : f64_from_str raw = Some x →
      typed_value FieldType.Float raw (QuoteFieldValue.Float x)
  | typed_int raw n : is_sdec raw n → typed_value FieldType.Int raw (QuoteFieldValue.Int n)
  | typed_time raw n : is_dec u32_max raw n →
      typed_value FieldType.Time raw (QuoteFieldValue.Time n)
  | typed_time_ms raw n : is_dec u32_max raw n →
      typed_value FieldType.TimeMs raw (QuoteFieldValue.Time n)
  | typed_date raw n : is_dec u32_max raw n →
      typed_value FieldType.Date raw (QuoteFieldValue.Date n)
  | typed_datetime raw n : is_dec u64_max raw n →
      typed_value FieldType.DateTime raw (QuoteFieldValue.DateTime n)
  | typed_char c : typed_value FieldType.Char [c] (QuoteFieldValue.Char c)
  | typed_phase raw : typed_value FieldType.Phase raw (QuoteFieldValue.Phase (phase_buf raw))
  | typed_str raw : typed_value FieldType.Str raw (QuoteFieldValue.Str raw).

(** The pairs up to the end of the frame or an empty index field. *)
Inductive pairs : list bytes → QuoteDiff → Prop :=
  | pairs_end : pairs [] []
  | pairs_empty_index rest : pairs ([] :: rest) []
  | pairs_cons idx i ty raw v ts d :
      is_dec u16_max idx i → read_as i ty → typed_value ty raw v → pairs ts d →
      pairs (idx :: raw :: ts) ((i, v) :: d).

(** The table of the code is the documented one but for the departures. *)
Lemma field_type_high i : 216 ≤ i → field_type i = FieldType.Float ∧ Doc.of_index i = None.
Proof.
  intros Hi. split.
  - unfold field_type. assert (∀ l, Forall (λ x, x < 216) l → bool_decide (i ∈ l) = false) as Hl.
    { intros l Hl. apply bool_decide_eq_false_2. intros Hin. rewrite Forall_forall in Hl.
      apply Hl in Hin. lia. }
    rewrite !Hl by (apply (bool_decide_eq_true_1 (Forall _ _)); vm_compute; reflexivity).
    unfold in_range. destruct (Z.leb_spec 142 i), (Z.leb_spec i 145), (Z.eqb_spec i 88); try lia; done.
  - unfold Doc.of_index. assert (∀ l, Forall (λ p, p.1 < 216) l → Doc.find i l = None) as Hl.
    { induction l as [|[j ty] l IH]; [done|]. intros [Hj Hl]%Forall_cons. cbn [Doc.find fst] in *.
      destruct (Z.eqb_spec i j); [lia|by apply IH]. }
    apply Hl. apply (bool_decide_eq_true_1 (Forall _ _)). vm_compute. reflexivity.
Qed.

Lemma field_type_low : Forall (λ i, read_as i (field_type i)) (seqZ 0 216).
Proof. apply (bool_decide_eq_true_1 (Forall _ _)). vm_compute. reflexivity. Qed.

Lemma read_as_inj i ty1 ty2 : read_as i ty1 → read_as i ty2 → ty1 = ty2.
Proof.
  unfold read_as. destruct (Doc.of_index i); [|congruence]. destruct (decide _); [|congruence].
  unfold departures. rewrite !elem_of_cons, !elem_of_nil. intros H1 H2.
  destruct_or! H1; destruct_or! H2; by simplify_eq.
Qed.

Lemma read_as_field_type i ty : 0 ≤ i → read_as i ty ↔ ty = field_type i.
Proof.
  intros Hi. assert (read_as i (field_type i)) as Hf.
  { destruct (decide (i < 216)) as [Hl|Hl].
    - pose proof field_type_low as Hall. rewrite Forall_forall in Hall. apply Hall, elem_of_seqZ. lia.
    - unfold read_as. destruct (field_type_high i) as [-> ->]; [lia|done]. }
  split; [|by intros ->]. intros Hr. by apply (read_as_inj i).
Qed.

(** The departures are those, and no more. *)
Lemma departures_depart i doc :
  Doc.of_index i = Some doc → (i ∈ departures.*1 ↔ ∀ ty, read_as i ty → ty ≠ Doc.wire i doc).
Proof.
  intros Hd. unfold read_as. rewrite Hd. destruct (decide (i ∈ departures.*1)) as [Hi|Hi].
  - split; [intros _|done]. intros ty Hty. unfold departures in Hty. rewrite !elem_of_cons, elem_of_nil in Hty.
    destruct_or! Hty; try done; injection Hty as -> ->; vm_compute in Hd; injection Hd as <-; by intros [=].
  - split; [done|]. intros Hno. by destruct (Hno _ eq_refl).
Qed.

Lemma decode_value_Ok idx raw v :
  decode_value idx raw = Ok v ↔ typed_value (field_type idx) raw v.
Proof.
  unfold decode_value. destruct (field_type idx).
  4: { pose proof (parse_narrow_Ok u32_max raw "quote time-ms") as Hn.
       setoid_rewrite result_bind_Ok in Hn. split.
       - intros (n & Hp & (m & Hc & [= <-])%result_bind_Ok)%result_bind_Ok.
         constructor. apply (Hn m); [done|]. eauto.
       - inversion 1; subst.
         match goal with Hd : is_dec _ _ _ |- _ => apply Hn in Hd as (m & Hp & Hc); [|done] end.
         rewrite Hp. simpl. by rewrite Hc. }
  all: try rewrite result_bind_Ok.
  - split; [intros (n & ?%parse_f64_Ok & [= <-]); by constructor|].
    inversion 1; subst. eexists. split; [by apply parse_f64_Ok|done].
  - split; [intros (n & ?%parse_i64_Ok & [= <-]); by constructor|].
    inversion 1; subst. eexists. split; [by apply parse_i64_Ok|done].
  - split; [intros (n & ?%parse_u32_Ok & [= <-]); by constructor|].
    inversion 1; subst. eexists. split; [by apply parse_u32_Ok|done].
  - split; [intros (n & ?%parse_u32_Ok & [= <-]); by constructor|].
    inversion 1; subst. eexists. split; [by apply parse_u32_Ok|done].
  - split; [intros (n & ?%parse_u64_Ok & [= <-]); by constructor|].
    inversion 1; subst. eexists. split; [by apply parse_u64_Ok|done].
  - split.
    + destruct raw as [|c [|? ?]]; try done. intros [= <-]. constructor.
    + inversion 1; by subst.
  - split; [intros [= <-]; constructor|by inversion 1].
  - split; [intros [= <-]; constructor|by inversion 1].
Qed.

#[export] Hint Extern 2 (decode_value _ _ = Ok _) => apply decode_value_Ok : scan.

Section correctness.
Context `{MemchrSpec}.

Lemma read_diff_sound fuel : ∀ diff s d s',
  (length (remaining s) < fuel)%nat → read_diff fuel diff s = Ok (d, s') →
  ∃ d', d = diff ++ d' ∧ pairs (remaining s) d'.
Proof.
  induction fuel as [|fuel IH]; intros diff s d s' Hlt; [lia|].
  cbn [read_diff]. intros Hp. scan_inv.
  - exists []. rewrite app_nil_r. scan_rem. split; [done|constructor].
  - match goal with H : read_diff _ _ _ = Ok _ |- _ =>
      apply IH in H as (d' & -> & Hd'); [|revert Hlt; scan_rem; simpl; lia] end.
    match goal with H : decode_value _ _ = Ok _ |- _ => apply decode_value_Ok in H end.
    eexists. rewrite <-(assoc_L (++)). split; [done|]. scan_rem. econstructor; [done| |done|done].
    apply read_as_field_type; [|done]. match goal with H : is_dec _ _ _ |- _ => by destruct (is_dec_nonneg _ _ _ H) end.
  - exists []. rewrite app_nil_r. scan_rem. split; [done|constructor].
Qed.

Lemma read_diff_complete fuel : ∀ diff ts d,
  (length ts < fuel)%nat → pairs ts d →
  ∃ ts', accepts (read_diff fuel diff) ts (diff ++ d) ts'.
Proof.
  induction fuel as [|fuel IH]; intros diff ts d Hlt Hp; [lia|].
  cbn [read_diff]. destruct Hp as [|rest|idx i ty raw v ts d Hi Hty Hv Hp].
  - rewrite app_nil_r. eexists. scan_fwd.
  - rewrite app_nil_r. eexists. scan_fwd.
  - simpl in Hlt. destruct (IH (diff ++ [(i, v)]) ts d) as [ts' Ha]; [lia|done|].
    rewrite <-(assoc_L (++)) in Ha. exists ts'.
    apply read_as_field_type in Hty as ->; [|by destruct (is_dec_nonneg _ _ _ Hi)].
    assert (idx ≠ []) by (by destruct Hi). scan_fwd.
Qed.

(** Up to [debug_parse]: the header plays no part. *)
Lemma sqt_parse_layout (frame : bytes) (m : ProtocolMessage.t) :
  parse frame = Ok m ↔
  ∃ header ticker time n ts d,
    split_on colon frame = header :: ticker :: time :: ts ∧
    is_dec u32_max time n ∧ pairs ts d ∧ m = ProtocolMessage.Quote ticker n d.
Proof.
  unfold parse. split.
  - intros Hp. scan_inv.
    match goal with H : read_diff _ _ _ = Ok _ |- _ =>
      apply read_diff_sound in H as (d' & -> & Hd') end.
    + simpl. scan_rem. eauto 12.
    + pose proof (length_split_on frame) as Hl. revert Hl.
      match goal with H : split_on _ _ = _ |- _ => rewrite H end. scan_rem. simpl. lia.
  - intros (h & ticker & time & n & ts & d & Hf & Hn & Hd & ->).
    destruct (read_diff_complete (S (length frame)) [] ts d) as [ts' Ha]; [|done|].
    + pose proof (length_split_on frame) as Hl. rewrite Hf in Hl. simpl in Hl. lia.
    + eapply run_accepts. rewrite Hf. simpl in Ha. scan_fwd.
Qed.
(** (C22) What the quote parser accepts. In a build with debug assertions it
    accepts exactly the frames with header [T], a ticker, a time and pairs of an
    index and a value, up to the end of the frame or to an empty index field,
    behind which anything is ignored, and returns the pairs in order; a build
    without them does the same on every frame with that header. A value is read
    as the table of api.md 4.1.1 types its index, every integer in its range, as
    a number when the index has no row there, and at five indices otherwise than
    the table says: 83 and 124 (integers) and 120 (a year and month) as numbers,
    106 (two characters) as a single one, and 141 (a string) as a date. *)
Theorem sqt_parse_exact (frame : bytes) (m : ProtocolMessage.t) :
  (debug_parse frame = Some (Ok m) ↔
     ∃ ticker time n ts d, split_on colon frame = bs "T" :: ticker :: time :: ts ∧
       is_dec u32_max time n ∧ pairs ts d ∧ m = ProtocolMessage.Quote ticker n d) ∧
  (∀ fields, split_on colon frame = bs "T" :: fields → debug_parse frame = Some (parse frame)) ∧
  (∀ i doc, Doc.of_index i = Some doc → (i ∈ departures.*1 ↔ ∀ ty, read_as i ty → ty ≠ Doc.wire i doc)).
Proof.
  unfold debug_parse. split_and!; [|intros fields Hs; by rewrite debug_build_eq, Hs|apply departures_depart].
  rewrite debug_build_Ok, sqt_parse_layout. split.
  - intros [[fields Hs] (h & ticker & time & n & ts & d & Hs' & Hn & Hd & ->)].
    rewrite Hs in Hs'. injection Hs' as <- ->. eauto 12.
  - intros (ticker & time & n & ts & d & Hs & Hn & Hd & ->). split; [by eexists|]. eauto 12.
Qed.
End correctness.

Lemma sqt_parse_exact_witness :
  ∃ tk time n ts d, split_on colon (bs "T:PETR4:164500:2:26.06:6:-3:88:P") = bs "T" :: tk :: time :: ts ∧
    is_dec u32_max time n ∧ pairs ts d.
Proof.
  destruct (@sqt_parse_exact memchr_reference memchr_reference_spec
    (bs "T:PETR4:164500:2:26.06:6:-3:88:P")
    (ProtocolMessage.Quote (bs "PETR4") 164500
      [(2, QuoteFieldValue.Float (f64_lit "26.06")); (6, QuoteFieldValue.Int (-3));
       (88, QuoteFieldValue.Phase ("P"%byte, x00))])) as (Hex & _).
  destruct (proj1 Hex ltac:(vm_compute; reflexivity)) as (tk & time & n & ts & d & Hs & Hn & Hd & _).
  exists tk, time, n, ts, d. split; [exact Hs|]. split; [exact Hn|exact Hd].
Defined.
End Sqt.
