(* ===== verification/ParserTrade.v ===== *)
(** * Trade parser ([parser/gqt.rs])

    [Gqt] tells the subscribe layout of a trade from the snapshot layout by
    counting fields. The wire grammar [layout] is what it accepts;
    [gqt_snapshot_misread] is the frame shape on which the count misleads. *)

From S2P Require Import Prelude RustInt RustStr RustFloat Externs Enums Types Scanner.

Import Scanner.

Module Gqt.
Section ops.
Context `{Memchr}.

Definition single_byte (b : bytes) (field : string) : result ParseError.t byte :=
  match b with
  | [c] => Ok c
  | _ => Err (ParseError.InvalidField field "expected exactly one byte")
  end.

(** The [while let Some(token)] loop of [parse_add]; [fuel] bounds it. *)
Fixpoint drain_fields (fuel : nat) (fields : list bytes) : scan (list bytes) :=
  match fuel with
  | O => mret fields
  | S fuel' =>
      token ← next_opt;
      match token with
      | None => mret fields
      | Some token =>
          if bool_decide (token = []) && (9 <=? length fields)%nat then mret fields
          else drain_fields fuel' (fields ++ [token])
      end
  end.

(** The request id, by the number of fields, and the nine common fields. *)
Definition split_request_id (fields : list bytes)
    : result ParseError.t (option bytes * list bytes) :=
  if (length fields =? 9)%nat then Ok (None, fields)
  else if (length fields =? 10)%nat then Ok (fields !! 6%nat, remove_at 6 fields)
  else Err (ParseError.InvalidField "trade fields"
              "expected 9 (subscribe) or 10 (snapshot) fields after A").

(** [fields[i]]. *)
Definition field (fields : list bytes) (i : nat) : bytes := nth i fields [].

Definition read_trade (op_byte : byte) (request_id : option bytes) (fields : list bytes)
    : result ParseError.t Trade.t :=
  time_hhmmss ← parse_u32 (field fields 0) "trade time";
  price ← parse_f64 (field fields 1) "trade price";
  broker_buy_id ← parse_u32 (field fields 2) "trade broker buy";
  broker_sell_id ← parse_u32 (field fields 3) "trade broker sell";
  quantity ← parse_u64 (field fields 4) "trade quantity";
  condition_code ← parse_u16 (field fields 6) "trade condition";
  aggressor_byte ← single_byte (field fields 7) "trade aggressor";
  Ok (Trade.mk op_byte time_hhmmss price broker_buy_id broker_sell_id quantity
        (field fields 5) request_id (TradeCondition.from_code condition_code)
        (TradeAggressor.from_byte aggressor_byte) (field fields 8)).

Definition parse_add (fuel : nat) (op_byte : byte) : scan TradeOperation.t :=
  fields ← drain_fields fuel [];
  '(request_id, fields) ← lift (split_request_id fields);
  trade ← lift (read_trade op_byte request_id fields);
  mret (TradeOperation.Add trade).

Definition parse_op (fuel : nat) (op_field : bytes) : scan TradeOperation.t :=
  if bool_decide (op_field = bs "A") then parse_add fuel "A"%byte
  else if bool_decide (op_field = bs "D") then
    trade_id ← required "trade id"; mret (TradeOperation.Delete trade_id)
  else if bool_decide (op_field = bs "R") then mret TradeOperation.RemoveAll
  else if bool_decide (op_field = bs "E") then
    next ← next_opt;
    match next with
    | None => mret TradeOperation.EndOfSubscribe
    | Some req =>
        if bool_decide (req = []) then mret TradeOperation.EndOfSubscribe
        else mret (TradeOperation.EndOfSnapshot req)
    end
  else fail (ParseError.InvalidField "trade op" "expected A, D, R or E").

Definition parse (frame : bytes) : result ParseError.t ProtocolMessage.t :=
  run (header ← required "V header";
       ticker ← required "ticker";
       op_field ← required "trade op";
       op ← parse_op (S (length frame)) op_field;
       mret (ProtocolMessage.Trade ticker op)) frame.
Definition debug_parse : bytes → option (result ParseError.t ProtocolMessage.t) :=
  debug_build (bs "V") "V header" parse.
End ops.

(** *** Wire grammar *)

(** The common fields: before and after the place of the request id. *)
Inductive trade_fields (request_id : option bytes) : list bytes → list bytes → Trade.t → Prop :=
  | trade_fields_intro time t price p buy b sell s qty q id cond c aggr orig :
      is_dec u32_max time t → f64_from_str price = Some p → is_dec u32_max buy b →
      is_dec u32_max sell s → is_dec u64_max qty q → is_dec u16_max cond c →
      trade_fields request_id [time; price; buy; sell; qty; id] [cond; [aggr]; orig]
        (Trade.mk "A"%byte t p b s q id request_id (TradeCondition.from_code c)
           (TradeAggressor.from_byte aggr) orig).

(** Where the drain loop stops: at the end or before an empty field. *)
Definition stop (rest : list bytes) : Prop := rest = [] ∨ ∃ r, rest = [] :: r.

Inductive layout : list bytes → TradeOperation.t → Prop :=
  | layout_subscribe f1 f2 rest t :
      trade_fields None f1 f2 t → stop rest →
      layout (bs "A" :: f1 ++ f2 ++ rest) (TradeOperation.Add t)
  | layout_snapshot f1 f2 req rest t :
      trade_fields (Some req) f1 f2 t → Trade.original_conditions t ≠ [] → stop rest →
      layout (bs "A" :: f1 ++ req :: f2 ++ rest) (TradeOperation.Add t)
  | layout_delete id rest : layout (bs "D" :: id :: rest) (TradeOperation.Delete id)
  | layout_remove_all rest : layout (bs "R" :: rest) TradeOperation.RemoveAll
  | layout_end_subscribe rest : stop rest → layout (bs "E" :: rest) TradeOperation.EndOfSubscribe
  | layout_end_snapshot req rest :
      req ≠ [] → layout (bs "E" :: req :: rest) (TradeOperation.EndOfSnapshot req).

(** The formats of api.md 6.1.3, with nothing behind. *)
Inductive documented : list bytes → TradeOperation.t → Prop :=
  | documented_subscribe f1 f2 t :
      trade_fields None f1 f2 t → documented (bs "A" :: f1 ++ f2) (TradeOperation.Add t)
  | documented_snapshot f1 f2 req t :
      trade_fields (Some req) f1 f2 t → documented (bs "A" :: f1 ++ req :: f2) (TradeOperation.Add t)
  | documented_delete id : documented [bs "D"; id] (TradeOperation.Delete id)
  | documented_remove_all : documented [bs "R"] TradeOperation.RemoveAll
  | documented_end_subscribe : documented [bs "E"] TradeOperation.EndOfSubscribe
  | documented_end_snapshot req :
      req ≠ [] → documented [bs "E"; req] (TradeOperation.EndOfSnapshot req).

(** What is accepted beyond them: fields behind a complete format, of a trade
    those behind an empty field. And what is not: a snapshot trade without
    original conditions. *)
Definition trailing (args : list bytes) (op : TradeOperation.t) : Prop :=
  ∃ format extra, args = format ++ extra ∧ extra ≠ [] ∧ documented format op ∧
    match op with TradeOperation.Add _ => head extra = Some [] | _ => True end.
Definition bare_snapshot (op : TradeOperation.t) : Prop :=
  ∃ t req, op = TradeOperation.Add t ∧ Trade.request_id t = Some req ∧ Trade.original_conditions t = [].

Lemma stop_cases (rest : list bytes) : stop rest → rest = [] ∨ rest ≠ [] ∧ head rest = Some [].
Proof. intros [->|[r ->]]; [by left|by right]. Qed.

Lemma gqt_layout_documented args op : layout args op → documented args op ∨ trailing args op.
Proof.
  unfold trailing.
  destruct 1 as [f1 f2 rest t Ht Hs|f1 f2 req rest t Ht Hne Hs|id rest|rest|rest Hs|req rest Hr].
  - apply stop_cases in Hs as [->|[Hr Hh]]; [left; rewrite app_nil_r; by constructor|right].
    exists (bs "A" :: f1 ++ f2), rest. rewrite <-app_comm_cons, (assoc_L (++)).
    split_and!; [done|done|by constructor|done].
  - apply stop_cases in Hs as [->|[Hr Hh]]; [left; rewrite app_nil_r; by constructor|right].
    exists (bs "A" :: f1 ++ req :: f2), rest.
    split_and!; [by rewrite <-app_comm_cons, <-(assoc_L (++)), <-app_comm_cons|done|by constructor|done].
  - destruct rest as [|x rest]; [left; constructor|right].
    exists [bs "D"; id], (x :: rest). split_and!; [done|done|constructor|done].
  - destruct rest as [|x rest]; [left; constructor|right].
    exists [bs "R"], (x :: rest). split_and!; [done|done|constructor|done].
  - apply stop_cases in Hs as [->|[Hr Hh]]; [left; constructor|right].
    exists [bs "E"], rest. split_and!; [done|done|constructor|done].
  - destruct rest as [|x rest]; [left; by constructor|right].
    exists [bs "E"; req], (x :: rest). split_and!; [done|done|by constructor|done].
Qed.

Lemma gqt_documented_layout args op : documented args op → layout args op ∨ bare_snapshot op.
Proof.
  destruct 1 as [f1 f2 t Ht|f1 f2 req t Ht|id| | |req Hr].
  - left. rewrite <-(app_nil_r f2). apply layout_subscribe; [done|by left].
  - destruct (decide (Trade.original_conditions t = [])) as [Hc|Hc].
    + right. exists t, req. split_and!; [done|by inversion Ht|done].
    + left. rewrite <-(app_nil_r f2). apply layout_snapshot; [done|done|by left].
  - left. constructor.
  - left. constructor.
  - left. constructor. by left.
  - left. by constructor.
Qed.

(** *** The drain loop *)

(** The fields the loop keeps, when [k] are collected already. *)
Fixpoint drained (k : nat) (ts : list bytes) : list bytes :=
  match ts with
  | [] => []
  | t :: ts' => if bool_decide (t = []) && (9 <=? k)%nat then [] else t :: drained (S k) ts'
  end.

Lemma drained_split k ts : ∃ rest, ts = drained k ts ++ rest ∧ stop rest.
Proof.
  revert k. induction ts as [|t ts IH]; intros k; cbn [drained].
  - exists []. split; [done|by left].
  - destruct (bool_decide (t = []) && (9 <=? k)%nat) eqn:E.
    + apply andb_true_iff in E as [->%bool_decide_eq_true _].
      exists ([] :: ts). split; [done|right; eauto].
    + destruct (IH (S k)) as (rest & Hr & Hs). exists rest.
      split; [|done]. simpl. by f_equal.
Qed.

Lemma drained_nonempty k ts i t :
  drained k ts !! i = Some t → (9 ≤ k + i)%nat → t ≠ [].
Proof.
  revert k i. induction ts as [|u ts IH]; intros k i; cbn [drained]; [done|].
  destruct (bool_decide (u = []) && (9 <=? k)%nat) eqn:E; [done|].
  destruct i as [|i]; simpl.
  - intros [= <-] Hk ->. rewrite bool_decide_eq_true_2 in E by done.
    apply Nat.leb_gt in E. lia.
  - intros Hi Hk. apply (IH (S k) i); [done|lia].
Qed.

(** At least nine fields of which the tenth on are not empty, up to a stop. *)
Lemma drained_app k ts rest :
  stop rest → (9 ≤ k + length ts)%nat →
  (∀ i t, ts !! i = Some t → (9 ≤ k + i)%nat → t ≠ []) → drained k (ts ++ rest) = ts.
Proof.
  intros Hst. revert k. induction ts as [|t ts IH]; intros k Hk Hne; cbn [drained app].
  - destruct Hst as [->|[r ->]]; [done|]. cbn [drained length] in *.
    rewrite (proj2 (Nat.leb_le 9 k)); [done|lia].
  - destruct (bool_decide (t = []) && (9 <=? k)%nat) eqn:E.
    + apply andb_true_iff in E as [->%bool_decide_eq_true E%Nat.leb_le].
      exfalso. apply (Hne 0%nat []); [done|lia|done].
    + f_equal. simpl in Hk. apply IH; [lia|]. intros i u Hi Hki.
      apply (Hne (S i)); [done|lia].
Qed.

Lemma single_byte_Ok b f c : single_byte b f = Ok c ↔ b = [c].
Proof. destruct b as [|x [|? ?]]; simpl; naive_solver. Qed.

Lemma read_trade_Ok req fields t :
  length fields = 9%nat →
  read_trade "A"%byte req fields = Ok t ↔ trade_fields req (take 6 fields) (drop 6 fields) t.
Proof.
  intros Hlen.
  destruct fields as [|time [|price [|buy [|sell [|qty [|id [|cond [|aggr [|orig [|? ?]]]]]]]]]];
    try discriminate Hlen.
  unfold read_trade, field. cbn [nth take drop]. split.
  - intros Hp. inv_ok Hp.
    repeat match goal with
    | H : parse_u32 _ _ = Ok _ |- _ => apply parse_u32_Ok in H
    | H : parse_u16 _ _ = Ok _ |- _ => apply parse_u16_Ok in H
    | H : parse_u64 _ _ = Ok _ |- _ => apply parse_u64_Ok in H
    | H : parse_f64 _ _ = Ok _ |- _ => apply parse_f64_Ok in H
    | H : single_byte _ _ = Ok _ |- _ => apply single_byte_Ok in H; subst
    end.
    injection Hp as <-. by constructor.
  - inversion 1; subst.
    repeat (rewrite result_bind_Ok; eexists; split;
      [first [by apply parse_u32_Ok|by apply parse_u16_Ok|by apply parse_u64_Ok
             |by apply parse_f64_Ok|by apply single_byte_Ok]|]).
    done.
Qed.

Section correctness.
Context `{MemchrSpec}.

Lemma drain_fields_accepts fuel : ∀ fields ts,
  (length ts < fuel)%nat →
  ∃ ts', accepts (drain_fields fuel fields) ts (fields ++ drained (length fields) ts) ts'.
Proof.
  induction fuel as [|fuel IH]; intros fields ts Hlt; [lia|].
  cbn [drain_fields]. destruct ts as [|t ts]; cbn [drained].
  - rewrite app_nil_r. eexists. scan_fwd.
  - destruct (bool_decide (t = []) && (9 <=? length fields)%nat) eqn:E.
    + rewrite app_nil_r. exists ts. eapply accepts_bind; [apply accepts_next_Some|].
      cbn beta iota. rewrite E. apply accepts_ret.
    + simpl in Hlt. destruct (IH (fields ++ [t]) ts) as [ts' Ha]; [lia|].
      exists ts'. eapply accepts_bind; [apply accepts_next_Some|]. cbn beta iota. rewrite E.
      rewrite length_app, Nat.add_1_r, <-(assoc_L (++)) in Ha. exact Ha.
Qed.

Lemma drain_fields_inv fuel s fields s' :
  (length (remaining s) < fuel)%nat →
  drain_fields fuel [] s = Ok (fields, s') → fields = drained 0 (remaining s).
Proof.
  intros Hlt Hd. destruct (drain_fields_accepts fuel [] (remaining s) Hlt) as [ts' Ha].
  destruct (Ha s eq_refl) as (s1 & Hs1 & _). simpl in Hs1. congruence.
Qed.

(** The two layouts, from the fields the loop kept. *)
Lemma add_layout ts req fields t :
  split_request_id (drained 0 ts) = Ok (req, fields) →
  read_trade "A"%byte req fields = Ok t → layout (bs "A" :: ts) (TradeOperation.Add t).
Proof.
  destruct (drained_split 0 ts) as (rest & Hts & Hstop).
  pose proof (drained_nonempty 0 ts 9) as Hne.
  unfold split_request_id. set (d := drained 0 ts) in *. clearbody d. subst ts.
  destruct (Nat.eqb_spec (length d) 9) as [Hlen|_];
    [|destruct (Nat.eqb_spec (length d) 10) as [Hlen|_]; [|done]].
  - intros [= <- <-] Hr. apply read_trade_Ok in Hr; [|done].
    rewrite <-(take_drop 6 d), <-(assoc_L (++)). by apply layout_subscribe.
  - intros [= <- <-] Hr. apply read_trade_Ok in Hr; [|by rewrite length_remove_at; lia].
    destruct d as [|? [|? [|? [|? [|? [|? [|rq d]]]]]]]; try discriminate Hlen.
    cbn in Hr. rewrite !drop_0 in Hr. change (take 0 d) with (@nil bytes) in Hr.
    apply (layout_snapshot [_; _; _; _; _; _] d rq rest); [done| |done].
    inversion Hr; subst. simpl. by apply (Hne _ eq_refl).
Qed.

Lemma gqt_parse_op_sound fuel code s op s' :
  (length (remaining s) < fuel)%nat →
  parse_op fuel code s = Ok (op, s') → layout (code :: remaining s) op.
Proof.
  unfold parse_op, parse_add. intros Hlt Hp. scan_inv.
  - match goal with H : drain_fields _ _ _ = Ok _ |- _ => apply drain_fields_inv in H; [|done] end.
    subst. eapply add_layout; eauto.
  - scan_rem. constructor.
  - constructor.
  - scan_rem. constructor. right. eauto.
  - scan_rem. by constructor.
  - scan_rem. constructor. by left.
Qed.

Lemma parse_add_complete fuel ts req fields t :
  (length ts < fuel)%nat → split_request_id (drained 0 ts) = Ok (req, fields) →
  read_trade "A"%byte req fields = Ok t →
  ∃ ts', accepts (parse_add fuel "A"%byte) ts (TradeOperation.Add t) ts'.
Proof.
  intros Hlt Hs Hr. destruct (drain_fields_accepts fuel [] ts Hlt) as [ts' Ha].
  exists ts'. unfold parse_add. eapply accepts_bind; [exact Ha|].
  eapply accepts_bind; [by apply accepts_lift|]. cbn beta iota.
  eapply accepts_bind; [by apply accepts_lift|]. apply accepts_ret.
Qed.

Lemma gqt_parse_op_complete fuel code ts op :
  (length ts < fuel)%nat → layout (code :: ts) op →
  ∃ ts', accepts (parse_op fuel code) ts op ts'.
Proof.
  intros Hlt Hl. unfold parse_op.
  inversion Hl as [f1 f2 rest t Ht Hst|f1 f2 req rest t Ht Hne Hst| | |? Hst|]; subst.
  3,4,6: eexists; scan_fwd.
  3: { destruct Hst as [->|[r ->]]; eexists; scan_fwd. }
  - rewrite bool_decide_eq_true_2 by done.
    assert (drained 0 (f1 ++ f2 ++ rest) = f1 ++ f2) as Hd.
    { rewrite (assoc_L (++)). inversion Ht; subst. apply drained_app; [done|simpl; lia|].
      intros i u Hu. apply lookup_lt_Some in Hu. simpl in *. lia. }
    apply (parse_add_complete _ _ None (f1 ++ f2)); [done| |].
    + rewrite Hd. by inversion Ht; subst.
    + inversion Ht; subst. by apply read_trade_Ok.
  - rewrite bool_decide_eq_true_2 by done.
    assert (drained 0 (f1 ++ req :: f2 ++ rest) = f1 ++ req :: f2) as Hd.
    { rewrite app_comm_cons, (assoc_L (++)).
      inversion Ht; subst. apply drained_app; [done|simpl; lia|].
      intros i u Hu Hi. pose proof (lookup_lt_Some _ _ _ Hu) as Hlt'. simpl in Hlt', Hi.
      replace i with 9%nat in Hu by lia. injection Hu as <-. done. }
    apply (parse_add_complete _ _ (Some req) (f1 ++ f2)); [done| |].
    + rewrite Hd. by inversion Ht; subst.
    + inversion Ht; subst. by apply read_trade_Ok.
Qed.

(** Up to [debug_parse]: the header plays no part. *)
Lemma gqt_parse_layout (frame : bytes) (m : ProtocolMessage.t) :
  parse frame = Ok m ↔
  ∃ header ticker args op,
    split_on colon frame = header :: ticker :: args ∧ layout args op ∧
    m = ProtocolMessage.Trade ticker op.
Proof.
  unfold parse. pose proof (length_split_on frame) as Hlen. split.
  - intros Hp. scan_inv.
    match goal with H : split_on _ _ = _ |- _ => rewrite H in Hlen |- * end.
    match goal with H : parse_op _ _ _ = Ok _ |- _ => apply gqt_parse_op_sound in H end.
    + scan_rem. eauto 10.
    + revert Hlen. scan_rem. simpl. lia.
  - intros (h & ticker & args & op & Hf & Hl & ->). rewrite Hf in Hlen. simpl in Hlen.
    destruct args as [|code ts]; [by inversion Hl|]. simpl in Hlen.
    apply (gqt_parse_op_complete (S (length frame))) in Hl as [ts' Hl]; [|lia].
    eapply run_accepts. rewrite Hf. scan_fwd.
Qed.

(** (C21) What the trade parser accepts. In a build with debug assertions it
    accepts exactly the frames with header [V], a ticker and the fields of
    [layout], and returns the operation they spell; a build without them does
    the same on every frame with that header. Up to two cases [layout] is
    [documented], the formats of api.md 6.1.3: a frame may go on behind a
    complete format, of a trade with an empty field and then anything at all, and
    a snapshot trade without original conditions is not accepted as one. A format
    fixes the fields and their widths, not their meaning: a time is any 32-bit
    number, and condition and aggressor codes without a row in 6.1.5 and 6.1.6 are
    kept as unknown, which the source has variants for. *)
Theorem gqt_parse_exact (frame : bytes) (m : ProtocolMessage.t) :
  (debug_parse frame = Some (Ok m) ↔
     ∃ ticker args op, split_on colon frame = bs "V" :: ticker :: args ∧ layout args op ∧
       m = ProtocolMessage.Trade ticker op) ∧
  (∀ fields, split_on colon frame = bs "V" :: fields → debug_parse frame = Some (parse frame)) ∧
  (∀ args op, layout args op → documented args op ∨ trailing args op) ∧
  (∀ args op, documented args op → layout args op ∨ bare_snapshot op).
Proof.
  unfold debug_parse. split_and!; [|intros fields Hs; by rewrite debug_build_eq, Hs
    |apply gqt_layout_documented|apply gqt_documented_layout].
  rewrite debug_build_Ok, gqt_parse_layout. split.
  - intros [[fields Hs] (h & ticker & args & op & Hs' & Hl & ->)]. rewrite Hs in Hs'. injection Hs' as <- ->. eauto 10.
  - intros (ticker & args & op & Hs & Hl & ->). split; [by eexists|]. eauto 10.
Qed.

(** What follows an empty field behind a trade is ignored, whatever it is,
    although the code means to drop a single empty field at the very end. *)
Theorem gqt_ignores_payload (frame header ticker : bytes) (f1 f2 rest : list bytes) (t : Trade.t) :
  split_on colon frame = header :: ticker :: bs "A" :: f1 ++ f2 ++ [] :: rest →
  trade_fields None f1 f2 t →
  parse frame = Ok (ProtocolMessage.Trade ticker (TradeOperation.Add t)).
Proof.
  intros Hf Ht. apply gqt_parse_layout. do 4 eexists. split; [exact Hf|]. split; [|done].
  apply layout_subscribe; [done|]. right. by eexists.
Qed.

(** A snapshot trade whose last field, the original conditions, is empty
    is not recognised as one: the drain loop drops the empty field wherever
    it stands after the ninth, so the request id is read as the condition
    code, the condition as the aggressor and the aggressor as the original
    conditions of a subscribe trade. *)
Theorem gqt_snapshot_misread
    (frame header ticker time price buy sell qty id req : bytes) (cond aggr : byte)
    (t p b s q r : Z) :
  split_on colon frame =
    [header; ticker; bs "A"; time; price; buy; sell; qty; id; req; [cond]; [aggr]; []] →
  is_dec u32_max time t → f64_from_str price = Some p → is_dec u32_max buy b →
  is_dec u32_max sell s → is_dec u64_max qty q → is_dec u16_max req r →
  parse frame = Ok (ProtocolMessage.Trade ticker (TradeOperation.Add
    (Trade.mk "A"%byte t p b s q id None (TradeCondition.from_code r)
       (TradeAggressor.from_byte cond) [aggr]))).
Proof.
  intros Hf Ht Hp Hb Hs Hq Hr. unfold parse.
  pose proof (length_split_on frame) as Hlen. rewrite Hf in Hlen. simpl in Hlen.
  destruct (parse_add_complete (S (length frame))
              [time; price; buy; sell; qty; id; req; [cond]; [aggr]; []] None
              [time; price; buy; sell; qty; id; req; [cond]; [aggr]]
              (Trade.mk "A"%byte t p b s q id None (TradeCondition.from_code r)
                 (TradeAggressor.from_byte cond) [aggr])) as [ts' Ha].
  - simpl. lia.
  - simpl. rewrite !andb_false_r. done.
  - apply read_trade_Ok; [done|]. by constructor.
  - eapply run_accepts. rewrite Hf. unfold parse_op. scan_fwd.
Qed.
End correctness.

Lemma gqt_parse_exact_witness :
  ∃ tk args op, split_on colon (bs "V:PETR4:A:110100:26.5:3:8:200:N1:RQ:0:A:RLP") = bs "V" :: tk :: args ∧
    layout args op ∧ (documented args op ∨ trailing args op).
Proof.
  destruct (@gqt_parse_exact memchr_reference memchr_reference_spec
    (bs "V:PETR4:A:110100:26.5:3:8:200:N1:RQ:0:A:RLP")
    (ProtocolMessage.Trade (bs "PETR4") (TradeOperation.Add
      (Trade.mk "A"%byte 110100 (f64_lit "26.5") 3 8 200 (bs "N1") (Some (bs "RQ"))
        (TradeCondition.from_code 0) (TradeAggressor.from_byte "A"%byte) (bs "RLP")))))
    as (Hex & _ & Hdoc & _).
  destruct (proj1 Hex ltac:(vm_compute; reflexivity)) as (tk & args & op & Hs & Hl & _).
  exists tk, args, op. split; [exact Hs|]. split; [exact Hl|exact (Hdoc args op Hl)].
Defined.

Lemma gqt_ignores_payload_witness :
  @parse memchr_reference (bs "V:PETR4:A:110100:26.5:3:8:200:N1:0:A:RLP::more:payload") =
    Ok (ProtocolMessage.Trade (bs "PETR4") (TradeOperation.Add
      (Trade.mk "A"%byte 110100 (f64_lit "26.5") 3 8 200 (bs "N1") None
        (TradeCondition.from_code 0) (TradeAggressor.from_byte "A"%byte) (bs "RLP")))).
Proof.
  apply (@gqt_ignores_payload memchr_reference memchr_reference_spec _ (bs "V") (bs "PETR4")
    [bs "110100"; bs "26.5"; bs "3"; bs "8"; bs "200"; bs "N1"] [bs "0"; bs "A"; bs "RLP"]
    [bs "more"; bs "payload"]); [vm_compute; reflexivity|].
  constructor; first [vm_compute; reflexivity|split_and!; [done|vm_compute; reflexivity..|vm_compute; done]].
Defined.

Lemma gqt_snapshot_misread_witness :
  @parse memchr_reference (bs "V:PETR4:A:110100:26.5:3:8:200:N1:77:0:A:") =
    Ok (ProtocolMessage.Trade (bs "PETR4") (TradeOperation.Add
      (Trade.mk "A"%byte 110100 (f64_lit "26.5") 3 8 200 (bs "N1") None
        (TradeCondition.from_code 77) (TradeAggressor.from_byte "0"%byte) (bs "A")))).
Proof.
  apply (@gqt_snapshot_misread memchr_reference memchr_reference_spec
    (bs "V:PETR4:A:110100:26.5:3:8:200:N1:77:0:A:") (bs "V") (bs "PETR4") (bs "110100")
    (bs "26.5") (bs "3") (bs "8") (bs "200") (bs "N1") (bs "77") "0"%byte "A"%byte);
  first [vm_compute; reflexivity|split_and!; [done|vm_compute; reflexivity..|vm_compute; done]].
Defined.
End Gqt.
