(* ===== verification/ParserMisc.v ===== *)
(** * The remaining parsers

    [Nem] (news), [Vap] (volume at price), [Gtc] (server time), [Mqc]
    (catalog), [Gpn] (brokers) and [Error] (wire errors): one Module per file
    of [cedro-protocol/src/parser], each with its wire grammar. *)

From S2P Require Import Prelude RustInt RustStr RustFloat Externs Types Scanner.

Import Scanner.

(** ** News ([nem.rs]) *)

Module Nem.
Section ops.
Context `{Memchr}.

Definition read_headline (pre_consumed_agency : option bytes) : scan NewsHeadline.t :=
  agency ← match pre_consumed_agency with
           | Some a => mret a
           | None => required "agency"
           end;
  code ← required "code";
  date_bytes ← required "news date";
  date ← lift (parse_u32 date_bytes "news date");
  time_bytes ← required "news time";
  time ← lift (parse_u32 time_bytes "news time");
  category_bytes ← required "news category";
  category ← lift (parse_u32 category_bytes "news category");
  title_len_bytes ← required "news title length";
  title ← take_rest;
  mret (NewsHeadline.mk agency code date time category title).

Definition parse_kind (kind : bytes) : scan NewsMessage.t :=
  if bool_decide (kind = bs "A") then
    h ← read_headline None; mret (NewsMessage.Headline h)
  else if bool_decide (kind = bs "L") then
    req_id ← required "request id";
    next ← required "agency or END";
    if bool_decide (next = bs "END") then mret (NewsMessage.HistoryEnd req_id)
    else
      headline ← read_headline (Some next);
      mret (NewsMessage.HistoryItem req_id headline)
  else if bool_decide (kind = bs "N") then
    request_id ← required "request id";
    agency ← required "agency";
    code ← required "code";
    body_raw ← take_rest;
    mret (NewsMessage.Body request_id agency code body_raw)
  else fail (ParseError.InvalidField "news kind" "expected A, L, or N").

Definition parse (frame : bytes) : result ParseError.t ProtocolMessage.t :=
  run (header ← required "O header";
       kind ← required "news kind";
       msg ← parse_kind kind;
       mret (ProtocolMessage.News msg)) frame.
Definition debug_parse : bytes → option (result ParseError.t ProtocolMessage.t) :=
  debug_build (bs "O") "O header" parse.
End ops.

(** The title is everything after the length field, colons included, and the
    length itself is not looked at. *)
Inductive headline : list bytes → NewsHeadline.t → Prop :=
  | headline_intro agency code date d time t category c len title :
      is_dec u32_max date d → is_dec u32_max time t → is_dec u32_max category c →
      headline (agency :: code :: date :: time :: category :: len :: title)
        (NewsHeadline.mk agency code d t c (join colon title)).

Inductive layout : list bytes → NewsMessage.t → Prop :=
  | layout_headline fields h :
      headline fields h → layout (bs "A" :: fields) (NewsMessage.Headline h)
  | layout_history req fields h :
      headline fields h → NewsHeadline.agency h ≠ bs "END" →
      layout (bs "L" :: req :: fields) (NewsMessage.HistoryItem req h)
  | layout_history_end req rest :
      layout (bs "L" :: req :: bs "END" :: rest) (NewsMessage.HistoryEnd req)
  | layout_body req agency code body :
      layout (bs "N" :: req :: agency :: code :: body)
        (NewsMessage.Body req agency code (join colon body)).

Section correctness.
Context `{MemchrSpec}.

Lemma read_headline_sound pre s h s' :
  read_headline pre s = Ok (h, s') →
  headline (match pre with Some a => a :: remaining s | None => remaining s end) h.
Proof.
  unfold read_headline. intros Hp. destruct pre; scan_inv; scan_rem; by constructor.
Qed.

Lemma read_headline_complete pre ts h :
  headline (match pre with Some a => a :: ts | None => ts end) h →
  ∃ ts', accepts (read_headline pre) ts h ts'.
Proof.
  unfold read_headline. destruct pre; intros Hh; inversion Hh; subst; eexists; scan_fwd.
Qed.

Lemma parse_kind_sound kind s msg s' :
  parse_kind kind s = Ok (msg, s') → layout (kind :: remaining s) msg.
Proof.
  unfold parse_kind. intros Hp. scan_inv.
  all: repeat match goal with H : read_headline _ _ = Ok _ |- _ => apply read_headline_sound in H end.
  all: scan_rem; try by constructor.
  constructor; [done|].
  match goal with Hh : headline _ _ |- _ => by inversion Hh; subst end.
Qed.

Lemma parse_kind_complete kind ts msg :
  layout (kind :: ts) msg → ∃ ts', accepts (parse_kind kind) ts msg ts'.
Proof.
  unfold parse_kind. inversion 1 as [? ? Hh|req fields h Hh Hne| |]; subst.
  - apply (read_headline_complete None) in Hh as [ts' Hh]. eexists. scan_fwd.
  - destruct fields as [|a fields]; [by inversion Hh|].
    assert (a ≠ bs "END") by (by inversion Hh; subst).
    apply (read_headline_complete (Some a)) in Hh as [ts' Hh]. eexists. scan_fwd.
  - eexists. scan_fwd.
  - eexists. scan_fwd.
Qed.

(** The news parser accepts exactly live headlines, history items and
    their [END] marker, and bodies. Titles and bodies are the rest of the
    frame verbatim, separators included: nothing of them is lost. *)
Theorem nem_parse_exact (frame : bytes) (m : ProtocolMessage.t) :
  parse frame = Ok m ↔
  ∃ header args msg,
    split_on colon frame = header :: args ∧ layout args msg ∧ m = ProtocolMessage.News msg.
Proof.
  unfold parse. split.
  - intros Hp. scan_inv.
    match goal with H : parse_kind _ _ = Ok _ |- _ => apply parse_kind_sound in H end.
    scan_rem. eauto 10.
  - intros (h & args & msg & Hf & Hl & ->).
    destruct args as [|kind ts]; [by inversion Hl|].
    apply parse_kind_complete in Hl as [ts' Hl].
    eapply run_accepts. rewrite Hf. scan_fwd.
Qed.
End correctness.

Lemma nem_parse_exact_witness :
  ∃ h args msg, split_on colon (bs "O:A:1:77:20240102:93000:5:11:Vale: alta") = h :: args ∧ layout args msg.
Proof.
  destruct (proj1 (@nem_parse_exact memchr_reference memchr_reference_spec
    (bs "O:A:1:77:20240102:93000:5:11:Vale: alta")
    (ProtocolMessage.News (NewsMessage.Headline
      (NewsHeadline.mk (bs "1") (bs "77") 20240102 93000 5 (bs "Vale: alta")))))
    ltac:(vm_compute; reflexivity)) as (h & args & msg & Hs & Hl & _).
  exists h, args, msg. split; [exact Hs|exact Hl].
Defined.
End Nem.

(** ** Volume at price ([vap.rs]) *)

Module Vap.
Section ops.
Context `{Memchr}.

(** Every numeric field is [0.0]. *)
Definition terminator (ticker : bytes) (period_minutes : option Z) : VapEntry.t :=
  VapEntry.mk ticker 0 0 0 0 0 0 0 0 0 period_minutes 0 0 0 0.

Definition read_terminator (ticker : bytes) : scan VapEntry.t :=
  p ← next_opt;
  period_minutes ←
    match p with
    | Some p =>
        if bool_decide (p = []) then mret None
        else n ← lift (parse_u32 p "vap period"); mret (Some n)
    | None => mret None
    end;
  mret (terminator ticker period_minutes).

Definition read_data (ticker third : bytes) : scan VapEntry.t :=
  price ← lift (parse_f64 third "vap price");
  buyer_trades ← required_f64 "vap buyer_trades";
  buyer_volume ← required_f64 "vap buyer_volume";
  seller_trades ← required_f64 "vap seller_trades";
  seller_volume ← required_f64 "vap seller_volume";
  direct_trades ← required_f64 "vap direct_trades";
  direct_volume ← required_f64 "vap direct_volume";
  undefined_trades ← required_f64 "vap undefined_trades";
  undefined_volume ← required_f64 "vap undefined_volume";
  period_raw ← required "vap period";
  period_minutes ←
    (if bool_decide (period_raw = bs "0" ∨ period_raw = []) then mret None
     else n ← lift (parse_u32 period_raw "vap period"); mret (Some n));
  rlp_trades ← required_f64 "vap rlp_trades";
  rlp_volume ← required_f64 "vap rlp_volume";
  auction_trades ← required_f64 "vap auction_trades";
  auction_volume ← required_f64 "vap auction_volume";
  mret (VapEntry.mk ticker price buyer_trades buyer_volume seller_trades seller_volume
          direct_trades direct_volume undefined_trades undefined_volume period_minutes
          rlp_trades rlp_volume auction_trades auction_volume).

Definition parse (frame : bytes) : result ParseError.t ProtocolMessage.t :=
  run (header ← required "VAP header";
       ticker ← required "ticker";
       third ← required "price or terminator";
       entry ← (if bool_decide (third = bs "E") then read_terminator ticker
                else read_data ticker third);
       mret (ProtocolMessage.Vap entry)) frame.
Definition debug_parse : bytes → option (result ParseError.t ProtocolMessage.t) :=
  debug_build (bs "VAP") "VAP header" parse.
End ops.

(** The period of a data line: [0] and nothing mean no window. *)
Inductive period : bytes → option Z → Prop :=
  | period_zero : period (bs "0") None
  | period_empty : period [] None
  | period_minutes raw n :
      raw ≠ bs "0" → is_dec u32_max raw n → period raw (Some n).

Inductive layout (ticker : bytes) : list bytes → VapEntry.t → Prop :=
  | layout_end : layout ticker [bs "E"] (terminator ticker None)
  | layout_end_empty rest : layout ticker (bs "E" :: [] :: rest) (terminator ticker None)
  | layout_end_period p n rest :
      is_dec u32_max p n → layout ticker (bs "E" :: p :: rest) (terminator ticker (Some n))
  | layout_data f0 f1 f2 f3 f4 f5 f6 f7 f8 p f9 f10 f11 f12 rest
      x0 x1 x2 x3 x4 x5 x6 x7 x8 n x9 x10 x11 x12 :
      f64_from_str f0 = Some x0 → f64_from_str f1 = Some x1 → f64_from_str f2 = Some x2 →
      f64_from_str f3 = Some x3 → f64_from_str f4 = Some x4 → f64_from_str f5 = Some x5 →
      f64_from_str f6 = Some x6 → f64_from_str f7 = Some x7 → f64_from_str f8 = Some x8 →
      period p n →
      f64_from_str f9 = Some x9 → f64_from_str f10 = Some x10 → f64_from_str f11 = Some x11 →
      f64_from_str f12 = Some x12 →
      layout ticker
        (f0 :: f1 :: f2 :: f3 :: f4 :: f5 :: f6 :: f7 :: f8 :: p :: f9 :: f10 :: f11 :: f12 :: rest)
        (VapEntry.mk ticker x0 x1 x2 x3 x4 x5 x6 x7 x8 n x9 x10 x11 x12).

Section correctness.
Context `{MemchrSpec}.

Lemma not_terminator f x : f64_from_str f = Some x → f ≠ bs "E".
Proof. intros Hf ->. discriminate Hf. Qed.

Lemma is_dec_not_nil hi n : ¬ is_dec hi [] n.
Proof. by intros []. Qed.

(** The volume-at-price parser accepts exactly the data line (price,
    eight totals, period and four more totals, all readable floats) and the
    [E] terminator with an optional period; a price is never mistaken for a
    terminator because no float reads as [E]. *)
Theorem vap_parse_exact (frame : bytes) (m : ProtocolMessage.t) :
  parse frame = Ok m ↔
  ∃ header ticker args e,
    split_on colon frame = header :: ticker :: args ∧ layout ticker args e ∧
    m = ProtocolMessage.Vap e.
Proof.
  unfold parse, read_terminator, read_data. split.
  - intros Hp. scan_inv.
    all: scan_rem; eexists _, _, _, _; split; [done|]; split; [|done].
    all: try by constructor.
    all: apply layout_data; try done; [].
    + match goal with Hz : _ = bs "0" ∨ _ |- _ => destruct Hz as [Hz|Hz]; rewrite Hz end; constructor.
    + constructor; [naive_solver|done].
  - intros (h & ticker & args & e & Hf & Hl & ->).
    destruct Hl as [| |p n rest Hn|].
    all: eapply run_accepts; rewrite Hf.
    1,2: scan_fwd.
    + assert (p ≠ []) by (intros ->; by apply is_dec_not_nil in Hn). scan_fwd.
    + match goal with Hx : f64_from_str f0 = Some _ |- _ => pose proof (not_terminator _ _ Hx) end.
      match goal with Hp : period _ _ |- _ => destruct Hp as [| |raw k Hraw Hk] end.
      1,2: scan_fwd.
      assert (¬ (raw = bs "0" ∨ raw = [])).
      { intros [?| ->]; [done|]. by apply is_dec_not_nil in Hk. }
      scan_fwd.
Qed.
End correctness.

Lemma vap_parse_exact_witness :
  ∃ h tk args e, split_on colon (bs "VAP:PETR4:E:5") = h :: tk :: args ∧ layout tk args e.
Proof.
  destruct (proj1 (@vap_parse_exact memchr_reference memchr_reference_spec
    (bs "VAP:PETR4:E:5") (ProtocolMessage.Vap (terminator (bs "PETR4") (Some 5))))
    ltac:(vm_compute; reflexivity)) as (h & tk & args & e & Hs & Hl & _).
  exists h, tk, args, e. split; [exact Hs|exact Hl].
Defined.
End Vap.

(** ** Server time ([gtc.rs]) *)

Module Gtc.
Section ops.
Context `{Memchr}.

Definition read_payload (payload : bytes) : result ParseError.t ServerTime.t :=
  if negb (length payload =? 14)%nat then
    Err (ParseError.InvalidField "server time" "expected 14-digit YYYYMMDDHHMMSS")
  else
    date ← parse_u32 (take 8 payload) "GTC date";
    time ← parse_u32 (drop 8 payload) "GTC time";
    Ok (ServerTime.mk date time).

Definition parse (frame : bytes) : result ParseError.t ProtocolMessage.t :=
  run (header ← required "GTC header";
       payload ← required "server time payload";
       s ← lift (read_payload payload);
       mret (ProtocolMessage.ServerTime s)) frame.
Definition debug_parse : bytes → option (result ParseError.t ProtocolMessage.t) :=
  debug_build (bs "GTC") "GTC header" parse.
End ops.

Inductive layout : list bytes → ServerTime.t → Prop :=
  | layout_intro date d time t rest :
      length date = 8%nat → length time = 6%nat →
      is_dec u32_max date d → is_dec u32_max time t →
      layout ((date ++ time) :: rest) (ServerTime.mk d t).

Lemma read_payload_Ok payload s rest :
  read_payload payload = Ok s ↔ layout (payload :: rest) s.
Proof.
  unfold read_payload. destruct (Nat.eqb_spec (length payload) 14) as [Hl|Hl]; simpl.
  - split.
    + intros Hp. inv_ok Hp. injection Hp as <-. apply parse_u32_Ok in Ha, Ha0.
      rewrite <-(take_drop 8 payload) at 1. apply layout_intro; [| |done..].
      * rewrite length_take. lia.
      * rewrite length_drop. lia.
    + inversion 1 as [date d time t ? Hd Ht Hdd Htt]; subst.
      rewrite <-Hd, take_app_length, drop_app_length, !result_bind_Ok.
      exists d. split; [by apply parse_u32_Ok|]. apply result_bind_Ok.
      exists t. split; [by apply parse_u32_Ok|done].
  - split; [done|]. inversion 1; subst. rewrite length_app in Hl. lia.
Qed.

Lemma gtc_parse_Ok `{MemchrSpec} frame m :
  parse frame = Ok m ↔
  ∃ header args s, split_on colon frame = header :: args ∧ layout args s ∧
    m = ProtocolMessage.ServerTime s.
Proof.
  unfold parse. split.
  - intros Hp. scan_inv. scan_rem.
    match goal with Hr : read_payload _ = Ok _ |- _ => eapply read_payload_Ok in Hr end. eauto 10.
  - intros (h & args & s & Hf & Hl & ->). destruct args as [|payload ts]; [by inversion Hl|].
    apply read_payload_Ok in Hl. eapply run_accepts. rewrite Hf. scan_fwd.
Qed.
End Gtc.

(** ** Catalog ([mqc.rs]) *)

Module Mqc.
Section ops.
Context `{Memchr}.

(** [third == b"E" && scanner.next().is_none()]. *)
Definition is_end (third : bytes) : scan bool :=
  if bool_decide (third = bs "E") then
    next ← next_opt; mret (bool_decide (next = None))
  else mret false.

Definition parse (frame : bytes) : result ParseError.t ProtocolMessage.t :=
  run (header ← required "C header";
       market ← required "market";
       third ← required "ticker or end-sentinel";
       e ← is_end third;
       mret (ProtocolMessage.MqcItem
         (if (e : bool) then MqcItem.End_ market else MqcItem.Symbol market third))) frame.
Definition debug_parse : bytes → option (result ParseError.t ProtocolMessage.t) :=
  debug_build (bs "C") "C header" parse.
End ops.

(** A ticker named [E] is a symbol exactly when something follows it. *)
Inductive layout : list bytes → MqcItem.t → Prop :=
  | layout_end market : layout [market; bs "E"] (MqcItem.End_ market)
  | layout_symbol market ticker rest :
      (ticker = bs "E" → rest ≠ []) →
      layout (market :: ticker :: rest) (MqcItem.Symbol market ticker).

Lemma mqc_parse_Ok `{MemchrSpec} frame m :
  parse frame = Ok m ↔
  ∃ header args i, split_on colon frame = header :: args ∧ layout args i ∧
    m = ProtocolMessage.MqcItem i.
Proof.
  unfold parse, is_end. split.
  - intros Hp. scan_inv; scan_rem.
    + case_bool_decide; [done|]. eexists _, _, _. split; [done|]. split; [|done].
      constructor. done.
    + rewrite bool_decide_eq_true_2 by done. eexists _, _, _.
      split; [done|]. split; [constructor|done].
    + eexists _, _, _. split; [done|]. split; [by constructor|done].
  - intros (h & args & i & Hf & Hl & ->).
    destruct Hl as [market|market ticker rest Hne].
    + eapply run_accepts. rewrite Hf. scan_fwd.
    + destruct (decide (ticker = bs "E")) as [->|].
      * destruct rest as [|r rest]; [by destruct Hne|].
        eapply run_accepts. rewrite Hf. scan_fwd.
      * eapply run_accepts. rewrite Hf. scan_fwd.
Qed.
End Mqc.

(** ** Broker dictionary ([gpn.rs]) *)

Module Gpn.
Section ops.
Context `{Memchr}.

Definition active_flag (b : bytes) : result ParseError.t bool :=
  if bool_decide (b = bs "1") then Ok true
  else if bool_decide (b = bs "0") then Ok false
  else Err (ParseError.InvalidField "active flag" "expected '0' or '1'").

Definition parse (frame : bytes) : result ParseError.t ProtocolMessage.t :=
  run (header ← required "G header";
       exchange ← required "exchange";
       code ← required "broker code";
       name ← required "broker name";
       cedro_id ← required "cedro id";
       active_field ← required "active flag";
       active ← lift (active_flag active_field);
       mret (ProtocolMessage.GpnItem (GpnItem.mk exchange code name cedro_id active))) frame.
Definition debug_parse : bytes → option (result ParseError.t ProtocolMessage.t) :=
  debug_build (bs "G") "G header" parse.
End ops.

Inductive layout : list bytes → GpnItem.t → Prop :=
  | layout_intro exchange code name cedro_id (active : bool) rest :
      layout (exchange :: code :: name :: cedro_id :: bs (if active then "1" else "0") :: rest)
        (GpnItem.mk exchange code name cedro_id active).

Lemma active_flag_Ok b f : active_flag b = Ok f ↔ b = bs (if f then "1" else "0").
Proof.
  unfold active_flag. case_bool_decide; [|case_bool_decide]; subst; destruct f;
    split; intros; simplify_eq/=; done.
Qed.
#[export] Hint Extern 2 (active_flag _ = Ok _) => apply active_flag_Ok : scan.

Lemma gpn_parse_Ok `{MemchrSpec} frame m :
  parse frame = Ok m ↔
  ∃ header args i, split_on colon frame = header :: args ∧ layout args i ∧
    m = ProtocolMessage.GpnItem i.
Proof.
  unfold parse. split.
  - intros Hp. scan_inv. scan_rem.
    match goal with Ha : active_flag _ = Ok _ |- _ => apply active_flag_Ok in Ha; subst end.
    eexists _, _, _. split; [done|]. split; [constructor|done].
  - intros (h & args & i & Hf & Hl & ->). destruct Hl.
    eapply run_accepts. rewrite Hf. scan_fwd.
Qed.
End Gpn.

(** ** Wire errors ([error.rs]) *)

Module Error.
Section ops.
Context `{Memchr}.

Definition parse (frame : bytes) : result ParseError.t ProtocolMessage.t :=
  run (header ← required "E header";
       code_bytes ← required "error code";
       code ← lift (parse_u16 code_bytes "error code");
       context ← collect;
       mret (ProtocolMessage.Error (CedroError.mk code context))) frame.
Definition debug_parse : bytes → option (result ParseError.t ProtocolMessage.t) :=
  debug_build (bs "E") "E header" parse.
End ops.

Inductive layout : list bytes → CedroError.t → Prop :=
  | layout_intro code n context :
      is_dec u16_max code n → layout (code :: context) (CedroError.mk n context).

Lemma error_parse_Ok `{MemchrSpec} frame m :
  parse frame = Ok m ↔
  ∃ header args e, split_on colon frame = header :: args ∧ layout args e ∧
    m = ProtocolMessage.Error e.
Proof.
  unfold parse. split.
  - intros Hp. scan_inv. scan_rem.
    match goal with Hc : collect ?s = Ok _ |- _ =>
      destruct (collect_spec s) as (? & Hc' & _); rewrite Hc in Hc'; simplify_eq end.
    eexists _, _, _. split; [done|]. split; [by constructor|done].
  - intros (h & args & e & Hf & Hl & ->). destruct Hl.
    eapply run_accepts. rewrite Hf. scan_fwd.
Qed.
End Error.

(** The four flat parsers are exact: server time takes fourteen digits
    split eight and six; a catalog line is the end marker exactly when its
    last field is [E]; a broker's activity flag is [0] or [1]; a wire error
    keeps every context field in order, so the context can be joined back. *)
Theorem flat_parsers_exact `{MemchrSpec} (frame : bytes) (m : ProtocolMessage.t) :
  (Gtc.parse frame = Ok m ↔ ∃ h args s, split_on colon frame = h :: args ∧
     Gtc.layout args s ∧ m = ProtocolMessage.ServerTime s) ∧
  (Mqc.parse frame = Ok m ↔ ∃ h args i, split_on colon frame = h :: args ∧
     Mqc.layout args i ∧ m = ProtocolMessage.MqcItem i) ∧
  (Gpn.parse frame = Ok m ↔ ∃ h args i, split_on colon frame = h :: args ∧
     Gpn.layout args i ∧ m = ProtocolMessage.GpnItem i) ∧
  (Error.parse frame = Ok m ↔ ∃ h args e, split_on colon frame = h :: args ∧
     Error.layout args e ∧ m = ProtocolMessage.Error e).
Proof.
  split_and!; [apply Gtc.gtc_parse_Ok|apply Mqc.mqc_parse_Ok|apply Gpn.gpn_parse_Ok|apply Error.error_parse_Ok].
Qed.

Lemma flat_parsers_exact_witness :
  ∃ h args i, split_on colon (bs "C:BOVESPA:E:1") = h :: args ∧ Mqc.layout args i.
Proof.
  destruct (@flat_parsers_exact memchr_reference memchr_reference_spec (bs "C:BOVESPA:E:1")
    (ProtocolMessage.MqcItem (MqcItem.Symbol (bs "BOVESPA") (bs "E")))) as (_ & Hm & _ & _).
  destruct (proj1 Hm ltac:(vm_compute; reflexivity)) as (h & args & i & Hs & Hl & _).
  exists h, args, i. split; [exact Hs|exact Hl].
Defined.
