(* ===== verification/Parser.v ===== *)
(** * Frame dispatch ([parser/mod.rs])

    [parse_frame] picks the parser by the header of the frame. *)

From S2P Require Import Prelude RustInt RustStr Externs Types Frame Scanner.
From S2P Require Import ParserBook ParserQuote ParserTrade ParserMisc.

Section dispatch.
Context `{Memchr}.

(** The body of [parse_frame] over the parsers it calls. *)
Definition route {A} (empty : A) (sqt bqt sab gqt nem vap gtc mqc gpn error unknown : bytes → A)
    (frame : bytes) : A :=
  if bool_decide (frame = []) then empty
  else if starts_with (bs "T:") frame then sqt frame
  else if starts_with (bs "B:") frame then bqt frame
  else if starts_with (bs "Z:") frame then sab frame
  else if starts_with (bs "V:") frame then gqt frame
  else if starts_with (bs "O:") frame then nem frame
  else if starts_with (bs "VAP:") frame then vap frame
  else if starts_with (bs "GTC:") frame then gtc frame
  else if starts_with (bs "C:") frame then mqc frame
  else if starts_with (bs "G:") frame then gpn frame
  else if starts_with (bs "E:") frame then error frame
  else unknown frame.

Definition parse_frame (kind : FrameKind.t) : bytes → result ParseError.t ProtocolMessage.t :=
  route (Err ParseError.Empty) Sqt.parse Bqt.parse Sab.parse Gqt.parse Nem.parse Vap.parse Gtc.parse
    Mqc.parse Gpn.parse Error.parse (λ frame, Err (ParseError.UnknownHeader frame)).

(** The same in a build with debug assertions, where a failed assertion of a
    parser is a panic ([None]). *)
Definition debug_parse_frame (kind : FrameKind.t)
    : bytes → option (result ParseError.t ProtocolMessage.t) :=
  route (Some (Err ParseError.Empty)) Sqt.debug_parse Bqt.debug_parse Sab.debug_parse Gqt.debug_parse
    Nem.debug_parse Vap.debug_parse Gtc.debug_parse Mqc.debug_parse Gpn.debug_parse Error.debug_parse
    (λ frame, Some (Err (ParseError.UnknownHeader frame))).

(** The parsers by header field. *)
Definition parsers : list (bytes * (bytes → result ParseError.t ProtocolMessage.t)) :=
  [(bs "T", Sqt.parse); (bs "B", Bqt.parse); (bs "Z", Sab.parse); (bs "V", Gqt.parse);
   (bs "O", Nem.parse); (bs "VAP", Vap.parse); (bs "GTC", Gtc.parse); (bs "C", Mqc.parse);
   (bs "G", Gpn.parse); (bs "E", Error.parse)].

Fixpoint parser_for (header : bytes)
    (table : list (bytes * (bytes → result ParseError.t ProtocolMessage.t)))
    : option (bytes → result ParseError.t ProtocolMessage.t) :=
  match table with
  | [] => None
  | (h, p) :: table' => if bool_decide (h = header) then Some p else parser_for header table'
  end.

(** Dispatch by the first of at least two fields. *)
Definition dispatch (frame : bytes) : result ParseError.t ProtocolMessage.t :=
  match split_on colon frame with
  | header :: _ :: _ =>
      match parser_for header parsers with
      | Some parse => parse frame
      | None => Err (ParseError.UnknownHeader frame)
      end
  | _ => Err (ParseError.UnknownHeader frame)
  end.
End dispatch.

(** A frame starts with a header and a colon when the header is the first of
    at least two fields. *)
Lemma starts_with_header h frame :
  colon ∉ h →
  starts_with (h ++ [colon]) frame =
  match split_on colon frame with h' :: _ :: _ => bool_decide (h = h') | _ => false end.
Proof.
  intros Hh. apply eq_iff_eq_true. rewrite starts_with_spec. split.
  - intros [k ->]. rewrite <-(assoc_L (++)). simpl. rewrite split_on_app_sep by done.
    destruct (split_on colon k) eqn:E; [by apply split_on_not_nil in E|].
    by apply bool_decide_eq_true.
  - intros Hs. pose proof (join_split_on colon frame) as Hj.
    destruct (split_on colon frame) as [|h' [|f fs]]; try done.
    apply bool_decide_eq_true in Hs as ->. rewrite <-Hj.
    exists (join colon (f :: fs)). rewrite <-(assoc_L (++)). done.
Qed.

Lemma header_no_colon h : forallb (λ c, negb (bool_decide (c = colon))) h = true → colon ∉ h.
Proof.
  intros Hh Hin. rewrite forallb_forall in Hh. apply list_elem_of_In, Hh in Hin.
  by rewrite bool_decide_eq_true_2 in Hin.
Qed.

(** Replaces the prefix test by the test on the first field. *)
Ltac by_header h := change (bs (h ++ ":")) with (bs h ++ [colon]);
  rewrite (starts_with_header (bs h)) by (by apply header_no_colon).

(** Dispatch depends on the header field alone: [parse_frame] rejects the
    empty frame, hands every other frame to the parser of its first field when
    a colon follows it, and rejects the rest as an unknown header. No header
    shadows another although the code compares prefixes in sequence, so each
    parser only ever sees frames with its own header; the terminator kind the
    splitter saw plays no part. *)
Theorem parse_frame_dispatch `{Memchr} (kind : FrameKind.t) (frame : bytes) :
  parse_frame kind frame = if bool_decide (frame = []) then Err ParseError.Empty else dispatch frame.
Proof.
  unfold parse_frame, route, dispatch. case_bool_decide; [done|].
  by_header "T". by_header "B". by_header "Z". by_header "V". by_header "O".
  by_header "VAP". by_header "GTC". by_header "C". by_header "G". by_header "E".
  destruct (split_on colon frame) as [|h [|? ?]]; [done..|].
  cbn [parser_for parsers].
  repeat (case_bool_decide; [done|]). done.
Qed.

(** ** Debug builds *)

Lemma debug_build_header `{MemchrSpec} {A} h rest field (parse : bytes → result ParseError.t A) frame :
  split_on colon frame = h :: rest → debug_build h field parse frame = Some (parse frame).
Proof. intros Hs. rewrite debug_build_eq, Hs. by rewrite bool_decide_eq_true_2. Qed.

(** (C25) The assertions of the parsers hold. Each of the ten parsers asserts that
    the header it reads is its own, which a build with debug assertions checks at
    run time; [parse_frame] only ever calls a parser on a frame with that header,
    so that no frame, however malformed, makes such a build panic, and it returns
    what a build without the assertions returns. *)
Theorem parser_assertions_hold `{MemchrSpec} (kind : FrameKind.t) (frame : bytes) :
  debug_parse_frame kind frame = Some (parse_frame kind frame).
Proof.
  unfold debug_parse_frame, parse_frame, route. case_bool_decide; [done|].
  by_header "T". by_header "B". by_header "Z". by_header "V". by_header "O".
  by_header "VAP". by_header "GTC". by_header "C". by_header "G". by_header "E".
  destruct (split_on colon frame) as [|h [|f fs]] eqn:Hs; [done..|].
  repeat (case_bool_decide as Hh; [subst h; by eapply debug_build_header|clear Hh]). done.
Qed.

Lemma parser_assertions_hold_witness :
  @debug_parse_frame memchr_reference FrameKind.Bang (bs "B:PETR4:Q") =
    Some (Err (ParseError.InvalidField "book op" "expected A, U, D, or E")).
Proof.
  pose proof (@parser_assertions_hold memchr_reference memchr_reference_spec FrameKind.Bang
    (bs "B:PETR4:Q")) as Hd.
  rewrite Hd. vm_compute. reflexivity.
Defined.
