(* ===== verification/OrderBook.v ===== *)
(** * Per-ticker order book ([market-engine/src/book/order_book.rs])

    [OrderBook] is the book as the code keeps it: two vectors and an index
    from order ids to positions, every mutation updating both. [Spec] is the
    positional book the feed describes. [vectors_refine_spec] relates the two;
    [index_ok] is the invariant that the index and the vectors agree. *)

From S2P Require Import Prelude RustInt RustStr RustFloat Enums Types.

Module OrderBookStats.
Record t : Type := mk {
  bids : nat;
  asks : nat;
}.
End OrderBookStats.

Module OrderBook.

Record t : Type := mk {
  bids : list BookEntry.t;
  asks : list BookEntry.t;
  by_order_id : gmap bytes (Side.t * nat);
  initialised : bool;
}.

Definition default : t := mk [] [] ∅ false.

(** [vec_mut], as a getter and a setter. *)
Definition vec (side : Side.t) (b : t) : list BookEntry.t :=
  match side with Side.Buy => bids b | Side.Sell => asks b end.
Definition set_vec (side : Side.t) (v : list BookEntry.t) (b : t) : t :=
  match side with
  | Side.Buy => mk v (asks b) (by_order_id b) (initialised b)
  | Side.Sell => mk (bids b) v (by_order_id b) (initialised b)
  end.
Definition set_index (m : gmap bytes (Side.t * nat)) (b : t) : t :=
  mk (bids b) (asks b) m (initialised b).

(** [position as usize]. *)
Definition usize (position : Z) : nat := Z.to_nat position.

Definition shift_value (side : Side.t) (from : nat) (by_ : Z) (v : Side.t * nat) : Side.t * nat :=
  let '(s, i) := v in
  if bool_decide (s = side) && (from <=? i)%nat then
    let new := Z.of_nat i + by_ in
    if 0 <=? new then (s, Z.to_nat new) else (s, i)
  else (s, i).
Definition shift_indices_after (side : Side.t) (from : nat) (by_ : Z) (b : t) : t :=
  set_index (shift_value side from by_ <$> by_order_id b) b.

Definition index_insert (id : option bytes) (v : Side.t * nat) (b : t) : t :=
  match id with Some id => set_index (<[id := v]> (by_order_id b)) b | None => b end.
Definition index_remove (id : option bytes) (b : t) : t :=
  match id with Some id => set_index (base.delete id (by_order_id b)) b | None => b end.

Definition add (entry : BookEntry.t) (b : t) : t :=
  let side := BookEntry.side entry in
  let pos := usize (BookEntry.position entry) in
  let v := vec side b in
  let b :=
    if (length v <=? pos)%nat then set_vec side (v ++ [entry]) b
    else shift_indices_after side pos 1 (set_vec side (insert_at pos entry v) b) in
  let idx := (pos `min` (length (vec side b) - 1))%nat in
  index_insert (BookEntry.order_id entry) (side, idx) b.

Definition update (old_pos : Z) (entry : BookEntry.t) (b : t) : t :=
  let side := BookEntry.side entry in
  let new_pos := usize (BookEntry.position entry) in
  let old_pos := usize old_pos in
  let v := vec side b in
  match v !! old_pos with
  | None => add entry b
  | Some removed =>
      let b := shift_indices_after side old_pos (-1) (set_vec side (remove_at old_pos v) b) in
      let b := index_remove (BookEntry.order_id removed) b in
      let v := vec side b in
      let b :=
        if (length v <=? new_pos)%nat then set_vec side (v ++ [entry]) b
        else shift_indices_after side new_pos 1 (set_vec side (insert_at new_pos entry v) b) in
      let final_pos := (new_pos `min` (length (vec side b) - 1))%nat in
      index_insert (BookEntry.order_id entry) (side, final_pos) b
  end.

Definition delete (d : BookDelete.t) (b : t) : t :=
  match d with
  | BookDelete.Single side position =>
      let pos := usize position in
      match vec side b !! pos with
      | None => b
      | Some removed =>
          index_remove (BookEntry.order_id removed)
            (shift_indices_after side pos (-1) (set_vec side (remove_at pos (vec side b)) b))
      end
  | BookDelete.PrefixInclusive side position =>
      let pos := usize position in
      let v := vec side b in
      let end_ := ((pos + 1) `min` length v)%nat in
      let drained := take end_ v in
      let b := set_vec side (drop end_ v) b in
      let b := foldl (λ b e, index_remove (BookEntry.order_id e) b) b drained in
      shift_indices_after side 0 (- Z.of_nat end_) b
  | BookDelete.ClearAll => mk [] [] ∅ (initialised b)
  end.

(** The new book and the returned flag. *)
Definition apply (op : BookOp.t) (b : t) : bool * t :=
  let b :=
    match op with
    | BookOp.Add entry => add entry b
    | BookOp.Update old_pos entry => update old_pos entry b
    | BookOp.Delete d => delete d b
    | BookOp.EndOfInitial => mk (bids b) (asks b) (by_order_id b) true
    end in
  (initialised b, b).

Definition stats (b : t) : OrderBookStats.t :=
  OrderBookStats.mk (length (bids b)) (length (asks b)).
Definition best_bid (b : t) : option BookEntry.t := head (bids b).
Definition best_ask (b : t) : option BookEntry.t := head (asks b).
Definition is_initialised (b : t) : bool := initialised b.

Definition apply_all (ops : list BookOp.t) (b : t) : t := foldl (λ b op, (apply op b).2) b ops.

End OrderBook.

(** ** The positional specification *)

Module Spec.

(** A book is a list per side, best price first. *)
Definition t : Type := Side.t → list BookEntry.t.
Definition empty : t := λ _, [].

Definition upd (side : Side.t) (v : list BookEntry.t) (b : t) : t :=
  λ s, if decide (s = side) then v else b s.

(** Insertion at a position beyond the end is insertion at the end. *)
Definition place (e : BookEntry.t) (v : list BookEntry.t) : list BookEntry.t :=
  insert_at (Z.to_nat (BookEntry.position e) `min` length v)%nat e v.

Definition apply (op : BookOp.t) (b : t) : t :=
  match op with
  | BookOp.Add e => upd (BookEntry.side e) (place e (b (BookEntry.side e))) b
  | BookOp.Update old e =>
      upd (BookEntry.side e)
        (place e (remove_at (Z.to_nat old) (b (BookEntry.side e)))) b
  | BookOp.Delete (BookDelete.Single s p) => upd s (remove_at (Z.to_nat p) (b s)) b
  | BookOp.Delete (BookDelete.PrefixInclusive s p) => upd s (drop (S (Z.to_nat p)) (b s)) b
  | BookOp.Delete BookDelete.ClearAll => empty
  | BookOp.EndOfInitial => b
  end.
End Spec.

Section refinement.
Import OrderBook.

Lemma vec_set_vec s s' v b : vec s (set_vec s' v b) = if decide (s = s') then v else vec s b.
Proof. by destruct s, s'. Qed.
Lemma vec_set_index s m b : vec s (set_index m b) = vec s b.
Proof. by destruct s. Qed.
Lemma vec_shift s s' f k b : vec s (shift_indices_after s' f k b) = vec s b.
Proof. apply vec_set_index. Qed.
Lemma vec_index_insert s id v b : vec s (index_insert id v b) = vec s b.
Proof. destruct id; [apply vec_set_index|done]. Qed.
Lemma vec_index_remove s id b : vec s (index_remove id b) = vec s b.
Proof. destruct id; [apply vec_set_index|done]. Qed.
Lemma vec_index_remove_all s l b :
  vec s (foldl (λ b e, index_remove (BookEntry.order_id e) b) b l) = vec s b.
Proof.
  revert b. induction l as [|e l IH]; intros b; simpl; [done|].
  by rewrite IH, vec_index_remove.
Qed.

Lemma initialised_shift s f k b : initialised (shift_indices_after s f k b) = initialised b.
Proof. done. Qed.
Lemma initialised_set_vec s v b : initialised (set_vec s v b) = initialised b.
Proof. by destruct s. Qed.
Lemma initialised_index_insert id v b : initialised (index_insert id v b) = initialised b.
Proof. by destruct id. Qed.
Lemma initialised_index_remove id b : initialised (index_remove id b) = initialised b.
Proof. by destruct id. Qed.
Lemma initialised_index_remove_all l b :
  initialised (foldl (λ b e, index_remove (BookEntry.order_id e) b) b l) = initialised b.
Proof.
  revert b. induction l as [|e l IH]; intros b; simpl; [done|].
  by rewrite IH, initialised_index_remove.
Qed.

Lemma insert_at_length {A} (x : A) l : insert_at (length l) x l = l ++ [x].
Proof. unfold insert_at. by rewrite take_ge, drop_ge by lia. Qed.

Lemma remove_at_ge {A} i (l : list A) : (length l ≤ i)%nat → remove_at i l = l.
Proof. intros Hi. unfold remove_at. rewrite take_ge, drop_ge by lia. apply app_nil_r. Qed.

(** The two branches of an insertion are one insertion at the clamped
    position. *)
Lemma vec_place s e b b' k :
  let v := vec (BookEntry.side e) b in
  let pos := usize (BookEntry.position e) in
  vec s (if (length v <=? pos)%nat then set_vec (BookEntry.side e) (v ++ [e]) b
         else shift_indices_after (BookEntry.side e) pos k
                (set_vec (BookEntry.side e) (insert_at pos e v) b')) =
  if decide (s = BookEntry.side e) then Spec.place e v
  else if (length v <=? pos)%nat then vec s b else vec s b'.
Proof.
  intros v pos. unfold Spec.place. fold (usize (BookEntry.position e)). fold pos.
  destruct (Nat.leb_spec (length v) pos) as [Hl|Hl].
  - rewrite vec_set_vec, Nat.min_r by lia. by rewrite insert_at_length.
  - rewrite vec_shift, vec_set_vec, Nat.min_l by lia. done.
Qed.

Lemma vec_add s e b :
  vec s (add e b) =
  if decide (s = BookEntry.side e) then Spec.place e (vec s b) else vec s b.
Proof.
  unfold add. rewrite vec_index_insert, vec_place.
  case_decide; [by subst|]. by destruct (_ <=? _)%nat.
Qed.

Lemma vec_update s old e b :
  vec s (update old e b) =
  if decide (s = BookEntry.side e) then Spec.place e (remove_at (Z.to_nat old) (vec s b))
  else vec s b.
Proof.
  unfold update, usize at 2. destruct (vec (BookEntry.side e) b !! Z.to_nat old) as [r|] eqn:Hr.
  - unfold usize at 1. rewrite Hr. rewrite vec_index_insert, vec_place.
    rewrite !vec_index_remove, !vec_shift, !vec_set_vec.
    destruct (decide (BookEntry.side e = BookEntry.side e)); [|done].
    case_decide; [by subst|].
    by destruct (_ <=? _)%nat.
  - unfold usize at 1. rewrite Hr, vec_add. case_decide; [|done]. subst.
    rewrite remove_at_ge; [done|]. by apply lookup_ge_None.
Qed.

Lemma vec_delete s d b :
  vec s (delete d b) = Spec.apply (BookOp.Delete d) (λ s, vec s b) s.
Proof.
  destruct d as [side p|side p|]; simpl; unfold Spec.upd.
  - unfold usize. destruct (vec side b !! Z.to_nat p) as [r|] eqn:Hr.
    + rewrite vec_index_remove, vec_shift, vec_set_vec. done.
    + case_decide; [|done]. subst. rewrite remove_at_ge; [done|]. by apply lookup_ge_None.
  - rewrite vec_shift, vec_index_remove_all, vec_set_vec. case_decide; [|done]. subst.
    unfold usize. rewrite Nat.add_1_r.
    destruct (Nat.min_spec (S (Z.to_nat p)) (length (vec side b))) as [[? ->]|[? ->]]; [done|].
    by rewrite !drop_ge by lia.
  - by destruct s.
Qed.

Lemma vec_apply s op b : vec s (apply op b).2 = Spec.apply op (λ s, vec s b) s.
Proof.
  destruct op as [e|old e|d|]; simpl.
  - unfold Spec.upd. rewrite vec_add. case_decide; by subst.
  - unfold Spec.upd. rewrite vec_update. case_decide; by subst.
  - apply vec_delete.
  - by destruct s.
Qed.

Lemma initialised_apply op b :
  initialised (apply op b).2 = initialised b || bool_decide (op = BookOp.EndOfInitial).
Proof.
  assert (∀ e b, initialised (add e b) = initialised b) as Hadd.
  { intros e b'. unfold add. rewrite initialised_index_insert.
    destruct (_ <=? _)%nat; [|rewrite initialised_shift]; apply initialised_set_vec. }
  destruct op as [e|old e|d|]; cbn [apply snd].
  - by rewrite Hadd, orb_false_r.
  - rewrite orb_false_r. unfold update. destruct (_ !! _); [|apply Hadd].
    rewrite initialised_index_insert.
    destruct (_ <=? _)%nat; [|rewrite initialised_shift];
      by rewrite initialised_set_vec, initialised_index_remove, initialised_shift,
        initialised_set_vec.
  - rewrite orb_false_r. destruct d; cbn [delete]; [destruct (_ !! _); [|done]| |done].
    + by rewrite initialised_index_remove, initialised_shift, initialised_set_vec.
    + by rewrite initialised_shift, initialised_index_remove_all, initialised_set_vec.
  - by rewrite orb_true_r.
Qed.

Lemma spec_apply_ext op b b' s : (∀ s, b s = b' s) → Spec.apply op b s = Spec.apply op b' s.
Proof.
  intros Hb. destruct op as [e|old e|[side p|side p|]|]; simpl; unfold Spec.upd;
    rewrite ?Hb; done.
Qed.

Lemma vec_apply_all ops b s :
  vec s (apply_all ops b) = foldl (λ b op, Spec.apply op b) (λ s, vec s b) ops s.
Proof.
  revert b s. induction ops as [|op ops IH] using rev_ind; intros b s; [done|].
  unfold apply_all. rewrite !foldl_app. cbn [foldl].
  rewrite vec_apply. apply spec_apply_ext. intros s'. apply IH.
Qed.

(** (C3) Book refinement. Whatever operations arrive, with whatever order ids
    and positions, the two vectors are the positional book of the
    specification: insertion at the clamped position, removal of an in-range
    position only, prefix drain, clear. [apply] reports a clean book exactly
    from the end-of-initial marker on, and [ClearAll] does not take it back. *)
Theorem vectors_refine_spec (ops : list BookOp.t) (op : BookOp.t) (side : Side.t) :
  let b := apply_all ops default in
  vec side b = foldl (λ b op, Spec.apply op b) Spec.empty ops side ∧
  (apply op b).1 = bool_decide (BookOp.EndOfInitial ∈ ops ++ [op]).
Proof.
  intros b. split.
  - subst b. rewrite vec_apply_all.
    assert (∀ ops b b', (∀ s, b s = b' s) →
      foldl (λ b op, Spec.apply op b) b ops side = foldl (λ b op, Spec.apply op b) b' ops side)
      as Hext.
    { clear. intros ops. induction ops as [|op ops IH]; intros b b' Hb; simpl; [done|].
      apply IH. intros s. by apply spec_apply_ext. }
    apply Hext. by intros [].
  - change ((apply op b).1) with (initialised (apply op b).2).
    assert (initialised (apply_all (ops ++ [op]) default) =
            bool_decide (BookOp.EndOfInitial ∈ ops ++ [op])) as <-.
    { generalize (ops ++ [op]). clear. intros ops.
      induction ops as [|op ops IH] using rev_ind; [done|].
      unfold apply_all in *. rewrite foldl_app. cbn [foldl].
      rewrite initialised_apply, IH. apply eq_iff_eq_true.
      rewrite orb_true_iff, !bool_decide_eq_true, elem_of_app, list_elem_of_singleton.
      naive_solver. }
    unfold apply_all. by rewrite foldl_app.
Qed.
End refinement.

(** ** The order-id index *)

Section index.
Import OrderBook.

(** The order id at a position. *)
Definition id_at (v : list BookEntry.t) (i : nat) : option bytes :=
  e ← v !! i; BookEntry.order_id e.

(** The index maps exactly the order ids of the book, each to the place of
    its entry; in particular no id occurs twice. *)
Definition index_ok (b : t) : Prop :=
  ∀ id s i, by_order_id b !! id = Some (s, i) ↔ id_at (vec s b) i = Some id.

(** An operation brings no order id that another entry has. *)
Definition fresh (id : option bytes) (b : t) : Prop :=
  ∀ k, id = Some k → by_order_id b !! k = None.
Definition admissible (op : BookOp.t) (b : t) : Prop :=
  match op with
  | BookOp.Add e => fresh (BookEntry.order_id e) b
  | BookOp.Update old e =>
      fresh (BookEntry.order_id e) b ∨
      (BookEntry.order_id e = id_at (vec (BookEntry.side e) b) (usize old))
  | _ => True
  end.

Lemma id_at_remove_at i v j :
  (i < length v)%nat → id_at (remove_at i v) j = id_at v (if decide (j < i)%nat then j else S j).
Proof. intros Hi. unfold id_at. rewrite lookup_remove_at by done. by case_decide. Qed.

Lemma id_at_insert_at i e v j :
  (i ≤ length v)%nat →
  id_at (insert_at i e v) j =
    if decide (j < i)%nat then id_at v j
    else if decide (j = i) then BookEntry.order_id e else id_at v (j - 1).
Proof. intros Hi. unfold id_at. rewrite lookup_insert_at by done. by repeat case_decide. Qed.

Lemma id_at_lt v i id : id_at v i = Some id → (i < length v)%nat.
Proof.
  unfold id_at. destruct (v !! i) eqn:Hv; simpl; [|done]. intros _. by eapply lookup_lt_Some.
Qed.

Lemma lookup_shift s f k b id :
  by_order_id (shift_indices_after s f k b) !! id = shift_value s f k <$> by_order_id b !! id.
Proof. apply lookup_fmap. Qed.

Lemma by_order_id_set_vec s v b : by_order_id (set_vec s v b) = by_order_id b.
Proof. by destruct s. Qed.

Lemma lookup_index_remove o b id :
  by_order_id (index_remove o b) !! id =
  if decide (o = Some id) then None else by_order_id b !! id.
Proof.
  destruct o as [k|]; simpl.
  - case_decide; [simplify_eq; by rewrite lookup_delete_eq|].
    rewrite lookup_delete_ne by congruence. done.
  - done.
Qed.

Lemma lookup_index_insert o v b id :
  by_order_id (index_insert o v b) !! id =
  if decide (o = Some id) then Some v else by_order_id b !! id.
Proof.
  destruct o as [k|]; simpl.
  - case_decide; [simplify_eq; by rewrite lookup_insert_eq|].
    rewrite lookup_insert_ne by congruence. done.
  - done.
Qed.

(** The shift, as an equivalence on places. *)
Lemma shift_up_iff s f s' i j :
  shift_value s f 1 (s', i) = (s', j) ↔
  (if decide (s' = s ∧ (f ≤ i)%nat) then j = S i else j = i).
Proof.
  unfold shift_value. destruct (bool_decide (s' = s)) eqn:Hs; cbn [andb].
  - apply bool_decide_eq_true in Hs as ->. destruct (Nat.leb_spec f i).
    + rewrite decide_True by done. destruct (Z.leb_spec 0 (Z.of_nat i + 1)); [|lia].
      split; [intros [= <-]; lia|intros ->; f_equal; lia].
    + rewrite decide_False by lia. split; [by intros [= ->]|by intros ->].
  - apply bool_decide_eq_false in Hs. rewrite decide_False by naive_solver.
    split; [by intros [= ->]|by intros ->].
Qed.

Lemma shift_down_iff s f s' i j (k : nat) :
  (s' = s → (k ≤ i)%nat ∨ (i < f)%nat) →
  shift_value s f (- Z.of_nat k) (s', i) = (s', j) ↔
  (if decide (s' = s ∧ (f ≤ i)%nat) then j = (i - k)%nat else j = i).
Proof.
  intros Hk. unfold shift_value. destruct (bool_decide (s' = s)) eqn:Hs; cbn [andb].
  - apply bool_decide_eq_true in Hs as ->. specialize (Hk eq_refl).
    destruct (Nat.leb_spec f i).
    + rewrite decide_True by done. destruct (Z.leb_spec 0 (Z.of_nat i + - Z.of_nat k)); [|lia].
      split; [intros [= <-]; lia|intros ->; f_equal; lia].
    + rewrite decide_False by lia. split; [by intros [= ->]|by intros ->].
  - apply bool_decide_eq_false in Hs. rewrite decide_False by naive_solver.
    split; [by intros [= ->]|by intros ->].
Qed.

Lemma shift_value_side s f k v : (shift_value s f k v).1 = v.1.
Proof. destruct v as [s' i]. unfold shift_value. by repeat case_match. Qed.

(** Reads of the shifted index. *)
Lemma lookup_shift_Some s f k b id s' j :
  by_order_id (shift_indices_after s f k b) !! id = Some (s', j) ↔
  ∃ i, by_order_id b !! id = Some (s', i) ∧ shift_value s f k (s', i) = (s', j).
Proof.
  rewrite lookup_shift, fmap_Some. split.
  - intros ([s0 i] & Hb & He). exists i.
    assert (s0 = s') as -> by (pose proof (shift_value_side s f k (s0, i)) as Hs;
      rewrite <-He in Hs; by simpl in Hs).
    done.
  - intros (i & Hb & He). by exists (s', i).
Qed.

Lemma index_ok_unique b id s s' i j :
  index_ok b → id_at (vec s b) i = Some id → id_at (vec s' b) j = Some id → s = s' ∧ i = j.
Proof.
  intros Hok Hi Hj. apply Hok in Hi. apply Hok in Hj. rewrite Hi in Hj. by simplify_eq.
Qed.

Lemma remove_ok b s i e :
  index_ok b → vec s b !! i = Some e →
  index_ok (index_remove (BookEntry.order_id e)
    (shift_indices_after s i (-1) (set_vec s (remove_at i (vec s b)) b))).
Proof.
  intros Hok He id s' j. pose proof (lookup_lt_Some _ _ _ He) as Hi.
  rewrite lookup_index_remove, vec_index_remove, vec_shift, vec_set_vec.
  assert (id_at (vec s b) i = BookEntry.order_id e) as Hide by (unfold id_at; by rewrite He).
  assert (∀ id, (if decide (s' = s) then id_at (remove_at i (vec s b)) j else id_at (vec s' b) j)
            = Some id ↔ id_at (vec s' b) (if decide (s' = s ∧ ¬ (j < i)%nat) then S j else j)
            = Some id) as Hat.
  { intros id0. destruct (decide (s' = s)) as [->|].
    - rewrite id_at_remove_at by done. repeat case_decide; naive_solver.
    - rewrite decide_False by naive_solver. done. }
  replace (id_at (if decide (s' = s) then remove_at i (vec s b) else vec s' b) j)
    with (if decide (s' = s) then id_at (remove_at i (vec s b)) j else id_at (vec s' b) j)
    by by case_decide.
  rewrite Hat. clear Hat. case_decide as Hid.
  - split; [done|]. intros Hj. rewrite Hid in Hide.
    destruct (index_ok_unique _ _ _ _ _ _ Hok Hide Hj) as [-> Hij].
    case_decide; [lia|]. subst. naive_solver lia.
  - change (-1) with (- Z.of_nat 1). rewrite lookup_shift_Some, by_order_id_set_vec.
    setoid_rewrite (Hok id). split.
    + intros (i' & Hi' & Hs).
      assert (s' = s → i' ≠ i) as Hne by (intros -> ->; congruence).
      apply shift_down_iff in Hs; [|intros Hss; specialize (Hne Hss); lia].
      case_decide as Hc.
      * destruct Hc as [Hss Hc]. specialize (Hne Hss). subst j.
        rewrite decide_True by (split; [done|lia]). by replace (S (i' - 1)) with i' by lia.
      * subst j. rewrite decide_False; [done|]. intros [Hss ?]. apply Hc. split; [done|lia].
    + intros Hj. eexists. split; [exact Hj|].
      destruct (decide (s' = s)) as [Hss|Hss].
      * subst s'. destruct (Nat.lt_ge_cases j i).
        -- rewrite decide_False by (intros [_ ?]; lia). apply shift_down_iff; [lia|].
           by rewrite decide_False by (intros [_ ?]; lia).
        -- rewrite decide_True by (split; [done|lia]). apply shift_down_iff; [lia|].
           rewrite decide_True by (split; [done|lia]). lia.
      * apply shift_down_iff; [done|]. by rewrite !decide_False by (by intros []).
Qed.

Lemma insert_ok b s i e :
  index_ok b → (i ≤ length (vec s b))%nat → fresh (BookEntry.order_id e) b →
  index_ok (index_insert (BookEntry.order_id e) (s, i)
    (shift_indices_after s i 1 (set_vec s (insert_at i e (vec s b)) b))).
Proof.
  intros Hok Hi Hfresh id s' j.
  rewrite lookup_index_insert, vec_index_insert, vec_shift, vec_set_vec.
  replace (id_at (if decide (s' = s) then insert_at i e (vec s b) else vec s' b) j)
    with (if decide (s' = s ∧ j = i) then BookEntry.order_id e
          else id_at (vec s' b) (if decide (s' = s ∧ (i < j)%nat) then (j - 1)%nat else j)).
  2: { destruct (decide (s' = s)) as [->|].
       - rewrite id_at_insert_at by done. repeat case_decide; naive_solver lia.
       - by rewrite !decide_False by naive_solver. }
  case_decide as Hid.
  - split.
    + intros [= <- <-]. by rewrite decide_True.
    + case_decide as Hc; [by destruct Hc; subst|]. intros Hj. apply Hok in Hj.
      rewrite (Hfresh id) in Hj by done. done.
  - rewrite lookup_shift_Some, by_order_id_set_vec. setoid_rewrite (Hok id). split.
    + intros (i' & Hi' & Hs%shift_up_iff). case_decide as Hc.
      * destruct Hc as [-> Hc]. subst j. rewrite decide_False by (intros [_ ?]; lia).
        rewrite decide_True by (split; [done|lia]). by replace (S i' - 1)%nat with i' by lia.
      * subst j. rewrite !decide_False; [done|..]; intros [-> ?]; apply Hc; split; done || lia.
    + intros Hj. case_decide as Hc; [done|]. eexists. split; [exact Hj|].
      apply shift_up_iff. destruct (decide (s' = s)) as [->|].
      * assert (j ≠ i) by (by intros ->; apply Hc).
        destruct (Nat.lt_ge_cases i j).
        -- rewrite (decide_True (P := s = s ∧ (i < j)%nat)) by done.
           rewrite decide_True by (split; [done|lia]). lia.
        -- rewrite (decide_False (P := s = s ∧ (i < j)%nat)) by (intros [_ ?]; lia).
           by rewrite decide_False by (intros [_ ?]; lia).
      * by rewrite !decide_False by (by intros []).
Qed.

(** Beyond the end there is nothing to shift. *)
Lemma shift_end_noop b s k :
  index_ok b → by_order_id (shift_indices_after s (length (vec s b)) k b) = by_order_id b.
Proof.
  intros Hok. apply map_eq. intros id. rewrite lookup_shift.
  destruct (by_order_id b !! id) as [[s' i]|] eqn:Hb; simpl; [|done]. f_equal.
  apply Hok in Hb. apply id_at_lt in Hb. unfold shift_value.
  case_bool_decide; [subst|done]. destruct (Nat.leb_spec (length (vec s b)) i); [lia|done].
Qed.

Lemma index_ok_ext b b' :
  (∀ s, vec s b = vec s b') → by_order_id b = by_order_id b' → index_ok b → index_ok b'.
Proof. intros Hv Hm Hok id s i. by rewrite <-Hv, <-Hm. Qed.

Lemma add_ok b e : index_ok b → fresh (BookEntry.order_id e) b → index_ok (add e b).
Proof.
  intros Hok Hf. unfold add. set (s := BookEntry.side e).
  set (pos := usize (BookEntry.position e)).
  destruct (Nat.leb_spec (length (vec s b)) pos) as [Hl|Hl].
  - eapply index_ok_ext; [| |apply (insert_ok b s (length (vec s b)) e Hok); [lia|done]].
    + intros s'. rewrite !vec_index_insert, vec_shift. f_equal. f_equal.
      apply insert_at_length.
    + rewrite vec_set_vec, decide_True, length_app by done. simpl.
      replace (pos `min` _)%nat with (length (vec s b)) by lia.
      apply map_eq. intros id. rewrite !lookup_index_insert. case_decide; [done|].
      rewrite by_order_id_set_vec, lookup_shift, by_order_id_set_vec, <-lookup_shift.
      by rewrite shift_end_noop.
  - rewrite vec_shift, vec_set_vec, decide_True, length_insert_at by done.
    replace (pos `min` _)%nat with pos by lia. apply insert_ok; [done|lia|done].
Qed.

Lemma update_Some old e b r :
  vec (BookEntry.side e) b !! usize old = Some r →
  update old e b = add e (index_remove (BookEntry.order_id r)
    (shift_indices_after (BookEntry.side e) (usize old) (-1)
      (set_vec (BookEntry.side e) (remove_at (usize old) (vec (BookEntry.side e) b)) b))).
Proof. intros Hr. unfold update. by rewrite Hr. Qed.

Lemma update_ok b old e :
  index_ok b → admissible (BookOp.Update old e) b → index_ok (update old e b).
Proof.
  intros Hok Ha. destruct (vec (BookEntry.side e) b !! usize old) as [r|] eqn:Hr.
  - rewrite (update_Some _ _ _ _ Hr). apply add_ok; [by apply remove_ok|].
    intros k Hk. rewrite lookup_index_remove. case_decide as Hrk; [done|].
    destruct Ha as [Ha|Ha].
    + rewrite lookup_shift, by_order_id_set_vec, (Ha k Hk). done.
    + unfold id_at in Ha. rewrite Hr in Ha. simpl in Ha. congruence.
  - unfold update. rewrite Hr. apply add_ok; [done|]. destruct Ha as [Ha|Ha]; [done|].
    unfold id_at in Ha. rewrite Hr in Ha. intros k Hk. simpl in Ha. congruence.
Qed.

Lemma lookup_index_remove_all l b id :
  by_order_id (foldl (λ b e, index_remove (BookEntry.order_id e) b) b l) !! id =
  if decide (Exists (λ e, BookEntry.order_id e = Some id) l) then None
  else by_order_id b !! id.
Proof.
  revert b. induction l as [|e l IH]; intros b; cbn [foldl].
  - rewrite decide_False by (by intros ?%Exists_nil). done.
  - rewrite IH, lookup_index_remove. repeat case_decide; try done; exfalso;
      match goal with Hn : ¬ Exists _ (_ :: _) |- _ => apply Hn; by constructor
      | Hx : Exists _ (_ :: _) |- _ => apply Exists_cons in Hx; naive_solver end.
Qed.

Lemma id_at_drop n v j : id_at (drop n v) j = id_at v (n + j).
Proof. unfold id_at. by rewrite lookup_drop. Qed.

Lemma take_Exists_id n v id :
  Exists (λ e, BookEntry.order_id e = Some id) (take n v) ↔
  ∃ i, (i < n)%nat ∧ id_at v i = Some id.
Proof.
  rewrite Exists_exists. unfold id_at. split.
  - intros (e & (i & Hi)%list_elem_of_lookup & He). exists i.
    pose proof (lookup_lt_Some _ _ _ Hi) as Hlt. rewrite length_take in Hlt.
    rewrite lookup_take_lt in Hi by lia. rewrite Hi. split; [lia|done].
  - intros (i & Hi & Hid). destruct (v !! i) as [e|] eqn:Hv; [|done]. exists e.
    split; [|done]. apply list_elem_of_lookup. exists i. by rewrite lookup_take_lt.
Qed.

Lemma drain_ok b s p : index_ok b → index_ok (delete (BookDelete.PrefixInclusive s p) b).
Proof.
  intros Hok id s' j. cbn [delete]. set (n := ((usize p + 1) `min` length (vec s b))%nat).
  rewrite vec_shift, vec_index_remove_all, vec_set_vec, lookup_shift_Some.
  setoid_rewrite lookup_index_remove_all. rewrite by_order_id_set_vec.
  replace (id_at (if decide (s' = s) then drop n (vec s b) else vec s' b) j)
    with (id_at (vec s' b) (if decide (s' = s) then n + j else j)%nat)
    by (case_decide; [subst; by rewrite id_at_drop|done]).
  case_decide as Hx.
  - apply take_Exists_id in Hx as (i & Hi & Hid). split; [by intros (? & ? & _)|].
    intros Hj. destruct (index_ok_unique _ _ _ _ _ _ Hok Hid Hj) as [-> Hij].
    rewrite decide_True in Hij by done. lia.
  - assert (∀ i, id_at (vec s b) i = Some id → (n ≤ i)%nat) as Hge.
    { intros i Hid. destruct (Nat.lt_ge_cases i n); [|done]. destruct Hx.
      apply take_Exists_id. eauto. }
    setoid_rewrite (Hok id). split.
    + intros (i & Hid & Hs). apply shift_down_iff in Hs; [|intros ->; left; by apply Hge].
      repeat case_decide; subst; try naive_solver lia.
      apply Hge in Hid as Hni. by replace (n + (i - n))%nat with i by lia.
    + intros Hj. eexists. split; [exact Hj|].
      apply shift_down_iff; [intros ->; left; by apply Hge|].
      repeat case_decide; naive_solver lia.
Qed.

Lemma apply_ok b op : index_ok b → admissible op b → index_ok (apply op b).2.
Proof.
  intros Hok Ha. destruct op as [e|old e|[s p|s p|]|]; cbn [apply snd].
  - by apply add_ok.
  - by apply update_ok.
  - cbn [delete]. destruct (_ !! _) eqn:Hr; [|done]. by apply remove_ok.
  - by apply drain_ok.
  - intros id s i. cbn [delete by_order_id]. rewrite lookup_empty.
    split; [done|]. by destruct s.
  - intros id s i. pose proof (Hok id s i) as Hi. by destruct s.
Qed.

(** A stream of operations each of which brings a fresh order id. *)
Fixpoint admissible_all (ops : list BookOp.t) (b : t) : Prop :=
  match ops with
  | [] => True
  | op :: ops' => admissible op b ∧ admissible_all ops' (apply op b).2
  end.

(** (C4) Index invariant. As long as no operation brings an order id that
    another live entry of the book already has, the index maps exactly the
    order ids of the two vectors, each to the side and place of its entry,
    through insertions, moves, deletions, prefix drains and clears. *)
Theorem index_invariant (ops : list BookOp.t) :
  admissible_all ops default → index_ok (apply_all ops default).
Proof.
  assert (index_ok default) as Hok by (intros id s i; by destruct s).
  revert Hok. generalize default. induction ops as [|op ops IH]; intros b Hok Ha; [done|].
  destruct Ha as [Ha Has]. apply (IH (apply op b).2); [by apply apply_ok|done].
Qed.
End index.

(** An entry with an order id, for the witnesses. *)
Definition entry (side : Side.t) (pos : Z) (id : string) : BookEntry.t :=
  BookEntry.mk pos side (f64_lit "10.5") 100 3 11041005 (Some (bs id)) (Some "L"%byte).

Lemma index_invariant_witness :
  index_ok (OrderBook.apply_all
    [BookOp.Add (entry Side.Buy 0 "A1"); BookOp.Add (entry Side.Buy 0 "A2");
     BookOp.Update 1 (entry Side.Buy 0 "A1"); BookOp.Delete (BookDelete.Single Side.Buy 0)]
    OrderBook.default).
Proof.
  apply index_invariant. cbn [admissible_all]. split; [|split; [|split; [|done]]].
  - intros k [= <-]. reflexivity.
  - intros k [= <-]. vm_compute. reflexivity.
  - right. vm_compute. reflexivity.
Defined.

(** Shared order ids. The feed guarantees an order id unique only within
    broker, instrument and side; when a bid and an ask share one, the index
    holds the later, and removing that one makes the index forget the id of an
    order that is still in the book. The vectors are not affected. *)
Theorem shared_id_forgotten (e1 e2 : BookEntry.t) (id : bytes) :
  BookEntry.side e1 ≠ BookEntry.side e2 →
  BookEntry.order_id e1 = Some id → BookEntry.order_id e2 = Some id →
  let b := OrderBook.apply_all [BookOp.Add e1; BookOp.Add e2] OrderBook.default in
  let b' := OrderBook.apply_all [BookOp.Delete (BookDelete.Single (BookEntry.side e2) 0)] b in
  OrderBook.by_order_id b !! id = Some (BookEntry.side e2, O) ∧
  OrderBook.vec (BookEntry.side e1) b' = [e1] ∧ OrderBook.by_order_id b' !! id = None.
Proof.
  intros Hs H1 H2 b b'.
  destruct e1 as [p1 s1 ? ? ? ? ? ?], e2 as [p2 s2 ? ? ? ? ? ?]. simpl in *. subst.
  destruct s1, s2; try done; subst b b'; unfold OrderBook.apply_all, OrderBook.add; simpl;
    rewrite lookup_insert_eq, lookup_delete_eq, Nat.min_0_r; done.
Qed.

Lemma shared_id_forgotten_witness :
  OrderBook.vec Side.Buy (OrderBook.apply_all [BookOp.Delete (BookDelete.Single Side.Sell 0)]
    (OrderBook.apply_all [BookOp.Add (entry Side.Buy 0 "A1"); BookOp.Add (entry Side.Sell 0 "A1")]
       OrderBook.default)) = [entry Side.Buy 0 "A1"].
Proof.
  destruct (shared_id_forgotten (entry Side.Buy 0 "A1") (entry Side.Sell 0 "A1") (bs "A1"))
    as (_ & Hv & _); [discriminate|reflexivity|reflexivity|exact Hv].
Defined.
