(* ===== verification/BookEngine.v ===== *)
(** * Sharded book engine ([market-engine/src/shard.rs] and [book/engine.rs])

    [BookEngine] routes every ticker to a shard by its hash. [BookSpec] is one
    map from tickers to books. Any command sequence gives the same answers on
    both: sharding cannot be observed, whatever the hash and the number of
    shards. *)

From S2P Require Import Prelude RustInt RustFloat Externs Enums Types OrderBook.

Section shard.
Context `{AHash}.

(** [None] is the division by zero of an empty shard vector. *)
Definition shard_for (ticker : bytes) (n_shards : nat) : option nat :=
  if (n_shards =? 0)%nat then None
  else Some (Z.to_nat (wrap 64 (ahash ticker) mod Z.of_nat n_shards)).

(** [shard_with], with the builder of [build_hasher]: the same hash. Its assertion
    of a non-zero count is only checked in debug builds; the division fails in
    every build. *)
Definition shard_with (builder : bytes → Z) (ticker : bytes) (n_shards : nat) : option nat :=
  if (n_shards =? 0)%nat then None
  else Some (Z.to_nat (wrap 64 (builder ticker) mod Z.of_nat n_shards)).
Definition build_hasher : bytes → Z := ahash.

Lemma shard_for_lt ticker n : (0 < n)%nat → ∃ i, shard_for ticker n = Some i ∧ (i < n)%nat.
Proof.
  intros Hn. unfold shard_for. destruct (Nat.eqb_spec n 0); [lia|].
  eexists. split; [done|].
  pose proof (Z.mod_pos_bound (wrap 64 (ahash ticker)) (Z.of_nat n)). lia.
Qed.
End shard.

Module BookEngine.

Record t : Type := mk {
  shards : list (gmap bytes OrderBook.t);
  allowed : option (gset bytes);
}.

Definition new (n_shards : nat) : t :=
  let n := if (n_shards =? 0)%nat then 8%nat else n_shards in
  mk (replicate n ∅) None.

Definition set_allowed (a : option (gset bytes)) (e : t) : t := mk (shards e) a.

Definition is_allowed (ticker : bytes) (e : t) : bool :=
  match allowed e with
  | None => true
  | Some set => bool_decide (ticker ∈ set)
  end.

Section ops.
Context `{AHash}.

(** [None] is a panic. *)
Definition apply (ticker : bytes) (op : BookOp.t) (e : t) : option (bool * t) :=
  if negb (is_allowed ticker e) then Some (false, e)
  else
    idx ← shard_for ticker (length (shards e));
    guard ← shards e !! idx;
    let book := default OrderBook.default (guard !! ticker) in
    let '(observable, book) := OrderBook.apply op book in
    Some (observable, mk (<[idx := <[ticker := book]> guard]> (shards e)) (allowed e)).

Definition with_book {R} (ticker : bytes) (f : option OrderBook.t → R) (e : t) : option R :=
  idx ← shard_for ticker (length (shards e));
  guard ← shards e !! idx;
  Some (f (guard !! ticker)).

Definition len (e : t) : nat := sum_list (size <$> shards e).
Definition is_empty (e : t) : bool := (len e =? 0)%nat.
End ops.
End BookEngine.

(** ** Specification *)

Module BookSpec.
Record t : Type := mk {
  books : gmap bytes OrderBook.t;
  allowed : option (gset bytes);
}.
Definition new : t := mk ∅ None.

Definition apply (ticker : bytes) (op : BookOp.t) (s : t) : bool * t :=
  if match allowed s with None => true | Some set => bool_decide (ticker ∈ set) end then
    let '(observable, book) :=
      OrderBook.apply op (default OrderBook.default (books s !! ticker)) in
    (observable, mk (<[ticker := book]> (books s)) (allowed s))
  else (false, s).
End BookSpec.

Module BookCmd.
Inductive t : Type :=
  | Apply (ticker : bytes) (op : BookOp.t)
  | SetAllowed (a : option (gset bytes)).
End BookCmd.

Section refinement.
Context `{AHash}.

(** A command sequence with the flags [apply] returned. *)
Fixpoint engine_run (cmds : list BookCmd.t) (e : BookEngine.t)
    : option (list bool * BookEngine.t) :=
  match cmds with
  | [] => Some ([], e)
  | BookCmd.Apply ticker op :: cmds' =>
      '(b, e) ← BookEngine.apply ticker op e;
      '(bs, e) ← engine_run cmds' e;
      Some (b :: bs, e)
  | BookCmd.SetAllowed a :: cmds' => engine_run cmds' (BookEngine.set_allowed a e)
  end.

Fixpoint spec_run (cmds : list BookCmd.t) (s : BookSpec.t) : list bool * BookSpec.t :=
  match cmds with
  | [] => ([], s)
  | BookCmd.Apply ticker op :: cmds' =>
      let '(b, s) := BookSpec.apply ticker op s in
      let '(bs, s) := spec_run cmds' s in (b :: bs, s)
  | BookCmd.SetAllowed a :: cmds' => spec_run cmds' (BookSpec.mk (BookSpec.books s) a)
  end.

Definition refines (e : BookEngine.t) (s : BookSpec.t) : Prop :=
  (0 < length (BookEngine.shards e))%nat ∧
  BookEngine.allowed e = BookSpec.allowed s ∧
  (∀ ticker, BookEngine.with_book ticker id e = Some (BookSpec.books s !! ticker)) ∧
  BookEngine.len e = size (BookSpec.books s).

Lemma sum_list_insert (l : list nat) i x y :
  l !! i = Some x → (sum_list (<[i := y]> l) + x = sum_list l + y)%nat.
Proof.
  revert i. induction l as [|z l IH]; intros [|i]; simpl; try done.
  - intros [= ->]. lia.
  - intros Hi. specialize (IH _ Hi). lia.
Qed.

Lemma len_replicate n a : BookEngine.len (BookEngine.mk (replicate n ∅) a) = 0%nat.
Proof.
  unfold BookEngine.len. cbn [BookEngine.shards].
  induction n as [|n IH]; simpl; [done|]. rewrite map_size_empty. exact IH.
Qed.

Lemma new_refines n : refines (BookEngine.new n) BookSpec.new.
Proof.
  unfold refines, BookEngine.new. set (k := if (n =? 0)%nat then 8%nat else n).
  assert (0 < k)%nat as Hk by (subst k; destruct (Nat.eqb_spec n 0); lia).
  cbn [BookEngine.shards BookEngine.allowed]. rewrite length_replicate.
  split_and!; [done|done| |].
  - intros ticker. unfold BookEngine.with_book. cbn [BookEngine.shards].
    rewrite length_replicate. destruct (shard_for_lt ticker k Hk) as (i & -> & Hi). simpl.
    by rewrite lookup_replicate_2.
  - rewrite len_replicate. symmetry. apply map_size_empty.
Qed.

(** Inserting a book in its shard is inserting it in the map. *)
Lemma insert_refines e s ticker i guard book :
  refines e s → shard_for ticker (length (BookEngine.shards e)) = Some i →
  BookEngine.shards e !! i = Some guard →
  refines (BookEngine.mk (<[i := <[ticker := book]> guard]> (BookEngine.shards e))
             (BookEngine.allowed e))
    (BookSpec.mk (<[ticker := book]> (BookSpec.books s)) (BookSpec.allowed s)).
Proof.
  intros (Hlen & Hal & Hbooks & Hsz) Hi Hg.
  pose proof (lookup_lt_Some _ _ _ Hg) as Hlt.
  pose proof (Hbooks ticker) as Ht. unfold BookEngine.with_book in Ht.
  rewrite Hi in Ht. simpl in Ht. rewrite Hg in Ht. simpl in Ht. unfold id in Ht.
  injection Ht as Ht.
  unfold refines. cbn [BookEngine.shards BookEngine.allowed BookSpec.books BookSpec.allowed].
  split_and!; [by rewrite length_insert|done| |].
  - intros t'. specialize (Hbooks t'). unfold BookEngine.with_book in *.
    cbn [BookEngine.shards] in *. rewrite length_insert.
    destruct (shard_for t' (length (BookEngine.shards e))) as [i'|] eqn:Hi'; [|done].
    simpl in *. destruct (decide (i' = i)) as [->|].
    + rewrite list_lookup_insert_eq by done. rewrite Hg in Hbooks. simpl in *.
      unfold id in *. injection Hbooks as Hbooks. f_equal.
      destruct (decide (t' = ticker)) as [->|].
      * by rewrite !lookup_insert_eq.
      * by rewrite !lookup_insert_ne.
    + assert (t' ≠ ticker) by congruence.
      rewrite list_lookup_insert_ne, lookup_insert_ne by done. done.
  - unfold BookEngine.len in *. cbn [BookEngine.shards].
    rewrite list_fmap_insert.
    pose proof (sum_list_insert (size <$> BookEngine.shards e) i (size guard)
      (size (<[ticker := book]> guard))) as Hs.
    rewrite list_lookup_fmap, Hg in Hs. specialize (Hs eq_refl).
    rewrite !map_size_insert in *. rewrite <-Ht.
    destruct (guard !! ticker) as [b0|] eqn:Hb; simpl in *; lia.
Qed.

Lemma apply_refines e s ticker op :
  refines e s →
  ∃ e', BookEngine.apply ticker op e = Some ((BookSpec.apply ticker op s).1, e') ∧
        refines e' (BookSpec.apply ticker op s).2.
Proof.
  intros HR. pose proof HR as (Hlen & Hal & Hbooks & Hsz).
  unfold BookEngine.apply, BookSpec.apply, BookEngine.is_allowed. rewrite Hal.
  generalize (OrderBook.apply op) as apply. intros apply.
  destruct (match BookSpec.allowed s with None => true | Some set => _ end); simpl;
    [|by exists e].
  destruct (shard_for_lt ticker _ Hlen) as (i & Hi & Hlt).
  destruct (lookup_lt_is_Some_2 (BookEngine.shards e) i Hlt) as [guard Hg].
  rewrite Hi. simpl. rewrite Hg. simpl.
  pose proof (Hbooks ticker) as Ht. unfold BookEngine.with_book in Ht.
  rewrite Hi in Ht. simpl in Ht. rewrite Hg in Ht. injection Ht as Ht. unfold id in Ht.
  rewrite Ht.
  destruct (apply (default OrderBook.default (BookSpec.books s !! ticker)))
    as [obs book]. simpl.
  eexists. split; [done|]. 
  pose proof (insert_refines e s ticker i guard book HR Hi Hg) as HX. rewrite Hal in HX. exact HX.
Qed.

Lemma run_refines (cmds : list BookCmd.t) e s :
  refines e s →
  ∃ e', engine_run cmds e = Some ((spec_run cmds s).1, e') ∧ refines e' (spec_run cmds s).2.
Proof.
  revert e s. induction cmds as [|[ticker op|a] cmds IH]; intros e s HR; simpl.
  - by exists e.
  - destruct (apply_refines e s ticker op HR) as (e1 & -> & HR1). simpl.
    destruct (BookSpec.apply ticker op s) as [b s1]. simpl in *.
    destruct (IH e1 s1 HR1) as (e2 & -> & HR2). simpl.
    destruct (spec_run cmds s1) as [bs s2]. by exists e2.
  - apply IH. by destruct HR as (? & ? & ? & ?).
Qed.

(** (C7) Sharding is unobservable. Whatever the hash function and the shard
    count (zero included), every sequence of applications and allow-list
    changes runs without a panic, returns the flags of the single-map
    specification, and leaves every ticker with the book of the
    specification and [len] the number of tickers: no ticker is ever split
    over, or found in, the wrong shard, and a ticker outside the allow-list
    gets no book. *)
Theorem sharding_refines_map (n_shards : nat) (cmds : list BookCmd.t) :
  ∃ e, engine_run cmds (BookEngine.new n_shards) = Some ((spec_run cmds BookSpec.new).1, e) ∧
       refines e (spec_run cmds BookSpec.new).2.
Proof. apply run_refines, new_refines. Qed.
End refinement.
