(* ===== verification/Quote.v ===== *)
(** * Quote engine ([market-engine/src/quote.rs])

    The consolidated quote of every ticker, as the fold of the diffs applied to
    it. [DashMap] and [AHashMap] are finite maps. *)

From S2P Require Import Prelude RustInt RustFloat Types.

Module QuoteState.

Record t : Type := mk {
  time_hhmmss : Z;
  version : Z;
  fields : gmap Z QuoteFieldValue.t;
}.
Definition default : t := mk 0 0 ∅.

(** The new state and the number of fields touched. *)
Definition apply_diff (time_hhmmss : Z) (diff : QuoteDiff) (s : t) : nat * t :=
  (length diff,
   mk time_hhmmss (wrap 64 (version s + 1))
     (foldl (λ m p, <[p.1 := p.2]> m) (fields s) diff)).

Definition get (idx : Z) (s : t) : option QuoteFieldValue.t := fields s !! idx.
End QuoteState.

Module QuoteEngine.

Abbreviation t := (gmap bytes QuoteState.t).
Definition new : t := ∅.

Definition apply (ticker : bytes) (time_hhmmss : Z) (diff : QuoteDiff) (e : t) : nat * t :=
  let '(updated, s) :=
    QuoteState.apply_diff time_hhmmss diff (default QuoteState.default (e !! ticker)) in
  (updated, <[ticker := s]> e).

Definition with_state {R} (ticker : bytes) (f : option QuoteState.t → R) (e : t) : R :=
  f (e !! ticker).

Definition known_tickers (e : t) : list (bytes * Z * Z) :=
  (λ kv, (kv.1, QuoteState.version kv.2, QuoteState.time_hhmmss kv.2)) <$> map_to_list e.

Definition len (e : t) : nat := size e.
Definition is_empty (e : t) : bool := (len e =? 0)%nat.

(** A sequence of updates. *)
Definition apply_all (us : list (bytes * Z * QuoteDiff)) (e : t) : t :=
  foldl (λ e '(ticker, time, diff), (apply ticker time diff e).2) e us.
End QuoteEngine.

(** The value a list of (field, value) writes leaves in a field. *)
Definition last_write (idx : Z) (writes : QuoteDiff) : option QuoteFieldValue.t :=
  last (snd <$> filter (λ p, p.1 = idx) writes).

Lemma lookup_writes (diff : QuoteDiff) (m : gmap Z QuoteFieldValue.t) idx :
  foldl (λ m p, <[p.1 := p.2]> m) m diff !! idx =
  match last_write idx diff with Some v => Some v | None => m !! idx end.
Proof.
  unfold last_write. induction diff as [|[i v] diff IH] using rev_ind; [done|].
  rewrite foldl_app, filter_app, fmap_app, last_app. cbn [foldl fst snd].
  destruct (decide (i = idx)) as [->|Hi].
  - rewrite lookup_insert_eq, filter_cons_True by done. done.
  - rewrite lookup_insert_ne, filter_cons_False by done. simpl. apply IH.
Qed.

(** The updates of one ticker. *)
Definition of_ticker (ticker : bytes) (us : list (bytes * Z * QuoteDiff))
    : list (bytes * Z * QuoteDiff) := filter (λ u, u.1.1 = ticker) us.

Section correctness.
Import QuoteEngine.

(** The state of a ticker, as a function of its own updates. *)
Definition state_of (us : list (bytes * Z * QuoteDiff)) : option QuoteState.t :=
  match last us with
  | None => None
  | Some (_, time, _) =>
      Some (QuoteState.mk time (wrap 64 (Z.of_nat (length us)))
              (foldl (λ m p, <[p.1 := p.2]> m) ∅ (concat us.*2)))
  end.

Lemma wrap_S w n : 0 ≤ w → wrap w (wrap w n + 1) = wrap w (n + 1).
Proof. intros Hw. unfold wrap. by rewrite Zplus_mod_idemp_l. Qed.

Lemma apply_snd ticker time diff e :
  (apply ticker time diff e).2 =
  <[ticker := (QuoteState.apply_diff time diff (default QuoteState.default (e !! ticker))).2]> e.
Proof. done. Qed.

Lemma lookup_apply_all us ticker :
  apply_all us new !! ticker = state_of (of_ticker ticker us).
Proof.
  unfold apply_all, of_ticker. induction us as [|[[tk time] diff] us IH] using rev_ind; [done|].
  rewrite foldl_app, filter_app. cbn [foldl].
  destruct (decide (tk = ticker)) as [->|Hne].
  - rewrite filter_cons_True, filter_nil, apply_snd, lookup_insert_eq, IH by done.
    unfold state_of, QuoteState.apply_diff. cbn [snd].
    rewrite last_snoc, length_app, !fmap_app, concat_app, foldl_app. cbn [length fmap list_fmap snd concat].
    rewrite app_nil_r. f_equal.
    destruct (last (filter _ us)) as [[[tk0 time0] diff0]|] eqn:Hl; cbn [from_option id QuoteState.version QuoteState.fields].
    + rewrite wrap_S by lia. do 2 f_equal. lia.
    + apply last_None in Hl. by rewrite Hl.
  - rewrite filter_cons_False, filter_nil, app_nil_r, apply_snd by done.
    by rewrite lookup_insert_ne.
Qed.

(** The quote engine consolidates. After any sequence of updates a
    ticker has a state exactly when one of them was for it; the state has
    the time of the ticker's last update, the number of its updates modulo
    2^64 as its version, and for every field the value of the last write to
    it among the ticker's diffs. Updates of other tickers do not show, and
    each call reports the length of its diff. *)
Theorem quote_last_write_wins (us : list (bytes * Z * QuoteDiff)) (ticker : bytes) :
  let mine := of_ticker ticker us in
  (∀ time diff, (apply ticker time diff (apply_all us new)).1 = length diff) ∧
  match apply_all us new !! ticker with
  | None => mine = []
  | Some s =>
      (∃ tk diff, last mine = Some (tk, QuoteState.time_hhmmss s, diff)) ∧
      QuoteState.version s = Z.of_nat (length mine) mod 2 ^ 64 ∧
      ∀ idx, QuoteState.get idx s = last_write idx (concat mine.*2)
  end.
Proof.
  intros mine. split; [done|]. rewrite lookup_apply_all. fold mine. unfold state_of.
  destruct (last mine) as [[[tk time] diff]|] eqn:Hl; [|by apply last_None].
  split_and!; [by eexists _, _|done|].
  intros idx. unfold QuoteState.get. cbn [QuoteState.fields].
  rewrite lookup_writes, lookup_empty. by destruct (last_write _ _).
Qed.
End correctness.
