(* ===== verification/TradeBuf.v ===== *)
(** * Working trade buffer ([market-engine/src/trade.rs])

    The last trades of every ticker, in bounded queues. [VecDeque] is a list,
    oldest first. *)

From S2P Require Import Prelude RustInt RustFloat Enums Types.

Module TradeRecord.
Record t : Type := mk {
  time_hhmmss : Z;
  price : f64;
  quantity : Z;
  trade_id : bytes;
  broker_buy_id : Z;
  broker_sell_id : Z;
  condition : TradeCondition.t;
  aggressor : TradeAggressor.t;
}.

Definition from (x : Trade.t) : t :=
  mk (Trade.time_hhmmss x) (Trade.price x) (Trade.quantity x) (Trade.trade_id x)
    (Trade.broker_buy_id x) (Trade.broker_sell_id x) (Trade.condition x) (Trade.aggressor x).
End TradeRecord.

Module TradeBuffer.

Record t : Type := mk {
  per_ticker_capacity : nat;
  inner : gmap bytes (list TradeRecord.t);
}.

Definition new (per_ticker_capacity : nat) : t := mk (per_ticker_capacity `max` 1) ∅.

Definition push (ticker : bytes) (trade : TradeRecord.t) (b : t) : t :=
  let cap := per_ticker_capacity b in
  let entry := default [] (inner b !! ticker) in
  let entry := if (length entry =? cap)%nat then drop 1 entry else entry in
  mk cap (<[ticker := entry ++ [trade]]> (inner b)).

(** [iter().position(..)]. *)
Fixpoint position (trade_id : bytes) (l : list TradeRecord.t) : option nat :=
  match l with
  | [] => None
  | t :: l' =>
      if bool_decide (TradeRecord.trade_id t = trade_id) then Some O
      else S <$> position trade_id l'
  end.

Definition remove (ticker trade_id : bytes) (b : t) : bool * t :=
  match inner b !! ticker with
  | None => (false, b)
  | Some entry =>
      match position trade_id entry with
      | None => (false, b)
      | Some pos =>
          (true, mk (per_ticker_capacity b) (<[ticker := remove_at pos entry]> (inner b)))
      end
  end.

Definition clear (ticker : bytes) (b : t) : t :=
  match inner b !! ticker with
  | None => b
  | Some _ => mk (per_ticker_capacity b) (<[ticker := []]> (inner b))
  end.

Definition snapshot (ticker : bytes) (limit : nat) (b : t) : list TradeRecord.t :=
  match inner b !! ticker with
  | None => []
  | Some entry => rev (take (limit `min` length entry) (rev entry))
  end.

Definition len_for (ticker : bytes) (b : t) : nat :=
  match inner b !! ticker with None => O | Some e => length e end.

Definition known_tickers (b : t) : nat := size (inner b).
End TradeBuffer.

(** ** Specification

    The history of a ticker, and the window of it that is kept. *)

(** The last [n] elements. *)
Definition lastn {A} (n : nat) (l : list A) : list A := drop (length l - n) l.

Module TradeOp.
Inductive t : Type :=
  | Push (ticker : bytes) (trade : TradeRecord.t)
  | Remove (ticker trade_id : bytes)
  | Clear (ticker : bytes).

Definition apply (op : t) (b : TradeBuffer.t) : TradeBuffer.t :=
  match op with
  | Push ticker trade => TradeBuffer.push ticker trade b
  | Remove ticker trade_id => (TradeBuffer.remove ticker trade_id b).2
  | Clear ticker => TradeBuffer.clear ticker b
  end.
Definition apply_all (ops : list t) (b : TradeBuffer.t) : TradeBuffer.t :=
  foldl (λ b op, apply op b) b ops.

(** What an operation does to the window of [ticker]. *)
Definition window (cap : nat) (ticker : bytes) (op : t) (w : list TradeRecord.t)
    : list TradeRecord.t :=
  match op with
  | Push tk trade => if decide (tk = ticker) then lastn cap (w ++ [trade]) else w
  | Remove tk id =>
      if decide (tk = ticker) then
        match list_find (λ r, TradeRecord.trade_id r = id) w with
        | Some (i, _) => remove_at i w
        | None => w
        end
      else w
  | Clear tk => if decide (tk = ticker) then [] else w
  end.
End TradeOp.

Section correctness.
Import TradeBuffer.

(** What is buffered for a ticker. *)
Definition contents (ticker : bytes) (b : t) : list TradeRecord.t :=
  default [] (inner b !! ticker).

Lemma lastn_short {A} n (l : list A) : (length l ≤ n)%nat → lastn n l = l.
Proof. intros Hl. unfold lastn. by replace (length l - n)%nat with 0%nat by lia. Qed.

Lemma length_lastn {A} n (l : list A) : length (lastn n l) = (n `min` length l)%nat.
Proof. unfold lastn. rewrite length_drop. lia. Qed.

Lemma lastn_snoc {A} n (l : list A) x :
  (length l = n)%nat → (0 < n)%nat → lastn n (l ++ [x]) = drop 1 l ++ [x].
Proof.
  intros Hl Hn. unfold lastn. rewrite length_app. simpl.
  replace (length l + 1 - n)%nat with 1%nat by lia. rewrite drop_app_le by lia. done.
Qed.

Lemma lastn_lastn_snoc {A} n (l : list A) x :
  (0 < n)%nat → lastn n (lastn n l ++ [x]) = lastn n (l ++ [x]).
Proof.
  intros Hn. unfold lastn. rewrite !length_app, length_drop. simpl.
  destruct (decide (length l ≤ n)%nat).
  - replace (length l - n)%nat with 0%nat by lia. rewrite drop_0. f_equal. lia.
  - rewrite !drop_app_le by (rewrite ?length_drop; lia). rewrite drop_drop.
    do 2 f_equal. lia.
Qed.

Lemma position_find id l :
  position id l = fst <$> list_find (λ r, TradeRecord.trade_id r = id) l.
Proof.
  induction l as [|r l IH]; simpl; [done|].
  destruct (decide (TradeRecord.trade_id r = id)) as [Hr|Hr].
  - by rewrite bool_decide_eq_true_2.
  - rewrite bool_decide_eq_false_2, IH by done.
    by destruct (list_find _ l) as [[i r']|].
Qed.

Lemma find_lt id l i r :
  list_find (λ r, TradeRecord.trade_id r = id) l = Some (i, r) → (i < length l)%nat.
Proof. intros (Hl & _)%list_find_Some. by eapply lookup_lt_Some. Qed.

Lemma length_window cap ticker op w :
  (length w ≤ cap)%nat → (length (TradeOp.window cap ticker op w) ≤ cap)%nat.
Proof.
  intros Hw. destruct op; simpl; case_decide; try (simpl; lia).
  - rewrite length_lastn. lia.
  - destruct (list_find _ w) as [[i r]|] eqn:Hf; [|done].
    apply find_lt in Hf. rewrite length_remove_at by done. lia.
Qed.

Lemma contents_apply op b ticker :
  (0 < per_ticker_capacity b)%nat →
  (length (contents ticker b) ≤ per_ticker_capacity b)%nat →
  contents ticker (TradeOp.apply op b) =
    TradeOp.window (per_ticker_capacity b) ticker op (contents ticker b).
Proof.
  intros Hc Hlen. unfold contents in *. destruct op as [tk r|tk id|tk]; simpl.
  - unfold push. cbn [inner]. case_decide as Htk; [subst tk|by rewrite lookup_insert_ne].
    rewrite lookup_insert_eq. cbn [default from_option id].
    destruct (Nat.eqb_spec (length (default [] (inner b !! ticker))) (per_ticker_capacity b)).
    + by rewrite lastn_snoc.
    + rewrite lastn_short; [done|]. rewrite length_app. simpl. lia.
  - unfold remove. destruct (inner b !! tk) as [l|] eqn:Hl; simpl.
    + rewrite position_find. destruct (list_find _ l) as [[i r]|] eqn:Hf; simpl.
      * case_decide as Htk; [subst tk|by rewrite lookup_insert_ne].
        rewrite lookup_insert_eq, Hl. simpl. by rewrite Hf.
      * case_decide as Htk; [subst tk|done]. rewrite Hl. simpl. by rewrite Hf.
    + case_decide as Htk; [subst tk|done]. by rewrite Hl.
  - unfold clear. destruct (inner b !! tk) as [l|] eqn:Hl; simpl.
    + case_decide as Htk; [subst tk|by rewrite lookup_insert_ne].
      by rewrite lookup_insert_eq.
    + case_decide as Htk; [subst tk; by rewrite Hl|done].
Qed.

Lemma capacity_apply op b : per_ticker_capacity (TradeOp.apply op b) = per_ticker_capacity b.
Proof.
  destruct op; simpl; unfold push, remove, clear; repeat case_match; try done; by subst.
Qed.

Lemma contents_apply_all ops cap ticker :
  let b := TradeOp.apply_all ops (new cap) in
  per_ticker_capacity b = (cap `max` 1)%nat ∧
  contents ticker b =
    foldl (λ w op, TradeOp.window (cap `max` 1) ticker op w) [] ops ∧
  (length (contents ticker b) ≤ cap `max` 1)%nat.
Proof.
  unfold TradeOp.apply_all. induction ops as [|op ops IH] using rev_ind; simpl.
  - split_and!; [done|done|apply Nat.le_0_l].
  - rewrite !foldl_app. cbn [foldl]. destruct IH as (Hc & Hw & Hl).
    rewrite capacity_apply. rewrite contents_apply by (rewrite Hc; lia).
    rewrite Hc, <-Hw. split_and!; [done|done|]. by apply length_window.
Qed.

(** The pushes to a ticker. *)
Definition pushed (ticker : bytes) (ops : list TradeOp.t) : list TradeRecord.t :=
  omap (λ op, match op with
              | TradeOp.Push tk r => if decide (tk = ticker) then Some r else None
              | _ => None
              end) ops.

Lemma window_pushes cap ticker ops :
  (0 < cap)%nat → Forall (λ op, ∃ tk r, op = TradeOp.Push tk r) ops →
  foldl (λ w op, TradeOp.window cap ticker op w) [] ops = lastn cap (pushed ticker ops).
Proof.
  intros Hc. induction ops as [|op ops IH] using rev_ind; [done|].
  rewrite Forall_app, Forall_singleton. intros [Hops (tk & r & ->)].
  rewrite foldl_app. cbn [foldl]. rewrite IH by done. unfold pushed. rewrite omap_app. simpl.
  case_decide; [by apply lastn_lastn_snoc|by rewrite app_nil_r].
Qed.

Lemma snapshot_lastn ticker limit b : snapshot ticker limit b = lastn limit (contents ticker b).
Proof.
  unfold snapshot, contents, lastn. destruct (inner b !! ticker) as [l|]; simpl; [|done].
  rewrite firstn_rev, rev_involutive. f_equal. lia.
Qed.

(** The trade buffer is a bounded window. After any operations on a
    buffer of any configured capacity (zero counts as one), a ticker holds
    what the window semantics gives: a push keeps the last [cap] trades, a
    bust removes the oldest trade with its id and nothing else, a clear
    empties; never more than [cap] trades. A snapshot is the last [limit] of
    them, oldest first, and if only pushes happened, the window is the last
    [cap] trades pushed. *)
Theorem trade_buffer_window (ops : list TradeOp.t) (cap limit : nat) (ticker : bytes) :
  let b := TradeOp.apply_all ops (new cap) in
  let w := foldl (λ w op, TradeOp.window (cap `max` 1) ticker op w) [] ops in
  contents ticker b = w ∧ len_for ticker b = length w ∧ (length w ≤ cap `max` 1)%nat ∧
  snapshot ticker limit b = lastn limit w ∧
  (Forall (λ op, ∃ tk r, op = TradeOp.Push tk r) ops →
   w = lastn (cap `max` 1) (pushed ticker ops)).
Proof.
  intros b w. destruct (contents_apply_all ops cap ticker) as (Hc & Hw & Hl).
  fold b in Hw, Hl. fold w in Hw. split_and!.
  - done.
  - rewrite <-Hw. unfold len_for, contents. by destruct (inner b !! ticker).
  - by rewrite <-Hw.
  - by rewrite snapshot_lastn, Hw.
  - intros Hp. apply window_pushes; [lia|done].
Qed.
End correctness.

(** A trade, for the witnesses. *)
Definition record (id : string) : TradeRecord.t :=
  TradeRecord.mk 101500 (f64_lit "26.5") 100 (bs id) 3 8 TradeCondition.NotDirect TradeAggressor.Buyer.

Lemma trade_buffer_window_witness :
  contents (bs "PETR4") (TradeOp.apply_all
    [TradeOp.Push (bs "PETR4") (record "1"); TradeOp.Push (bs "VALE3") (record "2");
     TradeOp.Push (bs "PETR4") (record "3"); TradeOp.Push (bs "PETR4") (record "4")]
    (TradeBuffer.new 2)) = [record "3"; record "4"].
Proof.
  destruct (trade_buffer_window
    [TradeOp.Push (bs "PETR4") (record "1"); TradeOp.Push (bs "VALE3") (record "2");
     TradeOp.Push (bs "PETR4") (record "3"); TradeOp.Push (bs "PETR4") (record "4")]
    2 1 (bs "PETR4")) as (Hc & _ & _ & _ & Hp).
  rewrite Hc, Hp; [vm_compute; reflexivity|].
  repeat (apply Forall_cons; split; [eexists _, _; reflexivity|]). apply Forall_nil. done.
Defined.
