(* ===== verification/Wal.v ===== *)
(** * Write-ahead log ([persistence/src/wal.rs])

    [TradeWal] is the log file behind its [BufWriter], with a crash semantics:
    the file keeps the changes since its last sync apart, and a crash exposes
    any prefix of them, the last one in part. A truncation is one of these
    changes, since [truncate] does not sync. The checksum is computed bit by bit
    as the code does. Disk operations are taken to succeed; a crash is their
    only failure. [DiskLog.v] has the same log on a disk that can fail. *)

From S2P Require Import Prelude RustInt.

(** ** Checksum *)

Definition u32_not (x : Z) : Z := Z.lxor x u32_max.

Definition crc_poly : Z := 0xEDB88320.

(** One turn of the inner loop. *)
Definition crc_bit (crc : Z) : Z :=
  let mask := wrap 32 (u32_not (Z.land crc 1) + 1) in
  Z.lxor (Z.shiftr crc 1) (Z.land crc_poly mask).

Definition crc_byte (crc : Z) (b : byte) : Z := Nat.iter 8 crc_bit (Z.lxor crc (u8 b)).

Definition compute_crc32 (len : Z) (payload : bytes) : Z :=
  u32_not (foldl crc_byte u32_max (to_le_bytes 4 len ++ payload)).

(** ** Files and crashes *)

(** The changes of a file: its bytes at the last sync, and what was done since. *)
Module Unsynced.
Inductive change : Type :=
  | Appended (data : bytes)
  | Emptied.
Definition apply (b : bytes) (c : change) : bytes :=
  match c with Appended data => b ++ data | Emptied => [] end.
Definition contents (stable : bytes) (pending : list change) : bytes := foldl apply stable pending.

(** What can be on the disk after a crash: the changes reach it in order. *)
Inductive image (stable : bytes) (pending : list change) : bytes → Prop :=
  | image_between k : image stable pending (contents stable (take k pending))
  | image_within k data n :
      pending !! k = Some (Appended data) →
      image stable pending (contents stable (take k pending) ++ take n data).
End Unsynced.

Section crashes.
Import Unsynced.

Lemma contents_snoc st p c : contents st (p ++ [c]) = apply (contents st p) c.
Proof. unfold contents. by rewrite foldl_app. Qed.

Lemma image_all st p : image st p (contents st p).
Proof. rewrite <-(take_ge p (length p)) at 2 by lia. constructor. Qed.

(** One more change exposes the images there were, and those within it. *)
Lemma image_snoc st p c b :
  image st (p ++ [c]) b ↔
  image st p b ∨ match c with Appended data => ∃ n, b = contents st p ++ take n data | Emptied => b = [] end.
Proof.
  split.
  - intros Hb. inversion Hb as [k E|k data n Hk E]; subst b.
    + destruct (decide (k ≤ length p)%nat).
      * left. rewrite take_app_le by lia. constructor.
      * right. rewrite (take_ge (p ++ _)), contents_snoc by (rewrite length_app; cbn; lia).
        destruct c as [data|]; [|done]. exists (length data). by rewrite take_ge.
    + destruct (decide (k < length p)%nat).
      * left. rewrite lookup_app_l in Hk by lia. rewrite take_app_le by lia. by constructor.
      * right. rewrite lookup_app_r in Hk by lia. apply list_lookup_singleton_Some in Hk as [Hk ->].
        exists n. by rewrite take_app_le, take_ge by lia.
  - intros [Hb|Hb].
    + destruct Hb as [k|k data n Hk].
      * destruct (decide (k ≤ length p)%nat).
        -- rewrite <-(take_app_le p [c]) by lia. constructor.
        -- rewrite take_ge by lia. rewrite <-(take_app_length p [c]) at 2. constructor.
      * pose proof (lookup_lt_Some _ _ _ Hk). rewrite <-(take_app_le p [c]) by lia.
        constructor. by apply lookup_app_l_Some.
    + destruct c as [data|].
      * destruct Hb as [n ->]. rewrite <-(take_app_length p [Appended data]) at 2.
        constructor. by rewrite lookup_app_r, Nat.sub_diag by lia.
      * subst b. rewrite <-(contents_snoc st p Emptied : _ = []). apply image_all.
Qed.
End crashes.

(** ** The log *)

Module PersistenceError.
Inductive t : Type :=
  | Database
  | Wal
  | UnknownTicker (ticker : bytes)
  | InvalidTrade (reason : string)
  | Decimal
  | ShuttingDown.
End PersistenceError.
Arguments PersistenceError.InvalidTrade reason%_string_scope.

Module TradeWal.

(** [stable] is the file at its last sync, [pending] the changes made since,
    [buffer] is in the [BufWriter]. *)
Record t : Type := mk {
  stable : bytes;
  pending : list Unsynced.change;
  buffer : bytes;
  bytes_written : Z;
}.
(** The file as the operating system has it. *)
Definition file (w : t) : bytes := Unsynced.contents (stable w) (pending w).

(** [TradeWal::open] on a file with the given contents. *)
Definition open (contents : bytes) : t := mk contents [] [] (Z.of_nat (length contents)).

Definition capacity : Z := 64 * 1024.

(** A call that changes the file. *)
Definition change (c : Unsynced.change) (w : t) : t :=
  mk (stable w) (pending w ++ [c]) (buffer w) (bytes_written w).

(** [BufWriter::write_all] and [BufWriter::flush]. *)
Definition flush (w : t) : t :=
  mk (stable w) (pending w ++ [Unsynced.Appended (buffer w)]) [] (bytes_written w).
Definition write_all (data : bytes) (w : t) : t :=
  let w := if capacity - Z.of_nat (length (buffer w)) <? Z.of_nat (length data) then flush w else w in
  if capacity <=? Z.of_nat (length data) then change (Unsynced.Appended data) w
  else mk (stable w) (pending w) (buffer w ++ data) (bytes_written w).

Definition append (payload : bytes) (w : t) : result PersistenceError.t (Z * t) :=
  len ← ok_or (checked 0 u32_max (Z.of_nat (length payload)))
          (PersistenceError.InvalidTrade "payload larger than 4 GiB rejected");
  let crc := compute_crc32 len payload in
  let w := write_all (to_le_bytes 4 len) w in
  let w := write_all payload w in
  let w := write_all (to_le_bytes 4 crc) w in
  let written := 4 + Z.of_nat (length payload) + 4 in
  let offset := wrap 64 (bytes_written w + written) in
  Ok (offset, mk (stable w) (pending w) (buffer w) offset).

Definition sync (w : t) : t :=
  let w := flush w in mk (file w) [] (buffer w) (bytes_written w).

(** The [while] loop over the bytes from [pos] on; [fuel] bounds its turns. *)
Fixpoint replay_loop (fuel : nat) (rest : bytes) : list bytes :=
  match fuel with
  | O => []
  | S fuel' =>
      if (length rest <? 4)%nat then []
      else
        let len := Z.to_nat (from_le_bytes (take 4 rest)) in
        let rest := drop 4 rest in
        if (length rest <? len + 4)%nat then []
        else
          let payload := take len rest in
          let stored_crc := from_le_bytes (take 4 (drop len rest)) in
          let expected := compute_crc32 (wrap 32 (Z.of_nat len)) payload in
          if negb (stored_crc =? expected) then []
          else payload :: replay_loop fuel' (drop (len + 4) rest)
  end.

(** Every turn consumes at least eight bytes. *)
Definition replay_bytes (buf : bytes) : list bytes := replay_loop (S (length buf)) buf.
Definition replay (w : t) : list bytes * t :=
  let w := flush w in (replay_bytes (file w), w).

(** The file is emptied, but not synced. *)
Definition truncate (w : t) : t :=
  let w := change Unsynced.Emptied (flush w) in mk (stable w) (pending w) (buffer w) 0.

(** A crash and the reopening of what it left of the file. *)
Inductive crash (w : t) : t → Prop :=
  | crash_intro b : Unsynced.image (stable w) (pending w) b → crash w (open b).
End TradeWal.

(** ** Checksum: error detection *)

Definition is_u32 (x : Z) : Prop := 0 ≤ x < 2 ^ 32.

Lemma is_u32_bits x : 0 ≤ x → (∀ i, 32 ≤ i → Z.testbit x i = false) → is_u32 x.
Proof.
  intros H0 Hb. split; [done|]. destruct (decide (x = 0)) as [->|Hx]; [lia|].
  apply Z.log2_lt_pow2; [lia|]. destruct (Z.lt_ge_cases (Z.log2 x) 32); [done|].
  pose proof (Z.bit_log2 x ltac:(lia)) as Hl. by rewrite Hb in Hl.
Qed.

Lemma u32_bits x i : is_u32 x → 32 ≤ i → Z.testbit x i = false.
Proof.
  intros [H0 H1] Hi. destruct (decide (x = 0)) as [->|]; [by apply Z.testbit_0_l|].
  apply Z.bits_above_log2; [done|].
  assert (Z.log2 x < 32) by (apply Z.log2_lt_pow2; lia). lia.
Qed.

Lemma lxor_u32 x y : is_u32 x → is_u32 y → is_u32 (Z.lxor x y).
Proof.
  intros Hx Hy. apply is_u32_bits.
  - apply Z.lxor_nonneg. unfold is_u32 in *. naive_solver lia.
  - intros i Hi. by rewrite Z.lxor_spec, !u32_bits.
Qed.

Lemma u8_u32 b : is_u32 (u8 b).
Proof. pose proof (u8_range b). split; [lia|]. change (2 ^ 32) with 4294967296. lia. Qed.

(** The bit step without the mask arithmetic. *)
Lemma crc_bit_eq c :
  crc_bit c = Z.lxor (Z.shiftr c 1) (if Z.odd c then crc_poly else 0).
Proof.
  unfold crc_bit. f_equal. change 1 with (Z.ones 1) at 1. rewrite Z.land_ones by lia.
  change (2 ^ 1) with 2. rewrite Zmod_odd. destruct (Z.odd c); by vm_compute.
Qed.

Lemma crc_bit_u32 c : is_u32 c → is_u32 (crc_bit c).
Proof.
  intros [H0 H1]. rewrite crc_bit_eq. apply lxor_u32.
  - rewrite Z.shiftr_div_pow2 by lia. change (2 ^ 1) with 2.
    split; [apply Z.div_pos; lia|]. apply Z.div_lt_upper_bound; lia.
  - destruct (Z.odd c); by vm_compute.
Qed.

(** The step can be undone: the top bit of the result is the bit shifted out,
    because the polynomial has its top bit set. *)
Lemma crc_bit_inj c d : is_u32 c → is_u32 d → crc_bit c = crc_bit d → c = d.
Proof.
  intros Hc Hd. rewrite !crc_bit_eq. intros He.
  assert (∀ x, is_u32 x →
    Z.testbit (Z.lxor (Z.shiftr x 1) (if Z.odd x then crc_poly else 0)) 31 = Z.odd x) as Htop.
  { intros x Hx. rewrite Z.lxor_spec, Z.shiftr_spec, u32_bits by (done || lia).
    destruct (Z.odd x); by vm_compute. }
  assert (Z.odd c = Z.odd d) as Ho by (rewrite <-(Htop c), <-(Htop d) by done; by f_equal).
  rewrite Ho in He. apply (f_equal (λ z, Z.lxor z (if Z.odd d then crc_poly else 0))) in He.
  rewrite !Z.lxor_assoc, Z.lxor_nilpotent, !Z.lxor_0_r in He.
  rewrite !Z.shiftr_div_pow2 in He by lia. change (2 ^ 1) with 2 in He.
  rewrite (Z.div_mod c 2), (Z.div_mod d 2), He by lia.
  by rewrite !Zmod_odd, Ho.
Qed.

Lemma crc_iter_u32 n c : is_u32 c → is_u32 (Nat.iter n crc_bit c).
Proof. intros Hc. induction n as [|n IH]; simpl; [done|]. by apply crc_bit_u32. Qed.

Lemma crc_iter_inj n c d :
  is_u32 c → is_u32 d → Nat.iter n crc_bit c = Nat.iter n crc_bit d → c = d.
Proof.
  intros Hc Hd. induction n as [|n IH]; simpl; [done|].
  intros He%crc_bit_inj; [by apply IH| |]; by apply crc_iter_u32.
Qed.

Lemma lxor_cancel_r x y z : Z.lxor x z = Z.lxor y z → x = y.
Proof.
  intros He. apply (f_equal (λ w, Z.lxor w z)) in He.
  by rewrite !Z.lxor_assoc, Z.lxor_nilpotent, !Z.lxor_0_r in He.
Qed.

Lemma crc_byte_u32 c b : is_u32 c → is_u32 (crc_byte c b).
Proof. intros Hc. apply crc_iter_u32, lxor_u32; [done|apply u8_u32]. Qed.

Lemma crc_byte_eq c b : crc_byte c b = Nat.iter 8 crc_bit (Z.lxor c (u8 b)).
Proof. done. Qed.

Lemma crc_byte_inj_state c d b :
  is_u32 c → is_u32 d → crc_byte c b = crc_byte d b → c = d.
Proof.
  intros Hc Hd He. rewrite !crc_byte_eq in He.
  apply (crc_iter_inj 8) in He; [|apply lxor_u32; done || apply u8_u32..].
  by apply lxor_cancel_r in He.
Qed.

Lemma crc_byte_inj_byte c a b : is_u32 c → crc_byte c a = crc_byte c b → a = b.
Proof.
  intros Hc He. rewrite !crc_byte_eq in He.
  apply (crc_iter_inj 8) in He; [|apply lxor_u32; done || apply u8_u32..].
  rewrite !(Z.lxor_comm c) in He. apply lxor_cancel_r in He. by apply u8_inj.
Qed.

Lemma crc_fold_u32 l c : is_u32 c → is_u32 (foldl crc_byte c l).
Proof.
  revert c. induction l as [|b l IH]; intros c Hc; simpl; [done|].
  apply IH. by apply crc_byte_u32.
Qed.

Lemma crc_fold_inj l c d :
  is_u32 c → is_u32 d → foldl crc_byte c l = foldl crc_byte d l → c = d.
Proof.
  revert c d. induction l as [|b l IH]; intros c d Hc Hd; simpl; [done|].
  intros He%IH; [|by apply crc_byte_u32..]. by apply crc_byte_inj_state in He.
Qed.

Lemma u32_not_inj x y : u32_not x = u32_not y → x = y.
Proof. apply lxor_cancel_r. Qed.

Lemma u32_max_u32 : is_u32 u32_max.
Proof. done. Qed.

Lemma compute_crc32_u32 len payload : is_u32 (compute_crc32 len payload).
Proof. apply lxor_u32; [apply crc_fold_u32|]; apply u32_max_u32. Qed.

(** Changing one byte of the payload changes the checksum. *)
Lemma crc_single_byte len l1 l2 a b :
  a ≠ b → compute_crc32 len (l1 ++ a :: l2) ≠ compute_crc32 len (l1 ++ b :: l2).
Proof.
  intros Hab He. apply u32_not_inj in He.
  rewrite !(assoc_L (++)), !foldl_app in He. cbn [foldl] in He.
  set (c := foldl crc_byte _ l1) in He.
  assert (is_u32 c) by (do 2 apply crc_fold_u32; apply u32_max_u32).
  apply crc_fold_inj in He; [|by apply crc_byte_u32..].
  by apply crc_byte_inj_byte in He.
Qed.

(** ** Records on disk *)

Definition encode_record (payload : bytes) : bytes :=
  to_le_bytes 4 (Z.of_nat (length payload)) ++ payload ++
  to_le_bytes 4 (compute_crc32 (Z.of_nat (length payload)) payload).
Definition encode_all (ps : list bytes) : bytes := concat (encode_record <$> ps).

(** A payload whose length fits the header. *)
Definition fits (payload : bytes) : Prop := Z.of_nat (length payload) ≤ u32_max.

Lemma length_encode_record p : length (encode_record p) = (length p + 8)%nat.
Proof. unfold encode_record. rewrite !length_app, !length_to_le_bytes. lia. Qed.

Lemma encode_all_cons p ps : encode_all (p :: ps) = encode_record p ++ encode_all ps.
Proof. done. Qed.

Lemma encode_all_app ps qs : encode_all (ps ++ qs) = encode_all ps ++ encode_all qs.
Proof. unfold encode_all. by rewrite fmap_app, concat_app. Qed.

Lemma encode_all_snoc ps p : encode_all (ps ++ [p]) = encode_all ps ++ encode_record p.
Proof. rewrite encode_all_app. unfold encode_all at 2. simpl. by rewrite app_nil_r. Qed.

Lemma from_to_le_4 n : 0 ≤ n ≤ u32_max → from_le_bytes (to_le_bytes 4 n) = n.
Proof. intros Hn. apply from_to_le_bytes_small. unfold u32_max in *. lia. Qed.

Lemma take_header p r :
  fits p → from_le_bytes (take 4 (encode_record p ++ r)) = Z.of_nat (length p).
Proof.
  intros Hf. unfold encode_record. rewrite <-(assoc_L (++)).
  rewrite take_app_le, take_ge by (rewrite length_to_le_bytes; lia).
  apply from_to_le_4. unfold fits in Hf. lia.
Qed.

Section replay.
Import TradeWal.

(** A whole record with the checksum it was written with. *)
Lemma replay_record f p crc r :
  fits p → is_u32 crc →
  replay_loop (S f) (to_le_bytes 4 (Z.of_nat (length p)) ++ p ++ to_le_bytes 4 crc ++ r) =
  if crc =? compute_crc32 (Z.of_nat (length p)) p then p :: replay_loop f r else [].
Proof.
  intros Hf Hcrc. unfold fits, u32_max in Hf. cbn [replay_loop].
  rewrite !length_app, !length_to_le_bytes.
  destruct (Nat.ltb_spec (4 + (length p + (4 + length r))) 4); [lia|].
  rewrite (take_app_le (to_le_bytes 4 _)), take_ge by (rewrite length_to_le_bytes; lia).
  rewrite from_to_le_4 by (unfold u32_max; lia). rewrite Nat2Z.id.
  rewrite drop_app_le, drop_ge, app_nil_l by (rewrite length_to_le_bytes; lia).
  rewrite !length_app, length_to_le_bytes.
  destruct (Nat.ltb_spec (length p + (4 + length r)) (length p + 4)); [lia|].
  rewrite take_app_length, drop_app_length.
  rewrite take_app_le, take_ge by (rewrite length_to_le_bytes; lia).
  rewrite from_to_le_4 by (unfold is_u32, u32_max in *; lia).
  rewrite wrap_small by lia.
  replace (drop (length p + 4) (p ++ to_le_bytes 4 crc ++ r)) with r.
  2: { rewrite <-drop_drop, drop_app_length. rewrite drop_app_le, drop_ge; [done|..];
       rewrite length_to_le_bytes; lia. }
  by destruct (crc =? _).
Qed.

(** A header that claims more than there is. *)
Lemma replay_short f l p :
  fits p → take 4 l = to_le_bytes 4 (Z.of_nat (length p)) → (length l < length p + 8)%nat →
  replay_loop f l = [].
Proof.
  intros Hf Ht Hl. destruct f as [|f]; [done|]. cbn [replay_loop].
  destruct (Nat.ltb_spec (length l) 4); [done|].
  rewrite Ht, from_to_le_4 by (unfold fits in Hf; lia). rewrite Nat2Z.id, length_drop.
  destruct (Nat.ltb_spec (length l - 4) (length p + 4)); [done|lia].
Qed.

(** What a crash can leave after the last whole record. *)
Definition torn (tail : bytes) : Prop :=
  ∃ p n, fits p ∧ (n < length (encode_record p))%nat ∧ tail = take n (encode_record p).

Lemma replay_torn f tail : torn tail → replay_loop f tail = [].
Proof.
  intros (p & n & Hf & Hn & ->). rewrite length_encode_record in Hn.
  destruct (decide (4 ≤ n)%nat).
  - eapply replay_short; [exact Hf| |].
    + rewrite take_take, Nat.min_l by lia. unfold encode_record.
      rewrite take_app_le, take_ge; [done|..]; rewrite length_to_le_bytes; lia.
    + rewrite length_take, length_encode_record. lia.
  - destruct f as [|f]; [done|]. cbn [replay_loop].
    rewrite length_take, length_encode_record.
    destruct (Nat.ltb_spec (n `min` (length p + 8)) 4); [done|lia].
Qed.

Lemma replay_encode_app ps : ∀ f r,
  Forall fits ps →
  replay_loop (length ps + f) (encode_all ps ++ r) = ps ++ replay_loop f r.
Proof.
  induction ps as [|p ps IH]; intros f r Hf; [done|].
  apply Forall_cons in Hf as [Hp Hps]. rewrite encode_all_cons. unfold encode_record at 1. rewrite <-!(assoc_L (++)).
  cbn [length Nat.add]. rewrite replay_record by (done || apply compute_crc32_u32).
  rewrite Z.eqb_refl, IH by done. done.
Qed.

Lemma length_encode_all ps : (length ps ≤ length (encode_all ps))%nat.
Proof.
  induction ps as [|p ps IH]; [done|]. rewrite encode_all_cons.
  rewrite length_app, length_encode_record. cbn [length]. lia.
Qed.

(** Whole records followed by bytes in which the loop finds none. *)
Lemma replay_bytes_app ps r :
  Forall fits ps → (∀ f, replay_loop f r = []) → replay_bytes (encode_all ps ++ r) = ps.
Proof.
  intros Hps Hr. unfold replay_bytes. pose proof (length_encode_all ps) as Hl.
  set (n := S (length (encode_all ps ++ r))).
  assert (length ps ≤ n)%nat as Hn by (subst n; rewrite length_app; lia).
  replace n with (length ps + (n - length ps))%nat by lia.
  by rewrite replay_encode_app, Hr, app_nil_r.
Qed.

Lemma torn_nil : torn [].
Proof. exists [], 0%nat. split_and!; [done| |done]. by vm_compute; lia. Qed.

(** Any prefix of a log is whole records and a torn one. *)
Lemma take_encode_all ps n :
  Forall fits ps → (n ≤ length (encode_all ps))%nat →
  ∃ j tail, take n (encode_all ps) = encode_all (take j ps) ++ tail ∧ torn tail ∧
            (j ≤ length ps)%nat ∧
            ∀ k, (length (encode_all (take k ps)) ≤ n)%nat → (k ≤ j ∨ length ps ≤ j)%nat.
Proof.
  intros Hps. revert n. induction ps as [|p ps IH]; intros n Hn.
  - exists 0%nat, []. split_and!; [by destruct n|apply torn_nil|done|]. intros k _. right. done.
  - apply Forall_cons in Hps as [Hp Hps]. specialize (IH Hps).
    rewrite encode_all_cons in *.
    rewrite length_app in Hn. destruct (decide (n < length (encode_record p))%nat) as [Hlt|Hge].
    + exists 0%nat, (take n (encode_record p)). rewrite take_app_le by lia.
      split_and!; [done| |lia|].
      * exists p, n. done.
      * intros [|k]; [lia|]. rewrite firstn_cons, encode_all_cons, length_app. intros ?. lia.
    + destruct (IH (n - length (encode_record p))%nat) as (j & tail & He & Ht & Hj & Hk); [lia|].
      exists (S j), tail. rewrite take_app_ge, He by lia. rewrite firstn_cons, encode_all_cons.
      split_and!; [by rewrite (assoc_L (++))|done|simpl; lia|].
      intros [|k]; [lia|]. rewrite firstn_cons, encode_all_cons, length_app. intros Hle. specialize (Hk k ltac:(lia)). cbn [length]. lia.
Qed.
End replay.

(** ** The log as a state machine *)

Module WalOp.
Inductive t : Type :=
  | Append (payload : bytes)
  | Sync
  | Replay
  | Truncate.

(** A rejected append leaves the log as it is. *)
Definition apply (op : t) (w : TradeWal.t) : TradeWal.t :=
  match op with
  | Append p => match TradeWal.append p w with Ok (_, w) => w | Err _ => w end
  | Sync => TradeWal.sync w
  | Replay => (TradeWal.replay w).2
  | Truncate => TradeWal.truncate w
  end.
Definition apply_all (ops : list t) (w : TradeWal.t) : TradeWal.t :=
  foldl (λ w op, apply op w) w ops.

(** The specification: the records in the log, and every log a crash may
    bring back, one per change since the last sync, the first being the synced
    one. *)
Definition spec (op : t) (s : list bytes * list (list bytes)) : list bytes * list (list bytes) :=
  match op with
  | Append p =>
      if bool_decide (Z.of_nat (length p) ≤ u32_max) then (s.1 ++ [p], s.2 ++ [s.1 ++ [p]]) else s
  | Sync => (s.1, [s.1])
  | Replay => s
  | Truncate => ([], s.2 ++ [[]])
  end.
Definition spec_all (ops : list t) : list bytes * list (list bytes) :=
  foldl (λ s op, spec op s) ([], [[]]) ops.
(** The records in the log, those a crash may bring back, and the synced ones. *)
Definition records (ops : list t) : list bytes := (spec_all ops).1.
Definition possible (ops : list t) : list (list bytes) := (spec_all ops).2.
Definition synced (ops : list t) : list bytes := default [] (head (possible ops)).
End WalOp.

Section machine.
Import TradeWal.

Definition contents (w : t) : bytes := file w ++ buffer w.

(** The images of a crash behind a flush. *)
Definition exposes (w : t) (b : bytes) : Prop :=
  Unsynced.image (stable w) (pending w ++ [Unsynced.Appended (buffer w)]) b.

Lemma exposes_iff w b :
  exposes w b ↔ Unsynced.image (stable w) (pending w) b ∨ ∃ n, b = file w ++ take n (buffer w).
Proof. apply image_snoc. Qed.

Lemma exposes_contents w : exposes w (contents w).
Proof. apply exposes_iff. right. exists (length (buffer w)). by rewrite take_ge. Qed.

(** [data] was written behind what was there. *)
Record grows (data : bytes) (w w' : t) : Prop := {
  grows_contents : contents w' = contents w ++ data;
  grows_stable : stable w' = stable w;
  grows_images b : exposes w' b → exposes w b ∨ ∃ n, b = contents w ++ take n data;
  grows_bytes : bytes_written w' = bytes_written w;
}.

Lemma grows_trans d1 d2 w1 w2 w3 : grows d1 w1 w2 → grows d2 w2 w3 → grows (d1 ++ d2) w1 w3.
Proof.
  intros [C1 S1 I1 B1] [C2 S2 I2 B2]. split; [by rewrite C2, C1, (assoc_L (++))|congruence| |congruence].
  intros b [Hb|[n ->]]%I2.
  - destruct (I1 b Hb) as [?|[n ->]]; [by left|right]. exists (n `min` length d1)%nat.
    rewrite take_app_le by lia. destruct (decide (n ≤ length d1)%nat); [by rewrite Nat.min_l|].
    by rewrite Nat.min_r, !take_ge by lia.
  - right. exists (length d1 + n)%nat. by rewrite C1, take_app_add, <-(assoc_L (++)).
Qed.

Lemma flush_contents w : contents (flush w) = contents w.
Proof. unfold contents, flush, file. cbn. by rewrite contents_snoc, app_nil_r. Qed.

Lemma file_flush w : file (flush w) = contents w.
Proof. unfold file, flush, contents. cbn. by rewrite contents_snoc. Qed.

Lemma flush_grows w : grows [] w (flush w).
Proof.
  split; [by rewrite flush_contents, app_nil_r|done| |done].
  intros b [Hb|[n ->]]%exposes_iff; [by left|right]. exists 0%nat. cbn [flush buffer].
  rewrite !take_nil, !app_nil_r. unfold file, flush. cbn. by rewrite contents_snoc.
Qed.

Lemma direct_grows data w :
  buffer w = [] → grows data w (change (Unsynced.Appended data) w).
Proof.
  intros Hb. unfold change. rewrite Hb. split; [|done| |done].
  - unfold contents, file. cbn. rewrite Hb, contents_snoc. cbn. by rewrite !app_nil_r.
  - intros b. rewrite exposes_iff. unfold file. cbn. intros [Hi|[n ->]].
    + apply image_snoc in Hi as [Hi|[n ->]]; [left; apply exposes_iff; by left|right].
      exists n. unfold contents, file. by rewrite Hb, app_nil_r.
    + right. exists (length data). rewrite take_nil, app_nil_r, contents_snoc, take_ge by lia.
      unfold contents, file. by rewrite Hb, app_nil_r.
Qed.

Lemma buffered_grows data w :
  grows data w (mk (stable w) (pending w) (buffer w ++ data) (bytes_written w)).
Proof.
  split; [unfold contents, file; cbn; by rewrite (assoc_L (++))|done| |done].
  intros b. rewrite !exposes_iff. unfold contents, file. cbn. intros [Hi|[n ->]]; [by left; left|].
  destruct (decide (n ≤ length (buffer w))%nat).
  - left. right. exists n. by rewrite take_app_le.
  - right. exists (n - length (buffer w))%nat. by rewrite take_app_ge, (assoc_L (++)) by lia.
Qed.

Lemma write_all_grows data w : grows data w (write_all data w).
Proof.
  unfold write_all. set (full := _ <? _). set (w1 := if full then flush w else w).
  assert (grows [] w w1) as H1.
  { subst w1. destruct full; [apply flush_grows|]. split; [by rewrite app_nil_r|done|by left|done]. }
  apply (grows_trans [] data _ w1); [done|]. destruct (Z.leb_spec capacity (Z.of_nat (length data))) as [Hd|Hd].
  - apply direct_grows. subst w1 full. assert (0 < capacity) as Hcap by done. revert Hcap Hd.
    generalize capacity as cap. intros cap Hcap Hd.
    destruct (Z.ltb_spec (cap - Z.of_nat (length (buffer w))) (Z.of_nat (length data))); [done|].
    apply nil_length_inv. lia.
  - apply buffered_grows.
Qed.

Lemma write_all_bytes data w : bytes_written (write_all data w) = bytes_written w.
Proof. exact (grows_bytes _ _ _ (write_all_grows data w)). Qed.

(** A write that fits the buffer stays there. *)
Lemma write_all_small data w :
  Z.of_nat (length (buffer w)) + Z.of_nat (length data) ≤ capacity →
  Z.of_nat (length data) < capacity →
  write_all data w = mk (stable w) (pending w) (buffer w ++ data) (bytes_written w).
Proof.
  intros Hb Hd. unfold write_all.
  destruct (Z.ltb_spec (capacity - Z.of_nat (length (buffer w))) (Z.of_nat (length data))); [lia|].
  destruct (Z.leb_spec capacity (Z.of_nat (length data))); [lia|done].
Qed.

Lemma append_small p w :
  Z.of_nat (length (buffer w)) + Z.of_nat (length p) + 8 < capacity →
  ∃ off, append p w = Ok (off, mk (stable w) (pending w) (buffer w ++ encode_record p) off).
Proof.
  intros Hb. unfold append. change capacity with 65536 in Hb.
  assert (checked 0 u32_max (Z.of_nat (length p)) = Some (Z.of_nat (length p))) as ->
    by (apply checked_Some; unfold u32_max; lia).
  cbn [ok_or]. unfold mbind, result_bind.
  assert (∀ z, length (to_le_bytes 4 z) = 4%nat) as H4 by (intros; apply length_to_le_bytes).
  assert (capacity = 65536) as Hcap by done.
  rewrite (write_all_small _ w) by (rewrite H4, Hcap; lia).
  rewrite (write_all_small p)
    by (cbn [buffer]; rewrite ?length_app, ?H4, Hcap; lia).
  rewrite write_all_small
    by (cbn [buffer]; rewrite ?length_app, ?H4, Hcap; lia).
  eexists. cbn [stable pending buffer bytes_written]. rewrite <-!(assoc_L (++)). done.
Qed.

Lemma append_Ok p w r w' :
  append p w = Ok (r, w') →
  fits p ∧ ∃ w1, grows (encode_record p) w w1 ∧ w' = mk (stable w1) (pending w1) (buffer w1) r ∧
  r = wrap 64 (bytes_written w + Z.of_nat (length (encode_record p))).
Proof.
  unfold append. intros Ha. inv_ok Ha. apply ok_or_Ok, checked_Some in Ha0 as [-> Hf].
  injection Ha as <- <-. split; [unfold fits; lia|]. eexists. split; [|split].
  - unfold encode_record. eapply grows_trans, grows_trans; apply write_all_grows.
  - done.
  - transitivity (wrap 64 (bytes_written
      (write_all (to_le_bytes 4 (compute_crc32 (Z.of_nat (length p)) p))
        (write_all p (write_all (to_le_bytes 4 (Z.of_nat (length p))) w))) + (4 + Z.of_nat (length p) + 4))); [done|].
    f_equal. rewrite !write_all_bytes, length_encode_record. lia.
Qed.

Lemma append_Err p w e :
  append p w = Err e → ¬ fits p ∧ e = PersistenceError.InvalidTrade "payload larger than 4 GiB rejected".
Proof.
  unfold append. destruct (checked 0 u32_max (Z.of_nat (length p))) as [n|] eqn:Hc; simpl; [done|].
  intros [= <-]. apply checked_None in Hc. split; [|done]. unfold fits. lia.
Qed.

Lemma append_fits p w : fits p → ∃ r, append p w = Ok r.
Proof.
  intros Hf. destruct (append p w) as [r|e] eqn:Ha; [by eexists|].
  by apply append_Err in Ha as [? _].
Qed.

Lemma append_contents p w r w' :
  append p w = Ok (r, w') → contents w' = contents w ++ encode_record p.
Proof. intros (_ & w1 & Hg & -> & _)%append_Ok. exact (grows_contents _ _ _ Hg). Qed.

(** Some possible log, and a torn record behind it. *)
Definition shows (possible : list (list bytes)) (b : bytes) : Prop :=
  ∃ log tail, log ∈ possible ∧ Forall fits log ∧ torn tail ∧ b = encode_all log ++ tail.

Lemma shows_whole possible log : log ∈ possible → Forall fits log → shows possible (encode_all log).
Proof. intros Hin Hf. exists log, []. split_and!; [done|done|apply torn_nil|by rewrite app_nil_r]. Qed.

Lemma shows_mono l1 l2 b : shows l1 b → shows (l1 ++ l2) b.
Proof.
  intros (log & tail & Hin & Hb). exists log, tail. split; [|done]. apply elem_of_app. by left.
Qed.

(** Within one more record. *)
Lemma shows_record log p n possible :
  log ∈ possible → Forall fits log → fits p →
  shows (possible ++ [log ++ [p]]) (encode_all log ++ take n (encode_record p)).
Proof.
  intros Hin Hf Hp. destruct (decide (n < length (encode_record p))%nat).
  - exists log, (take n (encode_record p)). split_and!; [apply elem_of_app; by left|done|by exists p, n|done].
  - rewrite take_ge, <-encode_all_snoc by lia. apply shows_whole; [apply elem_of_app; right; set_solver|].
    apply Forall_app. split; [done|]. by apply Forall_singleton.
Qed.

Lemma shows_replay possible b : shows possible b → replay_bytes b ∈ possible.
Proof.
  intros (log & tail & Hin & Hf & Ht & ->).
  rewrite (replay_bytes_app log tail Hf) by (intros f; by apply replay_torn). done.
Qed.

Record wal_inv (w : t) (log : list bytes) (possible : list (list bytes)) : Prop := {
  inv_fits : Forall fits log;
  inv_contents : contents w = encode_all log;
  inv_log : log ∈ possible;
  inv_stable : ∃ first rest, possible = first :: rest ∧ Forall fits first ∧ stable w = encode_all first;
  inv_images b : exposes w b → shows possible b;
}.

Lemma apply_inv op w log possible :
  wal_inv w log possible →
  wal_inv (WalOp.apply op w) (WalOp.spec op (log, possible)).1 (WalOp.spec op (log, possible)).2.
Proof.
  intros [Hf Hc Hl (first & rest & Hp & Hff & Hs) Hi].
  destruct op as [p| | |]; cbn [WalOp.apply WalOp.spec fst snd].
  - case_bool_decide as Hfp.
    + destruct (append_fits p w Hfp) as [[r w'] Ha]. rewrite Ha.
      apply append_Ok in Ha as (_ & w1 & [Gc Gs Gi _] & -> & _).
      assert (Forall fits (log ++ [p])) as Hf'
        by (apply Forall_app; split; [done|by apply Forall_singleton]).
      constructor; cbn [fst snd].
      * done.
      * rewrite encode_all_snoc, <-Hc. exact Gc.
      * set_solver.
      * exists first, (rest ++ [log ++ [p]]). subst possible. cbn [stable]. by rewrite Gs.
      * intros b [Hb|[n ->]]%Gi; [by apply shows_mono, Hi|]. rewrite Hc. by apply shows_record.
    + destruct (append p w) as [[r w']|e] eqn:Ha.
      * by apply append_Ok in Ha as [? _].
      * constructor; cbn [fst snd]; eauto.
  - pose proof (flush_contents w) as Hfl. constructor; cbn [fst snd]; [done| |set_solver| |].
    + unfold contents, sync, file. cbn. rewrite app_nil_r, <-Hc, <-Hfl. unfold contents, file. cbn.
      by rewrite app_nil_r.
    + exists log, []. split_and!; [done|done|]. unfold sync. cbn [stable]. rewrite <-Hc, <-Hfl.
      unfold contents. cbn [flush buffer]. by rewrite app_nil_r.
    + intros b Hb. assert (b = encode_all log) as ->; [|apply shows_whole; [set_solver|done]].
      rewrite <-Hc, <-Hfl. unfold contents. cbn [flush buffer]. rewrite app_nil_r.
      apply exposes_iff in Hb as [Hb|[n ->]].
      * unfold sync in Hb. cbn [stable pending] in Hb.
        inversion Hb as [k E|k data n Hk E]; [by rewrite take_nil|done].
      * unfold sync, file at 1. cbn. by rewrite take_nil, app_nil_r.
  - destruct (flush_grows w) as [Gc Gs Gi _]. rewrite app_nil_r in Gc.
    constructor; cbn [fst snd]; [done|by rewrite <-Hc|done|by exists first, rest|].
    intros b [Hb|[n ->]]%Gi; [by apply Hi|]. rewrite take_nil, app_nil_r. apply Hi, exposes_contents.
  - constructor; cbn [fst snd]; [done| |set_solver| |].
    + unfold truncate, contents, file. cbn. by rewrite contents_snoc.
    + exists first, (rest ++ [[]]). subst possible. done.
    + intros b Hb. apply exposes_iff in Hb as [Hb|[n ->]].
      * unfold truncate, change in Hb. cbn [stable pending] in Hb.
        apply image_snoc in Hb as [Hb| ->]; [by apply shows_mono, Hi|].
        apply (shows_whole _ []); [set_solver|done].
      * unfold truncate, file. cbn. rewrite contents_snoc. cbn. rewrite take_nil.
        apply (shows_whole _ []); [set_solver|done].
Qed.

Lemma wal_open_inv : wal_inv (open []) [] [[]].
Proof.
  constructor; [done|done|set_solver|by exists [], []|].
  intros b [Hb|[n ->]]%exposes_iff.
  - cbn [open stable pending] in Hb. inversion Hb as [k E|k data n Hk E]; [|done].
    rewrite take_nil. apply (shows_whole _ []); [set_solver|done].
  - cbn. rewrite take_nil. apply (shows_whole _ []); [set_solver|done].
Qed.

Lemma apply_all_inv ops :
  wal_inv (WalOp.apply_all ops (open [])) (WalOp.records ops) (WalOp.possible ops).
Proof.
  unfold WalOp.apply_all, WalOp.records, WalOp.possible, WalOp.spec_all.
  induction ops as [|op ops IH] using rev_ind; [apply wal_open_inv|].
  rewrite !foldl_app. cbn [foldl].
  destruct (foldl (λ s op, WalOp.spec op s) ([], [[]]) ops) as [log possible].
  by apply apply_inv.
Qed.

Lemma replay_inv w log possible : wal_inv w log possible → (replay w).1 = log.
Proof.
  intros [Hf Hc _ _ _]. unfold replay. cbn [fst].
  rewrite file_flush, Hc.
  rewrite <-(app_nil_r (encode_all log)). apply replay_bytes_app; [done|].
  intros f. apply replay_torn, torn_nil.
Qed.

Lemma replay_open b : (replay (open b)).1 = replay_bytes b.
Proof. unfold replay, file. cbn. by rewrite app_nil_r. Qed.

Lemma crash_inv w w' log possible : wal_inv w log possible → crash w w' → (replay w').1 ∈ possible.
Proof.
  intros Hw [b Hb]. rewrite replay_open. apply shows_replay, (inv_images _ _ _ Hw), exposes_iff. by left.
Qed.

Lemma file_truncate w : file (truncate w) = [].
Proof. unfold truncate, file. cbn. apply contents_snoc. Qed.

Lemma replay_truncate w : (replay (truncate w)).1 = [].
Proof. unfold replay. cbn [fst]. rewrite file_flush. unfold contents. by rewrite file_truncate. Qed.

(** Whole records in front of anything. *)
Lemma replay_encode_prefix ps r : Forall fits ps → ps `prefix_of` replay_bytes (encode_all ps ++ r).
Proof.
  intros Hf. unfold replay_bytes. pose proof (length_encode_all ps) as Hl.
  set (n := S (length (encode_all ps ++ r))).
  assert (length ps ≤ n)%nat as Hn by (subst n; rewrite length_app; lia).
  replace n with (length ps + (n - length ps))%nat by lia.
  rewrite replay_encode_app by done. apply prefix_app_r. done.
Qed.

(** Behind a sync and without a truncation every possible log is between the
    synced one and the present one. *)
Lemma possible_between ops1 ops2 :
  WalOp.Truncate ∉ ops2 →
  let ops := ops1 ++ WalOp.Sync :: ops2 in
  WalOp.records ops1 `prefix_of` WalOp.records ops ∧
  Forall (λ log, WalOp.records ops1 `prefix_of` log ∧ log `prefix_of` WalOp.records ops) (WalOp.possible ops).
Proof.
  intros Ht ops. subst ops. unfold WalOp.records, WalOp.possible, WalOp.spec_all.
  rewrite foldl_app. cbn [foldl WalOp.spec]. set (first := (foldl _ _ ops1).1).
  induction ops2 as [|op ops2 IH] using rev_ind; [by repeat constructor|].
  rewrite foldl_app. cbn [foldl]. destruct (foldl _ (first, [first]) ops2) as [log possible].
  cbn [fst snd] in IH. destruct IH as [Hl Hp]; [set_solver|].
  destruct op as [p| | |]; cbn [WalOp.spec fst snd].
  - case_bool_decide; [|done]. cbn [fst snd].
    assert (log `prefix_of` log ++ [p]) as Hle by (by apply prefix_app_r).
    split; [by etransitivity|]. apply Forall_app. split; [|apply Forall_singleton; split; [by etransitivity|done]].
    eapply Forall_impl; [exact Hp|]. intros l [H1 H2]. split; [done|by etransitivity].
  - split; [done|]. by apply Forall_singleton.
  - done.
  - set_solver.
Qed.

(** Log round trip. After any sequence of appends, syncs, replays and
    truncations on a fresh log, replay returns exactly the payloads appended
    since the last truncation, in order; only a payload of 4 GiB or more is
    refused, and then the log is unchanged. The buffering of the writer does
    not show. *)
Theorem wal_roundtrip (ops : list WalOp.t) :
  (replay (WalOp.apply_all ops (open []))).1 = WalOp.records ops.
Proof. eapply replay_inv, apply_all_inv. Qed.

(** (C12) Crash recovery. After any operations on a fresh log and a crash that
    lets a prefix of the changes since the last sync reach the disk, the last one
    in part, replay of the reopened log terminates with the records the log held
    at one of the moments since that sync: no record is invented, reordered or
    cut, but one may come back from behind a truncation, which is not synced.
    Unless the log was truncated since a sync, everything appended before that
    sync is there, and what is there is a prefix of the log. And the synced
    records are read whatever a crash leaves behind their bytes, in whatever
    order the rest reached the disk. *)
Theorem wal_crash_recovery (ops : list WalOp.t) :
  let w := WalOp.apply_all ops (open []) in
  (∀ w', crash w w' →
     (replay w').1 ∈ WalOp.possible ops ∧
     ∀ ops1 ops2, ops = ops1 ++ WalOp.Sync :: ops2 → WalOp.Truncate ∉ ops2 →
       WalOp.records ops1 `prefix_of` (replay w').1 ∧ (replay w').1 `prefix_of` WalOp.records ops) ∧
  (∀ junk, WalOp.synced ops `prefix_of` (replay (open (stable w ++ junk))).1).
Proof.
  intros w. pose proof (apply_all_inv ops) as Hinv. fold w in Hinv. split.
  - intros w' Hc. pose proof (crash_inv _ _ _ _ Hinv Hc) as Hin. split; [exact Hin|].
    intros ops1 ops2 -> Ht. destruct (possible_between ops1 ops2 Ht) as [_ Hp].
    rewrite Forall_forall in Hp. by apply Hp.
  - intros junk. destruct (inv_stable _ _ _ Hinv) as (first & rest & Hp & Hf & ->).
    rewrite replay_open. unfold WalOp.synced. rewrite Hp. cbn. by apply replay_encode_prefix.
Qed.

(** A truncation need not last. A record that was synced and then truncated
    away is gone for replay, but a crash can bring it back, because [truncate]
    does not sync. *)
Theorem truncate_not_durable (p : bytes) :
  fits p →
  let w := WalOp.apply_all [WalOp.Append p; WalOp.Sync; WalOp.Truncate] (open []) in
  (replay w).1 = [] ∧ ∃ w', crash w w' ∧ (replay w').1 = [p].
Proof.
  intros Hp w. split; [apply replay_truncate|].
  destruct (append_fits p (open []) Hp) as [[r w1] Ha]. pose proof (append_contents _ _ _ _ Ha) as Hc.
  exists (open (encode_all [p])). split.
  - assert (stable w = encode_all [p]) as Hs.
    { subst w. unfold WalOp.apply_all. cbn [foldl WalOp.apply]. rewrite Ha.
      change (file (flush w1) = encode_all [p]). rewrite <-(app_nil_r (file _)).
      change (contents (flush w1) = encode_all [p]). rewrite flush_contents, Hc.
      by rewrite encode_all_cons, app_nil_r. }
    constructor. rewrite <-Hs. apply (Unsynced.image_between _ _ 0).
  - rewrite replay_open, <-(app_nil_r (encode_all [p])). apply replay_bytes_app; [by apply Forall_singleton|].
    intros f. apply replay_torn, torn_nil.
Qed.

(** Corruption is detected. A log in which one byte of one payload was
    changed replays exactly the records before the damaged one: the damaged
    payload is never delivered, whatever follows it. *)
Theorem wal_detects_corruption (ps : list bytes) (l1 l2 rest : bytes) (a b : byte) :
  Forall fits ps → fits (l1 ++ a :: l2) → a ≠ b →
  replay_bytes (encode_all ps ++
    to_le_bytes 4 (Z.of_nat (length (l1 ++ a :: l2))) ++ (l1 ++ b :: l2) ++
    to_le_bytes 4 (compute_crc32 (Z.of_nat (length (l1 ++ a :: l2))) (l1 ++ a :: l2)) ++ rest)
  = ps.
Proof.
  intros Hps Hf Hab. apply replay_bytes_app; [done|]. intros [|f]; [done|].
  assert (length (l1 ++ a :: l2) = length (l1 ++ b :: l2)) as Hlen by (rewrite !length_app; done).
  rewrite Hlen. rewrite replay_record; [|unfold fits in *; by rewrite <-Hlen
    |apply compute_crc32_u32].
  destruct (Z.eqb_spec (compute_crc32 (Z.of_nat (length (l1 ++ b :: l2))) (l1 ++ a :: l2))
    (compute_crc32 (Z.of_nat (length (l1 ++ b :: l2))) (l1 ++ b :: l2))) as [He|]; [|done].
  by apply crc_single_byte in He.
Qed.

(** Appending behind a torn record loses data. [open] appends behind
    whatever a crash left. If that is a record torn after its length field,
    the new records, synced or not, are read as the rest of its payload:
    replay returns none of them until they fill up the claimed length. *)
Theorem append_after_torn_unreadable (p : bytes) (n : nat) (qs : list bytes) :
  fits p → (4 ≤ n)%nat → Forall fits qs →
  (n + length (encode_all qs) < length (encode_record p))%nat →
  let w := WalOp.apply_all ((WalOp.Append <$> qs) ++ [WalOp.Sync])
             (open (take n (encode_record p))) in
  file w = take n (encode_record p) ++ encode_all qs ∧ (replay w).1 = [].
Proof.
  intros Hp Hn Hqs Hlt w.
  assert (contents (WalOp.apply_all (WalOp.Append <$> qs) (open (take n (encode_record p)))) =
          take n (encode_record p) ++ encode_all qs) as Hc.
  { clear Hlt. unfold WalOp.apply_all. clear w. induction qs as [|q qs IH] using rev_ind.
    - done.
    - apply Forall_app in Hqs as [Hqs Hq]. apply Forall_cons in Hq as [Hq _].
      rewrite fmap_app, foldl_app. cbn [fmap list_fmap foldl WalOp.apply].
      destruct (append_fits q (foldl (λ w op, WalOp.apply op w) (open (take n (encode_record p)))
        (WalOp.Append <$> qs)) Hq) as [[r w'] Ha]. rewrite Ha.
      rewrite (append_contents _ _ _ _ Ha), IH by done. by rewrite encode_all_snoc, (assoc_L (++)). }
  assert (file w = take n (encode_record p) ++ encode_all qs) as Hfile.
  { subst w. unfold WalOp.apply_all in *. rewrite foldl_app. cbn [foldl WalOp.apply].
    rewrite <-Hc. apply file_flush. }
  split; [done|]. unfold replay. cbn [fst]. rewrite file_flush. unfold contents.
  replace (buffer w) with (@nil byte).
  2: { subst w. unfold WalOp.apply_all. rewrite foldl_app. done. }
  rewrite app_nil_r, Hfile. unfold replay_bytes. apply (replay_short _ _ p); [done| |].
  - rewrite length_encode_record in Hlt.
    rewrite take_app_le by (rewrite length_take, length_encode_record; lia).
    rewrite take_take, Nat.min_l by lia. unfold encode_record.
    rewrite take_app_le, take_ge; [done|..]; rewrite length_to_le_bytes; lia.
  - rewrite length_encode_record in Hlt.
    rewrite length_app, length_take, length_encode_record. lia.
Qed.
End machine.

Lemma wal_crash_recovery_witness :
  let ops := [WalOp.Append (bs "one"); WalOp.Sync; WalOp.Append (bs "two"); WalOp.Replay] in
  let w := WalOp.apply_all ops (TradeWal.open []) in
  let after n := (TradeWal.replay (TradeWal.open (take n (TradeWal.file w)))).1 in
  after 15%nat ∈ WalOp.possible ops ∧ [bs "one"] `prefix_of` after 15%nat ∧
  WalOp.possible ops = [[bs "one"]; [bs "one"; bs "two"]].
Proof.
  intros ops w after.
  assert (TradeWal.crash w (TradeWal.open (take 15 (TradeWal.file w)))) as Hc.
  { constructor. assert (take 15 (TradeWal.file w) = TradeWal.stable w ++ take 4 (encode_record (bs "two"))) as ->
      by (vm_compute; reflexivity).
    apply (Unsynced.image_within _ _ 0). vm_compute. reflexivity. }
  destruct (wal_crash_recovery ops) as [Hcrash _]. destruct (Hcrash _ Hc) as [Hin Hsync].
  split; [exact Hin|]. split; [|vm_compute; reflexivity].
  apply (Hsync [WalOp.Append (bs "one")] [WalOp.Append (bs "two"); WalOp.Replay]); [reflexivity|].
  intros Ht. apply elem_of_cons in Ht as [Ht|Ht]; [discriminate Ht|].
  apply list_elem_of_singleton in Ht. discriminate Ht.
Defined.

Lemma truncate_not_durable_witness :
  let w := WalOp.apply_all [WalOp.Append (bs "one"); WalOp.Sync; WalOp.Truncate] (TradeWal.open []) in
  (TradeWal.replay w).1 = [] ∧ ∃ w', TradeWal.crash w w' ∧ (TradeWal.replay w').1 = [bs "one"].
Proof. apply (truncate_not_durable (bs "one")). vm_compute. discriminate. Defined.

Lemma wal_detects_corruption_witness :
  TradeWal.replay_bytes (encode_all [bs "one"] ++ to_le_bytes 4 3 ++ bs "tWo" ++
    to_le_bytes 4 (compute_crc32 3 (bs "two")) ++ encode_record (bs "three")) = [bs "one"].
Proof.
  apply (wal_detects_corruption [bs "one"] (bs "t") (bs "o") (encode_record (bs "three"))
    "w"%byte "W"%byte).
  - apply Forall_cons. split; [vm_compute; discriminate|apply Forall_nil; done].
  - vm_compute; discriminate.
  - discriminate.
Defined.

Lemma append_after_torn_unreadable_witness :
  (TradeWal.replay (WalOp.apply_all [WalOp.Append (bs "x"); WalOp.Sync]
    (TradeWal.open (take 6 (encode_record (bs "a longer payload")))))).1 = [].
Proof.
  apply (append_after_torn_unreadable (bs "a longer payload") 6 [bs "x"]).
  - vm_compute; discriminate.
  - lia.
  - apply Forall_cons. split; [vm_compute; discriminate|apply Forall_nil; done].
  - apply Nat.ltb_lt. vm_compute. reflexivity.
Defined.
