(* ===== verification/DiskLog.v ===== *)
(** * The log on a disk that can fail ([persistence/src/wal.rs])

    [TradeWal] again, with the answers of the operating system as a script:
    every call on the file goes through or fails, a write after some of its
    bytes. What a crash can expose is as in [Wal.v], which is the same log on a
    disk without faults ([faultless_refines]). *)

From S2P Require Import Prelude RustInt RustIo Wal.

(** ** The file *)

Module Disk.

(** What is certain to survive, the changes made since, and the outcomes of
    the calls to come; behind the script every call goes through. *)
Record t : Type := mk {
  stable : bytes;
  pending : list Unsynced.change;
  script : list Writer.outcome;
}.

Definition contents (d : t) : bytes := Unsynced.contents (stable d) (pending d).
Definition push (c : Unsynced.change) (d : t) : t := mk (stable d) (pending d ++ [c]) (script d).

(** The outcome of the next call. *)
Definition answer (d : t) : Writer.outcome * t :=
  match script d with
  | [] => (Writer.Accept, d)
  | o :: s => (o, mk (stable d) (pending d) s)
  end.

(** A call that changes the file by [f] if it goes through and not at all
    otherwise. *)
Definition call (f : t → t) : st t IoError.t () := λ d,
  match answer d with
  | (Writer.Accept, d) => (Ok (), f d)
  | (Writer.Fail _ e, d) => (Err e, d)
  end.

(** [Write::write_all] on the file; the error says how much was written. No
    call is made for no bytes. *)
Definition write_all (data : bytes) : st t (nat * IoError.t) () := λ d,
  match data with
  | [] => (Ok (), d)
  | _ =>
      match answer d with
      | (Writer.Accept, d) => (Ok (), push (Unsynced.Appended data) d)
      | (Writer.Fail n e, d) => (Err (n, e), push (Unsynced.Appended (take n data)) d)
      end
  end.

Definition sync_all : st t IoError.t () := call (λ d, mk (contents d) [] (script d)).
Definition set_len_0 : st t IoError.t () := call (push Unsynced.Emptied).
Definition rewind : st t IoError.t () := call id.
(** A call that opens the file or creates its directory. *)
Definition touch : st t IoError.t () := call id.
Definition metadata_len : st t IoError.t Z := touch ;; gets (λ d, Z.of_nat (length (contents d))).
Definition read_to_end : st t IoError.t bytes := touch ;; gets contents.

(** What can be on the disk after a crash. *)
Definition image (d : t) : bytes → Prop := Unsynced.image (stable d) (pending d).
End Disk.

(** ** The buffered writer

    [BufWriter<File>]: a failed flush keeps the bytes it could not write. *)
Module BufWriter.

Record t : Type := mk {
  inner : Disk.t;
  buf : bytes;
}.

Definition capacity : Z := 64 * 1024.

Definition flush_buf : st t IoError.t () := λ w,
  match Disk.write_all (buf w) (inner w) with
  | (Ok _, d) => (Ok (), mk d [])
  | (Err (n, e), d) => (Err e, mk d (drop n (buf w)))
  end.

(** A call on the file itself. *)
Definition get_ref {A} (m : st Disk.t IoError.t A) : st t IoError.t A := λ w,
  let '(r, d) := m (inner w) in (r, mk d (buf w)).

(** [flush] of a file has nothing to do. *)
Definition flush : st t IoError.t () := flush_buf.

Definition push (data : bytes) (w : t) : t := mk (inner w) (buf w ++ data).

Definition write_all (data : bytes) : st t IoError.t () := λ w,
  ((if capacity - Z.of_nat (length (buf w)) <? Z.of_nat (length data) then flush_buf else mret ()) ;;
   if capacity <=? Z.of_nat (length data) then get_ref (catch snd (Disk.write_all data))
   else modify (push data)) w.

(** What has been written, buffered or not. *)
Definition total (w : t) : bytes := Disk.contents (inner w) ++ buf w.
End BufWriter.

(** ** The log *)

Module DiskWal.

Record t : Type := mk {
  writer : BufWriter.t;
  bytes_written : Z;
}.

(** [?] on an [io::Error]. *)
Definition io {A} (m : st BufWriter.t IoError.t A) : st t PersistenceError.t A := λ w,
  let '(r, wr) := catch (λ _, PersistenceError.Wal) m (writer w) in (r, mk wr (bytes_written w)).

(** [has_parent]: the path has a directory, which is created if missing. *)
Definition open (has_parent : bool) (d : Disk.t) : result PersistenceError.t t :=
  let '(r, d) := (((if has_parent then Disk.touch else mret ()) ;;
                   Disk.touch ;;
                   Disk.metadata_len : st Disk.t IoError.t Z) d) in
  match r with
  | Ok len => Ok (mk (BufWriter.mk d []) len)
  | Err _ => Err PersistenceError.Wal
  end.

Definition append (payload : bytes) : st t PersistenceError.t Z :=
  len ← lift (ok_or (checked 0 u32_max (Z.of_nat (length payload)))
                (PersistenceError.InvalidTrade "payload larger than 4 GiB rejected"));
  let crc := compute_crc32 len payload in
  io (BufWriter.write_all (to_le_bytes 4 len)) ;;
  io (BufWriter.write_all payload) ;;
  io (BufWriter.write_all (to_le_bytes 4 crc)) ;;
  let written := 4 + Z.of_nat (length payload) + 4 in
  modify (λ w, mk (writer w) (wrap 64 (bytes_written w + written))) ;;
  gets bytes_written.

Definition sync : st t PersistenceError.t () :=
  io BufWriter.flush ;;
  io (BufWriter.get_ref Disk.sync_all).

Definition replay : st t PersistenceError.t (list bytes) :=
  io BufWriter.flush ;;
  io (BufWriter.get_ref Disk.touch) ;;
  io (BufWriter.get_ref Disk.rewind) ;;
  buf ← io (BufWriter.get_ref Disk.read_to_end);
  mret (TradeWal.replay_bytes buf).

Definition truncate : st t PersistenceError.t () :=
  io BufWriter.flush ;;
  io (BufWriter.get_ref Disk.set_len_0) ;;
  io (BufWriter.get_ref Disk.rewind) ;;
  modify (λ w, mk (writer w) 0).

(** A fresh log, and a log opened on what a crash left. *)
Definition fresh (script : list Writer.outcome) : t :=
  mk (BufWriter.mk (Disk.mk [] [] script) []) 0.
Inductive crash (w : t) : t → Prop :=
  | crash_intro b script :
      Disk.image (BufWriter.inner (writer w)) b →
      crash w (mk (BufWriter.mk (Disk.mk b [] script) []) (Z.of_nat (length b))).

Definition total (w : t) : bytes := BufWriter.total (writer w).
Definition image (w : t) : bytes → Prop := Disk.image (BufWriter.inner (writer w)).
End DiskWal.

(** ** What the calls leave behind *)

Section disk.
Import Disk.

(** Every image a crash can leave starts with [p]. *)
Definition holds (p : bytes) (d : t) : Prop := ∀ b, image d b → p `prefix_of` b.

(** Whatever was certain to survive still is. *)
Definition safe (d d' : t) : Prop := ∀ p, holds p d → holds p d'.
#[export] Instance safe_preorder : PreOrder safe.
Proof. split; unfold safe; [by intros ?|by eauto]. Qed.

Lemma image_contents d : image d (contents d).
Proof. apply image_all. Qed.

Lemma holds_contents p d : holds p d → p `prefix_of` contents d.
Proof. intros Hp. apply Hp, image_contents. Qed.

Lemma contents_push c d : contents (push c d) = Unsynced.apply (contents d) c.
Proof. apply contents_snoc. Qed.

Lemma image_push data d b :
  image (push (Unsynced.Appended data) d) b ↔ image d b ∨ ∃ n, b = contents d ++ take n data.
Proof. apply (image_snoc (stable d) (pending d)). Qed.

Lemma safe_push data d : safe d (push (Unsynced.Appended data) d).
Proof.
  intros p Hp b [Hb|[n ->]]%image_push; [by apply Hp|].
  apply prefix_app_r. by apply holds_contents.
Qed.

Lemma image_same d d' b : stable d' = stable d → pending d' = pending d → image d b → image d' b.
Proof. unfold image. by intros -> ->. Qed.

Lemma holds_stable p b s : p `prefix_of` b → holds p (mk b [] s).
Proof. intros Hp ? [k|k data n Hk]; cbn in *; [by rewrite take_nil|done]. Qed.

(** Taking an outcome off the script leaves the file alone. *)
Lemma answer_file d o d' :
  answer d = (o, d') → contents d' = contents d ∧ safe d d' ∧ safe d' d.
Proof.
  unfold answer. destruct (script d) as [|o' s] eqn:Hs; intros [= _ <-]; [done|].
  split_and!; [done|intros p Hp b Hb; apply Hp; (eapply image_same; [| |exact Hb]); done..].
Qed.

Lemma write_all_disk data d r d' :
  write_all data d = (r, d') →
  safe d d' ∧ contents d' = contents d ++ match r with Ok _ => data | Err (n, _) => take n data end.
Proof.
  unfold write_all. destruct data as [|b0 data].
  { intros [= <- <-]. by rewrite app_nil_r. }
  destruct (answer d) as [o d1] eqn:Ha. apply answer_file in Ha as (Hc & Hs & _).
  destruct o as [|n e]; intros [= <- <-]; (split; [by rewrite Hs; apply safe_push|]);
    by rewrite contents_push, Hc.
Qed.

(** A call either fails and leaves the file as it is, or has its effect. *)
Lemma call_disk f d r d' :
  call f d = (r, d') →
  ∃ d1, contents d1 = contents d ∧ safe d d1 ∧ d' = match r with Ok _ => f d1 | Err _ => d1 end.
Proof.
  unfold call. destruct (answer d) as [o d1] eqn:Ha. apply answer_file in Ha as (Hc & Hs & _).
  destruct o; intros [= <- <-]; by exists d1.
Qed.

Lemma touch_disk d r d' : touch d = (r, d') → contents d' = contents d ∧ safe d d'.
Proof. intros (d1 & Hc & Hs & ->)%call_disk. by destruct r. Qed.
End disk.

(** The same for the buffered writer: what has been written, buffered or not,
    has grown by [data], and what was certain to survive still is. *)
Definition writes (data : bytes) (w w' : BufWriter.t) : Prop :=
  BufWriter.total w' = BufWriter.total w ++ data ∧ safe (BufWriter.inner w) (BufWriter.inner w').

Section writer.
Import BufWriter.

Lemma writes_refl w : writes [] w w.
Proof. split; [by rewrite app_nil_r|done]. Qed.

Lemma writes_trans a b w1 w2 w3 : writes a w1 w2 → writes b w2 w3 → writes (a ++ b) w1 w3.
Proof.
  intros [H1 S1] [H2 S2]. split; [by rewrite H2, H1, (assoc_L (++))|by etransitivity].
Qed.

Lemma writes_trans_nil b w1 w2 w3 : writes [] w1 w2 → writes b w2 w3 → writes b w1 w3.
Proof. apply writes_trans. Qed.

Lemma flush_buf_writes w r w' :
  flush_buf w = (r, w') → writes [] w w' ∧ (r = Ok () → buf w' = []).
Proof.
  unfold flush_buf, writes, total. destruct (Disk.write_all (buf w) (inner w)) as [[[]|[n e]] d] eqn:Hw;
    apply write_all_disk in Hw as [Hs Hc]; intros [= <- <-]; cbn; rewrite Hc, <-(assoc_L (++)).
  - done.
  - by rewrite take_drop, app_nil_r.
Qed.

(** A call on the file that neither fails half-way nor changes it. *)
Lemma get_ref_touch w r w' : get_ref Disk.touch w = (r, w') → writes [] w w' ∧ buf w' = buf w.
Proof.
  unfold get_ref, writes, total. destruct (Disk.touch (inner w)) as [r1 d] eqn:Hd.
  apply touch_disk in Hd as [Hc Hs]. intros [= <- <-]. cbn. by rewrite Hc, app_nil_r.
Qed.

Lemma capacity_pos : 4 < capacity.
Proof. done. Qed.

Lemma write_all_writes data w r w' :
  write_all data w = (r, w') →
  match r with
  | Ok _ => writes data w w'
  | Err _ => ∃ n, writes (take n data) w w' ∧
      (Z.of_nat (length data) < capacity → take n data = [])
  end.
Proof.
  unfold write_all. set (pre := if _ <? _ then flush_buf else mret ()).
  assert (∀ r1 w1, pre w = (r1, w1) → writes [] w w1 ∧
    (r1 = Ok () → capacity ≤ Z.of_nat (length data) → buf w1 = [])) as Hpre.
  { intros r1 w1. subst pre. case_match eqn:Hb; [by intros [? Hn]%flush_buf_writes; auto|].
    intros [= _ <-]. split; [apply writes_refl|]. intros _ Hle. apply Z.ltb_ge in Hb.
    apply nil_length_inv. lia. }
  unfold mbind, st_bind. destruct (pre w) as [[[]|e] w1]; destruct (Hpre _ _ eq_refl) as [Hw1 Hb1].
  - destruct (Z.leb_spec capacity (Z.of_nat (length data))) as [Hle|Hlt].
    + specialize (Hb1 eq_refl Hle). unfold get_ref, catch.
      destruct (Disk.write_all data (inner w1)) as [r2 d] eqn:Hd.
      apply write_all_disk in Hd as [Hs Hc].
      assert (writes (match r2 with Ok _ => data | Err (n, _) => take n data end) w1 (mk d (buf w1))) as Hw2.
      { split; [|done]. unfold total. cbn. by rewrite Hc, Hb1, !app_nil_r. }
      pose proof (writes_trans_nil _ _ _ _ Hw1 Hw2).
      destruct r2 as [u|[n e]]; intros [= <- <-]; [done|]. exists n. split; [done|]. lia.
    + intros [= <- <-]. apply (writes_trans_nil _ _ _ _ Hw1). split; [|done].
      unfold total, push. cbn. by rewrite (assoc_L (++)).
  - intros [= <- <-]. by exists 0%nat.
Qed.
End writer.

(** *** The log's operations *)

Section log.
Import DiskWal.

Lemma io_run {A} (m : st BufWriter.t IoError.t A) w r w' :
  io m w = (r, w') →
  ∃ r1, m (writer w) = (r1, writer w') ∧ bytes_written w' = bytes_written w ∧
    r = match r1 with Ok a => Ok a | Err _ => Err PersistenceError.Wal end.
Proof.
  unfold io, catch. destruct (m (writer w)) as [r1 wr]. intros [= <- <-]. exists r1. by destruct r1.
Qed.

Definition logs (data : bytes) (w w' : t) : Prop := writes data (writer w) (writer w').

Lemma io_write_all data w r w' :
  io (BufWriter.write_all data) w = (r, w') →
  match r with
  | Ok _ => logs data w w'
  | Err e => e = PersistenceError.Wal ∧ ∃ n, logs (take n data) w w' ∧
      (Z.of_nat (length data) < BufWriter.capacity → take n data = [])
  end.
Proof.
  intros (r1 & Hw%write_all_writes & _ & ->)%io_run. by destruct r1.
Qed.

Lemma logs_trans a b w1 w2 w3 : logs a w1 w2 → logs b w2 w3 → logs (a ++ b) w1 w3.
Proof. apply writes_trans. Qed.

(** One write of several: if it fails, a proper prefix of them all is there,
    since the last one is short enough for the buffer. *)
Lemma io_write_next before data after w0 w r w' :
  logs before w0 w → io (BufWriter.write_all data) w = (r, w') →
  after ≠ [] ∨ (data ≠ [] ∧ Z.of_nat (length data) < BufWriter.capacity) →
  match r with
  | Ok _ => logs (before ++ data) w0 w'
  | Err e => e = PersistenceError.Wal ∧
      let all := before ++ data ++ after in
      ∃ n, (n < length all)%nat ∧ logs (take n all) w0 w'
  end.
Proof.
  intros Hb Hw Hlast. apply io_write_all in Hw. destruct r as [u|e]; [by eapply logs_trans|].
  destruct Hw as (-> & n & Hn & Hs). split; [done|].
  exists (length before + n `min` length data)%nat. split.
  - rewrite !length_app. destruct Hlast as [Ha|[Hd Hc]].
    + assert (length after ≠ 0%nat) by (by intros ?%nil_length_inv). lia.
    + specialize (Hs Hc). apply (f_equal length) in Hs. rewrite length_take in Hs. cbn in Hs.
      assert (length data ≠ 0%nat) by (by intros ?%nil_length_inv). lia.
  - rewrite take_app_add, take_app_le by lia.
    replace (take (n `min` length data) data) with (take n data); [by eapply logs_trans|].
    destruct (decide (n ≤ length data)%nat); [by rewrite Nat.min_l|].
    by rewrite Nat.min_r, !take_ge by lia.
Qed.

(** An append that fails has written a proper prefix of its record. *)
Lemma append_logs p w r w' :
  append p w = (r, w') →
  match r with
  | Ok _ => fits p ∧ logs (encode_record p) w w'
  | Err e =>
      (¬ fits p ∧ w' = w) ∨
      (fits p ∧ e = PersistenceError.Wal ∧
       ∃ n, (n < length (encode_record p))%nat ∧ logs (take n (encode_record p)) w w')
  end.
Proof.
  unfold append, lift. unfold mbind at 1, st_bind at 1.
  destruct (checked 0 u32_max (Z.of_nat (length p))) as [len|] eqn:Hc; cbn [ok_or].
  2: { apply checked_None in Hc. intros [= <- <-]. left. unfold fits. split; [lia|done]. }
  apply checked_Some in Hc as [-> Hc]. assert (fits p) as Hf by (unfold fits; lia).
  unfold encode_record. set (h := to_le_bytes 4 (Z.of_nat (length p))).
  set (c := to_le_bytes 4 (compute_crc32 _ p)).
  assert (length h = 4%nat ∧ length c = 4%nat) as [Hh Hcl] by (split; apply length_to_le_bytes).
  assert (c ≠ []) as Hne by (by intros E; rewrite E in Hcl).
  unfold mbind, st_bind.
  destruct (io (BufWriter.write_all h) w) as [r1 w1] eqn:H1.
  apply (io_write_next [] h (p ++ c) w w) in H1; [|apply writes_refl|left; by destruct p].
  cbn [app] in H1. destruct r1 as [[]|e1]; [|destruct H1 as (-> & H1); intros [= <- <-]; by right].
  destruct (io (BufWriter.write_all p) w1) as [r2 w2] eqn:H2.
  apply (io_write_next h p c w) in H2; [|done|by left].
  destruct r2 as [[]|e2]; [|destruct H2 as (-> & H2); intros [= <- <-]; by right].
  destruct (io (BufWriter.write_all c) w2) as [r3 w3] eqn:H3.
  apply (io_write_next (h ++ p) c [] w) in H3; [|done|right; by rewrite Hcl].
  rewrite app_nil_r, <-!(assoc_L (++)) in H3.
  destruct r3 as [[]|e3]; [by intros [= <- <-]|]. destruct H3 as (-> & H3). intros [= <- <-]. by right.
Qed.

(** Calls that only flush and look. *)
Lemma io_flush w r w' :
  io BufWriter.flush w = (r, w') → logs [] w w' ∧ (r = Ok () → BufWriter.buf (writer w') = []).
Proof.
  intros (r1 & [Hw Hb]%flush_buf_writes & _ & ->)%io_run. split; [done|].
  destruct r1 as [[]|]; [by intros _; apply Hb|done].
Qed.

Lemma io_touch w r w' :
  io (BufWriter.get_ref Disk.touch) w = (r, w') →
  logs [] w w' ∧ BufWriter.buf (writer w') = BufWriter.buf (writer w).
Proof. by intros (r1 & Hw%get_ref_touch & _ & ->)%io_run. Qed.

Lemma sync_logs w r w' :
  sync w = (r, w') →
  logs [] w w' ∧
  (r = Ok () → ∀ p, p `prefix_of` total w → holds p (BufWriter.inner (writer w'))).
Proof.
  unfold sync, mbind, st_bind.
  destruct (io BufWriter.flush w) as [[[]|e] w1] eqn:H1; apply io_flush in H1 as [[Ht Hs1] Hb];
    [specialize (Hb eq_refl)|by intros [= <- <-]].
  intros (r2 & H2 & _ & ->)%io_run. unfold BufWriter.get_ref in H2.
  destruct (Disk.sync_all (BufWriter.inner (writer w1))) as [r3 d] eqn:Hd.
  injection H2 as <- Hw2. apply call_disk in Hd as (d1 & Hc & Hs & Hd).
  rewrite app_nil_r in Ht. unfold logs, writes, total, BufWriter.total in *.
  rewrite <-Hw2, Hb, <-Ht, Hb, !app_nil_r. cbn [BufWriter.inner BufWriter.buf].
  destruct r3 as [[]|e3]; subst d.
  - split; [split; [by rewrite <-Hc|]|].
    + intros p Hp. apply holds_stable. rewrite Hc. by apply holds_contents, Hs1.
    + intros _ p Hp. apply holds_stable. by rewrite Hc.
  - split; [|done]. split; [done|]. by rewrite Hs1.
Qed.

Lemma logs_trans_nil b w1 w2 w3 : logs [] w1 w2 → logs b w2 w3 → logs b w1 w3.
Proof. apply writes_trans_nil. Qed.

Lemma logs_total b w w' : logs b w w' → total w' = total w ++ b.
Proof. by intros [Ht _]. Qed.

Lemma io_read w r w' :
  io (BufWriter.get_ref Disk.read_to_end) w = (r, w') →
  logs [] w w' ∧ match r with Ok b => BufWriter.buf (writer w) = [] → b = total w | Err _ => True end.
Proof.
  intros (r1 & H1 & _ & ->)%io_run. unfold BufWriter.get_ref, Disk.read_to_end in H1.
  unfold mbind, st_bind in H1. destruct (Disk.touch (BufWriter.inner (writer w))) as [r2 d] eqn:Hd.
  apply touch_disk in Hd as [Hc Hs]. unfold logs, writes, total, BufWriter.total.
  destruct r2 as [[]|e2]; injection H1 as <- <-; cbn; rewrite Hc, app_nil_r; [|done].
  split; [done|]. intros ->. by rewrite app_nil_r.
Qed.

Lemma replay_logs w r w' :
  replay w = (r, w') →
  logs [] w w' ∧ match r with Ok rs => rs = TradeWal.replay_bytes (total w) | Err _ => True end.
Proof.
  unfold replay, mbind, st_bind.
  destruct (io BufWriter.flush w) as [[[]|e] w1] eqn:H1; apply io_flush in H1 as [H1 Hb];
    [specialize (Hb eq_refl)|by intros [= <- <-]].
  destruct (io (BufWriter.get_ref Disk.touch) w1) as [r2 w2] eqn:H2.
  apply io_touch in H2 as [H2 Hb2]. pose proof (logs_trans_nil _ _ _ _ H1 H2) as H12.
  destruct r2; [|by intros [= <- <-]].
  destruct (io (BufWriter.get_ref Disk.rewind) w2) as [r3 w3] eqn:H3.
  apply io_touch in H3 as [H3 Hb3]. pose proof (logs_trans_nil _ _ _ _ H12 H3) as H13.
  destruct r3; [|by intros [= <- <-]].
  destruct (io (BufWriter.get_ref Disk.read_to_end) w3) as [r4 w4] eqn:H4.
  apply io_read in H4 as [H4 Hr]. pose proof (logs_trans_nil _ _ _ _ H13 H4) as H14.
  destruct r4 as [b|e]; intros [= <- <-]; split; try done.
  rewrite Hr, (logs_total _ _ _ H13), app_nil_r by congruence. done.
Qed.

(** A truncation that succeeds leaves nothing; one that fails leaves
    everything, or nothing if it failed at the very end. *)
Lemma truncate_logs w r w' :
  truncate w = (r, w') →
  (r = Ok () ∧ total w' = []) ∨
  (r = Err PersistenceError.Wal ∧ (logs [] w w' ∨ total w' = [])).
Proof.
  unfold truncate. unfold mbind, st_bind.
  destruct (io BufWriter.flush w) as [[[]|e] w1] eqn:H1; pose proof (io_run _ _ _ _ H1) as (r1 & _ & _ & He);
    apply io_flush in H1 as [H1 Hb].
  2: { intros [= <- <-]. right. destruct r1; [done|]. injection He as ->. auto. }
  specialize (Hb eq_refl). clear r1 He.
  destruct (io (BufWriter.get_ref Disk.set_len_0) w1) as [r2 w2] eqn:H2.
  apply io_run in H2 as (r3 & H2 & _ & ->). unfold BufWriter.get_ref in H2.
  destruct (Disk.set_len_0 (BufWriter.inner (writer w1))) as [r4 d] eqn:Hd.
  apply call_disk in Hd as (d1 & Hc & Hs & Hd). injection H2 as <- Hw2.
  destruct r4 as [[]|e4]; subst d.
  2: { intros [= <- <-]. right. split; [done|]. left. apply (logs_trans_nil _ _ _ _ H1).
       split; rewrite <-Hw2; [|done]. unfold BufWriter.total. cbn. by rewrite Hc, app_nil_r. }
  assert (total w2 = []) as Ht.
  { unfold total, BufWriter.total. rewrite <-Hw2, Hb.
    cbn [BufWriter.inner BufWriter.buf]. by rewrite contents_push. }
  destruct (io (BufWriter.get_ref Disk.rewind) w2) as [r5 w3] eqn:H3.
  pose proof (io_run _ _ _ _ H3) as (r6 & _ & _ & He). apply io_touch in H3 as [H3 _].
  apply logs_total in H3. rewrite app_nil_r, Ht in H3.
  destruct r5 as [[]|e5]; intros [= <- <-].
  - left. done.
  - right. destruct r6; [done|]. injection He as ->. auto.
Qed.
End log.

(** ** The log under faults *)

Module DiskOp.

(** What a sequence of operations is known to have left: the records that can
    be read back, whether bytes of a failed operation lie behind them, and how
    many of the records are certain to survive a crash. *)
Record known : Type := mk {
  records : list bytes;
  torn : bool;
  synced : nat;
}.
Definition nothing : known := mk [] false 0.

(** [ok] is whether the operation returned [Ok]. A truncation that failed may
    or may not have emptied the file. *)
Definition learn (op : WalOp.t) (ok : bool) (g : known) : known :=
  match op, ok with
  | WalOp.Append p, true => if torn g then g else mk (records g ++ [p]) false (synced g)
  | WalOp.Append p, false =>
      if bool_decide (fits p) then mk (records g) true (synced g) else g
  | WalOp.Sync, true => mk (records g) (torn g) (length (records g))
  | WalOp.Truncate, ok => mk [] (negb ok) 0
  | _, _ => g
  end.

Definition is_ok {E A} (r : result E A) : bool := match r with Ok _ => true | Err _ => false end.

(** One operation: whether it returned [Ok], and the log after it. *)
Definition apply (op : WalOp.t) (w : DiskWal.t) : bool * DiskWal.t :=
  match op with
  | WalOp.Append p => let '(r, w) := DiskWal.append p w in (is_ok r, w)
  | WalOp.Sync => let '(r, w) := DiskWal.sync w in (is_ok r, w)
  | WalOp.Replay => let '(r, w) := DiskWal.replay w in (is_ok r, w)
  | WalOp.Truncate => let '(r, w) := DiskWal.truncate w in (is_ok r, w)
  end.

Fixpoint run (ops : list WalOp.t) (g : known) (w : DiskWal.t) : known * DiskWal.t :=
  match ops with
  | [] => (g, w)
  | op :: ops' => let '(ok, w) := apply op w in run ops' (learn op ok g) w
  end.
End DiskOp.

Section faults.
Import DiskWal DiskOp.

Record known_inv (g : known) (w : DiskWal.t) : Prop := {
  known_fits : Forall fits (records g);
  known_total : ∃ tail, total w = encode_all (records g) ++ tail ∧ (torn g = false → tail = []);
  known_synced : holds (encode_all (take (synced g) (records g))) (BufWriter.inner (writer w));
  known_le : (synced g ≤ length (records g))%nat;
}.

Lemma known_logs_nil g w w' : logs [] w w' → known_inv g w → known_inv g w'.
Proof.
  intros [Ht Hs] [Hf (tail & He & Hn) Hh Hk]. rewrite app_nil_r in Ht.
  constructor; [done|exists tail; by rewrite <-He|by apply Hs|done].
Qed.

Lemma append_known p g w ok w' :
  apply (WalOp.Append p) w = (ok, w') → known_inv g w → known_inv (learn (WalOp.Append p) ok g) w'.
Proof.
  cbn [apply]. destruct (append p w) as [r w1] eqn:Ha. apply append_logs in Ha.
  intros [= <- <-] [Hf (tail & He & Hn) Hh Hk]. destruct r as [off|e]; cbn [is_ok learn].
  - destruct Ha as (Hp & Ht & Hs).
    assert (total w1 = encode_all (records g) ++ tail ++ encode_record p) as Ht1.
    { unfold total in *. by rewrite Ht, He, <-(assoc_L (++)). }
    destruct (torn g) eqn:Hto.
    + constructor; [done| |by apply Hs|done].
      exists (tail ++ encode_record p). split; [done|by rewrite Hto].
    + specialize (Hn eq_refl) as ->. constructor; cbn [records DiskOp.torn synced].
      * apply Forall_app. split; [done|]. by apply Forall_singleton.
      * exists []. by rewrite app_nil_r, encode_all_snoc.
      * rewrite take_app_le by done. by apply Hs.
      * rewrite length_app. lia.
  - destruct Ha as [[Hp ->]|(Hp & _ & n & _ & Ht & Hs)].
    + rewrite bool_decide_eq_false_2 by done. constructor; [done|by exists tail|done|done].
    + rewrite bool_decide_eq_true_2 by done. constructor; cbn [records DiskOp.torn synced]; try done.
      * exists (tail ++ take n (encode_record p)). split; [|done].
        unfold total in *. by rewrite Ht, He, <-(assoc_L (++)).
      * by apply Hs.
Qed.

Lemma apply_known op g w ok w' :
  apply op w = (ok, w') → known_inv g w → known_inv (learn op ok g) w'.
Proof.
  destruct op as [p| | |]; [by apply append_known|..]; cbn [apply].
  - destruct (sync w) as [r w1] eqn:Hs. apply sync_logs in Hs as [Hl Hh]. intros [= <- <-] Hg.
    pose proof (known_logs_nil _ _ _ Hl Hg) as [Hf Ht Hsy Hk].
    destruct r as [[]|e]; [|by constructor]. constructor; cbn [records DiskOp.torn synced]; try done.
    rewrite take_ge by done. apply (Hh eq_refl). destruct Hg as [_ (tail & -> & _) _ _].
    by apply prefix_app_r.
  - destruct (replay w) as [r w1] eqn:Hr. apply replay_logs in Hr as [Hl _]. intros [= <- <-] Hg.
    destruct r; by eapply known_logs_nil.
  - destruct (truncate w) as [r w1] eqn:Ht. apply truncate_logs in Ht. intros [= <- <-] _.
    constructor; [done| |intros b _; apply prefix_nil|done].
    exists (total w1). split; [done|]. destruct Ht as [[-> ->]|[-> _]]; done.
Qed.

Lemma run_known ops g w g' w' : run ops g w = (g', w') → known_inv g w → known_inv g' w'.
Proof.
  revert g w. induction ops as [|op ops IH]; intros g w; cbn [run]; [by intros [= <- <-]|].
  destruct (apply op w) as [ok w1] eqn:Ha. intros Hr Hg. eapply IH; [done|]. by eapply apply_known.
Qed.

Lemma fresh_known script : known_inv nothing (fresh script).
Proof.
  constructor; [done|by exists []| |done]. intros b _. apply prefix_nil.
Qed.

(** The log after operations that all returned [Ok]. *)
Fixpoint run_ok (ops : list WalOp.t) (w : DiskWal.t) : option DiskWal.t :=
  match ops with
  | [] => Some w
  | op :: ops' => let '(ok, w) := apply op w in if (ok : bool) then run_ok ops' w else None
  end.

Lemma run_ok_total qs w w' :
  run_ok ((WalOp.Append <$> qs) ++ [WalOp.Sync]) w = Some w' → total w' = total w ++ encode_all qs.
Proof.
  revert w. induction qs as [|q qs IH]; intros w; cbn [fmap list_fmap app run_ok apply].
  - destruct (sync w) as [r w1] eqn:Hs. apply sync_logs in Hs as [Hl%logs_total _].
    destruct r; [|done]. by intros [= <-].
  - destruct (append q w) as [r w1] eqn:Ha. apply append_logs in Ha.
    destruct r as [off|]; [|done]. destruct Ha as [_ Ha%logs_total]. cbn [is_ok].
    intros ->%IH. by rewrite Ha, encode_all_cons, (assoc_L (++)).
Qed.

(** Whole records at the front of a file are read back, whatever follows. *)
Lemma replay_bytes_prefix ps b :
  Forall fits ps → encode_all ps `prefix_of` b → ps `prefix_of` TradeWal.replay_bytes b.
Proof.
  intros Hps [r ->]. unfold TradeWal.replay_bytes. pose proof (length_encode_all ps) as Hl.
  rewrite length_app.
  replace (S (length (encode_all ps) + length r)) with
    (length ps + (S (length (encode_all ps) + length r) - length ps))%nat by lia.
  rewrite replay_encode_app by done. by apply prefix_app_r.
Qed.

Lemma known_replay g w rs w' :
  known_inv g w → replay w = (Ok rs, w') →
  records g `prefix_of` rs ∧ (torn g = false → rs = records g).
Proof.
  intros [Hf (tail & Ht & Hn) _ _] [_ ->]%replay_logs. rewrite Ht. split.
  - apply replay_bytes_prefix; [done|]. by apply prefix_app_r.
  - intros Hto. rewrite Hn by done. apply replay_bytes_app; [done|].
    intros f. apply replay_torn, torn_nil.
Qed.

Lemma known_crash g w w1 rs w2 :
  known_inv g w → crash w w1 → replay w1 = (Ok rs, w2) →
  take (synced g) (records g) `prefix_of` rs.
Proof.
  intros [Hf _ Hh _] [b sc Hb] [_ ->]%replay_logs. apply replay_bytes_prefix; [by apply Forall_take|].
  unfold total, BufWriter.total. cbn. rewrite app_nil_r. by apply Hh.
Qed.

(** (C15) Records survive a failing disk. Whatever calls of the operating system
    fail during whatever operations on a fresh log, a replay that succeeds
    begins with the records whose append returned [Ok] since the last
    truncation and before the first failure, in order, and is exactly those
    when nothing has failed; and after a crash, on whatever the disk kept, it
    begins with those of them that were there at the last sync that returned
    [Ok]. *)
Theorem acknowledged_records_survive (ops : list WalOp.t) (script : list Writer.outcome)
    (g : known) (w : DiskWal.t) :
  run ops nothing (fresh script) = (g, w) →
  (∀ rs w', replay w = (Ok rs, w') → records g `prefix_of` rs ∧ (torn g = false → rs = records g)) ∧
  (∀ w1 rs w2, crash w w1 → replay w1 = (Ok rs, w2) → take (synced g) (records g) `prefix_of` rs).
Proof.
  intros Hr. pose proof (run_known _ _ _ _ _ Hr (fresh_known script)) as Hg. split.
  - intros rs w'. by apply known_replay.
  - intros w1 rs w2. by apply known_crash.
Qed.

(** Behind the length field of [p] the bytes [rest] pass for its payload and
    checksum. *)
Definition misread (p rest : bytes) : Prop :=
  (length p + 4 ≤ length rest)%nat ∧
  from_le_bytes (take 4 (drop (length p) rest)) =
    compute_crc32 (Z.of_nat (length p)) (take (length p) rest).
#[export] Instance misread_dec p rest : Decision (misread p rest).
Proof. unfold misread. apply _. Defined.

Lemma replay_not_misread f p rest :
  fits p → ¬ misread p rest → TradeWal.replay_loop f (to_le_bytes 4 (Z.of_nat (length p)) ++ rest) = [].
Proof.
  intros Hf Hm. destruct f as [|f]; [done|]. cbn [TradeWal.replay_loop].
  rewrite length_app, length_to_le_bytes. destruct (Nat.ltb_spec (4 + length rest) 4); [lia|].
  rewrite take_app_le, take_ge, drop_app_le, drop_ge by (rewrite length_to_le_bytes; lia).
  rewrite from_to_le_4, Nat2Z.id by (unfold fits in Hf; lia). cbn [app].
  destruct (Nat.ltb_spec (length rest) (length p + 4)); [done|].
  rewrite wrap_small by (unfold fits, u32_max in Hf; lia).
  destruct (Z.eqb_spec (from_le_bytes (take 4 (drop (length p) rest)))
    (compute_crc32 (Z.of_nat (length p)) (take (length p) rest))) as [He|]; [|done].
  by destruct Hm.
Qed.

(** A failed append hides the records behind it. An append that fails
    after its length field was written leaves that field, and what there is of
    the payload, in the log. Records appended later, every one with [Ok] and
    then synced with [Ok], are not read back: a replay gives the records before
    the failure and stops, unless the later bytes happen to pass for the rest of
    the damaged record. *)
Theorem failed_append_hides_later (log qs rs : list bytes) (p : bytes) (e : PersistenceError.t)
    (w w1 w2 w3 : DiskWal.t) :
  Forall fits log → total w = encode_all log →
  append p w = (Err e, w1) → (length (total w) + 4 ≤ length (total w1))%nat →
  run_ok ((WalOp.Append <$> qs) ++ [WalOp.Sync]) w1 = Some w2 → replay w2 = (Ok rs, w3) →
  rs = log ∨ misread p (drop (length (total w) + 4) (total w2)).
Proof.
  intros Hlog Ht Ha Hn Hqs [_ ->]%replay_logs. apply run_ok_total in Hqs.
  apply append_logs in Ha as [[Hf ->]|(Hf & _ & n & _ & Hl%logs_total)]; [lia|].
  rewrite Hqs, Hl. rewrite Hl, length_app, length_take in Hn.
  assert (∃ rest, take n (encode_record p) = to_le_bytes 4 (Z.of_nat (length p)) ++ rest) as [rest ->].
  { exists (drop 4 (take n (encode_record p))). rewrite <-(take_drop 4 (take n (encode_record p))) at 1.
    f_equal. rewrite take_take, Nat.min_l by lia. unfold encode_record.
    rewrite take_app_le, take_ge; [done|..]; rewrite length_to_le_bytes; lia. }
  rewrite <-!(assoc_L (++)), Ht.
  replace (drop _ _) with (rest ++ encode_all qs).
  2: { rewrite drop_app_ge, drop_app_ge by (rewrite ?length_to_le_bytes; lia).
       rewrite length_to_le_bytes.
       replace (length (encode_all log) + 4 - length (encode_all log) - 4)%nat with 0%nat by lia. done. }
  destruct (decide (misread p (rest ++ encode_all qs))) as [Hm|Hm]; [by right|left].
  apply replay_bytes_app; [done|]. intros f. by apply replay_not_misread.
Qed.
End faults.

(** How an append can fail half-way: its length field fits the buffer, its
    payload does not, and the flush that makes room writes nothing. *)
Lemma write_all_room data d b :
  Z.of_nat (length b) + Z.of_nat (length data) ≤ BufWriter.capacity →
  Z.of_nat (length data) < BufWriter.capacity →
  BufWriter.write_all data (BufWriter.mk d b) = (Ok (), BufWriter.mk d (b ++ data)).
Proof.
  intros Hb Hd. unfold BufWriter.write_all. cbn [BufWriter.buf].
  destruct (Z.ltb_spec (BufWriter.capacity - Z.of_nat (length b)) (Z.of_nat (length data))); [lia|].
  by destruct (Z.leb_spec BufWriter.capacity (Z.of_nat (length data))); [lia|].
Qed.

Lemma write_all_no_room data d b e s :
  Disk.script d = Writer.Fail 0 e :: s → b ≠ [] →
  BufWriter.capacity < Z.of_nat (length b) + Z.of_nat (length data) →
  BufWriter.write_all data (BufWriter.mk d b) =
    (Err e, BufWriter.mk (Disk.mk (Disk.stable d) (Disk.pending d ++ [Unsynced.Appended []]) s) b).
Proof.
  intros Hs Hb Hd. unfold BufWriter.write_all. cbn [BufWriter.buf].
  destruct (Z.ltb_spec (BufWriter.capacity - Z.of_nat (length b)) (Z.of_nat (length data))); [|lia].
  unfold mbind, st_bind, BufWriter.flush_buf, Disk.write_all, Disk.answer. cbn [BufWriter.buf BufWriter.inner].
  by destruct b as [|c b]; [|rewrite Hs].
Qed.

Lemma append_no_room p d b n e s :
  Disk.script d = Writer.Fail 0 e :: s → b ≠ [] → fits p →
  Z.of_nat (length b) + 4 ≤ BufWriter.capacity < Z.of_nat (length b) + 4 + Z.of_nat (length p) →
  DiskWal.append p (DiskWal.mk (BufWriter.mk d b) n) =
    (Err PersistenceError.Wal,
     DiskWal.mk (BufWriter.mk (Disk.mk (Disk.stable d) (Disk.pending d ++ [Unsynced.Appended []]) s)
       (b ++ to_le_bytes 4 (Z.of_nat (length p)))) n).
Proof.
  intros Hs Hb Hf Hroom. unfold DiskWal.append, lift.
  rewrite (proj2 (checked_Some 0 u32_max _ (Z.of_nat (length p))))
    by (unfold fits in Hf; split; [done|lia]).
  cbn [ok_or]. unfold mbind, st_bind, DiskWal.io, catch. cbn [DiskWal.writer].
  rewrite write_all_room by (rewrite length_to_le_bytes; done || lia).
  cbn [map_err DiskWal.writer DiskWal.bytes_written].
  rewrite (write_all_no_room p d _ e s); [done|done|by destruct b|].
  rewrite length_app, length_to_le_bytes. lia.
Qed.

(** ** Without faults

    The log of [Wal.v]: the same results, file, buffer and count, and the same
    images of a crash. *)
Section faultless.
Import DiskWal.

Record models (w : TradeWal.t) (dw : DiskWal.t) : Prop := {
  models_script : Disk.script (BufWriter.inner (writer dw)) = [];
  models_file : Disk.contents (BufWriter.inner (writer dw)) = TradeWal.file w;
  models_buffer : BufWriter.buf (writer dw) = TradeWal.buffer w;
  models_count : bytes_written dw = TradeWal.bytes_written w;
  models_images b : image dw b ↔ Unsynced.image (TradeWal.stable w) (TradeWal.pending w) b;
}.

Lemma write_all_accepts data d :
  Disk.script d = [] →
  ∃ d', Disk.write_all data d = (Ok (), d') ∧ Disk.script d' = [] ∧
    Disk.contents d' = Disk.contents d ++ data ∧
    ∀ b, Disk.image d' b ↔ Disk.image d b ∨ ∃ n, b = Disk.contents d ++ take n data.
Proof.
  intros Hs. unfold Disk.write_all, Disk.answer. rewrite Hs. destruct data as [|b data].
  - exists d. rewrite app_nil_r. split_and!; [done..|]. intros b. split; [by left|].
    intros [Hb|[n ->]]; [done|]. rewrite take_nil, app_nil_r. apply image_contents.
  - eexists. split; [done|]. split; [done|]. split; [by rewrite contents_push|]. apply image_push.
Qed.

Lemma call_accepts f d : Disk.script d = [] → Disk.call f d = (Ok (), f d).
Proof. intros Hs. unfold Disk.call, Disk.answer. by rewrite Hs. Qed.

Lemma flush_models w dw :
  models w dw → ∃ dw', io BufWriter.flush dw = (Ok (), dw') ∧ models (TradeWal.flush w) dw'.
Proof.
  intros [Hs Hf Hb Hc Hi].
  destruct (write_all_accepts (BufWriter.buf (writer dw)) _ Hs) as (d & Hd & Hs' & Hc' & Hi').
  unfold io, catch, BufWriter.flush, BufWriter.flush_buf. rewrite Hd.
  eexists. split; [done|]. constructor; cbn; [done| |done|done|].
  - rewrite Hc', Hf, Hb. symmetry. apply file_flush.
  - intros b. unfold image. cbn. rewrite Hi', Hf, Hb, image_snoc. by rewrite <-Hi.
Qed.

Lemma io_seq {A} (m1 : st BufWriter.t IoError.t ()) (m2 : st BufWriter.t IoError.t A) dw dw1 :
  io m1 dw = (Ok (), dw1) → io (m1 ;; m2) dw = io m2 dw1.
Proof.
  unfold io, catch, mbind, st_bind. destruct (m1 (writer dw)) as [[[]|e] w1]; [|done].
  by intros [= <-].
Qed.

(** The bytes, behind a flush or not, past the buffer or into it. *)
Lemma put_models data w dw :
  models w dw →
  ∃ dw',
    io (if BufWriter.capacity <=? Z.of_nat (length data)
        then BufWriter.get_ref (catch snd (Disk.write_all data))
        else modify (BufWriter.push data)) dw = (Ok (), dw') ∧
    models (if TradeWal.capacity <=? Z.of_nat (length data)
      then TradeWal.change (Unsynced.Appended data) w
      else TradeWal.mk (TradeWal.stable w) (TradeWal.pending w) (TradeWal.buffer w ++ data) (TradeWal.bytes_written w))
      dw'.
Proof.
  intros [Hs Hf Hb Hc Hi]. change BufWriter.capacity with TradeWal.capacity. destruct (_ <=? _).
  - destruct (write_all_accepts data _ Hs) as (d & Hd & Hs' & Hc' & Hi').
    unfold io, BufWriter.get_ref, catch. rewrite Hd. eexists. split; [done|].
    constructor; cbn; [done| |done|done|].
    + rewrite Hc', Hf. unfold TradeWal.file. cbn. by rewrite contents_snoc.
    + intros b. unfold image. cbn. rewrite Hi', Hf, image_snoc. by rewrite <-Hi.
  - eexists. split; [done|]. constructor; cbn; [done|done|by rewrite Hb|done|exact Hi].
Qed.

Lemma write_all_models data w dw :
  models w dw →
  ∃ dw', io (BufWriter.write_all data) dw = (Ok (), dw') ∧ models (TradeWal.write_all data w) dw'.
Proof.
  intros Hm. destruct (flush_models _ _ Hm) as (dw1 & Hfl & Hm1).
  set (full := TradeWal.capacity - Z.of_nat (length (TradeWal.buffer w)) <? Z.of_nat (length data)).
  set (put := if BufWriter.capacity <=? Z.of_nat (length data)
    then BufWriter.get_ref (catch snd (Disk.write_all data)) else modify (BufWriter.push data)).
  assert (io (BufWriter.write_all data) dw =
    io ((if full then BufWriter.flush_buf else mret ()) ;; put) dw) as ->.
  { unfold full. rewrite <-(models_buffer _ _ Hm). done. }
  assert (∃ dw', io (if full then BufWriter.flush_buf else mret ()) dw = (Ok (), dw') ∧
    models (if full then TradeWal.flush w else w) dw') as (dw2 & H2 & Hm2).
  { destruct full; [by exists dw1|]. exists dw. split; [by destruct dw|done]. }
  rewrite (io_seq _ _ _ _ H2). destruct (put_models data _ _ Hm2) as (dw3 & H3 & Hm3).
  exists dw3. split; [exact H3|]. exact Hm3.
Qed.

(** Appending, syncing, replaying and truncating, with their results. *)
Lemma append_models p w dw :
  models w dw →
  match TradeWal.append p w with
  | Ok (off, w') => ∃ dw', append p dw = (Ok off, dw') ∧ models w' dw'
  | Err e => append p dw = (Err e, dw)
  end.
Proof.
  intros Hm. unfold append, TradeWal.append, lift.
  destruct (checked 0 u32_max (Z.of_nat (length p))) as [len|]; cbn [ok_or]; [|done].
  unfold mbind, result_bind, st_bind.
  destruct (write_all_models (to_le_bytes 4 len) _ _ Hm) as (dw1 & -> & Hm1).
  destruct (write_all_models p _ _ Hm1) as (dw2 & -> & Hm2).
  destruct (write_all_models (to_le_bytes 4 (compute_crc32 len p)) _ _ Hm2) as (dw3 & -> & [Hs Hf Hb Hc Hi]).
  unfold modify, gets. cbn [bytes_written]. rewrite Hc. eexists. split; [done|]. by constructor.
Qed.

Lemma get_ref_models (m : st Disk.t IoError.t ()) (f : Disk.t → Disk.t) w w' dw :
  models w dw →
  (∀ d, Disk.script d = [] → m d = (Ok (), f d) ∧ Disk.script (f d) = []) →
  Disk.contents (f (BufWriter.inner (writer dw))) = TradeWal.file w' →
  TradeWal.buffer w' = TradeWal.buffer w → TradeWal.bytes_written w' = TradeWal.bytes_written w →
  (∀ b, Disk.image (f (BufWriter.inner (writer dw))) b ↔
     Unsynced.image (TradeWal.stable w') (TradeWal.pending w') b) →
  ∃ dw', io (BufWriter.get_ref m) dw = (Ok (), dw') ∧ models w' dw'.
Proof.
  intros [Hs Hf Hb Hc Hi] Hm He Hb' Hc' Hi'. destruct (Hm _ Hs) as [Hr Hs'].
  unfold io, catch, BufWriter.get_ref. rewrite Hr. eexists. split; [done|].
  constructor; cbn; try congruence. exact Hi'.
Qed.

Lemma touch_models w dw :
  models w dw → ∃ dw', io (BufWriter.get_ref Disk.touch) dw = (Ok (), dw') ∧ models w dw'.
Proof.
  intros Hm. apply (get_ref_models _ id w w); [done|..|by apply Hm|done|done|apply Hm].
  intros d Hd. split; [by apply (call_accepts id)|done].
Qed.

Lemma sync_models w dw :
  models w dw → ∃ dw', sync dw = (Ok (), dw') ∧ models (TradeWal.sync w) dw'.
Proof.
  intros Hm. destruct (flush_models _ _ Hm) as (dw1 & H1 & Hm1).
  unfold sync, mbind, st_bind. rewrite H1.
  apply (get_ref_models _ (λ d, Disk.mk (Disk.contents d) [] (Disk.script d)) (TradeWal.flush w));
    [done|..|done|done|].
  - intros d Hd. split; [by apply call_accepts|done].
  - exact (models_file _ _ Hm1).
  - intros b. unfold Disk.image. cbn [Disk.stable Disk.pending]. rewrite (models_file _ _ Hm1). done.
Qed.

Lemma replay_models w dw :
  models w dw →
  ∃ dw', replay dw = (Ok (TradeWal.replay w).1, dw') ∧ models (TradeWal.replay w).2 dw'.
Proof.
  intros Hm. destruct (flush_models _ _ Hm) as (dw1 & H1 & Hm1).
  destruct (touch_models _ _ Hm1) as (dw2 & H2 & Hm2). destruct (touch_models _ _ Hm2) as (dw3 & H3 & Hm3).
  unfold replay, mbind, st_bind. change Disk.rewind with Disk.touch. rewrite H1, H2, H3.
  unfold io at 1, catch, BufWriter.get_ref, Disk.read_to_end, mbind, st_bind.
  rewrite (call_accepts id) by apply Hm3. eexists. split.
  - unfold gets, id, mret, st_ret. rewrite (models_file _ _ Hm3). reflexivity.
  - destruct Hm3 as [Hs Hf Hb Hc Hi]. by constructor.
Qed.

Lemma truncate_models w dw :
  models w dw → ∃ dw', truncate dw = (Ok (), dw') ∧ models (TradeWal.truncate w) dw'.
Proof.
  intros Hm. destruct (flush_models _ _ Hm) as (dw1 & H1 & Hm1).
  destruct (get_ref_models Disk.set_len_0 (Disk.push Unsynced.Emptied) (TradeWal.flush w)
    (TradeWal.change Unsynced.Emptied (TradeWal.flush w)) dw1) as (dw2 & H2 & Hm2); [done|..|done|done| |].
  { intros d Hd. split; [by apply call_accepts|done]. }
  { rewrite contents_push. unfold TradeWal.file. cbn. by rewrite contents_snoc. }
  { intros b. unfold Disk.image, Disk.push, TradeWal.change. cbn [Disk.stable Disk.pending TradeWal.stable TradeWal.pending].
    rewrite !image_snoc. pose proof (models_images _ _ Hm1 b) as Hi. unfold image, Disk.image in Hi. by rewrite Hi. }
  destruct (touch_models _ _ Hm2) as (dw3 & H3 & [Hs Hf Hb Hc Hi]).
  unfold truncate, mbind, st_bind. change Disk.rewind with Disk.touch. rewrite H1, H2, H3.
  eexists. split; [done|]. by constructor.
Qed.

Lemma apply_models op w dw :
  models w dw → models (WalOp.apply op w) (DiskOp.apply op dw).2.
Proof.
  intros Hm. destruct op as [p| | |]; cbn [WalOp.apply DiskOp.apply].
  - pose proof (append_models p _ _ Hm) as Ha. destruct (TradeWal.append p w) as [[off w']|e].
    + destruct Ha as (dw' & -> & ?). done.
    + by rewrite Ha.
  - by destruct (sync_models _ _ Hm) as (dw' & -> & ?).
  - by destruct (replay_models _ _ Hm) as (dw' & -> & ?).
  - by destruct (truncate_models _ _ Hm) as (dw' & -> & ?).
Qed.

Lemma run_models ops g w dw : models w dw → models (WalOp.apply_all ops w) (DiskOp.run ops g dw).2.
Proof.
  unfold WalOp.apply_all. revert g w dw. induction ops as [|op ops IH]; intros g w dw Hm; [done|].
  cbn [foldl DiskOp.run]. pose proof (apply_models op _ _ Hm) as Hm1.
  destruct (DiskOp.apply op dw) as [ok dw1]. by apply IH.
Qed.

(** On a disk without faults the log is that of [Wal.v]: after any operations
    the file, the buffer, the count and what a crash can leave are the same, the
    next append has the same result, and a replay gives the same records. *)
Theorem faultless_refines (ops : list WalOp.t) :
  let w := WalOp.apply_all ops (TradeWal.open []) in
  let dw := (DiskOp.run ops DiskOp.nothing (fresh [])).2 in
  models w dw ∧ (replay dw).1 = Ok (TradeWal.replay w).1 ∧
  ∀ p, (append p dw).1 = fst <$> TradeWal.append p w.
Proof.
  intros w dw. assert (models w dw) as Hm by (by apply run_models). split; [done|]. split.
  - by destruct (replay_models _ _ Hm) as (dw' & -> & _).
  - intros p. pose proof (append_models p _ _ Hm) as Ha. destruct (TradeWal.append p w) as [[off w']|e].
    + by destruct Ha as (dw' & -> & _).
    + by rewrite Ha.
Qed.
End faultless.

(** ** Witnesses *)

(** The second sync fails, after a record that was not acknowledged durable. *)
Definition faulty_script : list Writer.outcome :=
  [Writer.Accept; Writer.Accept; Writer.Fail 3 IoError.Other].
Definition faulty_ops : list WalOp.t :=
  [WalOp.Append (bs "one"); WalOp.Sync; WalOp.Append (bs "two"); WalOp.Sync].
Definition after_fault : DiskWal.t := (DiskOp.run faulty_ops DiskOp.nothing (DiskWal.fresh faulty_script)).2.

Lemma acknowledged_records_survive_witness :
  (DiskWal.replay after_fault).1 = Ok [bs "one"; bs "two"] ∧
  [bs "one"; bs "two"] = [bs "one"; bs "two"] ∧
  (∀ w1 rs w2, DiskWal.crash after_fault w1 → DiskWal.replay w1 = (Ok rs, w2) →
     [bs "one"] `prefix_of` rs).
Proof.
  destruct (acknowledged_records_survive faulty_ops faulty_script
    (DiskOp.mk [bs "one"; bs "two"] false 1) after_fault) as [Hlive Hcrash].
  - vm_compute. reflexivity.
  - assert ((DiskWal.replay after_fault).1 = Ok [bs "one"; bs "two"]) as Hr by (vm_compute; reflexivity).
    split; [exact Hr|]. split; [|exact Hcrash].
    destruct (DiskWal.replay after_fault) as [r w'] eqn:He. cbn [fst] in Hr. subst r.
    exact (proj2 (Hlive _ _ eq_refl) eq_refl).
Defined.

(** A record that does not fit behind the first one in the buffer, and a flush
    that fails. *)
Definition big_record : bytes := replicate (Z.to_nat 65530) "x"%byte.
Definition log_of_one : DiskWal.t :=
  (DiskOp.run [WalOp.Append (bs "one")] DiskOp.nothing (DiskWal.fresh [Writer.Fail 0 IoError.Other])).2.
Definition damaged : DiskWal.t :=
  DiskWal.mk (BufWriter.mk (Disk.mk [] [Unsynced.Appended []] [])
    (encode_record (bs "one") ++ to_le_bytes 4 65530)) 11.

Lemma length_big_record : Z.of_nat (length big_record) = 65530.
Proof. unfold big_record. rewrite length_replicate, Z2Nat.id; lia. Qed.

Lemma big_append_fails : DiskWal.append big_record log_of_one = (Err PersistenceError.Wal, damaged).
Proof.
  assert (log_of_one = DiskWal.mk (BufWriter.mk (Disk.mk [] [] [Writer.Fail 0 IoError.Other])
    (encode_record (bs "one"))) 11) as -> by (vm_compute; reflexivity).
  pose proof length_big_record as Hl.
  rewrite (append_no_room big_record _ _ _ IoError.Other []); [by rewrite Hl|done|done|..].
  - unfold fits, u32_max. lia.
  - rewrite Hl, length_encode_record. vm_compute. split; [discriminate|reflexivity].
Qed.

Lemma failed_append_hides_later_witness :
  ∃ w2 w3, DiskOp.is_ok (DiskWal.append big_record log_of_one).1 = false ∧
    run_ok [WalOp.Append (bs "two"); WalOp.Sync] damaged = Some w2 ∧
    DiskWal.replay w2 = (Ok [bs "one"], w3).
Proof.
  destruct (run_ok [WalOp.Append (bs "two"); WalOp.Sync] damaged) as [w2|] eqn:H2;
    [|vm_compute in H2; discriminate H2].
  destruct (DiskWal.replay w2) as [[rs|e] w3] eqn:H3.
  2: { pose proof H2 as H4. vm_compute in H4. injection H4 as H4. subst w2.
       apply (f_equal fst) in H3. vm_compute in H3. discriminate H3. }
  exists w2, w3. split; [rewrite big_append_fails; reflexivity|]. split; [reflexivity|].
  destruct (failed_append_hides_later [bs "one"] [bs "two"] rs big_record PersistenceError.Wal
    log_of_one damaged w2 w3) as [->|[Hm _]].
  - apply Forall_cons. split; [vm_compute; discriminate|apply Forall_nil; exact I].
  - vm_compute. reflexivity.
  - exact big_append_fails.
  - apply Nat.leb_le. vm_compute. reflexivity.
  - exact H2.
  - exact H3.
  - exact H3.
  - exfalso. pose proof length_big_record as Hl.
    assert (length (drop (length (DiskWal.total log_of_one) + 4) (DiskWal.total w2)) = 11%nat) as Hd.
    { rewrite (run_ok_total [bs "two"] damaged w2 H2). vm_compute. reflexivity. }
    rewrite Hd in Hm. lia.
Defined.
