(* ===== verification/StagedTrade.v ===== *)
(** * The log's trade records ([persistence/src/trade_writer.rs], [StagedTrade])

    [encode_wal] and [decode_wal] of a staged trade. The decoder is a reader
    over the bytes still to come; [decode_rest] also returns what it left. *)

From S2P Require Import Prelude RustInt RustStr RustFloat Externs.

Module StagedTrade.
Section staged.
Context `{Chrono}.

Record t : Type := mk {
  time : DateTime;
  asset_id : Z;
  price : f64;
  amount : Z;
  buyer_id : option Z;
  seller_id : option Z;
  aggressor_side : option Z;
  trade_id : option bytes;
  is_direct : bool;
}.

#[global] Instance t_eq_dec : EqDecision t.
Proof. solve_decision. Defined.

Definition flag (mask : Z) (b : bool) : Z := if b then mask else 0.
Definition present {A} (o : option A) : bool := match o with Some _ => true | None => false end.

(** [flags |= mask] for every field that is there. *)
Definition flags (x : t) : Z :=
  Z.lor (Z.lor (Z.lor (Z.lor
    (flag 1 (present (buyer_id x)))
    (flag 2 (present (seller_id x))))
    (flag 4 (present (aggressor_side x))))
    (flag 8 (present (trade_id x))))
    (flag 16 (is_direct x)).

Definition opt_bytes (n : nat) (o : option Z) : bytes :=
  match o with Some v => to_le_bytes n v | None => [] end.

Definition encode_wal (x : t) : bytes :=
  to_le_bytes 8 (timestamp_micros (time x)) ++
  to_le_bytes 4 (asset_id x) ++
  to_le_bytes 8 (price x) ++
  to_le_bytes 8 (amount x) ++
  [byte_of_Z (flags x)] ++
  opt_bytes 4 (buyer_id x) ++
  opt_bytes 4 (seller_id x) ++
  opt_bytes 2 (aggressor_side x) ++
  match trade_id x with
  | Some id =>
      let len := default u32_max (checked 0 u32_max (Z.of_nat (length id))) in
      to_le_bytes 4 len ++ id
  | None => []
  end.

(** *** Readers *)

Definition reader (A : Type) : Type := bytes → option (A * bytes).
#[global] Instance reader_ret : MRet reader := λ A a b, Some (a, b).
#[global] Instance reader_bind : MBind reader := λ A B f m b,
  match m b with Some (a, b') => f a b' | None => None end.

(** [bytes[p..p + n]], after the bounds check. *)
Definition read (n : nat) : reader bytes := λ b,
  if (length b <? n)%nat then None else Some (take n b, drop n b).
Definition read_signed (n : nat) : reader Z := v ← read n; mret (from_le_bytes_signed v).
Definition read_unsigned (n : nat) : reader Z := v ← read n; mret (from_le_bytes v).
Definition lift {A} (o : option A) : reader A := λ b, a ← o; Some (a, b).

Definition read_flag_i32 (present : bool) : reader (option Z) :=
  if present then v ← read_signed 4; mret (Some v) else mret None.

Definition has (mask flags : Z) : bool := negb (Z.land flags mask =? 0).

Definition decode_fields : reader t :=
  micros ← read_signed 8;
  asset_id ← read_signed 4;
  price ← read_unsigned 8;
  amount ← read_signed 8;
  flags ← read_unsigned 1;
  buyer_id ← read_flag_i32 (has 1 flags);
  seller_id ← read_flag_i32 (has 2 flags);
  aggressor_side ←
    (if has 4 flags then v ← read_signed 2; mret (Some v) else mret None);
  trade_id ←
    (if has 8 flags then
       len ← read_unsigned 4;
       raw ← read (Z.to_nat len);
       s ← lift (from_utf8 raw);
       mret (Some s)
     else mret None);
  time ← lift (from_timestamp_micros micros);
  mret (mk time asset_id price amount buyer_id seller_id aggressor_side trade_id (has 16 flags)).

Definition decode_rest (b : bytes) : option (t * bytes) :=
  if (length b <? 8 + 4 + 8 + 8 + 1)%nat then None else decode_fields b.
Definition decode_wal (b : bytes) : option t := fst <$> decode_rest b.

(** The values the Rust types allow. *)
Record well_typed (x : t) : Prop := {
  wt_asset : i32_min ≤ asset_id x ≤ i32_max;
  wt_price : 0 ≤ price x ≤ u64_max;
  wt_amount : i64_min ≤ amount x ≤ i64_max;
  wt_buyer v : buyer_id x = Some v → i32_min ≤ v ≤ i32_max;
  wt_seller v : seller_id x = Some v → i32_min ≤ v ≤ i32_max;
  wt_aggressor v : aggressor_side x = Some v → i16_min ≤ v ≤ i16_max;
  wt_id s : trade_id x = Some s → utf8_valid s = true ∧ Z.of_nat (length s) ≤ u32_max;
}.

(** The trade with its time stamp replaced. *)
Definition with_time (tm : DateTime) (x : t) : t :=
  mk tm (asset_id x) (price x) (amount x) (buyer_id x) (seller_id x) (aggressor_side x)
    (trade_id x) (is_direct x).

(** *** Reading what was written *)

Lemma reader_bind_Some {A B} (m : reader A) (f : A → reader B) b a b' :
  m b = Some (a, b') → (m ≫= f) b = f a b'.
Proof. intros Hm. unfold mbind, reader_bind. by rewrite Hm. Qed.

Lemma read_app n l r : length l = n → read n (l ++ r) = Some (l, r).
Proof.
  intros <-. unfold read. rewrite length_app.
  destruct (Nat.ltb_spec (length l + length r) (length l)); [lia|].
  by rewrite take_app_length, drop_app_length.
Qed.

Lemma read_signed_app n z r :
  (0 < n)%nat → - 2 ^ (8 * Z.of_nat n - 1) ≤ z < 2 ^ (8 * Z.of_nat n - 1) →
  read_signed n (to_le_bytes n z ++ r) = Some (z, r).
Proof.
  intros Hn Hz. unfold read_signed.
  rewrite (reader_bind_Some _ _ _ (to_le_bytes n z) r) by apply read_app, length_to_le_bytes.
  unfold mret, reader_ret. by rewrite from_to_le_bytes_signed.
Qed.

Lemma read_unsigned_app n z r :
  0 ≤ z < 256 ^ Z.of_nat n → read_unsigned n (to_le_bytes n z ++ r) = Some (z, r).
Proof.
  intros Hz. unfold read_unsigned.
  rewrite (reader_bind_Some _ _ _ (to_le_bytes n z) r) by apply read_app, length_to_le_bytes.
  unfold mret, reader_ret. by rewrite from_to_le_bytes_small.
Qed.

Lemma read_flag_app o r :
  (∀ v, o = Some v → i32_min ≤ v ≤ i32_max) →
  read_flag_i32 (present o) (opt_bytes 4 o ++ r) = Some (o, r).
Proof.
  intros Ho. destruct o as [v|]; [|done]. specialize (Ho v eq_refl).
  cbn [present read_flag_i32 opt_bytes].
  rewrite (reader_bind_Some _ _ _ v r); [done|].
  apply read_signed_app; [lia|]. unfold i32_min, i32_max in Ho. cbn. lia.
Qed.

Lemma flags_range x : 0 ≤ flags x < 256.
Proof. unfold flags. destruct x as [? ? ? ? [|] [|] [|] [|] []]; by vm_compute. Qed.

Lemma has_flags x :
  has 1 (flags x) = present (buyer_id x) ∧ has 2 (flags x) = present (seller_id x) ∧
  has 4 (flags x) = present (aggressor_side x) ∧ has 8 (flags x) = present (trade_id x) ∧
  has 16 (flags x) = is_direct x.
Proof. unfold flags. destruct x as [? ? ? ? [|] [|] [|] [|] []]; by vm_compute. Qed.

Lemma byte_of_Z_le z : [byte_of_Z z] = to_le_bytes 1 z.
Proof. done. Qed.

Ltac read_step := erewrite reader_bind_Some;
  [|first [apply read_signed_app|apply read_unsigned_app|apply read_flag_app]]; cbn beta.

Lemma read_aggressor_app o r :
  (∀ v, o = Some v → i16_min ≤ v ≤ i16_max) →
  (if present o then v ← read_signed 2; mret (Some v) else mret None : reader (option Z))
    (opt_bytes 2 o ++ r) = Some (o, r).
Proof.
  intros Ho. destruct o as [v|]; [|done]. specialize (Ho v eq_refl). cbn [present opt_bytes].
  rewrite (reader_bind_Some _ _ _ v r); [done|].
  apply read_signed_app; [lia|]. unfold i16_min, i16_max in Ho. cbn. lia.
Qed.

Definition id_bytes (o : option bytes) : bytes :=
  match o with
  | Some id => to_le_bytes 4 (default u32_max (checked 0 u32_max (Z.of_nat (length id)))) ++ id
  | None => []
  end.

Lemma read_id_app (o : option bytes) r :
  (∀ s, o = Some s → utf8_valid s = true ∧ Z.of_nat (length s) ≤ u32_max) →
  (if present o then
     len ← read_unsigned 4;
     raw ← read (Z.to_nat len);
     s ← lift (from_utf8 raw);
     mret (Some s)
   else mret None : reader (option bytes)) (id_bytes o ++ r) = Some (o, r).
Proof.
  intros Ho. destruct o as [s|]; [|done]. destruct (Ho s eq_refl) as [Hu Hl].
  cbn [present id_bytes].
  assert (checked 0 u32_max (Z.of_nat (length s)) = Some (Z.of_nat (length s))) as ->
    by (apply checked_Some; lia).
  cbn [default from_option id]. rewrite <-(assoc_L (++)).
  erewrite reader_bind_Some; [|apply read_unsigned_app; unfold u32_max in Hl; cbn; lia].
  cbn beta. rewrite Nat2Z.id.
  erewrite reader_bind_Some; [|by apply read_app]. cbn beta.
  unfold mbind, reader_bind, lift, from_utf8. rewrite Hu. done.
Qed.

Lemma decode_fields_app x r :
  well_typed x → - 2 ^ 63 ≤ timestamp_micros (time x) < 2 ^ 63 →
  decode_fields (encode_wal x ++ r) =
    tm ← from_timestamp_micros (timestamp_micros (time x)); Some (with_time tm x, r).
Proof.
  intros [Ha Hp Hm Hb Hs Hg Hi] Ht. unfold decode_fields, encode_wal.
  fold (id_bytes (trade_id x)). rewrite <-!(assoc_L (++)), byte_of_Z_le.
  destruct (has_flags x) as (H1 & H2 & H4 & H8 & H16).
  unfold i32_min, i32_max, u64_max, i64_min, i64_max in *.
  do 4 (read_step; [|cbn in *; lia..]).
  read_step; [|pose proof (flags_range x); cbn; lia].
  rewrite H1, H2, H4, H8, H16.
  read_step; [|done]. read_step; [|done].
  erewrite reader_bind_Some; [|by apply read_aggressor_app]. cbn beta.
  erewrite reader_bind_Some; [|by apply read_id_app]. cbn beta.
  unfold mbind at 1, reader_bind, lift.
  by destruct (from_timestamp_micros _).
Qed.

Lemma length_encode_wal x : (29 ≤ length (encode_wal x))%nat.
Proof. unfold encode_wal. rewrite !length_app, !length_to_le_bytes. simpl. lia. Qed.

Lemma decode_rest_app `{!ChronoSpec} x r :
  well_typed x →
  ∃ tm, from_timestamp_micros (timestamp_micros (time x)) = Some tm ∧
        decode_rest (encode_wal x ++ r) = Some (with_time tm x, r).
Proof.
  intros Hx. destruct (from_timestamp_micros_total (time x)) as [tm Htm].
  exists tm. split; [done|]. unfold decode_rest.
  pose proof (length_encode_wal x) as Hl. rewrite length_app.
  destruct (Nat.ltb_spec (length (encode_wal x) + length r) (8 + 4 + 8 + 8 + 1)); [lia|].
  rewrite decode_fields_app; [|done|apply timestamp_micros_range]. by rewrite Htm.
Qed.

(** *** Readers only look forward *)

(** More input does not change what is read; it is left over. *)
Definition extends {A} (m : reader A) : Prop :=
  ∀ b a b' x, m b = Some (a, b') → m (b ++ x) = Some (a, b' ++ x).

Lemma extends_ret {A} (a : A) : extends (mret a).
Proof. intros b a' b' x [= <- <-]. done. Qed.
Lemma extends_bind {A B} (m : reader A) (f : A → reader B) :
  extends m → (∀ a, extends (f a)) → extends (m ≫= f).
Proof.
  intros Hm Hf b a b' x. unfold mbind, reader_bind.
  destruct (m b) as [[a1 b1]|] eqn:E; [|done]. intros Hfa.
  rewrite (Hm _ _ _ x E). by apply Hf.
Qed.
Lemma extends_read n : extends (read n).
Proof.
  intros b a b' x. unfold read. destruct (Nat.ltb_spec (length b) n); [done|].
  intros [= <- <-]. rewrite length_app.
  destruct (Nat.ltb_spec (length b + length x) n); [lia|].
  by rewrite take_app_le, drop_app_le by lia.
Qed.
Lemma extends_lift {A} (o : option A) : extends (lift o).
Proof. intros b a b' x. unfold lift. destruct o; simpl; [|done]. by intros [= <- <-]. Qed.
Lemma extends_if {A} (c : bool) (m1 m2 : reader A) :
  extends m1 → extends m2 → extends (if c then m1 else m2).
Proof. by destruct c. Qed.

Lemma extends_decode_fields : extends decode_fields.
Proof.
  unfold decode_fields, read_signed, read_unsigned, read_flag_i32.
  repeat first [apply extends_ret|apply extends_read|apply extends_lift|apply extends_if
               |apply extends_bind; [|intros ?]].
Qed.

(** (C19) Trade record round trip. Decoding the log record of any trade the
    Rust types allow succeeds and gives the trade back, up to the part of
    its time stamp below a microsecond; the trade comes back exactly when
    the time stamp is a whole number of microseconds. *)
Theorem staged_trade_roundtrip `{!ChronoSpec} (x : t) :
  well_typed x →
  ∃ tm, decode_wal (encode_wal x) = Some (with_time tm x) ∧
        timestamp_micros tm = timestamp_micros (time x) ∧
        (decode_wal (encode_wal x) = Some x ↔
         from_timestamp_micros (timestamp_micros (time x)) = Some (time x)).
Proof.
  intros Hx. destruct (decode_rest_app x [] Hx) as (tm & Htm & Hd).
  rewrite app_nil_r in Hd. exists tm. unfold decode_wal. rewrite Hd, Htm. simpl.
  split_and!; [done|by apply from_timestamp_micros_Some|].
  split; [by intros [= <-]|]. intros [= ->]. by destruct x.
Qed.

(** A truncated trade record is rejected: no proper prefix of an encoded
    trade decodes, so a partial record never turns into a wrong trade. *)
Theorem staged_trade_truncated `{!ChronoSpec} (x : t) (n : nat) :
  well_typed x → (n < length (encode_wal x))%nat → decode_wal (take n (encode_wal x)) = None.
Proof.
  intros Hx Hn. destruct (decode_wal (take n (encode_wal x))) as [y|] eqn:Hd; [|done].
  exfalso. unfold decode_wal in Hd. apply fmap_Some in Hd as ([z b] & Hd & _).
  unfold decode_rest in Hd.
  destruct (Nat.ltb_spec (length (take n (encode_wal x))) (8 + 4 + 8 + 8 + 1)); [done|].
  apply (extends_decode_fields _ _ _ (drop n (encode_wal x))) in Hd. rewrite take_drop in Hd.
  destruct (decode_rest_app x [] Hx) as (tm & _ & He). rewrite app_nil_r in He.
  unfold decode_rest in He.
  destruct (length (encode_wal x) <? _)%nat; [done|]. rewrite Hd in He. simplify_eq.
  match goal with Hb : _ ++ drop _ _ = [] |- _ => apply app_eq_nil in Hb as [_ Hb];
    apply (f_equal length) in Hb; rewrite length_drop in Hb; cbn [length] in Hb end.
  lia.
Qed.

(** A list of encoded trades, decoded. *)
Lemma decode_encoded `{!ChronoSpec} xs :
  Forall well_typed xs →
  Forall2 (λ x y, ∃ tm, y = with_time tm x ∧ timestamp_micros tm = timestamp_micros (time x))
    xs (omap decode_wal (encode_wal <$> xs)).
Proof.
  induction 1 as [|x xs Hx _ IH]; [done|].
  destruct (decode_rest_app x [] Hx) as (tm & Htm & Hd). rewrite app_nil_r in Hd.
  assert (decode_wal (encode_wal x) = Some (with_time tm x)) as Hdec
    by (unfold decode_wal; by rewrite Hd).
  rewrite fmap_cons. unfold omap in *. cbn [list_omap]. rewrite Hdec. constructor; [|done].
  exists tm. split; [done|]. by apply from_timestamp_micros_Some.
Qed.
End staged.

(** A trade with every optional field but the seller, for the witnesses. *)
Definition sample : @t chrono_reference :=
  @mk chrono_reference (1700000000000000, 0) 42 0x403A800000000000 100
    (Some (-3)) None (Some 1) (Some (bs "N123")) true.

Lemma sample_well_typed : @well_typed chrono_reference sample.
Proof.
  constructor.
  1,2,3: vm_compute; split; discriminate.
  - intros v Hv. injection Hv as <-. vm_compute. split; discriminate.
  - intros v Hv. discriminate Hv.
  - intros v Hv. injection Hv as <-. vm_compute. split; discriminate.
  - intros s Hs. injection Hs as <-. split; vm_compute; [reflexivity|discriminate].
Qed.

Lemma staged_trade_roundtrip_witness :
  @decode_wal chrono_reference (@encode_wal chrono_reference sample) = Some sample.
Proof.
  destruct (@staged_trade_roundtrip chrono_reference chrono_reference_spec sample)
    as (tm & _ & _ & [_ Hx]); [exact sample_well_typed|].
  apply Hx. vm_compute. reflexivity.
Defined.

Lemma staged_trade_truncated_witness :
  @decode_wal chrono_reference (take 30 (@encode_wal chrono_reference sample)) = None.
Proof.
  apply (@staged_trade_truncated chrono_reference chrono_reference_spec);
    [exact sample_well_typed|apply Nat.ltb_lt; vm_compute; reflexivity].
Defined.
End StagedTrade.
