(* ===== verification/TradeWriter.v ===== *)
(** * Trade writer ([persistence/src/trade_writer.rs], [TradeWriter])

    The writer stages trades in the log and in memory and flushes batches to
    the database, which is a parameter. [ConcurrentWriter.v] has overlapping
    calls. *)

From S2P Require Import Prelude RustInt RustStr RustFloat Externs Wal StagedTrade.

Import StagedTrade.

(** ** The database

    The trades table as the source uses it: one multi-row
    [INSERT .. ON CONFLICT (time, asset_id, trade_id) DO NOTHING], of which the
    source only sees whether it succeeded. [TradeRow.v] has the rows and the
    table behind this interface. *)

Class TradeTable `{Chrono} : Type := {
  Db : Type;
  execute : list StagedTrade.t → Db → bool * Db;
  stored : Db → StagedTrade.t → Prop;
  same_row : StagedTrade.t → StagedTrade.t → Prop;
}.

(** A successful insert stores its batch; nothing is removed, and nothing is
    stored that is not in the batch or, by the columns' types and the unique
    index, one row with a trade of it. *)
Class TradeTableSpec `{TradeTable} : Prop := {
  execute_stores batch db db' r : execute batch db = (true, db') → r ∈ batch → stored db' r;
  execute_keeps batch db ok db' r : execute batch db = (ok, db') → stored db r → stored db' r;
  execute_only batch db ok db' r :
    execute batch db = (ok, db') → stored db' r → stored db r ∨ ∃ r', r' ∈ batch ∧ same_row r' r;
}.

Module TradeWriter.
Section writer.
Context `{TradeTable}.

Record t : Type := mk {
  wal : TradeWal.t;
  buffer : list StagedTrade.t;
  batch_size : nat;
  db : Db;
}.

(** [connect] with the log file's contents. *)
Definition connect (wal_file : bytes) (batch_size : nat) (db : Db) : t :=
  mk (TradeWal.open wal_file) [] batch_size db.

Definition flush_drained (batch : list StagedTrade.t) (w : t)
    : result PersistenceError.t () * t :=
  if (length batch =? 0)%nat then (Ok (), w)
  else
    let wal1 := TradeWal.sync (wal w) in
    match execute batch (db w) with
    | (true, db1) => (Ok (), mk (TradeWal.truncate wal1) (buffer w) (batch_size w) db1)
    | (false, db1) => (Err PersistenceError.Database, mk wal1 (buffer w) (batch_size w) db1)
    end.

Definition stage (trade : StagedTrade.t) (w : t) : result PersistenceError.t () * t :=
  match TradeWal.append (encode_wal trade) (wal w) with
  | Err e => (Err e, w)
  | Ok (_, wal1) =>
      let buf := buffer w ++ [trade] in
      if (batch_size w <=? length buf)%nat then
        flush_drained buf (mk wal1 [] (batch_size w) (db w))
      else (Ok (), mk wal1 buf (batch_size w) (db w))
  end.

Definition flush (w : t) : result PersistenceError.t nat * t :=
  let drained := buffer w in
  let w := mk (wal w) [] (batch_size w) (db w) in
  let n := length drained in
  if (n =? 0)%nat then (Ok O, w)
  else
    let '(r, w) := flush_drained drained w in (_ ← r; Ok n, w).

Definition recover_from_wal (w : t) : nat * t :=
  let '(records, wal1) := TradeWal.replay (wal w) in
  let recovered := omap decode_wal records in
  (length recovered, mk wal1 (buffer w ++ recovered) (batch_size w) (db w)).
End writer.
End TradeWriter.

Section sequential.
Context `{TradeTableSpec, !ChronoSpec}.
Import TradeWriter.

(** The log holds exactly the records of the buffered trades. *)
Definition in_step (w : TradeWriter.t) : Prop :=
  (∃ possible, wal_inv (wal w) (encode_wal <$> buffer w) possible) ∧ Forall well_typed (buffer w).

(** A trade that is in the database, or both in memory and in the log. *)
Definition safe (w : TradeWriter.t) (r : StagedTrade.t) : Prop :=
  stored (db w) r ∨ (r ∈ buffer w ∧ encode_wal r ∈ (TradeWal.replay (wal w)).1).

Lemma in_step_replay w : in_step w → (TradeWal.replay (wal w)).1 = encode_wal <$> buffer w.
Proof. intros [[k Hk] _]. by eapply replay_inv. Qed.

Lemma in_step_safe w r : in_step w → r ∈ buffer w → safe w r.
Proof.
  intros Hs Hr. right. split; [done|]. rewrite in_step_replay by done.
  by apply list_elem_of_fmap_2.
Qed.

Lemma truncated_in_step wal0 log possible n db0 :
  wal_inv wal0 log possible → in_step (mk (TradeWal.truncate (TradeWal.sync wal0)) [] n db0).
Proof.
  intros Hk. split; [|done]. eexists. eapply (apply_inv WalOp.Truncate), (apply_inv WalOp.Sync), Hk.
Qed.

Lemma flush_drained_spec batch w r w' :
  batch ≠ [] → flush_drained batch w = (r, w') →
  ∃ ok db1, execute batch (db w) = (ok, db1) ∧
    r = (if ok then Ok () else Err PersistenceError.Database) ∧
    w' = mk (if ok then TradeWal.truncate (TradeWal.sync (wal w)) else TradeWal.sync (wal w))
            (buffer w) (batch_size w) db1.
Proof.
  intros Hb. unfold flush_drained.
  destruct (Nat.eqb_spec (length batch) 0) as [Hl|_]; [by apply nil_length_inv in Hl|].
  destruct (execute batch (db w)) as [[] db1]; intros [= <- <-]; eauto 10.
Qed.

(** Staging, when the database works. *)
Lemma stage_in_step x w w' :
  in_step w → well_typed x → stage x w = (Ok (), w') →
  in_step w' ∧ safe w' x ∧ ∀ r, safe w r → safe w' r.
Proof.
  intros Hs Hx. unfold stage.
  destruct (TradeWal.append (encode_wal x) (wal w)) as [[off wal1]|e] eqn:Ha; [|done].
  destruct Hs as [[k Hk] Hwt].
  pose proof (apply_inv (WalOp.Append (encode_wal x)) _ _ _ Hk) as Hk1.
  cbn [WalOp.apply WalOp.spec fst snd] in Hk1. rewrite Ha in Hk1.
  destruct (append_Ok _ _ _ _ Ha) as (Hfit & _).
  rewrite bool_decide_eq_true_2 in Hk1 by done. cbn [fst snd] in Hk1.
  destruct (batch_size w <=? length (buffer w ++ [x]))%nat eqn:Hbs.
  - intros Hf. apply flush_drained_spec in Hf as (ok & db1 & He & Hr & ->); [|by destruct (buffer w)].
    destruct ok; [|done]. cbn [wal buffer batch_size db] in *.
    split; [by eapply truncated_in_step|]. split.
    + left. eapply execute_stores; [exact He|]. apply elem_of_app. right. by apply list_elem_of_singleton.
    + intros r [Hst|[Hr0 _]]; left; cbn [db].
      * by eapply execute_keeps.
      * eapply execute_stores; [exact He|]. apply elem_of_app. by left.
  - intros [= <-].
    assert (in_step (mk wal1 (buffer w ++ [x]) (batch_size w) (db w))) as Hs'.
    { split; cbn [wal buffer].
      - eexists. rewrite fmap_app. exact Hk1.
      - apply Forall_app. split; [done|]. by apply Forall_cons. }
    split; [done|]. split.
    + apply in_step_safe; [done|]. cbn [buffer]. apply elem_of_app. right. by apply list_elem_of_singleton.
    + intros r [Hst|[Hr0 _]]; [by left|]. apply in_step_safe; [done|].
      cbn [buffer]. apply elem_of_app. by left.
Qed.

Lemma flush_in_step w n w' :
  in_step w → flush w = (Ok n, w') → in_step w' ∧ ∀ r, safe w r → stored (db w') r.
Proof.
  intros Hs. unfold flush. destruct (Nat.eqb_spec (length (buffer w)) 0) as [Hl|Hl].
  - intros [= <- <-]. apply nil_length_inv in Hl. split.
    + destruct Hs as [Hw _]. rewrite Hl in Hw. by split.
    + intros r [Hst|[Hr _]]; [done|]. rewrite Hl in Hr. by apply elem_of_nil in Hr.
  - destruct (flush_drained _ _) as [r w1] eqn:Hf.
    apply flush_drained_spec in Hf as (ok & db1 & He & -> & ->); [|by intros Hb; rewrite Hb in Hl].
    destruct ok; simpl; [|done]. intros [= _ <-]. cbn [wal buffer batch_size db] in *.
    destruct Hs as [[possible Hk] _]. split; [by eapply truncated_in_step|]. intros r [Hst|[Hr _]].
    + by eapply execute_keeps.
    + by eapply execute_stores.
Qed.

(** *** A run of calls *)

Inductive writer_op : Type :=
  | Stage (x : StagedTrade.t)
  | Flush.

(** The writer after the calls, if each of them returned [Ok]. *)
Fixpoint run_ok (ops : list writer_op) (w : TradeWriter.t) : option TradeWriter.t :=
  match ops with
  | [] => Some w
  | Stage x :: ops' =>
      match stage x w with (Ok _, w') => run_ok ops' w' | _ => None end
  | Flush :: ops' =>
      match flush w with (Ok _, w') => run_ok ops' w' | _ => None end
  end.

Lemma run_ok_safe ops w w' :
  in_step w → (∀ x, Stage x ∈ ops → well_typed x) → run_ok ops w = Some w' →
  in_step w' ∧ (∀ r, safe w r → safe w' r) ∧ ∀ x, Stage x ∈ ops → safe w' x.
Proof.
  revert w. induction ops as [|op ops IH]; intros w Hs Hwt Hr.
  - simplify_eq/=. split_and!; [done|done|]. intros x Hx. by apply elem_of_nil in Hx.
  - assert (∀ w1, in_step w1 → run_ok ops w1 = Some w' →
      in_step w' ∧ (∀ r, safe w1 r → safe w' r) ∧ ∀ x, Stage x ∈ ops → safe w' x) as IH'.
    { intros w1 Hs1. apply IH; [done|]. intros x Hx. apply Hwt. by constructor. }
    destruct op as [x|]; cbn [run_ok] in Hr.
    + destruct (stage x w) as [[[]|e] w1] eqn:Hst; [|done].
      destruct (stage_in_step x w w1) as (Hs1 & Hx & Hk); [done|by apply Hwt; constructor|done|].
      destruct (IH' w1 Hs1 Hr) as (Hs' & Hkeep & Hall). split_and!; [done|by eauto|].
      intros y [Hy|Hy]%elem_of_cons; [simplify_eq; by apply Hkeep|by apply Hall].
    + destruct (flush w) as [[n|e] w1] eqn:Hf; [|done].
      destruct (flush_in_step w n w1 Hs Hf) as (Hs1 & Hk).
      destruct (IH' w1 Hs1 Hr) as (Hs' & Hkeep & Hall). split_and!; [done| |].
      * intros r Hr0. apply Hkeep. left. by apply Hk.
      * intros y [Hy|Hy]%elem_of_cons; [done|by apply Hall].
Qed.

Lemma connect_in_step n db0 : in_step (connect [] n db0).
Proof. split; [|done]. eexists. apply wal_open_inv. Qed.

(** No trade is lost while the database works. Whatever calls of [stage]
    and [flush] are made on a fresh writer, for any batch size, if all of
    them return [Ok] then every staged trade is either stored in the
    database or both buffered in memory and recorded in the log, and the
    next successful [flush] stores all of them. *)
Theorem no_loss_while_database_works (ops : list writer_op) (n : nat) (db0 : Db)
    (w : TradeWriter.t) (x : StagedTrade.t) :
  (∀ x, Stage x ∈ ops → well_typed x) → run_ok ops (connect [] n db0) = Some w →
  Stage x ∈ ops →
  (stored (db w) x ∨ (x ∈ buffer w ∧ encode_wal x ∈ (TradeWal.replay (wal w)).1)) ∧
  ∀ m w', flush w = (Ok m, w') → stored (db w') x.
Proof.
  intros Hwt Hr Hx.
  destruct (run_ok_safe ops _ _ (connect_in_step n db0) Hwt Hr) as (Hs & _ & Hall).
  split; [by apply Hall|]. intros m w' Hf. destruct (flush_in_step _ _ _ Hs Hf) as [_ Hk].
  by apply Hk, Hall.
Qed.

(** Restart. When a writer whose log is in step crashes, with at least its
    first [k] trades in every log the crash may leave, and a new one recovers
    from what it left, the trades recovered are a prefix of the buffer with these
    [k], in order and up to the sub-microsecond part of their times; a successful
    flush then stores all recovered trades. *)
Theorem restart_recovers (w w2 w3 : TradeWriter.t) (k n m m' : nat) (wal1 : TradeWal.t) (db0 : Db)
    (possible : list (list bytes)) :
  Forall well_typed (buffer w) → wal_inv (wal w) (encode_wal <$> buffer w) possible →
  Forall (λ log, ∃ j, (k ≤ j ≤ length (buffer w))%nat ∧ log = take j (encode_wal <$> buffer w)) possible →
  TradeWal.crash (wal w) wal1 →
  recover_from_wal (mk wal1 [] n db0) = (m, w2) → flush w2 = (Ok m', w3) →
  (k ≤ m ≤ length (buffer w))%nat ∧ m' = m ∧
  ∀ i x, (i < m)%nat → buffer w !! i = Some x →
    ∃ tm, timestamp_micros tm = timestamp_micros (time x) ∧ stored (db w3) (with_time tm x).
Proof.
  intros Hwt Hw Hlogs Hc Hr Hf. pose proof (crash_inv _ _ _ _ Hw Hc) as Hin.
  rewrite Forall_forall in Hlogs. destruct (Hlogs _ Hin) as (j & Hj & Hrep).
  unfold recover_from_wal in Hr. cbn [wal buffer batch_size db] in Hr.
  destruct (TradeWal.replay wal1) as [records wal2]. cbn [fst] in Hrep. subst records.
  rewrite <-fmap_take in Hr. injection Hr as <- <-.
  pose proof (decode_encoded (take j (buffer w)) (Forall_take _ j _ Hwt)) as Hd.
  set (ys := omap decode_wal (encode_wal <$> take j (buffer w))) in *.
  pose proof (Forall2_length _ _ _ Hd) as Hlen. rewrite length_take in Hlen.
  unfold flush in Hf. cbn [wal buffer batch_size db] in Hf.
  destruct (Nat.eqb_spec (length ys) 0) as [Hz|Hz].
  - injection Hf as <- <-. split_and!; [lia..|]. intros i x Hi. lia.
  - destruct (flush_drained ys _) as [r w1] eqn:Hfd.
    apply flush_drained_spec in Hfd as (ok & db1 & He & -> & ->); [|by intros Hy; rewrite Hy in Hz].
    destruct ok; simpl in Hf; [|done]. injection Hf as <- <-. cbn [db] in *.
    split_and!; [lia..|done|]. intros i x Hi Hx.
    destruct (Forall2_lookup_l _ _ _ i x Hd) as (y & Hy & tm & -> & Htm).
    { rewrite lookup_take_lt by lia. done. }
    exists tm. split; [done|]. eapply execute_stores; [exact He|].
    by eapply list_elem_of_lookup_2.
Qed.

(** (C37) A failed flush loses its batch. The batch is taken out of memory
    before the insert; when the insert fails without storing a trade, only the
    log still has that trade, and the next successful flush, of any later
    trade, truncates the log. The trade is then in no database row, in no
    buffer and in no log record: recovery from this log does not bring it back. *)
Theorem failed_flush_loses_batch (w w1 w2 w3 : TradeWriter.t) (e : PersistenceError.t)
    (x r : StagedTrade.t) (m : nat) :
  r ∈ buffer w → ¬ same_row x r → (1 < batch_size w)%nat →
  flush w = (Err e, w1) → ¬ stored (db w1) r →
  stage x w1 = (Ok (), w2) → flush w2 = (Ok m, w3) →
  ¬ stored (db w3) r ∧ (r ∉ buffer w3) ∧ (TradeWal.replay (wal w3)).1 = [].
Proof.
  intros Hr Hrow Hbs Hf1 Hst1 Hs Hf2.
  unfold flush in Hf1. destruct (Nat.eqb_spec (length (buffer w)) 0) as [Hz|Hz]; [done|].
  destruct (flush_drained (buffer w) _) as [r1 w1'] eqn:Hfd.
  apply flush_drained_spec in Hfd as (ok & db1 & He & -> & ->); [|by intros Hb; rewrite Hb in Hz].
  destruct ok; simpl in Hf1; [done|]. injection Hf1 as _ <-. cbn [wal buffer batch_size db] in *.
  unfold stage in Hs. cbn [wal buffer batch_size db] in Hs.
  destruct (TradeWal.append _ _) as [[off wal1]|e1]; [|done]. cbn [app length] in Hs.
  destruct (Nat.leb_spec (batch_size w) 1); [lia|]. injection Hs as <-.
  unfold flush in Hf2. cbn [wal buffer batch_size db length Nat.eqb] in Hf2.
  destruct (flush_drained [x] _) as [r2 w2'] eqn:Hfd.
  apply flush_drained_spec in Hfd as (ok & db2 & He2 & -> & ->); [|done].
  destruct ok; simpl in Hf2; [|done]. injection Hf2 as _ <-. cbn [wal buffer batch_size db] in *.
  split_and!; [|apply not_elem_of_nil|apply replay_truncate].
  intros Hs2. destruct (execute_only _ _ _ _ _ He2 Hs2) as [?|(r' & Hr' & Hsame)]; [done|].
  apply list_elem_of_singleton in Hr' as ->. done.
Qed.

(** An acknowledged trade need not be on disk. [stage] returns [Ok] with
    the record still in the writer's buffer: a crash right after leaves an
    empty log, although the trade was acknowledged. *)
Theorem stage_ack_not_durable (x : StagedTrade.t) (n : nat) (db0 : Db) :
  Z.of_nat (length (encode_wal x)) < TradeWal.capacity - 8 → (1 < n)%nat →
  ∃ w, stage x (connect [] n db0) = (Ok (), w) ∧
       TradeWal.crash (wal w) (TradeWal.open []) ∧ (TradeWal.replay (TradeWal.open [])).1 = [].
Proof.
  intros Hx Hn. unfold stage, connect. cbn [wal buffer batch_size db app length].
  destruct (append_small (encode_wal x) (TradeWal.open [])) as [off Ha].
  { cbn [TradeWal.buffer TradeWal.open length]. lia. }
  rewrite Ha. destruct (Nat.leb_spec n 1); [lia|].
  eexists. split; [done|]. split; [|by vm_compute]. cbn [wal].
  apply TradeWal.crash_intro, (Unsynced.image_between _ _ 0).
Qed.
End sequential.

(** ** A concrete table, for the witnesses *)

Section reference.
#[local] Existing Instance chrono_reference.

(** Two trades that are one row of the table. *)
Definition same_key_row (r r' : StagedTrade.t) : Prop :=
  r = r' ∨ (time r = time r' ∧ asset_id r = asset_id r' ∧
            trade_id r = trade_id r' ∧ trade_id r ≠ None).
#[local] Instance same_key_row_dec r r' : Decision (same_key_row r r').
Proof. unfold same_key_row. apply _. Defined.

Definition insert_row (rows : list StagedTrade.t) (r : StagedTrade.t) : list StagedTrade.t :=
  if decide (Exists (λ r', same_key_row r' r) rows) then rows else rows ++ [r].

(** The rows, and which of the coming inserts will fail. *)
Definition table_reference : TradeTable := {|
  Db := list StagedTrade.t * list bool;
  execute batch d :=
    match d.2 with
    | true :: faults => (false, (d.1, faults))
    | faults => (true, (foldl insert_row d.1 batch, tail faults))
    end;
  stored d r := Exists (λ r', same_key_row r' r) d.1;
  same_row := same_key_row;
|}.

Lemma insert_row_elem rows r x : x ∈ insert_row rows r → x ∈ rows ∨ x = r.
Proof.
  unfold insert_row. case_decide; [by left|].
  intros [?|Hx]%elem_of_app; [by left|right]. by apply list_elem_of_singleton in Hx.
Qed.
Lemma insert_row_keeps rows r x : x ∈ rows → x ∈ insert_row rows r.
Proof. unfold insert_row. case_decide; [done|]. intros. apply elem_of_app. by left. Qed.
Lemma insert_row_has rows r : Exists (λ r', same_key_row r' r) (insert_row rows r).
Proof.
  unfold insert_row. case_decide; [done|]. apply Exists_app. right. constructor. by left.
Qed.

Lemma insert_rows_elem batch rows x :
  x ∈ foldl insert_row rows batch → x ∈ rows ∨ x ∈ batch.
Proof.
  revert rows. induction batch as [|r batch IH]; intros rows; simpl; [by left|].
  intros [Hx|Hx]%IH.
  - apply insert_row_elem in Hx as [?| ->]; [by left|right; by constructor].
  - right. by constructor.
Qed.
Lemma insert_rows_keeps batch rows x : x ∈ rows → x ∈ foldl insert_row rows batch.
Proof.
  revert rows. induction batch as [|r batch IH]; intros rows Hx; simpl; [done|].
  by apply IH, insert_row_keeps.
Qed.

Lemma table_reference_spec : @TradeTableSpec _ table_reference.
Proof.
  assert (∀ rows rows' r, (∀ x, x ∈ rows → x ∈ rows') →
    Exists (λ r', same_key_row r' r) rows → Exists (λ r', same_key_row r' r) rows') as Hmono.
  { intros rows rows' r Hi. rewrite !Exists_exists. intros (x & Hx & Hs). eauto. }
  split.
  - intros batch [rows faults] db' r He Hr.
    assert (db'.1 = foldl insert_row rows batch) as Hd.
    { simpl in He. destruct faults as [|[] faults]; by simplify_eq/=. }
    change (Exists (λ r', same_key_row r' r) db'.1). rewrite Hd. clear He Hd faults db'.
    revert rows. induction batch as [|r0 batch IH]; intros rows; [by apply elem_of_nil in Hr|].
    apply elem_of_cons in Hr as [->|Hr]; simpl; [|by apply IH].
    eapply Hmono; [|apply insert_row_has]. intros x. apply insert_rows_keeps.
  - intros batch [rows faults] ok db' r He Hr. simpl in He, Hr.
    destruct faults as [|[] faults]; simplify_eq/=; [|done|];
      (eapply Hmono; [|exact Hr]); intros x; apply insert_rows_keeps.
  - intros batch [rows faults] ok db' r He Hr. simpl in He.
    assert (∀ rows', Exists (λ r', same_key_row r' r) (foldl insert_row rows' batch) →
      Exists (λ r', same_key_row r' r) rows' ∨ ∃ r', r' ∈ batch ∧ same_key_row r' r) as Hor.
    { intros rows'. rewrite !Exists_exists. intros (x & [Hx|Hx]%insert_rows_elem & Hs); eauto. }
    destruct faults as [|[] faults]; simplify_eq/=; [|by left|]; by apply Hor.
Qed.
End reference.

Section witnesses.
#[local] Existing Instance chrono_reference.
#[local] Existing Instance table_reference.
#[local] Existing Instance chrono_reference_spec.
#[local] Existing Instance table_reference_spec.
Import TradeWriter.

(** No rows, and the given faults to come. *)
Definition empty_table (faults : list bool) : @Db chrono_reference table_reference := ([], faults).

(** The sample trade with another id. *)
Definition other : StagedTrade.t :=
  StagedTrade.mk (1700000000000007, 0) 42 0x403A800000000000 5 None (Some 8) None (Some (bs "N124")) false.

Lemma other_well_typed : well_typed other.
Proof.
  constructor.
  1,2,3: vm_compute; split; discriminate.
  - intros v Hv. discriminate Hv.
  - intros v Hv. injection Hv as <-. vm_compute. split; discriminate.
  - intros v Hv. discriminate Hv.
  - intros s Hs. injection Hs as <-. split; vm_compute; [reflexivity|discriminate].
Qed.

Lemma pair_result {A B} (p : A * B) a : p.1 = a → p = (a, p.2).
Proof. by destruct p as [x y]; intros [= ->]. Qed.

Lemma no_loss_while_database_works_witness :
  ∃ w n w', run_ok [Stage sample; Flush; Stage other] (connect [] 3 (empty_table [])) = Some w ∧
    flush w = (Ok n, w') ∧ stored (db w') other.
Proof.
  destruct (run_ok [Stage sample; Flush; Stage other] (connect [] 3 (empty_table []))) as [w|] eqn:Hr.
  - assert ((flush (default w (run_ok [Stage sample; Flush; Stage other]
      (connect [] 3 (empty_table []))))).1 = Ok 1%nat) as Hf by (vm_compute; reflexivity).
    rewrite Hr in Hf. apply pair_result in Hf. cbn [default from_option id] in Hf.
    exists w, 1%nat, (flush w).2. split; [reflexivity|]. split; [exact Hf|].
    eapply (no_loss_while_database_works _ 3 (empty_table []) w other _ Hr); [|exact Hf].
    apply list_elem_of_further, list_elem_of_further, list_elem_of_here.
  - assert (match run_ok [Stage sample; Flush; Stage other] (connect [] 3 (empty_table [])) with
            | Some _ => true | None => false end = true) as Hx by (vm_compute; reflexivity).
    rewrite Hr in Hx. discriminate Hx.
  Unshelve.
  intros x Hx. apply elem_of_cons in Hx as [Hx|Hx]; [injection Hx as ->; exact sample_well_typed|].
  apply elem_of_cons in Hx as [Hx|Hx]; [discriminate Hx|].
  apply list_elem_of_singleton in Hx. injection Hx as ->. exact other_well_typed.
Defined.

Lemma stage_ack_not_durable_witness :
  ∃ w, stage sample (connect [] 3 (empty_table [])) = (Ok (), w) ∧
       TradeWal.crash (wal w) (TradeWal.open []).
Proof.
  destruct (stage_ack_not_durable sample 3 (empty_table [])) as (w & Hw & Hc & _).
  - apply Z.ltb_lt. vm_compute. reflexivity.
  - lia.
  - exists w. split; [exact Hw|exact Hc].
Defined.

(** A writer with the sample buffered and in the log. *)
Definition staged_sample (faults : list bool) : TradeWriter.t :=
  (stage sample (connect [] 5 (empty_table faults))).2.

Lemma failed_flush_loses_batch_witness :
  let w1 := (flush (staged_sample [true])).2 in
  let w2 := (stage other w1).2 in
  let w3 := (flush w2).2 in
  flush (staged_sample [true]) = (Err PersistenceError.Database, w1) ∧
  stage other w1 = (Ok (), w2) ∧ flush w2 = (Ok 1%nat, w3) ∧ ¬ stored (db w3) sample.
Proof.
  intros w1 w2 w3.
  assert (flush (staged_sample [true]) = (Err PersistenceError.Database, w1)) as H1
    by (apply pair_result; vm_compute; reflexivity).
  assert (stage other w1 = (Ok (), w2)) as H2 by (apply pair_result; vm_compute; reflexivity).
  assert (flush w2 = (Ok 1%nat, w3)) as H3 by (apply pair_result; vm_compute; reflexivity).
  split; [exact H1|]. split; [exact H2|]. split; [exact H3|].
  apply (failed_flush_loses_batch (staged_sample [true]) w1 w2 w3 PersistenceError.Database
    other sample 1%nat); [| | |exact H1| |exact H2|exact H3].
  - apply list_elem_of_here.
  - intros [Hx|(Hx & _)]; discriminate Hx.
  - apply Nat.ltb_lt. reflexivity.
  - intros Hx. apply Exists_nil in Hx. exact Hx.
Defined.

(** The log of that writer, synced, and the writer that recovers it. *)
Definition synced_log : TradeWal.t := TradeWal.sync (wal (staged_sample [])).
Definition reopened : TradeWal.t := TradeWal.open (TradeWal.file synced_log).

Lemma restart_recovers_witness :
  let w2 := (recover_from_wal (mk reopened [] 5 (empty_table []))).2 in
  let w3 := (flush w2).2 in
  recover_from_wal (mk reopened [] 5 (empty_table [])) = (1%nat, w2) ∧ flush w2 = (Ok 1%nat, w3) ∧
  ∃ tm, stored (db w3) (with_time tm sample).
Proof.
  intros w2 w3.
  assert (recover_from_wal (mk reopened [] 5 (empty_table [])) = (1%nat, w2)) as H1
    by (apply pair_result; vm_compute; reflexivity).
  assert (flush w2 = (Ok 1%nat, w3)) as H2 by (apply pair_result; vm_compute; reflexivity).
  split; [exact H1|]. split; [exact H2|].
  destruct (restart_recovers (mk synced_log [sample] 5 (empty_table [])) w2 w3 1 5 1 1 reopened (empty_table []) [[encode_wal sample]])
    as (_ & _ & Hs).
  - apply Forall_cons. split; [exact sample_well_typed|apply Forall_nil; exact I].
  - assert (wal (staged_sample []) =
      WalOp.apply_all [WalOp.Append (encode_wal sample)] (TradeWal.open [])) as Hw
      by (vm_compute; reflexivity).
    cbn [wal buffer]. unfold synced_log. rewrite Hw.
    exact (apply_all_inv [WalOp.Append (encode_wal sample); WalOp.Sync]).
  - apply Forall_cons. split; [exists 1%nat; split; [cbn [buffer length]; lia|reflexivity]|apply Forall_nil; exact I].
  - apply TradeWal.crash_intro. apply image_all.
  - exact H1.
  - exact H2.
  - destruct (Hs 0%nat sample) as (tm & _ & Htm); [lia|reflexivity|]. exists tm. exact Htm.
Defined.

End witnesses.
