(* ===== verification/TradeRow.v ===== *)
(** * Rows of the trades table ([persistence/src/trade_writer.rs], the insert)

    What a flush binds for a trade, and the table behind the insert. Decimal
    arithmetic ([rust_decimal]) and the database are parameters; the laws of the
    second are those of PostgreSQL for the table [lib.rs] describes: a
    statement is atomic, a unique index takes NULLs for distinct, and a
    statement has at most 65535 parameters. *)

From S2P Require Import Prelude RustInt RustStr RustFloat Externs StagedTrade.
From Stdlib Require Import Floats.SpecFloat.

(** ** [rust_decimal]

    A product that does not fit panics: [None]. *)
Class DecimalOps : Type := {
  Decimal : Type;
  Decimal_eq_dec : EqDecision Decimal;
  decimal_default : Decimal;
  decimal_from_f64 : f64 → option Decimal;
  decimal_from_i64 : Z → Decimal;
  decimal_mul : Decimal → Decimal → option Decimal;
  decimal_round_dp : nat → Decimal → Decimal;
}.
#[export] Existing Instance Decimal_eq_dec.

(** An infinity or a NaN is no decimal. *)
Definition f64_is_finite (x : f64) : bool :=
  match sf_of_f64 x with S754_zero _ | S754_finite _ _ _ => true | _ => false end.
Class DecimalSpec `{DecimalOps} : Prop :=
  decimal_from_f64_finite x : f64_is_finite x = false → decimal_from_f64 x = None.

(** ** Rows *)

Module TradeRow.
Section row.
Context `{Chrono, DecimalOps}.

(** The ten columns. *)
Record t : Type := mk {
  time : DateTime;
  asset_id : Z;
  price : Decimal;
  amount : Z;
  buyer_id : option Z;
  seller_id : option Z;
  aggressor_side : option Z;
  trade_id : option bytes;
  is_direct : bool;
  financial_volume : Decimal;
}.

#[global] Instance t_eq_dec : EqDecision t.
Proof. solve_decision. Defined.

Definition with_time (tm : DateTime) (r : t) : t :=
  mk tm (asset_id r) (price r) (amount r) (buyer_id r) (seller_id r) (aggressor_side r) (trade_id r)
    (is_direct r) (financial_volume r).

(** [StagedTrade::financial_volume]; the outer [None] is the panic. *)
Definition staged_financial_volume (x : StagedTrade.t) : option (option Decimal) :=
  match decimal_from_f64 (StagedTrade.price x) with
  | None => Some None
  | Some price =>
      let qty := decimal_from_i64 (StagedTrade.amount x) in
      product ← decimal_mul price qty;
      Some (Some (decimal_round_dp 2 product))
  end.

(** The closure of [push_values]. *)
Definition push_values (x : StagedTrade.t) : option t :=
  let price := default decimal_default (decimal_from_f64 (StagedTrade.price x)) in
  financial ← staged_financial_volume x;
  Some (mk (StagedTrade.time x) (StagedTrade.asset_id x) price (StagedTrade.amount x)
    (StagedTrade.buyer_id x) (StagedTrade.seller_id x) (StagedTrade.aggressor_side x)
    (StagedTrade.trade_id x) (StagedTrade.is_direct x) (default decimal_default financial)).

(** The unique index: rows with a trade id whose three key columns agree. *)
Definition conflicts (r r' : t) : Prop :=
  time r = time r' ∧ asset_id r = asset_id r' ∧ trade_id r = trade_id r' ∧ trade_id r ≠ None.
#[global] Instance conflicts_dec r r' : Decision (conflicts r r').
Proof. unfold conflicts. apply _. Defined.

(** [ON CONFLICT DO NOTHING], row by row. *)
Definition insert_row (rows : list t) (r : t) : list t :=
  if decide (Exists (conflicts r) rows) then rows else rows ++ [r].
Definition insert_rows (rows : list t) (batch : list t) : list t := foldl insert_row rows batch.
End row.
End TradeRow.

(** ** The table *)

(** How an insert can end: committed, refused, or with the connection lost
    before the answer. The source sees an error in the last two. *)
Inductive inserted : Type :=
  | Committed
  | Refused
  | Lost.

Class TradesTable `{Chrono, DecimalOps} : Type := {
  Database : Type;
  insert : list TradeRow.t → Database → inserted * Database;
  rows : Database → list TradeRow.t;
  (** What the columns' types keep of a row; [None] when a value is out of range. *)
  column : TradeRow.t → option TradeRow.t;
}.

(** Microseconds of the first instant of 2000, the zero of the database's time
    stamps. *)
Definition pg_epoch : Z := 946684800000000.
Definition bind_limit : nat := Z.to_nat 65535.

Class TradesTableSpec `{TradesTable} : Prop := {
  insert_atomic batch db out db' : insert batch db = (out, db') →
    (rows db' = rows db ∧ out ≠ Committed) ∨
    (out ≠ Refused ∧ ∃ kept, mapM column batch = Some kept ∧
       rows db' = TradeRow.insert_rows (rows db) kept);
  insert_limit batch db : (bind_limit < 10 * length batch)%nat → (insert batch db).1 = Refused;
  column_key r r' : column r = Some r' →
    TradeRow.asset_id r' = TradeRow.asset_id r ∧ TradeRow.trade_id r' = TradeRow.trade_id r;
  (** Time stamps are kept to the microsecond. *)
  column_micros r tm : pg_epoch ≤ timestamp_micros (TradeRow.time r) →
    timestamp_micros tm = timestamp_micros (TradeRow.time r) →
    column (TradeRow.with_time tm r) = column r;
}.

Section row_lemmas.
Context `{TradesTableSpec}.
Import TradeRow.

Lemma insert_row_keeps_elem q r rs : q ∈ rs → q ∈ insert_row rs r.
Proof. unfold insert_row. case_decide; [done|]. intros. apply elem_of_app. by left. Qed.

Lemma insert_rows_keeps_elem q batch rs : q ∈ rs → q ∈ insert_rows rs batch.
Proof.
  unfold insert_rows. revert rs. induction batch as [|r batch IH]; intros rs Hq; [done|].
  apply IH. by apply insert_row_keeps_elem.
Qed.

(** An inserted row with an id finds itself, or what it conflicted with. *)
Lemma insert_row_conflict r rs : trade_id r ≠ None → Exists (conflicts r) (insert_row rs r).
Proof.
  intros Hr. unfold insert_row. case_decide as Hc; [done|].
  apply Exists_app. right. by constructor.
Qed.

Lemma insert_rows_conflict batch r rs :
  r ∈ batch → trade_id r ≠ None → Exists (conflicts r) (insert_rows rs batch).
Proof.
  intros Hr Hid. apply list_elem_of_split in Hr as (l1 & l2 & ->).
  unfold insert_rows. rewrite foldl_app. cbn [foldl].
  pose proof (insert_row_conflict r (foldl insert_row rs l1) Hid) as Hc.
  apply Exists_exists in Hc as (q & Hq & Hc). apply Exists_exists. exists q. split; [|done].
  by apply (insert_rows_keeps_elem q l2).
Qed.

Lemma insert_row_None r rs : trade_id r = None → insert_row rs r = rs ++ [r].
Proof.
  intros Hr. unfold insert_row. rewrite decide_False; [done|].
  rewrite Exists_exists. intros (q & _ & (_ & _ & _ & Hc)). done.
Qed.

(** The rows a table takes again: those without a trade id. *)
Definition without_id (r : t) : Prop := trade_id r = None.
#[local] Instance without_id_dec r : Decision (without_id r).
Proof. unfold without_id. apply _. Defined.

(** Inserting rows that are in the table adds those without an id again. *)
Lemma insert_rows_again batch rs :
  (∀ r, r ∈ batch → trade_id r ≠ None → Exists (conflicts r) rs) →
  insert_rows rs batch = rs ++ filter without_id batch.
Proof.
  unfold insert_rows. revert rs. induction batch as [|r batch IH]; intros rs Hin; cbn [foldl].
  { by rewrite app_nil_r. }
  destruct (decide (without_id r)) as [Hr|Hr].
  - rewrite insert_row_None by done. rewrite IH.
    + by rewrite filter_cons_True, <-(assoc_L (++)).
    + intros q Hq Hid. apply Exists_app. left. apply Hin; [by constructor|done].
  - rewrite filter_cons_False by done.
    assert (insert_row rs r = rs) as ->.
    { unfold insert_row. rewrite decide_True; [done|]. apply Hin; [by constructor|done]. }
    apply IH. intros q Hq. apply Hin. by constructor.
Qed.
End row_lemmas.

Section values.
Context `{Chrono, DecimalOps}.

Lemma push_values_with_time tm (x : StagedTrade.t) :
  TradeRow.push_values (StagedTrade.with_time tm x) = TradeRow.with_time tm <$> TradeRow.push_values x.
Proof.
  unfold TradeRow.push_values. change (TradeRow.staged_financial_volume (StagedTrade.with_time tm x))
    with (TradeRow.staged_financial_volume x).
  by destruct (TradeRow.staged_financial_volume x).
Qed.

Lemma push_values_key (x : StagedTrade.t) r :
  TradeRow.push_values x = Some r →
  TradeRow.time r = StagedTrade.time x ∧ TradeRow.trade_id r = StagedTrade.trade_id x.
Proof.
  unfold TradeRow.push_values. destruct (TradeRow.staged_financial_volume x); [|done].
  by intros [= <-].
Qed.

(** A price that is no number is stored as a price and a volume of zero, and
    not reported. *)
Theorem non_finite_price_stored_as_zero `{!DecimalSpec} (x : StagedTrade.t) :
  f64_is_finite (StagedTrade.price x) = false →
  ∃ r, TradeRow.push_values x = Some r ∧
    TradeRow.price r = decimal_default ∧ TradeRow.financial_volume r = decimal_default.
Proof.
  intros Hx%decimal_from_f64_finite. unfold TradeRow.push_values, TradeRow.staged_financial_volume.
  rewrite Hx. by eexists.
Qed.
End values.

(** ** A concrete table, for the witnesses

    Decimals are a mantissa and a scale. A float keeps four places; a mantissa
    has 96 bits. *)

Section reference.

Definition decimal_fits (m : Z) : bool := Z.abs m <? 2 ^ 96.
Definition shift_float (m e : Z) : Z := if 0 <=? e then Z.shiftl m e else Z.quot m (2 ^ (- e)).
Definition decimal_reference : DecimalOps := {|
  Decimal := Z * Z;
  Decimal_eq_dec := _;
  decimal_default := (0, 0);
  decimal_from_f64 x :=
    match sf_of_f64 x with
    | S754_zero _ => Some (0, 0)
    | S754_finite s m e =>
        let m := shift_float (Z.pos m * 10000) e in
        if decimal_fits m then Some (if s then - m else m, 4) else None
    | _ => None
    end;
  decimal_from_i64 n := (n, 0);
  decimal_mul x y :=
    let m := x.1 * y.1 in if decimal_fits m then Some (m, x.2 + y.2) else None;
  decimal_round_dp n x :=
    if x.2 <=? Z.of_nat n then x else (Z.quot x.1 (10 ^ (x.2 - Z.of_nat n)), Z.of_nat n);
|}.

Lemma decimal_reference_spec : @DecimalSpec decimal_reference.
Proof. intros x. unfold f64_is_finite. cbn. by destruct (sf_of_f64 x). Qed.

#[local] Existing Instance chrono_reference.
#[local] Existing Instance decimal_reference.

(** Time stamps to the microsecond, prices that fit [numeric(18,4)]. *)
Definition keep_row (r : TradeRow.t) : option TradeRow.t :=
  if Z.abs (TradeRow.price r).1 <? 10 ^ 18 then
    Some (TradeRow.with_time (timestamp_micros (TradeRow.time r), 0) r)
  else None.

(** The rows, and how the coming inserts end. *)
Definition table_reference_insert (batch : list TradeRow.t) (d : list TradeRow.t * list inserted)
    : inserted * (list TradeRow.t * list inserted) :=
  let out := match d.2 with [] => Committed | out :: _ => out end in
  if decide (bind_limit < 10 * length batch)%nat then (Refused, (d.1, tail d.2))
  else
    match mapM keep_row batch, out with
    | Some kept, Committed => (Committed, (TradeRow.insert_rows d.1 kept, tail d.2))
    | Some kept, Lost => (Lost, (TradeRow.insert_rows d.1 kept, tail d.2))
    | _, _ => (Refused, (d.1, tail d.2))
    end.

Definition rows_reference : TradesTable := {|
  Database := list TradeRow.t * list inserted;
  insert := table_reference_insert;
  rows := fst;
  column := keep_row;
|}.

Lemma rows_reference_spec : @TradesTableSpec _ _ rows_reference.
Proof.
  split; cbn.
  - intros batch d out db' Hi. unfold table_reference_insert in Hi.
    case_decide; [injection Hi as <- <-; by left|].
    destruct (mapM keep_row batch) as [kept|] eqn:Hk; [|injection Hi as <- <-; by left].
    destruct (match d.2 with [] => Committed | out :: _ => out end); injection Hi as <- <-;
      [right|by left|right]; (split; [done|by eexists]).
  - intros batch d Hl. unfold table_reference_insert. by rewrite decide_True.
  - intros r r' Hk. unfold keep_row in Hk. destruct (_ <? _); [|done]. by injection Hk as <-.
  - intros r tm _ Ht. unfold keep_row. destruct r as [tm0 ? ? ? ? ? ? ? ? ?]. cbn in *.
    by rewrite Ht.
Qed.
End reference.
