(* ===== verification/DurableWriter.v ===== *)
(** * The trade writer on a failing disk ([persistence/src/trade_writer.rs])

    [TradeWriter] over the log of [DiskLog.v] and the rows of [TradeRow.v], so
    that every way in which [stage], [flush] and [recover_from_wal] can end is
    one: an error of a call on the log, an insert that is refused or whose
    answer is lost, the panic of the decimal product. [TradeWriter.v] is the
    writer without them ([faultless_writer]). *)

From S2P Require Import Prelude RustInt RustStr RustFloat Externs RustIo Wal DiskLog.
From S2P Require Import StagedTrade TradeRow.

(** What ends an operation early: an error it returns, or a panic. *)
Inductive failure : Type :=
  | Returned (e : PersistenceError.t)
  | Panicked.

Module DurableWriter.
Section writer.
Context `{TradesTable}.

Record t : Type := mk {
  wal : DiskWal.t;
  buffer : list StagedTrade.t;
  batch_size : nat;
  db : Database;
}.

Definition with_buffer (b : list StagedTrade.t) (w : t) : t := mk (wal w) b (batch_size w) (db w).

(** [connect]: [pool] is the database if it can be reached. *)
Definition connect (pool : option Database) (has_parent : bool) (disk : Disk.t) (batch_size : nat)
    : result PersistenceError.t t :=
  db ← ok_or pool PersistenceError.Database;
  wal ← DiskWal.open has_parent disk;
  Ok (mk wal [] batch_size db).

(** [from_parts], with a log that is open already. *)
Definition from_parts (pool : Database) (wal : DiskWal.t) (batch_size : nat) : t :=
  mk wal [] batch_size pool.

(** A call on the log with [?]. *)
Definition on_wal {A} (m : st DiskWal.t PersistenceError.t A) : st t failure A := λ w,
  let '(r, l) := catch Returned m (wal w) in (r, mk l (buffer w) (batch_size w) (db w)).

(** [std::mem::take] of the buffer. *)
Definition take_buffer : st t failure (list StagedTrade.t) := λ w,
  (Ok (buffer w), with_buffer [] w).

Definition execute (rows : list TradeRow.t) : st t failure () := λ w,
  let '(out, d) := insert rows (db w) in
  (match out with Committed => Ok () | _ => Err (Returned PersistenceError.Database) end,
   mk (wal w) (buffer w) (batch_size w) d).

Definition flush_drained (batch : list StagedTrade.t) : st t failure () :=
  if (length batch =? 0)%nat then mret ()
  else
    on_wal DiskWal.sync ;;
    rows ← lift (ok_or (mapM TradeRow.push_values batch) Panicked);
    execute rows ;;
    on_wal DiskWal.truncate.

Definition stage (trade : StagedTrade.t) : st t failure () :=
  _ ← on_wal (DiskWal.append (StagedTrade.encode_wal trade));
  modify (λ w, with_buffer (buffer w ++ [trade]) w) ;;
  full ← gets (λ w, batch_size w <=? length (buffer w))%nat;
  if (full : bool) then
    drained ← take_buffer;
    flush_drained drained
  else mret ().

Definition flush : st t failure nat :=
  drained ← take_buffer;
  let n := length drained in
  if (n =? 0)%nat then mret O
  else
    flush_drained drained ;;
    mret n.

Definition recover_from_wal : st t failure nat :=
  records ← on_wal DiskWal.replay;
  let recovered := omap StagedTrade.decode_wal records in
  modify (λ w, with_buffer (buffer w ++ recovered) w) ;;
  mret (length recovered).
End writer.
End DurableWriter.

(** ** How a flush can end *)

Section outcomes.
Context `{TradesTableSpec}.
Import DurableWriter.

(** The table after the insert of a batch. *)
Definition inserts (batch : list StagedTrade.t) (d d' : Database) : Prop :=
  ∃ rs kept, mapM TradeRow.push_values batch = Some rs ∧ mapM column rs = Some kept ∧
    rows d' = TradeRow.insert_rows (rows d) kept.

Lemma on_wal_run {A} (m : st DiskWal.t PersistenceError.t A) w r w' :
  on_wal m w = (r, w') →
  ∃ r1 l, m (wal w) = (r1, l) ∧ w' = mk l (buffer w) (batch_size w) (db w) ∧ r = map_err Returned r1.
Proof.
  unfold on_wal, catch. destruct (m (wal w)) as [r1 l]. intros [= <- <-]. by exists r1, l.
Qed.

Lemma flush_drained_nil w : flush_drained [] w = (Ok (), w).
Proof. done. Qed.

(** An insert stores all of its rows or changes nothing. *)
Lemma execute_run batch rs w r w' :
  mapM TradeRow.push_values batch = Some rs → execute rs w = (r, w') →
  ∃ d, w' = mk (wal w) (buffer w) (batch_size w) d ∧
    match r with
    | Ok _ => inserts batch (db w) d
    | Err e => e = Returned PersistenceError.Database ∧ (rows d = rows (db w) ∨ inserts batch (db w) d)
    end.
Proof.
  intros Hrs. unfold execute. destruct (insert rs (db w)) as [out d] eqn:Hi. intros [= <- <-].
  exists d. split; [done|]. apply insert_atomic in Hi as [[Hr Ho]|(Ho & kept & Hk & Hr)].
  - destruct out; [done|auto..].
  - assert (inserts batch (db w) d) by (by exists rs, kept). destruct out; auto.
Qed.

Definition flush_ends (batch : list StagedTrade.t) (w : t) (r : result failure ()) (w' : t) : Prop :=
  match r with
  | Ok _ => inserts batch (db w) (db w') ∧ DiskWal.total (wal w') = []
  | Err Panicked =>
      mapM TradeRow.push_values batch = None ∧ db w' = db w ∧ logs [] (wal w) (wal w')
  | Err (Returned PersistenceError.Database) =>
      logs [] (wal w) (wal w') ∧ (rows (db w') = rows (db w) ∨ inserts batch (db w) (db w'))
  | Err (Returned PersistenceError.Wal) =>
      (db w' = db w ∧ logs [] (wal w) (wal w')) ∨
      (inserts batch (db w) (db w') ∧ (logs [] (wal w) (wal w') ∨ DiskWal.total (wal w') = []))
  | Err (Returned _) => False
  end.

Lemma sync_error w e w' : DiskWal.sync w = (Err e, w') → e = PersistenceError.Wal.
Proof.
  unfold DiskWal.sync, mbind, st_bind.
  destruct (DiskWal.io BufWriter.flush w) as [[[]|e1] w1] eqn:Hs1.
  - intros (r1 & _ & _ & He)%io_run. destruct r1; [done|]. by injection He.
  - apply io_run in Hs1 as (r1 & _ & _ & He). destruct r1; [done|]. by intros [= <- _]; injection He.
Qed.

Lemma flush_drained_ends batch w r w' :
  batch ≠ [] → flush_drained batch w = (r, w') →
  buffer w' = buffer w ∧ batch_size w' = batch_size w ∧ flush_ends batch w r w'.
Proof.
  intros Hb. unfold flush_drained.
  destruct (Nat.eqb_spec (length batch) 0) as [Hl|_]; [by apply nil_length_inv in Hl|].
  unfold mbind, st_bind, lift.
  destruct (on_wal DiskWal.sync w) as [r1 w1] eqn:Hs1.
  apply on_wal_run in Hs1 as (r1' & l1 & Hs1 & -> & ->). pose proof (sync_logs _ _ _ Hs1) as [Hl1 _].
  destruct r1' as [[]|e1]; cbn [map_err].
  2: { apply sync_error in Hs1 as ->. intros [= <- <-]. cbn. auto. }
  destruct (mapM TradeRow.push_values batch) as [rs|] eqn:Hrs; cbn [ok_or].
  2: { intros [= <- <-]. cbn. auto. }
  destruct (execute rs _) as [r2 w2] eqn:Hs2.
  apply (execute_run batch) in Hs2 as (d & -> & Hd); [|done]. cbn [wal buffer batch_size db] in *.
  destruct r2 as [[]|e2].
  2: { destruct Hd as [-> Hd]. intros [= <- <-]. cbn. auto. }
  intros (r3 & l3 & Hs3 & -> & ->)%on_wal_run. cbn [wal buffer batch_size db map_err] in *.
  apply truncate_logs in Hs3 as [[-> Ht]|[-> Ht]]; cbn; split_and!; try done.
  right. split; [done|]. destruct Ht as [Ht|Ht]; [|by right]. left. by eapply logs_trans_nil.
Qed.

(** (C26) How a flush can end. Whatever the disk and the database do, a flush of
    a non-empty buffer empties it and ends in one of five ways. With [Ok] the
    whole batch is in the table and the log is empty. With a database error the
    log is as it was and the batch was inserted as a whole or not at all. With a
    log error either nothing was inserted and the log is as it was, or the batch
    was inserted and only the truncation failed. It panics only when the volume
    of a trade overflows its decimal, with neither changed. *)
Theorem flush_outcomes (w w' : t) (r : result failure nat) :
  buffer w ≠ [] → flush w = (r, w') →
  buffer w' = [] ∧ (∀ n, r = Ok n → n = length (buffer w)) ∧
  flush_ends (buffer w) w (_ ← r; Ok ()) w'.
Proof.
  intros Hb. unfold flush, take_buffer, mbind, st_bind at 1. cbn zeta.
  destruct (Nat.eqb_spec (length (buffer w)) 0) as [Hl|_]; [by apply nil_length_inv in Hl|].
  unfold st_bind. destruct (flush_drained (buffer w) _) as [r1 w1] eqn:Hf.
  apply flush_drained_ends in Hf as (Hb1 & _ & He); [|done]. cbn [with_buffer buffer] in Hb1.
  destruct r1 as [[]|e]; intros [= <- <-]; split_and!; try done. by intros n [= <-].
Qed.

(** The log after a flush that inserted nothing. *)
Lemma flush_ends_log batch w r w' :
  flush_ends batch w r w' → inserts batch (db w) (db w') ∨ logs [] (wal w) (wal w').
Proof.
  unfold flush_ends. destruct r as [u|[[]|]]; [intros [? _]; by left|intros [? _]; by right| |done..|].
  - intros [[_ ?]|[? _]]; auto.
  - intros (_ & _ & ?). by right.
Qed.

Lemma sync_keeps_known w r w' g :
  DiskWal.sync w = (r, w') → known_inv g w → known_inv (DiskOp.learn WalOp.Sync (DiskOp.is_ok r) g) w'.
Proof. intros Hs. apply (apply_known WalOp.Sync). cbn. by rewrite Hs. Qed.

(** With the database to blame, or a panic, the log was synced before. *)
Lemma flush_drained_synced batch w e w' g :
  batch ≠ [] → flush_drained batch w = (Err e, w') → e ≠ Returned PersistenceError.Wal →
  known_inv g (wal w) →
  known_inv (DiskOp.mk (DiskOp.records g) (DiskOp.torn g) (length (DiskOp.records g))) (wal w').
Proof.
  intros Hb. unfold flush_drained.
  destruct (Nat.eqb_spec (length batch) 0) as [Hl|_]; [by apply nil_length_inv in Hl|].
  unfold mbind, st_bind, lift. destruct (on_wal DiskWal.sync w) as [r1 w1] eqn:Hs1.
  apply on_wal_run in Hs1 as (r1' & l1 & Hs1 & -> & ->).
  destruct r1' as [[]|e1]; cbn [map_err].
  2: { apply sync_error in Hs1 as ->. by intros [= <- <-]. }
  intros Hf He Hg. pose proof (sync_keeps_known _ _ _ _ Hs1 Hg) as Hk. cbn in Hk.
  destruct (mapM TradeRow.push_values batch) as [rs|] eqn:Hrs; cbn [ok_or] in Hf.
  2: { by injection Hf as <- <-. }
  destruct (execute rs _) as [r2 w2] eqn:Hs2.
  apply (execute_run batch) in Hs2 as (d & -> & Hd); [|done]. cbn [wal buffer batch_size db] in *.
  destruct r2 as [[]|e2]; [|by injection Hf as <- <-].
  apply on_wal_run in Hf as (r3 & l3 & Hs3 & _ & Hr). cbn [wal] in Hs3.
  apply truncate_logs in Hs3 as [[-> _]|[-> _]]; [done|]. by injection Hr as ->.
Qed.

(** A failed flush leaves its batch in the log. When a flush that did not
    insert its batch returns, with whatever error, a replay of the log still
    gives exactly the records it held, those of the batch among them; and if the
    database was to blame, or the flush panicked, they are all there even after
    a crash, because the log was synced before the insert. *)
Theorem failed_flush_keeps_log (w w' : t) (r : result failure nat) (g : DiskOp.known) :
  known_inv g (wal w) → DiskOp.torn g = false → flush w = (r, w') →
  ¬ inserts (buffer w) (db w) (db w') →
  (∀ rs l, DiskWal.replay (wal w') = (Ok rs, l) → rs = DiskOp.records g) ∧
  (buffer w ≠ [] → r ≠ Err (Returned PersistenceError.Wal) →
   ∀ l rs l', DiskWal.crash (wal w') l → DiskWal.replay l = (Ok rs, l') →
     DiskOp.records g `prefix_of` rs).
Proof.
  intros Hg Hto Hf Hi. destruct (decide (buffer w = [])) as [Hb|Hb].
  { assert (wal w' = wal w) as ->; [|split; [|done]; intros rs l Hr; by eapply known_replay].
    unfold flush, take_buffer, mbind, st_bind in Hf. rewrite Hb in Hf. by injection Hf as _ <-. }
  destruct (flush_drained (buffer w) (with_buffer [] w)) as [r1 w1] eqn:Hd.
  assert (w1 = w' ∧ ∀ e, r1 = Err e → r = Err e) as [-> Hr].
  { unfold flush, take_buffer, mbind, st_bind in Hf. 
    destruct (Nat.eqb_spec (length (buffer w)) 0) as [Hl|_]; [by apply nil_length_inv in Hl|].
    rewrite Hd in Hf. destruct r1; injection Hf as <- <-; (split; [done|by intros ? [= ->]]). }
  pose proof (flush_drained_ends _ _ _ _ Hb Hd) as (_ & _ & He). split.
  - apply flush_ends_log in He as [?|Hl]; [done|]. intros rs l Hrs.
    pose proof (known_logs_nil _ _ _ Hl Hg) as Hg1. by apply (known_replay g (wal w') rs l).
  - intros _ Hne l rs l' Hc Hrs. destruct r1 as [u|e]; [by destruct He|].
    specialize (Hr e eq_refl) as ->.
    pose proof (flush_drained_synced _ _ _ _ g Hb Hd ltac:(by intros ->) Hg) as Hg1.
    pose proof (known_crash _ _ _ _ _ Hg1 Hc Hrs) as Hp. cbn in Hp. by rewrite take_ge in Hp.
Qed.
End outcomes.

(** ** No loss *)

Module WriterOp.
Section ops.
Context `{TradesTable}.

Inductive t : Type :=
  | Stage (x : StagedTrade.t)
  | Flush.

(** The writer after calls that all returned [Ok]. *)
Fixpoint run_ok (ops : list t) (w : DurableWriter.t) : option DurableWriter.t :=
  match ops with
  | [] => Some w
  | Stage x :: ops' =>
      match DurableWriter.stage x w with (Ok _, w') => run_ok ops' w' | _ => None end
  | Flush :: ops' =>
      match DurableWriter.flush w with (Ok _, w') => run_ok ops' w' | _ => None end
  end.
End ops.
End WriterOp.

Section no_loss.
Context `{TradesTableSpec}.
Import DurableWriter.

(** The row of a trade, as the columns keep it. *)
Definition row_of (x : StagedTrade.t) : option TradeRow.t := TradeRow.push_values x ≫= column.

(** The trade has its row, or a row that keeps it out by the unique index. *)
Definition in_table (d : Database) (x : StagedTrade.t) : Prop :=
  ∃ k, row_of x = Some k ∧ (k ∈ rows d ∨ Exists (TradeRow.conflicts k) (rows d)).

Lemma inserts_rows batch d d' :
  inserts batch d d' ↔ ∃ kept, mapM row_of batch = Some kept ∧ rows d' = TradeRow.insert_rows (rows d) kept.
Proof.
  unfold inserts, row_of. split.
  - intros (rs & kept & Hr & Hk & He). exists kept. split; [|done]. clear He.
    apply mapM_Some in Hr, Hk. apply mapM_Some. revert kept Hk.
    induction Hr; intros kept Hk; inversion Hk; subst; constructor; [|by auto].
    by eapply bind_Some; eauto.
  - intros (kept & Hk & He). apply mapM_Some in Hk.
    assert (∃ rs, mapM TradeRow.push_values batch = Some rs ∧ mapM column rs = Some kept) as (rs & ? & ?);
      [|by exists rs, kept].
    clear He. induction Hk as [|x k batch kept Hx _ (rs & Hr & Hc)]; [by exists []|].
    apply bind_Some in Hx as (r & Hp & Hx). exists (r :: rs). cbn. rewrite Hp, Hr, Hx. cbn.
    by rewrite Hc.
Qed.

Lemma insert_row_has_row (k : TradeRow.t) rs :
  k ∈ TradeRow.insert_row rs k ∨ Exists (TradeRow.conflicts k) (TradeRow.insert_row rs k).
Proof.
  unfold TradeRow.insert_row. case_decide; [by right|]. left. apply elem_of_app. right. by constructor.
Qed.

Lemma has_row_keeps k batch rs :
  k ∈ rs ∨ Exists (TradeRow.conflicts k) rs →
  k ∈ TradeRow.insert_rows rs batch ∨ Exists (TradeRow.conflicts k) (TradeRow.insert_rows rs batch).
Proof.
  intros [Hk|Hk]; [left; by apply insert_rows_keeps_elem|right].
  apply Exists_exists in Hk as (q & Hq & Hc). apply Exists_exists. exists q.
  split; [by apply insert_rows_keeps_elem|done].
Qed.

Lemma inserts_keeps batch d d' x : inserts batch d d' → in_table d x → in_table d' x.
Proof.
  intros (kept & _ & Hr)%inserts_rows (k & Hk & Hin). exists k. split; [done|].
  rewrite Hr. by apply has_row_keeps.
Qed.

Lemma inserts_in_table batch d d' x : inserts batch d d' → x ∈ batch → in_table d' x.
Proof.
  intros (kept & Hk & Hr)%inserts_rows Hx. apply mapM_Some in Hk.
  apply list_elem_of_lookup in Hx as [i Hi].
  destruct (Forall2_lookup_l _ _ _ _ _ Hk Hi) as (k & Hki & Hx).
  exists k. split; [done|]. rewrite Hr.
  apply list_elem_of_split_length in Hki as (l1 & l2 & -> & _).
  unfold TradeRow.insert_rows. rewrite foldl_app. cbn [foldl].
  apply (has_row_keeps k l2), insert_row_has_row.
Qed.

(** The log holds exactly the records of the buffered trades. *)
Definition in_step (w : DurableWriter.t) : Prop :=
  ∃ g, known_inv g (wal w) ∧ DiskOp.torn g = false ∧
    DiskOp.records g = StagedTrade.encode_wal <$> buffer w.

(** A trade in the table, or both in memory and in the log. *)
Definition held (w : DurableWriter.t) (x : StagedTrade.t) : Prop :=
  in_table (db w) x ∨
  (x ∈ buffer w ∧ ∀ rs l, DiskWal.replay (wal w) = (Ok rs, l) → StagedTrade.encode_wal x ∈ rs).

Lemma in_step_held w x : in_step w → x ∈ buffer w → held w x.
Proof.
  intros (g & Hg & Ht & Hr) Hx. right. split; [done|]. intros rs l Hl.
  destruct (known_replay _ _ _ _ Hg Hl) as [_ ->]; [|done]. rewrite Hr. by apply list_elem_of_fmap_2.
Qed.

Lemma empty_known l : DiskWal.total l = [] → known_inv DiskOp.nothing l.
Proof.
  intros Ht. constructor; [done|exists []; by rewrite Ht| |done]. intros b _. apply prefix_nil.
Qed.

Lemma empty_in_step w : DiskWal.total (wal w) = [] → buffer w = [] → in_step w.
Proof. intros Ht Hb. exists DiskOp.nothing. rewrite Hb. split_and!; [by apply empty_known|done..]. Qed.

Lemma flush_drained_in_step batch w w' :
  batch ≠ [] → buffer w = [] → flush_drained batch w = (Ok (), w') →
  in_step w' ∧ (∀ x, x ∈ batch → in_table (db w') x) ∧ (∀ x, in_table (db w) x → in_table (db w') x).
Proof.
  intros Hb Hw (Hb' & _ & Hi & Ht)%flush_drained_ends; [|done]. split_and!.
  - apply empty_in_step; [done|congruence].
  - intros x. by eapply inserts_in_table.
  - intros x. by eapply inserts_keeps.
Qed.

Lemma stage_durable_step x w w' :
  in_step w → stage x w = (Ok (), w') →
  in_step w' ∧ held w' x ∧ ∀ y, held w y → held w' y.
Proof.
  intros (g & Hg & Hto & Hr) Hst. unfold stage, mbind, st_bind, modify, gets in Hst.
  destruct (on_wal (DiskWal.append (StagedTrade.encode_wal x)) w) as [r1 w1] eqn:Ha.
  apply on_wal_run in Ha as (r1' & l1 & Ha & -> & ->). destruct r1' as [off|e]; [|done].
  cbn [map_err wal buffer batch_size db with_buffer] in Hst.
  assert (DiskOp.apply (WalOp.Append (StagedTrade.encode_wal x)) (wal w) = (true, l1)) as Hap
    by (cbn [DiskOp.apply]; by rewrite Ha).
  pose proof (apply_known _ _ _ _ _ Hap Hg) as Hg1. cbn [DiskOp.learn] in Hg1. rewrite Hto in Hg1.
  set (buf := buffer w ++ [x]) in *.
  assert (x ∈ buf) as Hx by (apply elem_of_app; right; by constructor).
  assert (∀ y, y ∈ buffer w → y ∈ buf) as Hy by (intros y ?; apply elem_of_app; by left).
  destruct (batch_size w <=? length buf)%nat.
  - unfold take_buffer in Hst. cbn [with_buffer wal buffer batch_size db] in Hst.
    apply flush_drained_in_step in Hst as (Hs & Hin & Hk); [|by destruct (buffer w)|done].
    split; [done|]. split; [left; by apply Hin|]. intros y [Hd|[Hb _]]; left; [by apply Hk|by apply Hin, Hy].
  - injection Hst as <-. set (w' := mk l1 buf (batch_size w) (db w)).
    assert (in_step w') as Hs.
    { eexists. split; [exact Hg1|]. split; [done|]. cbn [DiskOp.records]. rewrite Hr. symmetry. apply (fmap_app _ (buffer w) [x]). }
    split; [done|]. split; [by apply in_step_held|].
    intros y [Hd|[Hb _]]; [by left|]. by apply in_step_held, Hy.
Qed.

(** A flush that returns [Ok] stores the buffer and removes nothing. *)
Lemma flush_stores n w w' x :
  flush w = (Ok n, w') → in_table (db w) x ∨ x ∈ buffer w → in_table (db w') x.
Proof.
  unfold flush, take_buffer, mbind, st_bind. destruct (Nat.eqb_spec (length (buffer w)) 0) as [Hl|Hl].
  - apply nil_length_inv in Hl. intros [= _ <-] [?|Hb]; [done|]. rewrite Hl in Hb. by apply elem_of_nil in Hb.
  - destruct (flush_drained (buffer w) _) as [[[]|e] w1] eqn:Hd; [|done]. intros [= _ <-].
    apply flush_drained_in_step in Hd as (_ & Hin & Hk); [|by intros E; rewrite E in Hl|done].
    intros [?|?]; auto.
Qed.

Lemma flush_durable_step n w w' :
  in_step w → flush w = (Ok n, w') → in_step w' ∧ ∀ x, held w x → in_table (db w') x.
Proof.
  intros Hs Hf. unfold flush, take_buffer, mbind, st_bind in Hf.
  destruct (Nat.eqb_spec (length (buffer w)) 0) as [Hl|Hl].
  - apply nil_length_inv in Hl. injection Hf as <- <-. split.
    + destruct Hs as (g & Hg). exists g. by rewrite Hl in Hg.
    + intros x [Hd|[Hb _]]; [done|]. rewrite Hl in Hb. by apply elem_of_nil in Hb.
  - destruct (flush_drained (buffer w) _) as [[[]|e] w1] eqn:Hd; [|done]. injection Hf as <- <-.
    apply flush_drained_in_step in Hd as (Hs1 & Hin & Hk); [|by intros E; rewrite E in Hl|done].
    split; [done|]. intros x [?|[Hb _]]; [by apply Hk|by apply Hin].
Qed.

Lemma run_ok_held ops w w' :
  in_step w → WriterOp.run_ok ops w = Some w' →
  in_step w' ∧ (∀ x, held w x → held w' x) ∧ ∀ x, WriterOp.Stage x ∈ ops → held w' x.
Proof.
  revert w. induction ops as [|op ops IH]; intros w Hs; cbn [WriterOp.run_ok].
  { intros [= <-]. split_and!; [done|done|]. intros x Hx. by apply elem_of_nil in Hx. }
  assert (∀ w1, in_step w1 → (∀ x, held w x → held w1 x) →
    (∀ x, op = WriterOp.Stage x → held w1 x) → WriterOp.run_ok ops w1 = Some w' →
    in_step w' ∧ (∀ x, held w x → held w' x) ∧ ∀ x, WriterOp.Stage x ∈ op :: ops → held w' x) as Hnext.
  { intros w1 Hs1 Hk Hop Hrun. destruct (IH w1 Hs1 Hrun) as (Hs' & Hkeep & Hall).
    split_and!; [done|by auto|]. intros x [Hx|Hx]%elem_of_cons; [|by apply Hall].
    apply Hkeep, Hop. by symmetry. }
  destruct op as [x|].
  - destruct (stage x w) as [[[]|e] w1] eqn:Hst; [|done].
    apply stage_durable_step in Hst as (Hs1 & Hx & Hk); [|done]. apply Hnext; [done..|]. by intros ? [= ->].
  - destruct (flush w) as [[n|e] w1] eqn:Hf; [|done].
    apply flush_durable_step in Hf as (Hs1 & Hk); [|done].
    apply Hnext; [done| |done]. intros x Hx. left. by apply Hk.
Qed.

(** (C13) No acknowledged trade is lost while calls are made one at a time. On any
    disk and any database, whatever calls of [stage] and [flush] are made one
    after the other on a writer with a fresh log: if all of them return [Ok],
    every staged trade has its row in the table, or a row there that the unique
    index takes for the same trade, or is both buffered in memory and in what the
    log replays; and after the next flush that returns [Ok] all of them have such
    a row. For calls that overlap it does not hold ([ConcurrentWriter.v]). *)
Theorem no_acknowledged_loss (ops : list WriterOp.t) (script : list Writer.outcome) (n : nat)
    (d : Database) (w : DurableWriter.t) (x : StagedTrade.t) :
  WriterOp.run_ok ops (from_parts d (DiskWal.fresh script) n) = Some w → WriterOp.Stage x ∈ ops →
  (in_table (db w) x ∨
   (x ∈ buffer w ∧ ∀ rs l, DiskWal.replay (wal w) = (Ok rs, l) → StagedTrade.encode_wal x ∈ rs)) ∧
  ∀ m w', flush w = (Ok m, w') → in_table (db w') x.
Proof.
  intros Hr Hx. assert (in_step (from_parts d (DiskWal.fresh script) n)) as Hs0 by (by apply empty_in_step).
  destruct (run_ok_held ops _ _ Hs0 Hr) as (Hs & _ & Hall).
  split; [by apply Hall|]. intros m w' Hf. apply flush_durable_step in Hf as (_ & Hk); [|done].
  by apply Hk, Hall.
Qed.
End no_loss.

(** ** Witnesses *)

Section witnesses.
#[local] Existing Instance chrono_reference.
#[local] Existing Instance decimal_reference.
#[local] Existing Instance rows_reference.
#[local] Existing Instance rows_reference_spec.
Import DurableWriter.

(** No rows, and how the coming inserts end. *)
Definition empty_rows (ends : list inserted) : Database := ([], ends).

(** A writer with the sample trade staged, and what is to come. *)
Definition staged (script : list Writer.outcome) (ends : list inserted) : DurableWriter.t :=
  (stage StagedTrade.sample (from_parts (empty_rows ends) (DiskWal.fresh script) 5)).2.

(** The sync goes through and the truncation fails. *)
Definition truncation_fails : list Writer.outcome :=
  [Writer.Accept; Writer.Accept; Writer.Fail 0 IoError.Other].

Lemma flush_outcomes_witness :
  let w := staged truncation_fails [] in
  (flush w).1 = Err (Returned PersistenceError.Wal) ∧ buffer (flush w).2 = [] ∧
  inserts [StagedTrade.sample] (db w) (db (flush w).2).
Proof.
  intros w. assert ((flush w).1 = Err (Returned PersistenceError.Wal)) as Hr by (vm_compute; reflexivity).
  destruct (flush w) as [r w'] eqn:Hf. cbn [fst snd] in *. subst r.
  destruct (flush_outcomes w w' _ ltac:(discriminate) Hf) as (Hb & _ & He).
  split; [reflexivity|]. split; [exact Hb|]. cbn in He. destruct He as [[Hd _]|[Hi _]]; [|exact Hi].
  exfalso. assert (length (rows (db (flush w).2)) = 1%nat) as Hrow by (vm_compute; reflexivity).
  rewrite Hf in Hrow. cbn [snd] in Hrow. rewrite Hd in Hrow. discriminate Hrow.
Defined.

(** The insert is refused. *)
Lemma failed_flush_keeps_log_witness :
  let w' := (flush (staged [] [Refused])).2 in
  (flush (staged [] [Refused])).1 = Err (Returned PersistenceError.Database) ∧
  ∀ l rs l', DiskWal.crash (wal w') l → DiskWal.replay l = (Ok rs, l') →
    [StagedTrade.encode_wal StagedTrade.sample] `prefix_of` rs.
Proof.
  intros w'. assert ((flush (staged [] [Refused])).1 = Err (Returned PersistenceError.Database)) as Hr
    by (vm_compute; reflexivity).
  split; [exact Hr|].
  destruct (failed_flush_keeps_log (staged [] [Refused]) w' (Err (Returned PersistenceError.Database))
    (DiskOp.mk [StagedTrade.encode_wal StagedTrade.sample] false 0)) as [_ Hc].
  - apply (apply_known (WalOp.Append (StagedTrade.encode_wal StagedTrade.sample)) DiskOp.nothing
      (DiskWal.fresh []) true); [vm_compute; reflexivity|apply fresh_known].
  - reflexivity.
  - unfold w'. destruct (flush (staged [] [Refused])) as [r w1]. cbn in Hr. rewrite Hr. reflexivity.
  - intros Hi. apply (inserts_in_table _ _ _ StagedTrade.sample) in Hi as (k & _ & Hk);
      [|apply list_elem_of_here].
    assert (rows (db w') = []) as Hrow by (apply nil_length_inv; vm_compute; reflexivity). rewrite Hrow in Hk.
    destruct Hk as [Hk|Hk]; [apply elem_of_nil in Hk|apply Exists_nil in Hk]; exact Hk.
  - apply Hc; discriminate.
Defined.

Lemma no_acknowledged_loss_witness :
  ∃ w, WriterOp.run_ok [WriterOp.Stage StagedTrade.sample; WriterOp.Flush]
         (from_parts (empty_rows []) (DiskWal.fresh []) 5) = Some w ∧
    (in_table (db w) StagedTrade.sample ∨ buffer w ≠ []).
Proof.
  destruct (WriterOp.run_ok [WriterOp.Stage StagedTrade.sample; WriterOp.Flush]
    (from_parts (empty_rows []) (DiskWal.fresh []) 5)) as [w|] eqn:Hr.
  2: { apply (f_equal (from_option (λ _, true) false)) in Hr. vm_compute in Hr. discriminate Hr. }
  exists w. split; [reflexivity|].
  destruct (no_acknowledged_loss _ _ _ _ _ StagedTrade.sample Hr) as [[Hx|[Hx _]] _].
  - apply list_elem_of_here.
  - left. exact Hx.
  - right. intros E. rewrite E in Hx. apply elem_of_nil in Hx. exact Hx.
Defined.
End witnesses.
