(* ===== verification/Recovery.v ===== *)
(** * Restarting the trade writer ([persistence/src/trade_writer.rs], [recover_from_wal])

    What a new writer makes of a log that an earlier one left: of records whose
    trades are already in the table, and of more records than one statement can
    hold. *)

From S2P Require Import Prelude RustInt RustStr RustFloat Externs RustIo Wal DiskLog.
From S2P Require Import StagedTrade TradeRow DurableWriter.

Section recovery.
Context `{TradesTableSpec, !ChronoSpec}.
Import DurableWriter.

(** A trade of the database's era. *)
Definition since_2000 (x : StagedTrade.t) : Prop :=
  pg_epoch ≤ timestamp_micros (StagedTrade.time x).

(** A log whose records are those of the trades [xs]. *)
Definition holds_trades (xs : list StagedTrade.t) (l : DiskWal.t) : Prop :=
  (DiskWal.replay l).1 = Ok (StagedTrade.encode_wal <$> xs).

(** Decoded trades have the rows of the encoded ones. *)
Lemma row_of_with_time tm x :
  since_2000 x → timestamp_micros tm = timestamp_micros (StagedTrade.time x) →
  row_of (StagedTrade.with_time tm x) = row_of x.
Proof.
  intros Hx Ht. unfold row_of. rewrite push_values_with_time.
  destruct (TradeRow.push_values x) as [r|] eqn:Hr; [|done]. cbn.
  apply push_values_key in Hr as [Hr _]. apply column_micros; by rewrite Hr.
Qed.

Lemma row_of_decoded xs :
  Forall StagedTrade.well_typed xs → Forall since_2000 xs →
  mapM row_of (omap StagedTrade.decode_wal (StagedTrade.encode_wal <$> xs)) = mapM row_of xs.
Proof.
  intros Hwt Hera. apply StagedTrade.decode_encoded in Hwt.
  induction Hwt as [|x y xs ys (tm & -> & Ht) _ IH]; [done|].
  apply Forall_cons in Hera as [Hx Hera]. cbn. by rewrite row_of_with_time, IH.
Qed.

(** Recovery reads the log and writes nothing to it. *)
Lemma recover_run l d n m w :
  recover_from_wal (from_parts d l n) = (Ok m, w) →
  ∃ rs, (DiskWal.replay l).1 = Ok rs ∧ buffer w = omap StagedTrade.decode_wal rs ∧
    m = length (buffer w) ∧ db w = d ∧ logs [] l (wal w).
Proof.
  unfold recover_from_wal, mbind, st_bind.
  destruct (on_wal DiskWal.replay (from_parts d l n)) as [r w1] eqn:Hr.
  apply on_wal_run in Hr as (r1 & l1 & Hr & -> & ->). cbn [from_parts wal buffer batch_size db] in *.
  destruct r1 as [rs|e]; [|done]. intros [= <- <-]. exists rs.
  apply replay_logs in Hr as Hl. destruct Hl as [Hl _]. by rewrite Hr.
Qed.

Lemma recover_encoded xs l d n m w :
  Forall StagedTrade.well_typed xs → holds_trades xs l →
  recover_from_wal (from_parts d l n) = (Ok m, w) →
  buffer w = omap StagedTrade.decode_wal (StagedTrade.encode_wal <$> xs) ∧
  m = length xs ∧ db w = d ∧ logs [] l (wal w).
Proof.
  intros Hwt Hl (rs & Hr & Hb & -> & Hd & Hlog)%recover_run. unfold holds_trades in Hl. rewrite Hl in Hr. injection Hr as <-.
  split_and!; [done| |done|done]. rewrite Hb.
  symmetry. eapply Forall2_length. by apply StagedTrade.decode_encoded.
Qed.

(** Reprocessing adds the trades without an id again. After a restart on a
    log whose trades are in the table already, because the truncation failed or
    the answer to the insert was lost, recovering and flushing leaves the table
    as it was plus one more row for every trade of the log that has no trade
    id: the unique index keeps out all others and, since it takes NULLs for
    distinct, none of these. *)
Theorem reprocessing_adds_trades_without_id (xs : list StagedTrade.t) (kept : list TradeRow.t)
    (d d1 : Database) (l : DiskWal.t) (n m m' : nat) (w2 w3 : DurableWriter.t) :
  Forall StagedTrade.well_typed xs → Forall since_2000 xs →
  mapM row_of xs = Some kept → rows d1 = TradeRow.insert_rows (rows d) kept →
  holds_trades xs l →
  recover_from_wal (from_parts d1 l n) = (Ok m, w2) → flush w2 = (Ok m', w3) →
  rows (db w3) = rows d1 ++ filter without_id kept.
Proof.
  intros Hwt Hera Hk Hd Hl Hrec Hf.
  destruct (recover_encoded xs l d1 n m w2 Hwt Hl Hrec) as (Hb & -> & Hd2 & _).
  assert (rows (db w3) = TradeRow.insert_rows (rows d1) kept) as ->.
  { rewrite <-(row_of_decoded xs), <-Hb in Hk by done.
    unfold flush, take_buffer, mbind, st_bind in Hf.
    destruct (Nat.eqb_spec (length (buffer w2)) 0) as [Hz|Hz].
    - apply nil_length_inv in Hz. rewrite Hz in Hk. injection Hk as <-. injection Hf as _ <-. by cbn; rewrite Hd2.
    - destruct (flush_drained (buffer w2) _) as [[[]|e] w4] eqn:Hdr; [|done]. injection Hf as _ <-.
      apply flush_drained_ends in Hdr as (_ & _ & Hi & _); [|by intros E; rewrite E in Hz].
      apply inserts_rows in Hi as (kept' & Hk' & Hi). cbn [with_buffer db] in Hi.
      by rewrite Hk in Hk'; injection Hk' as <-; rewrite Hi, Hd2. }
  apply insert_rows_again. intros r Hr Hid. rewrite Hd. by apply insert_rows_conflict.
Qed.

(** A batch of more rows than a statement takes. *)
Lemma flush_drained_oversized batch w r w' :
  (bind_limit < 10 * length batch)%nat → flush_drained batch w = (r, w') →
  (∃ e, r = Err e) ∧ buffer w' = buffer w ∧ rows (db w') = rows (db w) ∧ logs [] (wal w) (wal w').
Proof.
  intros Hl. unfold flush_drained.
  destruct (Nat.eqb_spec (length batch) 0) as [Hz|_]; [rewrite Hz in Hl; cbn in Hl; lia|].
  unfold mbind, st_bind, lift. destruct (on_wal DiskWal.sync w) as [r1 w1] eqn:Hs1.
  apply on_wal_run in Hs1 as (r1' & l1 & Hs1 & -> & ->). apply sync_logs in Hs1 as [Hl1 _].
  destruct r1' as [[]|e1]; cbn [map_err]; [|by intros [= <- <-]; eauto].
  destruct (mapM TradeRow.push_values batch) as [rs|] eqn:Hrs; cbn [ok_or]; [|by intros [= <- <-]; eauto].
  apply mapM_Some, Forall2_length in Hrs. rewrite Hrs in Hl.
  unfold execute. cbn [db]. pose proof (insert_limit rs (db w) Hl) as Ho.
  destruct (insert rs (db w)) as [out d] eqn:Hi. cbn in Ho. subst out.
  apply insert_atomic in Hi as [[Hr _]|[? _]]; [|done]. intros [= <- <-]. cbn. eauto.
Qed.

(** (C39) A long log is never recovered. A statement has at most 65535 parameters
    and the whole recovered buffer is one statement with ten to a row: when the
    log holds more than 6553 trades, the flush after a restart fails whatever
    the disk does, the table is unchanged, the trades are gone from memory and
    the log is as it was, so that the next restart fails in the same way. *)
Theorem long_log_never_recovered (xs : list StagedTrade.t) (d : Database) (l : DiskWal.t)
    (n m : nat) (w2 w3 : DurableWriter.t) (r : result failure nat) :
  Forall StagedTrade.well_typed xs → 6553 < Z.of_nat (length xs) →
  holds_trades xs l →
  recover_from_wal (from_parts d l n) = (Ok m, w2) → flush w2 = (r, w3) →
  m = length xs ∧ (∃ e, r = Err e) ∧ rows (db w3) = rows d ∧ buffer w3 = [] ∧
  DiskWal.total (wal w3) = DiskWal.total l.
Proof.
  intros Hwt Hlen Hl Hrec Hf.
  destruct (recover_encoded xs l d n m w2 Hwt Hl Hrec) as (Hb & -> & Hd & Hlog).
  assert (length (buffer w2) = length xs) as Hlb.
  { rewrite Hb. symmetry. eapply Forall2_length. by apply StagedTrade.decode_encoded. }
  unfold flush, take_buffer, mbind, st_bind in Hf.
  destruct (Nat.eqb_spec (length (buffer w2)) 0) as [Hz|_]; [lia|].
  destruct (flush_drained (buffer w2) (with_buffer [] w2)) as [r1 w4] eqn:Hdr.
  apply flush_drained_oversized in Hdr as ((e & ->) & Hb4 & Hr4 & Hl4).
  2: { rewrite Hlb. unfold bind_limit. lia. }
  injection Hf as <- <-. cbn [with_buffer buffer db wal] in *.
  split_and!; [done|by exists e|by rewrite Hr4, Hd|done|].
  apply (logs_trans_nil _ _ _ _ Hlog) in Hl4. apply logs_total in Hl4. by rewrite Hl4, app_nil_r.
Qed.
End recovery.

(** ** Witnesses *)

Section witnesses.
#[local] Existing Instance chrono_reference.
#[local] Existing Instance chrono_reference_spec.
#[local] Existing Instance decimal_reference.
#[local] Existing Instance rows_reference.
#[local] Existing Instance rows_reference_spec.
Import DurableWriter.

(** The sample trade without its id. *)
Definition anonymous : StagedTrade.t :=
  StagedTrade.mk (1700000000000000, 0) 42 0x403A800000000000 100 (Some (-3)) None (Some 1) None true.

Lemma anonymous_well_typed : StagedTrade.well_typed anonymous.
Proof. destruct StagedTrade.sample_well_typed. constructor; (assumption || discriminate). Qed.

(** A log with the given trades, on a disk without faults. *)
Definition log_of (xs : list StagedTrade.t) : DiskWal.t :=
  DiskWal.mk (BufWriter.mk (Disk.mk (encode_all (StagedTrade.encode_wal <$> xs)) [] []) []) 0.

Lemma log_of_replay xs :
  Forall fits (StagedTrade.encode_wal <$> xs) →
  DiskWal.replay (log_of xs) = (Ok (StagedTrade.encode_wal <$> xs), log_of xs).
Proof.
  intros Hf. set (b := encode_all (StagedTrade.encode_wal <$> xs)).
  transitivity (Ok (E := PersistenceError.t) (TradeWal.replay_bytes b), log_of xs); [reflexivity|].
  do 2 f_equal. unfold b. rewrite <-(app_nil_r (encode_all _)). apply replay_bytes_app; [done|].
  intros f. apply replay_torn, torn_nil.
Qed.

Definition once : @Database _ _ rows_reference :=
  (TradeRow.insert_rows [] (default [] (mapM row_of [StagedTrade.sample; anonymous])), []).

Lemma reprocessing_adds_trades_without_id_witness :
  let w2 := (recover_from_wal (from_parts once (log_of [StagedTrade.sample; anonymous]) 5)).2 in
  length (rows once) = 2%nat ∧ length (rows (db (flush w2).2)) = 3%nat.
Proof.
  intros w2. split; [vm_compute; reflexivity|].
  assert ((recover_from_wal (from_parts once (log_of [StagedTrade.sample; anonymous]) 5)).1 = Ok 2%nat) as Hr
    by (vm_compute; reflexivity).
  assert ((flush w2).1 = Ok 2%nat) as Hf by (vm_compute; reflexivity).
  unfold w2 in *. destruct (recover_from_wal _) as [r w] eqn:Hrec. cbn [fst snd] in *. subst r.
  destruct (flush w) as [r w3] eqn:Hfl. cbn [fst snd] in *. subst r.
  rewrite (reprocessing_adds_trades_without_id [StagedTrade.sample; anonymous]
    (default [] (mapM row_of [StagedTrade.sample; anonymous])) (empty_rows []) once
    (log_of [StagedTrade.sample; anonymous]) 5 2 2 w w3).
  - vm_compute. reflexivity.
  - repeat (apply Forall_cons; split; [exact StagedTrade.sample_well_typed || exact anonymous_well_typed|]).
    apply Forall_nil. exact I.
  - repeat (apply Forall_cons; split; [vm_compute; discriminate|]). apply Forall_nil. exact I.
  - reflexivity.
  - reflexivity.
  - unfold holds_trades. rewrite log_of_replay; [reflexivity|].
    repeat (apply Forall_cons; split; [vm_compute; discriminate|]). apply Forall_nil. exact I.
  - exact Hrec.
  - exact Hfl.
Defined.

(** A log one trade longer than a statement takes. *)
Definition long_log : list StagedTrade.t := replicate (Z.to_nat 6554) StagedTrade.sample.

Lemma long_log_never_recovered_witness :
  ∃ m w2 r w3, recover_from_wal (from_parts (empty_rows []) (log_of long_log) 5000) = (Ok m, w2) ∧
    flush w2 = (r, w3) ∧ (∃ e, r = Err e) ∧ rows (db w3) = [] ∧ buffer w3 = [].
Proof.
  assert (DiskWal.replay (log_of long_log) = (Ok (StagedTrade.encode_wal <$> long_log), log_of long_log))
    as Hl.
  { apply log_of_replay. unfold long_log. rewrite fmap_replicate.
    apply Forall_replicate. vm_compute. discriminate. }
  destruct (recover_from_wal (from_parts (empty_rows []) (log_of long_log) 5000)) as [rm w2] eqn:Hrec.
  destruct rm as [m|e].
  2: { exfalso. unfold recover_from_wal, mbind, st_bind, on_wal, catch in Hrec.
       cbn [from_parts wal buffer] in Hrec. rewrite Hl in Hrec. discriminate Hrec. }
  destruct (flush w2) as [r w3] eqn:Hf.
  exists m, w2, r, w3. split; [reflexivity|]. split; [exact Hf|].
  destruct (long_log_never_recovered long_log (empty_rows []) (log_of long_log) 5000 m w2 w3 r)
    as (_ & He & Hrow & Hb & _).
  - apply Forall_replicate. exact StagedTrade.sample_well_typed.
  - unfold long_log. rewrite length_replicate, Z2Nat.id; [reflexivity|discriminate].
  - unfold holds_trades. rewrite Hl. reflexivity.
  - exact Hrec.
  - exact Hf.
  - split; [exact He|]. split; [exact Hrow|exact Hb].
Defined.
End witnesses.
