(* ===== verification/WriterRefinement.v ===== *)
(** * The two trade writers

    The rows of [TradeRow.v] implement the table that [TradeWriter.v] is proved
    against, and on a disk without faults the writer of [DurableWriter.v] is
    that writer: the theorems of [TradeWriter.v] hold of it there. *)

From S2P Require Import Prelude RustInt RustStr RustFloat Externs RustIo Wal DiskLog.
From S2P Require Import StagedTrade TradeWriter TradeRow DurableWriter.

Section refinement.
Context `{TradesTableSpec}.

(** ** The interface, from the rows *)

Definition one_row (x y : StagedTrade.t) : Prop :=
  ∃ kx ky, row_of x = Some kx ∧ row_of y = Some ky ∧ (kx = ky ∨ TradeRow.conflicts ky kx).

Definition execute_rows (batch : list StagedTrade.t) (d : Database) : bool * Database :=
  match mapM TradeRow.push_values batch with
  | Some rs =>
      let '(out, d) := insert rs d in (match out with Committed => true | _ => false end, d)
  | None => (false, d)
  end.

#[local] Instance table_of_rows : TradeTable := {|
  Db := Database;
  execute := execute_rows;
  stored := in_table;
  same_row := one_row;
|}.

Lemma execute_rows_run batch d ok d' :
  execute_rows batch d = (ok, d') → inserts batch d d' ∨ (ok = false ∧ rows d' = rows d).
Proof.
  unfold execute_rows. destruct (mapM TradeRow.push_values batch) as [rs|] eqn:Hrs.
  2: { intros [= <- <-]. by right. }
  destruct (insert rs d) as [out d1] eqn:Hi. intros [= <- <-].
  apply insert_atomic in Hi as [[Hr Ho]|(Ho & kept & Hk & Hr)].
  - right. by destruct out.
  - left. by exists rs, kept.
Qed.

Lemma insert_rows_in q batch rs : q ∈ TradeRow.insert_rows rs batch → q ∈ rs ∨ q ∈ batch.
Proof.
  unfold TradeRow.insert_rows. revert rs. induction batch as [|r batch IH]; intros rs; cbn [foldl]; [by left|].
  intros [Hq|Hq]%IH; [|by right; constructor]. unfold TradeRow.insert_row in Hq. case_decide; [by left|].
  apply elem_of_app in Hq as [Hq|Hq]; [by left|]. apply list_elem_of_singleton in Hq as ->.
  right. by constructor.
Qed.

(** The rows keep every promise of the interface. *)
Lemma table_of_rows_spec : TradeTableSpec.
Proof.
  split; cbn.
  - intros batch d d' x [Hi|[? _]]%execute_rows_run Hx; [by eapply inserts_in_table|done].
  - intros batch d ok d' x [Hi|[_ Hr]]%execute_rows_run Hx; [by eapply inserts_keeps|].
    destruct Hx as (k & Hk & Hx). exists k. by rewrite Hr.
  - intros batch d ok d' x [Hi|[_ Hr]]%execute_rows_run (k & Hk & Hx).
    2: { left. exists k. by rewrite Hr in Hx. }
    apply inserts_rows in Hi as (kept & Hkept & Hr). apply mapM_Some in Hkept. rewrite Hr in Hx.
    assert (∃ q, q ∈ TradeRow.insert_rows (rows d) kept ∧ (q = k ∨ TradeRow.conflicts k q)) as (q & Hq & Hkq).
    { destruct Hx as [Hx|Hx]; [by exists k; auto|]. apply Exists_exists in Hx as (q & ? & ?). by exists q; auto. }
    apply insert_rows_in in Hq as [Hq|Hq].
    + left. exists k. split; [done|]. destruct Hkq as [->|Hkq]; [by left|right].
      apply Exists_exists. by exists q.
    + right. apply list_elem_of_lookup in Hq as [i Hi].
      destruct (Forall2_lookup_r _ _ _ _ _ Hkept Hi) as (y & Hy & Hyq).
      exists y. split; [by eapply list_elem_of_lookup_2|]. by exists q, k.
Qed.

(** ** The simulation *)

Record simulates (w : TradeWriter.t) (dw : DurableWriter.t) : Prop := {
  sim_wal : models (TradeWriter.wal w) (DurableWriter.wal dw);
  sim_buffer : DurableWriter.buffer dw = TradeWriter.buffer w;
  sim_size : DurableWriter.batch_size dw = TradeWriter.batch_size w;
  sim_db : DurableWriter.db dw = TradeWriter.db w;
}.

(** A panic is an insert that did not happen. *)
Definition erase (e : failure) : PersistenceError.t :=
  match e with Returned e => e | Panicked => PersistenceError.Database end.

Lemma flush_drained_sim batch w dw :
  simulates w dw →
  map_err erase (DurableWriter.flush_drained batch dw).1 = (TradeWriter.flush_drained batch w).1 ∧
  simulates (TradeWriter.flush_drained batch w).2 (DurableWriter.flush_drained batch dw).2.
Proof.
  intros [Hw Hb Hs Hd]. unfold DurableWriter.flush_drained, TradeWriter.flush_drained.
  destruct (length batch =? 0)%nat; [done|].
  destruct (sync_models _ _ Hw) as (l1 & Hs1 & Hw1).
  unfold mbind, st_bind, lift, DurableWriter.on_wal, catch. rewrite Hs1. cbn [map_err].
  change execute with execute_rows. unfold execute_rows.
  destruct (mapM TradeRow.push_values batch) as [rs|]; cbn [ok_or]; [|by split].
  unfold DurableWriter.execute. cbn [DurableWriter.db]. rewrite Hd.
  destruct (insert rs (TradeWriter.db w)) as [[] d]; [|by split..].
  cbn [DurableWriter.wal DurableWriter.buffer DurableWriter.batch_size DurableWriter.db].
  destruct (truncate_models _ _ Hw1) as (l2 & Hs2 & Hw2). rewrite Hs2. by split.
Qed.

Lemma stage_sim x w dw :
  simulates w dw →
  map_err erase (DurableWriter.stage x dw).1 = (TradeWriter.stage x w).1 ∧
  simulates (TradeWriter.stage x w).2 (DurableWriter.stage x dw).2.
Proof.
  intros [Hw Hb Hs Hd]. unfold DurableWriter.stage, TradeWriter.stage.
  unfold mbind, st_bind, modify, gets, DurableWriter.on_wal, catch.
  pose proof (append_models (StagedTrade.encode_wal x) _ _ Hw) as Ha.
  destruct (TradeWal.append _ _) as [[off w1]|e].
  - destruct Ha as (l1 & -> & Hw1).
    cbn [map_err DurableWriter.with_buffer DurableWriter.wal DurableWriter.buffer DurableWriter.batch_size
         DurableWriter.db].
    rewrite Hs, Hb, Hd. destruct (_ <=? _)%nat; [|by split].
    unfold DurableWriter.take_buffer. cbn [DurableWriter.buffer]. by apply flush_drained_sim.
  - rewrite Ha. by split.
Qed.

Lemma flush_sim w dw :
  simulates w dw →
  map_err erase (DurableWriter.flush dw).1 = (TradeWriter.flush w).1 ∧
  simulates (TradeWriter.flush w).2 (DurableWriter.flush dw).2.
Proof.
  intros [Hw Hb Hs Hd]. unfold DurableWriter.flush, TradeWriter.flush, DurableWriter.take_buffer.
  unfold mbind, st_bind, result_bind. rewrite Hb. destruct (_ =? _)%nat; [by split|].
  destruct (flush_drained_sim (TradeWriter.buffer w)
    (TradeWriter.mk (TradeWriter.wal w) [] (TradeWriter.batch_size w) (TradeWriter.db w))
    (DurableWriter.with_buffer [] dw)) as [Hr Hsim]; [by constructor|].
  destruct (TradeWriter.flush_drained _ _) as [r1 w1], (DurableWriter.flush_drained _ _) as [r2 dw1].
  cbn [fst snd] in *. subst r1. by destruct r2.
Qed.

Lemma recover_sim w dw :
  simulates w dw →
  (DurableWriter.recover_from_wal dw).1 = Ok (TradeWriter.recover_from_wal w).1 ∧
  simulates (TradeWriter.recover_from_wal w).2 (DurableWriter.recover_from_wal dw).2.
Proof.
  intros [Hw Hb Hs Hd]. unfold DurableWriter.recover_from_wal, TradeWriter.recover_from_wal.
  unfold mbind, st_bind, modify, DurableWriter.on_wal, catch.
  destruct (replay_models _ _ Hw) as (l & -> & Hl). destruct (TradeWal.replay _) as [rs w1].
  cbn in *. split; [done|]. constructor; cbn; congruence || done.
Qed.

Inductive call : Type :=
  | CallStage (x : StagedTrade.t)
  | CallFlush
  | CallRecover.

(** The outcomes of a list of calls and the writer behind them, for both. *)
Definition do_call (c : call) (w : TradeWriter.t) : result PersistenceError.t nat * TradeWriter.t :=
  match c with
  | CallStage x => let '(r, w) := TradeWriter.stage x w in (_ ← r; Ok O, w)
  | CallFlush => TradeWriter.flush w
  | CallRecover => let '(n, w) := TradeWriter.recover_from_wal w in (Ok n, w)
  end.
Definition do_durable (c : call) (w : DurableWriter.t) : result PersistenceError.t nat * DurableWriter.t :=
  match c with
  | CallStage x => let '(r, w) := DurableWriter.stage x w in (_ ← map_err erase r; Ok O, w)
  | CallFlush => let '(r, w) := DurableWriter.flush w in (map_err erase r, w)
  | CallRecover => let '(r, w) := DurableWriter.recover_from_wal w in (map_err erase r, w)
  end.
Fixpoint calls {W} (step : call → W → result PersistenceError.t nat * W) (cs : list call) (w : W)
    : list (result PersistenceError.t nat) * W :=
  match cs with
  | [] => ([], w)
  | c :: cs' =>
      let '(r, w) := step c w in
      let '(rs, w) := calls step cs' w in (r :: rs, w)
  end.

Lemma do_call_sim c w dw :
  simulates w dw →
  (do_durable c dw).1 = (do_call c w).1 ∧ simulates (do_call c w).2 (do_durable c dw).2.
Proof.
  intros Hs. destruct c as [x| |]; cbn [do_call do_durable].
  - destruct (stage_sim x _ _ Hs) as [Hr Hs1].
    destruct (DurableWriter.stage x dw), (TradeWriter.stage x w). cbn in *. by rewrite Hr.
  - destruct (flush_sim _ _ Hs) as [Hr Hs1]. by destruct (DurableWriter.flush dw).
  - destruct (recover_sim _ _ Hs) as [Hr Hs1].
    destruct (DurableWriter.recover_from_wal dw), (TradeWriter.recover_from_wal w). cbn in *. by rewrite Hr.
Qed.

(** On a disk without faults the detailed writer is the simple one.
    Connected to the same database and the same log file, the two give the same
    results on every sequence of calls of [stage], [flush] and
    [recover_from_wal], and keep the same log, buffer and database; an overflow
    of the decimal product counts as a failed insert. *)
Theorem faultless_writer (cs : list call) (file : bytes) (parent : bool) (n : nat) (d : Database)
    (dw : DurableWriter.t) :
  DurableWriter.connect (Some d) parent (Disk.mk file [] []) n = Ok dw →
  (calls do_durable cs dw).1 = (calls do_call cs (TradeWriter.connect file n d)).1 ∧
  simulates (calls do_call cs (TradeWriter.connect file n d)).2 (calls do_durable cs dw).2.
Proof.
  intros Hdw. assert (simulates (TradeWriter.connect file n d) dw) as Hs.
  { destruct parent; injection Hdw as <-; by constructor. }
  clear Hdw. revert dw Hs. generalize (TradeWriter.connect file n d) as w.
  induction cs as [|c cs IH]; intros w dw Hs; [done|]. cbn [calls].
  destruct (do_call_sim c _ _ Hs) as [Hr Hs1].
  destruct (do_durable c dw) as [r1 dw1], (do_call c w) as [r2 w1]. cbn [fst snd] in *. subst r2.
  destruct (IH w1 dw1 Hs1) as [Hr2 Hs2].
  destruct (calls do_durable cs dw1), (calls do_call cs w1). cbn in *. by rewrite Hr2.
Qed.
End refinement.

Section witnesses.
#[local] Existing Instance chrono_reference.
#[local] Existing Instance decimal_reference.
#[local] Existing Instance rows_reference.

Lemma faultless_writer_witness :
  ∃ dw, DurableWriter.connect (Some (empty_rows [])) true (Disk.mk [] [] []) 2 = Ok dw ∧
    (calls do_durable [CallStage StagedTrade.sample; CallFlush] dw).1 = [Ok 0%nat; Ok 1%nat].
Proof.
  destruct (DurableWriter.connect (Some (empty_rows [])) true (Disk.mk [] [] []) 2) as [dw|e] eqn:Hdw;
    [|discriminate Hdw].
  exists dw. split; [reflexivity|].
  destruct (faultless_writer [CallStage StagedTrade.sample; CallFlush] [] true 2 (empty_rows []) dw Hdw)
    as [Hr _].
  rewrite Hr. vm_compute. reflexivity.
Defined.
End witnesses.
