(* ===== verification/ConcurrentWriter.v ===== *)
(** * Concurrent calls of the trade writer ([persistence/src/trade_writer.rs])

    Every caller of [stage] and [flush] is a task on a pool of threads: it runs
    up to its next lock or [await], and any number of them, flushes included,
    can be under way at a time. A task is where its call has got to; a step runs
    one of them for one action of [DurableWriter.v]. *)

From S2P Require Import Prelude RustInt RustStr RustFloat Externs RustIo Wal DiskLog.
From S2P Require Import StagedTrade TradeWriter TradeRow DurableWriter.

Module WriterCalls.
Section calls.
Context `{TradesTable}.

(** What a call is about to do. [acks] are the trades that are acknowledged if
    it returns [Ok]: the one of a [stage], none of a [flush]. *)
Inductive task : Type :=
  | Append (x : StagedTrade.t)
  | Push (x : StagedTrade.t)
  | Take
  | Sync (acks batch : list StagedTrade.t)
  | Execute (acks batch : list StagedTrade.t)
  | Truncate (acks : list StagedTrade.t).

(** A call goes on, or returns: with [Ok], or with an error or a panic and the
    batch it had taken out of the buffer. *)
Inductive progress : Type :=
  | Next (k : task)
  | Returns (acks : list StagedTrade.t)
  | Fails (batch : list StagedTrade.t).

(** The trades of a batch go to [flush_drained], which returns at once for none. *)
Definition drained (acks batch : list StagedTrade.t) : progress :=
  if (length batch =? 0)%nat then Returns acks else Next (Sync acks batch).

Definition advance (k : task) (w : DurableWriter.t) : progress * DurableWriter.t :=
  match k with
  | Append x =>
      match DurableWriter.on_wal (DiskWal.append (StagedTrade.encode_wal x)) w with
      | (Ok _, w) => (Next (Push x), w)
      | (Err _, w) => (Fails [], w)
      end
  | Push x =>
      let buf := DurableWriter.buffer w ++ [x] in
      if (DurableWriter.batch_size w <=? length buf)%nat
      then (drained [x] buf, DurableWriter.with_buffer [] w)
      else (Returns [x], DurableWriter.with_buffer buf w)
  | Take => (drained [] (DurableWriter.buffer w), DurableWriter.with_buffer [] w)
  | Sync acks batch =>
      match DurableWriter.on_wal DiskWal.sync w with
      | (Ok _, w) => (Next (Execute acks batch), w)
      | (Err _, w) => (Fails batch, w)
      end
  | Execute acks batch =>
      match mapM TradeRow.push_values batch with
      | None => (Fails batch, w)
      | Some rows =>
          match DurableWriter.execute rows w with
          | (Ok _, w) => (Next (Truncate acks), w)
          | (Err _, w) => (Fails batch, w)
          end
      end
  | Truncate acks =>
      match DurableWriter.on_wal DiskWal.truncate w with
      | (Ok _, w) => (Returns acks, w)
      | (Err _, w) => (Fails [], w)
      end
  end.

(** The calls under way, the trades whose [stage] has returned [Ok], and those of
    the batches whose flush has failed. *)
Record state : Type := mk {
  writer : DurableWriter.t;
  tasks : list task;
  acked : list StagedTrade.t;
  failed : list StagedTrade.t;
}.

Inductive event : Type :=
  | CallStage (x : StagedTrade.t)
  | CallFlush
  | Advance (i : nat).

Definition settle (i : nat) (p : progress) (w : DurableWriter.t) (s : state) : state :=
  match p with
  | Next k => mk w (<[i := k]> (tasks s)) (acked s) (failed s)
  | Returns acks => mk w (delete i (tasks s)) (acked s ++ acks) (failed s)
  | Fails batch => mk w (delete i (tasks s)) (acked s) (failed s ++ batch)
  end.

Definition step (ev : event) (s : state) : option state :=
  match ev with
  | CallStage x => Some (mk (writer s) (tasks s ++ [Append x]) (acked s) (failed s))
  | CallFlush => Some (mk (writer s) (tasks s ++ [Take]) (acked s) (failed s))
  | Advance i =>
      k ← tasks s !! i;
      let '(p, w) := advance k (writer s) in Some (settle i p w s)
  end.

Fixpoint run (evs : list event) (s : state) : option state :=
  match evs with
  | [] => Some s
  | ev :: evs' => s ← step ev s; run evs' s
  end.

Definition start (w : DurableWriter.t) : state := mk w [] [] [].

(** The trades a call has taken out of the buffer and not yet inserted. *)
Definition batch_of (k : task) : list StagedTrade.t :=
  match k with Sync _ batch | Execute _ batch => batch | _ => [] end.
End calls.
End WriterCalls.

(** ** Where an acknowledged trade is *)

Section safety.
Context `{TradesTableSpec}.
Import WriterCalls.

(** In the table, the buffer, a batch under way, or a batch whose flush failed. *)
Definition located (s : state) (x : StagedTrade.t) : Prop :=
  in_table (DurableWriter.db (writer s)) x ∨ x ∈ DurableWriter.buffer (writer s) ∨
  (∃ k, k ∈ tasks s ∧ x ∈ batch_of k) ∨ x ∈ failed s.

(** What a call will acknowledge is in the table, or in the batch it has. *)
Definition promises (d : Database) (k : task) : Prop :=
  match k with
  | Sync acks batch | Execute acks batch => ∀ x, x ∈ acks → x ∈ batch
  | Truncate acks => ∀ x, x ∈ acks → in_table d x
  | _ => True
  end.

Record keeps_track (s : state) : Prop := {
  track_acked x : x ∈ acked s → located s x;
  track_tasks : Forall (promises (DurableWriter.db (writer s))) (tasks s);
}.

(** Where a call's trades are after one of its actions. *)
Definition carried (p : progress) : list StagedTrade.t :=
  match p with Next k => batch_of k | Returns _ => [] | Fails batch => batch end.

(** What an action does to table, buffer and batches: nothing leaves them but for
    the batch of a call that fails. *)
Record moves (k : task) (w : DurableWriter.t) (p : progress) (w' : DurableWriter.t) : Prop := {
  moves_table x : in_table (DurableWriter.db w) x → in_table (DurableWriter.db w') x;
  moves_trades x : x ∈ DurableWriter.buffer w ∨ x ∈ batch_of k →
    in_table (DurableWriter.db w') x ∨ x ∈ DurableWriter.buffer w' ∨ x ∈ carried p;
  moves_promise :
    match p with
    | Next k' => promises (DurableWriter.db w') k'
    | Returns acks => ∀ x, x ∈ acks → in_table (DurableWriter.db w') x ∨ x ∈ DurableWriter.buffer w'
    | Fails _ => True
    end;
}.

(** An action on the log moves no trade. *)
Lemma on_wal_moves {A} (m : st DiskWal.t PersistenceError.t A) k w r w' p :
  DurableWriter.on_wal m w = (r, w') →
  (∀ x, x ∈ batch_of k → x ∈ carried p) →
  match p with
  | Next k' => promises (DurableWriter.db w) k'
  | Returns acks => ∀ x, x ∈ acks → in_table (DurableWriter.db w) x
  | Fails _ => True
  end → moves k w p w'.
Proof.
  intros (r1 & l & _ & -> & ->)%on_wal_run Hk Hp. constructor; cbn.
  - done.
  - intros x [?|?]; auto.
  - destruct p; auto.
Qed.

(** Taking the buffer, and one more trade, as a batch. *)
Lemma drained_moves k w acks buf :
  batch_of k = [] → (∀ x, x ∈ DurableWriter.buffer w → x ∈ buf) → (∀ x, x ∈ acks → x ∈ buf) →
  moves k w (drained acks buf) (DurableWriter.with_buffer [] w).
Proof.
  intros Hk Hb Ha. unfold drained. destruct (Nat.eqb_spec (length buf) 0) as [Hl|_].
  - apply nil_length_inv in Hl. subst buf. constructor; cbn; [done| |].
    + intros x [Hx%Hb|Hx]; [|rewrite Hk in Hx]; by apply elem_of_nil in Hx.
    + intros x Hx%Ha. by apply elem_of_nil in Hx.
  - constructor; cbn; [done| |done]. intros x [Hx|Hx]; [auto|by rewrite Hk in Hx; apply elem_of_nil in Hx].
Qed.

Lemma execute_moves acks batch w p w' :
  advance (Execute acks batch) w = (p, w') → (∀ x, x ∈ acks → x ∈ batch) →
  moves (Execute acks batch) w p w'.
Proof.
  intros Ha Hp. cbn [advance] in Ha. destruct (mapM TradeRow.push_values batch) as [rs|] eqn:Hrs.
  2: { injection Ha as <- <-. constructor; cbn; [done| |done]. intros x [?|?]; auto. }
  destruct (DurableWriter.execute rs w) as [r w1] eqn:He.
  apply (execute_run batch) in He as (d & -> & Hd); [|done]. destruct r as [u|e]; injection Ha as <- <-.
  - constructor; cbn; [by intros x; apply (inserts_keeps batch)| |].
    + intros x [?|?]; [auto|left; by eapply inserts_in_table].
    + intros x Hx. eapply inserts_in_table; [exact Hd|by apply Hp].
  - constructor; cbn; [|intros x [?|?]; auto|done]. intros x Hx. destruct Hd as [_ [Hr|Hi]].
    + destruct Hx as (r & Hr1 & Hin). exists r. by rewrite Hr.
    + by apply (inserts_keeps batch (DurableWriter.db w)).
Qed.

Lemma advance_moves k w p w' :
  advance k w = (p, w') → promises (DurableWriter.db w) k → moves k w p w'.
Proof.
  intros Ha Hp. destruct k as [x|x| |acks batch|acks batch|acks]; [..|by apply execute_moves|];
    cbn [advance] in Ha.
  - destruct (DurableWriter.on_wal _ w) as [r w1] eqn:Hw.
    apply (on_wal_moves _ (Append x) w r w1 p) in Hw; destruct r; injection Ha as <- <-; done.
  - destruct (_ <=? _)%nat; injection Ha as <- <-.
    + apply drained_moves; [done|..]; intros y Hy; apply elem_of_app; auto.
    + constructor; cbn; [done|..].
      * intros y [?|Hy]; [|by apply elem_of_nil in Hy]. right. left. apply elem_of_app. auto.
      * intros y Hy. right. apply elem_of_app. auto.
  - injection Ha as <- <-. apply drained_moves; [done|done|]. intros y Hy. by apply elem_of_nil in Hy.
  - destruct (DurableWriter.on_wal _ w) as [r w1] eqn:Hw.
    apply (on_wal_moves _ (Sync acks batch) w r w1 p) in Hw; destruct r; injection Ha as <- <-; done.
  - destruct (DurableWriter.on_wal _ w) as [r w1] eqn:Hw.
    apply (on_wal_moves _ (Truncate acks) w r w1 p) in Hw; destruct r; injection Ha as <- <-; done.
Qed.

Lemma promises_mono d d' k :
  (∀ x, in_table d x → in_table d' x) → promises d k → promises d' k.
Proof. intros Hd. destruct k; cbn; auto. Qed.

Lemma delete_other {A} (l : list A) i k k0 :
  l !! i = Some k → k0 ∈ l → k0 = k ∨ k0 ∈ delete i l.
Proof. intros Hi. rewrite (delete_Permutation _ _ _ Hi) at 1. by rewrite elem_of_cons. Qed.

Lemma insert_other {A} (l : list A) i k k' k0 :
  l !! i = Some k → k0 ∈ l → k0 = k ∨ k0 ∈ <[i := k']> l.
Proof.
  intros Hi [j Hj]%list_elem_of_lookup. destruct (decide (i = j)) as [->|Hne].
  - left. congruence.
  - right. apply list_elem_of_lookup. exists j. by rewrite list_lookup_insert_ne.
Qed.

Lemma insert_here {A} (l : list A) i k k' : l !! i = Some k → k' ∈ <[i := k']> l.
Proof.
  intros Hi. apply list_elem_of_lookup. exists i. apply list_lookup_insert_eq. by eapply lookup_lt_Some.
Qed.

(** What an action carries on is with the call, or among the failed. *)
Lemma settle_carried s i k p w x :
  tasks s !! i = Some k → x ∈ carried p → located (settle i p w s) x.
Proof.
  intros Hi Hx. unfold located. destruct p as [k'|acks|batch]; cbn in *.
  - right. right. left. exists k'. split; [by eapply insert_here|done].
  - by apply elem_of_nil in Hx.
  - do 3 right. apply elem_of_app. auto.
Qed.

Lemma settle_located s i k p w x :
  tasks s !! i = Some k → moves k (writer s) p w → located s x → located (settle i p w s) x.
Proof.
  intros Hi [Htab Htr _] Hx.
  assert (∀ y, y ∈ DurableWriter.buffer (writer s) ∨ y ∈ batch_of k → located (settle i p w s) y) as Hmine.
  { intros y [?|[?|Hc]]%Htr; [left|right; left|by eapply settle_carried]; by destruct p. }
  destruct Hx as [Hx|[Hx|[(k0 & Hk0 & Hx)|Hx]]].
  - left. apply Htab in Hx. by destruct p.
  - by apply Hmine; left.
  - assert (k0 = k ∨ k0 ∈ tasks (settle i p w s)) as [->|Hin].
    { destruct p; cbn; [by eapply insert_other|by apply delete_other..]. }
    + by apply Hmine; right.
    + right. right. left. by exists k0.
  - do 3 right. destruct p; cbn; [done|done|apply elem_of_app; auto].
Qed.

Lemma settle_keeps_track s i k p w :
  tasks s !! i = Some k → moves k (writer s) p w → keeps_track s → keeps_track (settle i p w s).
Proof.
  intros Hi Hm [Ha Ht]. constructor.
  - intros x Hx. destruct (decide (x ∈ acked s)) as [Hold|Hnew].
    { apply (settle_located _ _ _ _ _ _ Hi Hm). by apply Ha. }
    destruct p as [k'|acks|batch]; cbn in Hx; [done| |done].
    apply elem_of_app in Hx as [?|Hx]; [done|].
    destruct (moves_promise _ _ _ _ Hm x Hx) as [?|?]; [by left|by right; left].
  - assert (Forall (promises (DurableWriter.db w)) (tasks s)) as Ht'.
    { eapply Forall_impl; [exact Ht|]. intros k0. apply promises_mono, Hm. }
    pose proof (moves_promise _ _ _ _ Hm) as Hp.
    destruct p; cbn; [by apply Forall_insert|by apply Forall_delete..].
Qed.

Lemma step_keeps_track ev s s' : step ev s = Some s' → keeps_track s → keeps_track s'.
Proof.
  intros Hs Hk. assert (∀ k, promises (DurableWriter.db (writer s)) k → 
    keeps_track (mk (writer s) (tasks s ++ [k]) (acked s) (failed s))) as Hcall.
  { destruct Hk as [Ha Ht]. intros k Hk.
    constructor; cbn; [|by apply Forall_app; split; [|apply Forall_singleton]].
    intros x Hx. destruct (Ha x Hx) as [?|[?|[(k' & Hk' & ?)|?]]]; unfold located; cbn; auto.
    right. right. left. exists k'. split; [|done]. apply elem_of_app. auto. }
  destruct ev as [x| |i]; cbn [step] in Hs; [injection Hs as <-; by apply Hcall..|].
  apply bind_Some in Hs as (k & Hi & Hs). destruct (advance k (writer s)) as [p w] eqn:Hadv.
  injection Hs as <-. eapply settle_keeps_track; [exact Hi| |exact Hk].
  apply advance_moves; [done|]. apply (Forall_lookup_1 _ _ _ _ (track_tasks _ Hk) Hi).
Qed.

Lemma run_keeps_track evs s s' : run evs s = Some s' → keeps_track s → keeps_track s'.
Proof.
  revert s. induction evs as [|ev evs IH]; intros s; cbn [run]; [by intros [= <-]|].
  intros (s1 & Hs & Hr)%bind_Some Hk. eapply IH; [exact Hr|]. by eapply step_keeps_track.
Qed.

Lemma start_keeps_track w : keeps_track (start w).
Proof. constructor; [|constructor]. intros x Hx. by apply elem_of_nil in Hx. Qed.

(** (C14) No acknowledged trade is lost while the process runs. On any disk and any
    database, whatever calls of [stage] and [flush] run at the same time and
    however they are interleaved: a trade whose [stage] has returned [Ok] is in
    the table (or a row that the unique index takes for it is), in the buffer, in the batch of a flush under way, or in the batch of
    a flush that failed. So when no flush has failed and every call has
    returned, the next [flush] that returns [Ok] leaves it in the table. *)
Theorem acknowledged_trade_located (evs : list event) (w : DurableWriter.t) (s : state)
    (x : StagedTrade.t) :
  run evs (start w) = Some s → x ∈ acked s →
  located s x ∧
  (tasks s = [] → failed s = [] →
   ∀ m w', DurableWriter.flush (writer s) = (Ok m, w') → in_table (DurableWriter.db w') x).
Proof.
  intros Hr Hx. pose proof (run_keeps_track _ _ _ Hr (start_keeps_track w)) as Hk.
  pose proof (track_acked _ Hk x Hx) as Hl. split; [done|]. intros Ht Hf m w' Hfl.
  unfold located in Hl. rewrite Ht, Hf in Hl.
  assert (in_table (DurableWriter.db (writer s)) x ∨ x ∈ DurableWriter.buffer (writer s)) as Hin.
  { destruct Hl as [?|[?|[(k & Hk' & _)|Hn]]]; auto; [by apply elem_of_nil in Hk'|by apply elem_of_nil in Hn]. }
  by eapply flush_stores.
Qed.
End safety.

(** ** One call at a time *)

Section in_turn.
Context `{TradesTable}.
Import WriterCalls.

Definition is_ok {E A} (r : result E A) : bool := match r with Ok _ => true | Err _ => false end.

(** The writer of [DurableWriter.v] after some calls, whatever they return, and the
    trades whose [stage] returned [Ok]. *)
Fixpoint in_turn (ops : list WriterOp.t) (w : DurableWriter.t)
    : DurableWriter.t * list StagedTrade.t :=
  match ops with
  | [] => (w, [])
  | WriterOp.Stage x :: ops' =>
      let '(r, w) := DurableWriter.stage x w in
      let '(w, acks) := in_turn ops' w in (w, if is_ok r then x :: acks else acks)
  | WriterOp.Flush :: ops' =>
      let '(_, w) := DurableWriter.flush w in in_turn ops' w
  end.

Definition runs_to (s s' : state) : Prop := ∃ evs, run evs s = Some s'.

Lemma runs_to_refl s : runs_to s s.
Proof. by exists []. Qed.

Lemma runs_to_step ev s s1 s' : step ev s = Some s1 → runs_to s1 s' → runs_to s s'.
Proof. intros Hs [evs Hr]. exists (ev :: evs). cbn [run]. by rewrite Hs. Qed.

Lemma runs_to_trans s s1 s' : runs_to s s1 → runs_to s1 s' → runs_to s s'.
Proof.
  intros [evs Hr]. revert s Hr. induction evs as [|ev evs IH]; intros s; cbn [run]; [by intros [= <-]|].
  intros (s2 & Hs & Hr)%bind_Some Hn. eapply runs_to_step; [exact Hs|by apply IH].
Qed.

(** The only call under way takes its next action. *)
Lemma lone_step k w p w' a f s' :
  advance k w = (p, w') → runs_to (settle 0 p w' (mk w [k] a f)) s' → runs_to (mk w [k] a f) s'.
Proof. intros Ha. apply (runs_to_step (Advance 0)). cbn [step tasks writer lookup]. cbn. by rewrite Ha. Qed.

Lemma lone_flush_drained acks batch w r w' a f :
  DurableWriter.flush_drained batch w = (r, w') → batch ≠ [] →
  ∃ f', runs_to (mk w [Sync acks batch] a f) (mk w' [] (if is_ok r then a ++ acks else a) f').
Proof.
  intros Hf Hb. unfold DurableWriter.flush_drained in Hf.
  destruct (Nat.eqb_spec (length batch) 0) as [Hl|_]; [by apply nil_length_inv in Hl|].
  unfold mbind, st_bind, lift in Hf.
  destruct (DurableWriter.on_wal DiskWal.sync w) as [[u|e] w1] eqn:Hs.
  2: { injection Hf as <- <-. eexists. eapply lone_step; [by cbn [advance]; rewrite Hs|apply runs_to_refl]. }
  destruct (mapM TradeRow.push_values batch) as [rs|] eqn:Hrs; cbn [ok_or] in Hf.
  2: { injection Hf as <- <-. eexists. eapply lone_step; [by cbn [advance]; rewrite Hs|].
       eapply lone_step; [by cbn [advance]; rewrite Hrs|apply runs_to_refl]. }
  destruct (DurableWriter.execute rs w1) as [[u2|e] w2] eqn:He.
  2: { injection Hf as <- <-. eexists. eapply lone_step; [by cbn [advance]; rewrite Hs|].
       eapply lone_step; [by cbn [advance]; rewrite Hrs, He|apply runs_to_refl]. }
  destruct r as [u3|e3]; eexists; (eapply lone_step; [by cbn [advance]; rewrite Hs|]);
    (eapply lone_step; [by cbn [advance]; rewrite Hrs, He|]);
    (eapply lone_step; [by cbn [advance]; rewrite Hf|apply runs_to_refl]).
Qed.

Lemma lone_stage x w r w' a f :
  DurableWriter.stage x w = (r, w') →
  ∃ f', runs_to (mk w [] a f) (mk w' [] (if is_ok r then a ++ [x] else a) f').
Proof.
  intros Hst. unfold DurableWriter.stage, mbind, st_bind, modify, gets in Hst.
  assert (∀ s', runs_to (mk w [Append x] a f) s' → runs_to (mk w [] a f) s') as Hcall
    by (intros s'; by apply (runs_to_step (CallStage x))).
  destruct (DurableWriter.on_wal _ w) as [[off|e] w1] eqn:Ha.
  2: { injection Hst as <- <-. eexists. apply Hcall.
       eapply lone_step; [by cbn [advance]; rewrite Ha|apply runs_to_refl]. }
  cbn [DurableWriter.with_buffer DurableWriter.wal DurableWriter.buffer DurableWriter.batch_size
    DurableWriter.db] in Hst.
  set (buf := DurableWriter.buffer w1 ++ [x]) in *.
  assert (drained [x] buf = Next (Sync [x] buf)) as Hd.
  { unfold drained. destruct (Nat.eqb_spec (length buf) 0) as [Hl|]; [|done].
    subst buf. rewrite length_app in Hl. cbn in Hl. lia. }
  destruct (DurableWriter.batch_size w1 <=? length buf)%nat eqn:Hfull.
  - unfold DurableWriter.take_buffer in Hst.
    apply (lone_flush_drained [x] _ _ _ _ a f) in Hst as [f' Hr]; [|by subst buf; destruct (DurableWriter.buffer w1)].
    exists f'. apply Hcall. eapply lone_step; [by cbn [advance]; rewrite Ha|].
    eapply lone_step; [cbn [advance]; fold buf; by rewrite Hfull, Hd|exact Hr].
  - injection Hst as <- <-. eexists. apply Hcall. eapply lone_step; [by cbn [advance]; rewrite Ha|].
    eapply lone_step; [cbn [advance]; fold buf; by rewrite Hfull|apply runs_to_refl].
Qed.

Lemma lone_flush w r w' a f :
  DurableWriter.flush w = (r, w') → ∃ f', runs_to (mk w [] a f) (mk w' [] a f').
Proof.
  intros Hf. unfold DurableWriter.flush, DurableWriter.take_buffer, mbind, st_bind in Hf.
  assert (∀ s', runs_to (mk w [Take] a f) s' → runs_to (mk w [] a f) s') as Hcall
    by (intros s'; by apply (runs_to_step CallFlush)).
  destruct (length (DurableWriter.buffer w) =? 0)%nat eqn:Hz.
  - injection Hf as _ <-. eexists. apply Hcall. eapply lone_step; [by cbn [advance]; unfold drained; rewrite Hz|].
    unfold settle. cbn. rewrite app_nil_r. apply runs_to_refl.
  - destruct (DurableWriter.flush_drained _ _) as [r1 w1] eqn:Hd.
    apply (lone_flush_drained [] _ _ _ _ a f) in Hd as [f' Hr].
    2: { apply Nat.eqb_neq in Hz. by intros E; rewrite E in Hz. }
    assert (w' = w1) as -> by (by destruct r1; injection Hf).
    exists f'. apply Hcall. eapply lone_step; [by cbn [advance]; unfold drained; rewrite Hz|].
    replace a with (if is_ok r1 then a ++ [] else a) at 2 by (rewrite app_nil_r; by destruct r1). exact Hr.
Qed.

(** One call at a time, the interleaved writer is the sequential one. Any calls
    of [stage] and [flush], made one after the other and whatever they return, are
    a schedule of the interleaved writer: it ends with the same log, buffer,
    table and outstanding faults, no call under way, and as acknowledged exactly
    the trades whose [stage] returned [Ok], in order. *)
Theorem calls_in_turn (ops : list WriterOp.t) (w : DurableWriter.t) :
  ∃ evs f, run evs (start w) = Some (mk (in_turn ops w).1 [] (in_turn ops w).2 f).
Proof.
  assert (∀ a f, ∃ f', runs_to (mk w [] a f) (mk (in_turn ops w).1 [] (a ++ (in_turn ops w).2) f')) as Hall.
  { revert w. induction ops as [|[x|] ops IH]; intros w a f; cbn [in_turn].
    - exists f. cbn. rewrite app_nil_r. apply runs_to_refl.
    - destruct (DurableWriter.stage x w) as [r w1] eqn:Hs. destruct (lone_stage _ _ _ _ a f Hs) as [f1 Hr1].
      destruct (IH w1 (if is_ok r then a ++ [x] else a) f1) as [f2 Hr2].
      destruct (in_turn ops w1) as [w2 acks]. cbn [fst snd] in *. exists f2.
      eapply runs_to_trans; [exact Hr1|]. by destruct r; cbn in *; [rewrite <-(assoc_L (++)) in Hr2|].
    - destruct (DurableWriter.flush w) as [r w1] eqn:Hf. destruct (lone_flush _ _ _ a f Hf) as [f1 Hr1].
      destruct (IH w1 a f1) as [f2 Hr2]. exists f2. by eapply runs_to_trans. }
  destruct (Hall [] []) as (f & evs & Hr). by exists evs, f.
Qed.
End in_turn.

(** ** The log under concurrent calls *)

Section race.
Context `{TradesTable}.
Import WriterCalls.

(** Kept folded while a schedule is run. *)
#[local] Arguments DurableWriter.on_wal : simpl never.
#[local] Arguments StagedTrade.encode_wal : simpl never.
#[local] Arguments DiskWal.append : simpl never.
#[local] Arguments DiskWal.sync : simpl never.
#[local] Arguments DiskWal.truncate : simpl never.

Lemma on_wal_Ok {A} (m : st DiskWal.t PersistenceError.t A) l v l' b n d :
  m l = (Ok v, l') →
  DurableWriter.on_wal m (DurableWriter.mk l b n d) = (Ok v, DurableWriter.mk l' b n d).
Proof. intros Hm. unfold DurableWriter.on_wal, catch. cbn. by rewrite Hm. Qed.

#[local] Ltac log_call H :=
  cbn; unfold DurableWriter.with_buffer; cbn; rewrite (on_wal_Ok _ _ _ _ _ _ _ H).

(** Without faults, an append of a record that fits. *)
Lemma append_goes_through p wl l :
  models wl l → fits p → ∃ off wl' l', DiskWal.append p l = (Ok off, l') ∧ models wl' l'.
Proof.
  intros Hm Hp. destruct (append_fits p wl Hp) as [[off wl'] Ha].
  pose proof (append_models p _ _ Hm) as Hd. rewrite Ha in Hd. destruct Hd as (l' & Hd & Hm'). by exists off, wl', l'.
Qed.

(** (C38) A flush truncates records it did not flush. Without any fault of disk or
    database, a trade whose [stage] runs between the insert of a flush and its
    truncation of the log is acknowledged and then has no log record: when
    every call has returned, the log is empty and the trade is in memory only:
    no recovery from that log finds it. *)
Theorem flush_truncates_concurrent_stage (a b : StagedTrade.t) (n : nat) (d d1 : Database)
    (rs : list TradeRow.t) :
  fits (StagedTrade.encode_wal a) → fits (StagedTrade.encode_wal b) → (2 ≤ n)%nat →
  mapM TradeRow.push_values [a] = Some rs → insert rs d = (Committed, d1) → ¬ in_table d1 b →
  ∃ evs s, run evs (start (DurableWriter.from_parts d (DiskWal.fresh []) n)) = Some s ∧
    acked s = [a; b] ∧ tasks s = [] ∧ failed s = [] ∧ DurableWriter.buffer (writer s) = [b] ∧
    DiskWal.total (DurableWriter.wal (writer s)) = [] ∧
    ¬ in_table (DurableWriter.db (writer s)) b.
Proof.
  intros Ha Hb Hn Hrs Hins Hnot.
  assert (models (TradeWal.open []) (DiskWal.fresh [])) as Hm0 by (by constructor).
  destruct (append_goes_through _ _ _ Hm0 Ha) as (o1 & wl1 & l1 & Hl1 & Hm1).
  destruct (sync_models _ _ Hm1) as (l2 & Hl2 & Hm2).
  destruct (append_goes_through _ _ _ Hm2 Hb) as (o2 & wl2 & l3 & Hl3 & Hm3).
  destruct (truncate_models _ _ Hm3) as (l4 & Hl4 & [_ Hfile Hbuf _ _]).
  assert ((n <=? 1)%nat = false) as Hroom by (by apply Nat.leb_gt).
  exists [CallStage a; Advance 0; Advance 0; CallFlush; Advance 0; Advance 0; Advance 0; CallStage b;
    Advance 1; Advance 1; Advance 0].
  exists (mk (DurableWriter.mk l4 [b] n d1) [] [a; b] []). split.
  - unfold start, DurableWriter.from_parts. log_call Hl1. cbn. rewrite Hroom. log_call Hl2. cbn.
    cbn in Hrs. rewrite Hrs. unfold DurableWriter.execute. cbn. rewrite Hins. log_call Hl3. cbn.
    rewrite Hroom. log_call Hl4. done.
  - split_and!; [done..| |exact Hnot]. unfold DiskWal.total, BufWriter.total. cbn [writer DurableWriter.wal].
    by rewrite Hfile, Hbuf, file_truncate.
Qed.
End race.

(** ** Witnesses *)

Section witnesses.
#[local] Existing Instance chrono_reference.
#[local] Existing Instance decimal_reference.
#[local] Existing Instance rows_reference.
#[local] Existing Instance rows_reference_spec.
Import WriterCalls.

(** Two overlapping calls of [stage]. *)
Definition two_stages : list event :=
  [CallStage StagedTrade.sample; CallStage other; Advance 0; Advance 1; Advance 1; Advance 0].
Definition idle_writer : DurableWriter.t :=
  DurableWriter.from_parts (empty_rows []) (DiskWal.fresh []) 5.

Lemma acknowledged_trade_located_witness :
  ∃ s m w', run two_stages (start idle_writer) = Some s ∧ acked s = [other; StagedTrade.sample] ∧
    DurableWriter.flush (writer s) = (Ok m, w') ∧ in_table (DurableWriter.db w') StagedTrade.sample.
Proof.
  assert ((λ s, (bool_decide (acked s = [other; StagedTrade.sample]), length (tasks s), length (failed s),
      is_ok (DurableWriter.flush (writer s)).1)) <$>
    run two_stages (start idle_writer) = Some (true, 0%nat, 0%nat, true)) as Ho
    by (vm_compute; reflexivity).
  destruct (run two_stages (start idle_writer)) as [s|] eqn:Hr; [|discriminate Ho].
  injection Ho as Hack%bool_decide_eq_true_1 Htasks Hfailed Hok.
  destruct (DurableWriter.flush (writer s)) as [[m|e] w'] eqn:Hf; [|discriminate Hok].
  exists s, m, w'. split; [reflexivity|]. split; [exact Hack|]. split; [exact Hf|].
  destruct (acknowledged_trade_located two_stages idle_writer s StagedTrade.sample Hr) as [_ Hin].
  - rewrite Hack. apply list_elem_of_further, list_elem_of_here.
  - exact (Hin (nil_length_inv _ Htasks) (nil_length_inv _ Hfailed) m w' Hf).
Defined.

Lemma flush_truncates_concurrent_stage_witness :
  ∃ evs s, run evs (start idle_writer) = Some s ∧ acked s = [StagedTrade.sample; other] ∧ tasks s = [] ∧
    DiskWal.total (DurableWriter.wal (writer s)) = [] ∧ ¬ in_table (DurableWriter.db (writer s)) other.
Proof.
  set (rs := default [] (mapM TradeRow.push_values [StagedTrade.sample])).
  set (d1 := (insert rs (empty_rows [])).2).
  assert (from_option (λ _, true) false (mapM TradeRow.push_values [StagedTrade.sample]) = true) as Hsome
    by (vm_compute; reflexivity).
  assert ((insert rs (empty_rows [])).1 = Committed) as Hins by (vm_compute; reflexivity).
  assert (match row_of other with
          | Some k => bool_decide (k ∈ rows d1 ∨ Exists (TradeRow.conflicts k) (rows d1))
          | None => false
          end = false) as Hother by (vm_compute; reflexivity).
  destruct (flush_truncates_concurrent_stage StagedTrade.sample other 5 (empty_rows []) d1 rs)
    as (evs & s & Hr & Ha & Ht & _ & _ & Hl & Hn).
  - apply Z.leb_le. vm_compute. reflexivity.
  - apply Z.leb_le. vm_compute. reflexivity.
  - lia.
  - unfold rs. destruct (mapM _ _); [reflexivity|discriminate Hsome].
  - rewrite <-Hins. apply surjective_pairing.
  - intros (k & Hk & Hin). rewrite Hk in Hother. apply bool_decide_eq_false_1 in Hother. exact (Hother Hin).
  - exists evs, s. split; [exact Hr|]. split; [exact Ha|]. split; [exact Ht|]. split; [exact Hl|exact Hn].
Defined.
End witnesses.
