(* ===== verification/Fanout.v ===== *)
(** * Fanout ([fanout/src/types.rs], [coalescer.rs], [publisher.rs]) and the
    reader's side of its keys ([api-server/src/snapshot_store.rs])

    [Coalescer] keeps the latest payload per key and publishes it on a flush;
    [KeySpec] is what one key sees of it. The sink is the log of the calls made
    to it: its errors are discarded by every caller. [Redis] is the part of the
    server that the two services use: keys that expire. *)

From S2P Require Import Prelude RustInt RustStr.

Module Kind.
Inductive t : Type :=
  | Quote
  | Book
  | Trade.

#[global] Instance t_eq_dec : EqDecision t.
Proof. solve_decision. Defined.
#[global] Instance t_countable : Countable t.
Proof.
  refine (inj_countable'
    (λ k, match k with Quote => 0%nat | Book => 1%nat | Trade => 2%nat end)
    (λ n, match n with 0%nat => Quote | 1%nat => Book | _ => Trade end) _).
  by intros [].
Defined.

Definition as_str (k : t) : bytes :=
  match k with Quote => bs "quote" | Book => bs "book" | Trade => bs "trade" end.
Definition display (k : t) : bytes := as_str k.
End Kind.

Module PublishKey.
Record t : Type := mk {
  kind : Kind.t;
  ticker : bytes;
}.

#[global] Instance t_eq_dec : EqDecision t.
Proof. solve_decision. Defined.
#[global] Instance t_countable : Countable t.
Proof.
  refine (inj_countable' (λ k, (kind k, ticker k)) (λ p, mk p.1 p.2) _). by intros [].
Defined.

(** The ticker as text, decoded lossily when it is not UTF-8. *)
Definition ticker_str (k : t) : bytes :=
  match from_utf8 (ticker k) with
  | Some s => s
  | None => from_utf8_lossy (ticker k)
  end.

Definition nats_subject (k : t) : bytes :=
  bs "market." ++ Kind.as_str (kind k) ++ bs "." ++ ticker_str k.
Definition redis_key (k : t) : bytes :=
  bs "market:" ++ Kind.as_str (kind k) ++ bs ":" ++ ticker_str k.
End PublishKey.

(** The reader of the snapshots. *)
Module SnapshotKind.
Inductive t : Type :=
  | Quote
  | Book
  | Trade.
Definition as_str (k : t) : bytes :=
  match k with Quote => bs "quote" | Book => bs "book" | Trade => bs "trade" end.
(** The kind of the daemon's side. *)
Definition kind (k : t) : Kind.t :=
  match k with Quote => Kind.Quote | Book => Kind.Book | Trade => Kind.Trade end.
End SnapshotKind.

(** Redis, as [SET], [SET .. EX] and [GET] are documented: a key has a value
    and, when it was set with a time to live, the moment from which it is gone.
    Times are in milliseconds, lifetimes in seconds; a lifetime Redis refuses is
    a write that fails. *)
Module Redis.
Record entry : Type := mk_entry {
  value : bytes;
  expires_at : option Z;
}.
Abbreviation t := (gmap bytes entry).
Definition empty : t := ∅.

Definition deadline (now : Z) (ttl : option Z) : option Z := (λ n, now + 1000 * n) <$> ttl.
Definition live (now : Z) (deadline : option Z) : bool :=
  match deadline with None => true | Some d => now <? d end.

Definition set (now : Z) (kv : bytes * bytes) (ttl : option Z) (r : t) : t :=
  <[kv.1 := mk_entry kv.2 (deadline now ttl)]> r.
(** The keys a read sees. *)
Definition contents (now : Z) (r : t) : gmap bytes bytes :=
  omap (λ e, if live now (expires_at e) then Some (value e) else None) r.
End Redis.

Module SnapshotStore.
Definition key (k : SnapshotKind.t) (ticker : bytes) : bytes :=
  bs "market:" ++ SnapshotKind.as_str k ++ bs ":" ++ ticker.

(** [get] and [get_batch] against the key-value contents of the server. *)
Definition get (k : SnapshotKind.t) (ticker : bytes) (redis : gmap bytes bytes) : option bytes :=
  redis !! key k ticker.
Definition get_batch (k : SnapshotKind.t) (tickers : list bytes) (redis : gmap bytes bytes)
    : list (option bytes) :=
  if bool_decide (tickers = []) then [] else (λ t, redis !! key k t) <$> tickers.
End SnapshotStore.

(** ** Production sink

    One publish is a NATS message and a Redis write, both always attempted;
    the outcomes of the two are inputs. *)

Module FanoutPublisher.
Inductive error : Type :=
  | Nats
  | NatsConnect
  | Redis
  | Config (msg : string).

(** The clients are third-party; the publisher's own state is the time to live
    of its snapshots. *)
Record t : Type := mk { snapshot_ttl_seconds : option Z }.

(** [redis_opens] is whether the URL makes a client: no connection is tried. *)
Definition connect (nats_connects redis_opens : bool) (ttl : option Z) : result error t :=
  if nats_connects then if redis_opens then Ok (mk ttl) else Err Redis else Err NatsConnect.

Record actions : Type := mk_actions {
  nats_message : bytes * bytes;
  redis_set : bytes * bytes;
  redis_ttl : option Z;
}.

Definition publish (ttl : option Z) (nats_ok redis_ok : bool) (key : PublishKey.t)
    (payload : bytes) : result error () * actions :=
  (if negb nats_ok then Err Nats else if negb redis_ok then Err Redis else Ok (),
   mk_actions (PublishKey.nats_subject key, payload) (PublishKey.redis_key key, payload) ttl).

(** The effect of the Redis write, at its time. *)
Definition apply_redis (redis_ok : bool) (now : Z) (a : actions) (redis : Redis.t) : Redis.t :=
  if redis_ok then Redis.set now (redis_set a) (redis_ttl a) redis else redis.
End FanoutPublisher.

(** The sink without servers: it records every call for good. *)
Module NoopSink.
Record t : Type := mk { calls : list (PublishKey.t * bytes) }.
Definition new : t := mk [].
Definition publish (key : PublishKey.t) (payload : bytes) (s : t) : t := mk (calls s ++ [(key, payload)]).
Definition take_calls (s : t) : list (PublishKey.t * bytes) * t := (calls s, new).
End NoopSink.

(** ** Coalescer *)

Module Coalescer.

(** Windows in milliseconds; [calls] is the sink. *)
Record t : Type := mk {
  calls : list (PublishKey.t * bytes);
  pending : gmap PublishKey.t bytes;
  quote_window : Z;
  book_window : Z;
  trade_window : Z;
}.

Definition new : t := mk [] ∅ 50 100 0.

Definition set_window (k : Kind.t) (window : Z) (c : t) : t :=
  match k with
  | Kind.Quote => mk (calls c) (pending c) window (book_window c) (trade_window c)
  | Kind.Book => mk (calls c) (pending c) (quote_window c) window (trade_window c)
  | Kind.Trade => mk (calls c) (pending c) (quote_window c) (book_window c) window
  end.

Definition window_for (k : Kind.t) (c : t) : Z :=
  match k with
  | Kind.Quote => quote_window c
  | Kind.Book => book_window c
  | Kind.Trade => trade_window c
  end.

Definition with_calls (l : list (PublishKey.t * bytes)) (c : t) : t :=
  mk l (pending c) (quote_window c) (book_window c) (trade_window c).
Definition with_pending (m : gmap PublishKey.t bytes) (c : t) : t :=
  mk (calls c) m (quote_window c) (book_window c) (trade_window c).

Definition submit (key : PublishKey.t) (payload : bytes) (c : t) : t :=
  if window_for (PublishKey.kind key) c =? 0 then with_calls (calls c ++ [(key, payload)]) c
  else with_pending (<[key := payload]> (pending c)) c.

Definition flush_once (c : t) : t :=
  with_calls (calls c ++ map_to_list (pending c)) (with_pending ∅ c).

Definition min_nonzero_window (c : t) : option Z :=
  foldl (λ o d, match o with None => Some d | Some m => Some (Z.min m d) end) None
    (filter (λ d, d ≠ 0) [quote_window c; book_window c; trade_window c]).
(** The period of the flush task. *)
Definition tick (c : t) : Z := default 50 (min_nonzero_window c).
End Coalescer.

(** ** What one key sees *)

Module CoalescerOp.
Inductive t : Type :=
  | Submit (key : PublishKey.t) (payload : bytes)
  | Flush.

Definition apply (op : t) (c : Coalescer.t) : Coalescer.t :=
  match op with
  | Submit key payload => Coalescer.submit key payload c
  | Flush => Coalescer.flush_once c
  end.
Definition apply_all (ops : list t) (c : Coalescer.t) : Coalescer.t :=
  foldl (λ c op, apply op c) c ops.
End CoalescerOp.

Module KeySpec.
(** The payload waiting for the next flush and the payloads published. *)
Definition step (immediate : bool) (key : PublishKey.t) (op : CoalescerOp.t)
    (s : option bytes * list bytes) : option bytes * list bytes :=
  match op with
  | CoalescerOp.Submit k v =>
      if decide (k = key) then
        if immediate then (s.1, s.2 ++ [v]) else (Some v, s.2)
      else s
  | CoalescerOp.Flush => (None, s.2 ++ option_list s.1)
  end.
Definition run (immediate : bool) (key : PublishKey.t) (ops : list CoalescerOp.t)
    : option bytes * list bytes :=
  foldl (λ s op, step immediate key op s) (None, []) ops.
(** The payloads submitted for the key. *)
Definition submitted (key : PublishKey.t) (ops : list CoalescerOp.t) : list bytes :=
  omap (λ op, match op with
              | CoalescerOp.Submit k v => if decide (k = key) then Some v else None
              | CoalescerOp.Flush => None
              end) ops.
End KeySpec.

Section correctness.
Import Coalescer.

(** The payloads a list of sink calls has for a key. *)
Definition for_key (key : PublishKey.t) (l : list (PublishKey.t * bytes)) : list bytes :=
  snd <$> filter (λ p, p.1 = key) l.

Lemma for_key_app key l1 l2 : for_key key (l1 ++ l2) = for_key key l1 ++ for_key key l2.
Proof. unfold for_key. by rewrite filter_app, fmap_app. Qed.

(** A flush has one call per pending key, whatever the order. *)
Lemma for_key_map_to_list key (m : gmap PublishKey.t bytes) :
  for_key key (map_to_list m) = option_list (m !! key).
Proof.
  unfold for_key. induction m as [|k v m Hk IH] using map_ind.
  - by rewrite map_to_list_empty, lookup_empty.
  - pose proof (map_to_list_insert m k v Hk) as Hp.
    assert (∀ l1 l2 : list (PublishKey.t * bytes), l1 ≡ₚ l2 → 
      snd <$> filter (λ p, p.1 = key) l1 ≡ₚ snd <$> filter (λ p, p.1 = key) l2) as Hperm.
    { intros l1 l2 Hl. by rewrite Hl. }
    apply Hperm in Hp. rewrite filter_cons in Hp. cbn [fst] in Hp.
    case_decide as Hkey.
    + subst k. rewrite lookup_insert_eq. rewrite fmap_cons, IH, Hk in Hp.
      by apply Permutation_singleton_r in Hp.
    + rewrite lookup_insert_ne by done. rewrite IH in Hp.
      destruct (m !! key) as [x|]; simpl in *.
      * by apply Permutation_singleton_r in Hp.
      * by apply Permutation_nil_r in Hp.
Qed.

Definition immediate (key : PublishKey.t) (c : t) : bool :=
  window_for (PublishKey.kind key) c =? 0.

Lemma window_apply op k c : window_for k (CoalescerOp.apply op c) = window_for k c.
Proof.
  destruct op as [key v|]; simpl; unfold submit, flush_once.
  - by destruct (window_for _ c =? 0), k.
  - by destruct k.
Qed.

Lemma apply_key op key c p out :
  pending c !! key = p → for_key key (calls c) = out →
  (immediate key c = true → p = None) →
  let s := KeySpec.step (immediate key c) key op (p, out) in
  pending (CoalescerOp.apply op c) !! key = s.1 ∧
  for_key key (calls (CoalescerOp.apply op c)) = s.2 ∧
  (immediate key c = true → s.1 = None).
Proof.
  intros Hp Ho Hi. destruct op as [k v|]; cbn [CoalescerOp.apply KeySpec.step].
  - unfold submit. case_decide as Hk.
    + subst k. fold (immediate key c). destruct (immediate key c) eqn:Him;
        cbn [with_calls with_pending calls pending fst snd].
      * rewrite for_key_app, Ho. unfold for_key at 1. rewrite filter_cons_True by done.
        split_and!; [done|done|]. intros _. by apply Hi.
      * rewrite lookup_insert_eq. done.
    + destruct (window_for (PublishKey.kind k) c =? 0);
        cbn [with_calls with_pending calls pending fst snd].
      * rewrite for_key_app, Ho. unfold for_key at 1. rewrite filter_cons_False by done.
        split_and!; [done|apply app_nil_r|done].
      * by rewrite lookup_insert_ne.
  - unfold flush_once. cbn [with_calls with_pending calls pending fst snd]. rewrite lookup_empty, for_key_app, for_key_map_to_list, Hp, Ho. done.
Qed.

Lemma apply_all_key ops key c :
  pending c = ∅ → calls c = [] →
  pending (CoalescerOp.apply_all ops c) !! key = (KeySpec.run (immediate key c) key ops).1 ∧
  for_key key (calls (CoalescerOp.apply_all ops c)) = (KeySpec.run (immediate key c) key ops).2 ∧
  (immediate key c = true → (KeySpec.run (immediate key c) key ops).1 = None) ∧
  immediate key (CoalescerOp.apply_all ops c) = immediate key c.
Proof.
  intros Hp Hc. unfold CoalescerOp.apply_all, KeySpec.run.
  induction ops as [|op ops IH] using rev_ind; cbn [foldl].
  - rewrite Hp, Hc, lookup_empty. done.
  - rewrite !foldl_app. cbn [foldl]. destruct IH as (IHp & IHo & IHi & IHw).
    set (c' := foldl _ c ops) in *. set (s := foldl _ (None, []) ops) in *.
    pose proof (apply_key op key c' s.1 s.2 IHp IHo) as Ha. rewrite IHw in Ha.
    destruct s as [p out]. cbn [fst snd] in Ha. destruct (Ha IHi) as (H1 & H2 & H3).
    split_and!; [done..|]. unfold immediate in *. by rewrite window_apply, IHw.
Qed.

Lemma run_flush_last key ops :
  (KeySpec.run false key (ops ++ [CoalescerOp.Flush])).1 = None ∧
  last (KeySpec.run false key (ops ++ [CoalescerOp.Flush])).2 =
    last (KeySpec.submitted key ops) ∧
  KeySpec.run true key ops = (None, KeySpec.submitted key ops).
Proof.
  unfold KeySpec.run. rewrite foldl_app. cbn [foldl KeySpec.step fst snd].
  split; [done|]. split.
  - set (s := foldl _ (None, []) ops).
    assert (match s.1 with Some v => Some v | None => last s.2 end =
            last (KeySpec.submitted key ops)) as Hs.
    { subst s. unfold KeySpec.submitted.
      induction ops as [|op ops IH] using rev_ind; [done|].
      rewrite foldl_app, omap_app, last_app. cbn [foldl].
      set (s := foldl _ (None, []) ops) in *.
      destruct op as [k v|]; cbn [KeySpec.step omap list_omap].
      - case_decide; [done|]. apply IH.
      - cbn [fst snd last]. rewrite last_app. clearbody s. destruct s as [[v|] out]; exact IH. }
    rewrite last_app, <-Hs. by destruct s.1.
  - unfold KeySpec.submitted. induction ops as [|op ops IH] using rev_ind; [done|].
    rewrite foldl_app, omap_app, IH. cbn [foldl KeySpec.step omap list_omap fst snd].
    destruct op as [k v|]; cbn [KeySpec.step omap list_omap fst snd option_list].
    + case_decide; by rewrite ?app_nil_r.
    + done.
Qed.

(** Coalescing is last-write-wins per key. For a coalescer with any
    windows, what the sink receives for a key depends only on the operations
    of that key and the flushes: with a zero window, every payload, in
    order; otherwise one payload per flush interval with a submission, the
    last one submitted in it. After a final flush nothing is pending and the
    last payload published is the last one submitted. *)
Theorem coalescer_last_write_wins (c : t) (key : PublishKey.t) (ops : list CoalescerOp.t) :
  pending c = ∅ → calls c = [] →
  let sent ops := for_key key (calls (CoalescerOp.apply_all ops c)) in
  sent ops = (KeySpec.run (immediate key c) key ops).2 ∧
  (immediate key c = true → sent ops = KeySpec.submitted key ops) ∧
  (immediate key c = false →
   last (sent (ops ++ [CoalescerOp.Flush])) = last (KeySpec.submitted key ops)) ∧
  pending (CoalescerOp.apply_all (ops ++ [CoalescerOp.Flush]) c) !! key = None.
Proof.
  intros Hp Hc sent. destruct (run_flush_last key ops) as (Hn & Hl & Hi).
  destruct (apply_all_key ops key c Hp Hc) as (_ & H2 & _ & _).
  destruct (apply_all_key (ops ++ [CoalescerOp.Flush]) key c Hp Hc) as (_ & H4 & _ & _).
  split_and!.
  - done.
  - intros Him. unfold sent. rewrite H2, Him, Hi. done.
  - intros Him. unfold sent. rewrite H4, Him. done.
  - unfold CoalescerOp.apply_all. rewrite foldl_app. apply lookup_empty.
Qed.

(** The flush task ticks at least as often as every window asks. *)
Lemma tick_le_window k c :
  0 ≤ quote_window c → 0 ≤ book_window c → 0 ≤ trade_window c →
  window_for k c ≠ 0 → tick c ≤ window_for k c.
Proof.
  intros H1 H2 H3. unfold tick, min_nonzero_window.
  rewrite !filter_cons, filter_nil.
  destruct k; cbn [window_for]; intros Hk; repeat case_decide; try done; cbn; lia.
Qed.

(** *** Keys *)

Lemma ticker_str_valid k : utf8_valid (PublishKey.ticker k) = true →
  PublishKey.ticker_str k = PublishKey.ticker k.
Proof. intros Hu. unfold PublishKey.ticker_str, from_utf8. by rewrite Hu. Qed.

(** A key determines its kind and ticker. *)
Lemma key_parts_inj sep k1 k2 :
  sep ∈ [bs ":"; bs "."] →
  utf8_valid (PublishKey.ticker k1) = true → utf8_valid (PublishKey.ticker k2) = true →
  Kind.as_str (PublishKey.kind k1) ++ sep ++ PublishKey.ticker_str k1 =
  Kind.as_str (PublishKey.kind k2) ++ sep ++ PublishKey.ticker_str k2 ↔ k1 = k2.
Proof.
  intros Hsep H1 H2. rewrite !ticker_str_valid by done.
  split; [|by intros ->]. destruct k1 as [n1 t1], k2 as [n2 t2]. cbn.
  apply elem_of_cons in Hsep as [->|Hsep%list_elem_of_singleton]; [|subst sep];
    destruct n1, n2; cbn; intros He; simplify_eq; done.
Qed.

Lemma redis_key_inj k1 k2 :
  utf8_valid (PublishKey.ticker k1) = true → utf8_valid (PublishKey.ticker k2) = true →
  PublishKey.redis_key k1 = PublishKey.redis_key k2 ↔ k1 = k2.
Proof.
  intros H1 H2. unfold PublishKey.redis_key.
  rewrite <-(key_parts_inj (bs ":") k1 k2) by (done || set_solver).
  split; [by intros ?%app_inv_head|by intros ->].
Qed.
Lemma nats_subject_inj k1 k2 :
  utf8_valid (PublishKey.ticker k1) = true → utf8_valid (PublishKey.ticker k2) = true →
  PublishKey.nats_subject k1 = PublishKey.nats_subject k2 ↔ k1 = k2.
Proof.
  intros H1 H2. unfold PublishKey.nats_subject.
  rewrite <-(key_parts_inj (bs ".") k1 k2) by (done || set_solver).
  split; [by intros ?%app_inv_head|by intros ->].
Qed.

Lemma contents_set_lookup now set_at kv ttl r key :
  Redis.contents now (Redis.set set_at kv ttl r) !! key =
  if decide (kv.1 = key) then
    if Redis.live now (Redis.deadline set_at ttl) then Some kv.2 else None
  else Redis.contents now r !! key.
Proof.
  unfold Redis.contents, Redis.set. rewrite lookup_omap. case_decide as Hk.
  - subst key. by rewrite lookup_insert_eq.
  - by rewrite lookup_insert_ne, lookup_omap by done.
Qed.

(** Reading a snapshot after one publication. *)
Lemma get_after_publish k ttl nats_ok payload redis set_at now sk ticker :
  utf8_valid (PublishKey.ticker k) = true → utf8_valid ticker = true →
  SnapshotStore.get sk ticker (Redis.contents now (FanoutPublisher.apply_redis true set_at
    (FanoutPublisher.publish ttl nats_ok true k payload).2 redis)) =
  if decide (k = PublishKey.mk (SnapshotKind.kind sk) ticker)
  then if Redis.live now (Redis.deadline set_at ttl) then Some payload else None
  else SnapshotStore.get sk ticker (Redis.contents now redis).
Proof.
  intros H1 H2. unfold SnapshotStore.get, FanoutPublisher.apply_redis, FanoutPublisher.publish.
  cbn [fst snd FanoutPublisher.redis_set FanoutPublisher.redis_ttl].
  assert (SnapshotStore.key sk ticker =
    PublishKey.redis_key (PublishKey.mk (SnapshotKind.kind sk) ticker)) as ->.
  { unfold SnapshotStore.key, PublishKey.redis_key. rewrite ticker_str_valid by done.
    by destruct sk. }
  rewrite contents_set_lookup. cbn [fst snd].
  destruct (decide (k = PublishKey.mk (SnapshotKind.kind sk) ticker)) as [->|Hk].
  - by rewrite decide_True.
  - rewrite decide_False; [done|]. intros He. apply Hk. by apply redis_key_inj in He.
Qed.

(** Keys are unambiguous and the two services agree on them. Over
    tickers that are valid text, different (kind, ticker) pairs have
    different NATS subjects and different Redis keys; the key the api-server
    reads for a kind and ticker is the key the daemon writes, so a snapshot
    written for a pair is the one read for it until its time to live is over,
    and no other pair's write changes it. *)
Theorem keys_agree (k1 k2 : PublishKey.t) (sk : SnapshotKind.t) (ttl : option Z)
    (payload : bytes) (nats_ok : bool) (redis : Redis.t) (set_at now : Z) :
  utf8_valid (PublishKey.ticker k1) = true → utf8_valid (PublishKey.ticker k2) = true →
  (PublishKey.redis_key k1 = PublishKey.redis_key k2 ↔ k1 = k2) ∧
  (PublishKey.nats_subject k1 = PublishKey.nats_subject k2 ↔ k1 = k2) ∧
  let redis' := FanoutPublisher.apply_redis true set_at
                  (FanoutPublisher.publish ttl nats_ok true k1 payload).2 redis in
  SnapshotStore.get sk (PublishKey.ticker k2) (Redis.contents now redis') =
    if decide (k1 = PublishKey.mk (SnapshotKind.kind sk) (PublishKey.ticker k2))
    then if Redis.live now (Redis.deadline set_at ttl) then Some payload else None
    else SnapshotStore.get sk (PublishKey.ticker k2) (Redis.contents now redis).
Proof.
  intros H1 H2. split_and!; [by apply redis_key_inj|by apply nats_subject_inj|].
  by apply get_after_publish.
Qed.
End correctness.

Definition quote_key (ticker : string) : PublishKey.t := PublishKey.mk Kind.Quote (bs ticker).

Lemma coalescer_last_write_wins_witness :
  for_key (quote_key "PETR4") (Coalescer.calls (CoalescerOp.apply_all
    [CoalescerOp.Submit (quote_key "PETR4") (bs "1"); CoalescerOp.Submit (quote_key "VALE3") (bs "2");
     CoalescerOp.Submit (quote_key "PETR4") (bs "3"); CoalescerOp.Flush] Coalescer.new)) = [bs "3"].
Proof.
  destruct (coalescer_last_write_wins Coalescer.new (quote_key "PETR4")
    [CoalescerOp.Submit (quote_key "PETR4") (bs "1"); CoalescerOp.Submit (quote_key "VALE3") (bs "2");
     CoalescerOp.Submit (quote_key "PETR4") (bs "3"); CoalescerOp.Flush])
    as (Hs & _); [reflexivity|reflexivity|].
  rewrite Hs. vm_compute. reflexivity.
Defined.

Lemma keys_agree_witness :
  let redis := FanoutPublisher.apply_redis true 1000
    (FanoutPublisher.publish (Some 60) false true (quote_key "PETR4") (bs "payload")).2 Redis.empty in
  SnapshotStore.get SnapshotKind.Quote (bs "PETR4") (Redis.contents 60999 redis) = Some (bs "payload") ∧
  SnapshotStore.get SnapshotKind.Quote (bs "PETR4") (Redis.contents 61000 redis) = None.
Proof.
  pose proof (λ now, keys_agree (quote_key "PETR4") (quote_key "PETR4") SnapshotKind.Quote (Some 60)
    (bs "payload") false Redis.empty 1000 now eq_refl eq_refl) as Hk.
  split; [destruct (Hk 60999) as (_ & _ & Hg)|destruct (Hk 61000) as (_ & _ & Hg)]; exact Hg.
Defined.
