(* ===== verification/Sinks.v ===== *)
(** * The coalescer over any sink ([fanout/src/publisher.rs], [coalescer.rs])

    [FanoutSink] is the trait, and [SinkCoalescer] the coalescer as the source
    has it, over a sink it knows nothing about. [Fanout.v] has it over the log of
    the calls; [coalescer_any_sink] says that this is every sink's view of it. The
    two sinks of the source are instances: [NoopSink], and the publisher with the
    servers behind it. *)

From S2P Require Import Prelude RustInt RustStr Fanout.

(** [publish], with the sink it leaves behind. *)
Class FanoutSink (S : Type) : Type :=
  publish : PublishKey.t → bytes → S → result FanoutPublisher.error () * S.

#[export] Instance noop_sink : FanoutSink NoopSink.t :=
  λ key payload s, (Ok (), NoopSink.publish key payload s).

(** How a publish goes: the time of its Redis write, and whether NATS and Redis
    take their halves. *)
Module Answer.
Record t : Type := mk {
  time : Z;
  nats_ok : bool;
  redis_ok : bool;
}.
End Answer.

(** The servers of the publisher: the messages NATS has taken, the keys of Redis,
    and how each of the publishes to come will go. *)
Module Servers.
Record t : Type := mk {
  publisher : FanoutPublisher.t;
  nats : list (bytes * bytes);
  redis : Redis.t;
  answers : nat → Answer.t;
}.
Definition start (p : FanoutPublisher.t) (answers : nat → Answer.t) : t := mk p [] Redis.empty answers.

Definition publish (key : PublishKey.t) (payload : bytes) (s : t)
    : result FanoutPublisher.error () * t :=
  let a := answers s 0%nat in
  let '(r, did) := FanoutPublisher.publish (FanoutPublisher.snapshot_ttl_seconds (publisher s))
                     (Answer.nats_ok a) (Answer.redis_ok a) key payload in
  (r, mk (publisher s)
        (if Answer.nats_ok a then nats s ++ [FanoutPublisher.nats_message did] else nats s)
        (FanoutPublisher.apply_redis (Answer.redis_ok a) (Answer.time a) did (redis s))
        (λ i, answers s (S i))).
End Servers.
#[export] Instance servers_sink : FanoutSink Servers.t := Servers.publish.

Module SinkCoalescer.
Section coalescer.
Context {S : Type} `{FanoutSink S}.

Record t : Type := mk {
  sink : S;
  pending : gmap PublishKey.t bytes;
  quote_window : Z;
  book_window : Z;
  trade_window : Z;
}.
Definition new (s : S) : t := mk s ∅ 50 100 0.
Definition with_sink (s : S) (c : t) : t :=
  mk s (pending c) (quote_window c) (book_window c) (trade_window c).
Definition with_pending (m : gmap PublishKey.t bytes) (c : t) : t :=
  mk (sink c) m (quote_window c) (book_window c) (trade_window c).
Definition set_window (k : Kind.t) (window : Z) (c : t) : t :=
  match k with
  | Kind.Quote => mk (sink c) (pending c) window (book_window c) (trade_window c)
  | Kind.Book => mk (sink c) (pending c) (quote_window c) window (trade_window c)
  | Kind.Trade => mk (sink c) (pending c) (quote_window c) (book_window c) window
  end.
Definition window_for (k : Kind.t) (c : t) : Z :=
  match k with
  | Kind.Quote => quote_window c
  | Kind.Book => book_window c
  | Kind.Trade => trade_window c
  end.

(** [let _ = sink.publish(..)]. *)
Definition deliver (key : PublishKey.t) (payload : bytes) (c : t) : t :=
  with_sink (publish key payload (sink c)).2 c.
Definition submit (key : PublishKey.t) (payload : bytes) (c : t) : t :=
  if window_for (PublishKey.kind key) c =? 0 then deliver key payload c
  else with_pending (<[key := payload]> (pending c)) c.
Definition flush_once (c : t) : t :=
  foldl (λ c kv, deliver kv.1 kv.2 c) (with_pending ∅ c) (map_to_list (pending c)).

Definition apply (op : CoalescerOp.t) (c : t) : t :=
  match op with
  | CoalescerOp.Submit key payload => submit key payload c
  | CoalescerOp.Flush => flush_once c
  end.
Definition apply_all (ops : list CoalescerOp.t) (c : t) : t := foldl (λ c op, apply op c) c ops.

(** The coalescer with another sink. *)
Definition over (s : S) (l : Coalescer.t) : t :=
  mk s (Coalescer.pending l) (Coalescer.quote_window l) (Coalescer.book_window l) (Coalescer.trade_window l).

(** A sink behind some calls. *)
Definition after (calls : list (PublishKey.t * bytes)) (s : S) : S :=
  foldl (λ s kv, (publish kv.1 kv.2 s).2) s calls.
End coalescer.
#[global] Arguments t S : clear implicits.
End SinkCoalescer.

Section any_sink.
Context {S : Type} `{FanoutSink S}.
Import SinkCoalescer.
Implicit Types (c : t S) (l : Coalescer.t).

(** The same coalescer, over the sink and over the log of the calls. *)
Record same (s0 : S) (l : Coalescer.t) (c : t S) : Prop := {
  same_sink : sink c = after (Coalescer.calls l) s0;
  same_pending : pending c = Coalescer.pending l;
  same_windows k : window_for k c = Coalescer.window_for k l;
}.

Lemma deliver_same s0 l c key payload :
  same s0 l c → same s0 (Coalescer.with_calls (Coalescer.calls l ++ [(key, payload)]) l) (deliver key payload c).
Proof.
  intros [Hs Hp Hw]. split; [|done|by intros []; [apply (Hw Kind.Quote)|apply (Hw Kind.Book)|apply (Hw Kind.Trade)]].
  unfold after. cbn [Coalescer.with_calls Coalescer.calls]. rewrite foldl_app. fold (after (Coalescer.calls l) s0).
  by rewrite <-Hs.
Qed.

Lemma with_pending_same s0 l c m :
  same s0 l c → same s0 (Coalescer.with_pending m l) (with_pending m c).
Proof.
  intros [Hs _ Hw].
  split; [done|done|by intros []; [apply (Hw Kind.Quote)|apply (Hw Kind.Book)|apply (Hw Kind.Trade)]].
Qed.

Lemma deliver_all_same s0 calls l c :
  same s0 l c →
  same s0 (Coalescer.with_calls (Coalescer.calls l ++ calls) l) (foldl (λ c kv, deliver kv.1 kv.2 c) c calls).
Proof.
  revert l c. induction calls as [|[k v] calls IH]; intros l c Hs; cbn [foldl fst snd].
  - rewrite app_nil_r. by destruct l.
  - apply (deliver_same _ _ _ k v), IH in Hs.
    cbn [Coalescer.with_calls Coalescer.calls] in Hs. by rewrite <-(assoc_L (++)) in Hs.
Qed.

Lemma apply_same s0 op l c : same s0 l c → same s0 (CoalescerOp.apply op l) (apply op c).
Proof.
  intros Hs. destruct op as [key payload|]; cbn [CoalescerOp.apply apply].
  - unfold Coalescer.submit, submit. rewrite (same_windows _ _ _ Hs).
    destruct (_ =? 0); [by apply deliver_same|]. rewrite (same_pending _ _ _ Hs). by apply with_pending_same.
  - unfold Coalescer.flush_once, flush_once. rewrite (same_pending _ _ _ Hs).
    by apply (deliver_all_same s0 (map_to_list (Coalescer.pending l)) (Coalescer.with_pending ∅ l)), with_pending_same.
Qed.

Lemma apply_all_same s0 ops l c :
  same s0 l c → same s0 (CoalescerOp.apply_all ops l) (apply_all ops c).
Proof.
  unfold CoalescerOp.apply_all, apply_all. revert l c. induction ops as [|op ops IH]; intros l c Hs; [done|].
  by apply IH, apply_same.
Qed.

Lemma over_same (s0 : S) l : Coalescer.calls l = [] → same s0 l (over s0 l).
Proof. intros Hl. split; [by rewrite Hl|done|by intros []]. Qed.

(** The coalescer does not look at its sink. Over every sink, whatever its
    publishes answer and whatever the windows, the same submissions and flushes
    leave the same payloads pending and make the same calls in the same order as
    over the log of [Fanout.v]: the sink is what these calls, one after the other,
    make of it. *)
Theorem coalescer_any_sink (s0 : S) (l : Coalescer.t) (ops : list CoalescerOp.t) :
  Coalescer.calls l = [] →
  let log := CoalescerOp.apply_all ops l in
  let c := apply_all ops (over s0 l) in
  sink c = after (Coalescer.calls log) s0 ∧ pending c = Coalescer.pending log.
Proof.
  intros Hl log c. destruct (apply_all_same s0 ops _ _ (over_same s0 l Hl)) as [Hs Hp _]. by split.
Qed.
End any_sink.

(** ** The sinks of the source *)

Import SinkCoalescer.

(** What is delivered to NATS and to Redis: the calls whose half went through,
    with the times of their writes. *)
Fixpoint through (half : Answer.t → bool) (calls : list (PublishKey.t * bytes))
    (answers : nat → Answer.t) : list (PublishKey.t * bytes * Z) :=
  match calls with
  | [] => []
  | call :: calls' =>
      (if half (answers 0%nat) then [(call, Answer.time (answers 0%nat))] else []) ++
      through half calls' (λ i, answers (S i))
  end.

Lemma through_all half calls answers :
  (∀ i, (i < length calls)%nat → half (answers i) = true) → (through half calls answers).*1 = calls.
Proof.
  revert answers. induction calls as [|call calls IH]; intros answers Ha; [done|].
  cbn [through]. rewrite Ha by (cbn; lia). cbn. f_equal. apply IH. intros i Hi. apply Ha. cbn. lia.
Qed.

Lemma through_sublist half calls answers : sublist (through half calls answers).*1 calls.
Proof.
  revert answers. induction calls as [|call calls IH]; intros answers; [done|]. cbn [through].
  destruct (half _); cbn; by constructor.
Qed.

Lemma through_times half calls answers c :
  c ∈ through half calls answers → ∃ i, (i < length calls)%nat ∧ c.2 = Answer.time (answers i).
Proof.
  revert answers. induction calls as [|call calls IH]; intros answers; cbn [through length];
    [by intros ?%elem_of_nil|].
  intros [Hc|(i & Hi & Ht)%IH]%elem_of_app; [|exists (S i); split; [lia|done]]. exists 0%nat. split; [lia|].
  destruct (half _); [|by apply elem_of_nil in Hc]. by apply list_elem_of_singleton in Hc as ->.
Qed.

Definition as_message (call : PublishKey.t * bytes * Z) : bytes * bytes :=
  (PublishKey.nats_subject call.1.1, call.1.2).
Definition set_key (ttl : option Z) (redis : Redis.t) (call : PublishKey.t * bytes * Z) : Redis.t :=
  Redis.set call.2 (PublishKey.redis_key call.1.1, call.1.2) ttl redis.

Lemma servers_after calls s :
  Servers.nats (after calls s) =
    Servers.nats s ++ (as_message <$> through Answer.nats_ok calls (Servers.answers s)) ∧
  Servers.redis (after calls s) =
    foldl (set_key (FanoutPublisher.snapshot_ttl_seconds (Servers.publisher s))) (Servers.redis s)
      (through Answer.redis_ok calls (Servers.answers s)).
Proof.
  revert s. induction calls as [|[k v] calls IH]; intros s; [by rewrite app_nil_r|].
  unfold after in *. cbn [foldl fst snd through]. destruct (IH (publish k v s).2) as [-> ->].
  unfold publish, servers_sink, Servers.publish. destruct s as [p n r answers].
  cbn [Servers.answers Servers.publisher Servers.nats Servers.redis].
  destruct (answers 0%nat) as [now [] []]; cbn; rewrite <-?(assoc_L (++)); done.
Qed.

(** The recording sink has the log. *)
Lemma noop_after calls (s : NoopSink.t) : NoopSink.calls (after calls s) = NoopSink.calls s ++ calls.
Proof.
  revert s. induction calls as [|[k v] calls IH]; intros s; [by rewrite app_nil_r|].
  unfold after in *. cbn [foldl fst snd]. rewrite IH. cbn. by rewrite <-(assoc_L (++)).
Qed.

Lemma coalescer_any_sink_witness :
  let ops := [CoalescerOp.Submit (quote_key "PETR4") (bs "1"); CoalescerOp.Submit (quote_key "PETR4") (bs "3");
              CoalescerOp.Flush] in
  NoopSink.calls (sink (apply_all ops (over NoopSink.new Coalescer.new))) = [(quote_key "PETR4", bs "3")].
Proof.
  intros ops. destruct (coalescer_any_sink NoopSink.new Coalescer.new ops) as [-> _]; [reflexivity|].
  rewrite noop_after. vm_compute. reflexivity.
Defined.
