(* ===== verification/Coalescing.v ===== *)
(** * The coalescer at its await points ([fanout/src/coalescer.rs])

    [submit] and [flush_once] await every publish, with the mutex released:
    a flush takes the pending payloads in one step and publishes them one by
    one, while others submit and flush. [Fanout.v] has each of the two as one
    step; here they are interleaved. The flush task and the flush of the
    daemon's shutdown are two flushes that can overlap. *)

From S2P Require Import Prelude RustInt RustStr Fanout.

Module CoalescerStep.
Import Coalescer.

(** Each running call with what it has still to publish. *)
Record state : Type := mk_state {
  shared : Coalescer.t;
  in_flight : list (list (PublishKey.t * bytes));
}.

(** A submission up to its publish, a flush up to its first one, and a publish
    by the [i]-th call of the [j]-th of its payloads: the order of a hash map
    is any. *)
Inductive event : Type :=
  | Submit (key : PublishKey.t) (payload : bytes)
  | TakePending
  | Publish (i j : nat).

Definition step (ev : event) (s : state) : option state :=
  match ev with
  | Submit key payload =>
      if window_for (PublishKey.kind key) (shared s) =? 0
      then Some (mk_state (shared s) (in_flight s ++ [[(key, payload)]]))
      else Some (mk_state (with_pending (<[key := payload]> (pending (shared s))) (shared s)) (in_flight s))
  | TakePending =>
      Some (mk_state (with_pending ∅ (shared s)) (in_flight s ++ [map_to_list (pending (shared s))]))
  | Publish i j =>
      batch ← in_flight s !! i;
      call ← batch !! j;
      Some (mk_state (with_calls (calls (shared s) ++ [call]) (shared s))
              (<[i := delete j batch]> (in_flight s)))
  end.

Fixpoint run (evs : list event) (s : state) : option state :=
  match evs with
  | [] => Some s
  | ev :: evs' => s' ← step ev s; run evs' s'
  end.

Definition start (c : Coalescer.t) : state := mk_state c [].

(** The operations of the coalescer that a schedule performs. *)
Definition operation (ev : event) : option CoalescerOp.t :=
  match ev with
  | Submit key payload => Some (CoalescerOp.Submit key payload)
  | TakePending => Some CoalescerOp.Flush
  | Publish _ _ => None
  end.
Definition operations (evs : list event) : list CoalescerOp.t := omap operation evs.

(** The payloads on their way for a key. *)
Definition waiting (key : PublishKey.t) (s : state) : list bytes := for_key key (concat (in_flight s)).

(** No flush, and no immediate publish for the key, begins while a payload for
    the key is on its way. *)
Definition begins_alone (key : PublishKey.t) (ev : event) (s : state) : Prop :=
  match ev with
  | Submit k _ => k = key → immediate key (shared s) = true → waiting key s = []
  | TakePending => waiting key s = []
  | Publish _ _ => True
  end.
Fixpoint one_at_a_time (key : PublishKey.t) (evs : list event) (s : state) : Prop :=
  match evs with
  | [] => True
  | ev :: evs' =>
      begins_alone key ev s ∧
      match step ev s with Some s' => one_at_a_time key evs' s' | None => True end
  end.
End CoalescerStep.

(** ** What a step does to one key *)

Section interleaving.
Import Coalescer CoalescerStep.

Lemma for_key_one key c : for_key key [c] = if decide (c.1 = key) then [c.2] else [].
Proof. unfold for_key. rewrite filter_cons. by case_decide. Qed.

#[local] Instance for_key_proper key : Proper ((≡ₚ) ==> (≡ₚ)) (for_key key).
Proof. intros l1 l2 Hl. unfold for_key. by rewrite Hl. Qed.

Lemma concat_insert_delete {A} (ls : list (list A)) i j l x :
  ls !! i = Some l → l !! j = Some x → concat ls ≡ₚ x :: concat (<[i := delete j l]> ls).
Proof.
  intros Hi Hj. pose proof (delete_Permutation _ _ _ Hj) as Hl.
  apply list_elem_of_split_length in Hi as (l1 & l2 & -> & ->).
  rewrite insert_app_r_alt, Nat.sub_diag by lia. cbn. rewrite !concat_app. cbn.
  set (d := delete j l) in *. rewrite Hl. symmetry. apply Permutation_middle.
Qed.

Lemma immediate_step key ev s s' :
  step ev s = Some s' → immediate key (shared s') = immediate key (shared s).
Proof.
  unfold immediate. destruct ev as [k v| |i j]; cbn [step].
  - case_match; intros [= <-]; [done|]. by destruct (PublishKey.kind key).
  - intros [= <-]. by destruct (PublishKey.kind key).
  - intros (b & _ & (c & _ & [= <-])%bind_Some)%bind_Some. by destruct (PublishKey.kind key).
Qed.

Lemma waiting_app key c fl l :
  waiting key (mk_state c (fl ++ [l])) = for_key key (concat fl) ++ for_key key l.
Proof. unfold waiting. cbn [in_flight]. rewrite concat_app, for_key_app. cbn [concat]. by rewrite app_nil_r. Qed.

(** The payloads for a key that a step sets on their way. *)
Definition taken (key : PublishKey.t) (ev : event) (s : state) : list bytes :=
  match ev with
  | Submit k v => if decide (k = key ∧ immediate key (shared s) = true) then [v] else []
  | TakePending => option_list (pending (shared s) !! key)
  | Publish _ _ => []
  end.

(** What a step publishes for a key was on its way; the rest still is. *)
Lemma step_moves key ev s s' :
  step ev s = Some s' →
  ∃ e, for_key key (calls (shared s')) = for_key key (calls (shared s)) ++ e ∧
    e ++ waiting key s' ≡ₚ waiting key s ++ taken key ev s.
Proof.
  destruct s as [c fl]. destruct ev as [k v| |i j]; cbn [step shared in_flight].
  - unfold taken, immediate. cbn [shared]. destruct (_ =? 0) eqn:Hz; intros [= <-]; exists [].
    + rewrite waiting_app, for_key_one, app_nil_r. cbn [fst snd app shared].
      destruct (decide (k = key)) as [->|Hk].
      * rewrite decide_True by done. done.
      * rewrite decide_False by (by intros [? _]). done.
    + rewrite decide_False by (intros [-> Hi]; congruence). cbn. by rewrite !app_nil_r.
  - intros [= <-]. exists []. rewrite waiting_app, for_key_map_to_list, app_nil_r. done.
  - intros (b & Hb & (call & Hc & [= <-])%bind_Some)%bind_Some. exists (for_key key [call]).
    cbn [shared with_calls calls taken]. rewrite for_key_app. split; [done|]. rewrite app_nil_r.
    unfold waiting. cbn [in_flight]. rewrite (concat_insert_delete _ _ _ _ _ Hb Hc), <-for_key_app. done.
Qed.

(** *** The atomic coalescer *)

(** The two are at the same point: what is pending, and what has been taken,
    published or not. *)
Definition spec_step (key : PublishKey.t) (imm : bool) (ev : event)
    (sp : option bytes * list bytes) : option bytes * list bytes :=
  match operation ev with Some op => KeySpec.step imm key op sp | None => sp end.

Record tracks (key : PublishKey.t) (s : state) (sp : option bytes * list bytes) : Prop := {
  tracks_pending : pending (shared s) !! key = sp.1;
  tracks_idle : immediate key (shared s) = true → sp.1 = None;
  tracks_taken : for_key key (calls (shared s)) ++ waiting key s ≡ₚ sp.2;
}.

Lemma spec_step_out key ev s sp :
  tracks key s sp → (spec_step key (immediate key (shared s)) ev sp).2 = sp.2 ++ taken key ev s.
Proof.
  intros [Hp Hi _]. destruct ev as [k v| |i j]; cbn [spec_step operation KeySpec.step taken].
  - destruct (decide (k = key)) as [->|Hk]; [|by rewrite decide_False, app_nil_r by (by intros [? _])].
    destruct (immediate key (shared s)); [by rewrite decide_True|].
    by rewrite decide_False, app_nil_r by (by intros [_ ?]).
  - by rewrite Hp.
  - by rewrite app_nil_r.
Qed.

Lemma step_tracks key ev s s' sp :
  step ev s = Some s' → tracks key s sp →
  tracks key s' (spec_step key (immediate key (shared s)) ev sp).
Proof.
  intros Hs Ht. pose proof (spec_step_out key ev s sp Ht) as Ho.
  destruct (step_moves key ev s s' Hs) as (e & He & Hw). destruct Ht as [Hp Hi Hk].
  assert (pending (shared s') !! key = (spec_step key (immediate key (shared s)) ev sp).1 ∧
    (immediate key (shared s) = true → (spec_step key (immediate key (shared s)) ev sp).1 = None)) as [Hp' Hi'].
  { clear Ho He Hw Hk. unfold immediate in *. destruct ev as [k v| |i j]; cbn [step] in Hs;
      cbn [spec_step operation KeySpec.step].
    - destruct (decide (k = key)) as [->|Hne].
      + destruct (_ =? 0) eqn:Hz; injection Hs as <-; cbn [shared fst snd]; [by rewrite Hp|].
        split; [apply lookup_insert_eq|done].
      + destruct (window_for (PublishKey.kind k) _ =? 0); injection Hs as <-; cbn [shared fst snd];
          [done|]. by split; [cbn; rewrite lookup_insert_ne|].
    - injection Hs as <-. done.
    - by apply bind_Some in Hs as (b & _ & (c & _ & [= <-])%bind_Some). }
  constructor; [done|by rewrite (immediate_step _ _ _ _ Hs)|].
  by rewrite He, Ho, <-Hk, <-!(assoc_L (++)), Hw.
Qed.
(** *** Runs *)

Lemma run_operations key imm evs sp :
  foldl (λ sp op, KeySpec.step imm key op sp) sp (operations evs) =
    foldl (λ sp ev, spec_step key imm ev sp) sp evs.
Proof.
  unfold operations. revert sp. induction evs as [|ev evs IH]; intros sp; [done|].
  cbn [omap list_omap foldl]. unfold spec_step at 2. destruct (operation ev); apply IH.
Qed.

Lemma run_tracks key evs s s' sp :
  run evs s = Some s' → tracks key s sp →
  immediate key (shared s') = immediate key (shared s) ∧
  tracks key s' (foldl (λ sp ev, spec_step key (immediate key (shared s)) ev sp) sp evs).
Proof.
  revert s sp. induction evs as [|ev evs IH]; intros s sp; cbn [run foldl]; [by intros [= <-]|].
  intros (s1 & Hs & Hr)%bind_Some Ht. pose proof (step_tracks _ _ _ _ _ Hs Ht) as Ht1.
  rewrite <-(immediate_step key _ _ _ Hs) in Ht1 |- *. by apply IH.
Qed.

Lemma start_tracks key c : pending c = ∅ → calls c = [] → tracks key (start c) (None, []).
Proof. intros Hp Hc. constructor; cbn; [by rewrite Hp|done|by rewrite Hc]. Qed.

(** In order, with at most one payload on its way. *)
Definition in_order (key : PublishKey.t) (s : state) (out : list bytes) : Prop :=
  for_key key (calls (shared s)) ++ waiting key s = out ∧ (length (waiting key s) ≤ 1)%nat.

Lemma Permutation_short {A} (l1 l2 : list A) : (length l2 ≤ 1)%nat → l1 ≡ₚ l2 → l1 = l2.
Proof.
  destruct l2 as [|x [|y l2]]; cbn; [intros _; apply Permutation_nil_r| |lia].
  intros _. apply Permutation_singleton_r.
Qed.

Lemma alone_taken key ev s :
  begins_alone key ev s → (length (waiting key s) ≤ 1)%nat →
  (length (waiting key s ++ taken key ev s) ≤ 1)%nat.
Proof.
  intros Ha Hw. destruct ev as [k v| |i j]; cbn [begins_alone taken] in *; rewrite length_app.
  - case_decide as Hk; [|cbn; lia]. destruct Hk as [Hk Hi]. rewrite (Ha Hk Hi). cbn. lia.
  - rewrite Ha. destruct (pending _ !! key); cbn; lia.
  - cbn. lia.
Qed.

Lemma step_keeps_order key ev s s' out :
  step ev s = Some s' → begins_alone key ev s → in_order key s out →
  in_order key s' (out ++ taken key ev s).
Proof.
  intros Hs Ha [<- Hw]. apply (alone_taken _ _ _ Ha) in Hw.
  destruct (step_moves key _ _ _ Hs) as (e & He & Hm). apply Permutation_short in Hm; [|done].
  split; [by rewrite He, <-!(assoc_L (++)), Hm|]. rewrite <-Hm, length_app in Hw. lia.
Qed.

Lemma run_keeps_order key evs s s' sp :
  run evs s = Some s' → one_at_a_time key evs s → tracks key s sp → in_order key s sp.2 →
  in_order key s' (foldl (λ sp ev, spec_step key (immediate key (shared s)) ev sp) sp evs).2.
Proof.
  revert s sp. induction evs as [|ev evs IH]; intros s sp; cbn [run foldl]; [by intros [= <-]|].
  intros (s1 & Hs & Hr)%bind_Some [Ha Hnext] Ht Ho. rewrite Hs in Hnext.
  pose proof (step_tracks _ _ _ _ _ Hs Ht) as Ht1. apply (step_keeps_order _ _ _ _ _ Hs Ha) in Ho.
  rewrite <-(spec_step_out _ _ _ _ Ht), <-(immediate_step key _ _ _ Hs) in Ho.
  rewrite <-(immediate_step key _ _ _ Hs) in Ht1 |- *. apply IH; auto.
Qed.

(** With nothing pending, the last payload taken is the last submitted. *)
Lemma last_taken key imm ops :
  (KeySpec.run imm key ops).1 = None → last (KeySpec.run imm key ops).2 = last (KeySpec.submitted key ops).
Proof.
  destruct (run_flush_last key ops) as (_ & Hl & Ht). destruct imm; [by rewrite Ht|].
  rewrite <-Hl. unfold KeySpec.run. rewrite foldl_app. cbn. intros ->. by rewrite app_nil_r.
Qed.

(** (C23) Interleaved, the coalescer publishes what the atomic one does. Under
    every schedule of submissions, flushes and single publishes, what is pending
    for a key is what the atomic coalescer has pending after the same
    submissions and flushes, and what was published or is on its way is, in some
    order, what that one has published: nothing twice and nothing lost. As long
    as no flush and no immediate publish begins while a payload for the key is on
    its way, it is in the same order, so that with nothing pending or on its way
    the last payload published is the last one submitted. *)
Theorem interleaved_coalescer (c : Coalescer.t) (key : PublishKey.t) (evs : list event) (s : state) :
  pending c = ∅ → calls c = [] → run evs (start c) = Some s →
  let atomic := CoalescerOp.apply_all (operations evs) c in
  let out := for_key key (calls (shared s)) in
  pending (shared s) !! key = pending atomic !! key ∧
  out ++ waiting key s ≡ₚ for_key key (calls atomic) ∧
  (one_at_a_time key evs (start c) →
    out ++ waiting key s = for_key key (calls atomic) ∧
    (pending (shared s) !! key = None → waiting key s = [] →
      last out = last (KeySpec.submitted key (operations evs)))).
Proof.
  intros Hp Hc Hr atomic out. pose proof (start_tracks key c Hp Hc) as Hs.
  destruct (run_tracks _ _ _ _ _ Hr Hs) as [_ Ht]. pose proof (λ H, run_keeps_order _ _ _ _ _ Hr H Hs) as Ho.
  cbn [shared start] in *. rewrite <-run_operations in Ht, Ho.
  destruct (apply_all_key (operations evs) key c Hp Hc) as (Ha1 & Ha2 & _).
  fold (KeySpec.run (immediate key c) key (operations evs)) in Ht, Ho.
  fold atomic in Ha1, Ha2. rewrite Ha1, Ha2.
  split; [apply Ht|]. split; [apply Ht|]. intros Halone.
  destruct (Ho Halone) as [Hout _]; [by split; [cbn; rewrite Hc|cbn; lia]|].
  split; [exact Hout|]. intros Hn Hw. rewrite Hw, app_nil_r in Hout. unfold out. rewrite Hout.
  apply last_taken. by rewrite <-(tracks_pending _ _ _ Ht).
Qed.

Lemma window_with_pending k m c : window_for k (with_pending m c) = window_for k c.
Proof. by destruct k. Qed.

(** Two flushes, the second finished within the first. *)
Definition overlap (key : PublishKey.t) (older newer : bytes) : list event :=
  [Submit key older; TakePending; Submit key newer; TakePending; Publish 1 0; Publish 0 0].

(** Overlapping flushes can publish a stale payload last. When a second
    flush begins while the first has not published yet, as the one of the
    daemon's shutdown can beside the flush task, there is a schedule after which
    nothing is pending or on its way and the sink was sent the newer payload
    first and the older one last. *)
Theorem overlapping_flushes_publish_stale (c : Coalescer.t) (key : PublishKey.t) (older newer : bytes) :
  pending c = ∅ → calls c = [] → immediate key c = false →
  ∃ s, run (overlap key older newer) (start c) = Some s ∧ pending (shared s) = ∅ ∧
    concat (in_flight s) = [] ∧ calls (shared s) = [(key, newer); (key, older)] ∧
    KeySpec.submitted key (operations (overlap key older newer)) = [older; newer].
Proof.
  intros Hp Hc Hi. unfold immediate in Hi. eexists. split.
  - unfold overlap, start. cbn [run step shared]. rewrite Hi.
    cbn [run step shared mbind option_bind in_flight]. rewrite !window_with_pending, Hi.
    cbn [run step shared mbind option_bind in_flight with_pending pending app lookup list_lookup].
    rewrite Hp, !insert_empty, !map_to_list_singleton. reflexivity.
  - split_and!; [done|done|by cbn; rewrite Hc|]. cbn. by rewrite !decide_True.
Qed.
End interleaving.

(** ** Witnesses *)

Definition petr4_quote : PublishKey.t := PublishKey.mk Kind.Quote (bs "PETR4").

(** Two flushes one after the other. *)
Definition sequential : list CoalescerStep.event :=
  [CoalescerStep.Submit petr4_quote (bs "1"); CoalescerStep.Submit petr4_quote (bs "2");
   CoalescerStep.TakePending; CoalescerStep.Submit petr4_quote (bs "3"); CoalescerStep.Publish 0 0;
   CoalescerStep.TakePending; CoalescerStep.Publish 1 0].

Lemma interleaved_coalescer_witness :
  ∃ s, CoalescerStep.run sequential (CoalescerStep.start Coalescer.new) = Some s ∧
    last (for_key petr4_quote (Coalescer.calls (CoalescerStep.shared s))) = Some (bs "3").
Proof.
  destruct (CoalescerStep.run sequential (CoalescerStep.start Coalescer.new)) as [s|] eqn:Hr.
  2: { vm_compute in Hr. discriminate Hr. }
  exists s. split; [reflexivity|].
  destruct (interleaved_coalescer Coalescer.new petr4_quote sequential s) as (_ & _ & Ho).
  - reflexivity.
  - reflexivity.
  - exact Hr.
  - destruct Ho as [_ Hl].
    + vm_compute. repeat split; reflexivity || (intros; discriminate).
    + rewrite Hl; [reflexivity|..]; vm_compute in Hr; injection Hr as Hr; subst s; reflexivity.
Defined.

Lemma overlapping_flushes_publish_stale_witness :
  ∃ s, CoalescerStep.run (overlap petr4_quote (bs "1") (bs "2")) (CoalescerStep.start Coalescer.new) = Some s ∧
    Coalescer.calls (CoalescerStep.shared s) = [(petr4_quote, bs "2"); (petr4_quote, bs "1")].
Proof.
  destruct (overlapping_flushes_publish_stale Coalescer.new petr4_quote (bs "1") (bs "2"))
    as (s & Hr & _ & _ & Hc & _); [reflexivity..|].
  exists s. split; [exact Hr|exact Hc].
Defined.
