(* ===== verification/Commands.v ===== *)
(** * Outgoing side of the client ([cedro-client/src/commands.rs] and
    [subscription.rs])

    [Command] has one constructor per method of [CommandSink] and [line] the
    bytes the method formats; the sink is a stream whose writes may fail.
    [tokens] is the abstract reading of a command. *)

From S2P Require Import Prelude RustInt RustStr RustFloat RustIo ClientError.

Module Command.

Inductive t : Type :=
  | SubscribeQuote (ticker : bytes) (snapshot_only : bool)
  | UnsubscribeQuote (ticker : bytes)
  | SubscribeBookDetailed (ticker : bytes)
  | UnsubscribeBookDetailed (ticker : bytes)
  | SubscribeBookAggregated (ticker : bytes) (snapshot_only : bool)
  | UnsubscribeBookAggregated (ticker : bytes)
  | SubscribeTrades (ticker : bytes) (history_count : option Z)
  | UnsubscribeTrades (ticker : bytes)
  | ListMarket (market : bytes) (asset_type : Z) (subtype : option Z)
  | ListBrokers (market : bytes)
  | SubscribeNews (agency : bytes)
  | UnsubscribeNews (agency : bytes)
  | GetServerTime
  | Quit.

#[global] Instance t_eq_dec : EqDecision t.
Proof. solve_decision. Defined.

(** The payload handed to [write_line]. *)
Definition line (c : t) : bytes :=
  match c with
  | SubscribeQuote ticker true => bs "SQT " ++ ticker ++ bs " N"
  | SubscribeQuote ticker false => bs "SQT " ++ ticker
  | UnsubscribeQuote ticker => bs "USQ " ++ ticker
  | SubscribeBookDetailed ticker => bs "BQT " ++ ticker
  | UnsubscribeBookDetailed ticker => bs "UBQ " ++ ticker
  | SubscribeBookAggregated ticker true => bs "SAB " ++ ticker ++ bs " N"
  | SubscribeBookAggregated ticker false => bs "SAB " ++ ticker
  | UnsubscribeBookAggregated ticker => bs "UAB " ++ ticker
  | SubscribeTrades ticker (Some n) => bs "GQT " ++ ticker ++ bs " S " ++ dec_print n
  | SubscribeTrades ticker None => bs "GQT " ++ ticker ++ bs " S"
  | UnsubscribeTrades ticker => bs "UQT " ++ ticker
  | ListMarket market asset_type (Some s) =>
      bs "MQC " ++ market ++ bs " T " ++ dec_print asset_type ++ bs " S " ++ dec_print s
  | ListMarket market asset_type None => bs "MQC " ++ market ++ bs " " ++ dec_print asset_type
  | ListBrokers market => bs "GPN " ++ market
  | SubscribeNews agency => bs "NEM A " ++ agency
  | UnsubscribeNews agency => bs "UNE " ++ agency
  | GetServerTime => bs "GTC"
  | Quit => bs "QUIT"
  end.
End Command.

Module CommandSink.

(** [write_line]: the payload, a line feed and a flush, under the lock. *)
Definition write_line (payload : bytes) : st Writer.t ClientError.t () :=
  catch ClientError.CommandWrite (Writer.write_all payload) ;;
  catch ClientError.CommandWrite (Writer.write_all [x0a]) ;;
  catch ClientError.CommandWrite Writer.flush.

Definition send (c : Command.t) : st Writer.t ClientError.t () := write_line (Command.line c).
Definition send_all (cs : list Command.t) : st Writer.t ClientError.t () := for_each send cs.
End CommandSink.

(** ** Abstract reading *)

Definition space : byte := " "%byte.
Definition lf : byte := x0a.

Section commands.
Import Command.

(** The space-separated words of a command. *)
Definition tokens (c : t) : list bytes :=
  match c with
  | SubscribeQuote ticker snap => [bs "SQT"; ticker] ++ (if snap then [bs "N"] else [])
  | UnsubscribeQuote ticker => [bs "USQ"; ticker]
  | SubscribeBookDetailed ticker => [bs "BQT"; ticker]
  | UnsubscribeBookDetailed ticker => [bs "UBQ"; ticker]
  | SubscribeBookAggregated ticker snap => [bs "SAB"; ticker] ++ (if snap then [bs "N"] else [])
  | UnsubscribeBookAggregated ticker => [bs "UAB"; ticker]
  | SubscribeTrades ticker n =>
      [bs "GQT"; ticker; bs "S"] ++ (match n with Some n => [dec_print n] | None => [] end)
  | UnsubscribeTrades ticker => [bs "UQT"; ticker]
  | ListMarket market ty (Some s) => [bs "MQC"; market; bs "T"; dec_print ty; bs "S"; dec_print s]
  | ListMarket market ty None => [bs "MQC"; market; dec_print ty]
  | ListBrokers market => [bs "GPN"; market]
  | SubscribeNews agency => [bs "NEM"; bs "A"; agency]
  | UnsubscribeNews agency => [bs "UNE"; agency]
  | GetServerTime => [bs "GTC"]
  | Quit => [bs "QUIT"]
  end.

(** The text argument and the numbers of a command. *)
Definition argument (c : t) : bytes :=
  match c with
  | SubscribeQuote a _ | UnsubscribeQuote a | SubscribeBookDetailed a
  | UnsubscribeBookDetailed a | SubscribeBookAggregated a _ | UnsubscribeBookAggregated a
  | SubscribeTrades a _ | UnsubscribeTrades a | ListMarket a _ _ | ListBrokers a
  | SubscribeNews a | UnsubscribeNews a => a
  | GetServerTime | Quit => []
  end.
Definition numbers (c : t) : list Z :=
  match c with
  | SubscribeTrades _ (Some n) => [n]
  | ListMarket _ ty (Some s) => [ty; s]
  | ListMarket _ ty None => [ty]
  | _ => []
  end.

(** An argument without separators, as tickers, markets and agencies are. *)
Definition plain (c : t) : Prop :=
  (space ∉ argument c) ∧ (lf ∉ argument c) ∧ Forall (λ n, 0 ≤ n) (numbers c).

Lemma line_join c : line c = join space (tokens c).
Proof.
  destruct c as [? []| | | |? []| |? []| |? ? []| | | | |]; simpl;
    rewrite <-?(assoc_L (++)); done.
Qed.

Lemma digit_not c d : is_ascii_digit c = true → is_ascii_digit d = false → c ≠ d.
Proof. intros ?? ->. congruence. Qed.

Lemma literal_no_sep d s : forallb (λ c, negb (bool_decide (c = d))) (bs s) = true → d ∉ bs s.
Proof.
  intros Hh Hin. rewrite forallb_forall in Hh. apply list_elem_of_In, Hh in Hin.
  by rewrite bool_decide_eq_true_2 in Hin.
Qed.

Lemma tokens_no_sep d c :
  (d = space ∨ d = lf) → plain c → Forall (λ t, d ∉ t) (tokens c).
Proof.
  intros Hd (Hs & Hl & Hn).
  assert (d ∉ argument c) as Ha by (by destruct Hd as [->| ->]).
  assert (is_ascii_digit d = false) as Hdig by (by destruct Hd as [->| ->]).
  assert (∀ s, forallb (λ c, negb (bool_decide (c = space)) && negb (bool_decide (c = lf))) (bs s)
            = true → d ∉ bs s) as Hlit.
  { intros s Hall. apply literal_no_sep. apply forallb_forall. intros x Hx.
    pose proof (proj1 (forallb_forall _ _) Hall x Hx) as Hx2. apply andb_true_iff in Hx2 as [H1 H2].
    by destruct Hd as [->| ->]. }
  destruct c as [? []| | | |? []| |? [n|]| |? ? [s|]| | | | |]; simpl in *;
    repeat (apply Forall_cons; split); try apply Forall_nil; try done;
    try (by apply (Hlit "SQT")) ; try (by apply Hlit);
    repeat match goal with H : Forall _ (_ :: _) |- _ => apply Forall_cons in H as [? H] end;
    by apply dec_print_no_sep.
Qed.

Lemma tokens_inj c d :
  Forall (λ n, 0 ≤ n) (numbers c) → Forall (λ n, 0 ≤ n) (numbers d) →
  tokens c = tokens d → c = d.
Proof.
  intros Hc Hd.
  destruct c as [? []| | | |? []| |? [?|]| |? ? [?|]| | | | |],
           d as [? []| | | |? []| |? [?|]| |? ? [?|]| | | | |];
    simpl in *; intros He; try discriminate He; try (injection He; intros; subst);
    repeat match goal with
    | H : Forall _ (_ :: _) |- _ => apply Forall_cons in H as [? H]
    | H : dec_print _ = dec_print _ |- _ => apply dec_print_inj in H; [|done..]
    end; by subst.
Qed.

Lemma join_no_sep d (ts : list bytes) :
  d ≠ space → Forall (λ t, d ∉ t) ts → d ∉ join space ts.
Proof.
  intros Hd. induction ts as [|t ts IH]; intros Ht; [apply not_elem_of_nil|].
  apply Forall_cons in Ht as [Ht Hts]. destruct ts as [|t' ts]; [done|].
  change (join space (t :: t' :: ts)) with (t ++ space :: join space (t' :: ts)).
  rewrite not_elem_of_app, not_elem_of_cons. split_and!; [done|done|by apply IH].
Qed.

(** The lines of commands on the wire. *)
Definition lines (cs : list t) : bytes := concat ((λ c, line c ++ [lf]) <$> cs).

Lemma lines_app cs ds : lines (cs ++ ds) = lines cs ++ lines ds.
Proof. unfold lines. by rewrite fmap_app, concat_app. Qed.
Lemma lines_cons c cs : lines (c :: cs) = line c ++ [lf] ++ lines cs.
Proof. unfold lines. cbn [fmap list_fmap concat]. by rewrite <-(assoc_L (++)). Qed.

Lemma send_clean c out : CommandSink.send c (Writer.mk out []) = (Ok (), Writer.mk (out ++ lines [c]) []).
Proof.
  unfold CommandSink.send, CommandSink.write_line, mbind, st_bind, catch.
  rewrite Writer.write_all_clean. cbn [map_err]. rewrite Writer.write_all_clean. cbn [map_err].
  rewrite Writer.flush_clean. cbn [map_err]. rewrite lines_cons.
  by rewrite <-!(assoc_L (++)), app_nil_r.
Qed.

Lemma send_Ok c w u w' :
  CommandSink.send c w = (Ok u, w') → Writer.written w' = Writer.written w ++ lines [c].
Proof.
  unfold CommandSink.send, CommandSink.write_line.
  rewrite st_bind_Ok. setoid_rewrite st_bind_Ok. setoid_rewrite catch_Ok.
  intros (? & w1 & H1%Writer.write_all_Ok & ? & w2 & H2%Writer.write_all_Ok & H3%Writer.flush_Ok).
  rewrite H3, H2, H1, lines_cons. by rewrite <-!(assoc_L (++)), app_nil_r.
Qed.

(** A command that fails leaves a part of its line, and a fault is used up. *)
Lemma send_Err c w e w' :
  CommandSink.send c w = (Err e, w') →
  ∃ part, part `prefix_of` lines [c] ∧ Writer.written w' = Writer.written w ++ part.
Proof.
  assert (lines [c] = line c ++ [lf]) as Hl by (rewrite lines_cons; by rewrite app_nil_r).
  unfold CommandSink.send, CommandSink.write_line, mbind, st_bind, catch. rewrite Hl.
  destruct (Writer.write_all (line c) w) as [[u|e1] w1] eqn:E1; cbn [map_err].
  - apply Writer.write_all_Ok in E1.
    destruct (Writer.write_all [x0a] w1) as [[u2|e2] w2] eqn:E2; cbn [map_err].
    + apply Writer.write_all_Ok in E2.
      destruct (Writer.flush w2) as [[u3|e3] w3] eqn:E3; cbn [map_err]; intros [= _ <-].
      exists (line c ++ [lf]). split; [done|].
      unfold Writer.flush, Writer.call in E3.
      destruct (Writer.script w2) as [|[|]]; [done..|].
      injection E3 as _ <-. cbn [Writer.written]. by rewrite take_nil, app_nil_r, E2, E1, <-(assoc_L (++)).
    + intros [= _ <-]. destruct (Writer.write_all_Err _ _ _ _ E2) as (k & Hw & _).
      exists (line c ++ take k [lf]). split.
      * apply prefix_app, (prefix_take [lf]).
      * by rewrite Hw, E1, <-(assoc_L (++)).
  - intros [= _ <-]. destruct (Writer.write_all_Err _ _ _ _ E1) as (k & Hw & _).
    exists (take k (line c)). split; [|done].
    transitivity (line c); [apply prefix_take|by apply prefix_app_r].
Qed.

Lemma send_extends c : keeps Writer.extends (CommandSink.send c).
Proof.
  unfold CommandSink.send, CommandSink.write_line.
  do 2 (apply keeps_bind; [apply _|apply keeps_catch, Writer.write_all_extends|intros _]).
  apply keeps_catch, Writer.flush_extends.
Qed.

Lemma send_all_clean cs out :
  CommandSink.send_all cs (Writer.mk out []) = (Ok (), Writer.mk (out ++ lines cs) []).
Proof.
  unfold CommandSink.send_all. revert out. induction cs as [|c cs IH]; intros out; cbn [for_each].
  - by rewrite app_nil_r.
  - unfold mbind, st_bind. rewrite send_clean. rewrite IH. change (c :: cs) with ([c] ++ cs).
    by rewrite lines_app, <-(assoc_L (++)).
Qed.

Lemma send_all_Ok cs w u w' :
  CommandSink.send_all cs w = (Ok u, w') → Writer.written w' = Writer.written w ++ lines cs.
Proof.
  unfold CommandSink.send_all. revert w. induction cs as [|c cs IH]; intros w; cbn [for_each].
  - intros [= _ <-]. by rewrite app_nil_r.
  - rewrite st_bind_Ok. intros (u1 & w1 & H1%send_Ok & Hi%IH).
    change (c :: cs) with ([c] ++ cs). by rewrite Hi, H1, lines_app, <-(assoc_L (++)).
Qed.

Lemma send_all_Err cs w e w' :
  CommandSink.send_all cs w = (Err e, w') →
  ∃ sent c rest part, cs = sent ++ c :: rest ∧ part `prefix_of` lines [c] ∧
    Writer.written w' = Writer.written w ++ lines sent ++ part.
Proof.
  unfold CommandSink.send_all. revert w. induction cs as [|c cs IH]; intros w; cbn [for_each]; [done|].
  rewrite st_bind_Err. intros [(part & Hp & Hw)%send_Err|(u1 & w1 & H1%send_Ok & Hi)].
  - by exists [], c, cs, part.
  - destruct (IH _ Hi) as (sent & d & rest & part & -> & Hp & Hw).
    exists (c :: sent), d, rest, part. split_and!; [done|done|].
    change (c :: sent) with ([c] ++ sent). by rewrite Hw, H1, lines_app, <-!(assoc_L (++)).
Qed.

Lemma send_all_extends cs : keeps Writer.extends (CommandSink.send_all cs).
Proof. apply keeps_for_each; [apply _|apply send_extends]. Qed.

Lemma split_lines (ls : list bytes) rest :
  Forall (λ l, lf ∉ l) ls →
  split_on lf (concat ((λ l, l ++ [lf]) <$> ls) ++ rest) = ls ++ split_on lf rest.
Proof.
  induction 1 as [|l ls Hl Hls IH]; [done|]. cbn [fmap list_fmap concat].
  rewrite <-!(assoc_L (++)). simpl. rewrite split_on_app_sep by done. f_equal. exact IH.
Qed.

Lemma line_no_lf c : plain c → lf ∉ line c.
Proof.
  intros Hc. rewrite line_join. apply join_no_sep; [done|]. apply tokens_no_sep; [by right|done].
Qed.

Lemma split_commands cs rest :
  Forall plain cs → split_on lf (lines cs ++ rest) = (line <$> cs) ++ split_on lf rest.
Proof.
  intros Hcs. unfold lines.
  assert (((λ c, line c ++ [lf]) <$> cs) = ((λ l, l ++ [lf]) <$> (line <$> cs))) as ->
    by (by rewrite <-list_fmap_compose).
  apply split_lines. apply Forall_fmap. eapply Forall_impl; [exact Hcs|]. apply line_no_lf.
Qed.

Lemma split_words c : plain c → split_on space (line c) = tokens c.
Proof.
  intros Hc. rewrite line_join, split_on_join; [done| |].
  - by destruct c as [? []| | | |? []| |? []| |? ? []| | | | |].
  - apply tokens_no_sep; [by left|done].
Qed.

(** One line per command, whatever fails. When every command is sent,
    the bytes written are exactly the commands' lines, in order, each ended by
    one line feed; when a write fails, they are the lines of the commands
    before the failed one and a part of its line, and nothing of those behind
    it. Cutting a line at spaces gives back the words of its command, and no
    two commands with plain arguments look alike on the wire. *)
Theorem commands_recoverable (cs : list t) (script : list Writer.outcome) (c d : t) :
  Forall plain cs →
  (let '(r, w) := CommandSink.send_all cs (Writer.mk [] script) in
   match r with
   | Ok _ => split_on lf (Writer.written w) = (line <$> cs) ++ [[]]
   | Err _ => ∃ sent failed rest part, cs = sent ++ failed :: rest ∧
       part `prefix_of` line failed ++ [lf] ∧
       split_on lf (Writer.written w) = (line <$> sent) ++ split_on lf part
   end) ∧
  (script = [] → (CommandSink.send_all cs (Writer.mk [] script)).1 = Ok ()) ∧
  split_on space <$> (line <$> cs) = tokens <$> cs ∧
  (plain c → plain d → line c = line d → c = d).
Proof.
  intros Hcs. split_and!.
  - destruct (CommandSink.send_all cs _) as [[u|e] w] eqn:Hs.
    + apply send_all_Ok in Hs. rewrite Hs. cbn [Writer.written app].
      rewrite <-(app_nil_r (lines cs)). by rewrite split_commands.
    + destruct (send_all_Err _ _ _ _ Hs) as (sent & f & rest & part & -> & Hp & ->).
      exists sent, f, rest, part. split_and!; [done| |].
      * by rewrite lines_cons, app_nil_r in Hp.
      * apply split_commands. apply Forall_app in Hcs. apply Hcs.
  - intros ->. by rewrite send_all_clean.
  - rewrite <-list_fmap_compose. apply list_fmap_ext. intros i e He.
    apply split_words. eapply Forall_lookup_1; [exact Hcs|exact He].
  - intros Hc Hd He. apply tokens_inj; [apply Hc|apply Hd|].
    by rewrite <-(split_words c Hc), <-(split_words d Hd), He.
Qed.
End commands.

(** ** Subscription registry *)

Module SubscriptionKind.
Inductive t : Type :=
  | Quote
  | BookDetailed
  | BookAggregated
  | Trades.

#[global] Instance t_eq_dec : EqDecision t.
Proof. solve_decision. Defined.
#[global] Instance t_countable : Countable t.
Proof.
  refine (inj_countable'
    (λ k, match k with Quote => 0 | BookDetailed => 1 | BookAggregated => 2 | Trades => 3 end%nat)
    (λ n, match n with 0 => Quote | 1 => BookDetailed | 2 => BookAggregated | _ => Trades end%nat) _).
  by intros [].
Defined.

Definition as_str (k : t) : bytes :=
  match k with
  | Quote => bs "quote"
  | BookDetailed => bs "book_detailed"
  | BookAggregated => bs "book_aggregated"
  | Trades => bs "trades"
  end.
End SubscriptionKind.

Module SubscriptionRegistry.
Abbreviation t := (gset (SubscriptionKind.t * bytes)).

Definition new : t := ∅.
Definition add (k : SubscriptionKind.t) (ticker : bytes) (r : t) : bool * t :=
  (bool_decide ((k, ticker) ∉ r), {[(k, ticker)]} ∪ r).
Definition remove (k : SubscriptionKind.t) (ticker : bytes) (r : t) : bool * t :=
  (bool_decide ((k, ticker) ∈ r), r ∖ {[(k, ticker)]}).
Definition len (r : t) : nat := size r.
Definition is_empty (r : t) : bool := (len r =? 0)%nat.
Definition snapshot (r : t) : list (SubscriptionKind.t * bytes) := elements r.
Definition snapshot_by_kind (k : SubscriptionKind.t) (r : t) : list bytes :=
  snd <$> filter (λ p, p.1 = k) (elements r).
End SubscriptionRegistry.

Section registry.
Import SubscriptionRegistry.

Inductive registry_op : Type :=
  | Add (k : SubscriptionKind.t) (ticker : bytes)
  | Remove (k : SubscriptionKind.t) (ticker : bytes).

Definition registry_run (ops : list registry_op) : t :=
  foldl (λ r op, match op with
                 | Add k ticker => (add k ticker r).2
                 | Remove k ticker => (remove k ticker r).2
                 end) new ops.

(** The last operation on a subscription. *)
Definition last_is_add (k : SubscriptionKind.t) (ticker : bytes) (ops : list registry_op) : Prop :=
  ∃ ops1 ops2, ops = ops1 ++ Add k ticker :: ops2 ∧ Remove k ticker ∉ ops2.

Lemma registry_run_elem ops k ticker :
  (k, ticker) ∈ registry_run ops ↔ last_is_add k ticker ops.
Proof.
  unfold registry_run. induction ops as [|op ops IH] using rev_ind.
  - split; [set_solver|]. intros ([] & ? & ? & _); done.
  - rewrite foldl_app. cbn [foldl]. destruct op as [k' t'|k' t']; cbn [add remove snd].
    + rewrite elem_of_union, elem_of_singleton, IH. split.
      * intros [[= <- <-]|(o1 & o2 & -> & Hr)].
        -- exists ops, []. split; [done|]. apply not_elem_of_nil.
        -- exists o1, (o2 ++ [Add k' t']). rewrite <-(assoc_L (++)). split; [done|].
           rewrite not_elem_of_app, list_elem_of_singleton. done.
      * intros (o1 & o2 & He & Hr). destruct o2 as [|x o2 _] using rev_ind.
        -- apply app_inj_tail in He as [_ [= <- <-]]. by left.
        -- right. rewrite app_comm_cons, (assoc_L (++)) in He.
           apply app_inj_tail in He as [-> _]. exists o1, o2. split; [done|].
           apply not_elem_of_app in Hr as [? _]. done.
    + rewrite elem_of_difference, elem_of_singleton, IH. split.
      * intros [(o1 & o2 & -> & Hr) Hne]. exists o1, (o2 ++ [Remove k' t']).
        rewrite <-(assoc_L (++)). split; [done|].
        rewrite not_elem_of_app, list_elem_of_singleton. split; [done|]. by intros [= -> ->].
      * intros (o1 & o2 & He & Hr). destruct o2 as [|x o2 _] using rev_ind.
        -- apply app_inj_tail in He as [_ ?]. done.
        -- rewrite app_comm_cons, (assoc_L (++)) in He.
           apply app_inj_tail in He as [-> <-].
           apply not_elem_of_app in Hr as [Hr1 Hr2]. split; [by exists o1, o2|].
           intros [= -> ->]. apply Hr2. by apply list_elem_of_singleton.
Qed.

(** The registry is the set of live subscriptions. After any additions
    and removals the snapshots contain, without repetition, exactly the
    (kind, ticker) pairs whose last operation was an addition, grouped
    correctly by kind; [add] and [remove] report whether they changed it. *)
Theorem registry_tracks_subscriptions (ops : list registry_op)
    (k : SubscriptionKind.t) (ticker : bytes) :
  let r := registry_run ops in
  ((k, ticker) ∈ snapshot r ↔ last_is_add k ticker ops) ∧
  (ticker ∈ snapshot_by_kind k r ↔ last_is_add k ticker ops) ∧
  NoDup (snapshot r) ∧ NoDup (snapshot_by_kind k r) ∧ length (snapshot r) = len r ∧
  ((add k ticker r).1 = true ↔ ¬ last_is_add k ticker ops) ∧
  ((remove k ticker r).1 = true ↔ last_is_add k ticker ops).
Proof.
  intros r. pose proof (registry_run_elem ops k ticker) as Hr. fold r in Hr. split_and!.
  - unfold snapshot. by rewrite elem_of_elements.
  - unfold snapshot_by_kind. rewrite list_elem_of_fmap, <-Hr. split.
    + intros ([k' t'] & -> & [Hk Hin]%list_elem_of_filter). cbn in Hk. subst.
      by apply elem_of_elements.
    + intros Hin. exists (k, ticker). split; [done|]. apply list_elem_of_filter.
      split; [done|]. by apply elem_of_elements.
  - apply NoDup_elements.
  - unfold snapshot_by_kind. apply NoDup_fmap_2_strong.
    + intros [k1 t1] [k2 t2] [H1 _]%list_elem_of_filter [H2 _]%list_elem_of_filter He.
      cbn in *. by subst.
    + apply NoDup_filter, NoDup_elements.
  - done.
  - cbn [add fst]. rewrite bool_decide_eq_true. by rewrite Hr.
  - cbn [remove fst]. rewrite bool_decide_eq_true. by rewrite Hr.
Qed.
End registry.

(** The second command fails when its line feed is written. *)
Definition two_commands : list Command.t :=
  [Command.SubscribeQuote (bs "PETR4") true; Command.SubscribeTrades (bs "VALE3") (Some 50)].
Definition failing_feed : list Writer.outcome :=
  [Writer.Accept; Writer.Accept; Writer.Accept; Writer.Accept; Writer.Fail 0 IoError.TimedOut].

Lemma commands_recoverable_witness :
  let '(r, w) := CommandSink.send_all two_commands (Writer.mk [] []) in
  r = Ok () ∧ split_on lf (Writer.written w) = [bs "SQT PETR4 N"; bs "GQT VALE3 S 50"; []] ∧
  Writer.written (CommandSink.send_all two_commands (Writer.mk [] failing_feed)).2 =
    bs "SQT PETR4 N" ++ [lf] ++ bs "GQT VALE3 S 50".
Proof.
  assert (Forall plain two_commands) as Hp.
  { assert (∀ t, bool_decide (space ∉ bs t) = true → bool_decide (lf ∉ bs t) = true →
      (space ∉ bs t) ∧ (lf ∉ bs t)) as Hd
      by (intros t H1 H2; split; [exact (bool_decide_eq_true_1 _ H1)|exact (bool_decide_eq_true_1 _ H2)]).
    apply Forall_cons. split; [|apply Forall_cons; split; [|apply Forall_nil; exact I]].
    - destruct (Hd "PETR4"%string) as [Ha Hb]; [vm_compute; reflexivity|vm_compute; reflexivity|].
      split; [exact Ha|]. split; [exact Hb|apply Forall_nil; exact I].
    - destruct (Hd "VALE3"%string) as [Ha Hb]; [vm_compute; reflexivity|vm_compute; reflexivity|].
      split; [exact Ha|]. split; [exact Hb|apply Forall_cons; split; [lia|apply Forall_nil; exact I]]. }
  destruct (commands_recoverable two_commands [] Command.Quit Command.Quit Hp) as (Hl & Hok & _).
  specialize (Hok eq_refl). destruct (CommandSink.send_all two_commands _) as [r w].
  cbn [fst] in Hok. subst r. split; [reflexivity|]. split.
  - rewrite Hl. vm_compute. reflexivity.
  - vm_compute. reflexivity.
Defined.
