(* ===== verification/Handshake.v ===== *)
(** * Connection set-up ([cedro-client/src/config.rs] and [handshake.rs])

    [ConnectionConfig] with its validation, and the handshake as a state
    passing program over the events of the socket: what the next read gives,
    and whether the deadline has passed when it is checked before that read. *)

From S2P Require Import Prelude RustInt RustStr RustFloat Externs RustIo ClientError.

Module ConnectionConfig.
Record t : Type := mk {
  host : bytes;
  port : Z;
  software_key : bytes;
  username : bytes;
  password : bytes;
  so_rcvbuf : Z;
  frame_channel_capacity : Z;
  handshake_timeout : Z;
  reader_cpu_affinity : option Z;
  watchdog_cpu_affinity : option Z;
  watchdog_interval : Z;
  backpressure_warn_ratio : f64;
  backpressure_panic_ratio : f64;
}.

(** Durations in milliseconds. *)
Definition new (host username password : bytes) : t :=
  mk host 81 [] username password (128 * 1024 * 1024) (2 * 1024 * 1024) 10000 None None 100
    (f64_lit "0.20") (f64_lit "0.40").

Definition addr (c : t) : bytes := host c ++ bs ":" ++ dec_print (port c).

(** [(0.0..=1.0).contains(&x)]. *)
Definition unit_range (x : f64) : bool := f64_leb (f64_lit "0.0") x && f64_leb x (f64_lit "1.0").

Definition validate (c : t) : result string () :=
  if bool_decide (host c = []) then Err "host is empty"%string
  else if so_rcvbuf c <? 1024 then Err "so_rcvbuf is unreasonably small"%string
  else if frame_channel_capacity c =? 0 then Err "frame_channel_capacity must be > 0"%string
  else if negb (unit_range (backpressure_warn_ratio c)) then
    Err "backpressure_warn_ratio must be in [0,1]"%string
  else if negb (unit_range (backpressure_panic_ratio c)) then
    Err "backpressure_panic_ratio must be in [0,1]"%string
  else if f64_leb (backpressure_panic_ratio c) (backpressure_warn_ratio c) then
    Err "panic ratio must exceed warn ratio"%string
  else Ok ().
End ConnectionConfig.

(** Configuration check. [validate] accepts exactly the configurations
    with a host, a receive buffer of at least 1024 bytes, a non-empty channel
    and two ratios that are numbers (no NaN) in the unit interval, the panic
    ratio not at most the warning ratio; the defaults pass for every host. *)
Theorem config_validate_exact (c : ConnectionConfig.t) (host username password : bytes) :
  (ConnectionConfig.validate c = Ok () ↔
     ConnectionConfig.host c ≠ [] ∧ 1024 ≤ ConnectionConfig.so_rcvbuf c ∧
     ConnectionConfig.frame_channel_capacity c ≠ 0 ∧
     ConnectionConfig.unit_range (ConnectionConfig.backpressure_warn_ratio c) = true ∧
     ConnectionConfig.unit_range (ConnectionConfig.backpressure_panic_ratio c) = true ∧
     f64_leb (ConnectionConfig.backpressure_panic_ratio c)
       (ConnectionConfig.backpressure_warn_ratio c) = false) ∧
  (ConnectionConfig.validate (ConnectionConfig.new host username password) = Ok () ↔ host ≠ []) ∧
  (∀ x, f64_leb x x = false → ConnectionConfig.unit_range x = false).
Proof.
  assert (∀ c, ConnectionConfig.validate c = Ok () ↔
     ConnectionConfig.host c ≠ [] ∧ 1024 ≤ ConnectionConfig.so_rcvbuf c ∧
     ConnectionConfig.frame_channel_capacity c ≠ 0 ∧
     ConnectionConfig.unit_range (ConnectionConfig.backpressure_warn_ratio c) = true ∧
     ConnectionConfig.unit_range (ConnectionConfig.backpressure_panic_ratio c) = true ∧
     f64_leb (ConnectionConfig.backpressure_panic_ratio c)
       (ConnectionConfig.backpressure_warn_ratio c) = false) as Hv.
  { clear. intros c. unfold ConnectionConfig.validate. case_bool_decide; [naive_solver|].
    destruct (Z.ltb_spec (ConnectionConfig.so_rcvbuf c) 1024); [naive_solver lia|].
    destruct (Z.eqb_spec (ConnectionConfig.frame_channel_capacity c) 0); [naive_solver|].
    destruct (ConnectionConfig.unit_range (ConnectionConfig.backpressure_warn_ratio c)); [|naive_solver].
    destruct (ConnectionConfig.unit_range (ConnectionConfig.backpressure_panic_ratio c)); [|naive_solver].
    destruct (f64_leb _ _); naive_solver. }
  split; [apply Hv|]. split.
  - rewrite Hv. split; [naive_solver|]. intros Hh.
    split_and!; [done|by vm_compute|by vm_compute|by vm_compute|by vm_compute|by vm_compute].
  - intros x Hx. unfold ConnectionConfig.unit_range.
    destruct (f64_leb (f64_lit "0.0") x) eqn:E; [|done]. simpl.
    unfold f64_leb in *. destruct (sf_of_f64 x) as [s|s| |s m e]; try done.
    + by destruct s.
    + exfalso. revert Hx. unfold SpecFloat.SFleb, SpecFloat.SFcompare.
      destruct s; rewrite Z.compare_refl, ?Pos.compare_cont_refl; done.
Qed.

(** ** Handshake *)

Definition handshake_reason (e : IoError.t) : string :=
  match e with
  | IoError.TimedOut => "read/write timed out"
  | IoError.WouldBlock => "non-blocking I/O reported WouldBlock"
  | IoError.ConnectionReset => "connection reset by peer"
  | IoError.ConnectionAborted => "connection aborted by peer"
  | IoError.UnexpectedEof => "unexpected EOF"
  | IoError.Other => "I/O failure (see source)"
  end.

Module Handshake.

(** A read: some bytes (none at the end of the stream), or an error. *)
Inductive read : Type :=
  | Data (chunk : bytes)
  | Failure (e : IoError.t).

(** Whether the deadline has passed, and what the read then gives. *)
Abbreviation event := (bool * read)%type.

(** [buf] is the unread input, [out] the output side of the stream, [events]
    what the input side still has to say. *)
Record t : Type := mk {
  buf : bytes;
  out : Writer.t;
  events : list event;
}.

(** The outcome of a step; [Blocked] is a read that never returns. *)
Inductive outcome : Type :=
  | Done (s : t)
  | Failed (e : ClientError.t) (s : t)
  | Blocked (s : t).

Definition bind (o : outcome) (k : t → outcome) : outcome :=
  match o with Done s => k s | _ => o end.

Definition with_stream (out : Writer.t) (events : list event) : t := mk [] out events.

Section ops.
Context `{Memchr}.

(** The loop of [consume_until], on the buffer and the events. *)
Fixpoint consume_loop (needle : bytes) (step : HandshakeStep.t) (out : Writer.t) (buf : bytes)
    (events : list event) : outcome :=
  match memmem_find buf needle with
  | Some pos => Done (mk (drop (pos + length needle) buf) out events)
  | None =>
      match events with
      | [] => Blocked (mk buf out [])
      | (expired, r) :: events' =>
          if expired : bool then
            Failed (ClientError.HandshakeTimeout step 0) (mk buf out events)
          else
            match r with
            | Failure e =>
                Failed (ClientError.Handshake step (handshake_reason e)) (mk buf out events')
            | Data chunk =>
                if (length chunk =? 0)%nat then
                  Failed ClientError.UnexpectedEof (mk buf out events')
                else consume_loop needle step out (buf ++ chunk) events'
            end
      end
  end.
Definition consume_until (needle : bytes) (step : HandshakeStep.t) (s : t) : outcome :=
  consume_loop needle step (out s) (buf s) (events s).

Definition write_line (payload : bytes) (step : HandshakeStep.t) (s : t) : outcome :=
  match Writer.write_all (payload ++ [x0d; x0a]) (out s) with
  | (Err e, w) =>
      Failed (ClientError.Handshake step (handshake_reason e)) (mk (buf s) w (events s))
  | (Ok _, w) =>
      match Writer.flush w with
      | (Err e, w) => Failed (ClientError.CommandWrite e) (mk (buf s) w (events s))
      | (Ok _, w) => Done (mk (buf s) w (events s))
      end
  end.

Definition perform (config : ConnectionConfig.t) (out : Writer.t) (events : list event) : outcome :=
  let hs := with_stream out events in
  bind (consume_until (bs "Welcome to Cedro") HandshakeStep.AwaitWelcome hs) (λ hs,
  bind (write_line (ConnectionConfig.software_key config) HandshakeStep.SendSoftwareKey hs) (λ hs,
  bind (consume_until (bs "Username:") HandshakeStep.AwaitUsernamePrompt hs) (λ hs,
  bind (write_line (ConnectionConfig.username config) HandshakeStep.SendUsername hs) (λ hs,
  bind (consume_until (bs "Password:") HandshakeStep.AwaitPasswordPrompt hs) (λ hs,
  bind (write_line (ConnectionConfig.password config) HandshakeStep.SendPassword hs) (λ hs,
  consume_until (bs "You are connected") HandshakeStep.AwaitConnected hs)))))).
End ops.

(** Events that are only data, in time. *)
Definition chunk_event (c : bytes) : event := (false, Data c).

(** The three lines of the client. *)
Definition crlf_line (payload : bytes) : bytes := payload ++ [x0d; x0a].
Definition credentials (config : ConnectionConfig.t) : bytes :=
  crlf_line (ConnectionConfig.software_key config) ++
  crlf_line (ConnectionConfig.username config) ++
  crlf_line (ConnectionConfig.password config).
End Handshake.

Section correctness.
Context `{MemchrSpec}.
Import Handshake.

(** A hit cuts the input right behind the first occurrence of the needle. *)
Lemma memmem_split l n i :
  memmem_find l n = Some i → l = take i l ++ n ++ drop (i + length n) l.
Proof.
  intros ([r Hr] & _ & _)%memmem_find_Some.
  rewrite <-(take_drop i l) at 1. f_equal. rewrite <-drop_drop, Hr.
  by rewrite drop_app_length.
Qed.

Lemma memmem_present pre n suf : is_Some (memmem_find (pre ++ n ++ suf) n).
Proof.
  destruct (memmem_find (pre ++ n ++ suf) n) as [i|] eqn:E; [by eexists|].
  exfalso. apply (memmem_find_None _ _ E (length pre)). rewrite drop_app_length.
  by eexists.
Qed.

(** Success consumes whole chunks of data, the needle last seen in them. *)
Lemma consume_loop_Done needle step out0 evs : ∀ buf0 s,
  consume_loop needle step out0 buf0 evs = Done s →
  ∃ chunks pre, evs = (chunk_event <$> chunks) ++ events s ∧ out s = out0 ∧
    buf0 ++ concat chunks = pre ++ needle ++ buf s.
Proof.
  induction evs as [|[expired r] evs IH]; intros buf0 s; cbn [consume_loop];
    destruct (memmem_find buf0 needle) as [i|] eqn:Hm.
  - intros [= <-]. exists [], (take i buf0). cbn. rewrite app_nil_r.
    split_and!; [done|done|by apply memmem_split].
  - done.
  - intros [= <-]. exists [], (take i buf0). cbn. rewrite app_nil_r.
    split_and!; [done|done|by apply memmem_split].
  - destruct expired; [done|]. destruct r as [chunk|e]; [|done].
    destruct (length chunk =? 0)%nat; [done|].
    intros (chunks & pre & -> & Hs & Hb)%IH. exists (chunk :: chunks), pre.
    split_and!; [done|done|]. by rewrite <-Hb, <-(assoc_L (++)).
Qed.

Lemma memmem_fits l needle i : memmem_find l needle = Some i → (i + length needle ≤ length l)%nat.
Proof.
  intros Hi. pose proof (memmem_find_Some _ _ _ Hi) as (_ & Hlt & _).
  apply memmem_split, (f_equal length) in Hi. rewrite !length_app, length_take in Hi. lia.
Qed.

(** The first occurrence of the needle is not behind the one there is. *)
Lemma memmem_first needle buf0 more pre suf i :
  memmem_find buf0 needle = Some i → buf0 ++ more = pre ++ needle ++ suf → (i ≤ length pre)%nat.
Proof.
  intros Hi Hb. pose proof (memmem_fits _ _ _ Hi). pose proof (memmem_find_Some _ _ _ Hi) as (_ & _ & Hfirst).
  destruct (Nat.le_gt_cases i (length pre)) as [|Hgt]; [done|]. exfalso.
  apply (Hfirst (length pre) Hgt).
  assert (length (pre ++ needle) ≤ length buf0)%nat as Hin by (rewrite length_app; lia).
  assert (take (length (pre ++ needle)) buf0 = pre ++ needle) as Htk.
  { rewrite <-(take_app_le buf0 more) by done. by rewrite Hb, (assoc_L (++)), take_app_length. }
  rewrite <-(take_drop (length (pre ++ needle)) buf0), Htk, <-(assoc_L (++)), drop_app_length.
  by eexists.
Qed.

(** What is left behind the needle found ends in what is behind the one there is. *)
Lemma memmem_rest needle buf0 more pre suf i :
  memmem_find buf0 needle = Some i → buf0 ++ more = pre ++ needle ++ suf →
  ∃ x, drop (i + length needle) buf0 ++ more = x ++ suf ∧ (length x ≤ length pre)%nat.
Proof.
  intros Hi Hb. pose proof (memmem_first _ _ _ _ _ _ Hi Hb) as Hle.
  pose proof (memmem_fits _ _ _ Hi) as Hib.
  exists (take (length pre - i) (drop (i + length needle) (buf0 ++ more))).
  rewrite length_take. split; [|lia]. rewrite <-(drop_app_le buf0 more) by lia.
  rewrite <-(take_drop (length pre - i) (drop (i + length needle) (buf0 ++ more))) at 1.
  f_equal. rewrite drop_drop, Hb, (assoc_L (++)).
  replace (i + length needle + (length pre - i))%nat with (length (pre ++ needle))
    by (rewrite length_app; lia).
  by rewrite drop_app_length.
Qed.

(** If the needle is in the data to come, it is found, at its first
    occurrence at the latest: what follows is still to be read. *)
Lemma consume_loop_total needle step out0 chunks : ∀ buf0 pre suf,
  Forall (λ c, c ≠ []) chunks → buf0 ++ concat chunks = pre ++ needle ++ suf →
  ∃ buf1 used left x,
    consume_loop needle step out0 buf0 (chunk_event <$> chunks) =
      Done (mk buf1 out0 (chunk_event <$> left)) ∧
    chunks = used ++ left ∧ Forall (λ c, c ≠ []) left ∧
    buf1 ++ concat left = x ++ suf ∧ (length x ≤ length pre)%nat.
Proof.
  induction chunks as [|c chunks IH]; intros buf0 pre suf Hne Hb.
  - pose proof Hb as Hb0. cbn in Hb0. rewrite app_nil_r in Hb0.
    destruct (memmem_present pre needle suf) as [i Hi]. rewrite <-Hb0 in Hi.
    destruct (memmem_rest _ _ _ _ _ _ Hi Hb) as (x & Hx & Hlx).
    cbn [fmap list_fmap consume_loop]. rewrite Hi. exists (drop (i + length needle) buf0), [], [], x.
    split_and!; done.
  - pose proof Hne as Hne0. apply Forall_cons in Hne as [Hc Hne].
    cbn [fmap list_fmap consume_loop chunk_event].
    destruct (memmem_find buf0 needle) as [i|] eqn:Hi.
    + destruct (memmem_rest _ _ _ _ _ _ Hi Hb) as (x & Hx & Hlx).
      exists (drop (i + length needle) buf0), [], (c :: chunks), x. split_and!; done.
    + destruct (Nat.eqb_spec (length c) 0) as [Hl|Hl]; [by apply nil_length_inv in Hl|].
      destruct (IH (buf0 ++ c) pre suf Hne) as (buf1 & used & left & x & He & -> & Hl' & Hx & Hlx).
      { by rewrite <-(assoc_L (++)). }
      exists buf1, (c :: used), left, x. split_and!; done.
Qed.

Lemma write_line_clean payload step buf0 b evs :
  write_line payload step (mk buf0 (Writer.mk b []) evs) =
    Done (mk buf0 (Writer.mk (b ++ crlf_line payload) []) evs).
Proof.
  unfold write_line. cbn [out buf events].
  by rewrite Writer.write_all_clean, Writer.flush_clean.
Qed.

Lemma perform_total config b chunks p1 p2 p3 p4 suf :
  Forall (λ c, c ≠ []) chunks →
  concat chunks = p1 ++ bs "Welcome to Cedro" ++ p2 ++ bs "Username:" ++
                  p3 ++ bs "Password:" ++ p4 ++ bs "You are connected" ++ suf →
  ∃ buf1 left x,
    perform config (Writer.mk b []) (chunk_event <$> chunks) =
      Done (mk buf1 (Writer.mk (b ++ credentials config) []) (chunk_event <$> left)) ∧
    (∃ used, chunks = used ++ left) ∧ buf1 ++ concat left = x ++ suf ∧
    (length x ≤ length (p1 ++ p2 ++ p3 ++ p4))%nat.
Proof.
  intros Hne Hc. unfold perform, consume_until, with_stream. cbn [buf out events].
  destruct (consume_loop_total (bs "Welcome to Cedro") HandshakeStep.AwaitWelcome (Writer.mk b [])
    chunks [] _ _ Hne Hc) as (b1 & u1 & l1 & x1 & -> & Hu1 & Hne1 & Hx1 & Hl1).
  cbn [bind]. rewrite write_line_clean. cbn [bind buf out events].
  rewrite (assoc_L (++) x1 p2) in Hx1.
  match goal with |- context [consume_loop _ _ ?w b1 _] =>
    destruct (consume_loop_total (bs "Username:") HandshakeStep.AwaitUsernamePrompt
      w l1 b1 _ _ Hne1 Hx1) as (b2 & u2 & l2 & x2 & -> & Hu2 & Hne2 & Hx2 & Hl2) end.
  cbn [bind]. rewrite write_line_clean. cbn [bind buf out events].
  rewrite (assoc_L (++) x2 p3) in Hx2.
  match goal with |- context [consume_loop _ _ ?w b2 _] =>
    destruct (consume_loop_total (bs "Password:") HandshakeStep.AwaitPasswordPrompt
      w l2 b2 _ _ Hne2 Hx2) as (b3 & u3 & l3 & x3 & -> & Hu3 & Hne3 & Hx3 & Hl3) end.
  cbn [bind]. rewrite write_line_clean. cbn [bind buf out events].
  rewrite (assoc_L (++) x3 p4) in Hx3.
  match goal with |- context [consume_loop _ _ ?w b3 _] =>
    destruct (consume_loop_total (bs "You are connected") HandshakeStep.AwaitConnected
      w l3 b3 _ _ Hne3 Hx3) as (b4 & u4 & l4 & x4 & -> & Hu4 & Hne4 & Hx4 & Hl4) end.
  exists b4, l4, x4. rewrite !length_app in *. split_and!; [| |done|lia].
  - unfold credentials. by rewrite <-!(assoc_L (++)).
  - exists (u1 ++ u2 ++ u3 ++ u4). by rewrite Hu1, Hu2, Hu3, Hu4, <-!(assoc_L (++)).
Qed.

(** The handshake succeeds with every server that sends the prompts.
    However the server's text is cut into reads, and whatever stands between
    the prompts, if it contains the four prompts in order and arrives in time
    and no write fails, the handshake completes, having sent exactly the
    software key, the user name and the password, each as one CRLF line, in
    that order; nothing after the last prompt is skipped in the stream plus the
    surplus. *)
Theorem handshake_succeeds (config : ConnectionConfig.t) (chunks : list bytes)
    (p1 p2 p3 p4 suf : bytes) :
  Forall (λ c, c ≠ []) chunks →
  concat chunks = p1 ++ bs "Welcome to Cedro" ++ p2 ++ bs "Username:" ++
                  p3 ++ bs "Password:" ++ p4 ++ bs "You are connected" ++ suf →
  ∃ s, perform config Writer.new (chunk_event <$> chunks) = Done s ∧
       Writer.written (out s) = credentials config ∧
       ∃ left x, events s = chunk_event <$> left ∧ buf s ++ concat left = x ++ suf.
Proof.
  intros Hne Hc. destruct (perform_total config [] chunks _ _ _ _ _ Hne Hc)
    as (b & left & x & Hp & _ & Hx & _). eexists. split; [exact Hp|]. split; [done|]. eauto.
Qed.

(** Events after a success are left alone. *)
Lemma consume_loop_extra needle step out0 extra evs : ∀ buf0 s,
  consume_loop needle step out0 buf0 evs = Done s →
  consume_loop needle step out0 buf0 (evs ++ extra) = Done (mk (buf s) (out s) (events s ++ extra)).
Proof.
  induction evs as [|[expired r] evs IH]; intros buf0 s; cbn [consume_loop app].
  - destruct (memmem_find buf0 needle) as [i|] eqn:Hi; [|done]. intros [= <-].
    destruct extra; cbn [consume_loop]; by rewrite Hi.
  - destruct (memmem_find buf0 needle) as [i|]; [by intros [= <-]|].
    destruct expired; [done|]. destruct r; [|done].
    destruct (_ =? 0)%nat; [done|]. apply IH.
Qed.

Definition with_more (extra : list event) (s : t) : t := mk (buf s) (out s) (events s ++ extra).

Lemma consume_until_extra needle step extra s s' :
  consume_until needle step s = Done s' →
  consume_until needle step (with_more extra s) = Done (with_more extra s').
Proof. apply consume_loop_extra. Qed.

Lemma write_line_extra payload step extra s s' :
  write_line payload step s = Done s' →
  write_line payload step (with_more extra s) = Done (with_more extra s').
Proof.
  unfold write_line. cbn [with_more out buf events].
  destruct (Writer.write_all _ _) as [[u|e] w]; [|done].
  destruct (Writer.flush w) as [[u'|e] w']; [|done]. by intros [= <-].
Qed.

Lemma bind_extra o o' (k : t → outcome) extra s' :
  (∀ s, o = Done s → o' = Done (with_more extra s)) →
  (∀ s, k s = Done s' → k (with_more extra s) = Done (with_more extra s')) →
  bind o k = Done s' → bind o' k = Done (with_more extra s').
Proof.
  intros Ho Hk. destruct o as [s|e s|s]; cbn; [|done|done]. rewrite (Ho s eq_refl). apply Hk.
Qed.

Lemma perform_extra config w evs extra s :
  perform config w evs = Done s →
  perform config w (evs ++ extra) = Done (with_more extra s).
Proof.
  unfold perform.
  repeat (eapply bind_extra; [intros ?; first [apply consume_until_extra|apply write_line_extra]|intros ?]).
  apply consume_until_extra.
Qed.

(** The surplus of the last read is lost. What the server sends in the
    same read as [You are connected], right behind it, ends up in the
    handshake's own buffer, which is dropped when [perform] returns; the
    reader only gets the events after that read, so these first bytes of the
    market-data stream never reach it. *)
Theorem handshake_loses_surplus (config : ConnectionConfig.t) (surplus : bytes)
    (later : list event) :
  perform config Writer.new
    ((chunk_event <$> [bs "Welcome to Cedro"; bs "Username:"; bs "Password:";
                       bs "You are connected" ++ surplus]) ++ later)
  = Done (mk surplus (Writer.mk (credentials config) []) later).
Proof.
  destruct (perform_total config [] [bs "Welcome to Cedro"; bs "Username:"; bs "Password:";
    bs "You are connected" ++ surplus] [] [] [] [] surplus)
    as (b & left & x & Hp & [used Hu] & Hx & Hl).
  { repeat (apply Forall_cons; split; [done|]). by apply Forall_nil. }
  { simpl. by rewrite app_nil_r. }
  apply perform_extra with (extra := later) in Hp. unfold Writer.new. rewrite Hp.
  cbn [with_more buf out events app].
  destruct x; [|simpl in Hl; lia]. rewrite app_nil_l in Hx.
  destruct left as [|l left _] using rev_ind.
  - simpl in Hx. rewrite app_nil_r in Hx. by subst.
  - exfalso. rewrite (assoc_L (++)) in Hu.
    change ([bs "Welcome to Cedro"; bs "Username:"; bs "Password:"; bs "You are connected" ++ surplus])
      with ([bs "Welcome to Cedro"; bs "Username:"; bs "Password:"] ++ [bs "You are connected" ++ surplus])
      in Hu.
    apply app_inj_tail in Hu as [_ <-].
    apply (f_equal length) in Hx. rewrite concat_app, !length_app in Hx. simpl in Hx.
    rewrite length_app in Hx. simpl in Hx. lia.
Qed.
(** *** Pacing: no line before its prompt *)

Definition received (evs : list event) : bytes :=
  concat (omap (λ ev, match ev.2 with Data chunk => Some chunk | Failure _ => None end) evs).

Fixpoint in_order (needles : list bytes) (l : bytes) : Prop :=
  match needles with
  | [] => True
  | n :: ns => ∃ pre suf, l = pre ++ n ++ suf ∧ in_order ns suf
  end.

Lemma in_order_app ns l r : in_order ns l → in_order ns (l ++ r).
Proof.
  revert l. induction ns as [|n ns IH]; intros l; [done|].
  intros (pre & suf & -> & Hi). exists pre, (suf ++ r). split; [by rewrite <-!(assoc_L (++))|].
  by apply IH.
Qed.
Lemma in_order_snoc ns n l pre : in_order ns l → in_order (ns ++ [n]) (l ++ pre ++ n).
Proof.
  revert l. induction ns as [|m ns IH]; intros l.
  - intros _. exists (l ++ pre), []. by rewrite app_nil_r, <-(assoc_L (++)).
  - intros (p & suf & -> & Hi). exists p, (suf ++ pre ++ n). split; [by rewrite <-!(assoc_L (++))|].
    by apply IH.
Qed.

Lemma received_app e1 e2 : received (e1 ++ e2) = received e1 ++ received e2.
Proof. unfold received. by rewrite omap_app, concat_app. Qed.

Definition post (P Q : t → Prop) (o : outcome) : Prop :=
  match o with Done s => P s | Failed _ s => Q s | Blocked s => Q s end.

Lemma post_bind P P' Q o k : post P Q o → (∀ s, P s → post P' Q (k s)) → post P' Q (bind o k).
Proof. destruct o; cbn; eauto. Qed.

Lemma consume_loop_spec needle step out0 evs : ∀ buf0,
  post (λ s, out s = out0 ∧ ∃ used pre, evs = used ++ events s ∧
          buf0 ++ received used = pre ++ needle ++ buf s)
       (λ s, out s = out0 ∧ ∃ used, evs = used ++ events s)
       (consume_loop needle step out0 buf0 evs).
Proof.
  assert (∀ buf0 i evs, memmem_find buf0 needle = Some i →
    ∃ used pre, evs = used ++ evs ∧
      buf0 ++ received used = pre ++ needle ++ drop (i + length needle) buf0) as Hfound.
  { intros buf0 i evs0 Hm. exists [], (take i buf0). split; [done|].
    unfold received. cbn. rewrite app_nil_r. by apply memmem_split. }
  induction evs as [|[expired r] evs IH]; intros buf0; cbn [consume_loop];
    destruct (memmem_find buf0 needle) as [i|] eqn:Hm; cbn [post out events buf]; eauto.
  - split; [done|]. by exists [].
  - destruct expired; cbn [post out events]; [split; [done|by exists []]|].
    destruct r as [chunk|e]; cbn [post out events]; [|split; [done|by eexists [_]]].
    destruct (length chunk =? 0)%nat; cbn [post out events]; [split; [done|by eexists [_]]|].
    specialize (IH (buf0 ++ chunk)). destruct (consume_loop _ _ _ _ _) as [s|e s|s]; cbn [post] in *.
    + destruct IH as (Ho & used & pre & -> & Hb). split; [done|].
      exists ((false, Data chunk) :: used), pre. split; [done|].
      rewrite <-Hb. unfold received. cbn. by rewrite (assoc_L (++)).
    + destruct IH as (Ho & used & ->). split; [done|]. by exists ((false, Data chunk) :: used).
    + destruct IH as (Ho & used & ->). split; [done|]. by exists ((false, Data chunk) :: used).
Qed.

Section paced.
Variables (prompts : list bytes) (lines : list bytes) (evs : list event).

(** [i] prompts seen and [j] lines sent. *)
Definition reached (i j : nat) (s : t) : Prop :=
  ∃ used x, evs = used ++ events s ∧ received used = x ++ buf s ∧
    in_order (take i prompts) x ∧ Writer.written (out s) = concat (take j lines).

(** Whole lines, and possibly a part of the next one, each after its prompt. *)
Definition paced (s : t) : Prop :=
  ∃ used i part, evs = used ++ events s ∧
    Writer.written (out s) = concat (take i lines) ++ part ∧
    part `prefix_of` default [] (lines !! i) ∧
    in_order (take i prompts) (received used) ∧
    (part ≠ [] → in_order (take (S i) prompts) (received used)).

Lemma reached_paced i j s : (j ≤ i)%nat → reached i j s → paced s.
Proof.
  intros Hij (used & x & He & Hx & Ho & Hw). exists used, j, []. rewrite app_nil_r, Hx.
  split_and!; [done|done|apply prefix_nil| |done].
  apply in_order_app. clear -Ho Hij. revert i j x Ho Hij.
  induction prompts as [|n ns IH]; intros i j x Ho Hij; [by rewrite take_nil|].
  destruct j as [|j]; [done|]. destruct i as [|i]; [lia|].
  destruct Ho as (pre & suf & -> & Ho). exists pre, suf. split; [done|]. apply (IH i); [done|lia].
Qed.

Lemma consume_reached i j needle step s :
  prompts !! i = Some needle → (j ≤ i)%nat → reached i j s →
  post (reached (S i) j) paced (consume_until needle step s).
Proof.
  intros Hn Hij Hr. pose proof Hr as (used & x & He & Hx & Ho & Hw).
  unfold consume_until. pose proof (consume_loop_spec needle step (out s) (events s) (buf s)) as Hc.
  assert (∀ s', out s' = out s → ∀ used', events s = used' ++ events s' → paced s') as Hend.
  { intros s' Hos used' Hu. destruct (reached_paced i j s Hij Hr) as (u & k & part & Hu0 & Hp1 & Hp2 & Hp3 & Hp4).
    exists (u ++ used'), k, part. rewrite received_app. split_and!.
    - by rewrite Hu0, Hu, <-(assoc_L (++)).
    - by rewrite Hos.
    - done.
    - by apply in_order_app.
    - intros Hne. by apply in_order_app, Hp4. }
  destruct (consume_loop _ _ _ _ _) as [s'|e s'|s']; cbn [post] in *.
  - destruct Hc as (Hos & used' & pre & Hu & Hb).
    exists (used ++ used'), (x ++ pre ++ needle). split_and!.
    + by rewrite He, Hu, <-(assoc_L (++)).
    + by rewrite received_app, Hx, <-!(assoc_L (++)), Hb.
    + rewrite (take_S_r _ _ _ Hn). by apply in_order_snoc.
    + by rewrite Hos.
  - destruct Hc as (Hos & used' & Hu). by eapply Hend.
  - destruct Hc as (Hos & used' & Hu). by eapply Hend.
Qed.

Lemma write_reached j payload step s :
  lines !! j = Some (crlf_line payload) → reached (S j) j s →
  post (reached (S j) (S j)) paced (write_line payload step s).
Proof.
  intros Hl Hr. pose proof Hr as (used & x & He & Hx & Ho & Hw). unfold write_line.
  fold (crlf_line payload).
  assert (∀ k w, Writer.written w = Writer.written (out s) ++ take k (crlf_line payload) →
    paced (mk (buf s) w (events s))) as Hpart.
  { intros k w Hwr. exists used, j, (take k (crlf_line payload)). cbn [out events]. rewrite Hl.
    split_and!; [done|by rewrite Hwr, Hw|apply prefix_take| |].
    - destruct (reached_paced (S j) j s) as (u & ? & ? & ? & ?); [lia|done|].
      rewrite Hx. apply in_order_app. clear -Ho. revert j x Ho.
      induction prompts as [|n ns IH]; intros j x Ho; [by rewrite take_nil|].
      destruct j as [|j]; [done|]. destruct Ho as (pre & suf & -> & Ho).
      exists pre, suf. split; [done|]. by apply IH.
    - intros _. rewrite Hx. by apply in_order_app. }
  destruct (Writer.write_all _ _) as [[u|e] w] eqn:Ew; cbn [post].
  - apply Writer.write_all_Ok in Ew. destruct (Writer.flush w) as [[u'|e] w'] eqn:Ef; cbn [post].
    + apply Writer.flush_Ok in Ef. exists used, x. cbn [out events buf]. split_and!; [done..|].
      rewrite Ef, Ew, Hw, (take_S_r _ _ _ Hl), concat_app. cbn [concat]. by rewrite app_nil_r.
    + apply (Hpart (length (crlf_line payload))). rewrite firstn_all.
      unfold Writer.flush, Writer.call in Ef. destruct (Writer.script w) as [|[|]]; [done..|].
      injection Ef as _ <-. cbn [Writer.written]. by rewrite take_nil, app_nil_r, Ew.
  - apply Writer.write_all_Err in Ew as (k & Hwr & _). by apply (Hpart k).
Qed.
End paced.

Definition prompts : list bytes :=
  [bs "Welcome to Cedro"; bs "Username:"; bs "Password:"; bs "You are connected"].
Definition credential_lines (config : ConnectionConfig.t) : list bytes :=
  crlf_line <$> [ConnectionConfig.software_key config; ConnectionConfig.username config;
                 ConnectionConfig.password config].

(** (C28) The handshake never runs ahead of the server. Whatever the socket
    says, in whatever pieces, and whichever read, write or deadline fails: what
    has been sent is the first few of the three lines (software key, user name,
    password) and possibly a part of the next one, and each of them was only
    begun after its own prompt had arrived behind the earlier ones. When the
    handshake succeeds all three lines were sent and all four prompts seen. *)
Theorem handshake_paced (config : ConnectionConfig.t) (script : list Writer.outcome)
    (evs : list event) :
  post (λ s, ∃ used x, evs = used ++ events s ∧ received used = x ++ buf s ∧
               in_order prompts x ∧ Writer.written (out s) = credentials config)
       (paced prompts (credential_lines config) evs)
       (perform config (Writer.mk [] script) evs).
Proof.
  unfold perform.
  assert (reached prompts (credential_lines config) evs 0 0 (with_stream (Writer.mk [] script) evs)) as Hs0.
  { by exists [], []. }
  revert Hs0. generalize (with_stream (Writer.mk [] script) evs). intros s0 Hs0.
  eapply post_bind; [by apply (consume_reached _ _ _ 0 0)|intros s1 H1].
  eapply post_bind; [by apply (write_reached _ _ _ 0)|intros s2 H2].
  eapply post_bind; [by apply (consume_reached _ _ _ 1 1)|intros s3 H3].
  eapply post_bind; [by apply (write_reached _ _ _ 1)|intros s4 H4].
  eapply post_bind; [by apply (consume_reached _ _ _ 2 2)|intros s5 H5].
  eapply post_bind; [by apply (write_reached _ _ _ 2)|intros s6 H6].
  pose proof (consume_reached prompts (credential_lines config) evs 3 3 _
    HandshakeStep.AwaitConnected s6 eq_refl (Nat.le_refl 3) H6) as Hc.
  destruct (consume_until _ _ s6) as [s|e s|s]; cbn [post] in *; [|done|done].
  destruct Hc as (used & x & He & Hx & Ho & Hw). exists used, x. split_and!; [done..|].
  rewrite Hw. unfold credential_lines, credentials. cbn. by rewrite app_nil_r.
Qed.
End correctness.

Definition sample_config : ConnectionConfig.t :=
  ConnectionConfig.new (bs "feed.example") (bs "user") (bs "secret").

Lemma handshake_succeeds_witness :
  ∃ s, @Handshake.perform memchr_reference sample_config Writer.new (Handshake.chunk_event <$>
         [bs "Welcome to Ced"; bs "ro CrystalUsername:Pass"; bs "word: You are connected!"])
       = Handshake.Done s ∧ Writer.written (Handshake.out s) = Handshake.credentials sample_config.
Proof.
  destruct (@handshake_succeeds memchr_reference memchr_reference_spec sample_config
    [bs "Welcome to Ced"; bs "ro CrystalUsername:Pass"; bs "word: You are connected!"]
    [] (bs " Crystal") [] (bs " ") (bs "!")) as (s & Hs & Hsent & _).
  - repeat (apply Forall_cons; split; [discriminate|]). apply Forall_nil. exact I.
  - vm_compute. reflexivity.
  - exists s. split; [exact Hs|exact Hsent].
Defined.

Lemma handshake_loses_surplus_witness :
  ∃ s, @Handshake.perform memchr_reference sample_config Writer.new (Handshake.chunk_event <$>
         [bs "Welcome to Cedro"; bs "Username:"; bs "Password:"; bs "You are connected" ++ bs "T:PETR4"])
       = Handshake.Done s ∧ Handshake.buf s = bs "T:PETR4" ∧ Handshake.events s = [].
Proof.
  pose proof (@handshake_loses_surplus memchr_reference memchr_reference_spec sample_config
    (bs "T:PETR4") []) as Hs.
  eexists. split; [exact Hs|]. split; reflexivity.
Defined.

(** The write of the user name fails after two bytes. *)
Lemma handshake_paced_witness :
  ∃ s, @Handshake.perform memchr_reference sample_config
         (Writer.mk [] [Writer.Accept; Writer.Accept; Writer.Fail 2 IoError.TimedOut])
         (Handshake.chunk_event <$> [bs "Welcome to Cedro"; bs "Username:"; bs "Password:"])
       = Handshake.Failed (ClientError.Handshake HandshakeStep.SendUsername "read/write timed out") s ∧
    Writer.written (Handshake.out s) = [x0d; x0a] ++ bs "us" ∧
    paced prompts (credential_lines sample_config)
      (Handshake.chunk_event <$> [bs "Welcome to Cedro"; bs "Username:"; bs "Password:"]) s.
Proof.
  pose proof (@handshake_paced memchr_reference memchr_reference_spec sample_config
    [Writer.Accept; Writer.Accept; Writer.Fail 2 IoError.TimedOut]
    (Handshake.chunk_event <$> [bs "Welcome to Cedro"; bs "Username:"; bs "Password:"])) as Hp.
  eexists. split; [vm_compute; reflexivity|]. split; [reflexivity|].
  vm_compute in Hp. vm_compute. exact Hp.
Defined.
