(* ===== verification/Connection.v ===== *)
(** * The TCP connection ([cedro-client/src/connection.rs])

    [Connection.open] over an operating system that answers each call: what is
    done, calls and handshake in their order, the socket's settings, the two
    directions of the stream. [plan] lists the steps of a complete [open]. *)

From S2P Require Import Prelude RustInt RustStr RustIo RustNet ClientError Externs Handshake.

(** The calls on the socket. *)
Module Syscall.
Inductive t : Type :=
  | NewSocket
  | SetRecvBufferSize (size : Z)
  | SetKeepalive (on : bool)
  | Connect (addr : SocketAddr.t) (timeout : Z)
  | SetNodelay (on : bool)
  | SetReadTimeout (timeout : option Z)
  | SetWriteTimeout (timeout : option Z)
  | TryClone.
#[global] Instance t_eq_dec : EqDecision t.
Proof. solve_decision. Defined.
End Syscall.

(** The settings of a socket. *)
Module Socket.
Record t : Type := mk {
  recv_buffer : option Z;
  keepalive : bool;
  peer : option SocketAddr.t;
  nodelay : bool;
  read_timeout : option Z;
  write_timeout : option Z;
}.
Definition fresh : t := mk None false None false None None.

Definition apply (c : Syscall.t) (s : t) : t :=
  match c with
  | Syscall.NewSocket => fresh
  | Syscall.SetRecvBufferSize n =>
      mk (Some n) (keepalive s) (peer s) (nodelay s) (read_timeout s) (write_timeout s)
  | Syscall.SetKeepalive b =>
      mk (recv_buffer s) b (peer s) (nodelay s) (read_timeout s) (write_timeout s)
  | Syscall.Connect a _ =>
      mk (recv_buffer s) (keepalive s) (Some a) (nodelay s) (read_timeout s) (write_timeout s)
  | Syscall.SetNodelay b =>
      mk (recv_buffer s) (keepalive s) (peer s) b (read_timeout s) (write_timeout s)
  | Syscall.SetReadTimeout d =>
      mk (recv_buffer s) (keepalive s) (peer s) (nodelay s) d (write_timeout s)
  | Syscall.SetWriteTimeout d =>
      mk (recv_buffer s) (keepalive s) (peer s) (nodelay s) (read_timeout s) d
  | Syscall.TryClone => s
  end.
End Socket.

(** What [open] does to the outside: a call on the socket, or the handshake. *)
Module Action.
Inductive t : Type :=
  | Call (c : Syscall.t)
  | Handshake.
End Action.

(** What the process sees of the outside, and what it did to it. *)
Module World.
Record t : Type := mk {
  trace : list Action.t;
  socket : Socket.t;
  input : list Handshake.event;
  output : Writer.t;
}.

(** The world behind a call with result [r]. *)
Definition called {E} (r : result E ()) (c : Syscall.t) (w : t) : t :=
  mk (trace w ++ [Action.Call c]) (match r with Ok _ => Socket.apply c (socket w) | Err _ => socket w end)
    (input w) (output w).
End World.

Module ConnectionHandle.
Record t : Type := mk {
  raw_fd : Z;
  so_rcvbuf : Z;
}.

(** The result code and the [c_int] the [ioctl] leaves. *)
Definition pending_recv_bytes (rc pending : Z) : option Z :=
  if rc <? 0 then None else Some (Z.max pending 0).
End ConnectionHandle.

Module Connection.

(** The two halves of the stream, as what they still have to say. *)
Record t : Type := mk {
  read_stream : list Handshake.event;
  command_sink : Writer.t;
  raw_fd : Z;
  so_rcvbuf : Z;
}.

(** An error, or a read that never returns. *)
Inductive stop : Type :=
  | Error (e : ClientError.t)
  | Hangs.

Section ops.
Context `{Memchr} (os : Syscall.t → result IoError.t ()) (fd : Z).

Abbreviation io := (st World.t stop).

Definition call (c : Syscall.t) : st World.t IoError.t () := λ w,
  (os c, World.called (os c) c w).

(** [call(..)?]. *)
Definition try_call (c : Syscall.t) : io () := catch (λ e, Error (ClientError.Io e)) (call c).

(** The standard library refuses a time-out of zero. *)
Definition set_timeout (c : option Z → Syscall.t) (d : option Z) : io () :=
  match d with
  | Some d' => if d' =? 0 then throw (Error (ClientError.Io IoError.Other)) else try_call (c d)
  | None => try_call (c d)
  end.

(** A refused receive buffer size is only logged. *)
Definition tune_socket (config : ConnectionConfig.t) : io () :=
  (λ w, (Ok (), (call (Syscall.SetRecvBufferSize (ConnectionConfig.so_rcvbuf config)) w).2)) ;;
  try_call (Syscall.SetKeepalive true).

Definition handshake (config : ConnectionConfig.t) : io () := λ w,
  let world s := World.mk (World.trace w ++ [Action.Handshake]) (World.socket w)
                   (Handshake.events s) (Handshake.out s) in
  match Handshake.perform config (World.output w) (World.input w) with
  | Handshake.Done s => (Ok (), world s)
  | Handshake.Failed e s => (Err (Error e), world s)
  | Handshake.Blocked s => (Err Hangs, world s)
  end.

Definition open (config : ConnectionConfig.t) : io t :=
  lift (map_err (λ e, Error (ClientError.InvalidConfig e)) (ConnectionConfig.validate config)) ;;
  try_call Syscall.NewSocket ;;
  tune_socket config ;;
  parsed ← lift (ok_or (AddrParser.parse (ConnectionConfig.addr config))
                   (Error (ClientError.InvalidConfig "host:port could not be parsed")));
  try_call (Syscall.Connect parsed 10000) ;;
  try_call (Syscall.SetNodelay true) ;;
  set_timeout Syscall.SetReadTimeout (Some (ConnectionConfig.handshake_timeout config)) ;;
  set_timeout Syscall.SetWriteTimeout (Some (ConnectionConfig.handshake_timeout config)) ;;
  handshake config ;;
  set_timeout Syscall.SetReadTimeout None ;;
  set_timeout Syscall.SetWriteTimeout None ;;
  try_call Syscall.TryClone ;;
  gets (λ w, mk (World.input w) (World.output w) fd (ConnectionConfig.so_rcvbuf config)).

Definition into_halves (c : t) : list Handshake.event * Writer.t * ConnectionHandle.t :=
  (read_stream c, command_sink c, ConnectionHandle.mk (raw_fd c) (so_rcvbuf c)).
End ops.
End Connection.

(** The steps of [open]: its checks, its calls, the handshake. *)
Module Step.
Inductive t : Type :=
  | Validate
  | Sys (c : Syscall.t)
  | Resolve (a : SocketAddr.t)
  | Timeout
  | Shake.
End Step.

(** A complete [open], in order: the handshake runs between the calls that set
    the time-outs and those that remove them. *)
Definition plan (config : ConnectionConfig.t) (a : SocketAddr.t) : list Step.t :=
  let d := Some (ConnectionConfig.handshake_timeout config) in
  [Step.Validate; Step.Sys Syscall.NewSocket;
   Step.Sys (Syscall.SetRecvBufferSize (ConnectionConfig.so_rcvbuf config));
   Step.Sys (Syscall.SetKeepalive true); Step.Resolve a; Step.Sys (Syscall.Connect a 10000);
   Step.Sys (Syscall.SetNodelay true); Step.Timeout;
   Step.Sys (Syscall.SetReadTimeout d); Step.Sys (Syscall.SetWriteTimeout d); Step.Shake;
   Step.Sys (Syscall.SetReadTimeout None); Step.Sys (Syscall.SetWriteTimeout None);
   Step.Sys Syscall.TryClone].

(** What the steps do to the outside. *)
Definition actions : list Step.t → list Action.t := omap (λ x,
  match x with
  | Step.Sys c => Some (Action.Call c)
  | Step.Shake => Some Action.Handshake
  | _ => None
  end).

Section correctness.
Context `{Memchr} (os : Syscall.t → result IoError.t ()) (fd : Z).
Import Connection.
Implicit Type config : ConnectionConfig.t.

(** The calls that must succeed: all but the buffer size. *)
Definition required config (a : SocketAddr.t) (c : Syscall.t) : Prop :=
  Step.Sys c ∈ plan config a ∧ c ≠ Syscall.SetRecvBufferSize (ConnectionConfig.so_rcvbuf config).

Definition new_world (input : list Handshake.event) (output : Writer.t) : World.t :=
  World.mk [] Socket.fresh input output.

(** When a step passes, and what it stops with when it does not. *)
Definition passes config input output (x : Step.t) : Prop :=
  match x with
  | Step.Validate => ConnectionConfig.validate config = Ok ()
  | Step.Sys (Syscall.SetRecvBufferSize _) => True
  | Step.Sys c => os c = Ok ()
  | Step.Resolve a => AddrParser.parse (ConnectionConfig.addr config) = Some a
  | Step.Timeout => ConnectionConfig.handshake_timeout config ≠ 0
  | Step.Shake => ∃ s, Handshake.perform config output input = Handshake.Done s
  end.
Definition fails config input output (x : Step.t) (e : stop) : Prop :=
  match x with
  | Step.Validate => ∃ m, ConnectionConfig.validate config = Err m ∧ e = Error (ClientError.InvalidConfig m)
  | Step.Sys (Syscall.SetRecvBufferSize _) => False
  | Step.Sys c => ∃ i, os c = Err i ∧ e = Error (ClientError.Io i)
  | Step.Resolve _ => AddrParser.parse (ConnectionConfig.addr config) = None ∧
      e = Error (ClientError.InvalidConfig "host:port could not be parsed")
  | Step.Timeout => ConnectionConfig.handshake_timeout config = 0 ∧ e = Error (ClientError.Io IoError.Other)
  | Step.Shake => ∃ s, (∃ e', Handshake.perform config output input = Handshake.Failed e' s ∧ e = Error e') ∨
      (Handshake.perform config output input = Handshake.Blocked s ∧ e = Hangs)
  end.

(** The socket after some steps. *)
Definition settle (s : Socket.t) (x : Step.t) : Socket.t :=
  match x with
  | Step.Sys c => match os c with Ok _ => Socket.apply c s | Err _ => s end
  | _ => s
  end.
Definition settings : list Step.t → Socket.t := foldl settle Socket.fresh.

(** The two directions of the stream behind the handshake. *)
Definition shaken config input output : list Handshake.event * Writer.t :=
  match Handshake.perform config output input with
  | Handshake.Done s | Handshake.Failed _ s | Handshake.Blocked s => (Handshake.events s, Handshake.out s)
  end.

(** [open] stopped with [e] at a step: the steps before it passed and did what
    they do, the step itself was tried and left the socket as it was, and
    nothing was done after it. *)
Definition stopped config input output (e : stop) (w : World.t) : Prop :=
  ∃ a before x after, plan config a = before ++ x :: after ∧
    Forall (passes config input output) before ∧ fails config input output x e ∧
    World.trace w = actions (before ++ [x]) ∧ World.socket w = settings before ∧
    ((Step.Shake ∉ before ++ [x] ∧ World.input w = input ∧ World.output w = output) ∨
     (Step.Shake ∈ before ++ [x] ∧ (World.input w, World.output w) = shaken config input output)).

(** The settings of the stream handed to the reader. *)
Definition streaming config (a : SocketAddr.t) : Socket.t :=
  Socket.mk (match os (Syscall.SetRecvBufferSize (ConnectionConfig.so_rcvbuf config)) with
             | Ok _ => Some (ConnectionConfig.so_rcvbuf config)
             | Err _ => None
             end) true (Some a) true None None.

Definition opens config input output : Prop :=
  ConnectionConfig.validate config = Ok () ∧ ConnectionConfig.handshake_timeout config ≠ 0 ∧
  ∃ a, AddrParser.parse (ConnectionConfig.addr config) = Some a ∧
    (∀ c, required config a c → os c = Ok ()) ∧
    ∃ s, Handshake.perform config output input = Handshake.Done s.

Lemma bind_step {A B} (m : st World.t stop A) (k : A → st World.t stop B) w :
  (m ≫= k) w = match m w with (Ok a, w1) => k a w1 | (Err e, w1) => (Err e, w1) end.
Proof. done. Qed.

Lemma try_call_eq c w :
  try_call os c w =
  match os c with
  | Ok _ => (Ok (), World.called (os c) c w)
  | Err e => (Err (Error (ClientError.Io e)), World.called (os c) c w)
  end.
Proof. unfold try_call, catch, call. by destruct (os c) as [[]|]. Qed.

Lemma try_call_Ok c w : os c = Ok () → try_call os c w = (Ok (), World.called (E := IoError.t) (Ok ()) c w).
Proof. intros Hc. by rewrite try_call_eq, Hc. Qed.

Lemma handshake_eq config input output w :
  World.input w = input → World.output w = output →
  handshake config w =
    let world s := World.mk (World.trace w ++ [Action.Handshake]) (World.socket w)
                     (Handshake.events s) (Handshake.out s) in
    match Handshake.perform config output input with
    | Handshake.Done s => (Ok (), world s)
    | Handshake.Failed e s => (Err (Error e), world s)
    | Handshake.Blocked s => (Err Hangs, world s)
    end.
Proof. by intros <- <-. Qed.

Lemma set_timeout_eq c d w :
  d ≠ Some 0 → set_timeout os c d w = try_call os (c d) w.
Proof. unfold set_timeout. destruct d as [d|]; [|done]. destruct (Z.eqb_spec d 0); [by subst|done]. Qed.

(** The result of [open], step by step. *)
Lemma open_Ok config input output :
  opens config input output →
  ∃ a s, AddrParser.parse (ConnectionConfig.addr config) = Some a ∧
    Handshake.perform config output input = Handshake.Done s ∧
    open os fd config (new_world input output) =
      (Ok (mk (Handshake.events s) (Handshake.out s) fd (ConnectionConfig.so_rcvbuf config)),
       World.mk (actions (plan config a)) (streaming config a) (Handshake.events s) (Handshake.out s)).
Proof.
  intros (Hv & Ht & a & Ha & Hos & s & Hs). exists a, s. split_and!; [done..|].
  assert (∀ c, Step.Sys c ∈ plan config a →
    c ≠ Syscall.SetRecvBufferSize (ConnectionConfig.so_rcvbuf config) → os c = Ok ()) as Hok
    by (intros; by apply Hos).
  unfold open, tune_socket. rewrite !bind_step, Hv. cbn [map_err lift].
  rewrite !bind_step, try_call_Ok by (apply Hok; set_solver).
  rewrite !bind_step. rewrite try_call_Ok by (apply Hok; set_solver).
  rewrite bind_step, Ha. cbn [ok_or lift].
  rewrite bind_step, try_call_Ok by (apply Hok; set_solver).
  rewrite bind_step, try_call_Ok by (apply Hok; set_solver).
  do 2 rewrite bind_step, set_timeout_eq, try_call_Ok by (congruence || apply Hok; set_solver).
  rewrite bind_step, (handshake_eq config input output), Hs by done. cbv beta iota zeta.
  do 2 rewrite bind_step, set_timeout_eq, try_call_Ok by (done || apply Hok; set_solver).
  rewrite bind_step, try_call_Ok by (apply Hok; set_solver).
  unfold gets. cbn. unfold streaming.
  by destruct (os (Syscall.SetRecvBufferSize (ConnectionConfig.so_rcvbuf config))).
Qed.

(** A failed [open]: no input but a configuration, an address, the system or
    the server is to blame. *)
Lemma open_inv config input output c w :
  open os fd config (new_world input output) = (Ok c, w) → opens config input output.
Proof.
  unfold open, tune_socket, set_timeout.
  rewrite !bind_step. destruct (ConnectionConfig.validate config) as [[]|] eqn:Hv; [|done].
  cbn [map_err lift]. rewrite !bind_step, try_call_eq. destruct (os Syscall.NewSocket) as [[]|] eqn:H1; [|done].
  rewrite !bind_step. rewrite try_call_eq.
  destruct (os (Syscall.SetKeepalive true)) as [[]|] eqn:H2; [|done].
  rewrite bind_step. destruct (AddrParser.parse (ConnectionConfig.addr config)) as [a|] eqn:Ha; [|done].
  cbn [ok_or lift]. rewrite bind_step, try_call_eq.
  destruct (os (Syscall.Connect a 10000)) as [[]|] eqn:H3; [|done].
  rewrite bind_step, try_call_eq. destruct (os (Syscall.SetNodelay true)) as [[]|] eqn:H4; [|done].
  destruct (Z.eqb_spec (ConnectionConfig.handshake_timeout config) 0) as [|Ht]; [done|].
  rewrite bind_step, try_call_eq. destruct (os (Syscall.SetReadTimeout (Some _))) as [[]|] eqn:H5; [|done].
  rewrite bind_step, try_call_eq. destruct (os (Syscall.SetWriteTimeout (Some _))) as [[]|] eqn:H6; [|done].
  rewrite bind_step, (handshake_eq config input output) by done. cbv beta iota zeta.
  destruct (Handshake.perform config output input) as [s| |] eqn:Hs; [|done..].
  rewrite bind_step, try_call_eq. destruct (os (Syscall.SetReadTimeout None)) as [[]|] eqn:H7; [|done].
  rewrite bind_step, try_call_eq. destruct (os (Syscall.SetWriteTimeout None)) as [[]|] eqn:H8; [|done].
  rewrite bind_step, try_call_eq. destruct (os Syscall.TryClone) as [[]|] eqn:H9; [|done].
  intros _. split_and!; [done..|]. exists a. split_and!; [done| |by exists s].
  intros x [Hx Hne]. unfold plan in Hx. rewrite !elem_of_cons, elem_of_nil in Hx.
  destruct_or! Hx; by simplify_eq.
Qed.

(** What every outcome of a step keeps: nothing is written before the socket
    is connected to the configured address, and no call is made but for a
    configuration that is valid. *)
Definition orderly config (output : Writer.t) (w : World.t) : Prop :=
  (World.output w = output ∨
   ∃ a, Socket.peer (World.socket w) = Some a ∧ AddrParser.parse (ConnectionConfig.addr config) = Some a) ∧
  (∀ a d, Action.Call (Syscall.Connect a d) ∈ World.trace w → AddrParser.parse (ConnectionConfig.addr config) = Some a) ∧
  (World.trace w ≠ [] → ConnectionConfig.validate config = Ok ()).

#[local] Ltac leaf Hv Ha :=
  unfold orderly, new_world; cbn -[ConnectionConfig.validate AddrParser.parse]; split_and!;
    [first [by left | by right; eexists]
    |intros ? ?; rewrite ?elem_of_cons, ?elem_of_nil;
     intros ?; destruct_or?; simplify_eq; done
    |intros ?; exact Hv].

Lemma open_orderly config input output :
  orderly config output (open os fd config (new_world input output)).2.
Proof.
  unfold open, tune_socket, set_timeout.
  rewrite !bind_step. destruct (ConnectionConfig.validate config) as [[]|] eqn:Hv.
  2: { cbn. split_and!; [by left|set_solver|done]. }
  cbn [map_err lift]. rewrite !bind_step, try_call_eq.
  destruct (os Syscall.NewSocket) as [[]|]; [|leaf Hv Hv].
  rewrite !bind_step. rewrite try_call_eq.
  destruct (os (Syscall.SetKeepalive true)) as [[]|]; [|leaf Hv Hv].
  rewrite bind_step. destruct (AddrParser.parse (ConnectionConfig.addr config)) as [a|] eqn:Ha; [|cbn [ok_or lift]; leaf Hv Ha].
  cbn [ok_or lift]. rewrite bind_step, try_call_eq.
  destruct (os (Syscall.Connect a 10000)) as [[]|]; [|leaf Hv Ha].
  rewrite bind_step, try_call_eq. destruct (os (Syscall.SetNodelay true)) as [[]|]; [|leaf Hv Ha].
  destruct (ConnectionConfig.handshake_timeout config =? 0).
  { rewrite bind_step. cbn [throw]. leaf Hv Ha. }
  rewrite bind_step, try_call_eq. destruct (os (Syscall.SetReadTimeout (Some _))) as [[]|]; [|leaf Hv Ha].
  rewrite bind_step, try_call_eq. destruct (os (Syscall.SetWriteTimeout (Some _))) as [[]|]; [|leaf Hv Ha].
  rewrite bind_step, (handshake_eq config input output) by done. cbv beta iota zeta.
  destruct (Handshake.perform config output input) as [s| |]; [|leaf Hv Ha..].
  rewrite bind_step, try_call_eq. destruct (os (Syscall.SetReadTimeout None)) as [[]|]; [|leaf Hv Ha].
  rewrite bind_step, try_call_eq. destruct (os (Syscall.SetWriteTimeout None)) as [[]|]; [|leaf Hv Ha].
  rewrite bind_step, try_call_eq. destruct (os Syscall.TryClone) as [[]|]; cbn [gets]; leaf Hv Ha.
Qed.

#[local] Ltac passed H :=
  rewrite bind_step, try_call_eq;
  match goal with |- context [match os ?c with Ok _ => (_, _) | Err _ => _ end] =>
    destruct (os c) as [[]|] eqn:H end.

Lemma settle_ok c s r : os c = r → settle s (Step.Sys c) = match r with Ok _ => Socket.apply c s | Err _ => s end.
Proof. by intros <-. Qed.

(** [open] stopped behind the first [n] steps. *)
#[local] Ltac stop_at n config a :=
  intros [= <- <-]; exists a, (take n (plan config a)); eexists; exists (drop (S n) (plan config a));
  split; [reflexivity|];
  split; [cbn [take plan]; rewrite ?Forall_cons, ?Forall_nil;
          cbn -[ConnectionConfig.validate Handshake.perform AddrParser.parse];
          split_and?; first [eassumption|eexists; eassumption|done]|];
  split; [cbn -[ConnectionConfig.validate Handshake.perform AddrParser.parse];
          first [by eexists|done|eexists; left; by eexists|eexists; by right]|];
  split; [reflexivity|];
  split; [unfold settings; cbn [take plan foldl]; 
          repeat match goal with H : os ?c = _ |- _ => rewrite (settle_ok c _ _ H) end; reflexivity|];
  first [left; split; [cbn; rewrite !elem_of_cons, elem_of_nil; intuition discriminate|done]
        |right; split; [cbn; repeat constructor|];
         unfold shaken; match goal with H : Handshake.perform _ _ _ = _ |- _ => by rewrite H end].

Lemma open_stopped config input output e w :
  open os fd config (new_world input output) = (Err e, w) → stopped config input output e w.
Proof.
  unfold open, tune_socket, set_timeout, stopped. set (nowhere := SocketAddr.V4 (0, 0, 0, 0) 0).
  rewrite !bind_step. destruct (ConnectionConfig.validate config) as [[]|m] eqn:Hv; [|stop_at 0%nat config nowhere].
  cbn [map_err lift]. passed H1; [|stop_at 1%nat config nowhere].
  rewrite !bind_step. rewrite try_call_eq.
  destruct (os (Syscall.SetKeepalive true)) as [[]|] eqn:H2; [|stop_at 3%nat config nowhere].
  rewrite bind_step. destruct (AddrParser.parse (ConnectionConfig.addr config)) as [a|] eqn:Ha;
    cbn [ok_or lift]; [|stop_at 4%nat config nowhere].
  passed H3; [|stop_at 5%nat config a]. passed H4; [|stop_at 6%nat config a].
  destruct (Z.eqb_spec (ConnectionConfig.handshake_timeout config) 0) as [Hz|Ht].
  { rewrite bind_step. stop_at 7%nat config a. }
  passed H5; [|stop_at 8%nat config a]. passed H6; [|stop_at 9%nat config a].
  rewrite bind_step, (handshake_eq config input output) by done. cbv beta iota zeta.
  destruct (Handshake.perform config output input) as [s|e' s|s] eqn:Hs; [|stop_at 10%nat config a..].
  passed H7; [|stop_at 11%nat config a]. passed H8; [|stop_at 12%nat config a]. passed H9; [|stop_at 13%nat config a].
  done.
Qed.

(** (C27) When the connection opens, how, and what every failure leaves behind.
    It opens exactly when the configuration is valid, the handshake time-out is
    not zero, [host:port] parses as a socket address, every call on the socket
    but the one that sizes its buffer succeeds, and the handshake does. It has
    then done the steps of [plan] in that order, the handshake after both
    time-outs are set and before either is removed; the stream is connected to
    that address, unbuffered, kept alive and blocking, and the reader and the
    commands get the two directions as the handshake left them. A failure is at
    one step of the plan: the steps before it passed, it fails with exactly the
    error returned, the calls made are those up to it and no other, the socket
    has the settings of the steps before it, and the stream is untouched unless
    the handshake was reached. So nothing is sent before the socket is
    connected, it is only ever connected to the parsed address, and an invalid
    configuration makes no call at all. *)
Theorem connection_open_exact config (input : list Handshake.event) (output : Writer.t) :
  let '(r, w) := open os fd config (new_world input output) in
  ((∃ c, r = Ok c) ↔ opens config input output) ∧
  (∀ c, r = Ok c → ∃ a s, AddrParser.parse (ConnectionConfig.addr config) = Some a ∧
     Handshake.perform config output input = Handshake.Done s ∧
     World.trace w = actions (plan config a) ∧ World.socket w = streaming config a ∧
     into_halves c = (Handshake.events s, Handshake.out s,
                      ConnectionHandle.mk fd (ConnectionConfig.so_rcvbuf config))) ∧
  (∀ e, r = Err e → stopped config input output e w) ∧
  orderly config output w.
Proof.
  pose proof (open_orderly config input output) as Hord.
  pose proof (open_Ok config input output) as Hok.
  pose proof (open_inv config input output) as Hinv.
  pose proof (λ e, open_stopped config input output e) as Hst.
  destruct (open os fd config _) as [r w]. cbn [snd] in Hord.
  assert ((∃ c, r = Ok c) ↔ opens config input output) as Hiff.
  { split; [intros [c ->]; by eapply Hinv|]. intros Ho.
    destruct (Hok Ho) as (? & ? & _ & _ & [= -> _]). by eexists. }
  split_and!; [done| |intros e ->; by apply Hst|done].
  intros c ->. destruct (Hok (proj1 Hiff (ex_intro _ c eq_refl))) as (a & s & Ha & Hs & [= -> ->]).
  by exists a, s.
Qed.
End correctness.

(** *** Which hosts can be configured *)

Lemma port_text_print port : 0 ≤ port ≤ u16_max → port_text (dec_print port) port.
Proof. intros Hp. destruct (dec_print_spec port) as (Hd & Hv & Hn); [lia|]. split_and!; [done|done|by rewrite Hv|lia]. Qed.

Lemma no_colon t : all_digits t = true → ":"%byte ∉ t.
Proof.
  intros Ht Hin. unfold all_digits in Ht. rewrite forallb_forall in Ht.
  by apply list_elem_of_In, Ht in Hin.
Qed.

(** Two cuts at the last colon agree. *)
Lemma last_colon_inj (h1 h2 t1 t2 : bytes) :
  ":"%byte ∉ t1 → ":"%byte ∉ t2 → h1 ++ ":"%byte :: t1 = h2 ++ ":"%byte :: t2 → h1 = h2 ∧ t1 = t2.
Proof.
  revert h2. induction h1 as [|c h1 IH]; intros [|c' h2] H1 H2; cbn.
  - by intros [= ->].
  - intros [= _ ->]. exfalso. apply H1. set_solver.
  - intros [= _ <-]. exfalso. apply H2. set_solver.
  - intros [= -> He]. destruct (IH h2 H1 H2 He) as [-> ->]. done.
Qed.

(** A host with a byte no address has. *)
Definition named (host : bytes) : Prop := Exists (λ c, ¬ addr_byte c) host.

Lemma named_unparsed (config : ConnectionConfig.t) :
  named (ConnectionConfig.host config) → AddrParser.parse (ConnectionConfig.addr config) = None.
Proof.
  intros Hex. destruct (AddrParser.parse _) as [a|] eqn:Ha; [|done]. exfalso.
  apply parse_alphabet in Ha. unfold ConnectionConfig.addr in Ha.
  apply Forall_app in Ha as [Ha _]. apply Exists_exists in Hex as (c & Hin & Hnot).
  rewrite Forall_forall in Ha. by apply Hnot, Ha.
Qed.

Lemma open_unparsed `{Memchr} (os : Syscall.t → result IoError.t ()) (fd : Z)
    (config : ConnectionConfig.t) (input : list Handshake.event) (output : Writer.t) :
  AddrParser.parse (ConnectionConfig.addr config) = None →
  ConnectionConfig.validate config = Ok () → os Syscall.NewSocket = Ok () →
  os (Syscall.SetKeepalive true) = Ok () →
  (Connection.open os fd config (new_world input output)).1 =
    Err (Connection.Error (ClientError.InvalidConfig "host:port could not be parsed")).
Proof.
  intros Hn Hv H1 H2. unfold Connection.open, Connection.tune_socket.
  rewrite !bind_step, Hv. cbn [map_err lift].
  rewrite !bind_step, try_call_eq, H1, !bind_step. by rewrite try_call_eq, H2, bind_step, Hn.
Qed.

(** Only literal addresses can be configured. The address of a
    configuration parses as IPv4 exactly when its host is a dotted quad
    (decimal octets, no leading zeros). A host with any byte outside
    hexadecimal digits, dots, colons, brackets and the per cent sign, which
    every ordinary host name has, is refused: the socket is created but never
    connected and nothing is sent, and unless an earlier step fails the error
    is an invalid configuration. No name is ever resolved. *)
Theorem connection_needs_literal_address `{Memchr} (os : Syscall.t → result IoError.t ()) (fd : Z)
    (config : ConnectionConfig.t) (input : list Handshake.event) (output : Writer.t) :
  0 ≤ ConnectionConfig.port config ≤ u16_max →
  let '(r, w) := Connection.open os fd config (new_world input output) in
  (∀ ip p, AddrParser.parse (ConnectionConfig.addr config) = Some (SocketAddr.V4 ip p) ↔
     quad (ConnectionConfig.host config) ip ∧ p = ConnectionConfig.port config) ∧
  (named (ConnectionConfig.host config) →
     (∀ a d, Action.Call (Syscall.Connect a d) ∉ World.trace w) ∧ (∀ c, r ≠ Ok c) ∧ World.output w = output ∧
     (ConnectionConfig.validate config = Ok () → os Syscall.NewSocket = Ok () →
      os (Syscall.SetKeepalive true) = Ok () →
      r = Err (Connection.Error (ClientError.InvalidConfig "host:port could not be parsed")))).
Proof.
  intros Hp. pose proof (open_orderly os fd config input output) as (Ho & Hc & _).
  pose proof (open_inv os fd config input output) as Hinv.
  destruct (Connection.open os fd config _) as [r w] eqn:Hopen. cbn [snd] in Ho, Hc. split.
  - intros ip p. unfold ConnectionConfig.addr. cbn [bs String.list_byte_of_string].
    change (_ ++ _ ++ dec_print _) with
      (ConnectionConfig.host config ++ ":"%byte :: dec_print (ConnectionConfig.port config)).
    destruct (port_text_print _ Hp) as (Hd & _ & Hv & _). rewrite parse_V4_iff. split.
    + intros (host & tp & He & Hq & (Htd & _ & -> & _)).
      destruct (last_colon_inj _ _ _ _ (no_colon _ Hd) (no_colon _ Htd) He) as [-> <-].
      split; [done|]. by rewrite <-Hv.
    + intros [Hq ->]. eexists _, _. split; [done|]. split; [done|]. by apply port_text_print.
  - intros Hn%named_unparsed. split_and!.
    + intros a d Hin%Hc. congruence.
    + intros c ->. destruct (Hinv c w eq_refl) as (_ & _ & a & Ha & _). congruence.
    + destruct Ho as [|(a & _ & Ha)]; [done|congruence].
    + intros Hv H1 H2. pose proof (open_unparsed os fd config input output Hn Hv H1 H2) as Hr.
      by rewrite Hopen in Hr.
Qed.

(** ** Witnesses *)

Definition all_ok (c : Syscall.t) : result IoError.t () := Ok ().
Definition server_text : list Handshake.event :=
  Handshake.chunk_event <$> [bs "Welcome to Cedro"; bs "Username:"; bs "Password:"; bs "You are connected"].
Definition local_config : ConnectionConfig.t :=
  ConnectionConfig.new (bs "127.0.0.1") (bs "user") (bs "secret").
(** The host of [.env.example]. *)
Definition named_config : ConnectionConfig.t :=
  ConnectionConfig.new (bs "datafeed.cedrotech.com") (bs "user") (bs "secret").

Lemma connection_opens_locally :
  (Connection.open (H := memchr_reference) all_ok 3 local_config (new_world server_text Writer.new)).1 =
    Ok (Connection.mk [] (Writer.mk (Handshake.credentials local_config) []) 3 (128 * 1024 * 1024)).
Proof. vm_compute. reflexivity. Qed.

Lemma connection_needs_literal_address_witness :
  (Connection.open (H := memchr_reference) all_ok 3 named_config (new_world server_text Writer.new)).1 =
    Err (Connection.Error (ClientError.InvalidConfig "host:port could not be parsed")).
Proof.
  assert (0 ≤ ConnectionConfig.port named_config ≤ u16_max) as Hp by (vm_compute; split; discriminate).
  pose proof (connection_needs_literal_address (H := memchr_reference) all_ok 3 named_config
    server_text Writer.new Hp) as Hn.
  destruct (Connection.open _ _ _ _) as [r w]. destruct Hn as (_ & Hex).
  destruct Hex as (_ & _ & _ & Hr).
  - apply Exists_exists. exists "t"%byte. split.
    + apply (bool_decide_eq_true_1 (_ ∈ _)). vm_compute. reflexivity.
    + intros [[d Hd]|Hin]; [vm_compute in Hd; discriminate Hd|].
      apply (bool_decide_eq_true_2 (_ ∈ _)) in Hin. vm_compute in Hin. discriminate Hin.
  - apply Hr; [vm_compute; reflexivity|reflexivity|reflexivity].
Defined.
