(* ===== verification/Reader.v ===== *)
(** * Reader and watchdog threads ([cedro-client/src/reader.rs])

    The reader is a loop over what its reads give and what the stop flag says
    before each; the channel is the frames delivered to it and how many more
    its receiver will take. The watchdog is a loop over its samples. *)

From S2P Require Import Prelude RustInt RustFloat Externs Frame Handshake.

Module Reader.

Definition frame : Type := (FrameKind.t * bytes)%type.

(** The outcome of [stream.read]. *)
Inductive read : Type :=
  | Data (chunk : bytes)
  | Interrupted
  | Failed.

(** [room] is how many frames the receiver takes before it is dropped, [None]
    when it stays. *)
Record channel : Type := mk_channel {
  delivered : list frame;
  room : option nat;
}.

(** [try_send], then the blocking [send] when the channel is full: the frame
    is delivered unless the receiver is gone. *)
Definition send (f : frame) (ch : channel) : option channel :=
  match room ch with
  | None => Some (mk_channel (delivered ch ++ [f]) None)
  | Some O => None
  | Some (S n) => Some (mk_channel (delivered ch ++ [f]) (Some n))
  end.

Section ops.
Context `{Memchr}.

(** The inner [while let] loop; [false] when the thread returns. *)
Fixpoint send_frames (fuel : nat) (s : FrameSplitter.t) (ch : channel)
    : bool * FrameSplitter.t * channel :=
  match fuel with
  | O => (true, s, ch)
  | S fuel' =>
      match FrameSplitter.next_frame s with
      | (None, s) => (true, s, ch)
      | (Some f, s) =>
          match send f ch with
          | None => (false, s, ch)
          | Some ch => send_frames fuel' s ch
          end
      end
  end.

(** Every read comes with the stop flag as it is just before. *)
Fixpoint loop (events : list (bool * read)) (s : FrameSplitter.t) (ch : channel)
    : FrameSplitter.t * channel :=
  match events with
  | [] => (s, ch)
  | (stop, r) :: events' =>
      if stop : bool then (s, ch)
      else match r with
           | Interrupted => loop events' s ch
           | Failed => (s, ch)
           | Data chunk =>
               if (length chunk =? 0)%nat then (s, ch)
               else
                 let s := FrameSplitter.extend_from_slice s chunk in
                 let '(continue, s, ch) := send_frames (S (FrameSplitter.pending s)) s ch in
                 if continue : bool then loop events' s ch else (s, ch)
           end
  end.

Definition reader_loop (events : list (bool * read)) (room : option nat)
    : FrameSplitter.t * channel :=
  loop events (FrameSplitter.with_capacity (8 * 1024 * 1024)) (mk_channel [] room).
End ops.
End Reader.

(** The bytes the reader takes from the socket before it returns. *)
Fixpoint bytes_read (events : list (bool * Reader.read)) : bytes :=
  match events with
  | (false, Reader.Interrupted) :: events' => bytes_read events'
  | (false, Reader.Data ((_ :: _) as chunk)) :: events' => chunk ++ bytes_read events'
  | _ => []
  end.

Definition take_room {A} (room : option nat) (l : list A) : list A :=
  match room with None => l | Some n => take n l end.

Section correctness.
Context `{MemchrSpec}.
Import Reader.

(** How many more frames fit after [l]. *)
Definition room_after {A} (r : option nat) (l : list A) : option nat :=
  match r with None => None | Some n => Some (n - length l)%nat end.

Definition fits_room {A} (r : option nat) (l : list A) : bool :=
  match r with None => true | Some n => (length l <=? n)%nat end.

Lemma send_frames_spec fuel : ∀ s ch,
  (FrameSplitter.pending s < fuel)%nat →
  let fs := (split_frames (FrameSplitter.buf s)).1 in
  let '(continue, s', ch') := send_frames fuel s ch in
  continue = fits_room (room ch) fs ∧
  delivered ch' = delivered ch ++ take_room (room ch) fs ∧
  (continue = true → room ch' = room_after (room ch) fs ∧
     FrameSplitter.buf s' = (split_frames (FrameSplitter.buf s)).2).
Proof.
  induction fuel as [|fuel IH]; intros s ch Hf; [lia|]. cbn [send_frames].
  pose proof (next_frame_spec s) as Hs.
  destruct (FrameSplitter.next_frame s) as [[[k f]|] s'].
  - destruct Hs as [Hbuf Hclean]. unfold FrameSplitter.pending in *.
    rewrite Hbuf, split_frames_app_frame, kind_of_terminator
      by (done || apply is_terminator_terminator). cbn [fst snd].
    rewrite Hbuf, length_app in Hf. simpl in Hf.
    unfold send. destruct (room ch) as [[|n]|] eqn:Hr.
    + cbn. split_and!; [done|by rewrite app_nil_r|done].
    + specialize (IH s' (mk_channel (delivered ch ++ [(k, f)]) (Some n)) ltac:(lia)).
      cbn [room delivered] in IH.
      destruct (send_frames fuel s' _) as [[c s''] ch'].
      destruct IH as (Hc & Hd & Hi). cbn [fits_room take_room take length].
      split_and!; [by rewrite Hc|by rewrite Hd, <-(assoc_L (++))|]. intros Hct.
      destruct (Hi Hct) as [-> ->]. done.
    + specialize (IH s' (mk_channel (delivered ch ++ [(k, f)]) None) ltac:(lia)).
      cbn [room delivered] in IH.
      destruct (send_frames fuel s' _) as [[c s''] ch'].
      destruct IH as (Hc & Hd & Hi). cbn [fits_room take_room].
      split_and!; [by rewrite Hc|by rewrite Hd, <-(assoc_L (++))|done].
  - destruct Hs as [-> Hclean]. rewrite split_frames_clean by done. cbn [fst snd].
    split_and!.
    + by destruct (room ch).
    + destruct (room ch); simpl; rewrite ?take_nil; by rewrite app_nil_r.
    + intros _. split; [|done]. destruct (room ch); simpl; [|done]. f_equal. lia.
Qed.

Lemma loop_spec events : ∀ s ch,
  clean (FrameSplitter.buf s) →
  delivered (loop events s ch).2 =
    delivered ch ++
    take_room (room ch) (split_frames (FrameSplitter.buf s ++ bytes_read events)).1.
Proof.
  assert (∀ s ch, clean (FrameSplitter.buf s) → delivered ch =
    delivered ch ++ take_room (room ch) (split_frames (FrameSplitter.buf s ++ [])).1) as Hend.
  { intros s ch Hs. rewrite app_nil_r, split_frames_clean by done. cbn [fst].
    destruct (room ch); simpl; rewrite ?take_nil; by rewrite app_nil_r. }
  induction events as [|[stop r] events IH]; intros s ch Hs; [by apply Hend|].
  cbn [loop]. destruct stop; [by apply Hend|].
  destruct r as [[|c chunk]| |]; [by apply Hend| |by apply IH|by apply Hend].
  cbn [length Nat.eqb bytes_read]. set (ck := c :: chunk).
  set (s1 := FrameSplitter.extend_from_slice s ck).
  pose proof (send_frames_spec (S (FrameSplitter.pending s1)) s1 ch ltac:(lia)) as Hsend.
  destruct (send_frames _ s1 ch) as [[cont s2] ch2].
  change (FrameSplitter.buf s1) with (FrameSplitter.buf s ++ ck) in Hsend.
  destruct Hsend as (Hc & Hd & Hi).
  rewrite (assoc_L (++)), (split_frames_app (FrameSplitter.buf s ++ ck)). cbn [fst].
  destruct (split_frames (FrameSplitter.buf s ++ ck)) as [fs rest] eqn:Hsf. cbn [fst snd] in *.
  destruct cont.
  - destruct (Hi eq_refl) as [Hr Hb]. rewrite IH.
    2: { rewrite Hb. pose proof (split_frames_sound (FrameSplitter.buf s ++ ck)) as (_ & _ & Hcl).
         by rewrite Hsf in Hcl. }
    rewrite Hd, Hr, Hb, <-(assoc_L (++)). f_equal.
    destruct (room ch) as [n|]; simpl in *; [|done]. symmetry in Hc. apply Nat.leb_le in Hc.
    by rewrite take_app_ge, (take_ge fs) by done.
  - cbn [snd]. rewrite Hd. f_equal. destruct (room ch) as [n|]; simpl in *; [|done].
    symmetry in Hc. apply Nat.leb_gt in Hc. by rewrite take_app_le by lia.
Qed.

(** The reader delivers the stream. However the socket cuts the stream
    into reads and however often reads are interrupted, the frames delivered
    to the channel are, in order, exactly the complete frames of the bytes
    read before the end of the stream, an error or the stop flag: all of
    them while the receiver lives, otherwise the first ones up to the point
    where it went away. The thread terminates with its input. *)
Theorem reader_delivers_stream (events : list (bool * read)) (r : option nat) :
  delivered (reader_loop events r).2 = take_room r (split_frames (bytes_read events)).1.
Proof. unfold reader_loop. by rewrite loop_spec by constructor. Qed.
End correctness.

Lemma reader_delivers_stream_witness :
  Reader.delivered (@Reader.reader_loop memchr_reference
    [(false, Reader.Data (bs "T:PETR4:10")); (false, Reader.Interrupted);
     (false, Reader.Data (bs "1!GT")); (true, Reader.Data (bs "C:1!"))] None).2
  = [(FrameKind.Bang, bs "T:PETR4:101")].
Proof.
  rewrite (@reader_delivers_stream memchr_reference memchr_reference_spec).
  vm_compute. reflexivity.
Defined.

(** ** Watchdog *)

Module Watchdog.

(** The thresholds in bytes, computed in binary64 as the code does. *)
Definition threshold (buffer_size : Z) (ratio : f64) : Z :=
  usize_of_f64 (f64_mul (f64_of_int buffer_size) ratio).

(** The loop over samples: the stop flag before each, and what [FIONREAD]
    reports ([None] when the call fails). The result is the panic flag and the
    number of warnings counted. *)
Fixpoint loop (warn_bytes panic_bytes : Z) (samples : list (bool * option Z)) (warnings : nat)
    : bool * nat :=
  match samples with
  | [] => (false, warnings)
  | (stop, pending) :: samples' =>
      if stop : bool then (false, warnings)
      else match pending with
           | None => (false, warnings)
           | Some p =>
               if panic_bytes <=? p then (true, warnings)
               else
                 let warnings := if warn_bytes <=? p then S warnings else warnings in
                 loop warn_bytes panic_bytes samples' warnings
           end
  end.

Definition watchdog_loop (buffer_size : Z) (warn_ratio panic_ratio : f64)
    (samples : list (bool * option Z)) : bool * nat :=
  loop (threshold buffer_size warn_ratio) (threshold buffer_size panic_ratio) samples 0.
End Watchdog.

(** The samples the watchdog gets to see. *)
Fixpoint live_samples (samples : list (bool * option Z)) : list Z :=
  match samples with
  | (false, Some p) :: samples' => p :: live_samples samples'
  | _ => []
  end.

(** The watchdog asks for termination exactly when one of the samples it
    takes before being stopped or failing reaches the panic threshold, the
    threshold included; each earlier sample at or over the warning threshold
    counts one warning. With the default buffer of 128 MiB the thresholds are
    26843545 and 53687091 bytes. *)
Theorem watchdog_panics_at_threshold (buffer_size : Z) (warn_ratio panic_ratio : f64)
    (samples : list (bool * option Z)) :
  let panics p := bool_decide (Watchdog.threshold buffer_size panic_ratio ≤ p) in
  let warns p := bool_decide (Watchdog.threshold buffer_size warn_ratio ≤ p) in
  let before := List.filter warns
    (match list_find (λ p, panics p = true) (live_samples samples) with
     | Some (i, _) => take i (live_samples samples)
     | None => live_samples samples
     end) in
  Watchdog.watchdog_loop buffer_size warn_ratio panic_ratio samples =
    (existsb panics (live_samples samples), length before) ∧
  Watchdog.threshold (128 * 1024 * 1024) (f64_lit "0.20") = 26843545 ∧
  Watchdog.threshold (128 * 1024 * 1024) (f64_lit "0.40") = 53687091.
Proof.
  cbn zeta. split; [|by vm_compute]. unfold Watchdog.watchdog_loop.
  generalize (Watchdog.threshold buffer_size panic_ratio)
    (Watchdog.threshold buffer_size warn_ratio). intros pb wb.
  assert (∀ samples n, Watchdog.loop wb pb samples n =
    (existsb (λ p, bool_decide (pb ≤ p)%Z) (live_samples samples),
     (n + length (List.filter (λ p, bool_decide (wb ≤ p)%Z)
       match list_find (λ p, bool_decide (pb ≤ p)%Z = true) (live_samples samples) with
       | Some (i, _) => take i (live_samples samples)
       | None => live_samples samples
       end))%nat)) as Hloop; [|by rewrite Hloop].
  clear. intros samples. induction samples as [|[stop pending] samples IH]; intros n.
  - cbn. by rewrite Nat.add_0_r.
  - destruct stop; [cbn; by rewrite Nat.add_0_r|].
    destruct pending as [p|]; [|cbn; by rewrite Nat.add_0_r].
    cbn [Watchdog.loop live_samples existsb list_find].
    destruct (Z.leb_spec pb p) as [Hp|Hp].
    + rewrite bool_decide_eq_true_2 by done. cbn. by rewrite Nat.add_0_r.
    + rewrite bool_decide_eq_false_2 by lia. cbn [orb]. rewrite IH.
      rewrite decide_False by done. f_equal.
      destruct (list_find _ (live_samples samples)) as [[i q]|];
        cbn [fmap option_fmap option_map prod_map fst snd];
        cbn [take List.filter];
        (destruct (Z.leb_spec wb p); [rewrite bool_decide_eq_true_2 by done|
          rewrite bool_decide_eq_false_2 by lia]); cbn [length]; lia.
Qed.
