(* ===== verification/ReaderThreads.v ===== *)
(** * The reader's threads ([cedro-client/src/reader.rs])

    [Reader::spawn], the reader and the watchdog over the shared flags and the
    bounded channel, and [ReaderHandle::shutdown], as the interleaved steps of
    four parties: the reader thread, the watchdog thread, the workers that
    receive, and the owner of the handle. A schedule is the list of the steps
    taken. *)

From S2P Require Import Prelude RustInt RustFloat RustIo ClientError Externs Frame Handshake.
From S2P Require Import Connection Reader.

(** [Frame], the pair the channel carries. *)
#[local] Abbreviation wire_frame := (FrameKind.t * bytes)%type.

Module ReaderCfg.
Record t : Type := mk { cpu_affinity : option Z }.
End ReaderCfg.

Module WatchdogCfg.
Record t : Type := mk {
  cpu_affinity : option Z;
  interval : Z;
  warn_ratio : f64;
  panic_ratio : f64;
  buffer_size : Z;
}.
End WatchdogCfg.

Module ReaderThreads.

(** Where the reader is: before it loads the stop flag, in [read], before it
    takes the next frame out of the splitter, in the blocking [send], gone. *)
Inductive reader_at : Type :=
  | Check (s : FrameSplitter.t)
  | Reading (s : FrameSplitter.t)
  | Framing (s : FrameSplitter.t)
  | Blocked (f : wire_frame) (s : FrameSplitter.t)
  | Returned.

(** The owner: holding the handle, joining the reader, joining the watchdog,
    the handle gone. *)
Inductive phase : Type :=
  | Held
  | Joining
  | JoiningWatchdog
  | Gone.
#[global] Instance phase_eq_dec : EqDecision phase.
Proof. solve_decision. Defined.

Section threads.
Context `{!Memchr, !Crossbeam wire_frame}.

(** [received] are the frames the workers took, [bytes_in] the bytes read. *)
Record state : Type := mk {
  stop_flag : bool;
  panic_flag : bool;
  reader : reader_at;
  watchdog : option WatchdogCfg.t;
  frames : chan;
  workers : nat;
  owner : phase;
  received : list wire_frame;
  bytes_in : bytes;
}.

(** [Reader::spawn]; [None] is a thread the system refuses. A watchdog that
    cannot be spawned leaves the reader running, without a handle. *)
Definition spawn (handle : ConnectionHandle.t) (config : ConnectionConfig.t) (workers : nat)
    (reader_ok watchdog_ok : bool) : result ClientError.t state :=
  let frames := chan_bounded (Z.to_nat (ConnectionConfig.frame_channel_capacity config)) in
  let reader_cfg := ReaderCfg.mk (ConnectionConfig.reader_cpu_affinity config) in
  let watchdog_cfg := WatchdogCfg.mk (ConnectionConfig.watchdog_cpu_affinity config)
    (ConnectionConfig.watchdog_interval config) (ConnectionConfig.backpressure_warn_ratio config)
    (ConnectionConfig.backpressure_panic_ratio config) (ConnectionHandle.so_rcvbuf handle) in
  if reader_ok then
    if watchdog_ok then
      Ok (mk false false (Check (FrameSplitter.with_capacity (8 * 1024 * 1024))) (Some watchdog_cfg)
            frames workers Held [] [])
    else Err (ClientError.Io IoError.Other)
  else Err (ClientError.Io IoError.Other).

Inductive event : Type :=
  | ReaderRun
  | ReaderRead (r : Reader.read)
  | WatchdogRun (pending : option Z)
  | Recv
  | WorkerExit
  | Shutdown
  | Join
  | DropHandle.

Definition with_reader (r : reader_at) (s : state) : state :=
  mk (stop_flag s) (panic_flag s) r (watchdog s) (frames s) (workers s) (owner s) (received s) (bytes_in s).
Definition with_watchdog (panic : bool) (w : option WatchdogCfg.t) (s : state) : state :=
  mk (stop_flag s) panic (reader s) w (frames s) (workers s) (owner s) (received s) (bytes_in s).
Definition with_frames (c : chan) (s : state) : state :=
  mk (stop_flag s) (panic_flag s) (reader s) (watchdog s) c (workers s) (owner s) (received s) (bytes_in s).
Definition with_bytes (b : bytes) (s : state) : state :=
  mk (stop_flag s) (panic_flag s) (reader s) (watchdog s) (frames s) (workers s) (owner s) (received s)
    (bytes_in s ++ b).
Definition with_owner (stop : bool) (p : phase) (s : state) : state :=
  mk stop (panic_flag s) (reader s) (watchdog s) (frames s) (workers s) p (received s) (bytes_in s).

(** The receivers are the workers' and, until it is gone, the handle's. *)
Definition receivers_left (workers : nat) (p : phase) : bool :=
  (0 <? workers)%nat || negb (bool_decide (p = Gone)).
Definition drop_receiver (workers : nat) (p : phase) (s : state) : state :=
  mk (stop_flag s) (panic_flag s) (reader s) (watchdog s)
    (if receivers_left workers p then frames s else chan_disconnect (frames s))
    workers p (received s) (bytes_in s).

(** The reader between two reads; [None] when it cannot move. *)
Definition reader_run (s : state) : option state :=
  match reader s with
  | Check sp => Some (with_reader (if stop_flag s then Returned else Reading sp) s)
  | Reading _ => None
  | Framing sp =>
      match FrameSplitter.next_frame sp with
      | (None, sp) => Some (with_reader (Check sp) s)
      | (Some f, sp) =>
          match chan_try_send f (frames s) with
          | (Sent, c) => Some (with_reader (Framing sp) (with_frames c s))
          | (Full, _) => Some (with_reader (Blocked f sp) s)
          | (Disconnected, _) => Some (with_reader Returned s)
          end
      end
  | Blocked f sp =>
      match chan_try_send f (frames s) with
      | (Sent, c) => Some (with_reader (Framing sp) (with_frames c s))
      | (Full, _) => None
      | (Disconnected, _) => Some (with_reader Returned s)
      end
  | Returned => None
  end.

(** What [read] gives; no bytes is the end of the stream. *)
Definition reader_read (r : Reader.read) (s : state) : option state :=
  match reader s with
  | Reading sp =>
      match r with
      | Reader.Interrupted => Some (with_reader (Check sp) s)
      | Reader.Failed => Some (with_reader Returned s)
      | Reader.Data [] => Some (with_reader Returned s)
      | Reader.Data chunk =>
          Some (with_reader (Framing (FrameSplitter.extend_from_slice sp chunk)) (with_bytes chunk s))
      end
  | _ => None
  end.

(** One turn of the watchdog's loop, with what [FIONREAD] says in it. *)
Definition watchdog_run (pending : option Z) (s : state) : option state :=
  match watchdog s with
  | None => None
  | Some cfg =>
      if stop_flag s then Some (with_watchdog (panic_flag s) None s)
      else match pending with
           | None => Some (with_watchdog (panic_flag s) None s)
           | Some p =>
               if Watchdog.threshold (WatchdogCfg.buffer_size cfg) (WatchdogCfg.panic_ratio cfg) <=? p
               then Some (with_watchdog true None s)
               else Some s
           end
  end.

Definition step (ev : event) (s : state) : option state :=
  match ev with
  | ReaderRun => reader_run s
  | ReaderRead r => reader_read r s
  | WatchdogRun pending => watchdog_run pending s
  | Recv =>
      match workers s, chan_try_recv (frames s) with
      | S _, (Some f, c) =>
          Some (mk (stop_flag s) (panic_flag s) (reader s) (watchdog s) c (workers s) (owner s)
                  (received s ++ [f]) (bytes_in s))
      | _, _ => None
      end
  | WorkerExit =>
      match workers s with S n => Some (drop_receiver n (owner s) s) | O => None end
  | Shutdown =>
      match owner s with Held => Some (with_owner true Joining s) | _ => None end
  | Join =>
      match owner s, reader s, watchdog s with
      | Joining, Returned, _ => Some (with_owner (stop_flag s) JoiningWatchdog s)
      | JoiningWatchdog, _, None => Some (drop_receiver (workers s) Gone s)
      | _, _, _ => None
      end
  | DropHandle =>
      match owner s with Held => Some (drop_receiver (workers s) Gone s) | _ => None end
  end.

Fixpoint run (evs : list event) (s : state) : option state :=
  match evs with
  | [] => Some s
  | ev :: evs' => s ← step ev s; run evs' s
  end.

Definition panic_requested (s : state) : bool := panic_flag s.
End threads.
End ReaderThreads.

Section correctness.
Context `{MemchrSpec, CrossbeamSpec wire_frame}.
Import ReaderThreads.
Implicit Types s : state.

Lemma next_frame_split sp :
  match FrameSplitter.next_frame sp with
  | (Some f, sp') => split_frames (FrameSplitter.buf sp) =
      (f :: (split_frames (FrameSplitter.buf sp')).1, (split_frames (FrameSplitter.buf sp')).2)
  | (None, sp') => sp' = sp ∧ clean (FrameSplitter.buf sp)
  end.
Proof.
  pose proof (next_frame_spec sp) as Hs. destruct (FrameSplitter.next_frame sp) as [[[k f]|] sp']; [|done].
  destruct Hs as [-> Hc]. by rewrite split_frames_app_frame, kind_of_terminator
    by (done || apply is_terminator_terminator).
Qed.

(** The frames the reader has in hand, the one it is sending first. *)
Definition in_reader (r : reader_at) : list wire_frame :=
  match r with
  | Framing sp => (split_frames (FrameSplitter.buf sp)).1
  | Blocked f sp => f :: (split_frames (FrameSplitter.buf sp)).1
  | _ => []
  end.
(** The incomplete frame behind them. *)
Definition tail_of (r : reader_at) : option bytes :=
  match r with
  | Check sp | Reading sp => Some (FrameSplitter.buf sp)
  | Framing sp | Blocked _ sp => Some (split_frames (FrameSplitter.buf sp)).2
  | Returned => None
  end.

(** Every complete frame of the bytes read is received, queued or in the
    reader's hand, in this order; only a reader whose receivers are all gone
    loses the rest. *)
Definition accounted (n : nat) (s : state) : Prop :=
  (∃ lost, (split_frames (bytes_in s)).1 =
             received s ++ chan_queue (frames s) ++ in_reader (reader s) ++ lost ∧
           (chan_connected (frames s) = true ∨ reader s ≠ Returned → lost = [])) ∧
  (∀ t, tail_of (reader s) = Some t → t = (split_frames (bytes_in s)).2) ∧
  chan_capacity (frames s) = n ∧ (length (chan_queue (frames s)) ≤ n)%nat ∧
  chan_connected (frames s) = receivers_left (workers s) (owner s).

Lemma accounted_move n r s :
  in_reader r = in_reader (reader s) → (∀ t, tail_of r = Some t → tail_of (reader s) = Some t) →
  (r ≠ Returned → reader s ≠ Returned) →
  (r = Returned → chan_connected (frames s) = true → in_reader (reader s) = [] → reader s ≠ Returned) →
  accounted n s → accounted n (with_reader r s).
Proof.
  intros Hi Ht Hr Hr' ((lost & Hf & Hl) & Htail & Hc & Hq & Hcon).
  split_and!; [|intros t Hx; apply Htail; by apply Ht|done..].
  exists lost. cbn [with_reader bytes_in received frames reader]. rewrite Hi. split; [done|].
  intros [Hx|Hx]; apply Hl; [by left|right]. by apply Hr.
Qed.

Lemma send_accounted n (f : wire_frame) sp s :
  accounted n s →
  (in_reader (reader s) = f :: (split_frames (FrameSplitter.buf sp)).1) →
  tail_of (reader s) = Some (split_frames (FrameSplitter.buf sp)).2 →
  match chan_try_send f (frames s) with
  | (Sent, c) => accounted n (with_reader (Framing sp) (with_frames c s))
  | (Full, _) => accounted n (with_reader (Blocked f sp) s)
  | (Disconnected, _) => accounted n (with_reader Returned s)
  end.
Proof.
  intros ((lost & Hf & Hl) & Htail & Hc & Hq & Hcon) Hin Ht.
  assert (reader s ≠ Returned) as Hne by (intros E; by rewrite E in Ht).
  assert (lost = []) as -> by (apply Hl; by right). rewrite app_nil_r in Hf.
  pose proof (chan_try_send_spec f (frames s)) as Hsend.
  destruct (chan_try_send f (frames s)) as [[] c].
  - destruct Hsend as (Hco & Hlt & Hqu & Hca & Hco'). unfold accounted.
    cbn [with_reader with_frames bytes_in received frames reader workers owner in_reader].
    split_and!.
    + exists []. split; [|done]. rewrite Hf, Hqu, Hin, app_nil_r, <-!(assoc_L (++)). done.
    + intros t [= <-]. by apply Htail.
    + congruence.
    + rewrite Hqu, length_app. cbn. lia.
    + congruence.
  - unfold accounted. cbn [with_reader bytes_in received frames reader workers owner in_reader].
    split_and!; [|intros t [= <-]; by apply Htail|done..].
    exists []. split; [|done]. by rewrite app_nil_r, Hf, Hin.
  - destruct Hsend as (_ & Hd). unfold accounted.
    cbn [with_reader bytes_in received frames reader workers owner in_reader app].
    split_and!; [|done..]. exists (in_reader (reader s)). split; [done|].
    intros [?|?]; [congruence|done].
Qed.

Lemma reader_run_accounted n s s' : reader_run s = Some s' → accounted n s → accounted n s'.
Proof.
  unfold reader_run. intros Hstep Ha. destruct (reader s) as [sp|sp|sp|f sp|] eqn:Hr; [|done| | |done].
  - injection Hstep as <-. apply accounted_move; rewrite ?Hr; destruct (stop_flag s); try done.
  - pose proof (next_frame_split sp) as Hn.
    destruct (FrameSplitter.next_frame sp) as [[f|] sp'].
    + pose proof (send_accounted n f sp' s Ha) as Hs. rewrite Hr in Hs. cbn [in_reader tail_of] in Hs.
      rewrite Hn in Hs. specialize (Hs eq_refl eq_refl).
      destruct (chan_try_send f (frames s)) as [[] c]; by injection Hstep as <-.
    + destruct Hn as [-> Hcl]. injection Hstep as <-.
      apply accounted_move; rewrite ?Hr; cbn [in_reader tail_of]; rewrite ?split_frames_clean by done; done.
  - pose proof (send_accounted n f sp s Ha) as Hs. rewrite Hr in Hs. specialize (Hs eq_refl eq_refl).
    destruct (chan_try_send f (frames s)) as [[] c]; [by injection Hstep as <-|done|by injection Hstep as <-].
Qed.

Lemma reader_read_accounted n r s s' : reader_read r s = Some s' → accounted n s → accounted n s'.
Proof.
  unfold reader_read. intros Hstep Ha. destruct (reader s) as [|sp| | |] eqn:Hr; [done| |done..].
  assert (∀ r', r' = Check sp ∨ r' = Returned → accounted n (with_reader r' s)) as Hmove.
  { intros r' [->| ->]; apply accounted_move; rewrite ?Hr; done. }
  destruct r as [[|b chunk]| |]; try (injection Hstep as <-; apply Hmove; auto; done).
  injection Hstep as <-. set (ck := b :: chunk).
  destruct Ha as ((lost & Hf & Hl) & Htail & Hc & Hq & Hcon). rewrite Hr in *. cbn [in_reader app] in Hf.
  assert (lost = []) as -> by (apply Hl; by right). rewrite app_nil_r in Hf.
  specialize (Htail _ eq_refl). unfold accounted.
  cbn [with_reader with_bytes bytes_in received frames reader workers owner in_reader tail_of].
  change (FrameSplitter.buf (FrameSplitter.extend_from_slice sp ck)) with (FrameSplitter.buf sp ++ ck).
  rewrite split_frames_app, <-Htail. cbn [fst snd]. split_and!; [|by intros t [= <-]|done..].
  exists []. split; [|done]. by rewrite app_nil_r, Hf, <-!(assoc_L (++)).
Qed.

Lemma receivers_left_mono w w' p p' :
  (w' ≤ w)%nat → (p = Gone → p' = Gone) → receivers_left w' p' = true → receivers_left w p = true.
Proof.
  unfold receivers_left. intros Hw Hp.
  rewrite !orb_true_iff, !Nat.ltb_lt, !negb_true_iff, !bool_decide_eq_false.
  intros [?|?]; [left; lia|]. destruct (decide (p = Gone)); [|by right]. exfalso. auto.
Qed.

Lemma drop_accounted n w p s :
  (w ≤ workers s)%nat → (owner s = Gone → p = Gone) → accounted n s → accounted n (drop_receiver w p s).
Proof.
  intros Hw Hp ((lost & Hf & Hl) & Htail & Hc & Hq & Hcon). unfold accounted, drop_receiver.
  cbn [bytes_in received frames reader workers owner].
  destruct (receivers_left w p) eqn:Hleft.
  - split_and!; [by exists lost|done..|]. rewrite Hcon. by eapply receivers_left_mono.
  - destruct (chan_disconnect_spec (frames s)) as (-> & -> & Hd). split_and!; [|done..].
    exists lost. split; [done|]. rewrite Hd. intros [|?]; [done|]. apply Hl. by right.
Qed.

Lemma step_accounted n ev s s' : step ev s = Some s' → accounted n s → accounted n s'.
Proof.
  destruct ev; cbn [step].
  - apply reader_run_accounted.
  - apply reader_read_accounted.
  - unfold watchdog_run. intros Hs Ha. destruct (watchdog s) as [cfg|]; [|done].
    destruct (stop_flag s); [by injection Hs as <-|].
    destruct pending as [p|]; [|by injection Hs as <-].
    destruct (_ <=? p); by injection Hs as <-.
  - destruct (workers s) as [|w] eqn:Hw; [done|]. pose proof (chan_try_recv_spec (frames s)) as Hrecv.
    destruct (chan_try_recv (frames s)) as [[f|] c]; [|done]. intros [= <-].
    destruct Hrecv as (Hqu & Hca & Hco).
    intros ((lost & Hf & Hl) & Htail & Hc & Hq & Hcon). unfold accounted.
    cbn [bytes_in received frames reader workers owner]. rewrite Hco, Hca.
    split_and!; [|done|done| |by rewrite Hcon, Hw].
    + exists lost. split; [|done]. rewrite Hf, Hqu, <-(assoc_L (++)). done.
    + rewrite Hqu in Hq. cbn in Hq. lia.
  - destruct (workers s) eqn:Hw; [done|]. intros [= <-]. apply drop_accounted; [lia|done].
  - destruct (owner s) eqn:Ho; [|done..]. intros [= <-] ((lost & Hf & Hl) & Htail & Hc & Hq & Hcon).
    unfold accounted. cbn [with_owner bytes_in received frames reader workers owner].
    split_and!; [by exists lost|done..|]. rewrite Hcon, Ho. done.
  - destruct (owner s) eqn:Ho; [done| | |done].
    + destruct (reader s) eqn:Hr; [done..|]. intros [= <-] ((lost & Hf & Hl) & Htail & Hc & Hq & Hcon).
      unfold accounted. cbn [with_owner bytes_in received frames reader workers owner].
      rewrite Hr in *. split_and!; [by exists lost|done..|]. rewrite Hcon, Ho. done.
    + destruct (watchdog s); [by destruct (reader s)|].
      assert (∀ x : option state, match reader s with Returned => x | _ => x end = x) as Hx by (by destruct (reader s)).
      intros He. assert (s' = drop_receiver (workers s) Gone s) as -> by (destruct (reader s); congruence).
      by apply drop_accounted.
  - destruct (owner s) eqn:Ho; [|done..]. intros [= <-]. by apply drop_accounted.
Qed.

Lemma run_accounted n evs s s' : run evs s = Some s' → accounted n s → accounted n s'.
Proof.
  revert s. induction evs as [|ev evs IH]; intros s; cbn [run]; [by intros [= <-]|].
  destruct (step ev s) as [s1|] eqn:Hs; [|done]. cbn. intros Hr Ha.
  apply (IH s1 Hr). by eapply step_accounted.
Qed.

Lemma spawn_accounted handle config workers s :
  0 < ConnectionConfig.frame_channel_capacity config →
  spawn handle config workers true true = Ok s →
  accounted (Z.to_nat (ConnectionConfig.frame_channel_capacity config)) s.
Proof.
  intros Hcap [= <-].
  destruct (chan_bounded_spec (Z.to_nat (ConnectionConfig.frame_channel_capacity config)))
    as (Hq & Hc & Hcon); [lia|].
  unfold accounted. cbn [bytes_in received frames reader ReaderThreads.workers owner in_reader tail_of].
  rewrite Hq, Hc, Hcon. split_and!; [by exists []|by intros t [= <-]|done|cbn; lia|].
  unfold receivers_left. by rewrite orb_true_r.
Qed.

(** The states of a reader that was spawned. *)
Definition reachable (config : ConnectionConfig.t) (s : state) : Prop :=
  ∃ handle workers s0 evs, spawn handle config workers true true = Ok s0 ∧ run evs s0 = Some s.

Lemma reachable_accounted config s :
  0 < ConnectionConfig.frame_channel_capacity config → reachable config s →
  accounted (Z.to_nat (ConnectionConfig.frame_channel_capacity config)) s.
Proof.
  intros Hcap (handle & w & s0 & evs & Hs & Hr). eapply run_accounted; [done|].
  by eapply spawn_accounted.
Qed.

(** (C6) Nothing is lost or reordered on the way to the workers. Under every
    interleaving of the reader, the watchdog, the workers and the owner of the
    handle, what the workers have received and what still waits in the channel
    is, in order, a prefix of the complete frames of the bytes read, and all of
    them whenever the reader is about to read again; and the channel never
    holds more than its configured capacity. *)
Theorem threads_deliver_in_order (config : ConnectionConfig.t) (s : state) :
  0 < ConnectionConfig.frame_channel_capacity config → reachable config s →
  let delivered := received s ++ chan_queue (frames s) in
  let complete := (split_frames (bytes_in s)).1 in
  delivered `prefix_of` complete ∧
  match reader s with Check _ | Reading _ => delivered = complete | _ => True end ∧
  (length (chan_queue (frames s)) ≤ Z.to_nat (ConnectionConfig.frame_channel_capacity config))%nat.
Proof.
  intros Hcap Hr. destruct (reachable_accounted _ _ Hcap Hr) as ((lost & Hf & Hl) & _ & _ & Hq & _).
  cbn zeta. rewrite Hf. split_and!; [|destruct (reader s); try done|done].
  - rewrite (assoc_L (++) (received s)). by apply prefix_app_r.
  - rewrite Hl, !app_nil_r by (by right). done.
  - rewrite Hl, !app_nil_r by (by right). done.
Qed.

(** ** Shutting down *)

(** The steps the reader can still take without reading. *)
Definition work (r : reader_at) : nat :=
  match r with
  | Check _ => 1
  | Reading _ | Returned => 0
  | Framing sp => 2 * length (split_frames (FrameSplitter.buf sp)).1 + 2
  | Blocked _ sp => 2 * length (split_frames (FrameSplitter.buf sp)).1 + 3
  end.

Definition is_run (ev : event) : bool := match ev with ReaderRun => true | _ => false end.
Definition is_read (ev : event) : bool := match ev with ReaderRead _ => true | _ => false end.
Definition count (p : event → bool) (evs : list event) : nat := length (List.filter p evs).
Definition reads_next (r : reader_at) : bool := match r with Reading _ => true | _ => false end.

Lemma reader_run_work s s' :
  stop_flag s = true → reader_run s = Some s' →
  (S (work (reader s')) ≤ work (reader s))%nat ∧ reads_next (reader s) = false ∧
  reads_next (reader s') = false ∧ stop_flag s' = true ∧ bytes_in s' = bytes_in s.
Proof.
  intros Hstop. unfold reader_run. destruct (reader s) as [sp|sp|sp|f sp|]; [|done| | |done].
  - rewrite Hstop. intros [= <-]. by cbn.
  - pose proof (next_frame_split sp) as Hn.
    destruct (FrameSplitter.next_frame sp) as [[f|] sp'].
    + destruct (chan_try_send f (frames s)) as [[] c]; intros [= <-]; cbn; rewrite Hn; cbn;
        split_and!; (done || lia).
    + destruct Hn as [-> Hcl]. intros [= <-]. cbn. split_and!; (done || lia).
  - destruct (chan_try_send f (frames s)) as [[] c]; [intros [= <-]|done|intros [= <-]]; cbn;
      split_and!; (done || lia).
Qed.

(** The other parties leave the reader where it is, and nobody clears the flag. *)
Lemma step_others ev s s' :
  is_run ev = false → is_read ev = false → step ev s = Some s' →
  reader s' = reader s ∧ bytes_in s' = bytes_in s ∧ (stop_flag s = true → stop_flag s' = true).
Proof.
  destruct ev; cbn [step is_run is_read]; try done; intros _ _.
  - unfold watchdog_run. destruct (watchdog s); [|done]. destruct (stop_flag s) eqn:E; [by intros [= <-]|].
    destruct pending; [|by intros [= <-]]. destruct (_ <=? _); by intros [= <-].
  - destruct (workers s); [done|]. destruct (chan_try_recv (frames s)) as [[]]; [by intros [= <-]|done].
  - destruct (workers s); [done|]. by intros [= <-].
  - destruct (owner s); [|done..]. by intros [= <-].
  - destruct (owner s); [done| | |done].
    + destruct (reader s) eqn:E; [done..|]. intros [= <-]. by rewrite <-E.
    + destruct (reader s) eqn:E, (watchdog s); try done; intros [= <-]; by rewrite <-E.
  - destruct (owner s); [|done..]. by intros [= <-].
Qed.

Definition total (s : state) : nat := length (split_frames (bytes_in s)).1.

Lemma work_total n s : accounted n s → (work (reader s) ≤ 2 * total s + 2)%nat.
Proof.
  intros ((lost & Hf & _) & _). unfold total. rewrite Hf, !length_app.
  destruct (reader s); cbn; lia.
Qed.

Lemma total_mono s s' : bytes_in s `prefix_of` bytes_in s' → (total s ≤ total s')%nat.
Proof. intros [l Hl]. unfold total. rewrite Hl, split_frames_app. cbn. rewrite length_app. lia. Qed.

Lemma reader_read_next r s s' :
  stop_flag s = true → reader_read r s = Some s' →
  reads_next (reader s) = true ∧ reads_next (reader s') = false ∧ stop_flag s' = true ∧
  bytes_in s `prefix_of` bytes_in s'.
Proof.
  unfold reader_read. intros Hstop. destruct (reader s); try done.
  destruct r as [[|b chunk]| |]; intros [= <-]; cbn; split_and!; try done. by apply prefix_app_r.
Qed.

Lemma run_stopped n evs s s' :
  accounted n s → stop_flag s = true → run evs s = Some s' →
  bytes_in s `prefix_of` bytes_in s' ∧
  if reads_next (reader s)
  then (count is_run evs ≤ 2 * total s' + 2)%nat ∧ (count is_read evs ≤ 1)%nat
  else (count is_run evs ≤ work (reader s))%nat ∧ count is_read evs = 0%nat.
Proof.
  revert s. induction evs as [|ev evs IH]; intros s Ha Hstop; cbn [run].
  { intros [= ->]. split; [done|]. unfold count. cbn. destruct (reads_next (reader s')); lia. }
  destruct (step ev s) as [s1|] eqn:Hs; [|done]. cbn [mbind option_bind]. intros Hrun.
  pose proof (step_accounted _ _ _ _ Hs Ha) as Ha1.
  destruct (is_run ev) eqn:Hr, (is_read ev) eqn:Hd; [by destruct ev|..].
  - destruct ev; try done. cbn [step] in Hs.
    destruct (reader_run_work _ _ Hstop Hs) as (Hw & Hn & Hn1 & Hst1 & Hb).
    destruct (IH s1 Ha1 Hst1 Hrun) as [Hp Hc]. rewrite Hn1 in Hc. rewrite Hn. rewrite Hb in Hp.
    split; [done|]. unfold count in *. cbn. lia.
  - destruct ev; try done. cbn [step] in Hs.
    destruct (reader_read_next _ _ _ Hstop Hs) as (Hn & Hn1 & Hst1 & Hb).
    destruct (IH s1 Ha1 Hst1 Hrun) as [Hp Hc]. rewrite Hn1 in Hc. rewrite Hn.
    split; [by etrans|]. pose proof (work_total _ _ Ha1). pose proof (total_mono _ _ Hp).
    unfold count in *. cbn. lia.
  - destruct (step_others _ _ _ Hr Hd Hs) as (He & Hb & Hst1).
    destruct (IH s1 Ha1 (Hst1 Hstop) Hrun) as [Hp Hc]. rewrite He in Hc. rewrite Hb in Hp.
    split; [done|]. unfold count in *. cbn [List.filter]. rewrite Hr, Hd. done.
Qed.

(** (C17) The reader stops. Once the stop flag is set, whatever the other
    parties do, the reader calls [read] at most once more and takes a number of
    further steps bounded by twice the complete frames read plus two; and until
    it has returned it can always take a step, unless it is inside that last
    [read] or blocked on a full channel. *)
Theorem reader_stops (config : ConnectionConfig.t) (s s' : state) (evs : list event) :
  0 < ConnectionConfig.frame_channel_capacity config → reachable config s →
  stop_flag s = true → run evs s = Some s' →
  (count is_read evs ≤ 1)%nat ∧
  (count is_run evs ≤ 2 * length (split_frames (bytes_in s')).1 + 2)%nat ∧
  (reader_run s' = None → reader s' = Returned ∨ (∃ sp, reader s' = Reading sp) ∨
     ∃ f sp, reader s' = Blocked f sp ∧ chan_connected (frames s') = true ∧
       length (chan_queue (frames s')) = Z.to_nat (ConnectionConfig.frame_channel_capacity config)).
Proof.
  intros Hcap Hreach Hstop Hrun. pose proof (reachable_accounted _ _ Hcap Hreach) as Ha.
  destruct (run_stopped _ _ _ _ Ha Hstop Hrun) as [Hp Hc].
  pose proof (work_total _ _ Ha). pose proof (total_mono _ _ Hp). unfold total in *.
  split_and!.
  - destruct (reads_next (reader s)); lia.
  - destruct (reads_next (reader s)); lia.
  - destruct (run_accounted _ _ _ _ Hrun Ha) as (_ & _ & Hca & Hq & _).
    unfold reader_run. destruct (reader s') as [sp|sp|sp|f sp|]; [done|eauto| | |by left].
    + destruct (FrameSplitter.next_frame sp) as [[f|] sp']; [|done].
      by destruct (chan_try_send f (frames s')) as [[] c].
    + pose proof (chan_try_send_spec f (frames s')) as Hsend.
      destruct (chan_try_send f (frames s')) as [[] c]; [done| |done].
      destruct Hsend as (_ & Hco & Hle). intros _. do 2 right. exists f, sp. split_and!; [done|done|lia].
Qed.

Lemma reader_run_frame s s' : reader_run s = Some s' →
  owner s' = owner s ∧ workers s' = workers s ∧ watchdog s' = watchdog s.
Proof.
  unfold reader_run. destruct (reader s) as [sp|sp|sp|f sp|]; [by intros [= <-]|done| | |done].
  - destruct (FrameSplitter.next_frame sp) as [[f|] sp']; [|by intros [= <-]].
    by destruct (chan_try_send f (frames s)) as [[] c]; intros [= <-].
  - by destruct (chan_try_send f (frames s)) as [[] c]; intros [= <-].
Qed.

(** With a worker alive, the reader either moves or moves after a receive. *)
Lemma reader_unblocks n s :
  accounted n s → (0 < n)%nat → workers s ≠ 0%nat → reads_next (reader s) = false → reader s ≠ Returned →
  ∃ evs s1 s2, run evs s = Some s1 ∧ count is_read evs = 0%nat ∧ reader_run s1 = Some s2 ∧
    reader s1 = reader s ∧ stop_flag s1 = stop_flag s ∧
    owner s1 = owner s ∧ workers s1 = workers s ∧ watchdog s1 = watchdog s.
Proof.
  intros Ha Hn Hw Hnext Hret.
  assert (is_Some (reader_run s) ∨ ∃ f sp, reader s = Blocked f sp) as [[s2 Hs2]|(f & sp & Hr)].
  { unfold reader_run. destruct (reader s) as [sp|sp|sp|f sp|]; eauto; [done| |done]. left.
    destruct (FrameSplitter.next_frame sp) as [[f|] sp']; [|by eexists].
    destruct (chan_try_send f (frames s)) as [[] c]; by eexists. }
  { by exists [], s, s2. }
  destruct Ha as (_ & _ & Hca & Hbound & _).
  pose proof (chan_try_send_spec f (frames s)) as Hsend.
  destruct (chan_try_send f (frames s)) as [o c] eqn:Ho. destruct o.
  1,3: eexists [], s, _; unfold reader_run; rewrite Hr, Ho; by split_and!.
  destruct Hsend as (_ & _ & Hfull).
  pose proof (chan_try_recv_spec (frames s)) as Hrecv.
  destruct (chan_try_recv (frames s)) as [[g|] c'] eqn:Hg.
  2: { destruct Hrecv as [_ Hq]. rewrite Hq in Hfull. cbn in Hfull. lia. }
  destruct (workers s) as [|w] eqn:Hws; [done|].
  set (s1 := mk (stop_flag s) (panic_flag s) (reader s) (watchdog s) c' (S w) (owner s)
               (received s ++ [g]) (bytes_in s)).
  assert (run [Recv] s = Some s1) as Hrecv1 by (cbn; by rewrite Hws, Hg).
  assert (is_Some (reader_run s1)) as [s2 Hs2]; [|by exists [Recv], s1, s2].
  unfold reader_run, s1. cbn. rewrite Hr. pose proof (chan_try_send_spec f c') as Hsend'.
  destruct (chan_try_send f c') as [[] c'']; [by eexists| |by eexists].
  destruct Hsend' as (_ & _ & Hle). destruct Hrecv as (Hq & Hcc & _).
  rewrite Hq in Hbound. cbn in Hbound. rewrite Hcc in Hle. lia.
Qed.

Lemma threads_run_app evs1 evs2 s s1 : run evs1 s = Some s1 → run (evs1 ++ evs2) s = run evs2 s1.
Proof.
  revert s. induction evs1 as [|ev evs1 IH]; intros s; cbn; [by intros [= ->]|].
  destruct (step ev s) as [s2|]; [|done]. cbn. apply IH.
Qed.

Lemma count_app p evs1 evs2 : count p (evs1 ++ evs2) = (count p evs1 + count p evs2)%nat.
Proof. unfold count. by rewrite List.filter_app, length_app. Qed.

(** A stopped reader that is not in [read] returns without reading. *)
Lemma reader_drains n m : ∀ s,
  (work (reader s) ≤ m)%nat → accounted n s → (0 < n)%nat → workers s ≠ 0%nat →
  stop_flag s = true → reads_next (reader s) = false →
  ∃ evs s', run evs s = Some s' ∧ count is_read evs = 0%nat ∧ reader s' = Returned ∧
    stop_flag s' = true ∧ owner s' = owner s ∧ watchdog s' = watchdog s.
Proof.
  induction m as [|m IH]; intros s Hm Ha Hn Hw Hstop Hnext.
  { assert (reader s = Returned) as Hr by (destruct (reader s); cbn in *; first [done|lia]).
    by exists [], s. }
  destruct (decide (work (reader s) = 0%nat)) as [Hz|Hz].
  { assert (reader s = Returned) as Hr by (destruct (reader s); cbn in *; first [done|lia]).
    by exists [], s. }
  assert (reader s ≠ Returned) as Hret by (intros E; by rewrite E in Hz).
  destruct (reader_unblocks _ _ Ha Hn Hw Hnext Hret)
    as (evs & s1 & s2 & Hevs & Hc & Hrun & Hr1 & Hst1 & Ho1 & Hw1 & Hd1).
  pose proof (run_accounted _ _ _ _ Hevs Ha) as Ha1.
  rewrite Hstop in Hst1.
  destruct (reader_run_work _ _ Hst1 Hrun) as (Hwork & _ & Hn2 & Hst2 & _).
  destruct (reader_run_frame _ _ Hrun) as (Ho2 & Hw2 & Hd2).
  destruct (IH s2) as (evs' & s' & Hrun' & Hc' & Hr' & Hst' & Ho' & Hd'); try done.
  - rewrite Hr1 in Hwork. lia.
  - by apply (step_accounted _ ReaderRun _ _ Hrun).
  - congruence.
  - exists (evs ++ ReaderRun :: evs'), s'. split_and!; [| |done|done|congruence|congruence].
    + rewrite (threads_run_app _ _ _ s1) by done. cbn. by rewrite Hrun.
    + rewrite count_app, Hc. exact Hc'.
Qed.

(** Both threads joined and the handle dropped, from a reader that returned. *)
Lemma joins s :
  owner s = Joining → stop_flag s = true → reader s = Returned →
  ∃ evs s', run evs s = Some s' ∧ count is_read evs = 0%nat ∧
    owner s' = Gone ∧ reader s' = Returned ∧ watchdog s' = None.
Proof.
  intros Ho Hstop Hr. destruct (watchdog s) as [cfg|] eqn:Hd.
  - exists [Join; WatchdogRun None; Join]. eexists. split.
    + cbn. rewrite Ho, Hr. cbn. unfold watchdog_run. cbn. by rewrite Hd, Hstop.
    + done.
  - exists [Join; Join]. eexists. split.
    + cbn. rewrite Ho, Hr. cbn. by rewrite Hd.
    + done.
Qed.

Lemma no_reads evs : count is_read evs = 0%nat → List.filter is_read evs = [].
Proof. apply nil_length_inv. Qed.

Lemma reading_returns r s :
  reads_next (reader s) = true → ∃ s', reader_read r s = Some s' ∧
    owner s' = owner s ∧ workers s' = workers s ∧ stop_flag s' = stop_flag s ∧
    reads_next (reader s') = false.
Proof.
  unfold reader_read. destruct (reader s); [done| |done..]. intros _.
  destruct r as [[|b chunk]| |]; eexists; by split_and!.
Qed.

Lemma shutdown_run (config : ConnectionConfig.t) (s : state) (r : Reader.read) :
  0 < ConnectionConfig.frame_channel_capacity config → reachable config s →
  owner s = Held → workers s ≠ 0%nat →
  ∃ evs s', run (Shutdown :: evs) s = Some s' ∧ owner s' = Gone ∧
    reader s' = Returned ∧ watchdog s' = None ∧
    List.filter is_read evs = (if reads_next (reader s) then [ReaderRead r] else []).
Proof.
  intros Hcap Hreach Ho Hw.
  pose proof (reachable_accounted _ _ Hcap Hreach) as Ha. set (n := Z.to_nat _) in Ha.
  assert (0 < n)%nat as Hn by lia.
  set (s1 := with_owner true Joining s).
  assert (step Shutdown s = Some s1) as Hs1 by (cbn; by rewrite Ho).
  pose proof (step_accounted _ _ _ _ Hs1 Ha) as Ha1.
  assert (∃ pre s2, run pre s1 = Some s2 ∧
    List.filter is_read pre = (if reads_next (reader s) then [ReaderRead r] else []) ∧
    accounted n s2 ∧ owner s2 = Joining ∧ workers s2 = workers s ∧ stop_flag s2 = true ∧
    reads_next (reader s2) = false) as (pre & s2 & Hpre & Hreads & Ha2 & Ho2 & Hw2 & Hst2 & Hn2).
  { destruct (reads_next (reader s)) eqn:Hnext; [|by exists [], s1].
    destruct (reading_returns r s1 Hnext) as (s2 & Hs2 & Ho2 & Hw2 & Hst2 & Hn2).
    exists [ReaderRead r], s2. split_and!; try done; [cbn; by rewrite Hs2|].
    by eapply (step_accounted _ (ReaderRead r)). }
  destruct (reader_drains n _ s2 (le_n _) Ha2 Hn) as (mid & s3 & Hmid & Hc3 & Hr3 & Hst3 & Ho3 & _);
    [congruence|done|done|].
  destruct (joins s3) as (post & s4 & Hpost & Hc4 & Ho4 & Hr4 & Hd4); [congruence|done|done|].
  exists (pre ++ mid ++ post), s4. split_and!; try done.
  - cbn [run]. rewrite Hs1. cbn [mbind option_bind]. rewrite (threads_run_app _ _ _ s2) by done.
    by rewrite (threads_run_app _ _ _ s3) by done.
  - rewrite !List.filter_app, (no_reads mid), (no_reads post), !app_nil_r by done. done.
Qed.

(** Shutting down completes. From every reachable state in which the owner
    holds the handle and a worker is alive, [shutdown] followed by some steps of
    the threads and workers ends with both threads joined and the handle gone,
    whatever the read under way gives, and no other read is made. *)
Theorem shutdown_completes (config : ConnectionConfig.t) (s : state) (r : Reader.read) :
  0 < ConnectionConfig.frame_channel_capacity config → reachable config s →
  owner s = Held → workers s ≠ 0%nat →
  ∃ evs s', run (Shutdown :: evs) s = Some s' ∧ owner s' = Gone ∧
    reader s' = Returned ∧ watchdog s' = None ∧
    List.filter is_read evs = (if reads_next (reader s) then [ReaderRead r] else []).
Proof. apply shutdown_run. Qed.

(** A quiet feed keeps the daemon alive. When [shutdown] finds the reader
    inside [read], whose stream has no read timeout, it does not return before
    that read does: whatever the watchdog, the workers and the reader do
    meanwhile, the owner is still joining the reader. *)
Theorem shutdown_waits_for_read (s s' : state) (evs : list event) :
  owner s = Held → reads_next (reader s) = true →
  run (Shutdown :: evs) s = Some s' → count is_read evs = 0%nat →
  owner s' = Joining ∧ reader s' = reader s.
Proof.
  intros Ho Hnext. cbn [run step]. rewrite Ho. cbn [mbind option_bind].
  set (s1 := with_owner true Joining s).
  assert (owner s1 = Joining ∧ reader s1 = reader s) as Hs1 by done. clearbody s1.
  revert s1 Hs1. induction evs as [|ev evs IH]; intros s1 [Ho1 Hr1]; cbn [run]; [by intros [= <-]|].
  destruct (step ev s1) as [s2|] eqn:Hs; [|done]. cbn [mbind option_bind]. intros Hrun Hc.
  assert (is_read ev = false ∧ count is_read evs = 0%nat) as [He Hc'].
  { unfold count in *. cbn in Hc. destruct (is_read ev); [done|]. by split. }
  apply (IH s2); [|done|done].
  destruct (is_run ev) eqn:Hrun'.
  { destruct ev; try done. cbn [step] in Hs. unfold reader_run in Hs. rewrite Hr1 in Hs.
    by destruct (reader s). }
  destruct (step_others _ _ _ Hrun' He Hs) as (Hr2 & _). split; [|congruence].
  rewrite <-Hr1 in Hnext. destruct ev; cbn [step] in Hs; try done.
  - unfold watchdog_run in Hs. destruct (watchdog s1); [|done]. destruct (stop_flag s1); [by injection Hs as <-|].
    destruct pending; [|by injection Hs as <-]. destruct (_ <=? _); by injection Hs as <-.
  - destruct (workers s1); [done|]. destruct (chan_try_recv (frames s1)) as [[]]; [by injection Hs as <-|done].
  - destruct (workers s1); [done|]. injection Hs as <-. done.
  - by rewrite Ho1 in Hs.
  - rewrite Ho1 in Hs. by destruct (reader s1).
  - by rewrite Ho1 in Hs.
Qed.
End correctness.

(** ** Concrete runs *)

Definition narrow_config : ConnectionConfig.t :=
  ConnectionConfig.mk (bs "10.0.0.1") 81 [] (bs "u") (bs "p") 4096 1 10000 None None 100
    (f64_lit "0.20") (f64_lit "0.40").

Section examples.
Import ReaderThreads.
Let M : Memchr := memchr_reference.
Let X : Crossbeam wire_frame := crossbeam_reference _.
#[local] Existing Instances M X.

(** After three frames: one received, one in the channel, one in the reader's hand. *)
Definition busy_schedule : list event :=
  [ReaderRun; ReaderRead (Reader.Data (bs "T:A!T:B!T:C!T:"));
   ReaderRun; ReaderRun; Recv; ReaderRun; ReaderRun].
Definition one_worker_state (stop : bool) (p : phase) (r : reader_at) (q received : list wire_frame)
    (b : bytes) : state :=
  mk stop false r (Some (WatchdogCfg.mk None 100 (f64_lit "0.20") (f64_lit "0.40") 4096))
    (q, 1%nat, true) 1 p received b.
Definition busy : state :=
  one_worker_state false Held (Blocked (FrameKind.Bang, bs "T:C") (FrameSplitter.mk (bs "T:")))
    [(FrameKind.Bang, bs "T:B")] [(FrameKind.Bang, bs "T:A")] (bs "T:A!T:B!T:C!T:").
Definition quiet_reader : state :=
  one_worker_state false Held (Reading (FrameSplitter.mk [])) [] [] [].

Lemma busy_reachable : reachable narrow_config busy.
Proof.
  exists (ConnectionHandle.mk 3 4096), 1%nat. eexists. exists busy_schedule.
  split; [reflexivity|vm_compute; reflexivity].
Defined.

Lemma quiet_reachable : reachable narrow_config quiet_reader.
Proof.
  exists (ConnectionHandle.mk 3 4096), 1%nat. eexists. exists [ReaderRun].
  split; [reflexivity|vm_compute; reflexivity].
Defined.

Lemma threads_deliver_in_order_witness :
  [(FrameKind.Bang, bs "T:A"); (FrameKind.Bang, bs "T:B")] `prefix_of`
    (split_frames (bs "T:A!T:B!T:C!T:")).1.
Proof.
  exact (proj1 (threads_deliver_in_order (H0 := memchr_reference_spec)
    (H2 := crossbeam_reference_spec _) narrow_config busy eq_refl busy_reachable)).
Defined.

Lemma shutdown_completes_witness :
  ∃ evs s', run (Shutdown :: evs) busy = Some s' ∧ owner s' = Gone.
Proof.
  destruct (shutdown_completes (H0 := memchr_reference_spec) (H2 := crossbeam_reference_spec _)
    narrow_config busy Reader.Failed eq_refl busy_reachable eq_refl)
    as (evs & s' & Hrun & Ho & _); [discriminate|].
  exists evs, s'. split; [exact Hrun|exact Ho].
Defined.

Lemma shutdown_waits_for_read_witness :
  ∃ s', run [Shutdown; WatchdogRun (Some 0)] quiet_reader = Some s' ∧ owner s' = Joining.
Proof.
  eexists. split; [vm_compute; reflexivity|].
  refine (proj1 (shutdown_waits_for_read quiet_reader _ [WatchdogRun (Some 0)] eq_refl eq_refl _ eq_refl)).
  vm_compute. reflexivity.
Defined.

Definition stopping : state :=
  one_worker_state true Joining (Reading (FrameSplitter.mk [])) [] [] [].
Lemma stopping_reachable : reachable narrow_config stopping.
Proof.
  exists (ConnectionHandle.mk 3 4096), 1%nat. eexists. exists [ReaderRun; Shutdown].
  split; [reflexivity|vm_compute; reflexivity].
Defined.

Lemma reader_stops_witness :
  ∃ s', run [ReaderRead (Reader.Data (bs "T:A!T:")); ReaderRun; ReaderRun; ReaderRun] stopping = Some s' ∧
    reader s' = Returned ∧
    (3 ≤ 2 * length (split_frames (bytes_in s')).1 + 2)%nat.
Proof.
  eexists. split; [vm_compute; reflexivity|]. split; [reflexivity|].
  refine (proj1 (proj2 (reader_stops (H0 := memchr_reference_spec) (H2 := crossbeam_reference_spec _)
    narrow_config stopping _ [ReaderRead (Reader.Data (bs "T:A!T:")); ReaderRun; ReaderRun; ReaderRun]
    eq_refl stopping_reachable eq_refl _))).
  vm_compute. reflexivity.
Defined.
End examples.
