(* ===== verification/RawArchive.v ===== *)
(** * Raw archive ([raw-archive/src/writer.rs])

    The producer's end of the bounded queue, and the writer thread as a loop
    over the frames it receives. The encoder is its plaintext; compression is
    a parameter. The files are the bytes on disk by name. *)

From S2P Require Import Prelude RustInt.

(** ** zstd

    Compression of one stream at a level, and decompression of a file: a
    concatenation of finished streams decompresses to the concatenation of
    their contents. *)
Class Zstd : Type := {
  compress : Z → bytes → bytes;
  decompress : bytes → option bytes;
}.
Class ZstdSpec `{Zstd} : Prop := {
  decompress_concat level ps : decompress (concat (compress level <$> ps)) = Some (concat ps);
}.

(** An uncompressed stream is a stream. *)
Definition zstd_reference : Zstd := {|
  compress _ p := p;
  decompress b := Some b;
|}.
Lemma zstd_reference_spec : @ZstdSpec zstd_reference.
Proof. split. intros level ps. simpl. by rewrite list_fmap_id. Qed.

Module ArchiveError.
Inductive t : Type :=
  | Io
  | AlreadyClosed.
End ArchiveError.

(** ** Queue *)

Module ArchiveHandle.
Record t : Type := mk {
  queue : list bytes;
  channel_capacity : nat;
  connected : bool;
}.

Definition try_push (frame : bytes) (h : t) : bool * t :=
  if negb (connected h) then (false, h)
  else if (length (queue h) <? channel_capacity h)%nat then
    (true, mk (queue h ++ [frame]) (channel_capacity h) true)
  else (false, h).

(** Closing the channel: the frames the writer still receives before it finishes
    its file, and what joining it gives. *)
Definition shutdown (writer_panicked : bool) (h : t) : result ArchiveError.t () * list bytes :=
  (if writer_panicked then Err ArchiveError.Io else Ok (), queue h).
End ArchiveHandle.

(** ** Hour files *)

Module ArchiveConfig.
Record t : Type := mk {
  root : bytes;
  zstd_level : Z;
  channel_capacity : nat;
  flush_every_bytes : Z;
}.
Definition default : t := mk (bs "/var/data/raw") 3 (Z.to_nat 65536) (1024 * 1024).
End ArchiveConfig.

(** Year, month, day and hour of a moment. *)
Definition HourKey : Type := (Z * Z * Z * Z)%type.

(** [{:02}] and [{:04}] of a number. *)
Definition pad (width : nat) (n : Z) : bytes :=
  let digits := dec_print (Z.abs n) in
  let sign := if n <? 0 then bs "-" else [] in
  sign ++ replicate (width - length digits - length sign) "0"%byte ++ digits.

Definition file_name (k : HourKey) : bytes :=
  let '(year, month, day, hour) := k in
  pad 4 year ++ bs "-" ++ pad 2 month ++ bs "-" ++ pad 2 day ++ bs "T" ++ pad 2 hour ++ bs ".zst".

(** The file of an hour, in the directory [root] (no handler calls it). *)
Definition current_path (root : bytes) (t : HourKey) : bytes := root ++ bs "/" ++ file_name t.

Module HourFile.
(** [encoder] is what was written to the encoder since it was opened, [path]
    the file it appends to. *)
Record t : Type := mk {
  path : bytes;
  encoder : bytes;
  level : Z;
  hour_key : HourKey;
  bytes_since_flush : Z;
  flush_threshold : Z;
}.

Definition open (cfg : ArchiveConfig.t) (now : HourKey) : t :=
  mk (file_name now) [] (ArchiveConfig.zstd_level cfg) now 0 (ArchiveConfig.flush_every_bytes cfg).

(** A frame's record: its length, truncated to 32 bits, itself, a newline. *)
Definition frame_record (frame : bytes) : bytes :=
  to_le_bytes 4 (wrap 32 (Z.of_nat (length frame))) ++ frame ++ [x0a].

Definition write_frame (frame : bytes) (f : t) : t :=
  let since := bytes_since_flush f + (Z.of_nat (length frame) + 5) in
  mk (path f) (encoder f ++ frame_record frame) (level f) (hour_key f)
    (if flush_threshold f <=? since then 0 else since) (flush_threshold f).
End HourFile.

(** ** Writer thread *)

Module ArchiveWriter.
Abbreviation files := (gmap bytes bytes).

Definition append_to (path data : bytes) (fs : files) : files :=
  <[path := default [] (fs !! path) ++ data]> fs.

(** What the disk does on the way: [Some b] is a failure that leaves the bytes
    [b] of the unfinished stream behind. *)
Record event : Type := mk_event {
  frame : bytes;
  now : HourKey;
  finalize_fails : option bytes;
  open_fails : bool;
  write_fails : option bytes;
}.

(** [spawn], with what creating the directory and the thread give. *)
Definition spawn (directory_ok thread_ok : bool) (cfg : ArchiveConfig.t)
    : result ArchiveError.t ArchiveHandle.t :=
  if directory_ok then
    if thread_ok then Ok (ArchiveHandle.mk [] (ArchiveConfig.channel_capacity cfg) true)
    else Err ArchiveError.Io
  else Err ArchiveError.Io.

Section writer.
Context `{Zstd}.

Definition finalize (fails : option bytes) (f : HourFile.t) (fs : files) : files :=
  match fails with
  | None => append_to (HourFile.path f) (compress (HourFile.level f) (HourFile.encoder f)) fs
  | Some left_over => append_to (HourFile.path f) left_over fs
  end.

(** One turn of the loop. *)
Definition receive (cfg : ArchiveConfig.t) (e : event) (st : option HourFile.t * files)
    : option HourFile.t * files :=
  let '(state, fs) := st in
  let need_rotate :=
    match state with
    | None => true
    | Some s => negb (bool_decide (HourFile.hour_key s = now e))
    end in
  let fs := match state with
            | Some prev => if need_rotate : bool then finalize (finalize_fails e) prev fs else fs
            | None => fs
            end in
  let state :=
    if need_rotate : bool then
      if open_fails e then None else Some (HourFile.open cfg (now e))
    else state in
  match state with
  | None => (None, fs)
  | Some file =>
      match write_fails e with
      | Some left_over => (None, append_to (HourFile.path file) left_over fs)
      | None => (Some (HourFile.write_frame (frame e) file), fs)
      end
  end.

Definition writer_loop (cfg : ArchiveConfig.t) (events : list event)
    (last_finalize_fails : option bytes) (fs : files) : files :=
  let '(state, fs) := foldl (λ st e, receive cfg e st) (None, fs) events in
  match state with
  | None => fs
  | Some last => finalize last_finalize_fails last fs
  end.
End writer.
End ArchiveWriter.

(** ** Reading an archive back *)

(** The frames of a decompressed file, if it is well formed. *)
Fixpoint read_frames_fuel (fuel : nat) (l : bytes) : option (list bytes) :=
  match fuel, l with
  | _, [] => Some []
  | O, _ => None
  | S fuel', _ =>
      let len := Z.to_nat (from_le_bytes (take 4 l)) in
      let rest := drop 4 l in
      if bool_decide (drop len (take (S len) rest) = [x0a]) then
        cons (take len rest) <$> read_frames_fuel fuel' (drop (S len) rest)
      else None
  end.
Definition read_frames (l : bytes) : option (list bytes) := read_frames_fuel (length l) l.

Lemma length_frame_record f : length (HourFile.frame_record f) = (length f + 5)%nat.
Proof.
  unfold HourFile.frame_record. rewrite !length_app, length_to_le_bytes. simpl. lia.
Qed.

Lemma read_frames_fuel_records fuel fs :
  (length (concat (HourFile.frame_record <$> fs)) ≤ fuel)%nat →
  Forall (λ f, Z.of_nat (length f) ≤ u32_max) fs →
  read_frames_fuel fuel (concat (HourFile.frame_record <$> fs)) = Some fs.
Proof.
  intros Hfuel Hfs. revert fuel Hfuel.
  induction Hfs as [|f fs Hf Hfs IH]; intros fuel Hfuel; [by destruct fuel|].
  rewrite fmap_cons in *. cbn [concat] in *. rewrite length_app, length_frame_record in Hfuel.
  destruct fuel as [|fuel]; [lia|].
  set (rest := concat (HourFile.frame_record <$> fs)) in *.
  assert (HourFile.frame_record f ++ rest =
    to_le_bytes 4 (wrap 32 (Z.of_nat (length f))) ++ f ++ x0a :: rest) as Heq.
  { unfold HourFile.frame_record. by rewrite <-!(assoc_L (++)). }
  assert (wrap 32 (Z.of_nat (length f)) = Z.of_nat (length f)) as Hwrap.
  { apply wrap_small. unfold u32_max in Hf. lia. }
  rewrite Heq, Hwrap. set (hd := to_le_bytes 4 (Z.of_nat (length f))).
  assert (length hd = 4%nat) as Hlen by apply length_to_le_bytes.
  cbn [read_frames_fuel].
  assert (take 4 (hd ++ f ++ x0a :: rest) = hd) as -> by (rewrite <-Hlen; apply take_app_length).
  assert (drop 4 (hd ++ f ++ x0a :: rest) = f ++ x0a :: rest) as ->
    by (rewrite <-Hlen; apply drop_app_length).
  assert (Z.to_nat (from_le_bytes hd) = length f) as ->.
  { subst hd. rewrite from_to_le_bytes_small; [lia|]. unfold u32_max in Hf.
    change (256 ^ Z.of_nat 4) with (2 ^ 32). lia. }
  destruct (hd ++ f ++ x0a :: rest) eqn:E; [by apply (f_equal length) in E; rewrite length_app, Hlen in E|].
  assert (S (length f) = length (f ++ [x0a])) as HS by (rewrite length_app; simpl; lia).
  assert (f ++ x0a :: rest = (f ++ [x0a]) ++ rest) as -> by (by rewrite <-(assoc_L (++))).
  rewrite HS, take_app_length, !drop_app_length.
  rewrite bool_decide_eq_true_2 by done.
  rewrite <-(assoc_L (++)), take_app_length, IH by lia. done.
Qed.

Lemma read_frames_records fs :
  Forall (λ f, Z.of_nat (length f) ≤ u32_max) fs →
  read_frames (concat (HourFile.frame_record <$> fs)) = Some fs.
Proof. intros Hfs. by apply read_frames_fuel_records. Qed.

(** ** Names *)

(** The hours a clock can show in our era. *)
Definition hour_ok (k : HourKey) : Prop :=
  let '(year, month, day, hour) := k in 0 ≤ year ∧ 0 ≤ month ∧ 0 ≤ day ∧ 0 ≤ hour.

Lemma all_digits_replicate n : all_digits (replicate n "0"%byte) = true.
Proof. by induction n. Qed.

Lemma dec_value_zeros n l : dec_value (replicate n "0"%byte ++ l) = dec_value l.
Proof.
  unfold dec_value. rewrite dec_value_from_app. f_equal. induction n as [|n IH]; [done|exact IH].
Qed.

Lemma pad_spec width n : 0 ≤ n → all_digits (pad width n) = true ∧ dec_value (pad width n) = n.
Proof.
  intros Hn. unfold pad. destruct (Z.ltb_spec n 0); [lia|].
  rewrite Z.abs_eq by done. destruct (dec_print_spec n Hn) as (Hd & Hv & _).
  cbn [app length]. rewrite all_digits_app, all_digits_replicate, dec_value_zeros. done.
Qed.

(** Digits up to the first byte that is none. *)
Lemma digits_split l1 l2 c1 c2 r1 r2 :
  all_digits l1 = true → all_digits l2 = true →
  is_ascii_digit c1 = false → is_ascii_digit c2 = false →
  l1 ++ c1 :: r1 = l2 ++ c2 :: r2 → l1 = l2 ∧ r1 = r2.
Proof.
  intros H1 H2 Hc1 Hc2. revert l2 H2. induction l1 as [|x l1 IH]; intros [|y l2] H2; cbn in *.
  - by intros [= _ ->].
  - intros [= -> _]. by rewrite Hc1 in H2.
  - intros [= -> _]. by rewrite Hc2 in H1.
  - apply andb_true_iff in H1 as [_ H1], H2 as [_ H2]. intros [= -> He].
    by destruct (IH H1 l2 H2 He) as [-> ->].
Qed.

Lemma pad_split w n m c r1 r2 :
  0 ≤ n → 0 ≤ m → is_ascii_digit c = false →
  pad w n ++ c :: r1 = pad w m ++ c :: r2 → n = m ∧ r1 = r2.
Proof.
  intros Hn Hm Hc He. destruct (pad_spec w n Hn) as [Hdn Hvn], (pad_spec w m Hm) as [Hdm Hvm].
  apply digits_split in He as [He ->]; [|done..]. by rewrite <-Hvn, <-Hvm, He.
Qed.

(** Every hour has a file of its own. *)
Lemma file_name_inj k1 k2 : hour_ok k1 → hour_ok k2 → file_name k1 = file_name k2 → k1 = k2.
Proof.
  destruct k1 as [[[y1 m1] d1] h1], k2 as [[[y2 m2] d2] h2]. cbn [hour_ok file_name].
  intros (Hy1 & Hm1 & Hd1 & Hh1) (Hy2 & Hm2 & Hd2 & Hh2) He.
  apply pad_split in He as [-> He]; [|done..]. apply pad_split in He as [-> He]; [|done..].
  apply pad_split in He as [-> He]; [|done..]. by apply pad_split in He as [-> _].
Qed.

(** ** Correctness *)

Section correctness.
Context `{ZstdSpec}.
Import ArchiveWriter.

(** No operation on the file [name] fails in the turn for [e], and the length of
    a frame for it fits its prefix. *)
Definition spares_hour (name : bytes) (e : event) : Prop :=
  file_name (now e) = name →
  open_fails e = false ∧ write_fails e = None ∧ Z.of_nat (length (frame e)) ≤ u32_max.
Definition spares (name : bytes) (e : event) (st : option HourFile.t * files) : Prop :=
  spares_hour name e ∧
  ∀ f, st.1 = Some f → HourFile.path f = name → finalize_fails e = None.
Fixpoint spares_all (cfg : ArchiveConfig.t) (name : bytes) (events : list event)
    (st : option HourFile.t * files) : Prop :=
  match events with
  | [] => True
  | e :: events' => spares name e st ∧ spares_all cfg name events' (receive cfg e st)
  end.

(** The same of a run of the writer, which ends with a last [finalize], and of
    several, one after the other. *)
Definition writer_run : Type := list event * option bytes.
Definition turns (cfg : ArchiveConfig.t) (events : list event) (fs : files) : option HourFile.t * files :=
  foldl (λ st e, receive cfg e st) (None, fs) events.
Fixpoint spares_runs (cfg : ArchiveConfig.t) (name : bytes) (runs : list writer_run) (fs : files) : Prop :=
  match runs with
  | [] => True
  | (events, fails) :: runs' =>
      spares_all cfg name events (None, fs) ∧
      (∀ f, (turns cfg events fs).1 = Some f → HourFile.path f = name → fails = None) ∧
      spares_runs cfg name runs' (writer_loop cfg events fails fs)
  end.
Definition archive_after (cfg : ArchiveConfig.t) (runs : list writer_run) (fs : files) : files :=
  foldl (λ fs r, writer_loop cfg r.1 r.2 fs) fs runs.
Definition all_events (runs : list writer_run) : list event := concat runs.*1.

(** Nothing failed on the way, and the frame's length fits its prefix. *)
Definition clean (e : event) : Prop :=
  finalize_fails e = None ∧ open_fails e = false ∧ write_fails e = None ∧
  Z.of_nat (length (frame e)) ≤ u32_max.

(** The frames received in the hours of a file. *)
Definition frames_of (name : bytes) (events : list event) : list bytes :=
  frame <$> filter (λ e, file_name (now e) = name) events.

Definition records_of (name : bytes) (events : list event) : bytes :=
  concat (HourFile.frame_record <$> frames_of name events).

Lemma frames_of_app name l1 l2 : frames_of name (l1 ++ l2) = frames_of name l1 ++ frames_of name l2.
Proof. unfold frames_of. by rewrite filter_app, fmap_app. Qed.

Lemma records_of_app name l1 l2 :
  records_of name (l1 ++ l2) = records_of name l1 ++ records_of name l2.
Proof. unfold records_of. by rewrite frames_of_app, fmap_app, concat_app. Qed.

Lemma records_of_one name e :
  records_of name [e] = if decide (file_name (now e) = name) then HourFile.frame_record (frame e) else [].
Proof.
  unfold records_of, frames_of. rewrite filter_cons. case_decide; [|done].
  rewrite filter_nil, !fmap_cons, !fmap_nil. cbn [concat]. apply app_nil_r.
Qed.

(** The open file belongs to this configuration. *)
Definition file_ok (cfg : ArchiveConfig.t) (f : HourFile.t) : Prop :=
  HourFile.path f = file_name (HourFile.hour_key f) ∧
  HourFile.level f = ArchiveConfig.zstd_level cfg.

(** What a file will hold once the open stream is finished. *)
Definition open_stream (name : bytes) (state : option HourFile.t) : bytes :=
  match state with
  | Some f => if decide (HourFile.path f = name) then HourFile.encoder f else []
  | None => []
  end.

Definition holds (cfg : ArchiveConfig.t) (name contents : bytes)
    (st : option HourFile.t * files) : Prop :=
  (∀ f, st.1 = Some f → file_ok cfg f) ∧
  ∃ ps, default [] (st.2 !! name) = concat (compress (ArchiveConfig.zstd_level cfg) <$> ps) ∧
        contents = concat ps ++ open_stream name st.1.

Lemma append_other_holds cfg name contents path data f fs :
  path ≠ name → HourFile.path f = path →
  holds cfg name contents (Some f, fs) → holds cfg name contents (None, append_to path data fs).
Proof.
  intros Hne Hp [_ (ps & Hps & ->)]. split; [done|]. exists ps. cbn [fst snd open_stream] in *.
  unfold append_to. rewrite lookup_insert_ne by done. split; [done|]. by rewrite decide_False by congruence.
Qed.

Lemma finalize_holds cfg name contents fails f fs :
  (HourFile.path f = name → fails = None) →
  holds cfg name contents (Some f, fs) → holds cfg name contents (None, finalize fails f fs).
Proof.
  intros Hfails Hst. destruct (decide (HourFile.path f = name)) as [Hp|Hp].
  2: { unfold finalize. destruct fails; by apply (append_other_holds _ _ _ _ _ f). }
  rewrite (Hfails Hp). destruct Hst as [Hf (ps & Hps & ->)]. split; [done|]. cbn [fst snd open_stream] in *.
  destruct (Hf f eq_refl) as [_ Hlevel]. unfold finalize, append_to. rewrite Hlevel, decide_True by done.
  subst name. exists (ps ++ [HourFile.encoder f]). rewrite lookup_insert_eq. cbn [default from_option].
  rewrite fmap_app, !concat_app, Hps. cbn. by rewrite !app_nil_r.
Qed.

Lemma open_holds cfg name contents now fs :
  holds cfg name contents (None, fs) →
  holds cfg name contents (Some (HourFile.open cfg now), fs).
Proof.
  intros [_ (ps & Hps & ->)]. split.
  - intros f [= <-]. by split.
  - exists ps. split; [done|]. cbn [fst open_stream HourFile.open HourFile.encoder].
    by case_decide.
Qed.

Lemma write_holds cfg name contents e f fs :
  HourFile.hour_key f = now e → holds cfg name contents (Some f, fs) →
  holds cfg name (contents ++ records_of name [e]) (Some (HourFile.write_frame (frame e) f), fs).
Proof.
  intros Hk [Hf (ps & Hps & ->)]. destruct (Hf f eq_refl) as [Hpath Hlevel]. split.
  - intros f' [= <-]. by split.
  - exists ps. split; [done|]. cbn [fst open_stream HourFile.write_frame HourFile.path HourFile.encoder].
    rewrite records_of_one, <-Hk, <-Hpath. case_decide; rewrite <-(assoc_L (++)); done.
Qed.

(** The second half of a turn, with the file of the hour open or not. *)
Lemma record_holds cfg name contents e st fs :
  spares_hour name e →
  match st with Some f => HourFile.hour_key f = now e | None => file_name (now e) ≠ name end →
  holds cfg name contents (st, fs) →
  holds cfg name (contents ++ records_of name [e])
    match st with
    | None => (None, fs)
    | Some file =>
        match write_fails e with
        | Some left_over => (None, append_to (HourFile.path file) left_over fs)
        | None => (Some (HourFile.write_frame (frame e) file), fs)
        end
    end.
Proof.
  intros He Hk Hst. destruct st as [f|].
  - destruct (write_fails e) as [left_over|] eqn:Hw; [|by apply write_holds].
    assert (HourFile.path f ≠ name) as Hne.
    { destruct Hst as [Hf _]. destruct (Hf f eq_refl) as [-> _]. rewrite Hk. intros (_ & Hn & _)%He. congruence. }
    rewrite records_of_one, decide_False, app_nil_r; [by apply (append_other_holds _ _ _ _ _ f)|].
    destruct Hst as [Hf _]. destruct (Hf f eq_refl) as [Hp _]. by rewrite <-Hk, <-Hp.
  - by rewrite records_of_one, decide_False, app_nil_r.
Qed.

Lemma receive_holds cfg name contents e st :
  spares name e st → holds cfg name contents st →
  holds cfg name (contents ++ records_of name [e]) (receive cfg e st).
Proof.
  intros [He Hfin] Hst. destruct st as [state fs]. unfold receive.
  set (rotate := match state with
    | Some s => negb (bool_decide (HourFile.hour_key s = now e)) | None => true end).
  set (fs' := match state with
    | Some prev => if rotate then finalize (finalize_fails e) prev fs else fs | None => fs end).
  set (state' := if rotate then if open_fails e then None else Some (HourFile.open cfg (now e)) else state).
  assert (match state' with Some f => HourFile.hour_key f = now e | None => file_name (now e) ≠ name end ∧
    holds cfg name contents (state', fs')) as [Hk Hst'].
  { subst rotate fs' state'. destruct state as [f|]; cbn [fst] in Hfin.
    - case_bool_decide as Hk; cbn [negb]; [done|].
      apply (finalize_holds _ _ _ (finalize_fails e)) in Hst; [|by apply Hfin].
      destruct (open_fails e) eqn:Ho; [|by split; [|apply open_holds]].
      split; [|done]. intros (Hn & _)%He. congruence.
    - destruct (open_fails e) eqn:Ho; [|by split; [|apply open_holds]]. split; [|done]. intros (Hn & _)%He. congruence. }
  by apply record_holds.
Qed.

Lemma turns_holds cfg name contents events st :
  spares_all cfg name events st → holds cfg name contents st →
  holds cfg name (contents ++ records_of name events) (foldl (λ st e, receive cfg e st) st events).
Proof.
  revert contents st. induction events as [|e events IH]; intros contents st; cbn [spares_all foldl].
  - by rewrite app_nil_r.
  - intros [He Hev] Hst. change (e :: events) with ([e] ++ events).
    rewrite records_of_app, (assoc_L (++)). apply IH; [done|]. by apply receive_holds.
Qed.

Lemma writer_loop_holds cfg name contents events fails fs :
  spares_all cfg name events (None, fs) →
  (∀ f, (turns cfg events fs).1 = Some f → HourFile.path f = name → fails = None) →
  holds cfg name contents (None, fs) →
  holds cfg name (contents ++ records_of name events) (None, writer_loop cfg events fails fs).
Proof.
  intros Hev Hlast Hst. pose proof (turns_holds _ _ _ _ _ Hev Hst) as Hturns.
  unfold writer_loop, turns in *. destruct (foldl _ _ events) as [[f|] fs']; [|done].
  apply finalize_holds; [by apply Hlast|done].
Qed.

Lemma runs_holds cfg name contents runs fs :
  spares_runs cfg name runs fs → holds cfg name contents (None, fs) →
  holds cfg name (contents ++ records_of name (all_events runs)) (None, archive_after cfg runs fs).
Proof.
  revert contents fs. induction runs as [|[events fails] runs IH]; intros contents fs; cbn [spares_runs].
  - unfold all_events. cbn. by rewrite app_nil_r.
  - intros (Hev & Hlast & Hruns) Hst. unfold all_events. cbn [fmap list_fmap concat].
    rewrite records_of_app, (assoc_L (++)). apply IH; [done|]. by apply writer_loop_holds.
Qed.

Lemma spares_all_hours cfg name events st :
  spares_all cfg name events st → Forall (spares_hour name) events.
Proof.
  revert st. induction events as [|e events IH]; intros st; cbn [spares_all]; [constructor|].
  intros [[He _] Hev]. constructor; [done|by eapply IH].
Qed.

Lemma spares_runs_hours cfg name runs fs :
  spares_runs cfg name runs fs → Forall (spares_hour name) (all_events runs).
Proof.
  unfold all_events. revert fs. induction runs as [|[events fails] runs IH]; intros fs; cbn [spares_runs];
    [constructor|].
  intros (Hev & _ & Hruns). apply Forall_app. split; [by eapply spares_all_hours|by eapply IH].
Qed.

(** What is read back from a file none of whose operations failed. *)
Lemma spared_reads_back cfg name runs :
  spares_runs cfg name runs ∅ →
  decompress (default [] (archive_after cfg runs ∅ !! name)) ≫= read_frames =
    Some (frames_of name (all_events runs)).
Proof.
  intros Hs. destruct (runs_holds cfg name [] runs ∅ Hs) as [_ (ps & Hps & Heq)].
  { split; [done|]. by exists []. }
  cbn [snd fst open_stream app] in *. rewrite app_nil_r in Heq.
  rewrite Hps, decompress_concat. simpl. rewrite <-Heq. apply read_frames_records.
  unfold frames_of. apply Forall_fmap, Forall_forall. intros e [Hn He]%list_elem_of_filter.
  apply spares_runs_hours in Hs. rewrite Forall_forall in Hs. by apply (Hs e).
Qed.

(** Nothing fails. *)
Lemma clean_spares cfg name events st : Forall clean events → spares_all cfg name events st.
Proof.
  intros Hev. revert st. induction Hev as [|e events (Hf & Ho & Hw & Hl) _ IH]; intros st; [done|].
  split; [|apply IH]. by split.
Qed.

Lemma clean_spares_runs cfg name runs fs :
  Forall clean (concat runs) → spares_runs cfg name ((λ events, (events, None)) <$> runs) fs.
Proof.
  revert fs. induction runs as [|events runs IH]; intros fs; [done|]. cbn [concat].
  intros [Hev Hruns]%Forall_app. cbn. split_and!; [by apply clean_spares|done|by apply IH].
Qed.

(** The archive can be read back. Over any number of runs of the writer
    on the same directory, restarts within an hour included, if no disk
    operation fails then every hour file, decompressed and cut into records,
    is exactly the frames received in its hour, in the order received, with
    nothing lost at a rotation, even when the clock goes back to an earlier
    hour. *)
Theorem archive_reads_back (cfg : ArchiveConfig.t) (runs : list (list event)) (name : bytes) :
  Forall clean (concat runs) →
  let fs := foldl (λ fs events, writer_loop cfg events None fs) ∅ runs in
  decompress (default [] (fs !! name)) ≫= read_frames = Some (frames_of name (concat runs)).
Proof.
  intros Hc fs. pose proof (spared_reads_back cfg name _ (clean_spares_runs cfg name runs ∅ Hc)) as Hr.
  unfold archive_after, all_events in Hr. rewrite <-list_fmap_compose, list_fmap_id in Hr.
  rewrite foldl_fmap in Hr. exact Hr.
Qed.

(** The frames received in an hour. *)
Definition frames_in (k : HourKey) (events : list event) : list bytes :=
  frame <$> filter (λ e, now e = k) events.

(** (C31) Failures stay within their hour. Over any number of runs of the writer on
    the same directory, whatever disk operations fail on the files of other
    hours, and whatever they leave there, the file of an hour none of whose own
    operations failed, decompressed and cut into records, is exactly the frames
    received in that hour, in order, and in no other. *)
Theorem hour_file_reads_back (cfg : ArchiveConfig.t) (runs : list writer_run) (k : HourKey) :
  hour_ok k → Forall (λ e, hour_ok (now e)) (all_events runs) →
  spares_runs cfg (file_name k) runs ∅ →
  decompress (default [] (archive_after cfg runs ∅ !! file_name k)) ≫= read_frames =
    Some (frames_in k (all_events runs)).
Proof.
  intros Hk Hok Hs. rewrite (spared_reads_back _ _ _ Hs). unfold frames_of, frames_in. do 2 f_equal.
  clear Hs. induction Hok as [|e events He _ IH]; [done|]. rewrite !filter_cons, IH.
  destruct (decide (now e = k)) as [->|Hne]; [by rewrite decide_True|].
  rewrite decide_False; [done|]. by intros ?%file_name_inj.
Qed.
End correctness.

(** ** Witnesses *)

Definition archived (frame : string) (hour : Z) : ArchiveWriter.event :=
  ArchiveWriter.mk_event (bs frame) (2026, 5, 26, hour) None false None.

Lemma archive_reads_back_witness :
  @decompress zstd_reference (default []
    (foldl (λ fs events, @ArchiveWriter.writer_loop zstd_reference ArchiveConfig.default events None fs) ∅
       [[archived "T:PETR4:1" 14; archived "B:PETR4:2" 15]; [archived "T:VALE3:3" 15]]
     !! bs "2026-05-26T15.zst")) ≫= read_frames
  = Some [bs "B:PETR4:2"; bs "T:VALE3:3"].
Proof.
  pose proof (@archive_reads_back zstd_reference zstd_reference_spec ArchiveConfig.default
    [[archived "T:PETR4:1" 14; archived "B:PETR4:2" 15]; [archived "T:VALE3:3" 15]]
    (bs "2026-05-26T15.zst")) as Hr.
  cbn zeta in Hr. rewrite Hr.
  - vm_compute. reflexivity.
  - apply (bool_decide_eq_true_1 (Forall _ _)). vm_compute. reflexivity.
Defined.

(** The file of the hour before cannot be finished, nor that of 16h opened. *)
Definition faulty_run : list ArchiveWriter.event :=
  [archived "T:PETR4:1" 14;
   ArchiveWriter.mk_event (bs "B:PETR4:2") (2026, 5, 26, 15) (Some [x28]) false None;
   archived "T:VALE3:3" 15;
   ArchiveWriter.mk_event (bs "T:VALE3:4") (2026, 5, 26, 16) None true None].

Lemma hour_file_reads_back_witness :
  @decompress zstd_reference (default []
    (@archive_after zstd_reference ArchiveConfig.default [(faulty_run, None)] ∅
       !! file_name (2026, 5, 26, 15))) ≫= read_frames
  = Some [bs "B:PETR4:2"; bs "T:VALE3:3"].
Proof.
  pose proof (@hour_file_reads_back zstd_reference zstd_reference_spec ArchiveConfig.default
    [(faulty_run, None)] (2026, 5, 26, 15)) as Hr.
  rewrite Hr.
  - vm_compute. reflexivity.
  - vm_compute. repeat split; discriminate.
  - repeat (apply Forall_cons; split; [vm_compute; repeat split; discriminate|]). apply Forall_nil. exact I.
  - split; [|split; [|exact I]].
    + split; [split|split; [split|split; [split|split; [split|exact I]]]].
      1, 7: intros Hn; vm_compute in Hn; discriminate Hn.
      2, 4: intros _; vm_compute; repeat split; discriminate.
      2: intros f Hf Hp; vm_compute in Hf; injection Hf as <-; vm_compute in Hp; discriminate Hp.
      all: intros; reflexivity.
    + intros; reflexivity.
Defined.
