(* ===== verification/AssetCache.v ===== *)
(** * Asset cache ([persistence/src/asset_cache.rs])

    The map from tickers to asset ids, and the states of it a concurrent reader
    can see while it is refreshed. *)

From S2P Require Import Prelude RustInt.

Module AssetCache.

Abbreviation cache := (gmap bytes Z).

Record t : Type := mk {
  map : cache;
  query : bytes;
}.

Definition DEFAULT_ASSETS_QUERY : bytes := bs "SELECT id, ticker FROM public.assets".

Definition new : t := mk ∅ DEFAULT_ASSETS_QUERY.
Definition with_query (query : bytes) (c : t) : t := mk (map c) query.

Definition get (ticker : bytes) (c : t) : option Z := map c !! ticker.
Definition insert (ticker : bytes) (id : Z) (c : t) : t := mk (<[ticker := id]> (map c)) (query c).
Definition len (c : t) : nat := size (map c).
Definition is_empty (c : t) : bool := (len c =? 0)%nat.

(** [new_map] of [refresh]. *)
Definition new_map (rows : list (Z * bytes)) : cache :=
  foldl (λ m row, <[row.2 := row.1]> m) ∅ rows.

(** The states of the shared map from the [clear] on, when the new map is
    iterated in the order [entries]. *)
Fixpoint fill (entries : list (bytes * Z)) (m : cache) : list cache :=
  match entries with
  | [] => [m]
  | kv :: entries' => m :: fill entries' (<[kv.1 := kv.2]> m)
  end.
Definition refresh_trace (rows : list (Z * bytes)) (entries : list (bytes * Z)) : list cache :=
  fill entries ∅.

(** [None] is a failed query, which leaves the cache as it is. *)
Definition refresh (rows : option (list (Z * bytes))) (c : t) : option nat * t :=
  match rows with
  | None => (None, c)
  | Some rows =>
      (Some (length rows),
       mk (foldl (λ m kv, <[kv.1 := kv.2]> m) ∅ (map_to_list (new_map rows))) (query c))
  end.
End AssetCache.

Section correctness.
Import AssetCache.

(** The id of the last row for a ticker. *)
Definition last_row (ticker : bytes) (rows : list (Z * bytes)) : option Z :=
  last (fst <$> filter (λ row, row.2 = ticker) rows).

Lemma lookup_new_map rows ticker : new_map rows !! ticker = last_row ticker rows.
Proof.
  unfold new_map, last_row. induction rows as [|[id tk] rows IH] using rev_ind; [done|].
  rewrite foldl_app, filter_app, fmap_app, last_app. cbn [foldl fst snd].
  destruct (decide (tk = ticker)) as [->|Hne].
  - by rewrite lookup_insert_eq, filter_cons_True.
  - by rewrite lookup_insert_ne, filter_cons_False.
Qed.

(** Inserting every entry of a map, in any order, rebuilds it. *)
Lemma fill_all (entries : list (bytes * Z)) (m : cache) :
  entries ≡ₚ map_to_list m → foldl (λ m kv, <[kv.1 := kv.2]> m) ∅ entries = m.
Proof.
  intros Hp. transitivity (list_to_map (M := cache) (rev entries)).
  - clear Hp. induction entries as [|[k v] entries IH] using rev_ind; [done|].
    rewrite foldl_app, rev_app_distr, IH. done.
  - assert (rev entries ≡ₚ map_to_list m) as Hr by (by rewrite <-Permutation_rev).
    transitivity (list_to_map (M := cache) (map_to_list m)); [|apply list_to_map_to_list].
    apply list_to_map_proper; [|done]. rewrite Hr. apply NoDup_fst_map_to_list.
Qed.

Lemma fill_head entries m : head (fill entries m) = Some m.
Proof. by destruct entries. Qed.
Lemma fill_last entries m :
  last (fill entries m) = Some (foldl (λ m kv, <[kv.1 := kv.2]> m) m entries).
Proof.
  revert m. induction entries as [|kv entries IH]; intros m; [done|].
  cbn [fill foldl]. rewrite <-IH.
  destruct (fill entries _) eqn:E; [|done]. by destruct entries.
Qed.

(** A refresh ends with the table, and passes through nothing. After a
    successful query every ticker maps to the id of its last row and to
    nothing when it has no row, whatever the order the new map is walked in;
    the count reported is the number of rows. But the walk is visible: the
    first state a concurrent reader can see after the clear is the empty
    map, in which tickers known before and after have no id. *)
Theorem refresh_correct_not_atomic (rows : list (Z * bytes)) (entries : list (bytes * Z)) (c : t)
    (ticker : bytes) :
  entries ≡ₚ map_to_list (new_map rows) →
  (refresh (Some rows) c).1 = Some (length rows) ∧
  get ticker (refresh (Some rows) c).2 = last_row ticker rows ∧
  last (refresh_trace rows entries) = Some (map (refresh (Some rows) c).2) ∧
  head (refresh_trace rows entries) = Some ∅ ∧
  get ticker (mk ∅ (query c)) = None.
Proof.
  intros Hp. unfold refresh_trace, get. cbn [refresh fst snd map].
  rewrite fill_last, fill_head, (fill_all entries _ Hp), (fill_all _ (new_map rows)) by done. by rewrite lookup_new_map, lookup_empty.
Qed.
End correctness.

Lemma refresh_correct_not_atomic_witness :
  AssetCache.get (bs "PETR4") (AssetCache.refresh
    (Some [(7, bs "PETR4"); (8, bs "VALE3"); (9, bs "PETR4")]) AssetCache.new).2 = Some 9.
Proof.
  destruct (refresh_correct_not_atomic [(7, bs "PETR4"); (8, bs "VALE3"); (9, bs "PETR4")]
    (map_to_list (AssetCache.new_map [(7, bs "PETR4"); (8, bs "VALE3"); (9, bs "PETR4")]))
    AssetCache.new (bs "PETR4")) as (_ & Hg & _); [reflexivity|].
  rewrite Hg. vm_compute. reflexivity.
Defined.
