(* ===== verification/Pipeline.v ===== *)
(** * Ingest pipeline ([ingest-daemon/src/pipeline.rs])

    [dispatch] routes one message to the engines, the catalog and the spawned
    tasks. [Worker] is the pool: any number of workers taking frames from one
    channel, interleaved with the tasks, the flush timers and the archive
    thread; a schedule is the list of the steps taken. *)

From S2P Require Import Prelude RustInt RustStr RustFloat Externs Enums Types Frame Scanner Parser.
From S2P Require Import OrderBook BookEngine Quote TradeBuf Wal StagedTrade TradeWriter Fanout.
From S2P Require Import Commands RawArchive AssetCache.

(** ** Catalog *)

Module BrokerInfo.
Record t : Type := mk {
  code : bytes;
  name : bytes;
  active : bool;
}.
#[global] Instance t_eq_dec : EqDecision t.
Proof. solve_decision. Defined.
End BrokerInfo.

Module Catalog.
Record t : Type := mk {
  symbols : gset bytes;
  book_universe : gset bytes;
  brokers : gmap bytes BrokerInfo.t;
}.
Definition default : t := mk ∅ ∅ ∅.

Definition insert_symbol (market ticker : bytes) (c : t) : t :=
  mk ({[ticker]} ∪ symbols c)
    (if eq_ignore_ascii_case market (bs "BOVESPA") then {[ticker]} ∪ book_universe c
     else book_universe c)
    (brokers c).

Definition insert_broker (cedro_id : bytes) (info : BrokerInfo.t) (c : t) : t :=
  mk (symbols c) (book_universe c) (<[cedro_id := info]> (brokers c)).

Definition broker (cedro_id : bytes) (c : t) : option BrokerInfo.t := brokers c !! cedro_id.
End Catalog.

Module Engine.
Record t : Type := mk {
  quote : QuoteEngine.t;
  book : BookEngine.t;
  trades : TradeBuffer.t;
}.
End Engine.

(** The JSON blob of a staged trade, made by [serde_json]. *)
Class StagedTradeExt `{Chrono} : Type := encode_wal_blob : StagedTrade.t → bytes.

Module Pipeline.

(** What [spawn_fanout] and [spawn_persist] leave to run later. *)
Inductive task : Type :=
  | SubmitTask (key : PublishKey.t) (payload : bytes)
  | AppendTask (blob : bytes).

Section pipeline.
Context `{TradeTable, !AHash, !StagedTradeExt}.

Record t : Type := mk {
  engine : Engine.t;
  fanout : Coalescer.t;
  archive : ArchiveHandle.t;
  trade_writer : option TradeWriter.t;
  asset_cache : AssetCache.t;
  catalog : Catalog.t;
  subscriptions : SubscriptionRegistry.t;
}.

Definition with_engine (e : Engine.t) (p : t) : t :=
  mk e (fanout p) (archive p) (trade_writer p) (asset_cache p) (catalog p) (subscriptions p).
Definition with_fanout (f : Coalescer.t) (p : t) : t :=
  mk (engine p) f (archive p) (trade_writer p) (asset_cache p) (catalog p) (subscriptions p).
Definition with_archive (a : ArchiveHandle.t) (p : t) : t :=
  mk (engine p) (fanout p) a (trade_writer p) (asset_cache p) (catalog p) (subscriptions p).
Definition with_writer (w : option TradeWriter.t) (p : t) : t :=
  mk (engine p) (fanout p) (archive p) w (asset_cache p) (catalog p) (subscriptions p).
Definition with_catalog (c : Catalog.t) (p : t) : t :=
  mk (engine p) (fanout p) (archive p) (trade_writer p) (asset_cache p) c (subscriptions p).
Definition with_subscriptions (r : SubscriptionRegistry.t) (p : t) : t :=
  mk (engine p) (fanout p) (archive p) (trade_writer p) (asset_cache p) (catalog p) r.

Definition with_quote (q : QuoteEngine.t) (p : t) : t :=
  with_engine (Engine.mk q (Engine.book (engine p)) (Engine.trades (engine p))) p.
Definition with_book (b : BookEngine.t) (p : t) : t :=
  with_engine (Engine.mk (Engine.quote (engine p)) b (Engine.trades (engine p))) p.
Definition with_trades (b : TradeBuffer.t) (p : t) : t :=
  with_engine (Engine.mk (Engine.quote (engine p)) (Engine.book (engine p)) b) p.

(** [build], with the writer the connection gave. *)
Definition build (n_book_shards trade_buffer_per_ticker : nat) (writer : option TradeWriter.t) : t :=
  mk (Engine.mk QuoteEngine.new (BookEngine.new n_book_shards)
        (TradeBuffer.new trade_buffer_per_ticker))
    Coalescer.new
    (ArchiveHandle.mk [] (ArchiveConfig.channel_capacity ArchiveConfig.default) true)
    writer AssetCache.new Catalog.default SubscriptionRegistry.new.

Definition build_staged_trade (cache : AssetCache.t) (ticker : bytes) (x : Trade.t)
    (now : DateTime) : option StagedTrade.t :=
  ticker_str ← from_utf8 ticker;
  asset_id ← AssetCache.get ticker_str cache;
  Some (StagedTrade.mk now asset_id (Trade.price x)
    (default i64_max (checked i64_min i64_max (Trade.quantity x)))
    (checked i32_min i32_max (Trade.broker_buy_id x))
    (checked i32_min i32_max (Trade.broker_sell_id x))
    (match Trade.aggressor x with
     | TradeAggressor.Buyer => Some 1
     | TradeAggressor.Seller => Some 2
     | _ => None
     end)
    (from_utf8 (Trade.trade_id x))
    (match Trade.condition x with TradeCondition.Direct => true | _ => false end)).

(** [append] with its result dropped. *)
Definition append_blob (blob : bytes) (w : TradeWriter.t) : TradeWriter.t :=
  match TradeWal.append blob (TradeWriter.wal w) with
  | Ok (_, wal) => TradeWriter.mk wal (TradeWriter.buffer w) (TradeWriter.batch_size w) (TradeWriter.db w)
  | Err _ => w
  end.

(** [None] is a panic of an engine. *)
Definition dispatch (now : DateTime) (msg : ProtocolMessage.t) (p : t) : option (t * list task) :=
  match msg with
  | ProtocolMessage.Quote ticker time diff =>
      Some (with_quote (QuoteEngine.apply ticker time diff (Engine.quote (engine p))).2 p,
            [SubmitTask (PublishKey.mk Kind.Quote ticker) (bs "q")])
  | ProtocolMessage.Book ticker op =>
      '(_, b) ← BookEngine.apply ticker op (Engine.book (engine p));
      Some (with_book b p, [SubmitTask (PublishKey.mk Kind.Book ticker) (bs "b")])
  | ProtocolMessage.Trade ticker (TradeOperation.Add x) =>
      let p := with_trades (TradeBuffer.push ticker (TradeRecord.from x) (Engine.trades (engine p))) p in
      let '(p, persist) :=
        match trade_writer p with
        | None => (p, [])
        | Some w =>
            match build_staged_trade (asset_cache p) ticker x now with
            | None => (p, [])
            | Some staged =>
                (with_writer (Some (append_blob [] w)) p, [AppendTask (encode_wal_blob staged)])
            end
        end in
      Some (p, persist ++ [SubmitTask (PublishKey.mk Kind.Trade ticker) (bs "t")])
  | ProtocolMessage.Trade ticker (TradeOperation.Delete trade_id) =>
      Some (with_trades (TradeBuffer.remove ticker trade_id (Engine.trades (engine p))).2 p, [])
  | ProtocolMessage.Trade ticker TradeOperation.RemoveAll =>
      Some (with_trades (TradeBuffer.clear ticker (Engine.trades (engine p))) p, [])
  | ProtocolMessage.Trade _ _ => Some (p, [])
  | ProtocolMessage.MqcItem (MqcItem.Symbol market ticker) =>
      match from_utf8 market, from_utf8 ticker with
      | Some m, Some s => Some (with_catalog (Catalog.insert_symbol m s (catalog p)) p, [])
      | _, _ => Some (p, [])
      end
  | ProtocolMessage.GpnItem item =>
      match from_utf8 (GpnItem.cedro_id item), from_utf8 (GpnItem.code item),
            from_utf8 (GpnItem.name item) with
      | Some cedro_id, Some code, Some name =>
          Some (with_catalog (Catalog.insert_broker cedro_id
                  (BrokerInfo.mk code name (GpnItem.active item)) (catalog p)) p, [])
      | _, _, _ => Some (p, [])
      end
  | _ => Some (p, [])
  end.

Definition run_task (k : task) (p : t) : t :=
  match k with
  | SubmitTask key payload => with_fanout (Coalescer.submit key payload (fanout p)) p
  | AppendTask blob => with_writer (append_blob blob <$> trade_writer p) p
  end.

(** The tick of the flush timer, and the shutdown's [flush_all]. *)
Definition flush_trades (p : t) : t :=
  with_writer ((λ w, (TradeWriter.flush w).2) <$> trade_writer p) p.
Definition flush_all (p : t) : t :=
  let p1 := flush_trades p in
  match trade_writer p with
  | Some w => match (TradeWriter.flush w).1 with
              | Err _ => p1
              | Ok _ => with_fanout (Coalescer.flush_once (fanout p1)) p1
              end
  | None => with_fanout (Coalescer.flush_once (fanout p1)) p1
  end.
End pipeline.
End Pipeline.

(** ** The worker pool *)

Module Worker.
Section worker.
Context `{TradeTable, !AHash, !StagedTradeExt, !Memchr}.
Import Pipeline.

(** The frames still in the channel, the message each worker holds between
    parsing and dispatching it, the spawned tasks and the pipeline. *)
Record state : Type := mk_state {
  frames : list (FrameKind.t * bytes);
  held : list (option ProtocolMessage.t);
  tasks : list task;
  pipe : Pipeline.t;
}.

Definition start (workers : nat) (frames : list (FrameKind.t * bytes)) (p : Pipeline.t) : state :=
  mk_state frames (replicate workers None) [] p.

Inductive event : Type :=
  | Take (worker : nat)
  | Dispatch (worker : nat) (now : DateTime)
  | RunTask (i : nat)
  | FlushTimer
  | CoalescerTick
  | ArchiveReceive.

(** One step; [None] when it cannot be taken. *)
Definition step (ev : event) (s : state) : option state :=
  match ev with
  | Take i =>
      match frames s, held s !! i with
      | (kind, frame) :: rest, Some None =>
          let p := with_archive (ArchiveHandle.try_push frame (archive (pipe s))).2 (pipe s) in
          Some (mk_state rest
            (match parse_frame kind frame with
             | Ok msg => <[i := Some msg]> (held s)
             | Err _ => held s
             end) (tasks s) p)
      | _, _ => None
      end
  | Dispatch i now =>
      match held s !! i with
      | Some (Some msg) =>
          '(p, new) ← dispatch now msg (pipe s);
          Some (mk_state (frames s) (<[i := None]> (held s)) (tasks s ++ new) p)
      | _ => None
      end
  | RunTask i =>
      k ← tasks s !! i;
      Some (mk_state (frames s) (held s) (remove_at i (tasks s)) (run_task k (pipe s)))
  | FlushTimer => Some (mk_state (frames s) (held s) (tasks s) (flush_trades (pipe s)))
  | CoalescerTick =>
      Some (mk_state (frames s) (held s) (tasks s)
        (with_fanout (Coalescer.flush_once (fanout (pipe s))) (pipe s)))
  | ArchiveReceive =>
      let a := archive (pipe s) in
      Some (mk_state (frames s) (held s) (tasks s)
        (with_archive (ArchiveHandle.mk (drop 1 (ArchiveHandle.queue a))
           (ArchiveHandle.channel_capacity a) (ArchiveHandle.connected a)) (pipe s)))
  end.

Fixpoint run (evs : list event) (s : state) : option state :=
  match evs with
  | [] => Some s
  | ev :: evs' => s ← step ev s; run evs' s
  end.

(** The message a step dispatches. *)
Definition dispatched_by (ev : event) (s : state) : list ProtocolMessage.t :=
  match ev with
  | Dispatch i _ => match held s !! i with Some (Some msg) => [msg] | _ => [] end
  | _ => []
  end.
Fixpoint dispatched (evs : list event) (s : state) : list ProtocolMessage.t :=
  match evs with
  | [] => []
  | ev :: evs' =>
      dispatched_by ev s ++
      match step ev s with Some s' => dispatched evs' s' | None => [] end
  end.
End worker.
End Worker.

(** ** What the pool does to the engines *)

(** The update of each engine in a message. *)
Definition quote_of (msg : ProtocolMessage.t) : option (bytes * Z * QuoteDiff) :=
  match msg with
  | ProtocolMessage.Quote ticker time diff => Some (ticker, time, diff)
  | _ => None
  end.
Definition book_of (msg : ProtocolMessage.t) : option BookCmd.t :=
  match msg with
  | ProtocolMessage.Book ticker op => Some (BookCmd.Apply ticker op)
  | _ => None
  end.
Definition trade_of (msg : ProtocolMessage.t) : option TradeOp.t :=
  match msg with
  | ProtocolMessage.Trade ticker (TradeOperation.Add x) =>
      Some (TradeOp.Push ticker (TradeRecord.from x))
  | ProtocolMessage.Trade ticker (TradeOperation.Delete trade_id) =>
      Some (TradeOp.Remove ticker trade_id)
  | ProtocolMessage.Trade ticker TradeOperation.RemoveAll => Some (TradeOp.Clear ticker)
  | _ => None
  end.

Section projection.
Context `{TradeTable, !AHash, !StagedTradeExt, !Memchr}.
Import Pipeline Worker.

(** The messages in a list of frames. *)
Definition messages (fs : list (FrameKind.t * bytes)) : list ProtocolMessage.t :=
  omap (λ f, result_ok (parse_frame f.1 f.2)) fs.

(** The engines after a list of messages. *)
Definition engines_after (log : list ProtocolMessage.t) (e e' : Engine.t) : Prop :=
  Engine.quote e' = QuoteEngine.apply_all (omap quote_of log) (Engine.quote e) ∧
  Engine.trades e' = TradeOp.apply_all (omap trade_of log) (Engine.trades e) ∧
  ∃ flags, engine_run (omap book_of log) (Engine.book e) = Some (flags, Engine.book e').

Lemma engine_run_app l1 l2 e flags1 e1 flags2 e2 :
  engine_run l1 e = Some (flags1, e1) → engine_run l2 e1 = Some (flags2, e2) →
  engine_run (l1 ++ l2) e = Some (flags1 ++ flags2, e2).
Proof.
  revert e flags1. induction l1 as [|[ticker op|a] l1 IH]; intros e flags1 Hr1 Hr2; cbn [engine_run app] in *.
  - by simplify_eq.
  - destruct (BookEngine.apply ticker op e) as [[b e0]|]; [|done]. cbn in *.
    destruct (engine_run l1 e0) as [[bs0 e0']|] eqn:He0; [|done]. cbn in Hr1.
    simplify_eq. by rewrite (IH e0 bs0 He0 Hr2).
  - by apply IH.
Qed.

Lemma worker_run_app l1 l2 s : Worker.run (l1 ++ l2) s = Worker.run l1 s ≫= Worker.run l2.
Proof.
  revert s. induction l1 as [|ev l1 IH]; intros s; [done|]. cbn [app Worker.run].
  destruct (Worker.step ev s); [apply IH|done].
Qed.

Lemma engines_after_nil e : engines_after [] e e.
Proof. split_and!; [done|done|by exists []]. Qed.

Lemma engines_after_app l1 l2 e e1 e2 :
  engines_after l1 e e1 → engines_after l2 e1 e2 → engines_after (l1 ++ l2) e e2.
Proof.
  intros (Hq1 & Ht1 & f1 & Hb1) (Hq2 & Ht2 & f2 & Hb2). unfold engines_after.
  rewrite !omap_app. split_and!.
  - unfold QuoteEngine.apply_all in *. by rewrite foldl_app, <-Hq1.
  - unfold TradeOp.apply_all in *. by rewrite foldl_app, <-Ht1.
  - eexists. by eapply engine_run_app.
Qed.

Lemma dispatch_engines now msg p p' new :
  dispatch now msg p = Some (p', new) → engines_after [msg] (engine p) (engine p').
Proof.
  unfold engines_after. destruct msg as [tk tm diff|tk op| |tk op| | | |item|item|];
    cbn [dispatch quote_of trade_of book_of omap list_omap];
    [intros [= <- <-]; split_and!; [done|done|by exists []]| |
     intros [= <- <-]; split_and!; [done|done|by exists []]|..];
    try (intros [= <- <-]; split_and!; [done|done|by exists []]; fail).
  - destruct (BookEngine.apply tk op (Engine.book (engine p))) as [[b e]|] eqn:Hb; [|done].
    intros [= <- <-]. split_and!; [done|done|]. exists [b]. cbn [engine_run]. by rewrite Hb.
  - destruct op as [x|id| | |rid];
      try (intros [= <- <-]; split_and!; [done|done|by exists []]; fail).
    cbn zeta. destruct (trade_writer _) as [w|]; [destruct (build_staged_trade _ _ _ _)|];
      intros [= <- <-]; split_and!; (done || by exists []).
  - destruct item as [m s|]; [destruct (from_utf8 m), (from_utf8 s)|];
      intros [= <- <-]; split_and!; (done || by exists []).
  - destruct (from_utf8 (GpnItem.cedro_id item)), (from_utf8 (GpnItem.code item)),
      (from_utf8 (GpnItem.name item));
      intros [= <- <-]; split_and!; (done || by exists []).
Qed.

Lemma step_engines ev s s' :
  step ev s = Some s' → engines_after (dispatched_by ev s) (engine (pipe s)) (engine (pipe s')).
Proof.
  destruct ev as [i|i now|i| | |]; cbn [step dispatched_by].
  - destruct (frames s) as [|[k f] rest]; [done|].
    destruct (held s !! i) as [[|]|]; [done| |done].
    intros [= <-]. apply engines_after_nil.
  - destruct (held s !! i) as [[msg|]|]; [|done|done].
    destruct (dispatch now msg (pipe s)) as [[p new]|] eqn:Hd; [|done].
    intros [= <-]. by eapply dispatch_engines.
  - destruct (tasks s !! i) as [[]|]; [..|done]; intros [= <-]; apply engines_after_nil.
  - intros [= <-]. apply engines_after_nil.
  - intros [= <-]. apply engines_after_nil.
  - intros [= <-]. apply engines_after_nil.
Qed.

Lemma run_engines evs s s' :
  run evs s = Some s' → engines_after (dispatched evs s) (engine (pipe s)) (engine (pipe s')).
Proof.
  revert s. induction evs as [|ev evs IH]; intros s; cbn [run dispatched].
  - intros [= <-]. apply engines_after_nil.
  - destruct (step ev s) as [s1|] eqn:Hs; [|done]. intros Hr. cbn in Hr.
    eapply engines_after_app; [by apply step_engines|by apply IH].
Qed.

(** *** Every message once *)

Definition in_hand (s : state) : list ProtocolMessage.t := omap id (held s).

Lemma omap_insert_None (l : list (option ProtocolMessage.t)) i msg :
  l !! i = Some (Some msg) → omap id l ≡ₚ msg :: omap id (<[i := None]> l).
Proof.
  revert i. induction l as [|[m|] l IH]; intros [|i] Hi; simplify_eq/=; try done.
  - by rewrite (IH i Hi), Permutation_swap.
  - by apply IH.
Qed.
Lemma omap_insert_Some (l : list (option ProtocolMessage.t)) i msg :
  l !! i = Some None → omap id (<[i := Some msg]> l) ≡ₚ msg :: omap id l.
Proof.
  revert i. induction l as [|[m|] l IH]; intros [|i] Hi; simplify_eq/=; try done.
  - by rewrite (IH i Hi), Permutation_swap.
  - by apply IH.
Qed.

Lemma step_once ev s s' :
  step ev s = Some s' →
  in_hand s ++ messages (frames s) ≡ₚ dispatched_by ev s ++ in_hand s' ++ messages (frames s').
Proof.
  unfold in_hand. destruct ev as [i|i now|i| | |]; cbn [step dispatched_by].
  - destruct (frames s) as [|[k f] rest]; [done|].
    destruct (held s !! i) as [[|]|] eqn:Hi; [done| |done].
    intros [= <-]. cbn [held frames app]. unfold messages. cbn [omap list_omap fst snd].
    destruct (parse_frame k f) as [msg|e]; cbn [result_ok]; [|done].
    rewrite omap_insert_Some by done. cbn [app]. symmetry. apply Permutation_middle.
  - destruct (held s !! i) as [[msg|]|] eqn:Hi; [|done|done].
    destruct (dispatch now msg (pipe s)) as [[p new]|]; [|done]. intros [= <-].
    cbn [held frames app]. by rewrite (omap_insert_None _ _ _ Hi).
  - destruct (tasks s !! i); [|done]. by intros [= <-].
  - by intros [= <-].
  - by intros [= <-].
  - by intros [= <-].
Qed.

Lemma run_once evs s s' :
  run evs s = Some s' →
  in_hand s ++ messages (frames s) ≡ₚ dispatched evs s ++ in_hand s' ++ messages (frames s').
Proof.
  revert s. induction evs as [|ev evs IH]; intros s; cbn [run dispatched].
  - by intros [= <-].
  - destruct (step ev s) as [s1|] eqn:Hs; [|done]. intros Hr. cbn in Hr.
    by rewrite (step_once _ _ _ Hs), (IH _ Hr), <-(assoc_L (++)).
Qed.

Lemma step_held ev s s' : step ev s = Some s' → length (held s') = length (held s).
Proof.
  destruct ev as [i|i now|i| | |]; cbn [step].
  - destruct (frames s) as [|[k f] rest]; [done|].
    destruct (held s !! i) as [[|]|]; [done| |done].
    intros [= <-]. cbn [held]. destruct (parse_frame k f); [apply length_insert|done].
  - destruct (held s !! i) as [[msg|]|]; [|done|done].
    destruct (dispatch now msg (pipe s)) as [[p new]|]; [|done]. intros [= <-]. apply length_insert.
  - destruct (tasks s !! i); [|done]. by intros [= <-].
  - by intros [= <-].
  - by intros [= <-].
  - by intros [= <-].
Qed.

(** A single worker keeps the order. *)
Lemma step_in_order ev s s' :
  length (held s) = 1%nat → step ev s = Some s' →
  in_hand s ++ messages (frames s) = dispatched_by ev s ++ in_hand s' ++ messages (frames s').
Proof.
  unfold in_hand. destruct (held s) as [|h [|]] eqn:Hh; [done| |done]. intros _.
  destruct ev as [i|i now|i| | |]; cbn [step dispatched_by]; rewrite ?Hh.
  - destruct (frames s) as [|[k f] rest]; [done|].
    destruct i as [|i]; [|done]. cbn [lookup list_lookup].
    destruct h as [|]; [done|]. intros [= <-].
    cbn [held frames app]. unfold messages. cbn [omap list_omap fst snd].
    by destruct (parse_frame k f).
  - destruct i as [|i]; [|done]. cbn [lookup list_lookup]. destruct h as [msg|]; [|done].
    destruct (dispatch now msg (pipe s)) as [[p new]|]; [|done]. by intros [= <-].
  - destruct (tasks s !! i); [|done]. by intros [= <-].
  - by intros [= <-].
  - by intros [= <-].
  - by intros [= <-].
Qed.

Lemma run_in_order evs s s' :
  length (held s) = 1%nat → run evs s = Some s' →
  in_hand s ++ messages (frames s) = dispatched evs s ++ in_hand s' ++ messages (frames s').
Proof.
  revert s. induction evs as [|ev evs IH]; intros s Hl; cbn [run dispatched].
  - by intros [= <-].
  - destruct (step ev s) as [s1|] eqn:Hs; [|done]. intros Hr. cbn in Hr.
    rewrite (step_in_order _ _ _ Hl Hs), (IH s1), <-(assoc_L (++)); [done| |done].
    by rewrite (step_held _ _ _ Hs).
Qed.

Lemma in_hand_start n fs p : in_hand (start n fs p) = [].
Proof. unfold in_hand. cbn [start held]. by induction n. Qed.

(** (C1) The pool loses and duplicates nothing. For any number of workers and
    any schedule that drains the channel and leaves every worker idle, the
    messages dispatched are exactly the frames that parse, each once, and
    every engine is the fold of its own operations over them, so that the
    theorems on the engines apply; frames that do not parse, tasks and
    timers do not touch the engines. With a single worker the messages are
    dispatched in the order of the frames. *)
Theorem pool_dispatches_each_once (n : nat) (fs : list (FrameKind.t * bytes)) (p : Pipeline.t)
    (evs : list event) (s : state) :
  run evs (start n fs p) = Some s → frames s = [] → in_hand s = [] →
  let log := dispatched evs (start n fs p) in
  log ≡ₚ messages fs ∧ engines_after log (engine p) (engine (pipe s)) ∧
  (n = 1%nat → log = messages fs).
Proof.
  intros Hr Hf Hh log. pose proof (run_once _ _ _ Hr) as Ho.
  rewrite in_hand_start, Hh, Hf in Ho. cbn [app] in Ho. unfold messages at 2 in Ho.
  cbn [omap list_omap start frames] in Ho. rewrite app_nil_r in Ho.
  split_and!; [done|by apply run_engines in Hr|].
  intros ->. pose proof (run_in_order evs (start 1 fs p) s eq_refl Hr) as Hor.
  rewrite in_hand_start, Hh, Hf in Hor. cbn [app] in Hor. unfold messages at 2 in Hor.
  cbn [omap list_omap start frames] in Hor. by rewrite app_nil_r in Hor.
Qed.
End projection.

(** ** The pool can always finish *)

Section progress.
Context `{TradeTable, !AHash, !StagedTradeExt, !Memchr}.
Import Pipeline Worker.

(** A pipeline whose book engine works. *)
Definition sound (p : Pipeline.t) : Prop := ∃ spec, refines (Engine.book (engine p)) spec.

Lemma dispatch_total now msg p :
  sound p → ∃ p' new, dispatch now msg p = Some (p', new) ∧ sound p'.
Proof.
  intros [spec Hr]. destruct (dispatch now msg p) as [[p' new]|] eqn:Hd.
  - exists p', new. split; [done|].
    destruct (dispatch_engines _ _ _ _ _ Hd) as (_ & _ & flags & Hb).
    cbn [omap list_omap] in Hb. destruct (book_of msg) as [c|] eqn:Hc.
    + destruct msg; simplify_eq/=. destruct (apply_refines _ _ ticker op Hr) as (e & He & Hre).
      rewrite He in Hb. cbn in Hb. simplify_eq. by eexists.
    + cbn in Hb. injection Hb as _ Hb. exists spec. by rewrite <-Hb.
  - exfalso. destruct msg as [| tk op | | tk op | | | | item | item |]; try done; cbn [dispatch] in Hd.
    + destruct (apply_refines _ _ tk op Hr) as (e & He & _). by rewrite He in Hd.
    + destruct op; try done. cbn zeta in Hd. destruct (trade_writer _); [|done].
      by destruct (build_staged_trade _ _ _ _).
    + destruct item as [m t|]; [|done]. by destruct (from_utf8 m), (from_utf8 t).
    + by destruct (from_utf8 (GpnItem.cedro_id item)), (from_utf8 (GpnItem.code item)),
        (from_utf8 (GpnItem.name item)).
Qed.

Lemma run_app evs1 evs2 s s1 : run evs1 s = Some s1 → run (evs1 ++ evs2) s = run evs2 s1.
Proof.
  revert s. induction evs1 as [|ev evs1 IH]; intros s; cbn [run app]; [by intros [= <-]|].
  destruct (step ev s) as [s0|]; [|done]. cbn. apply IH.
Qed.

Lemma held_message (l : list (option ProtocolMessage.t)) :
  omap id l ≠ [] → ∃ i msg, l !! i = Some (Some msg).
Proof.
  induction l as [|[msg|] l IH]; cbn; [done|by exists 0%nat, msg|].
  intros Hl. destruct (IH Hl) as (i & msg & Hi). by exists (S i), msg.
Qed.

Lemma held_idle (l : list (option ProtocolMessage.t)) :
  omap id l = [] → (0 < length l)%nat → l !! 0%nat = Some None.
Proof. destruct l as [|[|] l]; cbn; [lia|done|done]. Qed.

(** The workers dispatch what they hold. *)
Lemma drain_held (now : DateTime) s :
  sound (pipe s) →
  ∃ evs s', run evs s = Some s' ∧ frames s' = frames s ∧ in_hand s' = [] ∧
    length (held s') = length (held s) ∧ sound (pipe s').
Proof.
  remember (length (in_hand s)) as k eqn:Hk. revert s Hk.
  induction k as [|k IH]; intros s Hk Hs.
  - exists [], s. split_and!; try done. by apply nil_length_inv.
  - destruct (held_message (held s)) as (i & msg & Hi); [by intros He; unfold in_hand in Hk; rewrite He in Hk|].
    destruct (dispatch_total now msg (pipe s) Hs) as (p & new & Hd & Hp).
    set (s1 := mk_state (frames s) (<[i := None]> (held s)) (tasks s ++ new) p).
    assert (step (Dispatch i now) s = Some s1) as Hstep.
    { cbn [step]. rewrite Hi, Hd. done. }
    destruct (IH s1) as (evs & s' & Hr & Hf & Hh & Hl & Hs'); [|done|].
    { unfold in_hand in *. cbn [s1 held]. rewrite (omap_insert_None _ _ _ Hi) in Hk. by injection Hk. }
    exists (Dispatch i now :: evs), s'. cbn [run]. rewrite Hstep. cbn.
    split_and!; [done|done|done| |done]. rewrite Hl. apply length_insert.
Qed.

(** The pool can always finish. From every state of a pool with at least
    one worker, whatever frames remain and messages are held, some schedule
    empties the channel and leaves every worker idle: no frame makes a worker
    panic or get stuck. *)
Theorem pool_can_drain (s : state) (now : DateTime) :
  (0 < length (held s))%nat → sound (pipe s) →
  ∃ evs s', run evs s = Some s' ∧ frames s' = [] ∧ in_hand s' = [] ∧ sound (pipe s').
Proof.
  remember (frames s) as fs eqn:Hfs. revert s Hfs.
  induction fs as [|[kind frame] fs IH]; intros s Hfs Hn Hs;
    destruct (drain_held now s Hs) as (evs & s1 & Hr & Hf & Hh & Hl & Hs1).
  - exists evs, s1. by rewrite Hf, <-Hfs.
  - pose proof (held_idle (held s1) Hh ltac:(lia)) as Hidle.
    destruct (step (Take 0) s1) as [s2|] eqn:Hstep;
      [|cbn [step] in Hstep; by rewrite Hf, <-Hfs, Hidle in Hstep].
    pose proof (step_held _ _ _ Hstep) as Hl2. pose proof Hstep as Hstep0.
    cbn [step] in Hstep. rewrite Hf, <-Hfs, Hidle in Hstep.
    destruct (IH s2) as (evs2 & s' & Hr2 & Hf2 & Hh2 & Hs2).
    + by injection Hstep as <-.
    + lia.
    + by injection Hstep as <-.
    + exists (evs ++ Take 0 :: evs2), s'. rewrite (run_app _ _ _ _ Hr). cbn [run].
      by rewrite Hstep0.
Qed.
End progress.

(** ** Order of two frames of a ticker *)

Section ordering.
Context `{TradeTable, !AHash, !StagedTradeExt, !Memchr}.
Import Pipeline Worker.
#[local] Opaque OrderBook.apply BookEngine.apply parse_frame.

(** Both frames by one worker, and one frame by each of two workers with the
    second dispatched first. *)
Definition in_turn (now : DateTime) : list event :=
  [Take 0; Dispatch 0 now; Take 0; Dispatch 0 now].
Definition overtaking (now : DateTime) : list event :=
  [Take 0; Take 1; Dispatch 1 now; Dispatch 0 now].

Lemma with_book_read {R} ticker (f : option OrderBook.t → R) e b :
  BookEngine.with_book ticker id e = Some b → BookEngine.with_book ticker f e = Some (f b).
Proof.
  unfold BookEngine.with_book. destruct (shard_for _ _); [|done]. cbn.
  destruct (_ !! _); [|done]. cbn. by intros [= ->].
Qed.

(** A book message, once its engine's step is known. *)
Lemma dispatch_book now ticker op p flag e :
  BookEngine.apply ticker op (Engine.book (engine p)) = Some (flag, e) →
  dispatch now (ProtocolMessage.Book ticker op) p =
    Some (with_book e p, [SubmitTask (PublishKey.mk Kind.Book ticker) (bs "b")]).
Proof. intros He. cbn [dispatch]. by rewrite He. Qed.

Lemma apply_two ticker op1 op2 e spec :
  refines e spec → BookEngine.is_allowed ticker e = true →
  ∃ b1 e1 b2 e2,
    BookEngine.apply ticker op1 e = Some (b1, e1) ∧ BookEngine.apply ticker op2 e1 = Some (b2, e2) ∧
    BookEngine.with_book ticker id e2 =
      Some (Some (OrderBook.apply op2 (OrderBook.apply op1
        (default OrderBook.default (BookSpec.books spec !! ticker))).2).2).
Proof.
  intros Hr Ha. destruct (apply_refines _ _ ticker op1 Hr) as (e1 & He1 & Hr1).
  destruct (apply_refines _ _ ticker op2 Hr1) as (e2 & He2 & Hr2).
  eexists _, e1, _, e2. split_and!; [done..|].
  destruct Hr2 as (_ & _ & Hb & _). rewrite Hb. unfold BookEngine.is_allowed in Ha.
  destruct Hr as (_ & Hal & _). rewrite Hal in Ha. unfold BookSpec.apply. rewrite Ha.
  destruct (OrderBook.apply op1 _) as [o1 b1]. cbn [snd BookSpec.allowed BookSpec.books].
  rewrite Ha, lookup_insert_eq. cbn [default from_option id].
  destruct (OrderBook.apply op2 b1) as [o2 b2]. cbn [snd BookSpec.books].
  by rewrite lookup_insert_eq.
Qed.

(** Two updates of a quote. *)
Lemma quote_two (ticker : bytes) (t1 t2 : Z) (d1 d2 : QuoteDiff) (e : QuoteEngine.t) :
  (QuoteEngine.apply ticker t2 d2 (QuoteEngine.apply ticker t1 d1 e).2).2 !! ticker =
  Some (QuoteState.apply_diff t2 d2
         (QuoteState.apply_diff t1 d1 (default QuoteState.default (e !! ticker))).2).2.
Proof. by rewrite !apply_snd, !lookup_insert_eq. Qed.

(** A schedule empties the channel, leaves every worker idle and the engines
    with [Q]. *)
Definition ends (n : nat) (fs : list (FrameKind.t * bytes)) (p : Pipeline.t) (evs : list event)
    (Q : Engine.t → Prop) : Prop :=
  ∃ s, run evs (start n fs p) = Some s ∧ frames s = [] ∧ in_hand s = [] ∧ Q (engine (pipe s)).

Lemma idle_workers n : omap id (replicate n (None (A := ProtocolMessage.t))) = [].
Proof. by induction n. Qed.

(** (C34) Frames of one ticker can be applied out of order. With two workers
    or more and two consecutive frames of a ticker, both the schedule that
    applies them in the order of the feed and the one that applies the second
    before the first drain the channel and leave the workers idle. For two
    quotes, in any state of the pipeline, the ticker's quote is the result of
    either order, so a field of both can be left with the older value; for two
    book messages of a ticker the allow-list of the book engine admits, the
    book is the result of either order. Nothing ties a ticker to a worker, and
    the shard lock only makes each application atomic. *)
Theorem two_workers_reorder_ticker (n : nat) (f1 f2 : FrameKind.t * bytes) (ticker : bytes)
    (p : Pipeline.t) (now : DateTime) :
  (2 ≤ n)%nat →
  (∀ t1 d1 t2 d2,
     parse_frame f1.1 f1.2 = Ok (ProtocolMessage.Quote ticker t1 d1) →
     parse_frame f2.1 f2.2 = Ok (ProtocolMessage.Quote ticker t2 d2) →
     let q := default QuoteState.default (Engine.quote (engine p) !! ticker) in
     let ends_quote evs q' := ends n [f1; f2] p evs (λ e, Engine.quote e !! ticker = Some q') in
     ends_quote (in_turn now) (QuoteState.apply_diff t2 d2 (QuoteState.apply_diff t1 d1 q).2).2 ∧
     ends_quote (overtaking now) (QuoteState.apply_diff t1 d1 (QuoteState.apply_diff t2 d2 q).2).2) ∧
  (∀ op1 op2 spec,
     parse_frame f1.1 f1.2 = Ok (ProtocolMessage.Book ticker op1) →
     parse_frame f2.1 f2.2 = Ok (ProtocolMessage.Book ticker op2) →
     refines (Engine.book (engine p)) spec →
     BookEngine.is_allowed ticker (Engine.book (engine p)) = true →
     let book := default OrderBook.default (BookSpec.books spec !! ticker) in
     let ends_book evs b := ends n [f1; f2] p evs
       (λ e, BookEngine.with_book ticker id (Engine.book e) = Some (Some b)) in
     ends_book (in_turn now) (OrderBook.apply op2 (OrderBook.apply op1 book).2).2 ∧
     ends_book (overtaking now) (OrderBook.apply op1 (OrderBook.apply op2 book).2).2).
Proof.
  intros Hn. destruct n as [|[|n]]; [lia|lia|]. destruct f1 as [k1 f1], f2 as [k2 f2].
  pose proof (idle_workers n) as Hnil. cbn [fst snd]. split.
  - intros t1 d1 t2 d2 Hp1 Hp2. cbn zeta. split; eexists; split.
    1, 3: cbn [run step in_turn overtaking start frames held pipe tasks replicate lookup list_lookup
            insert list_insert]; rewrite Hp1; cbn; rewrite Hp2; cbn; done.
    all: split_and!; [done|exact Hnil|apply quote_two].
  - intros op1 op2 spec Hp1 Hp2 Hr Ha. cbn zeta. split.
    + destruct (apply_two ticker op1 op2 _ spec Hr Ha) as (b1 & e1 & b2 & e2 & He1 & He2 & Hb).
      eexists. split.
      { cbn [run step in_turn start frames held pipe tasks replicate lookup list_lookup insert list_insert].
        rewrite Hp1. cbn. rewrite He1. cbn. rewrite Hp2. cbn. rewrite He2. done. }
      split_and!; [done|exact Hnil|exact Hb].
    + destruct (apply_two ticker op2 op1 _ spec Hr Ha) as (b1 & e1 & b2 & e2 & He1 & He2 & Hb).
      eexists. split.
      { cbn [run step overtaking start frames held pipe tasks replicate lookup list_lookup insert list_insert].
        rewrite Hp1. cbn. rewrite Hp2. cbn. rewrite He1. cbn. rewrite He2. done. }
      split_and!; [done|exact Hnil|exact Hb].
Qed.
End ordering.

(** ** What the pipeline stores and publishes *)

Section outputs.
Context `{TradeTable, !AHash, !StagedTradeExt, !Memchr}.
Import Pipeline Worker.

(** The payload of every snapshot of a kind. *)
Definition placeholder (k : Kind.t) : bytes :=
  match k with Kind.Quote => bs "q" | Kind.Book => bs "b" | Kind.Trade => bs "t" end.
Definition is_placeholder (kv : PublishKey.t * bytes) : Prop :=
  kv.2 = placeholder (PublishKey.kind kv.1).

Definition task_ok (k : task) : Prop :=
  match k with SubmitTask key v => is_placeholder (key, v) | AppendTask _ => False end.

(** The writer is as it was, and no spawned task is for the log. *)
Definition quiet (w : option TradeWriter.t) (s : state) : Prop :=
  AssetCache.map (asset_cache (pipe s)) = ∅ ∧ trade_writer (pipe s) = w ∧
  (∀ w0, w = Some w0 → TradeWriter.buffer w0 = []) ∧ Forall task_ok (tasks s) ∧
  Forall is_placeholder (Coalescer.calls (fanout (pipe s))) ∧
  map_Forall (λ key v, is_placeholder (key, v)) (Coalescer.pending (fanout (pipe s))).

Lemma no_staged_trade cache ticker x now :
  AssetCache.map cache = ∅ → build_staged_trade cache ticker x now = None.
Proof.
  intros Hc. unfold build_staged_trade, AssetCache.get. rewrite Hc.
  destruct (from_utf8 ticker) as [tk|]; [|done]. cbn. by rewrite lookup_empty.
Qed.

Lemma flush_empty w : TradeWriter.buffer w = [] → TradeWriter.flush w = (Ok 0%nat, w).
Proof. destruct w; cbn. by intros ->. Qed.

Lemma dispatch_quiet now msg p p' new :
  AssetCache.map (asset_cache p) = ∅ → dispatch now msg p = Some (p', new) →
  asset_cache p' = asset_cache p ∧ trade_writer p' = trade_writer p ∧ fanout p' = fanout p ∧
  Forall task_ok new.
Proof.
  intros Hc. destruct msg as [tk tm diff|tk op| |tk op| | | |item|item|]; cbn [dispatch];
    try (intros [= <- <-]; split_and!; repeat constructor; fail).
  - destruct (BookEngine.apply _ _ _) as [[b e]|]; [|done]. cbn.
    intros [= <- <-]. split_and!; repeat constructor.
  - destruct op as [x|id| | |rid]; try (intros [= <- <-]; split_and!; repeat constructor; fail).
    cbn zeta. rewrite no_staged_trade by done.
    destruct (trade_writer _) eqn:Hw; intros [= <- <-]; split_and!; try exact Hw; repeat constructor.
  - destruct item as [m s|]; [destruct (from_utf8 m), (from_utf8 s)|];
      intros [= <- <-]; split_and!; repeat constructor.
  - destruct (from_utf8 (GpnItem.cedro_id item)), (from_utf8 (GpnItem.code item)),
      (from_utf8 (GpnItem.name item)); intros [= <- <-]; split_and!; repeat constructor.
Qed.

Lemma submit_placeholder key v c :
  is_placeholder (key, v) → Forall is_placeholder (Coalescer.calls c) →
  map_Forall (λ key v, is_placeholder (key, v)) (Coalescer.pending c) →
  Forall is_placeholder (Coalescer.calls (Coalescer.submit key v c)) ∧
  map_Forall (λ key v, is_placeholder (key, v)) (Coalescer.pending (Coalescer.submit key v c)).
Proof.
  intros Hk Hc Hp. unfold Coalescer.submit. destruct (_ =? 0); cbn.
  - split; [|done]. apply Forall_app. split; [done|]. by apply Forall_cons.
  - split; [done|]. by apply map_Forall_insert_2.
Qed.

Lemma flush_placeholder c :
  Forall is_placeholder (Coalescer.calls c) →
  map_Forall (λ key v, is_placeholder (key, v)) (Coalescer.pending c) →
  Forall is_placeholder (Coalescer.calls (Coalescer.flush_once c)).
Proof.
  intros Hc Hp. unfold Coalescer.flush_once. cbn. apply Forall_app. split; [done|].
  apply Forall_forall. intros [key v] Hin%elem_of_map_to_list. by apply Hp.
Qed.

Lemma step_quiet w ev s s' : step ev s = Some s' → quiet w s → quiet w s'.
Proof.
  intros Hs (Hc & Hw & Hb & Ht & Hcalls & Hpend).
  destruct ev as [i|i now|i| | |]; cbn [step] in Hs.
  - destruct (frames s) as [|[k f] rest]; [done|].
    destruct (held s !! i) as [[|]|]; [done| |done]. by simplify_eq.
  - destruct (held s !! i) as [[msg|]|]; [|done|done].
    destruct (dispatch now msg (pipe s)) as [[p new]|] eqn:Hd; [|done]. cbn in Hs. simplify_eq.
    destruct (dispatch_quiet _ _ _ _ _ Hc Hd) as (Hc' & Hw' & Hf' & Hn).
    unfold quiet. cbn [pipe tasks]. rewrite Hc', Hw', Hf'.
    split_and!; try done. by apply Forall_app.
  - destruct (tasks s !! i) as [k|] eqn:Hk; [|done]. cbn in Hs. simplify_eq.
    pose proof (Forall_lookup_1 _ _ _ _ Ht Hk) as Hok. destruct k as [key v|blob]; [|done].
    destruct (submit_placeholder key v (fanout (pipe s)) Hok Hcalls Hpend) as [Hcalls' Hpend'].
    unfold quiet. cbn [pipe tasks run_task with_fanout asset_cache trade_writer fanout].
    split_and!; try done. unfold remove_at. apply Forall_app.
    split; [by apply Forall_take|by apply Forall_drop].
  - simplify_eq. unfold quiet, flush_trades.
    cbn [pipe tasks with_writer asset_cache trade_writer fanout].
    split_and!; try done. destruct (trade_writer (pipe s)) as [w0|]; [|done].
    cbn. by rewrite flush_empty by (by apply Hb).
  - simplify_eq. unfold quiet. cbn [pipe tasks with_fanout asset_cache trade_writer fanout].
    split_and!; try done. by apply flush_placeholder.
  - by simplify_eq.
Qed.

Lemma run_quiet w evs s s' : run evs s = Some s' → quiet w s → quiet w s'.
Proof.
  revert s. induction evs as [|ev evs IH]; intros s; cbn [run]; [by intros [= <-]|].
  destruct (step ev s) as [s1|] eqn:Hs; [|done]. cbn. intros Hr Hq.
  by eapply IH, step_quiet.
Qed.

Lemma start_quiet n fs shards cap wal_file batch_size db :
  quiet (Some (TradeWriter.connect wal_file batch_size db))
    (start n fs (build shards cap (Some (TradeWriter.connect wal_file batch_size db)))).
Proof. split_and!; try done. by intros w0 [= <-]. Qed.

(** (C35) The daemon stores no trade. However the pipeline is built and
    scheduled, whatever frames arrive, the trade writer is at all times
    exactly what connecting to the database gave: no row is inserted, nothing
    is buffered, nothing is appended to the log, and the flush at shutdown
    reports no trade. The asset cache is never filled, so no trade gets an
    asset id. *)
Theorem pipeline_persists_nothing (n shards cap : nat) (fs : list (FrameKind.t * bytes))
    (wal_file : bytes) (batch_size : nat) (db : Db) (evs : list event) (s : state) :
  let w := TradeWriter.connect wal_file batch_size db in
  run evs (start n fs (build shards cap (Some w))) = Some s →
  trade_writer (pipe s) = Some w ∧ trade_writer (flush_all (pipe s)) = Some w ∧
  (TradeWriter.flush w).1 = Ok 0%nat.
Proof.
  intros w Hr. destruct (run_quiet (Some w) evs _ s Hr) as (_ & Hw & Hb & _).
  { apply start_quiet. }
  assert (TradeWriter.flush w = (Ok 0%nat, w)) as Hf by (by apply flush_empty).
  split_and!; [done| |by rewrite Hf].
  unfold flush_all, flush_trades. rewrite Hw. cbn [fmap option_fmap option_map].
  by rewrite Hf.
Qed.

(** What is published is a placeholder. Every payload the sink receives
    or the coalescer holds is the one-byte marker of its kind, never the
    state of the ticker. *)
Theorem published_payloads_are_placeholders (n shards cap : nat)
    (fs : list (FrameKind.t * bytes)) (wal_file : bytes) (batch_size : nat) (db : Db)
    (evs : list event) (s : state) (key : PublishKey.t) (payload : bytes) :
  run evs (start n fs (build shards cap
    (Some (TradeWriter.connect wal_file batch_size db)))) = Some s →
  (key, payload) ∈ Coalescer.calls (fanout (pipe s)) ∨
    Coalescer.pending (fanout (pipe s)) !! key = Some payload →
  payload = placeholder (PublishKey.kind key).
Proof.
  intros Hr. destruct (run_quiet _ evs _ s Hr (start_quiet n fs shards cap wal_file batch_size db))
    as (_ & _ & _ & _ & Hcalls & Hpend).
  intros [Hin|Hl]; [by apply (proj1 (Forall_forall _ _) Hcalls _ Hin)|by apply (Hpend _ _ Hl)].
Qed.
End outputs.

(** ** Witnesses *)

Section witnesses.
#[local] Existing Instance chrono_reference.
#[local] Existing Instance table_reference.
#[local] Existing Instance ahash_reference.
#[local] Existing Instance memchr_reference.
#[local] Instance blob_reference : StagedTradeExt := λ _, bs "{}".
Import Pipeline Worker.

Definition no_rows : Db := empty_table [].
Definition writer0 : TradeWriter.t := TradeWriter.connect [] 10 no_rows.
Definition pipe0 : Pipeline.t := build 4 100 (Some writer0).
Definition now0 : DateTime := (0, 0).

Definition book_frame (quantity : string) : FrameKind.t * bytes :=
  (FrameKind.Bang, bs "B:PETR4:A:0:A:99.98:" ++ bs quantity ++ bs ":37:11041130").
Definition book_add (quantity : Z) : BookOp.t :=
  BookOp.Add (BookEntry.mk 0 Side.Buy (f64_lit "99.98") quantity 37 11041130 None None).

Lemma pool_dispatches_each_once_witness :
  ∃ s, run (in_turn now0) (start 1 [book_frame "500"; book_frame "700"] pipe0) = Some s ∧
    dispatched (in_turn now0) (start 1 [book_frame "500"; book_frame "700"] pipe0) =
      [ProtocolMessage.Book (bs "PETR4") (book_add 500);
       ProtocolMessage.Book (bs "PETR4") (book_add 700)].
Proof.
  destruct (run (in_turn now0) (start 1 [book_frame "500"; book_frame "700"] pipe0)) as [s|] eqn:Hr.
  - exists s. split; [reflexivity|].
    destruct (pool_dispatches_each_once 1 [book_frame "500"; book_frame "700"] pipe0
      (in_turn now0) s Hr) as (_ & _ & Ho).
    + apply (f_equal (fmap frames)) in Hr. vm_compute in Hr. injection Hr as Hr. symmetry. exact Hr.
    + apply (f_equal (fmap in_hand)) in Hr. vm_compute in Hr. injection Hr as Hr. symmetry. exact Hr.
    + rewrite Ho by reflexivity. vm_compute. reflexivity.
  - apply (f_equal (fmap frames)) in Hr. vm_compute in Hr. discriminate Hr.
Defined.

Lemma pool_can_drain_witness :
  ∃ evs s, run evs (start 3 [book_frame "500"; (FrameKind.Bang, bs "garbage")] pipe0) = Some s ∧
    frames s = [] ∧ in_hand s = [].
Proof.
  destruct (pool_can_drain (start 3 [book_frame "500"; (FrameKind.Bang, bs "garbage")] pipe0) now0)
    as (evs & s & Hr & Hf & Hh & _).
  - cbn. lia.
  - exists BookSpec.new. apply new_refines.
  - exists evs, s. split; [exact Hr|]. split; [exact Hf|exact Hh].
Defined.

(** Two last prices (field 2) of a ticker. *)
Definition quote_frame (price : string) : FrameKind.t * bytes :=
  (FrameKind.Bang, bs "T:PETR4:110100:2:" ++ bs price).

(** Quotes in a pipeline whose book engine refuses every ticker, as the daemon
    starts it, and books in one that admits them. *)
Definition pipe_refusing : Pipeline.t :=
  with_book (BookEngine.set_allowed (Some ∅) (Engine.book (engine pipe0))) pipe0.

Lemma two_workers_reorder_ticker_witness :
  (ends 2 [quote_frame "26.5"; quote_frame "26.6"] pipe_refusing (overtaking now0)
     (λ e, (Engine.quote e !! bs "PETR4") ≫= QuoteState.get 2 = Some (QuoteFieldValue.Float (f64_lit "26.5")))) ∧
  let bids e := BookEngine.with_book (bs "PETR4")
    (λ b, BookEntry.quantity <$> OrderBook.bids (default OrderBook.default b)) (Engine.book e) in
  ends 2 [book_frame "500"; book_frame "700"] pipe0 (in_turn now0) (λ e, bids e = Some [700; 500]) ∧
  ends 2 [book_frame "500"; book_frame "700"] pipe0 (overtaking now0) (λ e, bids e = Some [500; 700]).
Proof.
  split.
  - destruct (proj1 (two_workers_reorder_ticker 2 (quote_frame "26.5") (quote_frame "26.6") (bs "PETR4")
      pipe_refusing now0 ltac:(lia)) 110100 [(2, QuoteFieldValue.Float (f64_lit "26.5"))]
      110100 [(2, QuoteFieldValue.Float (f64_lit "26.6"))]) as [_ (s & Hr & Hf & Hh & Hq)].
    + vm_compute. reflexivity.
    + vm_compute. reflexivity.
    + exists s. split_and!; [exact Hr|exact Hf|exact Hh|]. rewrite Hq. vm_compute. reflexivity.
  - destruct (proj2 (two_workers_reorder_ticker 2 (book_frame "500") (book_frame "700") (bs "PETR4")
      pipe0 now0 ltac:(lia)) (book_add 500) (book_add 700) BookSpec.new)
      as [(s1 & Hr1 & Hf1 & Hh1 & Hb1) (s2 & Hr2 & Hf2 & Hh2 & Hb2)].
    + vm_compute. reflexivity.
    + vm_compute. reflexivity.
    + apply new_refines.
    + reflexivity.
    + split; [exists s1|exists s2]; (split_and!; [eassumption..|]).
      * rewrite (with_book_read _ _ _ _ Hb1). vm_compute. reflexivity.
      * rewrite (with_book_read _ _ _ _ Hb2). vm_compute. reflexivity.
Defined.

Definition trade_frame : FrameKind.t * bytes := (FrameKind.Bang, bs "V:PETR4:A:110100:26.5:3:8:200:N1:RQ:0:A:RLP").

Lemma pipeline_persists_nothing_witness :
  ∃ s, run [Take 0; Dispatch 0 now0; FlushTimer] (start 1 [trade_frame] pipe0) = Some s ∧
    trade_writer (pipe s) = Some writer0.
Proof.
  destruct (run [Take 0; Dispatch 0 now0; FlushTimer] (start 1 [trade_frame] pipe0))
    as [s|] eqn:Hr.
  - exists s. split; [reflexivity|].
    apply (pipeline_persists_nothing 1 4 100 [trade_frame] [] 10 no_rows _ s Hr).
  - apply (f_equal (fmap frames)) in Hr. vm_compute in Hr. discriminate Hr.
Defined.

Lemma published_payloads_are_placeholders_witness :
  ∃ s, run [Take 0; Dispatch 0 now0; RunTask 0] (start 1 [book_frame "500"] pipe0) = Some s ∧
    Coalescer.pending (fanout (pipe s)) !! PublishKey.mk Kind.Book (bs "PETR4") = Some (bs "b").
Proof.
  destruct (run [Take 0; Dispatch 0 now0; RunTask 0] (start 1 [book_frame "500"] pipe0))
    as [s|] eqn:Hr.
  - exists s. split; [reflexivity|].
    destruct (Coalescer.pending (fanout (pipe s)) !! PublishKey.mk Kind.Book (bs "PETR4"))
      as [payload|] eqn:Hp.
    + rewrite (published_payloads_are_placeholders 1 4 100 [book_frame "500"] [] 10 no_rows _ s
        (PublishKey.mk Kind.Book (bs "PETR4")) payload Hr (or_intror Hp)). reflexivity.
    + apply (f_equal (fmap (λ s, Coalescer.pending (fanout (pipe s))
        !! PublishKey.mk Kind.Book (bs "PETR4")))) in Hr. cbn [fmap option_fmap option_map] in Hr.
      rewrite Hp in Hr. vm_compute in Hr. discriminate Hr.
  - apply (f_equal (fmap frames)) in Hr. vm_compute in Hr. discriminate Hr.
Defined.
End witnesses.
