(* ===== verification/TradeBlob.v ===== *)
(** * The daemon's log records ([ingest-daemon/src/pipeline.rs], [StagedTradeExt])

    The blob the daemon appends to the trade log for a trade is JSON, made by
    [serde_json], while the writer's recovery expects the binary records of
    [StagedTrade.v]. The serialiser is a parameter; its law is the layout of a
    JSON object, whose keys are in the order of the map they come from. *)

From S2P Require Import Prelude RustInt RustStr RustFloat Externs Enums Types Frame Scanner Parser.
From S2P Require Import OrderBook BookEngine Quote TradeBuf Wal StagedTrade TradeWriter TradeRow Fanout.
From S2P Require Import Commands RawArchive AssetCache Pipeline.

(** ** [serde_json] *)

Module Json.
Inductive t : Type :=
  | Null
  | Int (n : Z)
  | Float (x : f64)
  | String (s : bytes).

(** [Value::from] of a float and of an optional string. *)
Definition from_f64 (x : f64) : t := if f64_is_finite x then Float x else Null.
Definition from_option (s : option bytes) : t := match s with Some s => String s | None => Null end.
End Json.

(** The order of byte strings. *)
Fixpoint bytes_leb (a b : bytes) : bool :=
  match a, b with
  | [], _ => true
  | _, [] => false
  | x :: a', y :: b' => (u8 x <? u8 y) || ((u8 x =? u8 y) && bytes_leb a' b')
  end.

(** A key that needs no escapes. *)
Definition plain_key (k : bytes) : bool :=
  forallb (λ c, ((97 <=? u8 c) && (u8 c <=? 122)) || (u8 c =? 95)) k.

(** The text of an object, and [to_rfc3339] of a time stamp. *)
Class SerdeJson `{Chrono} : Type := {
  object_to_vec : gmap bytes Json.t → option bytes;
  to_rfc3339 : DateTime → bytes;
}.
Class SerdeJsonSpec `{SerdeJson} : Prop :=
  object_to_vec_first (m : gmap bytes Json.t) k b :
    object_to_vec m = Some b → is_Some (m !! k) → plain_key k = true →
    (∀ k', is_Some (m !! k') → bytes_leb k k' = true) →
    ∃ rest, b = [x7b; x22] ++ k ++ [x22; x3a] ++ rest.

Section blob.
Context `{SerdeJson}.

Definition trade_object (x : StagedTrade.t) : gmap bytes Json.t :=
  <[bs "time" := Json.String (to_rfc3339 (StagedTrade.time x))]>
  (<[bs "asset_id" := Json.Int (StagedTrade.asset_id x)]>
  (<[bs "price" := Json.from_f64 (StagedTrade.price x)]>
  (<[bs "amount" := Json.Int (StagedTrade.amount x)]>
  (<[bs "trade_id" := Json.from_option (StagedTrade.trade_id x)]> ∅)))).

(** The implementation of the trait. *)
Definition staged_trade_ext : StagedTradeExt := λ x, default [] (object_to_vec (trade_object x)).
End blob.

Section records.
Context `{SerdeJsonSpec, !ChronoSpec}.

Lemma amount_first x k :
  is_Some (trade_object x !! k) → bytes_leb (bs "amount") k = true.
Proof.
  intros [v Hv]. unfold trade_object in Hv.
  repeat (apply lookup_insert_Some in Hv as [[<- _]|[_ Hv]]; [by vm_compute|]).
  by rewrite lookup_empty in Hv.
Qed.

(** A record that decodes has a time stamp that exists. *)
Lemma decode_wal_time b x :
  StagedTrade.decode_wal b = Some x →
  ∃ micros r, StagedTrade.read_signed 8 b = Some (micros, r) ∧
    from_timestamp_micros micros ≠ None.
Proof.
  unfold StagedTrade.decode_wal, StagedTrade.decode_rest. destruct (_ <? _)%nat; [done|].
  unfold StagedTrade.decode_fields. unfold mbind, StagedTrade.reader_bind.
  destruct (StagedTrade.read_signed 8 b) as [[micros r]|]; [|done]. intros Hd. exists micros, r.
  split; [done|]. intros Hn. unfold StagedTrade.lift in Hd at 2. rewrite Hn in Hd.
  repeat (case_match; simplify_eq/=; try done).
Qed.

(** What the daemon appends to the log: nothing, or a blob. *)
Definition undecodable (b : bytes) : Prop := StagedTrade.decode_wal b = None.

Lemma empty_undecodable : undecodable [].
Proof. done. Qed.

Lemma omap_undecodable l : Forall undecodable l → omap StagedTrade.decode_wal l = [].
Proof. induction 1 as [|b l Hb _ IH]; [done|]. cbn. by rewrite Hb. Qed.

(** The first eight bytes of a blob, read as a time stamp. *)
Definition blob_micros : Z := from_le_bytes_signed ([x7b; x22] ++ bs "amount").

Lemma blob_undecodable x : undecodable (staged_trade_ext x).
Proof.
  unfold undecodable, staged_trade_ext.
  destruct (object_to_vec (trade_object x)) as [b|] eqn:Hb; [|done]. cbn [default from_option id].
  destruct (object_to_vec_first _ (bs "amount") b Hb) as [rest ->].
  - unfold trade_object. by rewrite !lookup_insert_ne, lookup_insert_eq by done.
  - done.
  - apply amount_first.
  - destruct (StagedTrade.decode_wal _) as [y|] eqn:Hd; [|done].
    apply decode_wal_time in Hd as (micros & r & Hr & Hn).
    unfold StagedTrade.read_signed in Hr. rewrite (assoc_L (++)) in Hr.
    erewrite StagedTrade.reader_bind_Some in Hr by by apply StagedTrade.read_app.
    injection Hr as <- _. destruct Hn. by apply from_timestamp_micros_max.
Qed.
End records.

(** ** Recovery after the daemon *)

Section recovery.
Context `{TradeTable, !ChronoSpec, !SerdeJson, !SerdeJsonSpec, !AHash, !Memchr}.
#[local] Existing Instance staged_trade_ext.
Import Pipeline Worker.

(** Nothing in the log decodes and nothing is buffered. *)
Definition unrecoverable (w : TradeWriter.t) : Prop :=
  TradeWriter.buffer w = [] ∧
  ∃ log possible, wal_inv (TradeWriter.wal w) log possible ∧ Forall (Forall undecodable) possible.
Definition task_undecodable (k : task) : Prop :=
  match k with AppendTask blob => undecodable blob | SubmitTask _ _ => True end.
Definition logs_blobs (p : Pipeline.t) : Prop :=
  ∀ w, trade_writer p = Some w → unrecoverable w.

Lemma append_blob_unrecoverable blob w :
  undecodable blob → unrecoverable w → unrecoverable (append_blob blob w).
Proof.
  intros Hb (Hbuf & log & possible & Hk & Hlogs). unfold append_blob.
  pose proof (apply_inv (WalOp.Append blob) _ _ _ Hk) as Ha. cbn [WalOp.apply WalOp.spec] in Ha.
  destruct (TradeWal.append blob (TradeWriter.wal w)) as [[off w1]|e] eqn:E; [|by split; eauto].
  split; [done|]. cbn [TradeWriter.wal]. eexists _, _. split; [exact Ha|].
  case_bool_decide; [|done]. cbn. apply Forall_app. split; [done|]. apply Forall_singleton, Forall_app.
  split; [|by apply Forall_singleton]. rewrite Forall_forall in Hlogs. by apply Hlogs, (inv_log _ _ _ Hk).
Qed.

Lemma dispatch_blobs now msg p p' new :
  dispatch now msg p = Some (p', new) → logs_blobs p → logs_blobs p' ∧ Forall task_undecodable new.
Proof.
  intros Hd Hp.
  destruct msg as [tk tm diff|tk op| |tk op| | | |item|item|]; cbn [dispatch] in Hd;
    try (injection Hd as <- <-; split; [exact Hp|repeat constructor]; fail).
  - destruct (BookEngine.apply _ _ _) as [[b e]|]; [|done].
    injection Hd as <- <-. split; [exact Hp|repeat constructor].
  - destruct op as [x|id| | |rid]; try (injection Hd as <- <-; split; [exact Hp|repeat constructor]; fail).
    cbn zeta in Hd. change (trade_writer (with_trades _ p)) with (trade_writer p) in Hd.
    destruct (trade_writer p) as [w|] eqn:Hw; [|injection Hd as <- <-; split; [exact Hp|repeat constructor]].
    destruct (build_staged_trade _ _ _ _) as [staged|]; injection Hd as <- <-.
    + split.
      * intros w' [= <-]. apply append_blob_unrecoverable; [apply empty_undecodable|by apply Hp].
      * constructor; [apply blob_undecodable|repeat constructor].
    + split; [|repeat constructor]. intros w' Hw'. by apply Hp.
  - destruct item as [m s|]; [destruct (from_utf8 m), (from_utf8 s)|];
      injection Hd as <- <-; (split; [exact Hp|repeat constructor]).
  - destruct (from_utf8 (GpnItem.cedro_id item)), (from_utf8 (GpnItem.code item)),
      (from_utf8 (GpnItem.name item)); injection Hd as <- <-; (split; [exact Hp|repeat constructor]).
Qed.

Lemma step_blobs ev s s' :
  step ev s = Some s' → logs_blobs (pipe s) → Forall task_undecodable (tasks s) →
  logs_blobs (pipe s') ∧ Forall task_undecodable (tasks s').
Proof.
  intros Hs Hp Ht. destruct ev as [i|i now|i| | |]; cbn [step] in Hs.
  - destruct (frames s) as [|[k f] rest]; [done|].
    destruct (held s !! i) as [[|]|]; [done| |done]. by injection Hs as <-.
  - destruct (held s !! i) as [[msg|]|]; [|done|done].
    apply bind_Some in Hs as ([p new] & Hd & [= <-]).
    destruct (dispatch_blobs _ _ _ _ _ Hd Hp) as [Hp' Hn]. split; [done|]. by apply Forall_app.
  - apply bind_Some in Hs as (k & Hk & [= <-]). pose proof (Forall_lookup_1 _ _ _ _ Ht Hk) as Hok.
    split; [|cbn; unfold remove_at; apply Forall_app; split; [by apply Forall_take|by apply Forall_drop]].
    destruct k as [key v|blob]; [exact Hp|]. cbn [pipe run_task]. intros w' Hw'.
    cbn [with_writer trade_writer] in Hw'. apply fmap_Some in Hw' as (w & Hw & ->).
    apply append_blob_unrecoverable; [done|by apply Hp].
  - injection Hs as <-. split; [|done]. intros w' Hw'. cbn [pipe flush_trades with_writer trade_writer] in Hw'.
    apply fmap_Some in Hw' as (w & Hw & ->). destruct (Hp w Hw) as [Hb Hl]. by rewrite flush_empty.
  - by injection Hs as <-.
  - by injection Hs as <-.
Qed.

Lemma run_blobs evs s s' :
  run evs s = Some s' → logs_blobs (pipe s) → Forall task_undecodable (tasks s) → logs_blobs (pipe s').
Proof.
  revert s. induction evs as [|ev evs IH]; intros s; cbn [run]; [by intros [= <-]|].
  intros (s1 & Hs & Hr)%bind_Some Hp Ht. destruct (step_blobs _ _ _ Hs Hp Ht) as [Hp1 Ht1].
  by apply (IH s1).
Qed.

(** (C40) What the daemon logs cannot be recovered. Whatever the asset cache
    holds, whatever frames arrive and however the pool is scheduled, every record
    the daemon has appended to the trade log is empty or JSON: a crash that loses
    any part of the log, or none, and a recovery by the trade writer give no trade
    back. *)
Theorem daemon_log_recovers_nothing (n : nat) (fs : list (FrameKind.t * bytes)) (p : Pipeline.t)
    (size : nat) (d : Db) (evs : list event) (s : state) (w : TradeWriter.t) (wal1 : TradeWal.t) :
  trade_writer p = Some (TradeWriter.connect [] size d) → run evs (start n fs p) = Some s →
  trade_writer (pipe s) = Some w → TradeWal.crash (TradeWriter.wal w) wal1 →
  (TradeWriter.recover_from_wal w).1 = 0%nat ∧
  (TradeWriter.recover_from_wal (TradeWriter.mk wal1 [] size d)).1 = 0%nat.
Proof.
  intros Hp Hr Hw Hc.
  assert (logs_blobs (pipe s)) as Hs.
  { eapply run_blobs; [exact Hr| |constructor]. intros w0. cbn [start pipe]. rewrite Hp. intros [= <-].
    split; [done|]. exists [], [[]]. split; [apply wal_open_inv|by apply Forall_singleton]. }
  destruct (Hs w Hw) as (_ & log & possible & Hk & Hlogs). rewrite Forall_forall in Hlogs.
  assert (∀ wal0, (TradeWal.replay wal0).1 ∈ possible →
    ∀ b, (TradeWriter.recover_from_wal (TradeWriter.mk wal0 b size d)).1 = 0%nat) as Hzero.
  { intros wal0 Hin b. unfold TradeWriter.recover_from_wal. cbn [TradeWriter.wal].
    destruct (TradeWal.replay wal0) as [rs w0]. cbn [fst] in *.
    by rewrite (omap_undecodable _ (Hlogs _ Hin)). }
  split.
  - unfold TradeWriter.recover_from_wal. pose proof (replay_inv _ _ _ Hk) as Hj.
    destruct (TradeWal.replay (TradeWriter.wal w)) as [rs w0]. cbn in Hj. subst rs. cbn [fst].
    by rewrite (omap_undecodable _ (Hlogs _ (inv_log _ _ _ Hk))).
  - apply (Hzero wal1), (crash_inv _ _ _ _ Hk Hc).
Qed.
End recovery.

(** ** A concrete serialiser, for the witness

    It writes the first key and no values. *)

Lemma bytes_leb_antisym a b : bytes_leb a b = true → bytes_leb b a = true → a = b.
Proof.
  revert b. induction a as [|x a IH]; intros [|y b]; cbn; try done.
  rewrite !orb_true_iff, !andb_true_iff, !Z.ltb_lt, !Z.eqb_eq.
  intros [Hl|[Hx Ha]] [Hr|[Hy Hb]]; try lia. f_equal; [by apply u8_inj|by apply IH].
Qed.

Section witnesses.
#[local] Existing Instance chrono_reference.
#[local] Existing Instance chrono_reference_spec.
#[local] Existing Instance table_reference.
#[local] Existing Instance ahash_reference.
#[local] Existing Instance memchr_reference.

Definition is_first (m : gmap bytes Json.t) (k : bytes) : bool :=
  forallb (λ kv, bytes_leb k kv.1) (map_to_list m).
Definition json_reference : SerdeJson := {|
  object_to_vec m :=
    match List.find (is_first m) (map_to_list m).*1 with
    | Some k => Some ([x7b; x22] ++ k ++ [x22; x3a] ++ bs "0}")
    | None => Some (bs "{}")
    end;
  to_rfc3339 _ := bs "1970-01-01T00:00:00+00:00";
|}.
#[local] Existing Instance json_reference.

Lemma is_first_spec m k :
  is_first m k = true ↔ ∀ k', is_Some (m !! k') → bytes_leb k k' = true.
Proof.
  unfold is_first. rewrite forallb_forall. split.
  - intros Hf k' [v Hv]. refine (Hf (k', v) _). by apply list_elem_of_In, elem_of_map_to_list.
  - intros Hf [k' v] Hin%list_elem_of_In%elem_of_map_to_list. apply Hf. by exists v.
Qed.

Lemma json_reference_spec : SerdeJsonSpec.
Proof.
  intros m k b Hb [v Hv] _ Hfirst. cbn in Hb.
  assert (k ∈ (map_to_list m).*1) as Hk.
  { apply list_elem_of_fmap. exists (k, v). split; [done|]. by apply elem_of_map_to_list. }
  destruct (List.find (is_first m) (map_to_list m).*1) as [k'|] eqn:Hf.
  - apply find_some in Hf as [Hin%list_elem_of_In Hk']. injection Hb as <-.
    rewrite is_first_spec in Hk'. apply list_elem_of_fmap in Hin as ([k'' v'] & -> & Hin).
    apply elem_of_map_to_list in Hin. cbn [fst] in *.
    assert (k'' = k) as ->; [|by exists (bs "0}")].
    apply bytes_leb_antisym; [apply Hk'; by exists v|apply Hfirst; by exists v'].
  - pose proof (find_none _ _ Hf k (proj1 (list_elem_of_In _ _) Hk)) as Hn.
    by rewrite (proj2 (is_first_spec m k) Hfirst) in Hn.
Qed.
#[local] Existing Instance json_reference_spec.
#[local] Existing Instance staged_trade_ext.
Import Pipeline Worker.

(** A pipeline that knows the ticker, one trade and its task. *)
Definition knows_ticker : Pipeline.t :=
  let p := build 1 100 (Some (TradeWriter.connect [] 10 (empty_table []))) in
  mk (engine p) (fanout p) (archive p) (trade_writer p) (AssetCache.insert (bs "PETR4") 42 AssetCache.new)
    (catalog p) (subscriptions p).
Definition one_trade : list event := [Take 0; Dispatch 0 (1700000000000000, 0); RunTask 0].
Definition logged (s : state) : option nat :=
  w ← trade_writer (pipe s); Some (length (TradeWal.replay (TradeWriter.wal w)).1).

Lemma daemon_log_recovers_nothing_witness :
  ∃ s w, run one_trade (start 1 [(FrameKind.Bang, bs "V:PETR4:A:110100:26.5:3:8:200:N1:RQ:0:A:RLP")]
      knows_ticker) = Some s ∧
    trade_writer (pipe s) = Some w ∧ length (TradeWal.replay (TradeWriter.wal w)).1 = 2%nat ∧
    (TradeWriter.recover_from_wal w).1 = 0%nat.
Proof.
  assert (logged <$> run one_trade (start 1 [(FrameKind.Bang,
    bs "V:PETR4:A:110100:26.5:3:8:200:N1:RQ:0:A:RLP")] knows_ticker) = Some (Some 2%nat)) as Hl
    by (vm_compute; reflexivity).
  destruct (run one_trade _) as [s|] eqn:Hr; [|discriminate Hl].
  destruct (trade_writer (pipe s)) as [w|] eqn:Hw;
    unfold logged in Hl; cbn [fmap option_fmap option_map] in Hl; rewrite Hw in Hl; [|discriminate Hl].
  injection Hl as Hlen.
  exists s, w. split; [reflexivity|]. split; [exact Hw|]. split; [exact Hlen|].
  destruct (daemon_log_recovers_nothing 1 _ knows_ticker 10 (empty_table []) one_trade s w
    (TradeWal.open (TradeWal.file (TradeWriter.wal w))) eq_refl Hr Hw) as [Hz _].
  - constructor. apply image_all.
  - exact Hz.
Defined.
End witnesses.
