(* ===== verification/Typing.v ===== *)
(** * Typing of the messages and of the engines

    The integers of the source have a width, those of the model are [Z]. The
    typing of a message says that every integer of it fits the type the source
    declares and that every quote value has the variant of its index; the typing
    of the engines says the same of everything they keep. [typed_parse] is the
    type judgement of the parsers, with one rule per combinator. *)

From S2P Require Import Prelude RustInt RustStr RustFloat Externs Enums Types Frame Scanner.
From S2P Require Import ParserBook ParserQuote ParserTrade ParserMisc Parser.
From S2P Require Import OrderBook BookEngine Quote TradeBuf Wal StagedTrade TradeWriter Fanout.
From S2P Require Import Commands RawArchive AssetCache Pipeline.

(** ** Types *)

Definition u16 (n : Z) : Prop := 0 ≤ n ≤ u16_max.
Definition u32 (n : Z) : Prop := 0 ≤ n ≤ u32_max.
Definition u64 (n : Z) : Prop := 0 ≤ n ≤ u64_max.
Definition i64 (n : Z) : Prop := i64_min ≤ n ≤ i64_max.

(** Data of a message that has integers. *)
Class Typed (A : Type) : Type := well_typed : A → Prop.

Definition typed_option {A} (P : A → Prop) (o : option A) : Prop :=
  match o with Some a => P a | None => True end.

(** A value of the variant its quote index calls for. *)
Definition value_typed (idx : Z) (v : QuoteFieldValue.t) : Prop :=
  match Sqt.field_type idx, v with
  | Sqt.FieldType.Float, QuoteFieldValue.Float _ => True
  | Sqt.FieldType.Int, QuoteFieldValue.Int n => i64 n
  | (Sqt.FieldType.Time | Sqt.FieldType.TimeMs), QuoteFieldValue.Time n => u32 n
  | Sqt.FieldType.Date, QuoteFieldValue.Date n => u32 n
  | Sqt.FieldType.DateTime, QuoteFieldValue.DateTime n => u64 n
  | Sqt.FieldType.Char, QuoteFieldValue.Char _ => True
  | Sqt.FieldType.Phase, QuoteFieldValue.Phase _ => True
  | Sqt.FieldType.Str, QuoteFieldValue.Str _ => True
  | _, _ => False
  end.

#[global] Instance diff_typed : Typed QuoteDiff :=
  Forall (λ p, u16 p.1 ∧ value_typed p.1 p.2).
#[global] Instance entry_typed : Typed BookEntry.t := λ e,
  u32 (BookEntry.position e) ∧ u64 (BookEntry.quantity e) ∧ u32 (BookEntry.broker_id e) ∧
  u32 (BookEntry.timestamp_ddmmhhmm e).
#[global] Instance book_delete_typed : Typed BookDelete.t := λ d,
  match d with
  | BookDelete.Single _ p | BookDelete.PrefixInclusive _ p => u32 p
  | BookDelete.ClearAll => True
  end.
#[global] Instance book_op_typed : Typed BookOp.t := λ op,
  match op with
  | BookOp.Add e => well_typed e
  | BookOp.Update old e => u32 old ∧ well_typed e
  | BookOp.Delete d => well_typed d
  | BookOp.EndOfInitial => True
  end.
#[global] Instance level_typed : Typed AggBookLevel.t := λ l,
  u32 (AggBookLevel.position l) ∧ u64 (AggBookLevel.quantity l) ∧
  u32 (AggBookLevel.offer_count l) ∧ u32 (AggBookLevel.timestamp_ddmmhhmm l).
#[global] Instance agg_op_typed : Typed AggBookOp.t := λ op,
  match op with
  | AggBookOp.Add l | AggBookOp.Update l => well_typed l
  | AggBookOp.Delete d => well_typed d
  | AggBookOp.EndOfInitial => True
  end.
#[global] Instance condition_typed : Typed TradeCondition.t := λ c, u16 (TradeCondition.to_code c).
#[global] Instance trade_typed : Typed Trade.t := λ x,
  u32 (Trade.time_hhmmss x) ∧ u32 (Trade.broker_buy_id x) ∧ u32 (Trade.broker_sell_id x) ∧
  u64 (Trade.quantity x) ∧ well_typed (Trade.condition x).
#[global] Instance trade_op_typed : Typed TradeOperation.t := λ op,
  match op with TradeOperation.Add x => well_typed x | _ => True end.
#[global] Instance headline_typed : Typed NewsHeadline.t := λ h,
  u32 (NewsHeadline.date h) ∧ u32 (NewsHeadline.time h) ∧ u32 (NewsHeadline.category h).
#[global] Instance news_typed : Typed NewsMessage.t := λ m,
  match m with
  | NewsMessage.Headline h | NewsMessage.HistoryItem _ h => well_typed h
  | _ => True
  end.
#[global] Instance vap_typed : Typed VapEntry.t := λ e, typed_option u32 (VapEntry.period_minutes e).
#[global] Instance server_time_typed : Typed ServerTime.t := λ s,
  u32 (ServerTime.date s) ∧ u32 (ServerTime.time s).
#[global] Instance error_typed : Typed CedroError.t := λ e, u16 (CedroError.code e).
#[global] Instance message_typed : Typed ProtocolMessage.t := λ m,
  match m with
  | ProtocolMessage.Quote _ time diff => u32 time ∧ well_typed (diff : QuoteDiff)
  | ProtocolMessage.Book _ op => well_typed op
  | ProtocolMessage.AggBook _ op => well_typed op
  | ProtocolMessage.Trade _ op => well_typed op
  | ProtocolMessage.News n => well_typed n
  | ProtocolMessage.Vap e => well_typed e
  | ProtocolMessage.ServerTime s => well_typed s
  | ProtocolMessage.MqcItem _ | ProtocolMessage.GpnItem _ => True
  | ProtocolMessage.Error e => well_typed e
  end.

(** ** The parsers are well typed *)

Definition returns {A} (m : result ParseError.t A) (P : A → Prop) : Prop := ∀ a, m = Ok a → P a.
Definition yields `{Memchr} {A} (m : Scanner.scan A) (P : A → Prop) : Prop :=
  ∀ s a s', m s = Ok (a, s') → P a.

Create HintDb typing discriminated.

Section judgement.
Context `{Memchr}.
Import Scanner.

Lemma returns_bind {A B} (m : result ParseError.t A) (k : A → result ParseError.t B) P Q :
  returns m P → (∀ a, P a → returns (k a) Q) → returns (m ≫= k) Q.
Proof. intros Hm Hk b (a & Ha & Hb)%result_bind_Ok. by eapply Hk; [apply Hm|]. Qed.
Lemma returns_Ok {A} (a : A) (P : A → Prop) : P a → returns (Ok a) P.
Proof. intros Ha b [= <-]. done. Qed.
Lemma returns_Err {A} e (P : A → Prop) : returns (Err e) P.
Proof. done. Qed.
Lemma returns_any {A} (m : result ParseError.t A) : returns m (λ _, True).
Proof. done. Qed.

Lemma yields_bind {A B} (m : scan A) (k : A → scan B) P Q :
  yields m P → (∀ a, P a → yields (k a) Q) → yields (m ≫= k) Q.
Proof.
  intros Hm Hk s b s'. unfold mbind, scan_bind. destruct (m s) as [[a s1]|] eqn:Ha; [|done].
  apply Hk. by eapply Hm.
Qed.
Lemma yields_ret {A} (a : A) (P : A → Prop) : P a → yields (mret a) P.
Proof. intros Ha s b s' [= <- _]. done. Qed.
Lemma yields_fail {A} e (P : A → Prop) : yields (fail e : scan A) P.
Proof. done. Qed.
Lemma yields_lift {A} (r : result ParseError.t A) P : returns r P → yields (lift r) P.
Proof. intros Hr s a s'. unfold lift. destruct r; [|done]. intros [= <- _]. by apply Hr. Qed.
Lemma yields_any {A} (m : scan A) : yields m (λ _, True).
Proof. done. Qed.
Lemma yields_if {A} (b : bool) (m1 m2 : scan A) P :
  yields m1 P → yields m2 P → yields (if b then m1 else m2) P.
Proof. by destruct b. Qed.
Lemma run_returns {A} (m : scan A) frame P : yields m P → returns (run m frame) P.
Proof.
  intros Hm a. unfold run. destruct (m _) as [[a' s']|] eqn:E; [|done]. intros [= <-]. by eapply Hm.
Qed.

Lemma parse_u64_typed b f : returns (parse_u64 b f) u64.
Proof. intros n Hn%parse_u64_Ok. by apply is_dec_nonneg in Hn. Qed.
Lemma parse_u32_typed b f : returns (parse_u32 b f) u32.
Proof. intros n Hn%parse_u32_Ok. by apply is_dec_nonneg in Hn. Qed.
Lemma parse_u16_typed b f : returns (parse_u16 b f) u16.
Proof. intros n Hn%parse_u16_Ok. by apply is_dec_nonneg in Hn. Qed.
Lemma parse_i64_typed b f : returns (parse_i64 b f) i64.
Proof.
  intros n [Hd|(tok & _ & Hd)]%parse_i64_Ok; apply is_dec_nonneg in Hd; unfold i64, i64_min, i64_max in *; lia.
Qed.
Lemma required_u64_typed f : yields (required_u64 f) u64.
Proof. eapply yields_bind; [apply yields_any|]. intros b _. apply yields_lift, parse_u64_typed. Qed.
Lemma required_u32_typed f : yields (required_u32 f) u32.
Proof. eapply yields_bind; [apply yields_any|]. intros b _. apply yields_lift, parse_u32_typed. Qed.
Lemma narrowed_typed n e : returns (ok_or (checked 0 u32_max n) e) u32.
Proof. by intros m [-> ?]%ok_or_Ok%checked_Some. Qed.
End judgement.

#[export] Hint Resolve parse_u64_typed parse_u32_typed parse_u16_typed parse_i64_typed
  required_u64_typed required_u32_typed narrowed_typed yields_lift : typing.

(** One rule of the judgement: the known types first, then any type. *)
Ltac type_leaf := first [ solve [eauto 3 with typing nocore] | apply yields_any | apply returns_any ].
Ltac type_step :=
  match goal with
  | |- yields (_ ≫= _) _ => eapply yields_bind; [type_leaf|intros ? ?]
  | |- returns (_ ≫= _) _ => eapply returns_bind; [type_leaf|intros ? ?]
  | |- yields (if _ then _ else _) _ => apply yields_if
  | |- yields (mret _) _ => apply yields_ret
  | |- yields (Scanner.fail _) _ => apply yields_fail
  | |- yields (Scanner.lift _) _ => apply yields_lift
  | |- returns (run _ _) _ => apply run_returns
  | |- returns (Ok _) _ => apply returns_Ok
  | |- returns (Err _) _ => apply returns_Err
  | |- yields (match ?x with _ => _ end) _ => destruct x
  | |- yields (let '(_, _) := ?x in _) _ => destruct x
  | |- returns (match ?x with _ => _ end) _ => destruct x
  end.
Ltac type_parser := repeat type_step; try done.

Section parsers.
Context `{Memchr}.

Lemma decode_value_typed idx raw : returns (Sqt.decode_value idx raw) (value_typed idx).
Proof.
  unfold Sqt.decode_value, value_typed. destruct (Sqt.field_type idx); type_parser.
Qed.
#[local] Hint Resolve decode_value_typed : typing.

Lemma read_diff_typed fuel : ∀ diff : QuoteDiff,
  well_typed diff → yields (Sqt.read_diff fuel diff) (well_typed : QuoteDiff → Prop).
Proof.
  induction fuel as [|fuel IH]; intros diff Hd; cbn [Sqt.read_diff]; type_parser.
  apply IH, Forall_app. split; [done|]. by constructor.
Qed.
Lemma read_diff_start_typed fuel : yields (Sqt.read_diff fuel []) (well_typed : QuoteDiff → Prop).
Proof. apply read_diff_typed. constructor. Qed.
#[local] Hint Resolve read_diff_start_typed : typing.

Lemma sqt_typed frame : returns (Sqt.parse frame) well_typed.
Proof. unfold Sqt.parse. type_parser. Qed.

Lemma read_entry_tail_typed position :
  u32 position → yields (Bqt.read_entry_tail position) (well_typed : BookEntry.t → Prop).
Proof. intros Hp. unfold Bqt.read_entry_tail. type_parser. Qed.
#[local] Hint Resolve read_entry_tail_typed : typing.

Lemma bqt_op_typed code : yields (Bqt.parse_op code) (well_typed : BookOp.t → Prop).
Proof. unfold Bqt.parse_op, Bqt.parse_add, Bqt.parse_update, Bqt.parse_delete. type_parser. Qed.
#[local] Hint Resolve bqt_op_typed : typing.

Lemma bqt_typed frame : returns (Bqt.parse frame) well_typed.
Proof. unfold Bqt.parse. type_parser. Qed.

Lemma read_level_typed : yields Sab.read_level (well_typed : AggBookLevel.t → Prop).
Proof. unfold Sab.read_level. type_parser. Qed.
#[local] Hint Resolve read_level_typed : typing.

Lemma sab_delete_typed : yields Sab.parse_delete (well_typed : BookDelete.t → Prop).
Proof. unfold Sab.parse_delete. type_parser. Qed.
#[local] Hint Resolve sab_delete_typed : typing.

Lemma sab_op_typed code : yields (Sab.parse_op code) (well_typed : AggBookOp.t → Prop).
Proof. unfold Sab.parse_op. type_parser. Qed.
#[local] Hint Resolve sab_op_typed : typing.

Lemma sab_typed frame : returns (Sab.parse frame) well_typed.
Proof. unfold Sab.parse. type_parser. Qed.

Lemma condition_of_code_typed n : u16 n → well_typed (TradeCondition.from_code n).
Proof. intros Hn. unfold well_typed, condition_typed. by rewrite TradeCondition.trade_condition_to_from_code. Qed.

Lemma read_trade_typed op req fields :
  returns (Gqt.read_trade op req fields) (well_typed : Trade.t → Prop).
Proof.
  unfold Gqt.read_trade. type_parser. split_and!; try done. by apply condition_of_code_typed.
Qed.
#[local] Hint Resolve read_trade_typed : typing.

Lemma gqt_op_typed fuel code : yields (Gqt.parse_op fuel code) (well_typed : TradeOperation.t → Prop).
Proof. unfold Gqt.parse_op, Gqt.parse_add. type_parser. Qed.
#[local] Hint Resolve gqt_op_typed : typing.

Lemma gqt_typed frame : returns (Gqt.parse frame) well_typed.
Proof. unfold Gqt.parse. type_parser. Qed.

Lemma read_headline_typed pre : yields (Nem.read_headline pre) (well_typed : NewsHeadline.t → Prop).
Proof. unfold Nem.read_headline. type_parser. Qed.
#[local] Hint Resolve read_headline_typed : typing.

Lemma nem_kind_typed kind : yields (Nem.parse_kind kind) (well_typed : NewsMessage.t → Prop).
Proof. unfold Nem.parse_kind. type_parser. Qed.
#[local] Hint Resolve nem_kind_typed : typing.

Lemma nem_typed frame : returns (Nem.parse frame) well_typed.
Proof. unfold Nem.parse. type_parser. Qed.

Lemma read_terminator_typed ticker : yields (Vap.read_terminator ticker) (well_typed : VapEntry.t → Prop).
Proof.
  unfold Vap.read_terminator. type_step.
  apply (yields_bind _ _ (typed_option u32)); [type_parser|intros n Hn; by apply yields_ret].
Qed.

Lemma read_data_typed ticker third :
  yields (Vap.read_data ticker third) (well_typed : VapEntry.t → Prop).
Proof.
  unfold Vap.read_data. do 10 type_step.
  apply (yields_bind _ _ (typed_option u32)); [type_parser|intros n Hn; type_parser].
Qed.
#[local] Hint Resolve read_terminator_typed read_data_typed : typing.

Lemma vap_frame_typed frame : returns (Vap.parse frame) well_typed.
Proof.
  unfold Vap.parse. apply run_returns. do 3 type_step.
  apply (yields_bind _ _ (well_typed : VapEntry.t → Prop)); [|intros e He; by apply yields_ret].
  apply yields_if; eauto with typing.
Qed.

Lemma read_payload_typed b : returns (Gtc.read_payload b) (well_typed : ServerTime.t → Prop).
Proof. unfold Gtc.read_payload. type_parser. Qed.
#[local] Hint Resolve read_payload_typed : typing.

Lemma gtc_typed frame : returns (Gtc.parse frame) well_typed.
Proof. unfold Gtc.parse. type_parser. Qed.

Lemma error_frame_typed frame : returns (Error.parse frame) well_typed.
Proof. unfold Error.parse. type_parser. Qed.

Lemma mqc_typed frame : returns (Mqc.parse frame) well_typed.
Proof. unfold Mqc.parse. type_parser. Qed.

Lemma gpn_typed frame : returns (Gpn.parse frame) well_typed.
Proof. unfold Gpn.parse. type_parser. Qed.

Lemma parse_typed kind frame : returns (parse_frame kind frame) well_typed.
Proof.
  unfold parse_frame, route. case_bool_decide; [done|].
  repeat (destruct (starts_with _ _); [|]); [apply sqt_typed|apply bqt_typed|apply sab_typed|
    apply gqt_typed|apply nem_typed|apply vap_frame_typed|apply gtc_typed|apply mqc_typed|
    apply gpn_typed|apply error_frame_typed|done].
Qed.

(** The parser is well typed. In every message it returns each integer
    fits the width of its field in the source, and each quote value has the
    variant the table of field types gives to its index; so no cast or
    arithmetic downstream starts from a value outside its type. *)
Theorem parse_frame_well_typed (kind : FrameKind.t) (frame : bytes) (m : ProtocolMessage.t) :
  parse_frame kind frame = Ok m → message_typed m.
Proof. apply parse_typed. Qed.
End parsers.

(** ** The engines keep typed data *)

Definition quote_typed (q : QuoteState.t) : Prop :=
  u32 (QuoteState.time_hhmmss q) ∧ u64 (QuoteState.version q) ∧
  map_Forall (λ i v, u16 i ∧ value_typed i v) (QuoteState.fields q).

(** Every entry is typed and stored on its own side. *)
Definition book_typed (b : OrderBook.t) : Prop :=
  ∀ side, Forall (λ e, well_typed e ∧ BookEntry.side e = side) (OrderBook.vec side b).

Definition record_typed (r : TradeRecord.t) : Prop :=
  u32 (TradeRecord.time_hhmmss r) ∧ u64 (TradeRecord.quantity r) ∧
  u32 (TradeRecord.broker_buy_id r) ∧ u32 (TradeRecord.broker_sell_id r) ∧
  well_typed (TradeRecord.condition r).

(** No window is longer than the capacity. *)
Definition trades_typed (b : TradeBuffer.t) : Prop :=
  (0 < TradeBuffer.per_ticker_capacity b)%nat ∧
  map_Forall (λ _ w, (length w ≤ TradeBuffer.per_ticker_capacity b)%nat ∧ Forall record_typed w)
    (TradeBuffer.inner b).

Definition books_typed (e : BookEngine.t) : Prop :=
  Forall (map_Forall (λ _, book_typed)) (BookEngine.shards e).

#[global] Instance engine_typed : Typed Engine.t := λ e,
  map_Forall (λ _, quote_typed) (Engine.quote e) ∧ books_typed (Engine.book e) ∧
  trades_typed (Engine.trades e).

Lemma quote_apply_typed (ticker : bytes) (time : Z) (diff : QuoteDiff) (q : QuoteEngine.t) :
  u32 time → well_typed diff → map_Forall (λ _, quote_typed) q →
  map_Forall (λ _, quote_typed) (QuoteEngine.apply ticker time diff q).2.
Proof.
  intros Ht Hd Hq. apply map_Forall_insert_2; [|done].
  assert (map_Forall (λ i v, u16 i ∧ value_typed i v)
    (QuoteState.fields (default QuoteState.default (q !! ticker)))) as Hf.
  { destruct (q !! ticker) as [s|] eqn:E; [by apply (Hq _ _ E)|apply map_Forall_empty]. }
  split_and!; cbn [QuoteState.time_hhmmss QuoteState.version QuoteState.fields]; [done| |].
  - unfold u64, u64_max, wrap. pose proof (Z.mod_pos_bound (QuoteState.version
      (default QuoteState.default (q !! ticker)) + 1) (2 ^ 64)). lia.
  - revert Hf. generalize (QuoteState.fields (default QuoteState.default (q !! ticker))).
    induction Hd as [|p diff Hp Hd IH]; intros m Hm; cbn [foldl]; [done|].
    apply IH, map_Forall_insert_2; done.
Qed.

Lemma Forall_insert_at {A} (P : A → Prop) i x l : P x → Forall P l → Forall P (insert_at i x l).
Proof.
  intros Hx Hl. unfold insert_at. apply Forall_app. split; [by apply Forall_take|].
  constructor; [done|by apply Forall_drop].
Qed.
Lemma Forall_remove_at {A} (P : A → Prop) i l : Forall P l → Forall P (remove_at i l).
Proof.
  intros Hl. unfold remove_at. apply Forall_app. split; [by apply Forall_take|by apply Forall_drop].
Qed.

Lemma book_apply_typed op b : well_typed op → book_typed b → book_typed (OrderBook.apply op b).2.
Proof.
  intros Ho Hb side. rewrite vec_apply. unfold Spec.apply, Spec.upd, Spec.place, Spec.empty.
  destruct op as [e|old e|[s p|s p|]|]; cbn in Ho |- *; try case_decide; subst;
    auto using Forall_drop, Forall_remove_at.
  - by apply Forall_insert_at.
  - apply Forall_insert_at; [|by apply Forall_remove_at]. by destruct Ho.
Qed.

Lemma books_apply_typed `{AHash} ticker op e flag e' :
  well_typed op → BookEngine.apply ticker op e = Some (flag, e') → books_typed e → books_typed e'.
Proof.
  unfold BookEngine.apply. intros Ho Ha He. destruct (negb _); [by simplify_eq|].
  destruct (shard_for _ _) as [i|]; [|done]. cbn in Ha.
  destruct (BookEngine.shards e !! i) as [guard|] eqn:Hg; [|done]. cbn in Ha.
  destruct (OrderBook.apply op (default OrderBook.default (guard !! ticker))) as [o b] eqn:Hb.
  simplify_eq. unfold books_typed in *. cbn [BookEngine.shards].
  assert (map_Forall (λ _, book_typed) guard) as Hguard by (by eapply Forall_lookup_1).
  apply Forall_insert; [done|]. apply map_Forall_insert_2; [|done].
  replace b with (OrderBook.apply op (default OrderBook.default (guard !! ticker))).2 by (by rewrite Hb).
  apply book_apply_typed; [done|].
  destruct (guard !! ticker) as [b0|] eqn:E; [by apply (Hguard _ _ E)|by intros []].
Qed.

Definition trade_op_ok (op : TradeOp.t) : Prop :=
  match op with TradeOp.Push _ r => record_typed r | _ => True end.

Lemma trades_apply_typed op b : trade_op_ok op → trades_typed b → trades_typed (TradeOp.apply op b).
Proof.
  intros Ho [Hcap Hb]. destruct op as [ticker r|ticker id|ticker]; cbn [TradeOp.apply].
  - split; [done|]. apply map_Forall_insert_2; [|done]. cbn [TradeBuffer.per_ticker_capacity].
    assert ((length (default [] (TradeBuffer.inner b !! ticker)) ≤ TradeBuffer.per_ticker_capacity b)%nat ∧
      Forall record_typed (default [] (TradeBuffer.inner b !! ticker))) as [Hl Hf].
    { destruct (TradeBuffer.inner b !! ticker) as [w|] eqn:E; [by apply (Hb _ _ E)|].
      cbn. split; [lia|constructor]. }
    set (w := default [] (TradeBuffer.inner b !! ticker)) in *.
    destruct (Nat.eqb_spec (length w) (TradeBuffer.per_ticker_capacity b)) as [E|E].
    + split; [rewrite length_app, length_drop; cbn; lia|].
      apply Forall_app. split; [by apply Forall_drop|by constructor].
    + split; [rewrite length_app; cbn;  lia|]. apply Forall_app. split; [done|by constructor].
  - unfold TradeBuffer.remove. destruct (TradeBuffer.inner b !! ticker) as [w|] eqn:E; [|done].
    destruct (TradeBuffer.position id w) as [i|] eqn:Hi; [|done]. destruct (Hb _ _ E) as [Hl Hf].
    split; [done|]. apply map_Forall_insert_2; [|done]. cbn [TradeBuffer.per_ticker_capacity].
    split; [|by apply Forall_remove_at]. unfold remove_at.
    rewrite length_app, length_take, length_drop. cbn [snd TradeBuffer.per_ticker_capacity]. lia.
  - unfold TradeBuffer.clear. destruct (TradeBuffer.inner b !! ticker) as [w|]; [|done].
    split; [done|]. apply map_Forall_insert_2; [|done]. cbn. split; [lia|constructor].
Qed.

Section daemon.
Context `{TradeTable, !AHash, !StagedTradeExt, !Memchr}.
Import Pipeline Worker.

Lemma engines_after_typed msg e e' :
  well_typed msg → engines_after [msg] e e' → well_typed e → well_typed e'.
Proof.
  intros Hm (Hq & Ht & flags & Hb) (Hq0 & Hb0 & Ht0). split_and!.
  - rewrite Hq. destruct msg; try done. destruct Hm. by apply quote_apply_typed.
  - destruct msg as [|ticker op| | | | | | | |]; cbn in Hb; try (injection Hb as _ <-; done).
    destruct (BookEngine.apply ticker op (Engine.book e)) as [[flag b]|] eqn:Ha; [|done].
    injection Hb as _ <-. by eapply books_apply_typed.
  - rewrite Ht. destruct msg as [| | |ticker op| | | | | |]; try done.
    destruct op as [x|id| | |rid]; try done.
    + apply trades_apply_typed; [|done]. by destruct Hm as (? & ? & ? & ? & ?).
    + by apply trades_apply_typed.
    + by apply trades_apply_typed.
Qed.

Lemma build_typed shards cap writer : well_typed (engine (build shards cap writer)).
Proof.
  split_and!; cbn.
  - apply map_Forall_empty.
  - apply Forall_replicate, map_Forall_empty.
  - split; [cbn; lia|apply map_Forall_empty].
Qed.

(** The invariant of a step. *)
Definition state_typed (s : state) : Prop :=
  well_typed (engine (pipe s)) ∧ Forall (typed_option well_typed) (held s).

Lemma step_typed ev s s' : step ev s = Some s' → state_typed s → state_typed s'.
Proof.
  intros Hstep [He Hh]. pose proof (step_engines _ _ _ Hstep) as Hafter.
  destruct ev as [i|i now|i| | |]; cbn [step dispatched_by] in Hstep, Hafter.
  - destruct (frames s) as [|[k f] rest]; [done|].
    destruct (held s !! i) as [[|]|]; [done| |done]. injection Hstep as <-. split; [done|].
    cbn [held]. destruct (parse_frame k f) as [msg|e] eqn:Hp; [|done].
    apply Forall_insert; [done|]. by eapply parse_typed.
  - destruct (held s !! i) as [[msg|]|] eqn:Hi; [|done|done].
    destruct (dispatch now msg (pipe s)) as [[p new]|]; [|done]. injection Hstep as <-.
    split; [|by apply Forall_insert]. eapply engines_after_typed; [|exact Hafter|done].
    by apply (Forall_lookup_1 _ _ _ _ Hh Hi).
  - destruct (tasks s !! i) as [[]|]; [..|done]; by injection Hstep as <-.
  - by injection Hstep as <-.
  - by injection Hstep as <-.
  - by injection Hstep as <-.
Qed.

(** (C16) Typing is preserved by every step of the daemon. Whatever the frames
    are and however the workers, tasks and timers are scheduled, the engines
    that started well typed stay so, and every message a worker holds is well
    typed: each integer keeps its width, each quote field the variant of its
    index, each book entry is on its own side, and no trade window is longer
    than its capacity. The engines [build] makes are well typed. *)
Theorem daemon_stays_well_typed (evs : list event) (s s' : state) (shards cap : nat)
    (writer : option TradeWriter.t) :
  run evs s = Some s' →
  well_typed (engine (pipe s)) ∧ Forall (typed_option well_typed) (held s) →
  well_typed (engine (pipe s')) ∧ Forall (typed_option well_typed) (held s') ∧
  well_typed (engine (build shards cap writer)).
Proof.
  intros Hrun Hs. cut ((well_typed (engine (pipe s')) ∧ Forall (typed_option well_typed) (held s')) ∧
    well_typed (engine (build shards cap writer))); [by intros [[? ?] ?]|]. split.
  - revert s Hrun Hs. induction evs as [|ev evs IH]; intros s; cbn [run]; [by intros [= <-]|].
    destruct (step ev s) as [s1|] eqn:Hstep; [|done]. cbn [mbind option_bind]. intros Hr Hs.
    apply (IH s1 Hr). by eapply step_typed.
  - apply build_typed.
Qed.
End daemon.

(** ** Witnesses *)

Lemma parse_frame_well_typed_witness :
  message_typed (ProtocolMessage.Book (bs "PETR4")
    (BookOp.Add (BookEntry.mk 0 Side.Buy (f64_lit "99.98") 500 37 11041130 None None))).
Proof.
  apply (@parse_frame_well_typed memchr_reference FrameKind.Bang
    (bs "B:PETR4:A:0:A:99.98:500:37:11041130")).
  vm_compute. reflexivity.
Defined.

Section witnesses.
#[local] Existing Instance chrono_reference.
#[local] Existing Instance table_reference.
#[local] Existing Instance ahash_reference.
#[local] Existing Instance memchr_reference.
#[local] Instance blob_reference : StagedTradeExt := λ _, bs "{}".
Import Pipeline Worker.

Definition one_order : state :=
  start 1 [(FrameKind.Bang, bs "B:PETR4:A:0:A:99.98:500:37:11041130")] (build 4 10 None).

Lemma daemon_stays_well_typed_witness :
  match run [Take 0; Dispatch 0 ((0, 0) : DateTime)] one_order with
  | Some s' => well_typed (engine (pipe s'))
  | None => False
  end.
Proof.
  destruct (run _ one_order) as [s'|] eqn:Hrun.
  - apply (daemon_stays_well_typed _ one_order s' 4 10 None Hrun).
    split; [apply (build_typed 4 10 None)|]. constructor; [exact I|constructor].
  - apply (f_equal (fmap frames)) in Hrun. vm_compute in Hrun. discriminate Hrun.
Defined.
End witnesses.
