(* ===== verification/Shutdown.v ===== *)
(** * Shutting the daemon down ([ingest-daemon/src/main.rs] after the wait, and
    the flush timer of [pipeline.rs])

    [main] wakes the flush timer, awaits its task, flushes the pipeline and shuts
    the reader down. The timer, [main] and the reader's threads are parties of an
    interleaving; [tokio::sync::Notify] has the documented behaviour of
    [notify_waiters]: it reaches who is waiting at that moment, and no permit is
    kept for who is not. *)

From S2P Require Import Prelude RustInt RustIo ClientError Externs Enums Types Frame Scanner Parser.
From S2P Require Import OrderBook BookEngine Quote TradeBuf Wal StagedTrade TradeWriter Fanout.
From S2P Require Import Commands Handshake Connection Reader ReaderThreads RawArchive AssetCache Pipeline.

Module Shutdown.
Section shutdown.
Context `{TradeTable, !AHash, !StagedTradeExt, !Memchr, !Crossbeam (FrameKind.t * bytes)}.

(** The task of [spawn_flush_timer]: in [select!], woken or not; in a flush; over. *)
Inductive timer_at : Type :=
  | Selecting (woken : bool)
  | Flushing
  | Over.

(** [main]: before the signal, awaiting the timer, at the final flush, in the
    reader's [shutdown], returned. *)
Inductive main_at : Type :=
  | Serving
  | AwaitingTimer
  | FinalFlush
  | ClosingReader
  | Stopped.

Record state : Type := mk {
  main : main_at;
  timer : timer_at;
  pipeline : Pipeline.t;
  reader : ReaderThreads.state;
}.

Inductive event : Type :=
  | Signal
  | Tick
  | FlushDone
  | Woken
  | MainStep
  | ReaderEvent (ev : ReaderThreads.event).

Definition with_timer (t : timer_at) (s : state) : state := mk (main s) t (pipeline s) (reader s).
Definition with_main (m : main_at) (s : state) : state := mk m (timer s) (pipeline s) (reader s).

(** [notify_waiters]. *)
Definition notify_waiters (t : timer_at) : timer_at :=
  match t with Selecting _ => Selecting true | _ => t end.

(** What [main] does next when it can go on. *)
Definition main_step (s : state) : option state :=
  match main s with
  | Serving | Stopped => None
  | AwaitingTimer => match timer s with Over => Some (with_main FinalFlush s) | _ => None end
  | FinalFlush =>
      r ← ReaderThreads.step ReaderThreads.Shutdown (reader s);
      Some (mk ClosingReader (timer s) (Pipeline.flush_all (pipeline s)) r)
  | ClosingReader =>
      if bool_decide (ReaderThreads.owner (reader s) = ReaderThreads.Gone)
      then Some (with_main Stopped s) else None
  end.

(** The handle belongs to [main]: nobody else shuts the reader down. *)
Definition step (ev : event) (s : state) : option state :=
  match ev with
  | Signal =>
      match main s with
      | Serving => Some (mk AwaitingTimer (notify_waiters (timer s)) (pipeline s) (reader s))
      | _ => None
      end
  | Tick =>
      match timer s with
      | Selecting _ =>
          match Pipeline.trade_writer (pipeline s) with
          | Some _ => Some (with_timer Flushing s)
          | None => Some (with_timer (Selecting false) s)
          end
      | _ => None
      end
  | FlushDone =>
      match timer s with
      | Flushing =>
          Some (mk (main s) (Selecting false) (Pipeline.flush_trades (pipeline s)) (reader s))
      | _ => None
      end
  | Woken => match timer s with Selecting true => Some (with_timer Over s) | _ => None end
  | MainStep => main_step s
  | ReaderEvent ev =>
      match ev with
      | ReaderThreads.Shutdown | ReaderThreads.DropHandle => None
      | _ => r ← ReaderThreads.step ev (reader s); Some (mk (main s) (timer s) (pipeline s) r)
      end
  end.

Fixpoint run (evs : list event) (s : state) : option state :=
  match evs with
  | [] => Some s
  | ev :: evs' => s ← step ev s; run evs' s
  end.
End shutdown.
End Shutdown.

Section correctness.
Context `{TradeTable, !AHash, !StagedTradeExt, !Memchr, !Crossbeam (FrameKind.t * bytes)}.
Context `{!MemchrSpec, !CrossbeamSpec (FrameKind.t * bytes)}.
Import Shutdown.
Implicit Type s : state.

(** The wake-up is lost: [main] waits for a timer that nobody will wake again. *)
Definition missed (s : state) : Prop :=
  main s = AwaitingTimer ∧ (timer s = Flushing ∨ timer s = Selecting false).

Lemma missed_step ev s s' : step ev s = Some s' → missed s → missed s'.
Proof.
  intros Hs [Hm Ht]. destruct ev; cbn [step] in Hs.
  - by rewrite Hm in Hs.
  - destruct (timer s); [|done..]. destruct (Pipeline.trade_writer _); injection Hs as <-; split; cbn; auto.
  - destruct (timer s); [done| |done]. injection Hs as <-. split; cbn; auto.
  - destruct (timer s) as [[]| |]; try done. naive_solver.
  - unfold main_step in Hs. rewrite Hm in Hs. destruct (timer s); naive_solver.
  - destruct ev; try done; (destruct (ReaderThreads.step _ (reader s)); [|done]); cbn in Hs;
      simplify_eq; by split.
Qed.

(** (C36) A signal during a flush is never noticed. When the shutdown signal
    arrives while the flush timer is inside a flush, its wake-up is lost: under
    every further schedule [main] keeps awaiting the timer's task, so neither
    the final flush of the pipeline nor the reader's shutdown is ever reached. *)
Theorem signal_during_flush_hangs (evs : list event) (s s' : state) :
  main s = Serving → timer s = Flushing → run (Signal :: evs) s = Some s' →
  main s' = AwaitingTimer ∧ timer s' ≠ Over.
Proof.
  intros Hm Ht. cbn [run step]. rewrite Hm. cbn [mbind option_bind].
  set (s1 := mk _ _ _ _). assert (missed s1) as Hmissed by (split; cbn; [done|rewrite Ht; by left]).
  clearbody s1. intros Hrun. assert (missed s') as [? [?|?]]; [|by split; congruence..].
  clear Hm. revert s1 Hmissed Hrun. induction evs as [|ev evs IH]; intros s1 Hmissed; cbn [run].
  - by intros [= <-].
  - destruct (step ev s1) as [s2|] eqn:Hs; [|done]. cbn. apply IH. by eapply missed_step.
Qed.

Lemma shutdown_run_app evs1 evs2 s s1 : run evs1 s = Some s1 → run (evs1 ++ evs2) s = run evs2 s1.
Proof.
  revert s. induction evs1 as [|ev evs1 IH]; intros s; cbn; [by intros [= ->]|].
  destruct (step ev s) as [s2|]; [|done]. cbn. apply IH.
Qed.

(** Once the owner has let go of the handle it does not hold it again. *)
Lemma owner_step ev (r r' : ReaderThreads.state) :
  ReaderThreads.step ev r = Some r' → ReaderThreads.owner r ≠ ReaderThreads.Held →
  ReaderThreads.owner r' ≠ ReaderThreads.Held ∧ ev ≠ ReaderThreads.Shutdown ∧ ev ≠ ReaderThreads.DropHandle.
Proof.
  intros Hs Ho. destruct ev; cbn [ReaderThreads.step] in Hs.
  - apply reader_run_frame in Hs as (-> & _). done.
  - unfold ReaderThreads.reader_read in Hs. destruct (ReaderThreads.reader r); try done.
    destruct r0 as [[]| |]; by simplify_eq.
  - unfold ReaderThreads.watchdog_run in Hs. destruct (ReaderThreads.watchdog r); [|done].
    destruct (ReaderThreads.stop_flag r); [by simplify_eq|]. destruct pending; [|by simplify_eq].
    destruct (_ <=? _); by simplify_eq.
  - destruct (ReaderThreads.workers r); [done|].
    destruct (chan_try_recv (ReaderThreads.frames r)) as [[]]; by simplify_eq.
  - destruct (ReaderThreads.workers r); by simplify_eq.
  - by destruct (ReaderThreads.owner r).
  - destruct (ReaderThreads.owner r), (ReaderThreads.reader r), (ReaderThreads.watchdog r);
      by simplify_eq.
  - by destruct (ReaderThreads.owner r).
Qed.

Lemma run_reader_events evs : ∀ s r',
  ReaderThreads.owner (reader s) ≠ ReaderThreads.Held → ReaderThreads.run evs (reader s) = Some r' →
  run (ReaderEvent <$> evs) s = Some (mk (main s) (timer s) (pipeline s) r').
Proof.
  induction evs as [|ev evs IH]; intros s r' Ho; cbn [ReaderThreads.run fmap list_fmap run].
  - intros [= <-]. by destruct s.
  - destruct (ReaderThreads.step ev (reader s)) as [r1|] eqn:Hs; [|done]. cbn [mbind option_bind].
    intros Hr. destruct (owner_step _ _ _ Hs Ho) as (Ho1 & Hne1 & Hne2).
    assert (step (ReaderEvent ev) s = Some (mk (main s) (timer s) (pipeline s) r1)) as ->.
    { destruct ev; try done; cbn [step]; by rewrite Hs. }
    cbn [mbind option_bind]. by apply (IH (mk _ _ _ r1)).
Qed.

(** (C18) A clean shutdown exists. When the signal arrives while the flush timer
    waits, and a worker is alive, some schedule brings [main] to its end: the
    pipeline has had its final flush and both reader threads are joined, and the
    socket is read at most once more, with any outcome of that read. *)
Theorem shutdown_finishes (config : ConnectionConfig.t) (s : state) (woken : bool) (r : Reader.read) :
  0 < ConnectionConfig.frame_channel_capacity config → reachable config (reader s) →
  main s = Serving → timer s = Selecting woken →
  ReaderThreads.owner (reader s) = ReaderThreads.Held → ReaderThreads.workers (reader s) ≠ 0%nat →
  ∃ evs s', run (Signal :: Woken :: MainStep :: MainStep :: (ReaderEvent <$> evs) ++ [MainStep]) s = Some s' ∧
    main s' = Stopped ∧ pipeline s' = Pipeline.flush_all (pipeline s) ∧
    ReaderThreads.reader (reader s') = ReaderThreads.Returned ∧
    ReaderThreads.watchdog (reader s') = None ∧ (count is_read evs ≤ 1)%nat.
Proof.
  intros Hcap Hreach Hm Ht Ho Hw.
  destruct (shutdown_run config (reader s) r Hcap Hreach Ho Hw) as (evs & r' & Hrun & Hgone & Hret & Hdog & Hreads).
  cbn [ReaderThreads.run] in Hrun.
  destruct (ReaderThreads.step ReaderThreads.Shutdown (reader s)) as [r1|] eqn:Hs; [|done].
  cbn [mbind option_bind] in Hrun.
  assert (ReaderThreads.owner r1 ≠ ReaderThreads.Held) as Ho1.
  { cbn [ReaderThreads.step] in Hs. rewrite Ho in Hs. by injection Hs as <-. }
  set (s2 := mk ClosingReader Over (Pipeline.flush_all (pipeline s)) r1).
  exists evs. eexists. split.
  - change (Signal :: Woken :: MainStep :: MainStep :: ?l) with ([Signal; Woken; MainStep; MainStep] ++ l).
    rewrite (shutdown_run_app _ _ _ s2).
    2: { cbn [ReaderThreads.step] in Hs. rewrite Ho in Hs. injection Hs as <-.
         cbn [run step]. rewrite Hm, Ht. cbn. by rewrite Ho. }
    rewrite (shutdown_run_app _ _ _ (mk ClosingReader Over (Pipeline.flush_all (pipeline s)) r'))
      by (by apply (run_reader_events evs s2)).
    cbn [run step]. unfold main_step. cbn [main reader]. rewrite Hgone. reflexivity.
  - split_and!; try done. unfold count. rewrite Hreads.
    destruct (reads_next _); cbn; lia.
Qed.
End correctness.

(** ** Witnesses *)

Section witnesses.
#[local] Existing Instance chrono_reference.
#[local] Existing Instance table_reference.
#[local] Existing Instance ahash_reference.
#[local] Existing Instance memchr_reference.
#[local] Instance frames_reference : Crossbeam (FrameKind.t * bytes) := crossbeam_reference _.
#[local] Existing Instance memchr_reference_spec.
#[local] Instance frames_reference_spec : CrossbeamSpec (FrameKind.t * bytes) := crossbeam_reference_spec _.
#[local] Instance blob_reference : StagedTradeExt := λ _, bs "{}".
Import Shutdown.

Definition serving (t : timer_at) : state :=
  mk Serving t (Pipeline.build 4 10 (Some (TradeWriter.connect [] 1 no_rows))) quiet_reader.

Lemma signal_during_flush_hangs_witness :
  ∃ s', run [Tick; FlushDone; MainStep] (serving Flushing) = None ∧
    run [Signal; FlushDone; Tick; FlushDone] (serving Flushing) = Some s' ∧ main s' = AwaitingTimer.
Proof.
  destruct (run [Signal; FlushDone; Tick; FlushDone] (serving Flushing)) as [s'|] eqn:Hrun.
  - exists s'. split; [reflexivity|]. split; [reflexivity|].
    exact (proj1 (signal_during_flush_hangs [FlushDone; Tick; FlushDone] (serving Flushing) s'
      eq_refl eq_refl Hrun)).
  - apply (f_equal (fmap main)) in Hrun. vm_compute in Hrun. discriminate Hrun.
Defined.

Lemma shutdown_finishes_witness :
  ∃ evs s', run (Signal :: Woken :: MainStep :: MainStep :: (ReaderEvent <$> evs) ++ [MainStep])
      (serving (Selecting false)) = Some s' ∧ main s' = Stopped.
Proof.
  destruct (shutdown_finishes narrow_config (serving (Selecting false)) false (Reader.Data []))
    as (evs & s' & Hrun & Hm & _); [reflexivity|exact quiet_reachable|reflexivity|reflexivity|reflexivity|discriminate|].
  exists evs, s'. split; [exact Hrun|exact Hm].
Defined.
End witnesses.
