(* ===== verification/Bootstrap.v ===== *)
(** * Start-up of the ingest daemon ([ingest-daemon/src/bootstrap.rs], [main.rs])

    [Bootstrap.run] sends the discovery commands, reads the catalog, restricts
    the book engine to it and subscribes every ticker; it stops at the first
    command that cannot be written. The order in which a hash set lists the
    tickers is an argument. *)

From S2P Require Import Prelude RustInt RustStr RustIo ClientError Externs Enums Types Frame Scanner Parser.
From S2P Require Import OrderBook BookEngine Quote TradeBuf Wal StagedTrade TradeWriter Fanout.
From S2P Require Import Commands RawArchive AssetCache Pipeline.

Module Universe.
Record t : Type := mk {
  total : nat;
  book_set : gset bytes;
}.
End Universe.

Module Bootstrap.

Definition MQC_QUERIES : list (bytes * Z * option Z) :=
  [(bs "Bovespa", 1, None); (bs "Bovespa", 2, None); (bs "Bovespa", 3, None);
   (bs "Bovespa", 10, None); (bs "Bovespa", 13, None); (bs "Bovespa", 20, None);
   (bs "BMF", 7, Some 130); (bs "BMF", 7, Some 60); (bs "BMF", 7, Some 50);
   (bs "BMF", 7, Some 40); (bs "BMF", 7, Some 30); (bs "BMF", 7, Some 20);
   (bs "BMF", 2, Some 150)].

(** The commands of steps 1 and 2. *)
Definition discovery : list Command.t :=
  Command.ListBrokers (bs "BOVESPA") ::
  ((λ q, Command.ListMarket q.1.1 q.1.2 q.2) <$> MQC_QUERIES).

(** The subscriptions of one ticker, as commands and as registry entries. *)
Definition ticker_commands (book : gset bytes) (ticker : bytes) : list Command.t :=
  [Command.SubscribeQuote ticker false] ++
  (if bool_decide (ticker ∈ book) then [Command.SubscribeBookDetailed ticker] else []) ++
  [Command.SubscribeTrades ticker (Some 50)].

Definition ticker_register (book : gset bytes) (ticker : bytes) (r : SubscriptionRegistry.t)
    : SubscriptionRegistry.t :=
  let r := (SubscriptionRegistry.add SubscriptionKind.Quote ticker r).2 in
  let r := if bool_decide (ticker ∈ book) then
             (SubscriptionRegistry.add SubscriptionKind.BookDetailed ticker r).2 else r in
  (SubscriptionRegistry.add SubscriptionKind.Trades ticker r).2.

Section run.
Context `{TradeTable}.
Import Pipeline.

(** The command stream and the pipeline. *)
Abbreviation boot := (st (Writer.t * Pipeline.t) ClientError.t).

Definition register (book : gset bytes) (ticker : bytes) (p : Pipeline.t) : Pipeline.t :=
  with_subscriptions (ticker_register book ticker (subscriptions p)) p.

(** One turn of the subscription loop. *)
Definition subscribe_one (book : gset bytes) (ticker : bytes) : boot () :=
  on_fst (CommandSink.send_all (ticker_commands book ticker)) ;;
  modify (λ s, (s.1, register book ticker s.2)).

(** The pipeline is the one of the moment the catalog is read, [universe_set]
    what [symbols()] returns of it. *)
Definition run (universe_set : list bytes) : boot Universe.t :=
  on_fst (CommandSink.send_all discovery) ;;
  book ← gets (λ s, Catalog.book_universe (catalog s.2));
  modify (λ s, (s.1, with_book (BookEngine.set_allowed (Some book) (Engine.book (engine s.2))) s.2)) ;;
  for_each (subscribe_one book) universe_set ;;
  mret (Universe.mk (length universe_set) book).
End run.

(** [main] runs it on the pipeline [build] gives: the workers that would fill
    the catalog are spawned afterwards. *)
Definition startup `{TradeTable} (shards cap : nat) (writer : option TradeWriter.t)
    (out : Writer.t) : result ClientError.t Universe.t * (Writer.t * Pipeline.t) :=
  let p := Pipeline.build shards cap writer in
  run (elements (Catalog.symbols (Pipeline.catalog p))) (out, p).
End Bootstrap.

Section correctness.
Context `{TradeTable, !AHash, !StagedTradeExt, !Memchr}.
Import Pipeline Bootstrap.

Lemma ticker_register_elem book ticker r k t :
  (k, t) ∈ ticker_register book ticker r ↔
    (k, t) ∈ r ∨ (t = ticker ∧
      (k = SubscriptionKind.Quote ∨ k = SubscriptionKind.Trades ∨
       (k = SubscriptionKind.BookDetailed ∧ ticker ∈ book))).
Proof.
  unfold ticker_register, SubscriptionRegistry.add. cbn [snd].
  case_bool_decide; rewrite !elem_of_union, !elem_of_singleton; naive_solver.
Qed.

(** The pipeline after [ts] have been registered. *)
Definition registers (book : gset bytes) (ts : list bytes) (p : Pipeline.t) : Pipeline.t :=
  with_subscriptions (foldl (λ r t, ticker_register book t r) (subscriptions p) ts) p.

Lemma registers_cons book t ts p :
  registers book ts (register book t p) = registers book (t :: ts) p.
Proof. done. Qed.
Lemma registers_nil book p : registers book [] p = p.
Proof. by destruct p. Qed.

Lemma on_fst_eq {S T E A} (m : st S E A) (s : S) (u : T) r s' :
  m s = (r, s') → on_fst m (s, u) = (r, (s', u)).
Proof. unfold on_fst. cbn. by intros ->. Qed.

(** The subscription loop: all of it, or up to a ticker whose commands could
    not all be written. *)
Lemma subscribe_all book ts w p :
  ∃ done_ rest part,
    ts = done_ ++ rest ∧
    let '(r, (w', p')) := for_each (subscribe_one book) ts (w, p) in
    p' = registers book done_ p ∧
    Writer.written w' = Writer.written w ++ lines (done_ ≫= ticker_commands book) ++ part ∧
    match r with
    | Ok _ => rest = [] ∧ part = []
    | Err _ => ∃ t rest', rest = t :: rest' ∧ part `prefix_of` lines (ticker_commands book t)
    end.
Proof.
  revert w p. induction ts as [|t ts IH]; intros w p.
  - exists [], [], []. split; [done|]. cbn. rewrite registers_nil, app_nil_r. done.
  - cbn [for_each]. unfold mbind, st_bind, subscribe_one at 1, mbind, st_bind.
    destruct (CommandSink.send_all (ticker_commands book t) w) as [[u|e] w1] eqn:Hs.
    + rewrite (on_fst_eq _ _ _ _ _ Hs). apply send_all_Ok in Hs. cbn [modify fst snd].
      destruct (IH w1 (register book t p)) as (d & rest & part & -> & Hi).
      exists (t :: d), rest, part. split; [done|].
      destruct (for_each _ _ _) as [r [w' p']]. destruct Hi as (-> & Hw & Hr).
      split_and!; [done| |done].
      by rewrite Hw, Hs, bind_cons, lines_app, <-!(assoc_L (++)).
    + rewrite (on_fst_eq _ _ _ _ _ Hs).
      destruct (send_all_Err _ _ _ _ Hs) as (sent & f & rest & part & Hc & Hp & Hw).
      exists [], (t :: ts), (lines sent ++ part). split; [done|].
      rewrite registers_nil. split_and!; [done|done|]. exists t, ts. split; [done|].
      rewrite Hc. change (f :: rest) with ([f] ++ rest). rewrite !lines_app.
      by apply prefix_app, prefix_app_r.
Qed.

Lemma registered book ts r k t :
  (k, t) ∈ foldl (λ r t, ticker_register book t r) r ts ↔
    (k, t) ∈ r ∨ (t ∈ ts ∧
      (k = SubscriptionKind.Quote ∨ k = SubscriptionKind.Trades ∨
       (k = SubscriptionKind.BookDetailed ∧ t ∈ book))).
Proof.
  revert r. induction ts as [|t0 ts IH]; intros r; cbn [foldl].
  - split; [by left|]. intros [|[[]%elem_of_nil _]]; done.
  - rewrite IH, ticker_register_elem, elem_of_cons. naive_solver.
Qed.

(** The three parts of a run. *)
Lemma run_eq ts w p :
  run ts (w, p) =
  let book := Catalog.book_universe (catalog p) in
  match CommandSink.send_all discovery w with
  | (Err e, w1) => (Err e, (w1, p))
  | (Ok _, w1) =>
      let p1 := with_book (BookEngine.set_allowed (Some book) (Engine.book (engine p))) p in
      match for_each (subscribe_one book) ts (w1, p1) with
      | (Err e, s) => (Err e, s)
      | (Ok _, s) => (Ok (Universe.mk (length ts) book), s)
      end
  end.
Proof.
  unfold run, mbind, st_bind, gets, modify.
  destruct (CommandSink.send_all discovery w) as [[u|e] w1] eqn:Hs;
    rewrite (on_fst_eq _ _ _ _ _ Hs); [|done].
  cbn [fst snd]. by destruct (for_each _ _ _) as [[]].
Qed.

Lemma run_clean ts b p : ∃ u s, run ts (Writer.mk b [], p) = (Ok u, s).
Proof.
  rewrite run_eq, send_all_clean. cbn zeta.
  set (book := Catalog.book_universe _). set (p1 := with_book _ _).
  assert (∀ b p, ∃ s, for_each (subscribe_one book) ts (Writer.mk b [], p) = (Ok (), s)) as Hl.
  { clearbody book. clear. induction ts as [|t ts IH]; intros b p; cbn [for_each]; [by eexists|].
    unfold mbind, st_bind, subscribe_one at 1, mbind, st_bind.
    rewrite (on_fst_eq _ _ _ _ _ (send_all_clean _ _)). cbn [modify fst snd]. apply IH. }
  destruct (Hl (b ++ lines discovery) p1) as (s & ->). by eexists _, s.
Qed.

(** (C30) Bootstrap subscribes the catalog, and registers what it has sent.
    Whatever order the symbols are listed in: when every write succeeds, what is
    written is the discovery commands and then, for each ticker of the catalog
    exactly once, its subscriptions for quotes and trades, and for the detailed
    book exactly when it is in the book universe; the registry replayed after a
    reconnection and the book engine's allow-list say the same. When a write
    fails, the bytes are a prefix of that dialogue, and only tickers whose
    commands have all been written are registered. *)
Theorem bootstrap_subscribes_catalog (universe_set : list bytes) (w : Writer.t) (p : Pipeline.t)
    (k : SubscriptionKind.t) (ticker : bytes) :
  universe_set ≡ₚ elements (Catalog.symbols (catalog p)) → subscriptions p = ∅ →
  let book := Catalog.book_universe (catalog p) in
  let dialogue ts := lines (discovery ++ (ts ≫= ticker_commands book)) in
  let kinds := k = SubscriptionKind.Quote ∨ k = SubscriptionKind.Trades ∨
               (k = SubscriptionKind.BookDetailed ∧ ticker ∈ book) in
  let '(r, (w', p')) := run universe_set (w, p) in
  match r with
  | Ok universe =>
      Writer.written w' = Writer.written w ++ dialogue universe_set ∧
      ((k, ticker) ∈ subscriptions p' ↔ ticker ∈ Catalog.symbols (catalog p) ∧ kinds) ∧
      BookEngine.is_allowed ticker (Engine.book (engine p')) = bool_decide (ticker ∈ book) ∧
      Universe.total universe = size (Catalog.symbols (catalog p))
  | Err _ =>
      ∃ sent wire, sent `prefix_of` universe_set ∧ wire `prefix_of` dialogue universe_set ∧
        Writer.written w' = Writer.written w ++ wire ∧
        ((k, ticker) ∈ subscriptions p' ↔ ticker ∈ sent ∧ kinds) ∧
        (sent ≠ [] → dialogue sent `prefix_of` wire)
  end ∧
  (Writer.script w = [] → ∃ universe, r = Ok universe).
Proof.
  intros Hperm Hsub book dialogue kinds.
  destruct (run universe_set (w, p)) as [r [w' p']] eqn:Hrun. split.
  2: { intros Hw. destruct w as [b s]. cbn in Hw. subst s.
       destruct (run_clean universe_set b p) as (u & s & Hc). rewrite Hc in Hrun.
       injection Hrun as <- _. by eexists. }
  rewrite run_eq in Hrun. fold book in Hrun. cbn zeta in Hrun.
  destruct (CommandSink.send_all discovery w) as [[u|e] w1] eqn:Hs.
  - apply send_all_Ok in Hs. set (p1 := with_book _ _) in Hrun.
    destruct (subscribe_all book universe_set w1 p1) as (sent & rest & part & Hts & Hl).
    destruct (for_each _ _ _) as [r1 [w2 p2]]. destruct Hl as (-> & Hw & Hr).
    assert ((k, ticker) ∈ subscriptions (registers book sent p1) ↔ ticker ∈ sent ∧ kinds) as Hreg.
    { unfold registers. cbn [subscriptions with_subscriptions]. rewrite registered.
      change (subscriptions p1) with (subscriptions p). rewrite Hsub. unfold kinds. set_solver. }
    destruct r1 as [u1|e1]; injection Hrun as <- <- <-.
    + destruct Hr as [-> ->]. rewrite app_nil_r in Hts. subst sent. split_and!.
      * unfold dialogue. by rewrite Hw, Hs, app_nil_r, lines_app, <-(assoc_L (++)).
      * by rewrite Hreg, Hperm, elem_of_elements.
      * done.
      * cbn [Universe.total]. by rewrite Hperm.
    + destruct Hr as (t & rest' & -> & Hpart).
      exists sent, (dialogue sent ++ part). unfold dialogue. split_and!.
      * rewrite Hts. by apply prefix_app_r.
      * rewrite Hts, bind_app, bind_cons, !lines_app, <-!(assoc_L (++)).
        by apply prefix_app, prefix_app, prefix_app_r.
      * by rewrite Hw, Hs, !lines_app, <-!(assoc_L (++)).
      * done.
      * intros _. by apply prefix_app_r.
  - injection Hrun as <- <- <-.
    destruct (send_all_Err _ _ _ _ Hs) as (sent & f & rest & part & Hd & Hp & Hw).
    exists [], (lines sent ++ part). unfold dialogue. rewrite Hd. split_and!.
    + apply prefix_nil.
    + rewrite <-(assoc_L (++)). change (f :: rest) with ([f] ++ rest).
      rewrite <-(assoc_L (++)), !lines_app. by apply prefix_app, prefix_app_r.
    + done.
    + rewrite Hsub. set_solver.
    + done.
Qed.

(** *** A daemon with an empty allow-list *)

Lemma dispatch_keeps_book now msg p p' new :
  BookEngine.allowed (Engine.book (engine p)) = Some ∅ → dispatch now msg p = Some (p', new) →
  Engine.book (engine p') = Engine.book (engine p).
Proof.
  intros Ha Hd. destruct (dispatch_engines _ _ _ _ _ Hd) as (_ & _ & flags & Hb).
  destruct (book_of msg) as [c|] eqn:Hm; cbn [omap list_omap] in Hb; rewrite Hm in Hb.
  - destruct msg; simplify_eq/=. destruct (BookEngine.apply _ _ _) as [[b e]|] eqn:He; [|done].
    cbn in Hb. simplify_eq. unfold BookEngine.apply, BookEngine.is_allowed in He.
    rewrite Ha, bool_decide_eq_false_2 in He by set_solver. cbn in He. by simplify_eq.
  - cbn in Hb. by simplify_eq.
Qed.

Lemma step_keeps_book ev s s' :
  BookEngine.allowed (Engine.book (engine (Worker.pipe s))) = Some ∅ →
  Worker.step ev s = Some s' →
  Engine.book (engine (Worker.pipe s')) = Engine.book (engine (Worker.pipe s)).
Proof.
  intros Ha. destruct ev as [i|i now|i| | |]; cbn [Worker.step].
  - destruct (Worker.frames s) as [|[k f] rest]; [done|].
    destruct (Worker.held s !! i) as [[|]|]; [done| |done]. by intros [= <-].
  - destruct (Worker.held s !! i) as [[msg|]|]; [|done|done].
    destruct (dispatch now msg (Worker.pipe s)) as [[p new]|] eqn:Hd; [|done].
    cbn. intros [= <-]. by eapply dispatch_keeps_book.
  - destruct (Worker.tasks s !! i) as [[]|]; [..|done]; by intros [= <-].
  - by intros [= <-].
  - by intros [= <-].
  - by intros [= <-].
Qed.

(** The daemon starts with nothing to subscribe and every book refused.
    [main] bootstraps before it spawns the workers that would fill the
    catalog, so only the discovery commands are sent, no subscription is
    made or registered, and the book engine is left with an empty
    allow-list: under any schedule, with any frames, it never holds a
    book. *)
Theorem startup_refuses_every_book (shards cap n : nat) (writer : option TradeWriter.t)
    (out w' : Writer.t) (universe : Universe.t) (p : Pipeline.t)
    (fs : list (FrameKind.t * bytes)) (evs : list Worker.event) (s : Worker.state)
    (ticker : bytes) :
  startup shards cap writer out = (Ok universe, (w', p)) →
  Universe.total universe = 0%nat ∧
  Writer.written w' = Writer.written out ++ lines discovery ∧
  subscriptions p = ∅ ∧
  (Worker.run evs (Worker.start n fs p) = Some s →
   BookEngine.len (Engine.book (engine (Worker.pipe s))) = 0%nat ∧
   BookEngine.is_allowed ticker (Engine.book (engine (Worker.pipe s))) = false).
Proof.
  unfold startup. rewrite run_eq. cbn [build catalog Catalog.default Catalog.symbols].
  rewrite elements_empty. cbn zeta. cbn [for_each].
  destruct (CommandSink.send_all discovery out) as [[u|e] w1] eqn:Hs; [|done].
  apply send_all_Ok in Hs. cbn [mret st_ret]. intros [= <- <- <-]. split_and!; [done..|].
  set (p := with_book _ _).
  assert (Engine.book (engine (Worker.pipe (Worker.start n fs p))) =
    BookEngine.mk (BookEngine.shards (BookEngine.new shards)) (Some ∅)) as Hb by done.
  revert Hb. generalize (Worker.start n fs p). clear p.
  induction evs as [|ev evs IH]; intros s0 Hb; cbn [Worker.run].
  - intros [= <-]. rewrite Hb. split; [apply len_replicate|].
    unfold BookEngine.is_allowed. cbn. by apply bool_decide_eq_false_2.
  - destruct (Worker.step ev s0) as [s1|] eqn:Hst; [|done]. cbn. apply IH.
    rewrite (step_keeps_book ev s0 s1); [done|by rewrite Hb|done].
Qed.
End correctness.

Section witnesses.
#[local] Existing Instance chrono_reference.
#[local] Existing Instance table_reference.
#[local] Existing Instance ahash_reference.
#[local] Existing Instance memchr_reference.
#[local] Instance blob_reference : StagedTradeExt := λ _, bs "{}".
Import Pipeline Bootstrap.

Definition two_symbols : Catalog.t :=
  Catalog.insert_symbol (bs "BMF") (bs "WDOZ25")
    (Catalog.insert_symbol (bs "Bovespa") (bs "PETR4") Catalog.default).
Definition with_two_symbols : Pipeline.t := with_catalog two_symbols pipe0.

Lemma bootstrap_subscribes_catalog_witness :
  let '(r, (_, p')) := run (elements (Catalog.symbols two_symbols)) (Writer.new, with_two_symbols) in
  (∃ universe, r = Ok universe ∧ Universe.total universe = 2%nat) ∧
  (SubscriptionKind.BookDetailed, bs "PETR4") ∈ subscriptions p' ∧
  (SubscriptionKind.BookDetailed, bs "WDOZ25") ∉ subscriptions p'.
Proof.
  pose proof (λ k t, bootstrap_subscribes_catalog (elements (Catalog.symbols two_symbols)) Writer.new
    with_two_symbols k t (Permutation_refl _) eq_refl) as Hb. cbn zeta in Hb.
  destruct (run (elements (Catalog.symbols two_symbols)) _) as [r [w' p']].
  destruct (Hb SubscriptionKind.BookDetailed (bs "PETR4")) as (Hr & Hok).
  destruct (Hok eq_refl) as [u ->]. destruct Hr as (_ & Hp & _ & Ht).
  destruct (Hb SubscriptionKind.BookDetailed (bs "WDOZ25")) as ((_ & Hw & _ & _) & _).
  split; [|split].
  - exists u. split; [reflexivity|]. rewrite Ht. vm_compute. reflexivity.
  - apply Hp. split; [apply (bool_decide_eq_true_1 (bs "PETR4" ∈ Catalog.symbols two_symbols)); vm_compute; reflexivity|].
    right. right. split; [reflexivity|].
    apply (bool_decide_eq_true_1 (bs "PETR4" ∈ Catalog.book_universe two_symbols)). vm_compute. reflexivity.
  - intros Hin. apply Hw in Hin as (_ & [Hk|[Hk|[_ Hk]]]); [discriminate Hk|discriminate Hk|].
    assert (bool_decide (bs "WDOZ25" ∈ Catalog.book_universe two_symbols) = true) as Hd
      by (apply bool_decide_eq_true_2; exact Hk).
    vm_compute in Hd. discriminate Hd.
Defined.

Lemma startup_refuses_every_book_witness :
  ∃ u w p s, startup 4 100 (Some writer0) Writer.new = (Ok u, (w, p)) ∧
    Worker.run (overtaking now0) (Worker.start 2 [book_frame "500"; book_frame "700"] p) = Some s ∧
    BookEngine.len (Engine.book (engine (Worker.pipe s))) = 0%nat.
Proof.
  assert ((startup 4 100 (Some writer0) Writer.new).1 = Ok (Universe.mk 0 ∅)) as Hu
    by (vm_compute; reflexivity).
  assert (fmap Worker.frames (Worker.run (overtaking now0)
    (Worker.start 2 [book_frame "500"; book_frame "700"]
      (startup 4 100 (Some writer0) Writer.new).2.2)) = Some []) as Hf by (vm_compute; reflexivity).
  destruct (startup 4 100 (Some writer0) Writer.new) as [r [w p]] eqn:Hst.
  cbn [fst snd] in Hu, Hf. subst r.
  destruct (Worker.run _ _) as [s|] eqn:Hr; [|discriminate Hf].
  exists (Universe.mk 0 ∅), w, p, s. split; [reflexivity|]. split; [exact Hr|].
  destruct (startup_refuses_every_book 4 100 2 (Some writer0) Writer.new w _ p
    [book_frame "500"; book_frame "700"] (overtaking now0) s (bs "PETR4") Hst) as (_ & _ & _ & Hl).
  exact (proj1 (Hl Hr)).
Defined.
End witnesses.
