(* ===== verification/RuntimeConfig.v ===== *)
(** * Daemon configuration ([ingest-daemon/src/runtime_config.rs])

    The environment is a finite map; a variable whose value is not text counts
    as absent, as for [env::var]. *)

From S2P Require Import Prelude RustInt RustStr.

Abbreviation environment := (gmap bytes bytes).

Definition env_var (env : environment) (key : string) : option bytes :=
  v ← env !! bs key; from_utf8 v.

(** The [env_*] family: a default, or an optional value, for a number in a
    range. *)
Definition env_num (env : environment) (lo hi : Z) (key : string) (default : Z) : result string Z :=
  match env_var env key with
  | Some v => ok_or (int_from_str lo hi v) "invalid env var value"%string
  | None => Ok default
  end.
Definition env_opt_num (env : environment) (lo hi : Z) (key : string) : result string (option Z) :=
  match env_var env key with
  | Some v => Some <$> ok_or (int_from_str lo hi v) "invalid env var value"%string
  | None => Ok None
  end.
Definition env_or (env : environment) (key default : string) : bytes :=
  match env_var env key with Some v => v | None => bs default end.
Definition env_required (env : environment) (key : string) (e : string) : result string bytes :=
  ok_or (env_var env key) e.

Module RuntimeConfig.
Record t : Type := mk {
  log_filter : bytes;
  log_json : bool;
  metrics_bind : bytes;
  cedro_host : bytes;
  cedro_port : Z;
  cedro_software_key : bytes;
  cedro_username : bytes;
  cedro_password : bytes;
  so_rcvbuf : Z;
  frame_channel_capacity : Z;
  reader_cpu : option Z;
  watchdog_cpu : option Z;
  n_parser_workers : Z;
  n_book_shards : Z;
  trade_buffer_per_ticker : Z;
  nats_url : bytes;
  redis_url : bytes;
  snapshot_ttl_seconds : option Z;
  raw_archive_dir : bytes;
  raw_archive_zstd_level : Z;
  database_url : bytes;
  db_pool_size : Z;
  wal_path : bytes;
  trade_batch_size : Z;
  trade_flush_interval_ms : Z;
}.

#[global] Instance t_eq_dec : EqDecision t.
Proof. solve_decision. Defined.

Definition from_env (env : environment) : result string t :=
  let log_filter := env_or env "LOG_FILTER" "info" in
  let log_json := match env_var env "LOG_JSON" with
                  | Some v => negb (bool_decide (v = bs "0"))
                  | None => true
                  end in
  let metrics_bind := env_or env "METRICS_BIND" "0.0.0.0:9100" in
  let cedro_host := env_or env "CEDRO_HOST" "127.0.0.1" in
  cedro_port ← env_num env 0 u16_max "CEDRO_PORT" 81;
  let cedro_software_key := env_or env "CEDRO_SOFTWARE_KEY" EmptyString in
  cedro_username ← env_required env "CEDRO_USERNAME" "CEDRO_USERNAME missing";
  cedro_password ← env_required env "CEDRO_PASSWORD" "CEDRO_PASSWORD missing";
  so_rcvbuf ← env_num env 0 usize_max "SO_RCVBUF" (128 * 1024 * 1024);
  frame_channel_capacity ← env_num env 0 usize_max "FRAME_CHANNEL_CAPACITY" (2 * 1024 * 1024);
  reader_cpu ← env_opt_num env 0 usize_max "READER_CPU";
  watchdog_cpu ← env_opt_num env 0 usize_max "WATCHDOG_CPU";
  n_parser_workers ← env_num env 0 usize_max "PARSER_WORKERS" 8;
  n_book_shards ← env_num env 0 usize_max "BOOK_SHARDS" 8;
  trade_buffer_per_ticker ← env_num env 0 usize_max "TRADE_BUFFER_PER_TICKER" 100;
  let nats_url := env_or env "NATS_URL" "nats://127.0.0.1:4222" in
  let redis_url := env_or env "REDIS_URL" "redis://127.0.0.1/" in
  snapshot_ttl_seconds ← env_opt_num env 0 u64_max "SNAPSHOT_TTL_SECONDS";
  let raw_archive_dir := env_or env "RAW_ARCHIVE_DIR" "/var/data/raw" in
  raw_archive_zstd_level ← env_num env i32_min i32_max "RAW_ZSTD_LEVEL" 3;
  database_url ← env_required env "DATABASE_URL" "DATABASE_URL missing";
  db_pool_size ← env_num env 0 u32_max "DB_POOL_SIZE" 4;
  let wal_path := env_or env "WAL_PATH" "/var/data/trades.wal" in
  trade_batch_size ← env_num env 0 usize_max "TRADE_BATCH_SIZE" 5000;
  trade_flush_interval_ms ← env_num env 0 u64_max "TRADE_FLUSH_MS" 100;
  Ok (mk log_filter log_json metrics_bind cedro_host cedro_port cedro_software_key
        cedro_username cedro_password so_rcvbuf frame_channel_capacity reader_cpu watchdog_cpu
        n_parser_workers n_book_shards trade_buffer_per_ticker nats_url redis_url
        snapshot_ttl_seconds raw_archive_dir raw_archive_zstd_level database_url db_pool_size
        wal_path trade_batch_size trade_flush_interval_ms).
End RuntimeConfig.

(** ** Correctness *)

(** The numeric variables with their ranges, and the required ones. *)
Definition numeric_vars : list (string * (Z * Z)) :=
  [("CEDRO_PORT", (0, u16_max)); ("SO_RCVBUF", (0, usize_max));
   ("FRAME_CHANNEL_CAPACITY", (0, usize_max)); ("READER_CPU", (0, usize_max));
   ("WATCHDOG_CPU", (0, usize_max)); ("PARSER_WORKERS", (0, usize_max));
   ("BOOK_SHARDS", (0, usize_max)); ("TRADE_BUFFER_PER_TICKER", (0, usize_max));
   ("SNAPSHOT_TTL_SECONDS", (0, u64_max)); ("RAW_ZSTD_LEVEL", (i32_min, i32_max));
   ("DB_POOL_SIZE", (0, u32_max)); ("TRADE_BATCH_SIZE", (0, usize_max));
   ("TRADE_FLUSH_MS", (0, u64_max))]%string.
Definition required_vars : list string :=
  ["CEDRO_USERNAME"; "CEDRO_PASSWORD"; "DATABASE_URL"]%string.

Definition var_ok (env : environment) (kr : string * (Z * Z)) : Prop :=
  ∀ v, env_var env kr.1 = Some v → is_Some (int_from_str kr.2.1 kr.2.2 v).

Lemma bind_is_ok {E A B} (r : result E A) (f : A → result E B) (P Q : Prop) :
  ((∃ a, r = Ok a) ↔ P) → (∀ a, r = Ok a → ((∃ b, f a = Ok b) ↔ Q)) →
  (∃ b, r ≫= f = Ok b) ↔ P ∧ Q.
Proof.
  intros Hr Hf. destruct r as [a|e]; cbn.
  - rewrite (Hf a eq_refl), <-Hr. naive_solver.
  - split; [naive_solver|]. intros [Hp _]. apply Hr in Hp as [? [=]].
Qed.

Lemma env_num_ok env lo hi key d :
  (∃ n, env_num env lo hi key d = Ok n) ↔ var_ok env (key, (lo, hi)).
Proof.
  unfold env_num, var_ok. cbn [fst snd]. destruct (env_var env key) as [v|].
  - destruct (int_from_str lo hi v) as [n|] eqn:Hn; cbn.
    + split; [|by eexists]. intros _ v' [= <-]. by rewrite Hn.
    + split; [by intros [? ?]|]. intros Hv. destruct (Hv v eq_refl) as [n' Hn']. congruence.
  - split; [done|]. by eexists.
Qed.

Lemma env_opt_num_ok env lo hi key :
  (∃ n, env_opt_num env lo hi key = Ok n) ↔ var_ok env (key, (lo, hi)).
Proof.
  rewrite <-(env_num_ok env lo hi key 0). unfold env_opt_num, env_num.
  destruct (env_var env key) as [v|]; [destruct (int_from_str lo hi v)|]; cbn; split; intros [? ?];
    (done || eauto).
Qed.

Lemma env_required_ok env key e :
  (∃ v, env_required env key e = Ok v) ↔ is_Some (env_var env key).
Proof. unfold env_required. destruct (env_var env key); cbn; split; intros [? ?]; (done || eauto). Qed.

(** When the daemon starts. The configuration is accepted exactly when the
    user name, the password and the database URL are set and every numeric
    variable that is set parses in the range of its type; nothing else in the
    environment can stop the start. With only the required variables it is the
    documented default configuration. *)
Theorem from_env_accepts (env : environment) (username password url : string) :
  ((∃ c, RuntimeConfig.from_env env = Ok c) ↔
     Forall (λ key, is_Some (env_var env key)) required_vars ∧ Forall (var_ok env) numeric_vars) ∧
  (forallb (λ s, utf8_valid (bs s)) [username; password; url] = true →
   RuntimeConfig.from_env (<[bs "CEDRO_USERNAME" := bs username]>
      (<[bs "CEDRO_PASSWORD" := bs password]> (<[bs "DATABASE_URL" := bs url]> ∅))) =
   Ok (RuntimeConfig.mk (bs "info") true (bs "0.0.0.0:9100") (bs "127.0.0.1") 81 []
         (bs username) (bs password) (128 * 1024 * 1024) (2 * 1024 * 1024) None None 8 8 100
         (bs "nats://127.0.0.1:4222") (bs "redis://127.0.0.1/") None (bs "/var/data/raw") 3
         (bs url) 4 (bs "/var/data/trades.wal") 5000 100)).
Proof.
  split.
  - unfold RuntimeConfig.from_env. cbv zeta.
    assert (∀ A (a : A), (∃ c, Ok (E := string) a = Ok c) ↔ True) as Hok by (intros; split; eauto).
    transitivity (var_ok env ("CEDRO_PORT"%string, (0, u16_max)) ∧ is_Some (env_var env "CEDRO_USERNAME") ∧
      is_Some (env_var env "CEDRO_PASSWORD") ∧ var_ok env ("SO_RCVBUF"%string, (0, usize_max)) ∧
      var_ok env ("FRAME_CHANNEL_CAPACITY"%string, (0, usize_max)) ∧
      var_ok env ("READER_CPU"%string, (0, usize_max)) ∧ var_ok env ("WATCHDOG_CPU"%string, (0, usize_max)) ∧
      var_ok env ("PARSER_WORKERS"%string, (0, usize_max)) ∧ var_ok env ("BOOK_SHARDS"%string, (0, usize_max)) ∧
      var_ok env ("TRADE_BUFFER_PER_TICKER"%string, (0, usize_max)) ∧
      var_ok env ("SNAPSHOT_TTL_SECONDS"%string, (0, u64_max)) ∧
      var_ok env ("RAW_ZSTD_LEVEL"%string, (i32_min, i32_max)) ∧ is_Some (env_var env "DATABASE_URL") ∧
      var_ok env ("DB_POOL_SIZE"%string, (0, u32_max)) ∧ var_ok env ("TRADE_BATCH_SIZE"%string, (0, usize_max)) ∧
      var_ok env ("TRADE_FLUSH_MS"%string, (0, u64_max)) ∧ True).
    + repeat (apply bind_is_ok;
        [first [apply env_num_ok|apply env_opt_num_ok|apply env_required_ok]|intros ? _]).
      apply Hok.
    + unfold required_vars, numeric_vars. rewrite !Forall_cons, !Forall_nil. tauto.
  - intros Hv. cbn [forallb] in Hv. rewrite !andb_true_iff in Hv. destruct Hv as (Hu & Hp & Hd & _).
    clear env. set (env := <[_ := _]> _).
    assert (env_var env "CEDRO_USERNAME" = Some (bs username)) as E1.
    { unfold env_var, env. rewrite lookup_insert_eq. cbn. unfold from_utf8. by rewrite Hu. }
    assert (env_var env "CEDRO_PASSWORD" = Some (bs password)) as E2.
    { unfold env_var, env. rewrite lookup_insert_ne, lookup_insert_eq by done. cbn.
      unfold from_utf8. by rewrite Hp. }
    assert (env_var env "DATABASE_URL" = Some (bs url)) as E3.
    { unfold env_var, env. rewrite !lookup_insert_ne, lookup_insert_eq by done. cbn.
      unfold from_utf8. by rewrite Hd. }
    assert (∀ key, bs key ∉ [bs "CEDRO_USERNAME"; bs "CEDRO_PASSWORD"; bs "DATABASE_URL"] →
      env_var env key = None) as Hn.
    { intros key Hk. unfold env_var, env.
      rewrite !lookup_insert_ne, lookup_empty by (intros He; apply Hk; rewrite <-He; set_solver).
      done. }
    clearbody env. unfold RuntimeConfig.from_env, env_required, env_num, env_opt_num, env_or.
    rewrite E1, E2, E3. rewrite !Hn by (by apply (bool_decide_eq_true_1 (_ ∉ _))). done.
Qed.

Lemma from_env_accepts_witness :
  RuntimeConfig.cedro_port <$> result_ok (RuntimeConfig.from_env
    (<[bs "CEDRO_USERNAME" := bs "u"]> (<[bs "CEDRO_PASSWORD" := bs "p"]>
      (<[bs "DATABASE_URL" := bs "postgres://"]> ∅)))) = Some 81.
Proof.
  rewrite (proj2 (from_env_accepts ∅ "u" "p" "postgres://") ltac:(vm_compute; reflexivity)).
  reflexivity.
Defined.
