(* ===== verification/Observability.v ===== *)
(** * Logging and metrics set-up ([observability/src/lib.rs])

    The configuration and [init_global]; the subscriber and the exporter it
    installs are third-party. *)

From S2P Require Import Prelude RustStr RustNet.

(** The tracing and Prometheus crates: the filter read from [RUST_LOG] when
    there is a valid one, whether the subscriber could be installed, and whether
    the exporter could. *)
Class Telemetry : Type := {
  filter_from_env : option bytes;
  try_init : bool → bytes → bool;
  install_recorder : SocketAddr.t → bool;
}.

Module ObservabilityError.
Inductive t : Type :=
  | TracingAlreadySet
  | Prometheus
  | InvalidAddr (addr : bytes).
End ObservabilityError.

Module ObservabilityConfig.
Record t : Type := mk {
  default_filter : bytes;
  json : bool;
  prometheus_bind : option bytes;
}.
Definition default : t := mk (bs "info") true (Some (bs "0.0.0.0:9100")).
End ObservabilityConfig.

Section init.
Context `{Telemetry}.

Definition install_tracing (cfg : ObservabilityConfig.t) : result ObservabilityError.t () :=
  let filter := match filter_from_env with
                | Some f => f
                | None => ObservabilityConfig.default_filter cfg
                end in
  if try_init (ObservabilityConfig.json cfg) filter then Ok ()
  else Err ObservabilityError.TracingAlreadySet.

(** The exporter's handle, as the address it listens on. *)
Definition init_global (cfg : ObservabilityConfig.t)
    : result ObservabilityError.t (option SocketAddr.t) :=
  _ ← install_tracing cfg;
  match ObservabilityConfig.prometheus_bind cfg with
  | Some addr =>
      parsed ← ok_or (AddrParser.parse addr) (ObservabilityError.InvalidAddr addr);
      if install_recorder parsed then Ok (Some parsed) else Err ObservabilityError.Prometheus
  | None => Ok None
  end.

(** Set-up succeeds exactly when the subscriber can be installed and the bind
    address, if there is one, is a literal socket address the exporter accepts;
    the subscriber is installed before the address is looked at. *)
Lemma init_global_Ok cfg :
  (∃ h, init_global cfg = Ok h) ↔
  install_tracing cfg = Ok () ∧
  ∀ addr, ObservabilityConfig.prometheus_bind cfg = Some addr →
    ∃ a, AddrParser.parse addr = Some a ∧ install_recorder a = true.
Proof.
  unfold init_global. destruct (install_tracing cfg) as [[]|e]; cbn.
  - destruct (ObservabilityConfig.prometheus_bind cfg) as [addr|].
    + destruct (AddrParser.parse addr) as [a|] eqn:Ha; cbn.
      * destruct (install_recorder a) eqn:Hi.
        -- split; [|by eexists]. intros _. split; [done|]. intros ? [= <-]. by exists a.
        -- split; [by intros []|]. intros [_ Hx]. destruct (Hx addr eq_refl) as (? & ? & ?). congruence.
      * split; [by intros []|]. intros [_ Hx]. destruct (Hx addr eq_refl) as (? & ? & ?). congruence.
    + split; [done|]. by eexists.
  - split; [by intros []|by intros [[=] _]].
Qed.
End init.

(** A host where everything can be installed. *)
Definition telemetry_reference : Telemetry := {|
  filter_from_env := None;
  try_init _ _ := true;
  install_recorder _ := true;
|}.
