(* ===== verification/Api.v ===== *)
(** * HTTP surface of the api-server ([api-server/src/auth.rs], [error.rs],
    [http/content_neg.rs], [http/handlers.rs])

    The handlers as functions of the request's headers and parameters and of
    the contents of Redis ([None] when a call to it fails). Header decoding,
    the serialisers and the hash behind the entity tags are parameters. *)

From S2P Require Import Prelude RustInt RustStr Fanout.

(** ** Errors *)

Module ApiError.
Inductive t : Type :=
  | MissingAuth
  | InvalidToken
  | RateLimited
  | TickerNotFound (ticker : bytes)
  | BookNotAvailable
  | Redis
  | BadRequest (msg : string)
  | Internal (msg : string).

#[global] Instance t_eq_dec : EqDecision t.
Proof. solve_decision. Defined.

Definition status (e : t) : Z :=
  match e with
  | MissingAuth | InvalidToken => 401
  | RateLimited => 429
  | TickerNotFound _ | BookNotAvailable => 404
  | BadRequest _ => 400
  | Redis | Internal _ => 500
  end.

Definition code (e : t) : string :=
  match e with
  | MissingAuth => "missing_auth"
  | InvalidToken => "invalid_token"
  | RateLimited => "rate_limited"
  | TickerNotFound _ => "ticker_not_found"
  | BookNotAvailable => "book_not_available"
  | Redis | Internal _ => "internal"
  | BadRequest _ => "bad_request"
  end.
End ApiError.

(** ** Requests *)

Module ApiConfig.
(** [etag_cache_ttl] in milliseconds. *)
Record t : Type := mk {
  redis_url : bytes;
  nats_url : bytes;
  valid_tokens : gset bytes;
  book_universe : option (gset bytes);
  rate_limit_per_second : option Z;
  etag_cache_ttl : Z;
  cors_allowed_origins : list bytes;
}.
Definition default : t :=
  mk (bs "redis://127.0.0.1/") (bs "nats://127.0.0.1:4222") ∅ None (Some 100) 5000 [].

(** The configuration with other tokens. *)
Definition with_tokens (tokens : gset bytes) (c : t) : t :=
  mk (redis_url c) (nats_url c) tokens (book_universe c) (rate_limit_per_second c)
    (etag_cache_ttl c) (cors_allowed_origins c).
End ApiConfig.

(** Non-empty items of a comma-separated list, trimmed: the token list of the
    environment and the ticker list of a batch. *)
Definition csv (s : bytes) : list bytes :=
  filter (λ t, t ≠ []) (trim <$> split_on ","%byte s).

Definition parse_tokens (api_tokens : option bytes) : gset bytes :=
  list_to_set (csv (default [] api_tokens)).

(** [HeaderValue::to_str] of the http crate. *)
Class HeaderText : Type := to_str : bytes → option bytes.
(** It gives the bytes of the value or an error. *)
Class HeaderTextSpec `{HeaderText} : Prop := to_str_Some v s : to_str v = Some s → s = v.
(** Visible ASCII and tabs. *)
Definition header_text_reference : HeaderText := λ v,
  if forallb (λ b, byte_in 32 126 b || (u8 b =? 9)) v then Some v else None.
Lemma header_text_reference_spec : @HeaderTextSpec header_text_reference.
Proof. intros v s. unfold to_str, header_text_reference. destruct (forallb _ v); naive_solver. Qed.

Module HeaderMap.
(** The two headers the handlers read. *)
Record t : Type := mk {
  authorization : option bytes;
  accept : option bytes;
}.
End HeaderMap.

Module Accept.
Inductive t : Type := Json | MessagePack.
Definition content_type (a : t) : bytes :=
  match a with Json => bs "application/json" | MessagePack => bs "application/msgpack" end.

Definition from_headers `{HeaderText} (headers : HeaderMap.t) : t :=
  match HeaderMap.accept headers with
  | None => Json
  | Some val =>
      let s := default [] (to_str val) in
      if str_contains (bs "application/msgpack") s || str_contains (bs "application/x-msgpack") s
      then MessagePack else Json
  end.
End Accept.

(** [strip_prefix("Bearer ").or_else(|| strip_prefix("bearer "))]. *)
Definition strip_scheme (raw : bytes) : option bytes :=
  match strip_prefix (bs "Bearer ") raw with
  | Some rest => Some rest
  | None => strip_prefix (bs "bearer ") raw
  end.

Section auth.
Context `{HeaderText}.

Definition extract_bearer (headers : HeaderMap.t) : result ApiError.t bytes :=
  header_val ← ok_or (HeaderMap.authorization headers) ApiError.MissingAuth;
  s ← ok_or (to_str header_val) ApiError.InvalidToken;
  let raw := trim s in
  rest ← ok_or (strip_scheme raw) ApiError.InvalidToken;
  let token := trim rest in
  if bool_decide (token = []) then Err ApiError.InvalidToken else Ok token.

Definition require_token (headers : HeaderMap.t) (cfg : ApiConfig.t) : result ApiError.t bytes :=
  token ← extract_bearer headers;
  if bool_decide (token ∈ ApiConfig.valid_tokens cfg) then Ok token
  else Err ApiError.InvalidToken.
End auth.

(** ** Responses *)

Definition hex_digit (n : Z) : byte := if n <? 10 then byte_of_Z (48 + n) else byte_of_Z (87 + n).
(** [{b:02x}] of every byte. *)
Definition hex (l : bytes) : bytes :=
  l ≫= λ b, [hex_digit (u8 b / 16); hex_digit (u8 b mod 16)].
(** [{:x}] of an unsigned number; 16 digits are enough for 64 bits. *)
Fixpoint hex_print_fuel (fuel : nat) (n : Z) : bytes :=
  match fuel with
  | O => []
  | S fuel' => (if n <? 16 then [] else hex_print_fuel fuel' (n / 16)) ++ [hex_digit (n mod 16)]
  end.

(** [hash_one] of the builder with fixed seeds, below 2^64. *)
Class PayloadHash : Type := hash_one : bytes → Z.
Definition compute_etag `{PayloadHash} (payload : bytes) : bytes :=
  [x22] ++ hex_print_fuel 16 (wrap 64 (hash_one payload)) ++ [x22].

Module Response.
Record t : Type := mk {
  content_type : bytes;
  cache_control : option bytes;
  etag : option bytes;
  body : bytes;
}.
End Response.

(** [serde_json] and [rmp_serde]: reading a JSON value, and serialising a map
    of values or of optional payloads ([None] is a serialisation error). *)
Class Serialisers : Type := {
  JsonValue : Type;
  from_slice : bytes → option JsonValue;
  json_null : JsonValue;
  raw_hex : bytes → JsonValue;
  json_to_vec : gmap bytes JsonValue → option bytes;
  msgpack_to_vec : gmap bytes (option bytes) → option bytes;
}.

(** ** Handlers *)

Section handlers.
Context `{HeaderText, PayloadHash, Serialisers}.

Definition snapshot_response (accept : Accept.t) (payload : bytes) : Response.t :=
  Response.mk (Accept.content_type accept) (Some (bs "max-age=1"))
    (Some (compute_etag payload)) payload.

Definition store_get (kind : SnapshotKind.t) (ticker : bytes) (redis : option (gmap bytes bytes))
    : result ApiError.t (option bytes) :=
  SnapshotStore.get kind ticker <$> ok_or redis ApiError.Redis.
Definition store_get_batch (kind : SnapshotKind.t) (tickers : list bytes)
    (redis : option (gmap bytes bytes)) : result ApiError.t (list (option bytes)) :=
  if bool_decide (tickers = []) then Ok []
  else SnapshotStore.get_batch kind tickers <$> ok_or redis ApiError.Redis.

Definition quote_single (headers : HeaderMap.t) (cfg : ApiConfig.t) (ticker : bytes)
    (redis : option (gmap bytes bytes)) : result ApiError.t Response.t :=
  _ ← require_token headers cfg;
  let accept := Accept.from_headers headers in
  found ← store_get SnapshotKind.Quote ticker redis;
  payload ← ok_or found (ApiError.TickerNotFound ticker);
  Ok (snapshot_response accept payload).

Definition book_single (headers : HeaderMap.t) (cfg : ApiConfig.t) (ticker : bytes)
    (redis : option (gmap bytes bytes)) : result ApiError.t Response.t :=
  _ ← require_token headers cfg;
  let accept := Accept.from_headers headers in
  found ← store_get SnapshotKind.Book ticker redis;
  payload ← ok_or found ApiError.BookNotAvailable;
  Ok (snapshot_response accept payload).

Definition trades (headers : HeaderMap.t) (cfg : ApiConfig.t) (ticker : bytes)
    (limit : option Z) (since : option bytes) (redis : option (gmap bytes bytes))
    : result ApiError.t Response.t :=
  _ ← require_token headers cfg;
  let limit := default 50 limit in
  match since with
  | Some _ => Err (ApiError.BadRequest "historical range queries require the TimescaleDB backend (task #2)")
  | None =>
      if (limit =? 0) || (1000 <? limit) then Err (ApiError.BadRequest "limit must be in 1..=1000")
      else
        let accept := Accept.from_headers headers in
        found ← store_get SnapshotKind.Trade ticker redis;
        payload ← ok_or found (ApiError.TickerNotFound ticker);
        Ok (snapshot_response accept payload)
  end.

Definition MAX_BATCH : nat := 500.

(** The JSON value of a ticker in a batch. *)
Definition batch_value (payload : option bytes) : JsonValue :=
  match payload with
  | None => json_null
  | Some b => default (raw_hex (hex b)) (from_slice b)
  end.

Definition batch (redis : option (gmap bytes bytes)) (kind : SnapshotKind.t) (q : bytes)
    (headers : HeaderMap.t) : result ApiError.t Response.t :=
  let accept := Accept.from_headers headers in
  let tickers := csv q in
  if bool_decide (tickers = []) then Err (ApiError.BadRequest "tickers list is empty")
  else if (MAX_BATCH <? length tickers)%nat then
    Err (ApiError.BadRequest "batch exceeds 500 tickers")
  else
    results ← store_get_batch kind tickers redis;
    match accept with
    | Accept.Json =>
        let out := foldl (λ m kv, <[kv.1 := batch_value kv.2]> m) ∅ (zip tickers results) in
        body ← ok_or (json_to_vec out) (ApiError.Internal "json");
        Ok (Response.mk (Accept.content_type accept) None None body)
    | Accept.MessagePack =>
        let map := foldl (λ m kv, <[kv.1 := kv.2]> m) ∅ (zip tickers results) in
        body ← ok_or (msgpack_to_vec map) (ApiError.Internal "msgpack");
        Ok (Response.mk (Accept.content_type accept) None None body)
    end.

Definition quote_batch (headers : HeaderMap.t) (cfg : ApiConfig.t) (q : bytes)
    (redis : option (gmap bytes bytes)) : result ApiError.t Response.t :=
  _ ← require_token headers cfg;
  batch redis SnapshotKind.Quote q headers.
Definition book_batch (headers : HeaderMap.t) (cfg : ApiConfig.t) (q : bytes)
    (redis : option (gmap bytes bytes)) : result ApiError.t Response.t :=
  _ ← require_token headers cfg;
  batch redis SnapshotKind.Book q headers.
End handlers.

(** [SubscribeChannel] of the WebSocket protocol. *)
Module SubscribeChannel.
Inductive t : Type := Quote | Book | Trade.
Definition as_str (c : t) : bytes :=
  match c with Quote => bs "quote" | Book => bs "book" | Trade => bs "trade" end.
Definition nats_prefix (c : t) : bytes :=
  match c with Quote => bs "market.quote." | Book => bs "market.book." | Trade => bs "market.trade." end.
Definition kind (c : t) : Kind.t :=
  match c with Quote => Kind.Quote | Book => Kind.Book | Trade => Kind.Trade end.
End SubscribeChannel.

(** The messages of both directions; JSON and MessagePack are derived by serde. *)
Module ClientMessage.
Inductive t : Type :=
  | Sub (channel : SubscribeChannel.t) (ticker : bytes)
  | Unsub (channel : SubscribeChannel.t) (ticker : bytes)
  | Ping (ts : Z).
End ClientMessage.

Module ServerMessage.
Inductive t : Type :=
  | Snap (channel : SubscribeChannel.t) (ticker data : bytes)
  | Upd (channel : SubscribeChannel.t) (ticker data : bytes)
  | Pong (ts : Z)
  | Err (code : string) (message : bytes) (ticker : option bytes).
End ServerMessage.

(** The subject of a WebSocket subscription is the one the daemon publishes on. *)
Lemma channel_subject c ticker :
  utf8_valid ticker = true →
  SubscribeChannel.nats_prefix c ++ ticker =
    PublishKey.nats_subject (PublishKey.mk (SubscribeChannel.kind c) ticker).
Proof.
  intros Hu. unfold PublishKey.nats_subject. rewrite ticker_str_valid by done. by destruct c.
Qed.

(** ** Trimming *)

Lemma ws_front_app p q : ws_front p ≠ O → ws_front (p ++ q) = ws_front p.
Proof.
  destruct p as [|a [|b [|c p]]]; cbn [ws_front app]; [done|..];
    destruct (byte_in 0x09 0x0D a || (u8 a =? 0x20)); try done.
  destruct ((u8 a =? 0xC2) && ((u8 b =? 0x85) || (u8 b =? 0xA0))); done.
Qed.

Lemma ws_front_app_nil p q : ws_front (p ++ q) = O → ws_front p = O.
Proof.
  intros Hq. destruct (ws_front p) eqn:Hp; [done|]. rewrite ws_front_app in Hq; congruence.
Qed.

Lemma strip_fuel_done (ws : bytes → nat) fuel l :
  ws [] = O → (length l ≤ fuel)%nat → ws (strip_fuel ws fuel l) = O.
Proof.
  intros Hnil. revert l. induction fuel as [|fuel IH]; intros l Hl; cbn [strip_fuel].
  - destruct l; [done|]. simpl in Hl. lia.
  - destruct (ws l) as [|k] eqn:Hk; [done|]. apply IH.
    destruct l as [|b l]; [congruence|]. rewrite length_drop. simpl in *. lia.
Qed.

Lemma strip_fuel_suffix ws fuel l : ∃ p, l = p ++ strip_fuel ws fuel l.
Proof.
  revert l. induction fuel as [|fuel IH]; intros l; cbn [strip_fuel]; [by exists []|].
  destruct (ws l) as [|k]; [by exists []|]. destruct (IH (drop (S k) l)) as [p Hp].
  exists (take (S k) l ++ p). by rewrite <-(assoc_L (++)), <-Hp, take_drop.
Qed.

(** A trimmed string has no white space at either end. *)
Lemma trim_trimmed s : ws_front (trim s) = O ∧ ws_back (rev (trim s)) = O.
Proof.
  unfold trim, trim_end. rewrite rev_involutive. split.
  - destruct (strip_fuel_suffix ws_back (length (trim_start s)) (rev (trim_start s))) as [p Hp].
    apply (ws_front_app_nil _ (rev p)). rewrite <-rev_app_distr, <-Hp, rev_involutive.
    by apply strip_fuel_done.
  - apply strip_fuel_done; [done|]. by rewrite length_rev.
Qed.

Lemma trim_idemp s : trim (trim s) = trim s.
Proof. destruct (trim_trimmed s). by apply trim_no_ws. Qed.

(** A trimmed string keeps its end behind a scheme and a space. *)
Lemma ws_back_app_space r x :
  r ≠ [] → ws_back r = O → ws_back (r ++ [" "; "r"]%byte ++ x) = O.
Proof.
  intros Hr Hb.
  destruct r as [|a [|b [|c r]]]; [done|..]; cbn [ws_back app take rev] in *.
  - destruct (0 <? ws_front [a])%nat; [done|]. by destruct (ws_front [a] =? 2)%nat.
  - destruct (0 <? ws_front [a])%nat; [done|]. destruct (ws_front [b; a] =? 2)%nat; done.
  - exact Hb.
Qed.

Lemma trim_bearer scheme t :
  scheme = bs "Bearer " ∨ scheme = bs "bearer " →
  t ≠ [] → trim t = t → trim (scheme ++ t) = scheme ++ t.
Proof.
  intros Hs Ht Htrim. destruct (trim_trimmed t) as [_ Hb]. rewrite Htrim in Hb.
  assert (rev t ≠ []) as Hr.
  { intros Hr. apply Ht. by rewrite <-(rev_involutive t), Hr. }
  apply trim_no_ws.
  - destruct Hs as [->| ->]; by destruct t as [|? [|? ?]].
  - rewrite rev_app_distr.
    destruct Hs as [->| ->];
      [change (rev (bs "Bearer ")) with ([" "; "r"]%byte ++ rev (bs "Beare"))|
       change (rev (bs "bearer ")) with ([" "; "r"]%byte ++ rev (bs "beare"))];
      by apply ws_back_app_space.
Qed.

Lemma strip_scheme_Some s rest :
  strip_scheme s = Some rest ↔ s = bs "Bearer " ++ rest ∨ s = bs "bearer " ++ rest.
Proof.
  unfold strip_scheme. rewrite <-!strip_prefix_Some. split.
  - destruct (strip_prefix (bs "Bearer ") s); intros Hr; [by left|by right].
  - intros [->|Hb]; [done|]. apply strip_prefix_Some in Hb as ->. done.
Qed.

Lemma csv_elem s t : t ∈ csv s → t ≠ [] ∧ trim t = t.
Proof.
  unfold csv. intros [Ht (x & -> & _)%list_elem_of_fmap]%list_elem_of_filter.
  split; [done|]. apply trim_idemp.
Qed.

(** ** Correctness *)

Section correctness.
Context `{HeaderTextSpec}.

(** The token a request bears: what follows the bearer scheme in its
    authorization header, trimmed, when that is text and not empty. *)
Definition bears (headers : HeaderMap.t) (token : bytes) : Prop :=
  ∃ v rest, HeaderMap.authorization headers = Some v ∧ is_Some (to_str v) ∧
    (trim v = bs "Bearer " ++ rest ∨ trim v = bs "bearer " ++ rest) ∧
    token = trim rest ∧ token ≠ [].

Lemma require_token_Ok headers cfg token :
  require_token headers cfg = Ok token ↔ bears headers token ∧ token ∈ ApiConfig.valid_tokens cfg.
Proof.
  unfold require_token, extract_bearer, bears. rewrite result_bind_Ok. split.
  - intros (t' & (v & Hv & (s & Hs & (rest & Hrest & Ht)%result_bind_Ok)%result_bind_Ok)%result_bind_Ok & Hc).
    apply ok_or_Ok in Hv, Hs, Hrest. pose proof (to_str_Some v s Hs). subst s.
    apply strip_scheme_Some in Hrest. repeat case_bool_decide; simplify_eq. eauto 10.
  - intros [(v & rest & Hv & [s Hs] & Hrest & -> & Hne) Hc].
    pose proof (to_str_Some v s Hs). subst s. exists (trim rest).
    rewrite Hv. cbn. rewrite Hs. cbn. apply strip_scheme_Some in Hrest. rewrite Hrest. cbn.
    rewrite bool_decide_eq_false_2, bool_decide_eq_true_2 by done. done.
Qed.

(** The two refusals. *)
Lemma require_token_Err headers cfg e :
  require_token headers cfg = Err e →
  e = match HeaderMap.authorization headers with
      | None => ApiError.MissingAuth
      | Some _ => ApiError.InvalidToken
      end.
Proof.
  unfold require_token, extract_bearer.
  destruct (HeaderMap.authorization headers) as [v|]; cbn; [|by intros [= <-]].
  destruct (to_str v); cbn; [|by intros [= <-]].
  destruct (strip_scheme _); cbn; [|by intros [= <-]].
  repeat (case_bool_decide; cbn; try (by intros [= <-]); try done).
Qed.

(** Who gets in. [require_token] accepts a request exactly when its
    authorization header is text that, trimmed, is a bearer scheme followed
    by a non-empty configured token, and hands that token on; a missing
    header is reported as missing, everything else as invalid, both with
    status 401. Every token of the configured list is usable: sent as is in
    a readable header, it is accepted, white space around the items of the
    list notwithstanding. *)
Theorem require_token_exact (headers : HeaderMap.t) (cfg : ApiConfig.t) (token : bytes)
    (api_tokens : bytes) (accept : option bytes) :
  (require_token headers cfg = Ok token ↔ bears headers token ∧ token ∈ ApiConfig.valid_tokens cfg) ∧
  (require_token headers cfg = Err ApiError.MissingAuth ↔ HeaderMap.authorization headers = None) ∧
  (∀ e, require_token headers cfg = Err e → ApiError.status e = 401) ∧
  (token ∈ csv api_tokens → is_Some (to_str (bs "Bearer " ++ token)) →
   require_token (HeaderMap.mk (Some (bs "Bearer " ++ token)) accept)
     (ApiConfig.with_tokens (parse_tokens (Some api_tokens)) cfg) = Ok token).
Proof.
  split_and!; [apply require_token_Ok| | |].
  - split.
    + intros He%require_token_Err. by destruct (HeaderMap.authorization headers).
    + intros Hn. unfold require_token, extract_bearer. by rewrite Hn.
  - intros e ->%require_token_Err. by destruct (HeaderMap.authorization headers).
  - intros Ht Htext. destruct (csv_elem _ _ Ht) as [Hne Htrim]. apply require_token_Ok. split.
    + exists (bs "Bearer " ++ token), token. split_and!; [done|done| |done|done].
      left. apply trim_bearer; [by left|done|done].
    + unfold parse_tokens. cbn. by apply elem_of_list_to_set.
Qed.
End correctness.

Section serving.
Context `{HeaderText, PayloadHash, Serialisers}.

(** What the daemon publishes is what the API serves. For an
    authenticated request, a quote whose snapshot was just written by the
    publisher comes back with exactly that payload, the negotiated content
    type and its entity tag, until its time to live is over; the answer for any
    other ticker, and for the same ticker after a publication of another kind,
    does not change; a ticker never published, or whose snapshot has expired, is
    a 404. Without a token Redis is not even consulted, and when Redis fails the
    status is 500. *)
Theorem api_serves_published (headers : HeaderMap.t) (cfg : ApiConfig.t) (token : bytes)
    (k : PublishKey.t) (ticker payload : bytes) (ttl : option Z) (nats_ok : bool)
    (redis : Redis.t) (set_at now : Z) :
  utf8_valid (PublishKey.ticker k) = true → utf8_valid ticker = true →
  let redis' := FanoutPublisher.apply_redis true set_at
                  (FanoutPublisher.publish ttl nats_ok true k payload).2 redis in
  (require_token headers cfg = Ok token →
   quote_single headers cfg ticker (Some (Redis.contents now redis')) =
     (if decide (k = PublishKey.mk Kind.Quote ticker)
      then if Redis.live now (Redis.deadline set_at ttl)
           then Ok (snapshot_response (Accept.from_headers headers) payload)
           else Err (ApiError.TickerNotFound ticker)
      else quote_single headers cfg ticker (Some (Redis.contents now redis))) ∧
   quote_single headers cfg ticker (Some ∅) = Err (ApiError.TickerNotFound ticker) ∧
   ApiError.status (ApiError.TickerNotFound ticker) = 404 ∧
   quote_single headers cfg ticker None = Err ApiError.Redis ∧
   ApiError.status ApiError.Redis = 500) ∧
  (∀ e r, require_token headers cfg = Err e → quote_single headers cfg ticker r = Err e).
Proof.
  intros Hk Ht redis'. split.
  - intros Htok. unfold quote_single, store_get. rewrite Htok. cbn [mbind result_bind ok_or fmap result_fmap].
    split_and!; [|done..].
    subst redis'. rewrite get_after_publish by done. cbn [SnapshotKind.kind].
    case_decide; [|done]. by destruct (Redis.live _ _).
  - intros e r He. unfold quote_single. by rewrite He.
Qed.

Lemma lookup_fill_zip {A B} (f : bytes → A) (g : A → B) (ts : list bytes) (m : gmap bytes B) t :
  foldl (λ m kv, <[kv.1 := g kv.2]> m) m (zip ts (f <$> ts)) !! t =
  if decide (t ∈ ts) then Some (g (f t)) else m !! t.
Proof.
  revert m. induction ts as [|t0 ts IH]; intros m; [done|].
  cbn [fmap list_fmap zip zip_with foldl fst snd]. rewrite IH.
  destruct (decide (t = t0)) as [->|Hne].
  - rewrite (decide_True (P := t0 ∈ t0 :: ts)) by constructor.
    rewrite lookup_insert_eq. by case_decide.
  - rewrite lookup_insert_ne by done.
    destruct (decide (t ∈ ts)) as [Hin|Hin].
    + rewrite decide_True by (by constructor). done.
    + rewrite decide_False; [done|]. by intros [?|?]%elem_of_cons.
Qed.

(** Batches. An authenticated batch is refused with status 400 when its
    list has no ticker or more than 500, before Redis is asked. Otherwise the
    body is the serialised map with one entry per distinct ticker of the
    list, and no other: the snapshot of the ticker, parsed, or in hexadecimal
    when it is not JSON, or null when there is none; in MessagePack the raw
    snapshot or nil. The order of the list and its repetitions do not
    matter. *)
Theorem batch_exact (redis : option (gmap bytes bytes)) (kind : SnapshotKind.t) (q : bytes)
    (headers : HeaderMap.t) :
  let ts := csv q in
  (ts = [] ∨ (500 < length ts)%nat →
   ∃ msg, batch redis kind q headers = Err (ApiError.BadRequest msg) ∧
          ApiError.status (ApiError.BadRequest msg) = 400) ∧
  (ts ≠ [] → (length ts ≤ 500)%nat →
   (redis = None → batch redis kind q headers = Err ApiError.Redis) ∧
   ∀ contents, redis = Some contents →
   let found t := contents !! SnapshotStore.key kind t in
   match Accept.from_headers headers with
   | Accept.Json =>
       ∃ m, (∀ t, m !! t = if decide (t ∈ ts) then Some (batch_value (found t)) else None) ∧
            batch redis kind q headers =
              (Response.mk (bs "application/json") None None <$>
                ok_or (json_to_vec m) (ApiError.Internal "json"))
   | Accept.MessagePack =>
       ∃ m, (∀ t, m !! t = if decide (t ∈ ts) then Some (found t) else None) ∧
            batch redis kind q headers =
              (Response.mk (bs "application/msgpack") None None <$>
                ok_or (msgpack_to_vec m) (ApiError.Internal "msgpack"))
   end).
Proof.
  cbv zeta. unfold batch. set (ts := csv q). split.
  - intros Hts. case_bool_decide as He; [by eexists|].
    destruct Hts as [|Hl]; [done|]. unfold MAX_BATCH.
    rewrite (proj2 (Nat.ltb_lt _ _) Hl). by eexists.
  - intros Hne Hl. rewrite bool_decide_eq_false_2 by done. unfold MAX_BATCH.
    rewrite (proj2 (Nat.ltb_ge _ _) Hl). unfold store_get_batch.
    rewrite bool_decide_eq_false_2 by done. split; [by intros ->|].
    intros contents ->. cbn [ok_or fmap result_fmap mbind result_bind].
    unfold SnapshotStore.get_batch. rewrite bool_decide_eq_false_2 by done.
    destruct (Accept.from_headers headers).
    + eexists. split.
      * intros t. rewrite (lookup_fill_zip (λ t, contents !! SnapshotStore.key kind t) batch_value). by rewrite lookup_empty.
      * cbn zeta. by destruct (json_to_vec _).
    + eexists. split.
      * intros t. rewrite (lookup_fill_zip (λ t, contents !! SnapshotStore.key kind t) (λ x, x)). by rewrite lookup_empty.
      * cbn zeta. by destruct (msgpack_to_vec _).
Qed.
End serving.

(** ** Witnesses *)

Section witnesses.
#[local] Existing Instance header_text_reference.
#[local] Instance payload_hash_reference : PayloadHash := λ b, foldl (λ h c, h * 31 + u8 c) 7 b.
(** Values kept as their bytes, a map as its size. *)
#[local] Instance serialisers_reference : Serialisers := {|
  JsonValue := bytes;
  from_slice b := Some b;
  json_null := bs "null";
  raw_hex b := b;
  json_to_vec m := Some (dec_print (Z.of_nat (size m)));
  msgpack_to_vec m := Some (dec_print (Z.of_nat (size m)));
|}.

Definition request (authorization : string) : HeaderMap.t :=
  HeaderMap.mk (Some (bs authorization)) None.
Definition sample_api : ApiConfig.t :=
  ApiConfig.with_tokens (parse_tokens (Some (bs " s3cret , other"))) ApiConfig.default.

Lemma require_token_exact_witness :
  require_token (request "Bearer s3cret") sample_api = Ok (bs "s3cret").
Proof.
  destruct (@require_token_exact _ header_text_reference_spec (request "Basic x") sample_api (bs "s3cret")
    (bs " s3cret , other") None) as (_ & _ & _ & Hok).
  apply Hok.
  - apply (bool_decide_eq_true_1 (_ ∈ _)). vm_compute. reflexivity.
  - apply (bool_decide_eq_true_1 (is_Some _)). vm_compute. reflexivity.
Defined.

Lemma api_serves_published_witness :
  quote_single (request "Bearer s3cret") sample_api (bs "PETR4")
    (Some (Redis.contents 9 (FanoutPublisher.apply_redis true 5
      (FanoutPublisher.publish None true true (quote_key "PETR4") (bs "q")).2 Redis.empty)))
  = Ok (snapshot_response Accept.Json (bs "q")).
Proof.
  destruct (api_serves_published (request "Bearer s3cret") sample_api (bs "s3cret")
    (quote_key "PETR4") (bs "PETR4") (bs "q") None true Redis.empty 5 9) as [Hs _];
    [vm_compute; reflexivity|vm_compute; reflexivity|].
  destruct Hs as (Hs & _); [vm_compute; reflexivity|].
  rewrite Hs. rewrite decide_True by reflexivity. vm_compute. reflexivity.
Defined.

Lemma batch_exact_witness :
  batch (Some ∅) SnapshotKind.Quote (bs "PETR4, VALE3,,PETR4") (request "Basic x") =
    Ok (Response.mk (bs "application/json") None None (bs "2")).
Proof.
  destruct (batch_exact (Some ∅) SnapshotKind.Quote (bs "PETR4, VALE3,,PETR4") (request "Basic x")) as [_ Hb].
  destruct Hb as [_ Hb]; [vm_compute; discriminate|vm_compute; lia|].
  destruct (Hb ∅ eq_refl) as (m & Hm & ->).
  assert (m = <[bs "PETR4" := bs "null"]> (<[bs "VALE3" := bs "null"]> ∅)) as ->.
  { apply map_eq. intros t. rewrite Hm.
    destruct (decide (t = bs "PETR4")) as [->|H1].
    - rewrite lookup_insert_eq, decide_True; [reflexivity|].
      apply (bool_decide_eq_true_1 (_ ∈ _)). vm_compute. reflexivity.
    - rewrite lookup_insert_ne by congruence. destruct (decide (t = bs "VALE3")) as [->|H2].
      + rewrite lookup_insert_eq, decide_True; [reflexivity|].
        apply (bool_decide_eq_true_1 (_ ∈ _)). vm_compute. reflexivity.
      + rewrite lookup_insert_ne by congruence. rewrite lookup_empty.
        rewrite decide_False; [reflexivity|].
        assert (csv (bs "PETR4, VALE3,,PETR4") = [bs "PETR4"; bs "VALE3"; bs "PETR4"]) as ->
          by (vm_compute; reflexivity).
        intros [He|[He|[He|He]%elem_of_cons]%elem_of_cons]%elem_of_cons;
          [exact (H1 He)|exact (H2 He)|exact (H1 He)|by apply elem_of_nil in He]. }
  vm_compute. reflexivity.
Defined.
End witnesses.
