(* ===== verification/Server.v ===== *)
(** * The api-server process ([bin/api-server/src/main.rs], [api-server/src/router.rs],
    the route table of [http/handlers.rs])

    [start] is [main] up to serving: the environment, telemetry, the router and
    the listener, each with what ends the process. [handle] is a request behind
    the extractors, [respond] one they may refuse. What axum and tower-http
    accept, and what axum answers itself, are parameters. *)

From S2P Require Import Prelude RustInt RustStr RustNet Fanout RuntimeConfig Observability Api.

(** Whether [Router::route] takes a path, where it panics otherwise, and whether
    a text is a header value. *)
Class Axum : Type := {
  route_ok : bytes → bool;
  header_value : bytes → bool;
}.

Definition segments (path : bytes) : list bytes := split_on "/"%byte path.

(** axum 0.8, the version of the lock file, takes captures in braces and
    refuses paths with a segment that starts with a colon or an asterisk, the
    syntax of its older versions. *)
Class AxumSpec `{Axum} : Prop :=
  route_rejects_old_captures path seg rest :
    (":"%byte :: seg) ∈ segments path ∨ ("*"%byte :: rest) ∈ segments path → route_ok path = false.

(** The check of axum, and visible ASCII for header values. *)
Definition old_capture (seg : bytes) : bool :=
  match seg with c :: _ => bool_decide (c = ":"%byte ∨ c = "*"%byte) | [] => false end.
Definition axum_reference : Axum := {|
  route_ok path := negb (existsb old_capture (segments path));
  header_value v := forallb (λ b, byte_in 32 126 b || (u8 b =? 9)) v;
|}.

Lemma axum_reference_spec : @AxumSpec axum_reference.
Proof.
  intros path seg rest Hin. cbn. apply negb_false_iff, existsb_exists.
  destruct Hin as [Hin|Hin]; eexists; (split; [by apply list_elem_of_In|done]).
Qed.

Module Endpoint.
Inductive t : Type :=
  | Health
  | QuoteSingle
  | QuoteBatch
  | BookSingle
  | BookBatch
  | Trades.
End Endpoint.

Module CorsLayer.
Inductive t : Type :=
  | VeryPermissive
  | AllowOrigin (origins : list bytes).
End CorsLayer.

Module Server.

(** The [route] calls of [build_http_routes]. *)
Definition routes : list (bytes * Endpoint.t) :=
  [(bs "/v1/health", Endpoint.Health);
   (bs "/v1/quote/:ticker", Endpoint.QuoteSingle);
   (bs "/v1/quote", Endpoint.QuoteBatch);
   (bs "/v1/book/:ticker", Endpoint.BookSingle);
   (bs "/v1/book", Endpoint.BookBatch);
   (bs "/v1/trades/:ticker", Endpoint.Trades)].

Module StartError.
Inductive t : Type :=
  | ApiBind
  | Observability (e : ObservabilityError.t)
  | RedisUrlMissing
  | Router (e : ApiError.t)
  | Listen.
End StartError.

(** A call that returns, fails, or panics. *)
Inductive outcome (A : Type) : Type :=
  | Returns (a : A)
  | Exits (e : StartError.t)
  | Panics.
#[global] Arguments Returns {A} a.
#[global] Arguments Exits {A} e.
#[global] Arguments Panics {A}.

#[global] Instance outcome_ret : MRet outcome := λ A, Returns.
#[global] Instance outcome_bind : MBind outcome := λ A B k m,
  match m with Returns a => k a | Exits e => Exits e | Panics => Panics end.
Definition of_result {E A} (f : E → StartError.t) (r : result E A) : outcome A :=
  match r with Ok a => Returns a | Err e => Exits (f e) end.

Section server.
Context `{!Axum, !Telemetry}.

Fixpoint add_routes (table : list (bytes * Endpoint.t)) : outcome (list (bytes * Endpoint.t)) :=
  match table with
  | [] => Returns []
  | (path, e) :: table' =>
      if route_ok path then rest ← add_routes table'; mret ((path, e) :: rest) else Panics
  end.
Definition build_http_routes : outcome (list (bytes * Endpoint.t)) := add_routes routes.

(** [allow_origin] panics when the list holds the wildcard. *)
Definition cors_layer (cfg : ApiConfig.t) : outcome CorsLayer.t :=
  if bool_decide (ApiConfig.cors_allowed_origins cfg = []) then Returns CorsLayer.VeryPermissive
  else
    let origins := filter (λ o, header_value o = true) (ApiConfig.cors_allowed_origins cfg) in
    if bool_decide (bs "*" ∈ origins) then Panics else Returns (CorsLayer.AllowOrigin origins).

(** [SnapshotStore::connect]: [redis_opens] is whether the redis client takes the
    URL; no connection is tried. *)
Definition connect_store (redis_opens : bytes → bool) (redis_url : bytes) : result ApiError.t () :=
  if redis_opens redis_url then Ok () else Err ApiError.Redis.
Definition build_router (redis_opens : bytes → bool) (cfg : ApiConfig.t)
    : outcome (list (bytes * Endpoint.t) * CorsLayer.t) :=
  _ ← of_result StartError.Router (connect_store redis_opens (ApiConfig.redis_url cfg));
  router ← build_http_routes;
  layer ← cors_layer cfg;
  mret (router, layer).

Definition parse_cors_origins (api_cors_origins : option bytes) : list bytes :=
  csv (default [] api_cors_origins).

Definition observability_config (env : environment) : ObservabilityConfig.t :=
  ObservabilityConfig.mk (env_or env "LOG_FILTER" "info")
    (match env_var env "LOG_JSON" with Some v => bool_decide (v ≠ bs "0") | None => true end)
    (Some (env_or env "API_METRICS_BIND" "0.0.0.0:9101")).

Definition api_config (env : environment) (redis_url : bytes) : ApiConfig.t :=
  ApiConfig.mk redis_url (env_or env "NATS_URL" "nats://127.0.0.1:4222")
    (parse_tokens (env_var env "API_TOKENS")) None
    (v ← env_var env "API_RATE_LIMIT"; int_from_str 0 u32_max v)
    5000 (parse_cors_origins (env_var env "API_CORS_ORIGINS")).

(** The process, once it serves. *)
Record serving : Type := mk_serving {
  address : SocketAddr.t;
  config : ApiConfig.t;
  router : list (bytes * Endpoint.t);
  cors : CorsLayer.t;
}.

Definition start (env : environment) (redis_opens : bytes → bool) (binds : SocketAddr.t → bool)
    : outcome serving :=
  bind ← of_result id (ok_or (AddrParser.parse (env_or env "API_BIND" "0.0.0.0:8080"))
                         StartError.ApiBind);
  _ ← of_result StartError.Observability (init_global (observability_config env));
  redis_url ← of_result id (ok_or (env_var env "REDIS_URL") StartError.RedisUrlMissing);
  let cfg := api_config env redis_url in
  '(router, layer) ← build_router redis_opens cfg;
  if binds bind then mret (mk_serving bind cfg router layer) else Exits StartError.Listen.
End server.

(** A request behind the extractors of its handler. *)
Inductive call : Type :=
  | Health
  | QuoteSingle (ticker : bytes)
  | QuoteBatch (tickers : bytes)
  | BookSingle (ticker : bytes)
  | BookBatch (tickers : bytes)
  | Trades (ticker : bytes) (limit : option Z) (since : option bytes).
#[global] Instance call_eq_dec : EqDecision call.
Proof. solve_decision. Defined.

(** The JSON of the one field of [HealthBody]. *)
Definition health : Response.t :=
  Response.mk (bs "application/json") None None
    (bs "{" ++ [x22] ++ bs "status" ++ [x22] ++ bs ":" ++ [x22] ++ bs "ok" ++ [x22] ++ bs "}").

Definition handle `{HeaderText, PayloadHash, Serialisers}
    (c : call) (headers : HeaderMap.t) (cfg : ApiConfig.t) (redis : option (gmap bytes bytes))
    : result ApiError.t Response.t :=
  match c with
  | Health => Ok health
  | QuoteSingle ticker => quote_single headers cfg ticker redis
  | QuoteBatch tickers => quote_batch headers cfg tickers redis
  | BookSingle ticker => book_single headers cfg ticker redis
  | BookBatch tickers => book_batch headers cfg tickers redis
  | Trades ticker limit since => trades headers cfg ticker limit since redis
  end.

(** What a client gets: the refusal of an extractor, or the result of the
    handler. axum decodes the path and the query of a request before it calls
    the handler, and answers itself when it cannot; what it answers then is a
    parameter. *)
Inductive reply (R : Type) : Type :=
  | Rejected (r : R)
  | Handled (x : result ApiError.t Response.t).
#[global] Arguments Rejected {R} r.
#[global] Arguments Handled {R} x.

Definition respond `{HeaderText, PayloadHash, Serialisers} {R : Type} (x : result R call)
    (headers : HeaderMap.t) (cfg : ApiConfig.t) (redis : option (gmap bytes bytes)) : reply R :=
  match x with
  | Err r => Rejected r
  | Ok c => Handled (handle c headers cfg redis)
  end.
End Server.

Section correctness.
Context `{AxumSpec, !Telemetry}.
Import Server.

Lemma add_routes_panics table path e :
  (path, e) ∈ table → route_ok path = false → add_routes table = Panics.
Proof.
  intros Hin Hno. induction table as [|[p0 e0] table IH]; [by apply elem_of_nil in Hin|].
  cbn [add_routes]. apply elem_of_cons in Hin as [Heq|Hin].
  - injection Heq as <- <-. by rewrite Hno.
  - destruct (route_ok p0); [|done]. by rewrite IH.
Qed.

Lemma routes_refused : build_http_routes = Panics.
Proof.
  apply (add_routes_panics _ (bs "/v1/quote/:ticker") Endpoint.QuoteSingle).
  - right. left.
  - apply (route_rejects_old_captures _ (bs "ticker") []). left.
    apply (bool_decide_eq_true_1 (_ ∈ _)). vm_compute. reflexivity.
Qed.

(** (C33) The api-server never serves. Its routes are written in the capture
    syntax of axum 0.7, which the axum 0.8 of the lock file refuses with a panic:
    whatever the environment, [main] ends before it listens, and it ends with
    that panic exactly when it gets as far as building the router, that is when
    the bind address is literal, telemetry can be set up and Redis has a usable
    URL. *)
Theorem api_server_never_serves (env : environment) (redis_opens : bytes → bool)
    (binds : SocketAddr.t → bool) :
  (∀ s, start env redis_opens binds ≠ Returns s) ∧
  (start env redis_opens binds = Panics ↔
     is_Some (AddrParser.parse (env_or env "API_BIND" "0.0.0.0:8080")) ∧
     (∃ h, init_global (observability_config env) = Ok h) ∧
     ∃ url, env_var env "REDIS_URL" = Some url ∧ redis_opens url = true).
Proof.
  unfold start.
  destruct (AddrParser.parse (env_or env "API_BIND" "0.0.0.0:8080")) as [bind|]; cbn;
    [|split; [done|]; split; [done|by intros [[? ?] _]]].
  destruct (init_global (observability_config env)) as [h|e]; cbn;
    [|split; [done|]; split; [done|by intros (_ & [? ?] & _)]].
  destruct (env_var env "REDIS_URL") as [url|]; cbn;
    [|split; [done|]; split; [done|by intros (_ & _ & ? & ? & _)]].
  unfold build_router, connect_store. cbn [ApiConfig.redis_url api_config]. rewrite routes_refused.
  destruct (redis_opens url) eqn:Hopen; cbn [of_result mbind outcome_bind].
  - split; [done|]. split; [|done]. intros _.
    split_and!; [by eexists|by exists h|by exists url].
  - split; [done|]. split; [done|]. intros (_ & _ & u & [= <-] & Hu). congruence.
Qed.
End correctness.

Section access.
Context `{HeaderTextSpec, !PayloadHash, !Serialisers}.
Import Server.

Lemma handle_token c headers cfg redis :
  c ≠ Health → ∃ k, handle c headers cfg redis = (require_token headers cfg ≫= k).
Proof. destruct c; intros Hc; [done|..]; by eexists. Qed.

(** The refusal of a request without a usable token. *)
Definition refusal (headers : HeaderMap.t) : ApiError.t :=
  match HeaderMap.authorization headers with
  | None => ApiError.MissingAuth
  | Some _ => ApiError.InvalidToken
  end.

Lemma handle_refused c headers cfg redis :
  c ≠ Health → (∀ token, bears headers token → token ∉ ApiConfig.valid_tokens cfg) →
  handle c headers cfg redis = Err (refusal headers).
Proof.
  intros Hc Hno. destruct (handle_token c headers cfg redis Hc) as [k ->].
  destruct (require_token headers cfg) as [token|e] eqn:Ht; cbn.
  - apply require_token_Ok in Ht as [Hb Hin]. by destruct (Hno token Hb).
  - by apply require_token_Err in Ht as ->.
Qed.

(** (C32) No data without a token. Data is only ever answered to the health
    check or to a request whose authorization header bears a configured token
    behind its scheme. A request that axum's extractors decode, other than the
    health check, and that bears no configured token is refused whatever it
    asks for and whatever Redis holds, as missing authorization when it has no
    such header and as an invalid token otherwise, in both cases with status
    401 (the documents say 403 for the second). A server started without
    [API_TOKENS] refuses every such request. The token is the first thing the
    handlers look at but not the first thing the server does: a request whose
    path or query axum cannot decode is answered by axum, with or without one. *)
Theorem data_needs_token {R : Type} (x : result R call) (headers : HeaderMap.t) (cfg : ApiConfig.t)
    (redis : option (gmap bytes bytes)) (env : environment) (url : bytes) :
  (∀ r, respond x headers cfg redis = Handled (Ok r) →
     x = Ok Health ∨ ∃ token, bears headers token ∧ token ∈ ApiConfig.valid_tokens cfg) ∧
  (∀ c, x = Ok c → c ≠ Health →
     ((∀ token, bears headers token → token ∉ ApiConfig.valid_tokens cfg) →
      respond x headers cfg redis = Handled (Err (refusal headers))) ∧
     (env_var env "API_TOKENS" = None →
      respond x headers (api_config env url) redis = Handled (Err (refusal headers)))) ∧
  ApiError.status (refusal headers) = 401 ∧
  (∀ rejection, x = Err rejection → respond x headers cfg redis = Rejected rejection).
Proof.
  split_and!.
  - intros r. destruct x as [c|]; [|done]. cbn. intros [= Hr].
    destruct (decide (c = Health)) as [->|Hc]; [by left|]. right.
    destruct (handle_token c headers cfg redis Hc) as [k Hk]. rewrite Hk in Hr.
    destruct (require_token headers cfg) as [token|] eqn:Ht; [|done].
    exists token. by apply require_token_Ok.
  - intros c -> Hc. cbn. split.
    + intros Hno. by rewrite handle_refused.
    + intros Hnone. rewrite handle_refused; [done|done|]. intros token _ Hin. revert Hin.
      cbn. rewrite Hnone. apply (bool_decide_eq_false_1 (_ ∈ _)). vm_compute. reflexivity.
  - unfold refusal. by destruct (HeaderMap.authorization headers).
  - by intros rejection ->.
Qed.
End access.

(** ** Witnesses *)

Section witnesses.
#[local] Existing Instance header_text_reference.
#[local] Existing Instance axum_reference.
#[local] Existing Instance telemetry_reference.
#[local] Instance payload_hash_zero : PayloadHash := λ _, 0.
#[local] Instance serialisers_bytes : Serialisers := {|
  JsonValue := bytes;
  from_slice b := Some b;
  json_null := bs "null";
  raw_hex b := b;
  json_to_vec m := None;
  msgpack_to_vec m := None;
|}.
Import Server.

Definition redis_only : environment := {[ bs "REDIS_URL" := bs "redis://127.0.0.1/" ]}.

Lemma api_server_never_serves_witness :
  start redis_only (λ _, true) (λ _, true) = Panics.
Proof.
  apply (@api_server_never_serves axum_reference axum_reference_spec telemetry_reference
    redis_only (λ _, true) (λ _, true)).
  split; [eexists; vm_compute; reflexivity|].
  split; [eexists; vm_compute; reflexivity|].
  exists (bs "redis://127.0.0.1/"). split; [vm_compute; reflexivity|reflexivity].
Defined.

(** A guessed token, against a server with a token and one without. *)
Lemma data_needs_token_witness :
  respond (R := bytes) (Ok (QuoteSingle (bs "PETR4"))) (request "Bearer guess") sample_api None =
    Handled (Err ApiError.InvalidToken) ∧
  respond (R := bytes) (Ok (BookBatch (bs "PETR4,VALE3"))) (request "Bearer guess")
    (api_config ∅ (bs "redis://127.0.0.1/")) (Some ∅) = Handled (Err ApiError.InvalidToken).
Proof.
  destruct (@data_needs_token _ header_text_reference_spec payload_hash_zero serialisers_bytes bytes
    (Ok (QuoteSingle (bs "PETR4"))) (request "Bearer guess") sample_api None ∅ (bs "redis://127.0.0.1/"))
    as (_ & H1 & _).
  destruct (@data_needs_token _ header_text_reference_spec payload_hash_zero serialisers_bytes bytes
    (Ok (BookBatch (bs "PETR4,VALE3"))) (request "Bearer guess") sample_api (Some ∅) ∅
    (bs "redis://127.0.0.1/")) as (_ & H2 & _).
  split.
  - destruct (H1 _ eq_refl) as [Ha _]; [discriminate|]. apply Ha.
    intros token (v & rest & [= <-] & _ & Hs & -> & _).
    destruct Hs as [Hs|Hs]; vm_compute in Hs; [injection Hs as <-|discriminate Hs].
    apply (bool_decide_eq_false_1 (_ ∈ _)). vm_compute. reflexivity.
  - destruct (H2 _ eq_refl) as [_ Hb]; [discriminate|]. apply Hb. reflexivity.
Defined.
End witnesses.
