(* ===== verification/Serving.v ===== *)
(** * From a publication to an answer

    The daemon's coalescer and publisher ([fanout]) in front of Redis, and the
    api-server's quote handler ([api-server/src/http/handlers.rs]) behind it:
    what a request is answered, as a function of what was submitted, of the
    writes that failed and of the times of the others. *)

From S2P Require Import Prelude RustInt RustStr Fanout Sinks Api.
Import SinkCoalescer.

Section serving.
Context `{HeaderText, PayloadHash, Serialisers}.

Definition valid_key (key : PublishKey.t) : Prop := utf8_valid (PublishKey.ticker key) = true.

Lemma get_set_key sk ticker ttl redis call now :
  valid_key call.1.1 → utf8_valid ticker = true →
  SnapshotStore.get sk ticker (Redis.contents now (set_key ttl redis call)) =
    if decide (call.1.1 = PublishKey.mk (SnapshotKind.kind sk) ticker)
    then if Redis.live now (Redis.deadline call.2 ttl) then Some call.1.2 else None
    else SnapshotStore.get sk ticker (Redis.contents now redis).
Proof. intros Hk Ht. by apply (get_after_publish call.1.1 ttl true call.1.2 redis call.2 now sk ticker). Qed.

(** The writes for a key, and the payload of the last one while it lives. *)
Definition writes_to (key : PublishKey.t) (written : list (PublishKey.t * bytes * Z))
    : list (PublishKey.t * bytes * Z) := filter (λ c, c.1.1 = key) written.
Definition unexpired (ttl : option Z) (now : Z) (c : PublishKey.t * bytes * Z) : option bytes :=
  if Redis.live now (Redis.deadline c.2 ttl) then Some c.1.2 else None.

(** Redis holds the last payload written for a key, until it expires. *)
Lemma get_last sk ticker ttl now written :
  Forall (λ c, valid_key c.1.1) written → utf8_valid ticker = true →
  SnapshotStore.get sk ticker (Redis.contents now (foldl (set_key ttl) Redis.empty written)) =
    (last (writes_to (PublishKey.mk (SnapshotKind.kind sk) ticker) written) ≫= unexpired ttl now).
Proof.
  intros Hk Ht. unfold writes_to. induction written as [|[[k v] at_] written IH] using rev_ind.
  { cbn [foldl]. unfold SnapshotStore.get, Redis.contents, Redis.empty. by rewrite lookup_omap, lookup_empty. }
  apply Forall_app in Hk as [Hk [Hkv _]%Forall_cons]. rewrite foldl_app. cbn [foldl].
  rewrite get_set_key by done. cbn [fst snd]. rewrite filter_app, filter_cons, filter_nil. cbn [fst].
  case_decide; cbn.
  - by rewrite last_snoc.
  - rewrite app_nil_r. by apply IH.
Qed.

Lemma writes_to_payloads key written : snd <$> (writes_to key written).*1 = for_key key written.*1.
Proof.
  unfold writes_to, for_key. induction written as [|[[k v] at_] written IH]; [done|].
  cbn [fmap list_fmap fst]. rewrite !filter_cons. cbn [fst]. case_decide; [|done]. cbn. by f_equal.
Qed.

(** What is served when no write has expired. *)
Lemma last_unexpired key ttl now written :
  (∀ c, c ∈ written → Redis.live now (Redis.deadline c.2 ttl) = true) →
  (last (writes_to key written) ≫= unexpired ttl now) = last (for_key key written.*1).
Proof.
  intros Hl. rewrite <-writes_to_payloads. rewrite !fmap_last.
  destruct (last (writes_to key written)) as [c|] eqn:Hc; [|done]. cbn. unfold unexpired.
  rewrite Hl; [done|]. apply last_Some_elem_of in Hc. unfold writes_to in Hc.
  by apply list_elem_of_filter in Hc as [_ Hc].
Qed.

Lemma submitted_flush key ops : KeySpec.submitted key (ops ++ [CoalescerOp.Flush]) = KeySpec.submitted key ops.
Proof. unfold KeySpec.submitted. rewrite omap_app. cbn. by rewrite app_nil_r. Qed.

(** Behind a flush the sink's last payload for a key is the last submitted. *)
Lemma last_sent c key ops :
  Coalescer.pending c = ∅ → Coalescer.calls c = [] →
  last (for_key key (Coalescer.calls (CoalescerOp.apply_all (ops ++ [CoalescerOp.Flush]) c))) =
    last (KeySpec.submitted key ops).
Proof.
  intros Hp Hc. destruct (apply_all_key (ops ++ [CoalescerOp.Flush]) key c Hp Hc) as (_ & -> & _).
  destruct (run_flush_last key ops) as (_ & Hl & _).
  destruct (immediate key c); [|done].
  destruct (run_flush_last key (ops ++ [CoalescerOp.Flush])) as (_ & _ & ->). cbn [snd].
  by rewrite submitted_flush.
Qed.

(** The answer to a request for a snapshot. *)
Definition answer (headers : HeaderMap.t) (ticker : bytes) (payload : option bytes)
    : result ApiError.t Response.t :=
  match payload with
  | Some p => Ok (snapshot_response (Accept.from_headers headers) p)
  | None => Err (ApiError.TickerNotFound ticker)
  end.

Lemma quote_single_answer headers cfg token ticker redis :
  require_token headers cfg = Ok token →
  quote_single headers cfg ticker (Some redis) =
    answer headers ticker (SnapshotStore.get SnapshotKind.Quote ticker redis).
Proof.
  intros Ht. unfold quote_single, store_get. rewrite Ht.
  cbn [mbind result_bind ok_or fmap result_fmap].
  by destruct (SnapshotStore.get SnapshotKind.Quote ticker redis).
Qed.

Lemma sent_valid c ops :
  Coalescer.pending c = ∅ → Coalescer.calls c = [] →
  (∀ k v, CoalescerOp.Submit k v ∈ ops → valid_key k) →
  Forall (λ p, valid_key p.1) (Coalescer.calls (CoalescerOp.apply_all ops c)) ∧
  map_Forall (λ k _, valid_key k) (Coalescer.pending (CoalescerOp.apply_all ops c)).
Proof.
  intros Hp Hc Hv. unfold CoalescerOp.apply_all. induction ops as [|op ops IH] using rev_ind.
  { cbn. rewrite Hp, Hc. split; [done|apply map_Forall_empty]. }
  rewrite foldl_app. cbn [foldl]. set (c' := foldl _ c ops) in *.
  destruct IH as [IHc IHp]; [intros k v Hx; eapply Hv, elem_of_app; by left|].
  destruct op as [k v|]; cbn [CoalescerOp.apply].
  - assert (valid_key k) as Hk by (eapply Hv, elem_of_app; right; by constructor).
    unfold Coalescer.submit. destruct (_ =? 0); cbn.
    + split; [|done]. apply Forall_app. split; [done|]. by apply Forall_singleton.
    + split; [done|]. by apply map_Forall_insert_2.
  - cbn. split; [|apply map_Forall_empty]. apply Forall_app. split; [done|].
    apply Forall_forall. intros [k v] Hx%elem_of_map_to_list. exact (IHp k v Hx).
Qed.

Lemma written_valid (sent : list (PublishKey.t * bytes)) half answers :
  Forall (λ c, valid_key c.1) sent → Forall (λ c, valid_key c.1.1) (through half sent answers).
Proof.
  rewrite !Forall_forall. intros Hv c Hc. apply (Hv c.1).
  eapply elem_of_sublist; [|apply (through_sublist half sent answers)]. by apply list_elem_of_fmap_2.
Qed.

(** A payload that is served was sent. *)
Lemma served_sent key ttl now sent half answers v :
  (last (writes_to key (through half sent answers)) ≫= unexpired ttl now) = Some v → v ∈ for_key key sent.
Proof.
  intros (c & Hc & Hu)%bind_Some. unfold unexpired in Hu. destruct (Redis.live _ _); [|done].
  injection Hu as <-. apply last_Some_elem_of in Hc. unfold writes_to in Hc.
  apply list_elem_of_filter in Hc as [Hk Hc]. unfold for_key. apply list_elem_of_fmap_2, list_elem_of_filter.
  split; [done|]. eapply elem_of_sublist; [|apply (through_sublist half sent answers)].
  by apply list_elem_of_fmap_2.
Qed.

(** The reply from servers that have been sent some calls. *)
Lemma reply_after headers cfg token ticker sent p answers now :
  Forall (λ c, valid_key c.1) sent → utf8_valid ticker = true → require_token headers cfg = Ok token →
  let ttl := FanoutPublisher.snapshot_ttl_seconds p in
  let key := PublishKey.mk Kind.Quote ticker in
  let reply := quote_single headers cfg ticker
    (Some (Redis.contents now (Servers.redis (after sent (Servers.start p answers))))) in
  let written := through Answer.redis_ok sent answers in
  reply = answer headers ticker (last (writes_to key written) ≫= unexpired ttl now) ∧
  ((∀ i, (i < length sent)%nat → Answer.redis_ok (answers i) = true ∧
      Redis.live now (Redis.deadline (Answer.time (answers i)) ttl) = true) →
   reply = answer headers ticker (last (for_key key sent))).
Proof.
  intros Hv Ht Htok ttl key reply written.
  assert (reply = answer headers ticker (last (writes_to key written) ≫= unexpired ttl now)) as Hr.
  { unfold reply. rewrite (quote_single_answer _ _ _ _ _ Htok), (proj2 (servers_after sent _)).
    cbn [Servers.start Servers.redis Servers.answers Servers.publisher]. by rewrite get_last by (done || by apply written_valid). }
  split; [exact Hr|]. intros Hok. rewrite Hr, last_unexpired.
  - unfold written. rewrite through_all; [done|]. intros i Hi. by apply Hok.
  - intros c Hc. apply through_times in Hc as (i & Hi & ->). by apply Hok.
Qed.

End serving.

(** ** Witness *)

Section witnesses.
#[local] Existing Instance header_text_reference.
#[local] Existing Instance payload_hash_reference.
#[local] Existing Instance serialisers_reference.

(** Two quotes of one ticker within a window, and one of another. *)
Definition submissions : list CoalescerOp.t :=
  [CoalescerOp.Submit (quote_key "PETR4") (bs "1"); CoalescerOp.Submit (quote_key "VALE3") (bs "2");
   CoalescerOp.Submit (quote_key "PETR4") (bs "3")].

(** NATS refuses every message; the Redis writes go through, or the second does
    not; the snapshots live for a minute. *)
Definition servers_of (redis_ok : nat → bool) : Servers.t :=
  Servers.start (FanoutPublisher.mk (Some 60)) (λ i, Answer.mk 5000 false (redis_ok i)).

End witnesses.
