(* ===== verification/Feed.v ===== *)
(** * From the socket to the engines

    The reader thread ([cedro-client/src/reader.rs]) feeding the worker pool
    ([ingest-daemon/src/pipeline.rs]): what the bytes of the feed alone say
    about the engines, whatever the cuts of the reads, the number of workers
    and the schedule. *)

From S2P Require Import Prelude RustInt RustStr RustFloat Externs Enums Types Frame Scanner Parser.
From S2P Require Import OrderBook BookEngine Quote TradeBuf Wal StagedTrade TradeWriter Fanout.
From S2P Require Import Commands Handshake Reader RawArchive AssetCache Pipeline.

Section feed.
Context `{TradeTable, !AHash, !StagedTradeExt, !Memchr, !MemchrSpec}.
Import Pipeline Worker.

(** The messages in a byte stream. *)
Definition stream_messages (stream : bytes) : list ProtocolMessage.t :=
  messages (split_frames stream).1.

(** The quote updates of a ticker in a byte stream. *)
Definition stream_quotes (ticker : bytes) (stream : bytes) : list (bytes * Z * QuoteDiff) :=
  of_ticker ticker (omap quote_of (stream_messages stream)).

(** A daemon run: the reader's reads, then a schedule of the pool over the
    frames it delivered, to the end. *)
Definition daemon_run (events : list (bool * Reader.read)) (n shards cap : nat)
    (writer : option TradeWriter.t) (sched : list event) (s : state) : Prop :=
  let fs := Reader.delivered (Reader.reader_loop events None).2 in
  run sched (start n fs (build shards cap writer)) = Some s ∧ frames s = [] ∧ in_hand s = [].

Lemma run_log_messages events n shards cap writer sched s :
  daemon_run events n shards cap writer sched s →
  let log := dispatched sched (start n (Reader.delivered (Reader.reader_loop events None).2)
                                 (build shards cap writer)) in
  log ≡ₚ stream_messages (bytes_read events) ∧
  engines_after log (engine (build shards cap writer)) (engine (pipe s)) ∧
  (n = 1%nat → log = stream_messages (bytes_read events)).
Proof.
  intros (Hr & Hf & Hh).
  assert (Reader.delivered (Reader.reader_loop events None).2 =
    (split_frames (bytes_read events)).1) as Hd.
  { unfold Reader.reader_loop. by rewrite loop_spec by constructor. }
  cbn zeta. split_and!.
  - pose proof (run_once _ _ _ Hr) as Ho. rewrite in_hand_start, Hh, Hf in Ho.
    cbn [app start frames] in Ho. rewrite Hd in Ho at 1.
    change (messages []) with (@nil ProtocolMessage.t) in Ho. by rewrite app_nil_r in Ho.
  - by apply run_engines in Hr.
  - intros ->. pose proof (run_in_order sched (start 1 _ _) s eq_refl Hr) as Ho.
    rewrite in_hand_start, Hh, Hf in Ho. cbn [app start frames] in Ho. rewrite Hd in Ho at 1.
    change (messages []) with (@nil ProtocolMessage.t) in Ho. by rewrite app_nil_r in Ho.
Qed.

Lemma of_ticker_Permutation ticker us us' : us ≡ₚ us' → of_ticker ticker us ≡ₚ of_ticker ticker us'.
Proof. intros Hp. unfold of_ticker. by rewrite Hp. Qed.

(** (C2) Every quote of the feed counts, once. However the feed is cut into
    reads, however many workers take the frames and however they are
    scheduled, when the pool has drained the channel a ticker has a quote state
    exactly when the bytes read contain a quote for it, and its version is the
    number of quotes for it in the stream, modulo 2^64. With a single worker the
    whole state is that of the quotes in stream order: the last time, and for
    every field the last value written. *)
Theorem every_quote_counted (events : list (bool * Reader.read)) (n shards cap : nat)
    (writer : option TradeWriter.t) (sched : list event) (s : state) (ticker : bytes) :
  daemon_run events n shards cap writer sched s →
  let quotes := stream_quotes ticker (bytes_read events) in
  let state := Engine.quote (engine (pipe s)) !! ticker in
  (state = None ↔ quotes = []) ∧
  (∀ q, state = Some q → QuoteState.version q = Z.of_nat (length quotes) mod 2 ^ 64) ∧
  (n = 1%nat → ∀ q, state = Some q →
     (∃ tk diff, last quotes = Some (tk, QuoteState.time_hhmmss q, diff)) ∧
     ∀ idx, QuoteState.get idx q = last_write idx (concat quotes.*2)).
Proof.
  intros Hrun. cbn zeta.
  destruct (run_log_messages _ _ _ _ _ _ _ Hrun) as (Hlog & (Hq & _) & Hone).
  set (log := dispatched _ _) in *. cbn [engine build Engine.quote] in Hq.
  set (mine := of_ticker ticker (omap quote_of log)).
  assert (mine ≡ₚ stream_quotes ticker (bytes_read events)) as Hp.
  { apply of_ticker_Permutation. by rewrite Hlog. }
  rewrite Hq, lookup_apply_all. fold mine. unfold state_of.
  destruct (last mine) as [[[tk time] diff]|] eqn:Hl.
  - split_and!.
    + split; [done|]. intros He. rewrite He in Hp. apply Permutation_nil_r in Hp.
      by rewrite Hp in Hl.
    + intros q [= <-]. cbn [QuoteState.version]. by rewrite Hp.
    + intros Hn q [= <-]. assert (mine = stream_quotes ticker (bytes_read events)) as Hm.
      { unfold mine. by rewrite (Hone Hn). }
      rewrite <-Hm. split; [by eexists _, _|]. intros idx. unfold QuoteState.get.
      cbn [QuoteState.fields]. rewrite lookup_writes, lookup_empty. by destruct (last_write _ _).
  - apply last_None in Hl. split_and!; [|done|done]. split; [|done]. intros _.
    rewrite Hl in Hp. by apply Permutation_nil_l in Hp.
Qed.

(** With one worker the daemon is a function of the byte stream. The trade
    window and the book of every ticker are those of the stream's messages in
    order; the cuts of the reads, the timers and the spawned tasks cannot be
    observed in the engines. The pipeline is the one [build] makes, before a
    bootstrap gives its book engine an allow-list. *)
Theorem one_worker_deterministic (events : list (bool * Reader.read)) (shards cap : nat)
    (writer : option TradeWriter.t) (sched : list event) (s : state) (ticker : bytes) :
  daemon_run events 1 shards cap writer sched s →
  let log := stream_messages (bytes_read events) in
  TradeBuf.contents ticker (Engine.trades (engine (pipe s))) =
    foldl (λ w op, TradeOp.window (cap `max` 1) ticker op w) [] (omap trade_of log) ∧
  BookEngine.with_book ticker id (Engine.book (engine (pipe s))) =
    Some (BookSpec.books (spec_run (omap book_of log) BookSpec.new).2 !! ticker).
Proof.
  intros Hrun. cbn zeta.
  destruct (run_log_messages _ _ _ _ _ _ _ Hrun) as (_ & (_ & Ht & flags & Hb) & Hone).
  rewrite (Hone eq_refl) in Ht, Hb. set (log := stream_messages _) in *.
  cbn [engine build Engine.trades Engine.book] in Ht, Hb. split.
  - rewrite Ht. apply contents_apply_all.
  - destruct (run_refines (omap book_of log) (BookEngine.new shards) BookSpec.new) as (e & He & Hr).
    { apply new_refines. }
    rewrite He in Hb. injection Hb as _ <-. apply Hr.
Qed.
End feed.

(** ** Witnesses *)

Section witnesses.
#[local] Existing Instance chrono_reference.
#[local] Existing Instance table_reference.
#[local] Existing Instance ahash_reference.
#[local] Existing Instance memchr_reference.
#[local] Existing Instance memchr_reference_spec.
#[local] Instance blob_reference : StagedTradeExt := λ _, bs "{}".
Import Pipeline Worker.

(** Two quote messages, the first cut by the reads, and a book message. *)
Definition feed_events : list (bool * Reader.read) :=
  [(false, Reader.Data (bs "T:PETR4:110100:2:26."));
   (false, Reader.Data (bs "5!B:PETR4:A:0:A:99.98:500:37:11041130!T:PETR4:110101:2:26.6!"))].
Definition feed_schedule : list event :=
  concat (replicate 3 [Take 0; Dispatch 0 (0, 0)]).
Definition feed_start : state :=
  start 1 (Reader.delivered (Reader.reader_loop feed_events None).2) (build 4 100 None).

Lemma feed_runs : ∃ s, run feed_schedule feed_start = Some s ∧ frames s = [] ∧ in_hand s = [].
Proof.
  destruct (run feed_schedule feed_start) as [s|] eqn:Hr.
  - exists s. split_and!; [done| |].
    + apply (f_equal (fmap frames)) in Hr. vm_compute in Hr. injection Hr as Hr. symmetry. exact Hr.
    + apply (f_equal (fmap in_hand)) in Hr. vm_compute in Hr. injection Hr as Hr. symmetry. exact Hr.
  - apply (f_equal (fmap frames)) in Hr. vm_compute in Hr. discriminate Hr.
Qed.

Lemma every_quote_counted_witness :
  ∃ s, daemon_run feed_events 1 4 100 None feed_schedule s ∧
    (∀ q, Engine.quote (engine (pipe s)) !! bs "PETR4" = Some q →
      QuoteState.version q = 2 ∧
      QuoteState.get 2 q = Some (QuoteFieldValue.Float (f64_lit "26.6"))) ∧
    Engine.quote (engine (pipe s)) !! bs "PETR4" ≠ None.
Proof.
  destruct feed_runs as (s & Hrun). exists s. split; [exact Hrun|].
  destruct (every_quote_counted feed_events 1 4 100 None feed_schedule s (bs "PETR4") Hrun)
    as (Hnone & Hv & Hone).
  split.
  - intros q Hq. destruct (Hone eq_refl q Hq) as (_ & Hget). split.
    + rewrite (Hv q Hq). vm_compute. reflexivity.
    + rewrite Hget. vm_compute. reflexivity.
  - intros Hs. apply Hnone in Hs. vm_compute in Hs. discriminate Hs.
Defined.

Lemma one_worker_deterministic_witness :
  ∃ s, daemon_run feed_events 1 4 100 None feed_schedule s ∧
    BookEngine.with_book (bs "PETR4")
      (λ b, BookEntry.quantity <$> OrderBook.bids (default OrderBook.default b))
      (Engine.book (engine (pipe s))) = Some [500].
Proof.
  destruct feed_runs as (s & Hrun). exists s. split; [exact Hrun|].
  destruct (one_worker_deterministic feed_events 4 100 None feed_schedule s (bs "PETR4") Hrun)
    as (_ & Hb).
  rewrite (with_book_read _ _ _ _ Hb). vm_compute. reflexivity.
Defined.
End witnesses.
