(* ===== verification/Live.v ===== *)
(** * The running daemon: the reader's threads and the worker pool

    [ReaderThreads] ([cedro-client/src/reader.rs]) and [Worker]
    ([ingest-daemon/src/pipeline.rs]) as one machine over the channel between
    them: a worker's [recv] takes the frame the reader sent. [Feed.v] is the same
    path with the reader run to its end first. *)

From S2P Require Import Prelude RustInt RustStr RustFloat RustIo ClientError Externs Enums Types Frame.
From S2P Require Import Scanner Parser OrderBook BookEngine Quote TradeBuf Wal StagedTrade TradeWriter.
From S2P Require Import Fanout Commands Handshake Connection Reader ReaderThreads RawArchive AssetCache.
From S2P Require Import Pipeline Feed.

Module Live.
Section live.
Context `{TradeTable, !AHash, !StagedTradeExt, !Memchr, !Crossbeam (FrameKind.t * bytes)}.

(** The pool's own list of frames stays empty: they come from the channel. *)
Record state : Type := mk {
  threads : ReaderThreads.state;
  pool : Worker.state;
}.

Inductive event : Type :=
  | Threads (ev : ReaderThreads.event)
  | Pool (ev : Worker.event).

Definition with_frames (fs : list (FrameKind.t * bytes)) (p : Worker.state) : Worker.state :=
  Worker.mk_state fs (Worker.held p) (Worker.tasks p) (Worker.pipe p).

(** One step. Receiving is the pool's; a worker leaves its loop only when the
    reader is gone and the channel empty, which nothing observes. *)
Definition step (ev : event) (s : state) : option state :=
  match ev with
  | Threads (ReaderThreads.Recv | ReaderThreads.WorkerExit) => None
  | Threads ev => t ← ReaderThreads.step ev (threads s); Some (mk t (pool s))
  | Pool (Worker.Take i) =>
      match ReaderThreads.step ReaderThreads.Recv (threads s),
            chan_try_recv (ReaderThreads.frames (threads s)) with
      | Some t, (Some f, _) =>
          p ← Worker.step (Worker.Take i) (with_frames [f] (pool s));
          Some (mk t p)
      | _, _ => None
      end
  | Pool ev => p ← Worker.step ev (pool s); Some (mk (threads s) p)
  end.

Fixpoint run (evs : list event) (s : state) : option state :=
  match evs with
  | [] => Some s
  | ev :: evs' => s ← step ev s; run evs' s
  end.

(** [Reader::spawn] and [spawn_workers] over its channel. *)
Definition start (handle : ConnectionHandle.t) (config : ConnectionConfig.t) (workers : nat)
    (p : Pipeline.t) : result ClientError.t state :=
  t ← ReaderThreads.spawn handle config workers true true;
  Ok (mk t (Worker.start workers [] p)).
End live.
End Live.

Section composition.
Context `{TradeTable, !AHash, !StagedTradeExt, !Memchr, !MemchrSpec}.
Context `{!Crossbeam (FrameKind.t * bytes), !CrossbeamSpec (FrameKind.t * bytes)}.
Import Live.
Implicit Types s : state.

(** The pool's part of a schedule. *)
Definition pool_events (evs : list event) : list Worker.event :=
  omap (λ ev, match ev with Pool ev => Some ev | Threads _ => None end) evs.

(** What the steps of the threads leave alone. *)
Lemma threads_received ev (t t' : ReaderThreads.state) :
  ReaderThreads.step ev t = Some t' → ev ≠ ReaderThreads.Recv →
  ReaderThreads.received t' = ReaderThreads.received t.
Proof.
  intros Hs Hne. destruct ev; try done; cbn [ReaderThreads.step] in Hs.
  - unfold ReaderThreads.reader_run in Hs.
    destruct (ReaderThreads.reader t) as [sp|sp|sp|f sp|]; [by injection Hs as <-|done| | |done].
    + destruct (FrameSplitter.next_frame sp) as [[f|] sp']; [|by injection Hs as <-].
      destruct (chan_try_send f _) as [[] c]; by injection Hs as <-.
    + destruct (chan_try_send f _) as [[] c]; [by injection Hs as <-|done|by injection Hs as <-].
  - unfold ReaderThreads.reader_read in Hs. destruct (ReaderThreads.reader t); try done.
    destruct r as [[|b l]| |]; by injection Hs as <-.
  - unfold ReaderThreads.watchdog_run in Hs. destruct (ReaderThreads.watchdog t); [|done].
    destruct (ReaderThreads.stop_flag t); [by injection Hs as <-|].
    destruct pending; [|by injection Hs as <-]. destruct (_ <=? _); by injection Hs as <-.
  - destruct (ReaderThreads.workers t); [done|]. by injection Hs as <-.
  - destruct (ReaderThreads.owner t); [|done..]. by injection Hs as <-.
  - destruct (ReaderThreads.owner t); [done| | |done].
    + destruct (ReaderThreads.reader t); [done..|]. by injection Hs as <-.
    + destruct (ReaderThreads.reader t), (ReaderThreads.watchdog t); try done; by injection Hs as <-.
  - destruct (ReaderThreads.owner t); [|done..]. by injection Hs as <-.
Qed.

Lemma recv_received (t t' : ReaderThreads.state) f c :
  ReaderThreads.step ReaderThreads.Recv t = Some t' →
  chan_try_recv (ReaderThreads.frames t) = (Some f, c) →
  ReaderThreads.received t' = ReaderThreads.received t ++ [f].
Proof.
  cbn [ReaderThreads.step]. intros Hs Hc. rewrite Hc in Hs.
  destruct (ReaderThreads.workers t); [done|]. by injection Hs as <-.
Qed.

(** A step of the pool takes at most the first of its frames, and the rest do
    not matter. *)
Lemma worker_step_frames ev (p p' : Worker.state) fs :
  Worker.step ev p = Some p' → (∀ i, ev ≠ Worker.Take i) →
  Worker.step ev (with_frames fs p) = Some (with_frames fs p').
Proof.
  intros Hs Hne. destruct ev as [i|i now|i| | |]; [by destruct (Hne i)| |..]; cbn [Worker.step] in *.
  - cbn [with_frames Worker.held Worker.pipe Worker.tasks Worker.frames].
    destruct (Worker.held p !! i) as [[msg|]|]; [|done|done].
    destruct (Pipeline.dispatch now msg (Worker.pipe p)) as [[p1 new]|]; [|done]. by injection Hs as <-.
  - cbn [with_frames Worker.held Worker.pipe Worker.tasks Worker.frames].
    destruct (Worker.tasks p !! i); [|done]. by injection Hs as <-.
  - by injection Hs as <-.
  - by injection Hs as <-.
  - by injection Hs as <-.
Qed.

Lemma worker_take_frames i f fs (p p' : Worker.state) :
  Worker.step (Worker.Take i) (with_frames [f] p) = Some p' →
  Worker.step (Worker.Take i) (with_frames (f :: fs) p) = Some (with_frames fs p') ∧
  Worker.frames p' = [].
Proof.
  cbn [Worker.step with_frames Worker.held Worker.pipe Worker.tasks Worker.frames].
  destruct f as [k b], (Worker.held p !! i) as [[|]|]; [done| |done]. by intros [= <-].
Qed.

(** A step, seen from the pool: it receives [new] from the channel. *)
Lemma step_pool ev s s' :
  step ev s = Some s' → Worker.frames (pool s) = [] →
  Worker.frames (pool s') = [] ∧
  ∃ new, ReaderThreads.received (threads s') = ReaderThreads.received (threads s) ++ new ∧
    ∀ rest, Worker.run (pool_events [ev]) (with_frames (new ++ rest) (pool s)) =
      Some (with_frames rest (pool s')).
Proof.
  intros Hs Hf. destruct ev as [ev|ev].
  - assert (∃ t, ReaderThreads.step ev (threads s) = Some t ∧ ev ≠ ReaderThreads.Recv ∧ s' = mk t (pool s))
      as (t & Ht & Hne & ->).
    { destruct ev; cbn [step] in Hs; try done;
        apply bind_Some in Hs as (t & Ht & [= <-]); by exists t. }
    split; [done|]. exists []. rewrite app_nil_r. split; [by eapply threads_received|done].
  - assert ((∃ i, ev = Worker.Take i) ∨ ∀ i, ev ≠ Worker.Take i) as [[i ->]|Hne]
      by (destruct ev as [i| | | | |]; [left; by exists i|by right..]).
    + cbn [step] in Hs. destruct (ReaderThreads.step ReaderThreads.Recv (threads s)) as [t|] eqn:Ht; [|done].
      destruct (chan_try_recv _) as [[f|] c] eqn:Hc; [|done].
      apply bind_Some in Hs as (p & Hp & [= <-]). cbn [threads pool].
      split; [exact (proj2 (worker_take_frames i f [] _ _ Hp))|]. exists [f]. split; [by eapply recv_received|].
      intros rest. cbn [pool_events omap list_omap Worker.run app].
      apply (worker_take_frames i f rest) in Hp as [-> _]. done.
    + assert (∃ p, Worker.step ev (pool s) = Some p ∧ s' = mk (threads s) p) as (p & Hp & ->).
      { destruct ev as [i| | | | |]; [by destruct (Hne i)|..]; cbn [step] in Hs;
          apply bind_Some in Hs as (p & Hp & [= <-]); by exists p. }
      cbn [threads pool]. split.
      * pose proof (worker_step_frames ev (pool s) p [] Hp Hne) as Hw.
        assert (with_frames [] (pool s) = pool s) as Hsame by (rewrite <-Hf; by destruct (pool s)).
        rewrite Hsame, Hp in Hw. injection Hw as ->. done.
      * exists []. split; [by rewrite app_nil_r|]. intros rest. cbn [pool_events omap list_omap Worker.run app].
        by rewrite (worker_step_frames ev _ p rest Hp Hne).
Qed.

Lemma run_pool evs s s' :
  run evs s = Some s' → Worker.frames (pool s) = [] →
  Worker.frames (pool s') = [] ∧
  ∃ new, ReaderThreads.received (threads s') = ReaderThreads.received (threads s) ++ new ∧
    ∀ rest, Worker.run (pool_events evs) (with_frames (new ++ rest) (pool s)) =
      Some (with_frames rest (pool s')).
Proof.
  revert s. induction evs as [|ev evs IH]; intros s; cbn [run].
  { intros [= <-] Hf. split; [done|]. exists []. by rewrite app_nil_r. }
  intros (s1 & Hs & Hr)%bind_Some Hf.
  destruct (step_pool _ _ _ Hs Hf) as (Hf1 & new1 & Hr1 & Hw1).
  destruct (IH s1 Hr Hf1) as (Hf2 & new2 & Hr2 & Hw2). split; [done|].
  exists (new1 ++ new2). split; [by rewrite Hr2, Hr1, (assoc_L (++))|]. intros rest.
  assert (pool_events (ev :: evs) = pool_events [ev] ++ pool_events evs) as ->
    by (apply (omap_app _ [ev])).
  rewrite <-(assoc_L (++)), worker_run_app, Hw1. apply Hw2.
Qed.

Lemma run_threads n evs s s' :
  run evs s = Some s' → accounted n (threads s) → accounted n (threads s').
Proof.
  revert s. induction evs as [|ev evs IH]; intros s; cbn [run]; [by intros [= <-]|].
  intros (s1 & Hs & Hr)%bind_Some Ha. apply (IH s1 Hr).
  destruct ev as [ev|ev]; cbn [step] in Hs.
  - assert (∃ t, ReaderThreads.step ev (threads s) = Some t ∧ s1 = mk t (pool s)) as (t & Ht & ->).
    { destruct ev; try done; apply bind_Some in Hs as (t & Ht & [= <-]); by exists t. }
    by eapply step_accounted.
  - destruct ev; try (apply bind_Some in Hs as (p & _ & [= <-]); done).
    destruct (ReaderThreads.step ReaderThreads.Recv (threads s)) as [t|] eqn:Ht; [|done].
    destruct (chan_try_recv _) as [[f|] c]; [|done].
    apply bind_Some in Hs as (p & _ & [= <-]). cbn [threads]. by eapply step_accounted.
Qed.

(** Nothing is on its way: the reader is between two reads, the channel is
    empty and every worker waits. *)
Definition quiescent s : Prop :=
  match ReaderThreads.reader (threads s) with
  | ReaderThreads.Check _ | ReaderThreads.Reading _ => True
  | _ => False
  end ∧ chan_queue (ReaderThreads.frames (threads s)) = [] ∧ in_hand (pool s) = [].

(** The running daemon's pool is a run of the pool over the frames its workers
    have received, so that every theorem about such runs is one about it: these
    are a prefix of the frames of the bytes read, and all of them when nothing is
    on its way. *)
Theorem live_refines_pool (handle : ConnectionHandle.t) (config : ConnectionConfig.t)
    (n : nat) (p : Pipeline.t) (evs : list event) (s0 s : state) :
  0 < ConnectionConfig.frame_channel_capacity config →
  start handle config n p = Ok s0 → run evs s0 = Some s →
  let frames := (split_frames (ReaderThreads.bytes_in (threads s))).1 in
  ∃ fs, Worker.run (pool_events evs) (Worker.start n fs p) = Some (pool s) ∧
    Worker.frames (pool s) = [] ∧ fs `prefix_of` frames ∧ (quiescent s → fs = frames).
Proof.
  intros Hcap Hstart Hrun frames.
  apply result_bind_Ok in Hstart as (t0 & Hspawn & [= <-]).
  pose proof (spawn_accounted _ _ _ _ Hcap Hspawn) as Ha0.
  pose proof (run_threads _ _ _ _ Hrun Ha0) as ((lost & Hfr & Hlost) & _).
  assert (ReaderThreads.received t0 = []) as Hr0 by (injection Hspawn as <-; done).
  destruct (run_pool _ _ _ Hrun eq_refl) as (Hf & new & Hrec & Hw).
  cbn [threads pool] in *. rewrite Hr0 in Hrec. cbn [app] in Hrec.
  specialize (Hw []). rewrite app_nil_r in Hw. rewrite Hrec in Hfr. fold frames in Hfr.
  exists new. split; [|split_and!].
  - change (with_frames new (Worker.start n [] p)) with (Worker.start n new p) in Hw. rewrite Hw.
    unfold with_frames. rewrite <-Hf. by destruct (pool s).
  - done.
  - rewrite Hfr. by apply prefix_app_r.
  - intros (Hre & Hqu & _). rewrite Hfr, Hqu, Hlost.
    + destruct (ReaderThreads.reader (threads s)); try done; by rewrite !app_nil_r.
    + right. intros E. by rewrite E in Hre.
Qed.

(** (C8) From the socket to the engines, live. Under every interleaving of the
    reader, the watchdog, the workers, their tasks, the timers and a shutdown,
    and at every moment, the engines are those of the messages dispatched so
    far; these and the ones the workers hold are each once the messages in some
    prefix of the frames of the bytes read. Whenever nothing is on its way they
    are all the messages of the bytes read. With one worker they are in the order
    of the stream, so the engines are at every moment those of a prefix of it. *)
Theorem engines_follow_stream (handle : ConnectionHandle.t) (config : ConnectionConfig.t)
    (n : nat) (p : Pipeline.t) (evs : list event) (s0 s : state) :
  0 < ConnectionConfig.frame_channel_capacity config →
  start handle config n p = Ok s0 → run evs s0 = Some s →
  let bytes_read := ReaderThreads.bytes_in (threads s) in
  ∃ log, engines_after log (Pipeline.engine p) (Pipeline.engine (Worker.pipe (pool s))) ∧
    (∃ k, log ++ in_hand (pool s) ≡ₚ messages (take k (split_frames bytes_read).1)) ∧
    (quiescent s → log ≡ₚ stream_messages bytes_read) ∧
    (n = 1%nat →
      log ++ in_hand (pool s) `prefix_of` stream_messages bytes_read ∧
      (quiescent s → log = stream_messages bytes_read)).
Proof.
  intros Hcap Hstart Hrun bytes_read.
  destruct (live_refines_pool _ _ _ _ _ _ _ Hcap Hstart Hrun) as (fs & Hw & Hf & Hpre & Hall).
  fold bytes_read in Hpre, Hall. set (w0 := Worker.start n fs p) in *.
  exists (Worker.dispatched (pool_events evs) w0).
  pose proof (run_once _ _ _ Hw) as Ho. unfold w0 in Ho at 1 2.
  rewrite in_hand_start, Hf, app_nil_r in Ho. cbn [app Worker.start Worker.frames] in Ho.
  assert (quiescent s → in_hand (pool s) = []) as Hquiet by (by intros (_ & _ & Hh)).
  split_and!; [exact (run_engines _ _ _ Hw)|..].
  - exists (length fs). destruct Hpre as [rest ->]. rewrite take_app_length. by symmetry.
  - intros Hq. rewrite (Hquiet Hq), app_nil_r, (Hall Hq) in Ho. by symmetry.
  - intros ->. pose proof (run_in_order (pool_events evs) w0 _ eq_refl Hw) as Hord.
    unfold w0 in Hord at 1 2. rewrite in_hand_start, Hf, app_nil_r in Hord.
    cbn [app Worker.start Worker.frames] in Hord. split.
    + rewrite <-Hord. unfold stream_messages. destruct Hpre as [rest ->]. unfold messages.
      rewrite omap_app. by apply prefix_app_r.
    + intros Hq. rewrite (Hquiet Hq), app_nil_r, (Hall Hq) in Hord. by symmetry.
Qed.
End composition.

(** ** Witness *)

Section witnesses.
#[local] Existing Instance chrono_reference.
#[local] Existing Instance table_reference.
#[local] Existing Instance ahash_reference.
#[local] Existing Instance memchr_reference.
#[local] Existing Instance memchr_reference_spec.
#[local] Instance blob : StagedTradeExt := λ _, bs "{}".
#[local] Instance channel : Crossbeam (FrameKind.t * bytes) := crossbeam_reference _.
#[local] Instance channel_spec : CrossbeamSpec (FrameKind.t * bytes) := crossbeam_reference_spec _.
Import Live.

(** A quote is read, framed, received by the one worker and dispatched. *)
Definition live_start : result ClientError.t state :=
  start (ConnectionHandle.mk 3 4096) narrow_config 1 (Pipeline.build 4 100 None).
Definition live_schedule : list event :=
  [Threads ReaderThreads.ReaderRun;
   Threads (ReaderThreads.ReaderRead (Reader.Data (bs "T:PETR4:110100:2:26.5!T:")));
   Threads ReaderThreads.ReaderRun; Pool (Worker.Take 0); Threads ReaderThreads.ReaderRun;
   Pool (Worker.Dispatch 0 (0, 0))].
Definition at_rest (r : ReaderThreads.reader_at) : bool :=
  match r with ReaderThreads.Check _ | ReaderThreads.Reading _ => true | _ => false end.
Definition observe (s : state) : bool * nat * nat * bytes :=
  (at_rest (ReaderThreads.reader (threads s)),
   length (chan_queue (ReaderThreads.frames (threads s))), length (in_hand (pool s)),
   ReaderThreads.bytes_in (threads s)).

(** The state behind the schedule, as far as it is looked at. *)
Lemma live_observed :
  match live_start with Ok s0 => observe <$> run live_schedule s0 | Err _ => None end =
  Some (true, 0%nat, 0%nat, bs "T:PETR4:110100:2:26.5!T:").
Proof. vm_compute. reflexivity. Qed.

Lemma engines_follow_stream_witness :
  ∃ s0 s, live_start = Ok s0 ∧ run live_schedule s0 = Some s ∧
    engines_after (stream_messages (bs "T:PETR4:110100:2:26.5!T:"))
      (Pipeline.engine (Pipeline.build 4 100 None)) (Pipeline.engine (Worker.pipe (pool s))).
Proof.
  pose proof live_observed as Ho.
  destruct live_start as [s0|e] eqn:Hs0; [|discriminate Ho].
  destruct (run live_schedule s0) as [s|] eqn:Hrun; [|discriminate Ho].
  exists s0, s. split; [reflexivity|]. split; [exact Hrun|].
  unfold observe in Ho. injection Ho as Hrest Hqueue Hhand Hbytes.
  destruct (engines_follow_stream (ConnectionHandle.mk 3 4096) narrow_config 1
    (Pipeline.build 4 100 None) live_schedule s0 s) as (log & Hlog & _ & _ & Hone);
    [reflexivity|exact Hs0|exact Hrun|].
  destruct (Hone eq_refl) as [_ Heq]. rewrite Hbytes in Heq. rewrite Heq in Hlog; [exact Hlog|].
  split_and!.
  - destruct (ReaderThreads.reader (threads s)); (exact I || discriminate Hrest).
  - apply nil_length_inv. exact Hqueue.
  - apply nil_length_inv. exact Hhand.
Defined.
End witnesses.
