(* ===== verification/Publishing.v ===== *)
(** * The running daemon with its coalescer at its await points

    [Live.v] has every submission and every flush of the coalescer as one step.
    Here the daemon's [submit] and [flush_once] ([fanout/src/coalescer.rs]) run up
    to each publish they await, as in [Coalescing.v], while the reader, the
    workers, the other tasks and the timers go on. The machine is simulated by
    the one of [Live.v], so that what is proved of that one holds of this one.

    The writer's calls need no such treatment: nothing in the daemon calls
    [stage], so its flushes find no trade ([writer_idle]) and return at their
    first action, and an append to the log awaits nothing. *)

From S2P Require Import Prelude RustInt RustStr RustFloat RustIo ClientError Externs Enums Types Frame.
From S2P Require Import Scanner Parser OrderBook BookEngine Quote TradeBuf Wal StagedTrade TradeWriter.
From S2P Require Import Fanout Coalescing Commands Handshake Connection Reader ReaderThreads RawArchive.
From S2P Require Import AssetCache Pipeline Feed Live.

Module Publishing.
Section publishing.
Context `{TradeTable, !AHash, !StagedTradeExt, !Memchr, !Crossbeam (FrameKind.t * bytes)}.

(** The daemon, and what each running call of its coalescer has still to publish. *)
Record state : Type := mk {
  live : Live.state;
  in_flight : list (list (PublishKey.t * bytes));
}.

Inductive event : Type :=
  | Step (ev : Live.event)
  | Publish (i j : nat).

Definition fanout_of (l : Live.state) : Coalescer.t := Pipeline.fanout (Worker.pipe (Live.pool l)).
Definition with_pool (f : Worker.state → Worker.state) (l : Live.state) : Live.state :=
  Live.mk (Live.threads l) (f (Live.pool l)).
Definition pool_coalescer (c : Coalescer.t) (p : Worker.state) : Worker.state :=
  Worker.mk_state (Worker.frames p) (Worker.held p) (Worker.tasks p)
    (Pipeline.with_fanout c (Worker.pipe p)).
Definition with_coalescer (c : Coalescer.t) : Live.state → Live.state := with_pool (pool_coalescer c).
Definition without_task (i : nat) : Live.state → Live.state :=
  with_pool (λ p, Worker.mk_state (Worker.frames p) (Worker.held p) (remove_at i (Worker.tasks p))
                    (Worker.pipe p)).
Definition coalescer (s : state) : CoalescerStep.state :=
  CoalescerStep.mk_state (fanout_of (live s)) (in_flight s).

(** What a step does with the coalescer: a spawned submission starts to run, the
    flush task ticks, or a call gets on with its next publish. *)
Definition coalescer_event (ev : event) (l : Live.state) : option CoalescerStep.event :=
  match ev with
  | Publish i j => Some (CoalescerStep.Publish i j)
  | Step (Live.Pool Worker.CoalescerTick) => Some CoalescerStep.TakePending
  | Step (Live.Pool (Worker.RunTask i)) =>
      match Worker.tasks (Live.pool l) !! i with
      | Some (Pipeline.SubmitTask key payload) => Some (CoalescerStep.Submit key payload)
      | _ => None
      end
  | _ => None
  end.
(** A task that runs is no longer waiting to. *)
Definition started (ev : event) (l : Live.state) : Live.state :=
  match ev with Step (Live.Pool (Worker.RunTask i)) => without_task i l | _ => l end.

Definition step (ev : event) (s : state) : option state :=
  match coalescer_event ev (live s), ev with
  | Some cev, _ =>
      c ← CoalescerStep.step cev (coalescer s);
      Some (mk (with_coalescer (CoalescerStep.shared c) (started ev (live s)))
              (CoalescerStep.in_flight c))
  | None, Step ev => l ← Live.step ev (live s); Some (mk l (in_flight s))
  | None, Publish _ _ => None
  end.
Fixpoint run (evs : list event) (s : state) : option state :=
  match evs with
  | [] => Some s
  | ev :: evs' => s ← step ev s; run evs' s
  end.

Definition start (handle : ConnectionHandle.t) (config : ConnectionConfig.t) (workers : nat)
    (p : Pipeline.t) : result ClientError.t state :=
  l ← Live.start handle config workers p; Ok (mk l []).

(** The schedule of [Live.v] that a schedule is one of. *)
Definition atomic (evs : list event) : list Live.event :=
  omap (λ ev, match ev with Step ev => Some ev | Publish _ _ => None end) evs.
End publishing.
End Publishing.

Section simulation.
Context `{TradeTable, !AHash, !StagedTradeExt, !Memchr, !Crossbeam (FrameKind.t * bytes)}.
Import Publishing.
Implicit Types (l : Live.state) (s : state) (c : Coalescer.t).

Lemma with_coalescer_same l : with_coalescer (fanout_of l) l = l.
Proof. by destruct l as [t [fs h k []]]. Qed.
Lemma with_coalescer_twice c c' l : with_coalescer c (with_coalescer c' l) = with_coalescer c l.
Proof. done. Qed.

(** *** What does not depend on the coalescer *)

Lemma dispatch_with_fanout now msg c (p : Pipeline.t) :
  Pipeline.dispatch now msg (Pipeline.with_fanout c p) =
    prod_map (Pipeline.with_fanout c) id <$> Pipeline.dispatch now msg p.
Proof.
  destruct msg as [tk tm diff|tk op| |tk op| | | |item|item|]; cbn [Pipeline.dispatch]; try done.
  - cbn [Pipeline.with_fanout Pipeline.engine]. by destruct (BookEngine.apply _ _ _) as [[b e]|].
  - destruct op as [x|id| | |rid]; try done. cbn zeta.
    cbn [Pipeline.with_trades Pipeline.with_engine Pipeline.with_fanout Pipeline.trade_writer
         Pipeline.asset_cache].
    destruct (Pipeline.trade_writer p) as [w|]; [|done].
    by destruct (Pipeline.build_staged_trade _ _ _ _).
  - destruct item as [m x|]; [|done]. by destruct (from_utf8 m), (from_utf8 x).
  - by destruct (from_utf8 (GpnItem.cedro_id item)), (from_utf8 (GpnItem.code item)),
      (from_utf8 (GpnItem.name item)).
Qed.

(** A step of the pool that is none of the coalescer's. *)
Lemma worker_with_coalescer ev (p : Worker.state) c :
  match ev with
  | Worker.CoalescerTick => False
  | Worker.RunTask i => ∀ key v, Worker.tasks p !! i ≠ Some (Pipeline.SubmitTask key v)
  | _ => True
  end →
  Worker.step ev (pool_coalescer c p) = pool_coalescer c <$> Worker.step ev p.
Proof.
  destruct p as [fs h k p]. intros Hev. destruct ev as [i|i now|i| | |]; try done;
    cbn [Worker.step pool_coalescer Worker.frames Worker.held Worker.tasks Worker.pipe] in *.
  - destruct fs as [|[kind f] fs]; [done|]. by destruct (h !! i) as [[|]|].
  - destruct (h !! i) as [[msg|]|]; [|done..]. rewrite dispatch_with_fanout.
    by destruct (Pipeline.dispatch now msg p) as [[p' new]|].
  - destruct (k !! i) as [[key v|blob]|]; [by destruct (Hev key v)|done|done].
Qed.

Lemma live_with_coalescer ev c l :
  coalescer_event (Step ev) l = None →
  Live.step ev (with_coalescer c l) = with_coalescer c <$> Live.step ev l.
Proof.
  intros Hev. destruct ev as [ev|ev].
  - destruct ev; try done; cbn [Live.step with_coalescer with_pool Live.threads Live.pool];
      by destruct (ReaderThreads.step _ _).
  - assert (match ev with
      | Worker.CoalescerTick => False
      | Worker.RunTask i => ∀ key v, Worker.tasks (Live.pool l) !! i ≠ Some (Pipeline.SubmitTask key v)
      | _ => True end) as Hw.
    { destruct ev; try done. cbn [coalescer_event] in Hev. intros key v E. by rewrite E in Hev. }
    pose proof (worker_with_coalescer ev (Live.pool l) c Hw) as Hp.
    destruct ev as [i| | | | |]; try done;
      cbn [Live.step with_coalescer with_pool Live.threads Live.pool];
      try (rewrite Hp; by destruct (Worker.step _ (Live.pool l))).
    destruct (ReaderThreads.step _ _) as [t|]; [|done].
    destruct (chan_try_recv _) as [[f|] ch]; [|done].
    clear Hp. pose proof (worker_with_coalescer (Worker.Take i) (Live.with_frames [f] (Live.pool l)) c I) as Hp.
    change (Live.with_frames [f] (pool_coalescer c (Live.pool l)))
      with (pool_coalescer c (Live.with_frames [f] (Live.pool l))).
    rewrite Hp. by destruct (Worker.step _ (Live.with_frames _ _)).
Qed.

Lemma live_fanout ev l l' :
  coalescer_event (Step ev) l = None → Live.step ev l = Some l' → fanout_of l' = fanout_of l.
Proof.
  intros Hev Hs. pose proof (live_with_coalescer ev (fanout_of l) l Hev) as Hc.
  rewrite with_coalescer_same, Hs in Hc. injection Hc as ->. done.
Qed.

(** The coalescer's steps, taken atomically. *)
Lemma live_coalescer ev l cev op :
  coalescer_event (Step ev) l = Some cev → CoalescerStep.operation cev = Some op →
  Live.step ev l = Some (with_coalescer (CoalescerOp.apply op (fanout_of l)) (started (Step ev) l)).
Proof.
  destruct ev as [ev|[i|i now|i| | |]]; cbn [coalescer_event]; try done.
  - destruct (Worker.tasks (Live.pool l) !! i) as [[key v|]|] eqn:Hk; [|done|done].
    intros [= <-] [= <-]. cbn [Live.step Worker.step]. by rewrite Hk.
  - intros [= <-] [= <-]. done.
Qed.

(** *** The simulation *)

Record simulates (l : Live.state) (s : state) : Prop := {
  sim_live : live s = with_coalescer (fanout_of (live s)) l;
  sim_windows key : immediate key (fanout_of (live s)) = immediate key (fanout_of l);
  sim_key key : tracks key (coalescer s)
    (Coalescer.pending (fanout_of l) !! key, for_key key (Coalescer.calls (fanout_of l)));
}.

(** The atomic coalescer keeps up. *)
Lemma tracks_apply key (s s' : CoalescerStep.state) c cev :
  CoalescerStep.step cev s = Some s' →
  immediate key (CoalescerStep.shared s) = immediate key c →
  tracks key s (Coalescer.pending c !! key, for_key key (Coalescer.calls c)) →
  let c' := match CoalescerStep.operation cev with Some op => CoalescerOp.apply op c | None => c end in
  immediate key (CoalescerStep.shared s') = immediate key c' ∧
  tracks key s' (Coalescer.pending c' !! key, for_key key (Coalescer.calls c')).
Proof.
  intros Hs Hi Ht c'. pose proof (immediate_step key _ _ _ Hs) as Hi'.
  pose proof (step_tracks _ _ _ _ _ Hs Ht) as Ht'. pose proof (tracks_idle _ _ _ Ht) as Hidle.
  cbn [fst] in Hidle. rewrite Hi in Hidle, Ht', Hi'. unfold spec_step in Ht'. subst c'.
  destruct (CoalescerStep.operation cev) as [op|]; [|done].
  destruct (apply_key op key c _ _ eq_refl eq_refl Hidle) as (Ha & Hb & _). rewrite Ha, Hb.
  split; [|by destruct (KeySpec.step _ _ _ _)].
  rewrite Hi'. unfold immediate. by rewrite window_apply.
Qed.

Lemma step_simulated ev s s' l :
  step ev s = Some s' → simulates l s →
  ∃ l', Live.run (atomic [ev]) l = Some l' ∧ simulates l' s'.
Proof.
  intros Hs [Hl Hw Hk]. unfold step in Hs.
  destruct (coalescer_event ev (live s)) as [cev|] eqn:Hev.
  - apply bind_Some in Hs as (cs & Hc & [= <-]).
    assert (∀ c' l', (∀ key, immediate key (CoalescerStep.shared cs) = immediate key c' ∧
      tracks key cs (Coalescer.pending c' !! key, for_key key (Coalescer.calls c'))) →
      l' = with_coalescer c' (started ev l) →
      simulates l' (mk (with_coalescer (CoalescerStep.shared cs) (started ev (live s)))
        (CoalescerStep.in_flight cs))) as Hsim.
    { intros c' l' Hkey ->. split; [|apply Hkey|].
      - cbn [live]. rewrite Hl. by destruct ev as [[|[]]|].
      - intros key. destruct cs. apply Hkey. }
    pose proof (λ key, tracks_apply key _ _ _ _ Hc (Hw key) (Hk key)) as Ha.
    destruct ev as [ev|i j].
    + assert (coalescer_event (Step ev) l = Some cev) as Hev'.
      { rewrite <-Hev, Hl. by destruct ev as [|[]]. }
      destruct (CoalescerStep.operation cev) as [op|] eqn:Hop.
      2: { by destruct ev as [|[]]; cbn in Hev; try done; repeat case_match; simplify_eq. }
      eexists. split; [cbn; by rewrite (live_coalescer _ _ _ _ Hev' Hop)|]. by eapply Hsim.
    + injection Hev as <-. exists l. split; [done|]. eapply Hsim; [exact Ha|].
      cbn [started]. by rewrite with_coalescer_same.
  - destruct ev as [ev|]; [|done]. apply bind_Some in Hs as (l1 & Hs & [= <-]).
    assert (coalescer_event (Step ev) l = None) as Hev'.
    { rewrite <-Hev, Hl. by destruct ev as [|[]]. }
    rewrite Hl, (live_with_coalescer _ _ _ Hev') in Hs.
    apply fmap_Some in Hs as (l' & Hs & ->). pose proof (live_fanout _ _ _ Hev' Hs) as Hf.
    exists l'. split; [cbn; by rewrite Hs|]. split; [done| |].
    + intros key. rewrite Hf. apply Hw.
    + intros key. rewrite Hf. apply Hk.
Qed.

Lemma run_simulated evs s s' l :
  run evs s = Some s' → simulates l s → ∃ l', Live.run (atomic evs) l = Some l' ∧ simulates l' s'.
Proof.
  revert s l. induction evs as [|ev evs IH]; intros s l; cbn [run]; [intros [= <-]; eauto|].
  intros (s1 & Hs & Hr)%bind_Some Hsim.
  destruct (step_simulated _ _ _ _ Hs Hsim) as (l1 & Hr1 & Hm1).
  destruct (IH _ _ Hr Hm1) as (l2 & Hr2 & Hm2). exists l2. split; [|done].
  destruct ev as [ev|]; cbn [atomic omap list_omap Live.run] in *; [|injection Hr1 as ->; exact Hr2].
  apply bind_Some in Hr1 as (l1' & Hr1 & [= ->]). by rewrite Hr1.
Qed.
End simulation.

(** ** The running daemon *)

Section daemon.
Context `{TradeTable, !AHash, !StagedTradeExt, !Memchr, !Crossbeam (FrameKind.t * bytes)}.
Import Publishing.
Implicit Types (l : Live.state) (s : state).

(** The atomic coalescer published these payloads for the key; so has, or will,
    this one. *)
Definition same_outputs (l : Live.state) (s : state) : Prop :=
  ∀ key, Coalescer.pending (fanout_of (live s)) !! key = Coalescer.pending (fanout_of l) !! key ∧
    for_key key (Coalescer.calls (fanout_of (live s))) ++ CoalescerStep.waiting key (coalescer s) ≡ₚ
      for_key key (Coalescer.calls (fanout_of l)).

(** The daemon with the interleaved coalescer is the daemon of [Live.v]. Each of
    its schedules, without the single publishes, is a schedule of [Live.v] from the
    same start that ends with the same threads and the same pool but for the
    coalescer; there every key has the same payload pending, and what was
    published for it or is on its way is, in some order, what the atomic coalescer
    has published. *)
Theorem publishing_refines_live (handle : ConnectionHandle.t) (config : ConnectionConfig.t)
    (n : nat) (p : Pipeline.t) (evs : list event) (s0 s : state) :
  Coalescer.pending (Pipeline.fanout p) = ∅ →
  start handle config n p = Ok s0 → run evs s0 = Some s →
  ∃ l0 l, Live.start handle config n p = Ok l0 ∧ Live.run (atomic evs) l0 = Some l ∧
    live s = with_coalescer (fanout_of (live s)) l ∧ same_outputs l s.
Proof.
  intros Hp (l0 & Hl0 & [= <-])%result_bind_Ok Hr.
  assert (fanout_of l0 = Pipeline.fanout p) as Hf0 by (by apply result_bind_Ok in Hl0 as (t & _ & [= <-])).
  destruct (run_simulated _ _ _ l0 Hr) as (l & Hrun & [Hl _ Hk]).
  { split; [by rewrite with_coalescer_same|done|]. intros key. rewrite Hf0, Hp.
    constructor; cbn [coalescer CoalescerStep.shared live fst snd]; rewrite ?Hf0, ?Hp; [done|done|].
    by rewrite app_nil_r. }
  exists l0, l. split_and!; [done..|]. intros key. by destruct (Hk key).
Qed.

(** Nothing is on its way any more, in the pool or to the sink. *)
Definition settled (s : state) : Prop :=
  quiescent (live s) ∧ Worker.tasks (Live.pool (live s)) = [] ∧
  Coalescer.pending (fanout_of (live s)) = ∅ ∧ concat (in_flight s) = [].

Lemma settled_live l s :
  settled s → live s = with_coalescer (fanout_of (live s)) l → same_outputs l s →
  quiescent l ∧ Worker.tasks (Live.pool l) = [] ∧ Coalescer.pending (fanout_of l) = ∅ ∧
  ∀ key, for_key key (Coalescer.calls (fanout_of (live s))) ≡ₚ for_key key (Coalescer.calls (fanout_of l)).
Proof.
  intros (Hq & Ht & Hp & Hfl) Hl Ho. rewrite Hl in Hq, Ht. split_and!; [exact Hq|exact Ht| |].
  - apply map_empty. intros key. rewrite <-(proj1 (Ho key)), Hp. apply lookup_empty.
  - intros key. rewrite <-(proj2 (Ho key)). unfold CoalescerStep.waiting. cbn [coalescer CoalescerStep.in_flight].
    rewrite Hfl. by rewrite app_nil_r.
Qed.

End daemon.

Section writer.
Context `{TradeTable, !AHash, !StagedTradeExt, !Memchr, !MemchrSpec}.
Context `{!Crossbeam (FrameKind.t * bytes), !CrossbeamSpec (FrameKind.t * bytes)}.
Import Publishing.

(** Its writer has no trade to flush. *)
Lemma writer_idle (handle : ConnectionHandle.t) (config : ConnectionConfig.t) (n shards cap : nat)
    (wal_file : bytes) (batch_size : nat) (db : Db) (evs : list event) (s0 s : state) :
  0 < ConnectionConfig.frame_channel_capacity config →
  let w := TradeWriter.connect wal_file batch_size db in
  start handle config n (Pipeline.build shards cap (Some w)) = Ok s0 → run evs s0 = Some s →
  Pipeline.trade_writer (Worker.pipe (Live.pool (live s))) = Some w ∧ TradeWriter.flush w = (Ok 0%nat, w).
Proof.
  intros Hcap w Hs Hr.
  destruct (publishing_refines_live _ _ _ (Pipeline.build shards cap (Some w)) _ _ _ eq_refl Hs Hr)
    as (l0 & l & Hl0 & Hl & -> & _).
  destruct (live_refines_pool _ _ _ _ _ _ _ Hcap Hl0 Hl) as (fs & Hw & _).
  destruct (run_quiet (Some w) _ _ _ Hw) as (_ & Hq & Hb & _); [apply start_quiet|].
  split; [exact Hq|]. by apply flush_empty.
Qed.
End writer.
