(* ===== verification/EndToEnd.v ===== *)
(** * From the feed to an answer

    The running daemon of [Live.v], its coalescer and publisher, Redis and the
    api-server's quote handler in a row: what a client is answered, as a function
    of the bytes the daemon has read. *)

From S2P Require Import Prelude RustInt RustStr RustFloat RustIo ClientError Externs Enums Types Frame.
From S2P Require Import Scanner Parser OrderBook BookEngine Quote TradeBuf Wal StagedTrade TradeWriter.
From S2P Require Import Fanout Commands Handshake Connection Reader ReaderThreads RawArchive AssetCache.
From S2P Require Import Pipeline Feed Live Coalescing Publishing Sinks Api Serving.

(** What a message makes the daemon publish. *)
Definition posts (msg : ProtocolMessage.t) : option (PublishKey.t * bytes) :=
  match msg with
  | ProtocolMessage.Quote ticker _ _ => Some (PublishKey.mk Kind.Quote ticker, bs "q")
  | ProtocolMessage.Book ticker _ => Some (PublishKey.mk Kind.Book ticker, bs "b")
  | ProtocolMessage.Trade ticker (TradeOperation.Add _) => Some (PublishKey.mk Kind.Trade ticker, bs "t")
  | _ => None
  end.

(** The submissions among tasks and among the coalescer's operations. *)
Definition task_post (k : Pipeline.task) : option (PublishKey.t * bytes) :=
  match k with Pipeline.SubmitTask key v => Some (key, v) | Pipeline.AppendTask _ => None end.
Definition op_post (op : CoalescerOp.t) : option (PublishKey.t * bytes) :=
  match op with CoalescerOp.Submit key v => Some (key, v) | CoalescerOp.Flush => None end.

(** ** The coalescer behind the pool *)

Section coalescer.
Context `{TradeTable, !AHash, !StagedTradeExt, !Memchr}.
Import Pipeline Worker.

(** The operation on the coalescer in a step of the pool. *)
Definition coalescer_op (ev : event) (s : state) : option CoalescerOp.t :=
  match ev with
  | RunTask i => k ← tasks s !! i; '(key, v) ← task_post k; Some (CoalescerOp.Submit key v)
  | CoalescerTick => Some CoalescerOp.Flush
  | _ => None
  end.
Fixpoint coalescer_ops (evs : list event) (s : state) : list CoalescerOp.t :=
  match evs with
  | [] => []
  | ev :: evs' =>
      option_list (coalescer_op ev s) ++
      match step ev s with Some s' => coalescer_ops evs' s' | None => [] end
  end.

Lemma dispatch_posts now msg p p' new :
  dispatch now msg p = Some (p', new) →
  fanout p' = fanout p ∧ omap task_post new = option_list (posts msg).
Proof.
  destruct msg as [tk tm diff|tk op| |tk op| | | |item|item|]; cbn [dispatch];
    try (by intros [= <- <-]).
  - destruct (BookEngine.apply _ _ _) as [[b e]|]; [|done]. by intros [= <- <-].
  - destruct op as [x|id| | |rid]; try (by intros [= <- <-]). cbn zeta.
    destruct (trade_writer _) as [w|]; [destruct (build_staged_trade _ _ _ _)|]; by intros [= <- <-].
  - destruct item as [m s|]; [destruct (from_utf8 m), (from_utf8 s)|]; by intros [= <- <-].
  - destruct (from_utf8 (GpnItem.cedro_id item)), (from_utf8 (GpnItem.code item)),
      (from_utf8 (GpnItem.name item)); by intros [= <- <-].
Qed.

Lemma remove_at_Permutation {A} i (l : list A) x : l !! i = Some x → l ≡ₚ x :: remove_at i l.
Proof.
  intros Hi. unfold remove_at. rewrite Permutation_middle. by rewrite take_drop_middle.
Qed.

(** A step's operation and the tasks it leaves are those before and what it
    dispatches. *)
Lemma step_posts ev s s' :
  step ev s = Some s' →
  fanout (pipe s') = CoalescerOp.apply_all (option_list (coalescer_op ev s)) (fanout (pipe s)) ∧
  omap op_post (option_list (coalescer_op ev s)) ++ omap task_post (tasks s') ≡ₚ
    omap task_post (tasks s) ++ omap posts (dispatched_by ev s).
Proof.
  intros Hs. destruct ev as [i|i now|i| | |]; cbn [step coalescer_op dispatched_by] in *;
    try (injection Hs as <-; cbn; rewrite ?app_nil_r; done).
  - destruct (frames s) as [|[k f] rest]; [done|].
    destruct (held s !! i) as [[|]|]; [done| |done]. injection Hs as <-. cbn. by rewrite app_nil_r.
  - destruct (held s !! i) as [[msg|]|]; [|done|done].
    apply bind_Some in Hs as ([p new] & Hd & [= <-]). apply dispatch_posts in Hd as [Hf Hn].
    cbn [pipe tasks]. split; [exact Hf|]. rewrite omap_app, Hn. cbn. by destruct (posts msg).
  - apply bind_Some in Hs as (k & Hk & [= <-]). rewrite Hk. cbn [mbind option_bind pipe tasks].
    rewrite (remove_at_Permutation _ _ _ Hk) at 2. destruct k as [key v|b]; cbn; rewrite app_nil_r; done.
Qed.

Lemma run_posts evs s s' :
  run evs s = Some s' →
  fanout (pipe s') = CoalescerOp.apply_all (coalescer_ops evs s) (fanout (pipe s)) ∧
  omap op_post (coalescer_ops evs s) ++ omap task_post (tasks s') ≡ₚ
    omap task_post (tasks s) ++ omap posts (dispatched evs s).
Proof.
  revert s. induction evs as [|ev evs IH]; intros s; cbn [run coalescer_ops dispatched].
  { intros [= <-]. split; [done|]. cbn. by rewrite app_nil_r. }
  intros (s1 & Hs & Hr)%bind_Some. rewrite Hs.
  destruct (step_posts _ _ _ Hs) as [Hf1 Hp1]. destruct (IH s1 Hr) as [Hf2 Hp2]. split.
  - unfold CoalescerOp.apply_all in *. by rewrite foldl_app, <-Hf1.
  - rewrite !omap_app, <-(assoc_L (++)), Hp2, (assoc_L (++)), Hp1. by rewrite <-(assoc_L (++)).
Qed.
End coalescer.

(** ** What is submitted for a quote *)

Definition quotes (ticker : bytes) (msg : ProtocolMessage.t) : Prop :=
  match msg with ProtocolMessage.Quote tk _ _ => tk = ticker | _ => False end.
#[export] Instance quotes_dec ticker msg : Decision (quotes ticker msg).
Proof. unfold quotes. destruct msg; apply _. Defined.

(** The tickers of what is published are UTF-8, as the protocol has them. *)
Definition readable (msg : ProtocolMessage.t) : Prop :=
  match posts msg with Some (key, _) => valid_key key | None => True end.

Lemma submitted_for_key key ops : KeySpec.submitted key ops = for_key key (omap op_post ops).
Proof.
  unfold KeySpec.submitted, for_key. induction ops as [|[k v|] ops IH]; [done| |exact IH].
  cbn [omap list_omap op_post]. rewrite filter_cons. cbn [fst]. case_decide; [|exact IH].
  cbn. by f_equal.
Qed.

(** The messages that make the daemon publish for a key. *)
Definition concerns (key : PublishKey.t) (msg : ProtocolMessage.t) : Prop :=
  fst <$> posts msg = Some key.
#[export] Instance concerns_dec key msg : Decision (concerns key msg).
Proof. unfold concerns. apply _. Defined.
Definition count (key : PublishKey.t) (msgs : list ProtocolMessage.t) : nat :=
  length (filter (concerns key) msgs).

Lemma posts_payload msg key v : posts msg = Some (key, v) → v = placeholder (PublishKey.kind key).
Proof. destruct msg as [tk tm d|tk op| |tk []| | | | | |]; try done; by intros [= <- <-]. Qed.

Lemma key_posts key msgs :
  for_key key (omap posts msgs) = replicate (count key msgs) (placeholder (PublishKey.kind key)).
Proof.
  unfold for_key, count. induction msgs as [|msg msgs IH]; [done|]. cbn [omap list_omap].
  rewrite (filter_cons (concerns key)). assert (concerns key msg ↔ fst <$> posts msg = Some key) as Hc by done.
  destruct (posts msg) as [[k v]|] eqn:Hp; cbn [fmap option_fmap option_map fst] in Hc.
  - rewrite filter_cons. cbn [fst]. apply posts_payload in Hp as ->.
    destruct (decide (k = key)) as [->|Hk].
    + rewrite decide_True by (by apply Hc). cbn. by rewrite IH.
    + by rewrite decide_False by (rewrite Hc; congruence).
  - by rewrite decide_False by (by rewrite Hc).
Qed.

Lemma count_quotes ticker msgs :
  count (PublishKey.mk Kind.Quote ticker) msgs = 0%nat ↔ ¬ Exists (quotes ticker) msgs.
Proof.
  assert (∀ msg, concerns (PublishKey.mk Kind.Quote ticker) msg ↔ quotes ticker msg) as Hq.
  { unfold concerns. intros msg. destruct msg as [tk tm d|tk op| |tk []| | | | | |]; cbn; split; congruence || done. }
  unfold count. rewrite length_zero_iff_nil, Exists_exists. split.
  - intros Hnil (msg & Hin & Hm). apply Hq in Hm.
    assert (msg ∈ filter (concerns (PublishKey.mk Kind.Quote ticker)) msgs) as Hf
      by (by apply list_elem_of_filter). rewrite Hnil in Hf. by apply elem_of_nil in Hf.
  - intros Hno. destruct (filter _ msgs) as [|msg l] eqn:Hf; [done|]. destruct Hno.
    assert (msg ∈ filter (concerns (PublishKey.mk Kind.Quote ticker)) msgs) as Hin
      by (rewrite Hf; apply list_elem_of_here).
    apply list_elem_of_filter in Hin as [Hm Hin]. exists msg. by rewrite <-Hq.
Qed.

(** ** What one key is sent *)

(** What is published or pending was submitted, in that order. *)
Lemma run_sublist imm key ops :
  sublist ((KeySpec.run imm key ops).2 ++ option_list (KeySpec.run imm key ops).1)
    (KeySpec.submitted key ops).
Proof.
  destruct imm.
  { destruct (run_flush_last key ops) as (_ & _ & ->). cbn. by rewrite app_nil_r. }
  unfold KeySpec.run, KeySpec.submitted. induction ops as [|op ops IH] using rev_ind; [done|].
  rewrite foldl_app, omap_app. cbn [foldl]. set (s := foldl _ _ ops) in *.
  destruct op as [k v|]; cbn [KeySpec.step omap list_omap].
  - destruct (decide (k = key)); cbn [fst snd option_list].
    + apply sublist_app; [|done]. etrans; [|exact IH]. by apply sublist_inserts_r.
    + by rewrite app_nil_r.
  - cbn [fst snd option_list]. by rewrite !app_nil_r.
Qed.

Lemma last_replicate {A} m (x : A) : last (replicate m x) = if decide (m = 0%nat) then None else Some x.
Proof. induction m as [|[|m] IH]; [done|done|exact IH]. Qed.

Lemma sublist_replicate {A} (l : list A) m x : sublist l (replicate m x) → l = replicate (length l) x.
Proof.
  intros Hl. symmetry. apply replicate_as_elem_of. split; [done|]. intros y Hy.
  apply (elem_of_sublist _ _ _ Hy), elem_of_replicate in Hl. by destruct Hl.
Qed.

(** With every submission of some messages made and nothing pending. *)
Lemma sent_for_key key ops msgs imm :
  omap op_post ops ≡ₚ omap posts msgs → (KeySpec.run imm key ops).1 = None →
  let out := (KeySpec.run imm key ops).2 in
  out = replicate (length out) (placeholder (PublishKey.kind key)) ∧
  (length out ≤ count key msgs)%nat ∧ (imm = true → length out = count key msgs) ∧
  (length out = 0%nat → count key msgs = 0%nat).
Proof.
  intros Hp Hn out. assert (KeySpec.submitted key ops =
    replicate (count key msgs) (placeholder (PublishKey.kind key))) as Hsub.
  { rewrite submitted_for_key. symmetry. apply replicate_Permutation. rewrite <-key_posts.
    unfold for_key. by rewrite Hp. }
  pose proof (run_sublist imm key ops) as Hl. rewrite Hn, Hsub in Hl. cbn [option_list] in Hl.
  rewrite app_nil_r in Hl. pose proof (last_taken key imm ops Hn) as Hlast. rewrite Hsub in Hlast.
  fold out in Hl, Hlast. pose proof (sublist_length _ _ Hl) as Hlen. rewrite length_replicate in Hlen.
  split_and!; [by eapply sublist_replicate|done| |].
  - intros ->. destruct (run_flush_last key ops) as (_ & _ & Ht). unfold out. rewrite Ht. cbn [snd].
    by rewrite Hsub, length_replicate.
  - intros Hz. apply nil_length_inv in Hz. rewrite Hz in Hlast. cbn [last] in Hlast.
    destruct (count key msgs) as [|m]; [done|]. by rewrite last_replicate in Hlast.
Qed.

Lemma posted_valid ops msgs :
  omap op_post ops ≡ₚ omap posts msgs → Forall readable msgs →
  ∀ k v, CoalescerOp.Submit k v ∈ ops → valid_key k.
Proof.
  intros Hp Hr k v Hin. assert ((k, v) ∈ omap posts msgs) as Hm.
  { rewrite <-Hp. apply list_elem_of_omap. by exists (CoalescerOp.Submit k v). }
  apply list_elem_of_omap in Hm as (msg & Hmsg & Hk). rewrite Forall_forall in Hr.
  pose proof (Hr msg Hmsg) as Hrd. unfold readable in Hrd. by rewrite Hk in Hrd.
Qed.

(** ** The daemon at rest *)

Section rest.
Context `{TradeTable, !AHash, !StagedTradeExt, !Memchr, !MemchrSpec}.
Context `{!Crossbeam (FrameKind.t * bytes), !CrossbeamSpec (FrameKind.t * bytes)}.
Import Publishing.

(** The coalescer of the daemon of [Live.v]. *)
Lemma rest_submissions handle config n p evs l0 l :
  0 < ConnectionConfig.frame_channel_capacity config →
  Live.start handle config n p = Ok l0 → Live.run evs l0 = Some l → quiescent l →
  Worker.tasks (Live.pool l) = [] →
  ∃ ops, fanout_of l = CoalescerOp.apply_all ops (Pipeline.fanout p) ∧
    omap op_post ops ≡ₚ omap posts (stream_messages (ReaderThreads.bytes_in (Live.threads l))).
Proof.
  intros Hcap Hstart Hrun Hq Ht.
  destruct (live_refines_pool _ _ _ _ _ _ _ Hcap Hstart Hrun) as (fs & Hw & Hf & _ & Hall).
  destruct (run_posts _ _ _ Hw) as [Hfan Hp]. rewrite Ht in Hp. cbn [Worker.start Worker.tasks] in Hp.
  cbn [omap list_omap app] in Hp. rewrite app_nil_r in Hp.
  pose proof (run_once _ _ _ Hw) as Ho. rewrite in_hand_start, Hf in Ho.
  destruct Hq as (Hre & Hqu & Hh). rewrite Hh in Ho. cbn [app Worker.start Worker.frames messages] in Ho.
  rewrite !app_nil_r in Ho.
  eexists. split; [exact Hfan|]. rewrite Hp. unfold stream_messages.
  rewrite <-(Hall (conj Hre (conj Hqu Hh))). apply omap_Permutation. by symmetry.
Qed.

(** What the sink has been sent. *)
Definition sent (s : state) : list (PublishKey.t * bytes) := Coalescer.calls (fanout_of (live s)).
(** The messages in the bytes read. *)
Definition read_messages (s : state) : list ProtocolMessage.t :=
  stream_messages (ReaderThreads.bytes_in (Live.threads (live s))).

Lemma new_immediate key : immediate key Coalescer.new = bool_decide (PublishKey.kind key = Kind.Trade).
Proof. unfold immediate. by destruct (PublishKey.kind key). Qed.

Lemma rest_sent handle config n shards cap writer evs s0 s :
  0 < ConnectionConfig.frame_channel_capacity config →
  start handle config n (Pipeline.build shards cap writer) = Ok s0 → run evs s0 = Some s → settled s →
  (∀ key, ∃ m, for_key key (sent s) = replicate m (placeholder (PublishKey.kind key)) ∧
     (m ≤ count key (read_messages s))%nat ∧
     (PublishKey.kind key = Kind.Trade → m = count key (read_messages s)) ∧
     (m = 0%nat → count key (read_messages s) = 0%nat)) ∧
  (Forall readable (read_messages s) → Forall (λ c, valid_key c.1) (sent s)).
Proof.
  intros Hcap Hstart Hrun Hrest.
  destruct (publishing_refines_live _ _ _ (Pipeline.build shards cap writer) _ _ _ eq_refl Hstart Hrun)
    as (l0 & l & Hl0 & Hl & Heq & Hout).
  destruct (settled_live _ _ Hrest Heq Hout) as (Hq & Ht & Hp & Hsame).
  destruct (rest_submissions _ _ _ _ _ _ _ Hcap Hl0 Hl Hq Ht) as (ops & Hf & Hops).
  assert (read_messages s = stream_messages (ReaderThreads.bytes_in (Live.threads l))) as Hmsgs
    by (unfold read_messages; by rewrite Heq).
  rewrite <-Hmsgs in Hops. set (msgs := read_messages s) in *.
  change (Pipeline.fanout (Pipeline.build shards cap writer)) with Coalescer.new in Hf.
  split.
  - intros key. destruct (apply_all_key ops key Coalescer.new eq_refl eq_refl) as (Hpend & Hcalls & _).
    rewrite <-Hf, Hp, lookup_empty in Hpend. rewrite <-Hf in Hcalls.
    destruct (sent_for_key key ops msgs _ Hops (eq_sym Hpend)) as (Hr & Hle & Htr & Hz).
    rewrite <-Hcalls in Hr, Hle, Htr, Hz. eexists. split; [|split_and!; [exact Hle| |exact Hz]].
    + symmetry. apply replicate_Permutation. rewrite <-Hr. symmetry. apply Hsame.
    + intros Hk. apply Htr. rewrite new_immediate. by apply bool_decide_eq_true.
  - intros Hread. destruct (sent_valid Coalescer.new ops eq_refl eq_refl) as [Hv _].
    { by eapply posted_valid. }
    rewrite <-Hf in Hv. apply Forall_forall. intros [k v] Hin. rewrite Forall_forall in Hv.
    assert (v ∈ for_key k (fanout_of l).(Coalescer.calls)) as Hv'.
    { rewrite <-(Hsame k). unfold for_key. apply list_elem_of_fmap. exists (k, v).
      split; [done|]. by apply list_elem_of_filter. }
    unfold for_key in Hv'. apply list_elem_of_fmap in Hv' as ([k' v'] & -> & Hin').
    apply list_elem_of_filter in Hin' as [E Hin']. cbn [fst] in *. subst k'. by apply (Hv (k, v')).
Qed.

(** (C10) Every trade is published once, every other update at least by its latest.
    Whatever bytes the daemon has read, with any number of workers and under any
    interleaving of its threads, tasks and timers, the coalescer's calls between
    any two publishes included: once nothing is on its way any more, the sink has
    been sent as many snapshots of the trades of a ticker as the feed had new trades
    for it, and for the quote and the book of a ticker none if the feed had no
    message for it, and otherwise at least one and at most one per message. *)
Theorem published_per_message (handle : ConnectionHandle.t) (config : ConnectionConfig.t)
    (n shards cap : nat) (writer : option TradeWriter.t) (evs : list event) (s0 s : state)
    (key : PublishKey.t) :
  0 < ConnectionConfig.frame_channel_capacity config →
  start handle config n (Pipeline.build shards cap writer) = Ok s0 → run evs s0 = Some s → settled s →
  let published := length (for_key key (sent s)) in
  let messages := count key (read_messages s) in
  (PublishKey.kind key = Kind.Trade → published = messages) ∧
  (published ≤ messages)%nat ∧ (published = 0%nat ↔ messages = 0%nat).
Proof.
  intros Hcap Hstart Hrun Hrest published messages.
  destruct (rest_sent _ _ _ _ _ _ _ _ _ Hcap Hstart Hrun Hrest) as [Hk _].
  destruct (Hk key) as (m & Hm & Hle & Htr & Hz). fold messages in Hle, Htr, Hz.
  assert (published = m) as -> by (unfold published; by rewrite Hm, length_replicate).
  split_and!; [exact Htr|exact Hle|]. split; [exact Hz|lia].
Qed.
End rest.

(** ** The answer *)

Section served.
Context `{TradeTable, !AHash, !StagedTradeExt, !Memchr, !MemchrSpec}.
Context `{!Crossbeam (FrameKind.t * bytes), !CrossbeamSpec (FrameKind.t * bytes)}.
Context `{!HeaderText, !PayloadHash, !Serialisers}.
Import Publishing.

(** What Redis shows behind the publisher, as its writes went. *)
Definition redis_of (p : FanoutPublisher.t) (answers : nat → Answer.t) (now : Z) (s : state)
    : gmap bytes bytes :=
  Redis.contents now (Servers.redis (SinkCoalescer.after (sent s) (Servers.start p answers))).

(** (C9) What a client is answered, from the socket to HTTP. Whatever bytes the
    daemon has read, of which the tickers are UTF-8, with any number of workers and
    under any interleaving of its threads, tasks, timers and publishes to a Redis
    that was empty: once nothing is on its way any more, an authenticated request
    for the quote of a ticker is answered with a 404 if the feed had no quote for
    it, and otherwise with the one-byte marker that is all the daemon publishes of
    one, provided that every write to Redis succeeded and the time to live of none
    is over. Whatever fails, since the daemon drops the errors, and whatever
    expires, the answer is a 404 or that marker, and the marker only if the feed
    had a quote for the ticker. *)
Theorem feed_to_answer (handle : ConnectionHandle.t) (config : ConnectionConfig.t)
    (n shards cap : nat) (writer : option TradeWriter.t) (evs : list event) (s0 s : state)
    (p : FanoutPublisher.t) (answers : nat → Answer.t) (now : Z)
    (headers : HeaderMap.t) (cfg : ApiConfig.t) (token ticker : bytes) :
  0 < ConnectionConfig.frame_channel_capacity config →
  start handle config n (Pipeline.build shards cap writer) = Ok s0 → run evs s0 = Some s → settled s →
  Forall readable (read_messages s) → utf8_valid ticker = true → require_token headers cfg = Ok token →
  let ttl := FanoutPublisher.snapshot_ttl_seconds p in
  let quoted := Exists (quotes ticker) (read_messages s) in
  let reply := quote_single headers cfg ticker (Some (redis_of p answers now s)) in
  ((∀ i, (i < length (sent s))%nat → Answer.redis_ok (answers i) = true ∧
      Redis.live now (Redis.deadline (Answer.time (answers i)) ttl) = true) →
   reply = answer headers ticker (if decide quoted then Some (bs "q") else None)) ∧
  (reply = answer headers ticker None ∨ (quoted ∧ reply = answer headers ticker (Some (bs "q")))).
Proof.
  intros Hcap Hstart Hrun Hrest Hread Hu Htok ttl quoted reply.
  destruct (rest_sent _ _ _ _ _ _ _ _ _ Hcap Hstart Hrun Hrest) as [Hk Hv].
  destruct (reply_after headers cfg token ticker (sent s) p answers now (Hv Hread) Hu Htok) as [Hr Hok].
  destruct (Hk (PublishKey.mk Kind.Quote ticker)) as (m & Hm & Hle & _ & Hz).
  change (PublishKey.kind (PublishKey.mk Kind.Quote ticker)) with Kind.Quote in Hm. split.
  - intros Hall. unfold reply, redis_of. rewrite (Hok Hall), Hm, last_replicate. f_equal.
    destruct (decide quoted) as [Hx|Hx].
    + rewrite decide_False; [done|]. by intros E%Hz%count_quotes.
    + apply count_quotes in Hx. by rewrite decide_True by lia.
  - unfold reply, redis_of. rewrite Hr.
    destruct (last _ ≫= unexpired _ now) as [v|] eqn:Hx; [right|by left].
    apply served_sent in Hx. rewrite Hm in Hx. apply elem_of_replicate in Hx as [-> Hm0]. split; [|done].
    destruct (decide quoted) as [|Hno]; [done|]. apply count_quotes in Hno. lia.
Qed.
End served.

(** ** Witness *)

Section witnesses.
#[local] Existing Instance chrono_reference.
#[local] Existing Instance table_reference.
#[local] Existing Instance ahash_reference.
#[local] Existing Instance memchr_reference.
#[local] Existing Instance memchr_reference_spec.
#[local] Existing Instance header_text_reference.
#[local] Existing Instance payload_hash_reference.
#[local] Existing Instance serialisers_reference.
#[local] Existing Instance blob.
#[local] Existing Instance channel.
#[local] Existing Instance channel_spec.
Import Publishing.

(** Two quotes and a trade; both quotes are submitted before the tick. *)
Definition feed_bytes : bytes :=
  bs "T:PETR4:110100:2:26.5!T:PETR4:110101:2:26.6!V:PETR4:A:110100:26.5:3:8:200:N1:0:A:RLP!".
Definition publishing_start : result ClientError.t state :=
  start (ConnectionHandle.mk 3 4096) narrow_config 1 (Pipeline.build 4 100 None).
Definition one_frame : list event :=
  [Step (Live.Threads ReaderThreads.ReaderRun); Step (Live.Pool (Worker.Take 0));
   Step (Live.Pool (Worker.Dispatch 0 (0, 0))); Step (Live.Pool (Worker.RunTask 0))].
Definition publishing_schedule : list event :=
  [Step (Live.Threads ReaderThreads.ReaderRun);
   Step (Live.Threads (ReaderThreads.ReaderRead (Reader.Data feed_bytes)))] ++
  one_frame ++ one_frame ++ one_frame ++
  [Step (Live.Threads ReaderThreads.ReaderRun); Step (Live.Pool Worker.CoalescerTick); Publish 1 0; Publish 0 0].

(** The state behind the schedule, as far as it is looked at. *)
Definition look (s : state) : bool * nat * nat * bytes * nat * nat * nat :=
  let w := Live.pool (live s) in
  (Live.at_rest (ReaderThreads.reader (Live.threads (live s))),
   length (chan_queue (ReaderThreads.frames (Live.threads (live s)))), length (in_hand w),
   ReaderThreads.bytes_in (Live.threads (live s)), length (Worker.tasks w),
   size (Coalescer.pending (fanout_of (live s))), length (concat (in_flight s))).

Lemma publishing_observed :
  match publishing_start with
  | Ok s0 => look <$> run publishing_schedule s0
  | Err _ => None
  end = Some (true, 0%nat, 0%nat, feed_bytes, 0%nat, 0%nat, 0%nat).
Proof. vm_compute. reflexivity. Qed.

Lemma look_settled s :
  (let '(r, q, h, _, t, pend, fl) := look s in (r, q, h, t, pend, fl)) =
    (true, 0%nat, 0%nat, 0%nat, 0%nat, 0%nat) →
  settled s.
Proof.
  unfold look. intros [= Hr Hq Hh Ht Hp Hf]. apply nil_length_inv in Hq, Hh, Ht, Hf.
  apply map_size_empty_inv in Hp. split; [|done]. split; [|by split].
  by destruct (ReaderThreads.reader (Live.threads (live s))).
Qed.

(** The run, whichever it is. *)
Lemma publishing_settles :
  ∃ s0 s, publishing_start = Ok s0 ∧ run publishing_schedule s0 = Some s ∧ settled s ∧
    read_messages s = stream_messages feed_bytes.
Proof.
  pose proof publishing_observed as Ho.
  destruct publishing_start as [s0|e] eqn:Hs0; [|discriminate Ho].
  destruct (run publishing_schedule s0) as [s|] eqn:Hrun; [|discriminate Ho].
  apply (inj Some) in Ho. exists s0, s. split_and!; [done|done| |].
  - apply look_settled. by rewrite Ho.
  - unfold look in Ho. injection Ho as _ _ _ Hb _ _ _. unfold read_messages. by rewrite Hb.
Qed.

Lemma published_per_message_witness :
  ∃ s0 s, publishing_start = Ok s0 ∧ run publishing_schedule s0 = Some s ∧
    length (for_key (PublishKey.mk Kind.Trade (bs "PETR4")) (sent s)) = 1%nat ∧
    (1 ≤ length (for_key (PublishKey.mk Kind.Quote (bs "PETR4")) (sent s)) ≤ 2)%nat ∧
    length (for_key (PublishKey.mk Kind.Quote (bs "VALE3")) (sent s)) = 0%nat.
Proof.
  destruct publishing_settles as (s0 & s & Hs0 & Hrun & Hrest & Hm). exists s0, s.
  split; [exact Hs0|]. split; [exact Hrun|].
  pose proof (λ key, published_per_message (ConnectionHandle.mk 3 4096) narrow_config 1 4 100 None
    publishing_schedule s0 s key eq_refl Hs0 Hrun Hrest) as Hp. rewrite Hm in Hp.
  split; [|split].
  - destruct (Hp (PublishKey.mk Kind.Trade (bs "PETR4"))) as (-> & _); [vm_compute; reflexivity|reflexivity].
  - destruct (Hp (PublishKey.mk Kind.Quote (bs "PETR4"))) as (_ & Hle & Hz).
    assert (count (PublishKey.mk Kind.Quote (bs "PETR4")) (stream_messages feed_bytes) = 2%nat) as Hc
      by (vm_compute; reflexivity).
    rewrite Hc in Hle, Hz. lia.
  - apply Hp. vm_compute. reflexivity.
Defined.

(** Redis takes every write, at the second second, for a minute. *)
Definition minute : FanoutPublisher.t := FanoutPublisher.mk (Some 60).
Definition taken (i : nat) : Answer.t := Answer.mk 2000 true true.

Lemma feed_to_answer_witness :
  ∃ s0 s, publishing_start = Ok s0 ∧ run publishing_schedule s0 = Some s ∧
    quote_single (request "Bearer s3cret") sample_api (bs "PETR4") (Some (redis_of minute taken 3000 s)) =
      Ok (snapshot_response Accept.Json (bs "q")) ∧
    quote_single (request "Bearer s3cret") sample_api (bs "VALE3") (Some (redis_of minute taken 3000 s)) =
      Err (ApiError.TickerNotFound (bs "VALE3")).
Proof.
  destruct publishing_settles as (s0 & s & Hs0 & Hrun & Hrest & Hm). exists s0, s.
  split; [exact Hs0|]. split; [exact Hrun|].
  assert (∀ ticker, utf8_valid ticker = true →
    quote_single (request "Bearer s3cret") sample_api ticker (Some (redis_of minute taken 3000 s)) =
      answer (request "Bearer s3cret") ticker
        (if decide (Exists (quotes ticker) (stream_messages feed_bytes)) then Some (bs "q") else None))
    as Hserved.
  { intros ticker Hu. rewrite <-Hm.
    apply (feed_to_answer (ConnectionHandle.mk 3 4096) narrow_config 1 4 100 None publishing_schedule s0 s minute taken 3000
      (request "Bearer s3cret") sample_api (bs "s3cret") ticker);
      [reflexivity|exact Hs0|exact Hrun|exact Hrest| |exact Hu|vm_compute; reflexivity|].
    - rewrite Hm. vm_compute. repeat constructor.
    - intros i _. split; reflexivity. }
  split; rewrite Hserved by (vm_compute; reflexivity); vm_compute; reflexivity.
Defined.
End witnesses.
