(* ===== verification/Settling.v ===== *)
(** * The running daemon can always settle

    From every state of the daemon of [Publishing.v] whose reader has not
    returned, some schedule without another read brings everything that is on its
    way to its end: the reader's frames to the workers, the messages to the
    engines, the tasks to the coalescer and the payloads to the sink. So what is
    proved of a settled daemon is about a state that is always within reach. *)

From S2P Require Import Prelude RustInt RustStr RustFloat RustIo ClientError Externs Enums Types Frame.
From S2P Require Import Scanner Parser OrderBook BookEngine Quote TradeBuf Wal StagedTrade TradeWriter.
From S2P Require Import Fanout Coalescing Commands Handshake Connection Reader ReaderThreads RawArchive.
From S2P Require Import AssetCache Pipeline Feed Live Publishing.

(** ** The pool *)

Section pool.
Context `{TradeTable, !AHash, !StagedTradeExt, !Memchr}.
Import Pipeline Worker.

Lemma step_sound ev s s' : step ev s = Some s' → sound (pipe s) → sound (pipe s').
Proof.
  intros Hs Hp. destruct ev as [i|i now|i| | |]; cbn [step] in Hs.
  - destruct (frames s) as [|[k f] rest]; [done|].
    destruct (held s !! i) as [[|]|]; [done| |done]. by injection Hs as <-.
  - destruct (held s !! i) as [[msg|]|]; [|done..].
    destruct (dispatch_total now msg (pipe s) Hp) as (p' & new & Hd & Hp'). rewrite Hd in Hs.
    by injection Hs as <-.
  - apply bind_Some in Hs as (k & _ & [= <-]). by destruct k.
  - by injection Hs as <-.
  - by injection Hs as <-.
  - by injection Hs as <-.
Qed.
End pool.

(** ** Reader, channel and workers *)

Section live.
Context `{TradeTable, !AHash, !StagedTradeExt, !Memchr, !MemchrSpec}.
Context `{!Crossbeam (FrameKind.t * bytes), !CrossbeamSpec (FrameKind.t * bytes)}.
Import Live.
Implicit Types l : Live.state.

(** There are workers to receive, and the reader has not returned. *)
Record lively (n : nat) (l : Live.state) : Prop := {
  lively_accounted : accounted n (threads l);
  lively_room : (0 < n)%nat;
  lively_workers : ReaderThreads.workers (threads l) ≠ 0%nat;
  lively_held : (0 < length (Worker.held (pool l)))%nat;
  lively_sound : sound (Worker.pipe (pool l));
}.

Lemma threads_workers ev (t t' : ReaderThreads.state) :
  ReaderThreads.step ev t = Some t' → ev ≠ ReaderThreads.WorkerExit →
  ReaderThreads.workers t' = ReaderThreads.workers t.
Proof.
  intros Hs Hne. destruct ev; try done; cbn [ReaderThreads.step] in Hs.
  - unfold ReaderThreads.reader_run in Hs.
    destruct (ReaderThreads.reader t) as [sp|sp|sp|f sp|]; [by injection Hs as <-|done| | |done].
    + destruct (FrameSplitter.next_frame sp) as [[f|] sp']; [|by injection Hs as <-].
      destruct (chan_try_send f _) as [[] c]; by injection Hs as <-.
    + destruct (chan_try_send f _) as [[] c]; [by injection Hs as <-|done|by injection Hs as <-].
  - unfold ReaderThreads.reader_read in Hs. destruct (ReaderThreads.reader t); try done.
    destruct r as [[|b l]| |]; by injection Hs as <-.
  - unfold ReaderThreads.watchdog_run in Hs. destruct (ReaderThreads.watchdog t); [|done].
    destruct (ReaderThreads.stop_flag t); [by injection Hs as <-|].
    destruct pending; [|by injection Hs as <-]. destruct (_ <=? _); by injection Hs as <-.
  - destruct (ReaderThreads.workers t) as [|w] eqn:Hw; [done|].
    destruct (chan_try_recv _) as [[f|] c]; [|done]. by injection Hs as <-.
  - destruct (ReaderThreads.owner t); [|done..]. by injection Hs as <-.
  - destruct (ReaderThreads.owner t); [done| | |done].
    + destruct (ReaderThreads.reader t); [done..|]. by injection Hs as <-.
    + destruct (ReaderThreads.reader t), (ReaderThreads.watchdog t); try done; by injection Hs as <-.
  - destruct (ReaderThreads.owner t); [|done..]. by injection Hs as <-.
Qed.

(** A step, by what it does to the threads and to the pool. *)
Lemma step_parts ev l l' :
  step ev l = Some l' →
  (threads l' = threads l ∨
     ∃ tev, tev ≠ ReaderThreads.WorkerExit ∧ ReaderThreads.step tev (threads l) = Some (threads l')) ∧
  (pool l' = pool l ∨ ∃ pev fs, Worker.step pev (with_frames fs (pool l)) = Some (pool l')).
Proof.
  destruct l as [t p]. intros Hs. destruct ev as [ev|ev].
  - assert (∃ t', ReaderThreads.step ev t = Some t' ∧ ev ≠ ReaderThreads.WorkerExit ∧ l' = mk t' p)
      as (t' & Ht & Hne & ->).
    { destruct ev; cbn [step threads pool] in Hs; try done;
        apply bind_Some in Hs as (t' & Ht & [= <-]); by exists t'. }
    split; [right; by exists ev|by left].
  - assert ((∃ i, ev = Worker.Take i) ∨ ∀ i, ev ≠ Worker.Take i) as [[i ->]|Hne]
      by (destruct ev as [i| | | | |]; [left; by exists i|by right..]).
    + cbn [step threads pool] in Hs. destruct (ReaderThreads.step ReaderThreads.Recv t) as [t'|] eqn:Ht; [|done].
      destruct (chan_try_recv _) as [[f|] c]; [|done]. apply bind_Some in Hs as (p' & Hp & [= <-]).
      split; right; [by exists ReaderThreads.Recv|by exists (Worker.Take i), [f]].
    + assert (∃ p', Worker.step ev p = Some p' ∧ l' = mk t p') as (p' & Hp & ->).
      { destruct ev as [i| | | | |]; [by destruct (Hne i)|..]; cbn [step threads pool] in Hs;
          apply bind_Some in Hs as (p' & Hp & [= <-]); by exists p'. }
      split; [by left|]. right. exists ev, (Worker.frames p). by destruct p.
Qed.

Lemma step_lively n ev l l' : step ev l = Some l' → lively n l → lively n l'.
Proof.
  intros Hs [Ha Hn Hw Hh Hp]. destruct (step_parts _ _ _ Hs) as [Ht Hpool]. constructor.
  - apply (run_threads n [ev] l l'); [cbn; by rewrite Hs|done].
  - done.
  - destruct Ht as [->|(tev & Hne & Ht)]; [done|]. by rewrite (threads_workers _ _ _ Ht Hne).
  - destruct Hpool as [->|(pev & fs & Hw')]; [done|]. by rewrite (step_held _ _ _ Hw').
  - destruct Hpool as [->|(pev & fs & Hw')]; [done|]. by apply (step_sound _ _ _ Hw').
Qed.

Lemma run_lively n evs l l' : run evs l = Some l' → lively n l → lively n l'.
Proof.
  revert l. induction evs as [|ev evs IH]; intros l; cbn [run]; [by intros [= <-]|].
  intros (l1 & Hs & Hr)%bind_Some Hl. by eapply IH, step_lively.
Qed.

Lemma start_lively handle config n p l :
  0 < ConnectionConfig.frame_channel_capacity config → (0 < n)%nat → sound p →
  start handle config n p = Ok l →
  lively (Z.to_nat (ConnectionConfig.frame_channel_capacity config)) l.
Proof.
  intros Hcap Hn Hp (t & Ht & [= <-])%result_bind_Ok. constructor; cbn [threads pool].
  - by eapply spawn_accounted.
  - lia.
  - injection Ht as <-. cbn. lia.
  - cbn. by rewrite length_replicate.
  - done.
Qed.
End live.

(** ** Progress *)

Section progress.
Context `{TradeTable, !AHash, !StagedTradeExt, !Memchr, !MemchrSpec}.
Context `{!Crossbeam (FrameKind.t * bytes), !CrossbeamSpec (FrameKind.t * bytes)}.
Import Live.
Implicit Types l : Live.state.

(** What is still to be done before the daemon is quiescent. *)
Definition busy (r : ReaderThreads.reader_at) : nat :=
  match r with ReaderThreads.Framing _ | ReaderThreads.Blocked _ _ => 1 | _ => 0 end.
Definition todo (l : Live.state) : nat :=
  3 * length (in_reader (ReaderThreads.reader (threads l))) + busy (ReaderThreads.reader (threads l)) +
  2 * length (chan_queue (ReaderThreads.frames (threads l))) + length (in_hand (pool l)).

(** One event of the three that make progress. *)
Definition useful (ev : event) : Prop :=
  match ev with
  | Threads ReaderThreads.ReaderRun | Pool (Worker.Take _) | Pool (Worker.Dispatch _ _) => True
  | _ => False
  end.

(** The frames of the bytes read, where they are; none is lost while a worker is
    alive. *)
Lemma lively_connected n l : lively n l → chan_connected (ReaderThreads.frames (threads l)) = true.
Proof.
  intros [(_ & _ & _ & _ & ->) _ Hw _ _]. unfold ReaderThreads.receivers_left.
  destruct (ReaderThreads.workers (threads l)); [done|]. reflexivity.
Qed.

Lemma frames_split n l :
  lively n l →
  (split_frames (ReaderThreads.bytes_in (threads l))).1 =
    ReaderThreads.received (threads l) ++ chan_queue (ReaderThreads.frames (threads l)) ++
    in_reader (ReaderThreads.reader (threads l)).
Proof.
  intros Hl. pose proof (lively_connected _ _ Hl) as Hc. destruct Hl as [((lost & Hf & Hlost) & _) _ _ _ _].
  rewrite (Hlost (or_introl Hc)) in Hf. by rewrite app_nil_r in Hf.
Qed.

(** The reader, in front of an empty channel. *)
Lemma reader_progress n l :
  lively n l → busy (ReaderThreads.reader (threads l)) = 1%nat →
  chan_queue (ReaderThreads.frames (threads l)) = [] →
  ∃ l', step (Threads ReaderThreads.ReaderRun) l = Some l' ∧ (todo l' < todo l)%nat ∧
    ReaderThreads.reader (threads l') ≠ ReaderThreads.Returned ∧
    ReaderThreads.bytes_in (threads l') = ReaderThreads.bytes_in (threads l).
Proof.
  intros Hl Hbusy Hq. pose proof (lively_connected _ _ Hl) as Hcon. pose proof (frames_split _ _ Hl) as Hf.
  pose proof (lively_accounted _ _ Hl) as (_ & _ & Hcap & _). pose proof (lively_room _ _ Hl) as Hn.
  assert (∀ f sp, ∃ c, chan_try_send f (ReaderThreads.frames (threads l)) = (Sent, c) ∧ chan_queue c = [f] ∧
    let t := ReaderThreads.with_reader (ReaderThreads.Framing sp) (ReaderThreads.with_frames c (threads l)) in
    step (Threads ReaderThreads.ReaderRun) l = Some (mk t (pool l)) →
    (todo (mk t (pool l)) < todo l)%nat) as Hsend.
  { intros f sp. pose proof (chan_try_send_spec f (ReaderThreads.frames (threads l))) as Hs.
    destruct (chan_try_send f _) as [[] c]; [|rewrite Hq in Hs; cbn in Hs; lia|destruct Hs; congruence].
    destruct Hs as (_ & _ & Hqc & _). rewrite Hq in Hqc. cbn [app] in Hqc. exists c. split_and!; [done|done|].
    intros t Hs. pose proof (frames_split _ _ (step_lively _ _ _ _ Hs Hl)) as Hf'.
    cbn [threads t ReaderThreads.with_reader ReaderThreads.with_frames ReaderThreads.bytes_in
      ReaderThreads.received ReaderThreads.frames ReaderThreads.reader] in Hf'.
    rewrite Hf, Hq, Hqc in Hf'. apply app_inv_head in Hf'. apply (f_equal length) in Hf'.
    rewrite !length_app in Hf'. cbn [length Nat.add] in Hf'. unfold todo. rewrite Hq, Hbusy, Hf'.
    cbn [threads pool t ReaderThreads.with_reader ReaderThreads.with_frames ReaderThreads.frames
      ReaderThreads.reader busy]. rewrite Hqc. cbn [length]. lia. }
  cbn [step ReaderThreads.step] in *. unfold ReaderThreads.reader_run in *.
  destruct (ReaderThreads.reader (threads l)) as [sp|sp|sp|f sp|] eqn:Hr; try done.
  - pose proof (next_frame_split sp) as Hnext. destruct (FrameSplitter.next_frame sp) as [[f|] sp'].
    + destruct (Hsend f sp') as (c & Hc & _ & Ht). rewrite Hc in *. eexists. split; [done|].
      split_and!; [by apply Ht|done|done].
    + eexists. split; [done|]. split_and!; [|done|done]. unfold todo. rewrite Hr, Hq.
      cbn [threads pool ReaderThreads.with_reader ReaderThreads.frames ReaderThreads.reader busy in_reader length].
      rewrite Hq. cbn [length]. lia.
  - destruct (Hsend f sp) as (c & Hc & _ & Ht). rewrite Hc in *. eexists. split; [done|].
    split_and!; [by apply Ht|done|done].
Qed.

(** A worker receives or dispatches. *)
Lemma pool_progress n l (now : DateTime) :
  lively n l → in_hand (pool l) ≠ [] ∨ chan_queue (ReaderThreads.frames (threads l)) ≠ [] →
  ∃ ev l', useful ev ∧ step ev l = Some l' ∧ (todo l' < todo l)%nat ∧
    ReaderThreads.reader (threads l') = ReaderThreads.reader (threads l) ∧
    ReaderThreads.bytes_in (threads l') = ReaderThreads.bytes_in (threads l).
Proof.
  intros [_ _ Hw Hheld Hs] Hbusy. destruct l as [t p]. cbn [threads pool] in *.
  destruct (decide (in_hand p = [])) as [Hh|Hh].
  - destruct Hbusy as [|Hq]; [done|]. pose proof (held_idle _ Hh Hheld) as Hidle.
    pose proof (chan_try_recv_spec (ReaderThreads.frames t)) as Hrecv.
    destruct (chan_try_recv _) as [[[k f]|] c] eqn:Hc; [|by destruct Hrecv].
    destruct Hrecv as (Hqc & _). destruct (ReaderThreads.workers t) as [|w] eqn:Hws; [done|].
    exists (Pool (Worker.Take 0)). eexists. split; [done|].
    cbn [step threads pool ReaderThreads.step Worker.step with_frames Worker.frames Worker.held
      Worker.tasks Worker.pipe]. rewrite Hws, Hc, Hidle. cbn [mbind option_bind].
    split; [reflexivity|]. split; [|done]. unfold todo. cbn [threads pool ReaderThreads.reader ReaderThreads.frames].
    rewrite Hh, Hqc. unfold in_hand. cbn [Worker.held length].
    enough (length (omap id (match parse_frame k f with
      | Ok msg => <[0%nat:=Some msg]> (Worker.held p) | Err _ => Worker.held p end)) ≤ 1)%nat by lia.
    unfold in_hand in Hh. destruct (parse_frame k f) as [msg|]; [|by rewrite Hh; cbn; lia].
    rewrite (Permutation_length (omap_insert_Some _ 0 msg Hidle)), Hh. done.
  - destruct (held_message (Worker.held p) Hh) as (i & msg & Hi).
    destruct (dispatch_total now msg (Worker.pipe p) Hs) as (p' & new & Hd & _).
    exists (Pool (Worker.Dispatch i now)). eexists. split; [done|].
    cbn [step threads pool Worker.step]. rewrite Hi, Hd. cbn [mbind option_bind].
    split; [reflexivity|]. split; [|done]. unfold todo, in_hand. cbn [threads pool Worker.held].
    rewrite (Permutation_length (omap_insert_None _ _ _ Hi)). cbn [length]. lia.
Qed.

Lemma live_progress n l (now : DateTime) :
  lively n l → ReaderThreads.reader (threads l) ≠ ReaderThreads.Returned → ¬ quiescent l →
  ∃ ev l', useful ev ∧ step ev l = Some l' ∧ (todo l' < todo l)%nat ∧
    ReaderThreads.reader (threads l') ≠ ReaderThreads.Returned ∧
    ReaderThreads.bytes_in (threads l') = ReaderThreads.bytes_in (threads l).
Proof.
  intros Hl Hret Hnq.
  destruct (decide (in_hand (pool l) = [])) as [Hh|Hh].
  2: { destruct (pool_progress n l now Hl (or_introl Hh)) as (ev & l' & Hu & Hs & Ht & Hr & Hb).
       exists ev, l'. by rewrite Hr. }
  destruct (chan_queue (ReaderThreads.frames (threads l))) as [|f q] eqn:Hq.
  2: { destruct (pool_progress n l now Hl) as (ev & l' & Hu & Hs & Ht & Hr & Hb); [right; by rewrite Hq|].
       exists ev, l'. by rewrite Hr. }
  destruct (reader_progress n l Hl) as (l' & Hs & Ht & Hr & Hb); [|done|].
  - unfold quiescent in Hnq. rewrite Hq, Hh in Hnq.
    destruct (ReaderThreads.reader (threads l)); [by destruct Hnq|by destruct Hnq|done..].
  - by exists (Threads ReaderThreads.ReaderRun), l'.
Qed.
End progress.

(** ** Settling *)

Section settling.
Context `{TradeTable, !AHash, !StagedTradeExt, !Memchr, !MemchrSpec}.
Context `{!Crossbeam (FrameKind.t * bytes), !CrossbeamSpec (FrameKind.t * bytes)}.
Import Publishing.
Implicit Types s : state.

Lemma publishing_run_app evs1 evs2 s s1 : run evs1 s = Some s1 → run (evs1 ++ evs2) s = run evs2 s1.
Proof.
  revert s. induction evs1 as [|ev evs1 IH]; intros s; cbn [run app]; [by intros [= <-]|].
  destruct (step ev s) as [s0|]; [|done]. apply IH.
Qed.

(** Some schedule without a read leads to a state with [P] and the same bytes read. *)
Definition leads (P : state → Prop) (s : state) : Prop :=
  ∃ evs s', run evs s = Some s' ∧ P s' ∧
    ReaderThreads.bytes_in (Live.threads (live s')) = ReaderThreads.bytes_in (Live.threads (live s)).

Lemma leads_here (P : state → Prop) s : P s → leads P s.
Proof. by exists [], s. Qed.
Lemma leads_step (P : state → Prop) ev s s1 :
  step ev s = Some s1 →
  ReaderThreads.bytes_in (Live.threads (live s1)) = ReaderThreads.bytes_in (Live.threads (live s)) →
  leads P s1 → leads P s.
Proof.
  intros Hs Hb (evs & s' & Hr & Hp & Hb'). exists (ev :: evs), s'. cbn [run]. rewrite Hs, Hb', Hb. done.
Qed.
Lemma leads_trans (P Q : state → Prop) s : leads P s → (∀ s', P s' → leads Q s') → leads Q s.
Proof.
  intros (evs & s' & Hr & Hp & Hb) Hpq. destruct (Hpq s' Hp) as (evs2 & s2 & Hr2 & Hq & Hb2).
  exists (evs ++ evs2), s2. by rewrite (publishing_run_app _ _ _ _ Hr), Hb2, Hb.
Qed.

Lemma leads_quiescent n (now : DateTime) s :
  lively n (live s) → ReaderThreads.reader (Live.threads (live s)) ≠ ReaderThreads.Returned →
  leads (λ s', quiescent (live s')) s.
Proof.
  remember (todo (live s)) as m eqn:Hm. revert s Hm.
  induction m as [m IH] using (well_founded_induction lt_wf). intros s Hm Hl Hr.
  assert (quiescent (live s) ∨ ¬ quiescent (live s)) as [Hq|Hq].
  { unfold quiescent. destruct (ReaderThreads.reader (Live.threads (live s))); try tauto.
    all: destruct (chan_queue _), (in_hand _); (left; by split_and!) || (right; by intros (_ & ? & ?)). }
  { by apply leads_here. }
  destruct (live_progress n (live s) now Hl Hr Hq) as (ev & l' & Hu & Hs & Ht & Hr' & Hb).
  apply (leads_step _ (Step ev) _ (mk l' (in_flight s))).
  - unfold step. assert (coalescer_event (Step ev) (live s) = None) as ->.
    { destruct ev as [|[]]; done. }
    by rewrite Hs.
  - done.
  - apply (IH (todo l')); [by rewrite Hm|done|by eapply step_lively|done].
Qed.

(** The tasks run, one after the other. *)
Definition no_tasks (s : state) : Prop := quiescent (live s) ∧ Worker.tasks (Live.pool (live s)) = [].

Lemma leads_no_tasks s : quiescent (live s) → leads no_tasks s.
Proof.
  remember (Worker.tasks (Live.pool (live s))) as ks eqn:Hks. revert s Hks.
  induction ks as [|k ks IH]; intros s Hks Hq; [by apply leads_here|].
  assert (∃ s1, step (Step (Live.Pool (Worker.RunTask 0))) s = Some s1 ∧
    Live.threads (live s1) = Live.threads (live s) ∧ Worker.tasks (Live.pool (live s1)) = ks ∧
    in_hand (Live.pool (live s1)) = in_hand (Live.pool (live s))) as (s1 & Hs & Ht & Hk & Hh).
  { unfold step. cbn [coalescer_event]. rewrite <-Hks. cbn [lookup list_lookup]. destruct k as [key v|blob].
    - cbn [CoalescerStep.step coalescer]. destruct (_ =? 0); (eexists; split; [reflexivity|]);
        cbn [live started without_task with_coalescer with_pool pool_coalescer Live.threads Live.pool
          Worker.tasks]; by rewrite <-Hks.
    - cbn [Live.step Worker.step]. rewrite <-Hks. cbn [lookup list_lookup mbind option_bind].
      eexists. split; [reflexivity|]. done. }
  apply (leads_step _ _ _ _ Hs); [by rewrite Ht|]. apply IH; [done|].
  unfold quiescent in *. by rewrite Ht, Hh.
Qed.

(** The flush task ticks. *)
Definition nothing_pending (s : state) : Prop :=
  no_tasks s ∧ Coalescer.pending (fanout_of (live s)) = ∅.

Lemma leads_nothing_pending s : no_tasks s → leads nothing_pending s.
Proof.
  intros Hs. eapply (leads_step _ (Step (Live.Pool Worker.CoalescerTick))); [reflexivity|done|].
  by apply leads_here.
Qed.

(** The calls publish what they have. *)
Lemma concat_nonempty {A} (ls : list (list A)) :
  concat ls ≠ [] → ∃ i l j x, ls !! i = Some l ∧ l !! j = Some x.
Proof.
  induction ls as [|l ls IH]; [done|]. cbn. intros Hne. destruct l as [|x l].
  - destruct (IH Hne) as (i & l & j & x & Hi & Hj). by exists (S i), l, j, x.
  - by exists 0%nat, (x :: l), 0%nat, x.
Qed.

Lemma leads_settled s : nothing_pending s → leads settled s.
Proof.
  remember (length (concat (in_flight s))) as m eqn:Hm. revert s Hm.
  induction m as [|m IH]; intros s Hm [[Hq Ht] Hp].
  { apply leads_here. split_and!; try done. by apply nil_length_inv. }
  destruct (concat_nonempty (in_flight s)) as (i & b & j & c & Hi & Hj); [by intros E; rewrite E in Hm|].
  pose proof (Permutation_length (concat_insert_delete _ _ _ _ _ Hi Hj)) as Hlen.
  eapply (leads_step _ (Publish i j)).
  - unfold step. cbn [coalescer_event CoalescerStep.step coalescer CoalescerStep.in_flight].
    rewrite Hi. cbn [mbind option_bind]. rewrite Hj. reflexivity.
  - done.
  - apply IH; [cbn [CoalescerStep.in_flight in_flight]; rewrite Hlen in Hm; by injection Hm|].
    done.
Qed.

(** (C11) The running daemon can always settle. From every state of a daemon with at
    least one worker whose reader has not returned, some schedule without another
    read ends with nothing on its way: every frame read has been received, every
    message dispatched, every task run and every payload published, and none of
    them made a thread panic or block. *)
Theorem daemon_can_settle (handle : ConnectionHandle.t) (config : ConnectionConfig.t)
    (n shards cap : nat) (writer : option TradeWriter.t) (evs : list event) (s0 s : state) (now : DateTime) :
  0 < ConnectionConfig.frame_channel_capacity config → (0 < n)%nat →
  start handle config n (Pipeline.build shards cap writer) = Ok s0 → run evs s0 = Some s →
  ReaderThreads.reader (Live.threads (live s)) ≠ ReaderThreads.Returned →
  leads settled s.
Proof.
  intros Hcap Hn Hstart Hrun Hr. set (p := Pipeline.build shards cap writer) in *.
  assert (sound p) as Hp by (eexists; apply new_refines).
  destruct (publishing_refines_live _ _ _ p _ _ _ eq_refl Hstart Hrun) as (l0 & l & Hl0 & Hl & Heq & _).
  assert (lively (Z.to_nat (ConnectionConfig.frame_channel_capacity config)) (live s)) as Hlive.
  { rewrite Heq. destruct (run_lively _ _ _ _ Hl (start_lively _ _ _ _ _ Hcap Hn Hp Hl0)). by constructor. }
  apply (leads_trans _ _ _ (leads_quiescent _ now s Hlive Hr)). intros s1 Hs1.
  apply (leads_trans _ _ _ (leads_no_tasks s1 Hs1)). intros s2 Hs2.
  apply (leads_trans _ _ _ (leads_nothing_pending s2 Hs2)). apply leads_settled.
Qed.
End settling.

(** ** Witness *)

Section witnesses.
#[local] Existing Instance chrono_reference.
#[local] Existing Instance table_reference.
#[local] Existing Instance ahash_reference.
#[local] Existing Instance memchr_reference.
#[local] Existing Instance memchr_reference_spec.
#[local] Existing Instance blob.
#[local] Existing Instance channel.
#[local] Existing Instance channel_spec.
Import Publishing.

(** Three frames are read, and the reader is blocked on a full channel. *)
Definition blocked_start : result ClientError.t state :=
  start (ConnectionHandle.mk 3 4096) narrow_config 1 (Pipeline.build 4 100 None).
Definition blocked_schedule : list event :=
  [Step (Live.Threads ReaderThreads.ReaderRun);
   Step (Live.Threads (ReaderThreads.ReaderRead
     (Reader.Data (bs "T:PETR4:110100:2:26.5!T:PETR4:110101:2:26.6!T:VALE3:110101:2:60.1!"))));
   Step (Live.Threads ReaderThreads.ReaderRun); Step (Live.Threads ReaderThreads.ReaderRun)].
Definition is_blocked (r : ReaderThreads.reader_at) : bool :=
  match r with ReaderThreads.Blocked _ _ => true | _ => false end.

Lemma blocked_observed :
  match blocked_start with
  | Ok s0 => (λ s, is_blocked (ReaderThreads.reader (Live.threads (live s)))) <$> run blocked_schedule s0
  | Err _ => None
  end = Some true.
Proof. vm_compute. reflexivity. Qed.

Lemma daemon_can_settle_witness :
  ∃ s0 s evs s', blocked_start = Ok s0 ∧ run blocked_schedule s0 = Some s ∧
    is_blocked (ReaderThreads.reader (Live.threads (live s))) = true ∧
    run evs s = Some s' ∧ settled s'.
Proof.
  pose proof blocked_observed as Ho.
  destruct blocked_start as [s0|e] eqn:Hs0; [|discriminate Ho].
  destruct (run blocked_schedule s0) as [s|] eqn:Hrun; [|discriminate Ho].
  apply (inj Some) in Ho. exists s0, s.
  destruct (daemon_can_settle (ConnectionHandle.mk 3 4096) narrow_config 1 4 100 None blocked_schedule s0 s (0, 0))
    as (evs & s' & Hr & Hset & _); [reflexivity|lia|exact Hs0|exact Hrun| |].
  - intros E. rewrite E in Ho. discriminate Ho.
  - exists evs, s'. split; [reflexivity|]. split; [exact Hrun|]. split; [exact Ho|]. split; [exact Hr|exact Hset].
Defined.
End witnesses.
